(* ===== verification/_CoqProject ===== *)
-Q . S2P
Prelude.v
RustStd.v
Errors.v
Interfaces.v
Coroutine.v
BinaryProtocol.v
Ack.v
Crypto.v
Channels.v
Mux.v
SmuxStreams.v
Handshake.v
Documents.v
Session.v
Termination.v
Endpoint.v
Connection.v
Inbound.v
Outbound.v
Commands.v
Teardown.v
Shutdown.v
Wakeups.v
Pool.v
Reconnect.v
Terminal.v
Signing.v
Channel.v
Resume.v
Builder.v
Interactive.v
PortForward.v
Tunnel.v
Forwarding.v
Metrics.v
Python.v
