(* ===== verification/Prelude.v ===== *)
(** * aws-ssm-bridge: a verification library

    The crate is a client of the AWS Systems Manager Session Manager.  A
    [SessionManager] asks the SSM API for a session, opens a WebSocket to the
    gateway it is given, and runs a reliable, optionally encrypted byte stream
    over it; shells, port forwards and multiplexed port forwards are built on
    that stream.

    ** The program and how its parts interact

<<
    python/ (PyO3 classes over everything below)
    interactive.rs --> terminal.rs        port_forward.rs --> mux.rs
          |                                     |   (a stream per TCP connection)
          +---------------+---------------------+
    builder.rs, pool.rs,  |
    reconnect.rs -----> session.rs       starts, resumes, terminates
                          |
                          v
                       connection.rs     connect, then five tasks around one state
                         |  |  |  |  |
                         |  |  |  |  +--> signing.rs (the upgrade request)
                         |  |  |  +--> channels.rs (output subscribers)
                         |  |  +--> handshake.rs --> crypto.rs (KMS keys)
                         |  +--> ack.rs (RTT, unacknowledged, out-of-order)
                         +--> binary_protocol.rs (the frames on the wire)
>>

    ** Files and the code they model

    - [Prelude]: [Result], panicking [Outcome], machine words, big-endian bytes,
      the shared tactics and hint databases.
    - [RustStd]: the parts of the Rust standard library the sources call.
    - [Errors]: src/errors.rs, the error enum, SDK errors and which are retried.
    - [Interfaces]: classes for libraries outside the repository (JSON, UUID
      display, bounded channels), each with an instance.
    - [Coroutine]: asynchronous tasks as programs that stop at every access to what
      they share, how they are polled, and the rely/guarantee logic their
      invariants are proved with.
    - [BinaryProtocol]: src/binary_protocol.rs, [ClientMessage] with
      [serialize], [deserialize], [validate]; the digest is the class [Sha256].
    - [Ack]: src/ack.rs, [AcknowledgeContent], [RttEstimator],
      [OutgoingBuffer], [IncomingBuffer].
    - [Crypto]: src/crypto.rs, [SessionCrypto] over the class [Aes256Gcm].
    - [Channels]: src/channels.rs, [OutputFanout] and [OutputStream].
    - [Mux]: src/mux.rs, frames, [SmuxSession], [SmuxStream] and the tasks.
    - [SmuxStreams]: src/mux.rs, closing a multiplexer and reading a stream in the
      parts that other tasks may come between.
    - [Tunnel]: src/mux.rs, the tasks of a [SmuxSession] as programs over a session
      with the whole of [Connection] below it.
    - [Handshake]: src/handshake.rs, [HandshakeHandler].
    - [Documents]: src/documents.rs, the [SsmDocument] trait and its types.
    - [Session]: src/session.rs, and of src/connection.rs the [Continuity] and
      [ConnectionParams] a session keeps across channels.
    - [Termination]: src/session.rs, concurrent calls of [Session::terminate] in the
      steps others may come between, and cancelled ones.
    - [Endpoint]: src/connection.rs, endpoint policy, URL sanitising and
      [dial]; src/signing.rs, [is_presigned].
    - [Connection]: src/connection.rs, the shared state ([World]), the reader,
      command, writer, retransmission and heartbeat tasks as programs, and what
      happens around them ([Event]): the socket, the tickers, the KMS, the session
      handle.
    - [Inbound], [Outbound], [Commands], [Teardown]: the proofs about [Connection],
      one file for what is received, what is numbered and sent, what callers asked
      to send, and the end of a channel.  [Teardown] also models how the handle of
      src/session.rs waits for the tasks ([join_tasks]) and aborts them ([Drop]).
    - [Shutdown]: src/shutdown.rs, [ShutdownSignal] over the class [Notify], and the
      signal handlers' task.
    - [Wakeups]: src/session.rs, how a session wakes those who wait for it: flags
      and notifications as separate steps.
    - [Pool]: src/pool.rs, [SessionPool] and its calls in flight.
    - [Reconnect]: src/reconnect.rs, the state the handles share, the supervisor,
      the output pumps and the handle's calls.
    - [Terminal]: src/terminal.rs, [RawModeGuard] over the class [Crossterm], and
      [TerminalReader] with its stdin thread and resize watcher.
    - [Signing]: src/signing.rs, [UpgradeSigner] over the class [HttpLib] and an
      abstract SigV4.
    - [Channel]: src/connection.rs, [connect], composed of [Endpoint], [Signing]
      and the initial [World] of [Connection]; src/session.rs, how a
      [SessionManager] is built.
    - [Resume]: src/reconnect.rs over src/session.rs, a session over the channels
      [start_session] and [resume_session] open for it one after the other.
    - [Builder]: src/builder.rs, [SessionBuilder].
    - [Interactive]: src/interactive.rs, [InteractiveShell]: [drive] and [pump] as
      one machine ([Shell]) over a session and a terminal.
    - [PortForward]: src/port_forward.rs, [PortForwarder]: the accept loop, the
      connection tasks and the multiplexer as one machine ([Forwarder]).
    - [Forwarding]: src/port_forward.rs, the pumps of the connections over [Tunnel].
    - [Metrics]: src/metrics.rs, the recorder's registration.
    - [Python]: src/python, exceptions, configurations and the classes.

    Structures are records with the fields of the source, enums are inductive types with
    its variants, and an operation keeps its name.  An operation under a mutex is one
    step on the guarded state.  Objects that two owners share (a subscriber's queue, a
    stream's cell) live in a store and the owners hold the key.  The tasks of a data
    channel are programs of [Coroutine], trees whose steps each do one lock, atomic or
    queue operation, or wait until they can, so that every interleaving of the tasks is
    a run and a task may be parked at any await; the multiplexer's tasks are such
    programs in [Tunnel] and functions of the branch their [select!] took in [Mux];
    [drive] and [forward] are machines whose phases are their awaits, and one [poll]
    takes them to the next; a call of [terminate] is a sequence of steps in
    [Termination] and runs to its end at once where the pool, the reconnecting session
    and the shell make it.  Fixed-width integers are [Z] with the wrap-around,
    saturation or panic of the source's operator written out; a Python float is an IEEE
    double.

    ** What the theorems show

    - The wire format: parsing inverts printing, parsing never panics on any
      bytes, accepts only well-formed frames, reprints what it accepted, and
      notices a changed payload ([wire_roundtrip], [deserialize_never_panics],
      [deserialize_sound], [reserialize], [payload_corruption_detected],
      [header_layout]).
    - Reliable delivery, for any interleaving of the tasks with each other and the
      outside: inbound payloads reach the application exactly once and in order,
      and each output stream is a piece of what the agent sent; the reader makes
      progress whatever the other tasks wait for; outbound sequence numbers have no
      gap; what is numbered is what callers asked for, in order and completely
      ([inbound_exactly_once], [inbound_in_order], [subscriber_reads_stream],
      [reader_drains], [outbound_gapless], [commands_refined]).  The outgoing and
      incoming buffers refine a FIFO and a finite map ([outgoing_refines_fifo],
      [incoming_buffer_spec], [retransmit_budget], [rtt_tracks_samples],
      [retransmitted_ack_keeps_rtt], [ack_roundtrip]).
    - Waiting: where the model says that a task waits for a condition, the source
      waits for a notification; none is lost ([no_lost_wakeup]).
      [closed_before_reason] is a limit: who notices the close by its flag may not
      be able to read the reason yet.
    - The end of a channel: after a close every task makes finitely many steps, none waits
      but for the socket or the KMS, and if these answer every task ends
      ([shutdown_completes]); a handle that is dropped aborts
      the tasks it still holds ([drop_aborts_all]), which after [terminate] are
      none, so a task that did not end in time stays ([terminate_then_drop]).
      [lost_ack_never_repeated] proves a limit of the code: an acknowledgement
      that the writer queue refused is not sent again for a duplicate.
    - Opening a channel: what goes to which endpoint, how often and with a signature of
      each attempt's own, and that every session that opens runs on a channel made from
      its own opening, in a state for which the guarantees above hold
      ([endpoint_policy_spec], [dial_bounded], [sign_spec], [connect_spec],
      [opened_session_correct]).
    - Encryption: two peers that ran the key exchange decrypt each other's
      messages; once encryption was asked for, no path of the handshake completes
      without it ([peers_decrypt_each_other], [negotiate_spec], [decrypt_spec],
      [no_downgrade], [handshake_once], [on_request_spec],
      [challenge_proves_key]).
    - Output fan-out: a subscriber that is not lagged gets every chunk in order,
      one subscriber does not disturb another, and a closed fan-out ends its
      streams ([fanout_lossless], [send_isolated], [closed_never_pends]).
    - Multiplexing: the bytes a peer writes to a stream are, in order and once, the bytes
      read from it followed by those held for it, with the parts of a read and of a close
      in any interleaving, and when the queue says that a clean end has come all were
      read; frames do not depend on how they were split; the demultiplexer is total and
      isolates streams; closing is final ([stream_delivery], [recv_any_chunking],
      [dispatch_total], [push_isolated], [close_final], [write_frames]).  Over a
      session and its channel, for any interleaving, what a stream is read is what
      the agent's messages carry for it, and what its writer queues is what the
      channel sends ([tunnel_inbound], [tunnel_outbound]).  [all_readable] in these and
      the theorems on delivery says that every message from where the channel took over
      can be delivered.  [recv_misses_close] and
      [read_race_loses] are limits of the code: a close the receive task does not
      notice, and a clean end of file with a frame unread.
    - Port forwarding, for any interleaving of connections, agent and shutdown: never
      more connections than allowed, what is refused, and that everything winds down
      after the shutdown signal or the session's end ([connection_limit],
      [forward_refuses], [forward_winds_down]).  The whole way, over the multiplexer's
      tasks and the data channel: what a TCP peer sends is what the channel's messages
      carry under the connection's identifier, and what the agent's messages carry for it
      is what the peer is written ([forwarded_end_to_end]).
    - The interactive shell, for any interleaving: output and input pass verbatim,
      the terminal gets its mode back on every path, and the shell ends with its
      session ([shell_transparent], [terminal_verbatim], [terminal_restored],
      [shell_ends]); [attach_timeout_leaves_open] is a limit of the code.
    - Sessions: the close reason is set once, resuming continues the stream, a
      session that fails to connect is terminated, validation accepts exactly the
      documented configurations, and a builder is its last writes ([core_history],
      [resume_keeps_stream], [start_session_no_leak], [terminate_spec],
      [config_validate_spec], [builder_last_write]).  [terminate_spec] is for any number
      of calls on one session, in steps and cancelled at will; its limits are
      [cancelled_release_lost] (a call dropped while the tasks wind down releases nothing,
      and no later one does) and [concurrent_release_twice].
    - A session over its channels: through any number of them, each taking over the
      stream state of the one before, the agent's stream is delivered in order and once
      and what is sent is numbered without a gap ([resumed_stream]), provided a channel's
      tasks have ended when the next one opens.  Limits of the code: nothing waits for
      that, and two channels at once can skip a message ([overlap_skips_message]);
      data that [send] accepted but the channel has not numbered is not part of that
      state ([resume_cuts_input]); output delivered before the pump of a resumed session
      has subscribed, or after the channel was closed, reaches nobody
      ([resumed_output_missed], [close_swallows_output]).
    - The pool, for any interleaving of calls: its limits hold, no session it
      opened or was given is left running unnoticed, and its counts are exact
      ([pool_bounded], [pool_no_leak], [pool_stats_exact]).
    - Reconnection, for any interleaving of supervisor, pumps and callers: the
      events refine a small automaton with numbered attempts and bounded backoff
      ([event_protocol]); a terminated handle is inert ([terminate_inert]) except
      when the service's answer is in flight ([terminate_race]); what a caller
      sees after the supervisor gave up ([after_giving_up]), and that it gives up
      at once when the service cannot be reached ([unreachable_service_gives_up]).
    - The shutdown signal loses no wake-up ([cancelled_never_missed]) and the first
      operating-system signal triggers it ([first_signal_shuts_down]); a recorder
      is registered once and told everything after that ([register_once]).
    - Python: a session configured there is the one the builder makes, [async with]
      closes an entered session, releases it unless someone else ended it or the exit is
      cancelled ([cancelled_exit_unreleased]), and hides no exception, timeouts
      are converted to the nearest nanosecond, and which exceptions a handler
      catches ([build_config_builder], [async_with_spec], [seconds_spec],
      [ssm_error_catches]).

    The remaining theorems, such as [header_layout], [reserialize],
    [push_isolated], [write_frames] and [on_request_spec], are further facts of the
    same kind about their files.

    ** Parameters

    SHA-256, AES-256-GCM, JSON, base64, UUID display, URL parsing, HTTP requests
    and headers, SigV4, bounded channels, [Notify], semaphores, [tokio::io::copy],
    crossterm, TCP sockets, KMS, the SSM API, the AWS configuration and the
    WebSocket handshake are arguments or classes; what the proofs need of them is
    a law of the class or a hypothesis of the theorem.  Readings of the clock,
    fresh UUIDs and nonces are supplied by arguments or by streams in the world.

    ** Fuel and bounds

    - The demultiplexer's loop takes the buffer's length plus one: every
      iteration that continues consumes at least a header ([dispatch_total],
      [tunnel_inbound]).
    - Draining the reorder buffer takes the number of buffered messages plus one:
      every iteration removes one; running out is a panic of the model, which
      [reader_drains] excludes.
    - Sending in chunks takes the length of the data: a chunk is not empty; running
      out is a panic, which [commands_refined] excludes.
    - Decimal printing takes 20 digits, enough for a 64-bit integer.
    - [dial] makes [CONNECT_ATTEMPTS] attempts, as the source does.
    - Loops that end when the outside world says so (the supervisor, the tasks, the
      accept loop, the shell, a waiting [send]) are step functions; their theorems
      quantify over all lists of steps.  A pool's [shutdown] takes one step per
      session and one to finish ([pool_no_leak]); a shell whose session closed
      takes one poll per queued chunk and one to return ([shell_ends]); a
      forwarder one poll of the accept loop and one of each task
      ([forward_winds_down]).

    ** Not modelled

    The time a task takes, and that a runtime polls every task that can go on; a resumed
    channel beside an old one whose tasks have not ended yet, which share one
    [Continuity] in the code ([Resume] composes channels whose predecessor has ended; by
    [shutdown_completes] it does if the socket and the KMS answer, but [reconnect] does
    not wait for it); the panics of [interval_at] on a heartbeat interval of zero and of
    [mpsc::channel] on an output buffer above its maximum; the steps between
    [poll_write]'s look at the closed flag and its place in the queue; the resize
    watcher of non-unix builds and their Ctrl-C handler; the construction of SDK
    clients; which call sites report which metric; log output and [Debug]
    implementations; the registration of the Python module.  Getters and conversions
    that only hand a field on, the crate root, examples, benchmarks and fuzz targets
    have nothing to prove about.

    ** Compositions

    [Channel] composes the opening of a channel with its tasks, [Resume] the channels of a
    session, [Tunnel] the multiplexer with a channel, [Forwarding] the forwarded
    connections with both.  The pool, the reconnecting session, the shell and the Python
    classes are verified over a session's interface ([SessionCore], its queue and its
    output), for any behaviour of the channel behind it. *)

From stdpp Require Export prelude list gmap strings.
From Stdlib Require Export Init.Byte.
From Stdlib Require Strings.Byte.

(** ** Results *)

(** [std::result::Result<A, E>]. *)
Inductive Result (E A : Type) : Type :=
| Ok (a : A)
| Err (e : E).
Arguments Ok {E A} _.
Arguments Err {E A} _.

(** The [?] operator: stdpp's monadic notation [x ← e; k] over [Result]. *)
#[export] Instance Result_ret {E} : MRet (Result E) := @Ok E.
#[export] Instance Result_bind {E} : MBind (Result E) := λ A B f r,
  match r with Ok a => f a | Err e => Err e end.

Definition is_ok {E A} (r : Result E A) : bool :=
  match r with Ok _ => true | Err _ => false end.

Definition ok {E A} (r : Result E A) : option A :=
  match r with Ok a => Some a | Err _ => None end.

Definition map_err {E F A} (f : E → F) (r : Result E A) : Result F A :=
  match r with Ok a => Ok a | Err e => Err (f e) end.

(** A call that may also abort by panicking (an out-of-range slice, a short
    [Buf] read, a checked arithmetic overflow). *)
Inductive Outcome (A : Type) : Type :=
| Done (a : A)
| Panicked.
Arguments Done {A} _.
Arguments Panicked {A}.

#[export] Instance Outcome_ret : MRet Outcome := @Done.
#[export] Instance Outcome_bind : MBind Outcome := λ A B f r,
  match r with Done a => f a | Panicked => Panicked end.

(** ** Lengths and machine integers *)

Declare Scope ssm_scope.
Delimit Scope ssm_scope with ssm.
Open Scope Z_scope.

(** Lengths and byte counts are [Z], so that the protocol's limits (10 MiB)
    stay binary literals. *)
Definition len {A} (l : list A) : Z := Z.of_nat (length l).
Notation "'#' l" := (len l) (at level 8, format "# l") : ssm_scope.
Open Scope ssm_scope.

(** Release builds wrap: [wrap_u w] is arithmetic on [u<w>], [wrap_i w] on [i<w>]. *)
Definition wrap_u (w z : Z) : Z := z mod 2 ^ w.
Definition wrap_i (w z : Z) : Z := (z + 2 ^ (w - 1)) mod 2 ^ w - 2 ^ (w - 1).

Definition in_u (w z : Z) : bool := (0 <=? z) && (z <? 2 ^ w).
Definition in_i (w z : Z) : bool := (- 2 ^ (w - 1) <=? z) && (z <? 2 ^ (w - 1)).

(** ** Bytes *)

Definition byte_val (b : byte) : Z := Z.of_N (Byte.to_N b).
Definition byte_of (z : Z) : byte :=
  match Byte.of_N (Z.to_N (z mod 256)) with Some b => b | None => x00 end.

Fixpoint le_bytes (n : nat) (z : Z) : list byte :=
  match n with
  | O => []
  | S n' => byte_of z :: le_bytes n' (z / 256)
  end.

Fixpoint le_value (bs : list byte) : Z :=
  match bs with
  | [] => 0
  | b :: bs' => byte_val b + 256 * le_value bs'
  end.

Definition be_bytes (n : nat) (z : Z) : list byte := rev (le_bytes n z).
Definition be_value (bs : list byte) : Z := le_value (rev bs).

#[export] Instance byte_eq_dec : EqDecision byte := Byte.byte_eq_dec.

(** ** Automation *)

(** Facts about lengths, widths and codecs that close routine side goals. *)
Create HintDb ssm discriminated.
#[export] Hint Constants Opaque : ssm.

(** Split every [if]/[match] on a decidable test in the goal or context. *)
Ltac split_ifs :=
  repeat match goal with
  | |- context [if ?c then _ else _] => destruct c eqn:?
  | H : context [if ?c then _ else _] |- _ => destruct c eqn:?
  end.

(** Turn boolean comparisons into propositions for [lia]. *)
Ltac bool_lia :=
  rewrite ?andb_true_iff, ?andb_false_iff, ?orb_true_iff, ?orb_false_iff,
    ?negb_true_iff, ?negb_false_iff,
    ?Z.leb_le, ?Z.leb_gt, ?Z.ltb_lt, ?Z.ltb_ge, ?Z.eqb_eq, ?Z.eqb_neq in *; lia.

(** ** Shared lemmas *)

Lemma len_nonneg {A} (l : list A) : 0 ≤ #l.
Proof. unfold len; lia. Qed.

Lemma len_nil {A} : #(@nil A) = 0.
Proof. done. Qed.

Lemma len_cons {A} (x : A) l : #(x :: l) = 1 + #l.
Proof. unfold len; cbn [length]; lia. Qed.

Lemma len_app {A} (l k : list A) : #(l ++ k) = #l + #k.
Proof. unfold len; rewrite length_app; lia. Qed.

Lemma len_take {A} n (l : list A) : #(take n l) = Z.min (Z.of_nat n) (#l).
Proof. unfold len; rewrite length_take; lia. Qed.

Lemma len_drop {A} n (l : list A) : #(drop n l) = Z.max 0 (#l - Z.of_nat n).
Proof. unfold len; rewrite length_drop; lia. Qed.

Lemma len_zero_nil {A} (l : list A) : #l = 0 ↔ l = [].
Proof. destruct l; unfold len; cbn; split; (done || lia). Qed.

#[export] Hint Resolve len_nonneg : ssm.

Lemma byte_val_range b : 0 ≤ byte_val b < 256.
Proof.
  unfold byte_val. pose proof (Byte.to_N_bounded b). lia.
Qed.

Lemma byte_val_of z : byte_val (byte_of z) = z mod 256.
Proof.
  unfold byte_val, byte_of.
  pose proof (Z.mod_pos_bound z 256 ltac:(lia)).
  destruct (Byte.of_N (Z.to_N (z mod 256))) as [b|] eqn:E.
  - apply Byte.to_of_N in E. rewrite E. lia.
  - apply Byte.of_N_None_iff in E. lia.
Qed.

Lemma byte_val_inj b c : byte_val b = byte_val c → b = c.
Proof.
  unfold byte_val; intros H%N2Z.inj.
  pose proof (Byte.of_to_N b) as Hb; pose proof (Byte.of_to_N c) as Hc.
  rewrite H in Hb. congruence.
Qed.

Lemma byte_of_val b : byte_of (byte_val b) = b.
Proof.
  apply byte_val_inj. rewrite byte_val_of. apply Z.mod_small, byte_val_range.
Qed.

Lemma length_le_bytes n z : length (le_bytes n z) = n.
Proof. revert z; induction n as [|n IH]; intros z; cbn; auto. Qed.

Lemma len_le_bytes n z : #(le_bytes n z) = Z.of_nat n.
Proof. unfold len. by rewrite length_le_bytes. Qed.

Lemma length_be_bytes n z : length (be_bytes n z) = n.
Proof. unfold be_bytes. by rewrite length_rev, length_le_bytes. Qed.

Lemma le_value_bytes n z : le_value (le_bytes n z) = z mod 256 ^ Z.of_nat n.
Proof.
  revert z; induction n as [|n IH]; intros z; cbn [le_bytes le_value].
  - by rewrite Z.mod_1_r.
  - rewrite IH, byte_val_of, Nat2Z.inj_succ, Z.pow_succ_r by lia.
    rewrite Z.rem_mul_r; lia.
Qed.

Lemma le_value_range bs : 0 ≤ le_value bs < 256 ^ #bs.
Proof.
  induction bs as [|b bs IH]; [done|].
  rewrite len_cons, Z.pow_add_r by (auto with ssm; lia).
  cbn [le_value]. pose proof (byte_val_range b). lia.
Qed.

Lemma le_bytes_value bs : le_bytes (length bs) (le_value bs) = bs.
Proof.
  induction bs as [|b bs IH]; [done|]. cbn [length le_bytes le_value].
  pose proof (byte_val_range b). f_equal.
  - apply byte_val_inj. rewrite byte_val_of.
    rewrite (Z.mul_comm 256), Z.mod_add by lia. by apply Z.mod_small.
  - rewrite (Z.mul_comm 256), Z.div_add, Z.div_small by lia. done.
Qed.

Lemma be_value_bytes n z : be_value (be_bytes n z) = z mod 256 ^ Z.of_nat n.
Proof. unfold be_value, be_bytes. by rewrite rev_involutive, le_value_bytes. Qed.

Lemma be_value_range bs : 0 ≤ be_value bs < 256 ^ #bs.
Proof.
  unfold be_value. pose proof (le_value_range (rev bs)) as H.
  unfold len in *. by rewrite length_rev in H.
Qed.

Lemma be_bytes_value n bs : length bs = n → be_bytes n (be_value bs) = bs.
Proof.
  intros <-. unfold be_value, be_bytes.
  rewrite <- (length_rev bs), le_bytes_value. apply rev_involutive.
Qed.

Lemma le_bytes_mod n z : le_bytes n (z mod 256 ^ Z.of_nat n) = le_bytes n z.
Proof.
  rewrite <- le_value_bytes. rewrite <- (length_le_bytes n z) at 1. apply le_bytes_value.
Qed.

(** The low [n] bytes depend on the value modulo [256^n] only. *)
Lemma be_bytes_ext n y z :
  y mod 256 ^ Z.of_nat n = z mod 256 ^ Z.of_nat n → be_bytes n y = be_bytes n z.
Proof.
  intros Hyz. unfold be_bytes. by rewrite <- (le_bytes_mod n y), Hyz, le_bytes_mod.
Qed.

Lemma take_app_exact {A} n (l k : list A) : length l = n → take n (l ++ k) = l.
Proof. intros <-. by rewrite take_app_length. Qed.

Lemma drop_app_exact {A} n (l k : list A) : length l = n → drop n (l ++ k) = k.
Proof. intros <-. by rewrite drop_app_length. Qed.

Lemma Result_bind_Ok {E A B} (f : A → Result E B) r b :
  (r ≫= f) = Ok b ↔ ∃ a, r = Ok a ∧ f a = Ok b.
Proof.
  destruct r as [a|e]; cbn; split; [by eauto|by intros (?&[= ->]&?)|done|by intros (?&?&?)].
Qed.

Lemma wrap_u_small w z : 0 ≤ z < 2 ^ w → wrap_u w z = z.
Proof. apply Z.mod_small. Qed.

Lemma wrap_i_small w z : 0 < w → - 2 ^ (w - 1) ≤ z < 2 ^ (w - 1) → wrap_i w z = z.
Proof.
  intros Hw Hz. unfold wrap_i.
  assert (2 ^ w = 2 * 2 ^ (w - 1)) by
    (rewrite <- Z.pow_succ_r by lia; f_equal; lia).
  rewrite Z.mod_small; lia.
Qed.

Lemma wrap_i_mod w z : 0 < w → wrap_i w (z mod 2 ^ w) = wrap_i w z.
Proof.
  intros Hw. unfold wrap_i. by rewrite Zplus_mod_idemp_l.
Qed.

Lemma wrap_i_plus w a b : wrap_i w (wrap_i w a + b) = wrap_i w (a + b).
Proof.
  unfold wrap_i. f_equal. set (h := 2 ^ (w - 1)).
  replace ((a + h) mod 2 ^ w - h + b + h) with ((a + h) mod 2 ^ w + b) by lia.
  rewrite Zplus_mod_idemp_l. f_equal. lia.
Qed.

Lemma wrap_i_succ w z : wrap_i w (wrap_i w z + 1) = wrap_i w (z + 1).
Proof. apply wrap_i_plus. Qed.

Lemma wrap_u_range w z : 0 ≤ w → in_u w (wrap_u w z) = true.
Proof.
  intros Hw. unfold in_u, wrap_u. pose proof (Z.mod_pos_bound z (2 ^ w) ltac:(lia)). bool_lia.
Qed.

Lemma wrap_i_range w z : 0 < w → in_i w (wrap_i w z) = true.
Proof.
  intros Hw. unfold in_i, wrap_i. assert (0 < 2 ^ w) by (apply Z.pow_pos_nonneg; lia).
  pose proof (Z.mod_pos_bound (z + 2 ^ (w - 1)) (2 ^ w)).
  assert (2 ^ w = 2 * 2 ^ (w - 1)) by (rewrite <- Z.pow_succ_r by lia; f_equal; lia). bool_lia.
Qed.

(** Filtering depends on the predicate at the elements of the list only. *)
Lemma list_filter_ext_in {A} (P Q : A → Prop) `{∀ x, Decision (P x), ∀ x, Decision (Q x)}
    (l : list A) :
  (∀ x, x ∈ l → P x ↔ Q x) → filter P l = filter Q l.
Proof.
  induction l as [|x l IH]; intros HPQ; [done|].
  rewrite !filter_cons, IH by (intros; apply HPQ; set_solver).
  specialize (HPQ x ltac:(set_solver)).
  destruct (decide (P x)), (decide (Q x)); tauto.
Qed.
