(* ===== verification/RustStd.v ===== *)
(** * The Rust standard library, as far as the crate uses it

    - [str] is a list of Unicode scalar values; [lit] embeds an ASCII literal.
    - [to_utf8]/[from_utf8]/[from_utf8_lossy] are [str::as_bytes],
      [std::str::from_utf8] (with the [valid_up_to]/[error_len] of its error) and
      [String::from_utf8_lossy].
    - [trim_matches], [trim], [truncate]-style prefixes, [parse::<i32>].
    - [Duration] is a number of nanoseconds with the panicking [+] and [*].
    - [text] is what [format!] builds: the literal pieces and the interpolated
      values, unrendered, so that no table of the formatter is made up. *)

From Stdlib Require Import Ascii SpecFloat.
From S2P Require Import Prelude.

(** ** Characters and strings *)

(** A [char] is a scalar value: below 0x110000 and not a surrogate. *)
Definition is_char (c : Z) : bool :=
  (0 <=? c) && (c <? 0x110000) && negb ((0xD800 <=? c) && (c <? 0xE000)).

Abbreviation str := (list Z).

Fixpoint lit (s : string) : str :=
  match s with
  | EmptyString => []
  | String a s' => Z.of_N (N_of_ascii a) :: lit s'
  end.

(** [char::is_whitespace]: the Unicode [White_Space] property. *)
Definition is_whitespace (c : Z) : bool :=
  ((0x9 <=? c) && (c <=? 0xD)) || (c =? 0x20) || (c =? 0x85) || (c =? 0xA0)
  || (c =? 0x1680) || ((0x2000 <=? c) && (c <=? 0x200A))
  || (c =? 0x2028) || (c =? 0x2029) || (c =? 0x202F) || (c =? 0x205F) || (c =? 0x3000).

Fixpoint trim_start_matches (f : Z → bool) (s : str) : str :=
  match s with
  | [] => []
  | c :: s' => if f c then trim_start_matches f s' else s
  end.

Definition trim_matches (f : Z → bool) (s : str) : str :=
  rev (trim_start_matches f (rev (trim_start_matches f s))).

Definition trim (s : str) : str := trim_matches is_whitespace s.

(** ** UTF-8 *)

Definition utf8_char (c : Z) : list byte :=
  if c <? 0x80 then [byte_of c]
  else if c <? 0x800 then [byte_of (0xC0 + c / 64); byte_of (0x80 + c mod 64)]
  else if c <? 0x10000 then
    [byte_of (0xE0 + c / 4096); byte_of (0x80 + c / 64 mod 64); byte_of (0x80 + c mod 64)]
  else
    [byte_of (0xF0 + c / 262144); byte_of (0x80 + c / 4096 mod 64);
     byte_of (0x80 + c / 64 mod 64); byte_of (0x80 + c mod 64)].

Definition to_utf8 (s : str) : list byte := concat (map utf8_char s).

Definition is_cont (b : byte) : bool := (0x80 <=? byte_val b) && (byte_val b <? 0xC0).

(** The admissible second bytes of three- and four-byte sequences. *)
Definition second3 (x y : Z) : bool :=
  ((x =? 0xE0) && (0xA0 <=? y) && (y <=? 0xBF))
  || ((0xE1 <=? x) && (x <=? 0xEC) && (0x80 <=? y) && (y <=? 0xBF))
  || ((x =? 0xED) && (0x80 <=? y) && (y <=? 0x9F))
  || ((0xEE <=? x) && (x <=? 0xEF) && (0x80 <=? y) && (y <=? 0xBF)).
Definition second4 (x y : Z) : bool :=
  ((x =? 0xF0) && (0x90 <=? y) && (y <=? 0xBF))
  || ((0xF1 <=? x) && (x <=? 0xF3) && (0x80 <=? y) && (y <=? 0xBF))
  || ((x =? 0xF4) && (0x80 <=? y) && (y <=? 0x8F)).

(** One unit of a byte string: a character, or a maximal invalid sequence with
    the [error_len] of [Utf8Error] ([None]: the input ends inside a character). *)
Inductive utf8_item :=
| Char (c : Z)
| Bad (error_len : option Z).

Definition low6 (b : byte) : Z := byte_val b mod 64.

Fixpoint utf8_items (bs : list byte) : list utf8_item :=
  match bs with
  | [] => []
  | b0 :: r0 =>
    let x := byte_val b0 in
    if x <? 0x80 then Char x :: utf8_items r0
    else if (0xC2 <=? x) && (x <=? 0xDF) then
      match r0 with
      | [] => [Bad None]
      | b1 :: r1 =>
        if is_cont b1 then Char ((x - 0xC0) * 64 + low6 b1) :: utf8_items r1
        else Bad (Some 1) :: utf8_items r0
      end
    else if (0xE0 <=? x) && (x <=? 0xEF) then
      match r0 with
      | [] => [Bad None]
      | b1 :: r1 =>
        if second3 x (byte_val b1) then
          match r1 with
          | [] => [Bad None]
          | b2 :: r2 =>
            if is_cont b2
            then Char ((x - 0xE0) * 4096 + low6 b1 * 64 + low6 b2) :: utf8_items r2
            else Bad (Some 2) :: utf8_items r1
          end
        else Bad (Some 1) :: utf8_items r0
      end
    else if (0xF0 <=? x) && (x <=? 0xF4) then
      match r0 with
      | [] => [Bad None]
      | b1 :: r1 =>
        if second4 x (byte_val b1) then
          match r1 with
          | [] => [Bad None]
          | b2 :: r2 =>
            if is_cont b2 then
              match r2 with
              | [] => [Bad None]
              | b3 :: r3 =>
                if is_cont b3
                then Char ((x - 0xF0) * 262144 + low6 b1 * 4096 + low6 b2 * 64 + low6 b3)
                       :: utf8_items r3
                else Bad (Some 3) :: utf8_items r2
              end
            else Bad (Some 2) :: utf8_items r1
          end
        else Bad (Some 1) :: utf8_items r0
      end
    else Bad (Some 1) :: utf8_items r0
  end.

Record Utf8Error := { valid_up_to : Z; error_len : option Z }.

Fixpoint collect_chars (at_ : Z) (items : list utf8_item) : Result Utf8Error str :=
  match items with
  | [] => Ok []
  | Bad e :: _ => Err {| valid_up_to := at_; error_len := e |}
  | Char c :: rest =>
    match collect_chars (at_ + #(utf8_char c)) rest with
    | Ok s => Ok (c :: s)
    | Err e => Err e
    end
  end.

Definition from_utf8 (bs : list byte) : Result Utf8Error str :=
  collect_chars 0 (utf8_items bs).

Definition from_utf8_lossy (bs : list byte) : str :=
  map (λ i, match i with Char c => c | Bad _ => 0xFFFD end) (utf8_items bs).

(** ** Numbers *)

Fixpoint digits (acc : Z) (s : str) : option Z :=
  match s with
  | [] => Some acc
  | c :: s' => if (0x30 <=? c) && (c <=? 0x39) then digits (acc * 10 + (c - 0x30)) s' else None
  end.

(** [str::parse::<i32>().ok()]: an optional sign, at least one decimal digit,
    and a value in range. *)
Definition parse_i32 (s : str) : option Z :=
  v ← match s with
      | [] => None
      | 0x2B :: [] | 0x2D :: [] => None
      | 0x2B :: ds => digits 0 ds
      | 0x2D :: ds => v ← digits 0 ds; Some (- v)
      | ds => digits 0 ds
      end;
  if in_i 32 v then Some v else None.

(** [ToString] for unsigned integers: the decimal numeral without leading zeros.
    Twenty digits are enough for 64 bits. *)
Fixpoint decimal (fuel : nat) (z : Z) (acc : str) : str :=
  match fuel with
  | O => acc
  | S fuel =>
    let acc' := (0x30 + z mod 10) :: acc in
    if z <? 10 then acc' else decimal fuel (z / 10) acc'
  end.
Definition u64_to_string (z : Z) : str := decimal 20 z [].

(** [str::parse::<u64>().ok()]. *)
Definition parse_u64 (s : str) : option Z :=
  v ← match s with
      | [] => None
      | 0x2B :: [] | 0x2D :: [] => None
      | 0x2B :: ds => digits 0 ds
      | ds => digits 0 ds
      end;
  if in_u 64 v then Some v else None.

(** ** Durations *)

(** Nanoseconds. *)
Abbreviation Duration := Z (only parsing).
Definition from_millis (ms : Z) : Duration := ms * 1000000.
Definition from_secs (s : Z) : Duration := s * 1000000000.
Definition DURATION_MAX : Duration := (2 ^ 64 - 1) * 1000000000 + 999999999.

Definition as_millis (d : Duration) : Z := d / 1000000.

Definition checked_dur (d : Z) : Outcome Duration :=
  if d <=? DURATION_MAX then Done d else Panicked.
(** [Duration + Duration] and [Duration * u32] panic on overflow. *)
Definition dur_add (a b : Duration) : Outcome Duration := checked_dur (a + b).
Definition dur_mul (a : Duration) (k : Z) : Outcome Duration := checked_dur (a * k).
(** [Duration / u32] rounds down to the nanosecond. *)
Definition dur_div (a : Duration) (k : Z) : Duration := a / k.
Definition abs_diff (a b : Duration) : Duration := Z.abs (a - b).
(** [Ord::clamp]. *)
Definition clamp (d lo hi : Z) : Z := if d <? lo then lo else if hi <? d then hi else d.

(** ** Formatted text *)

Inductive piece :=
| PLit (s : string)           (* literal text of the format string *)
| PInt (z : Z)                (* an integer *)
| PStr (s : str)              (* a string, {} *)
| PDebugStr (s : str)         (* a string, {:?} *)
| PDuration (d : Duration)    (* a duration, {:?} *)
| PUtf8Error (e : Utf8Error)
| PF64 (v : spec_float).      (* an f64, {} *)

Abbreviation text := (list piece).

#[export] Instance Utf8Error_eq_dec : EqDecision Utf8Error.
Proof. solve_decision. Defined.
#[export] Instance spec_float_eq_dec : EqDecision spec_float.
Proof. solve_decision. Defined.
#[export] Instance piece_eq_dec : EqDecision piece.
Proof. solve_decision. Defined.

(** ** Lemmas *)

Lemma utf8_char_ascii c : 0 ≤ c < 0x80 → utf8_char c = [byte_of c].
Proof. intros H. unfold utf8_char. split_ifs; [done|bool_lia..]. Qed.

Lemma utf8_items_char c rest :
  is_char c = true → utf8_items (utf8_char c ++ rest) = Char c :: utf8_items rest.
Proof.
  unfold is_char, utf8_char. intros Hc.
  assert (0 ≤ c < 0x110000 ∧ ¬ (0xD800 ≤ c < 0xE000)) as [Hr Hs] by bool_lia. clear Hc.
  assert (Hval : ∀ z, 0 ≤ z < 256 → byte_val (byte_of z) = z)
    by (intros; rewrite byte_val_of; by apply Z.mod_small).
  assert (Hlow : ∀ z, 0 ≤ z < 64 → (0x80 + z) mod 64 = z) by
    (intros z Hz; rewrite <- (Z.mod_small z 64) at 2 by lia;
     by rewrite <- (Z.mod_add z 2 64), Z.add_comm by lia).
  pose proof (Z.mod_pos_bound c 64 ltac:(lia)).
  pose proof (Z.mod_pos_bound (c / 64) 64 ltac:(lia)).
  pose proof (Z.mod_pos_bound (c / 4096) 64 ltac:(lia)).
  pose proof (Z.div_mod c 64 ltac:(lia)).
  pose proof (Z.div_mod (c / 64) 64 ltac:(lia)) as H64.
  pose proof (Z.div_mod (c / 4096) 64 ltac:(lia)) as H4096.
  rewrite Z.div_div in H64 by lia. rewrite Z.div_div in H4096 by lia.
  change (64 * 64) with 4096 in *. change (4096 * 64) with 262144 in *.
  destruct (Z.ltb_spec c 0x80); [|destruct (Z.ltb_spec c 0x800);
    [|destruct (Z.ltb_spec c 0x10000)]];
    cbn [app utf8_items]; unfold is_cont, low6, second3, second4;
    rewrite ?Hval by lia.
  all: repeat match goal with
       | |- context [if ?b then _ else _] =>
         first [ replace b with true by (symmetry; bool_lia)
               | replace b with false by (symmetry; bool_lia) ]; cbn beta iota
       end.
  all: try done.
  all: do 2 f_equal; rewrite ?Hlow by lia; lia.
Qed.

Lemma utf8_items_to_utf8 s :
  forallb is_char s = true → utf8_items (to_utf8 s) = map Char s.
Proof.
  unfold to_utf8. induction s as [|c s IH]; [done|].
  cbn [forallb map concat]. intros [Hc Hs]%andb_true_iff.
  by rewrite utf8_items_char, IH.
Qed.

Lemma collect_chars_map at_ s : collect_chars at_ (map Char s) = Ok s.
Proof.
  revert at_; induction s as [|c s IH]; intros at_; cbn; [done|]. by rewrite IH.
Qed.

(** Decoding is a left inverse of encoding on every Rust string. *)
Lemma from_to_utf8 s : forallb is_char s = true → from_utf8 (to_utf8 s) = Ok s.
Proof. intros H. unfold from_utf8. by rewrite utf8_items_to_utf8, collect_chars_map. Qed.

Lemma from_to_utf8_lossy s : forallb is_char s = true → from_utf8_lossy (to_utf8 s) = s.
Proof.
  intros H. unfold from_utf8_lossy. rewrite utf8_items_to_utf8, map_map by done.
  apply map_id.
Qed.

Lemma checked_dur_le d : d ≤ DURATION_MAX → checked_dur d = Done d.
Proof. intros H. unfold checked_dur. by rewrite (proj2 (Z.leb_le _ _) H). Qed.

Lemma clamp_range d lo hi : lo ≤ hi → lo ≤ clamp d lo hi ≤ hi.
Proof. intros H. unfold clamp. split_ifs; bool_lia. Qed.

Lemma digits_nonneg acc s v : 0 ≤ acc → digits acc s = Some v → 0 ≤ v.
Proof.
  revert acc; induction s as [|c s IH]; intros acc Hacc; cbn [digits].
  - by intros [= <-].
  - destruct (_ && _) eqn:E; [|done]. intros H. eapply IH, H. bool_lia.
Qed.

Lemma parse_i32_range s v : parse_i32 s = Some v → - 2 ^ 31 ≤ v < 2 ^ 31.
Proof.
  unfold parse_i32. intros (w & _ & H)%bind_Some.
  destruct (in_i 32 w) eqn:E; simplify_eq. unfold in_i in E.
  change (32 - 1) with 31 in E. bool_lia.
Qed.

Lemma digits_decimal n : ∀ z acc a, 0 ≤ z < 10 ^ Z.of_nat n → (0 < n)%nat →
  ∃ k, 0 ≤ k ∧ digits a (decimal n z acc) = digits (a * 10 ^ k + z) acc.
Proof.
  induction n as [|n IH]; intros z acc a Hz Hn; [lia|]. cbn [decimal].
  pose proof (Z.mod_pos_bound z 10 ltac:(lia)). pose proof (Z.div_mod z 10 ltac:(lia)).
  assert (Hd : (0x30 <=? 0x30 + z mod 10) && (0x30 + z mod 10 <=? 0x39) = true) by bool_lia.
  destruct (Z.ltb_spec z 10) as [Hlt|Hge].
  - exists 1. split; [lia|]. cbn [digits]. rewrite Hd. f_equal.
    rewrite Z.mod_small by lia. lia.
  - rewrite Nat2Z.inj_succ, Z.pow_succ_r in Hz by lia.
    destruct (IH (z / 10) ((0x30 + z mod 10) :: acc) a) as (k & Hk & ->).
    { split; [apply Z.div_pos; lia|]. apply Z.div_lt_upper_bound; lia. }
    { destruct n; [|lia]. cbn in Hz. lia. }
    exists (k + 1). split; [lia|]. cbn [digits]. rewrite Hd. f_equal.
    rewrite Z.pow_add_r by lia. lia.
Qed.

(** The first character of a numeral is a digit, so no sign is read. *)
Lemma decimal_head n z acc : 0 ≤ z → (0 < n)%nat →
  ∃ c rest, decimal n z acc = c :: rest ∧ 0x30 ≤ c ≤ 0x39.
Proof.
  revert z acc; induction n as [|n IH]; intros z acc Hz Hn; [lia|]. cbn [decimal].
  pose proof (Z.mod_pos_bound z 10 ltac:(lia)).
  destruct (z <? 10); [eexists _, _; split; [done|lia]|].
  destruct n; [eexists _, _; split; [done|lia]|]. apply IH; [apply Z.div_pos; lia|lia].
Qed.

Lemma parse_u64_to_string z : 0 ≤ z < 2 ^ 64 → parse_u64 (u64_to_string z) = Some z.
Proof.
  intros Hz. unfold u64_to_string.
  destruct (digits_decimal 20 z [] 0) as (k & Hk & Hd); [|lia|].
  { split; [lia|]. eapply Z.lt_trans; [apply Hz|done]. }
  destruct (decimal_head 20 z []) as (c & rest & He & Hc); [lia..|].
  cbn [digits] in Hd. rewrite Z.mul_0_l, Z.add_0_l, He in Hd. rewrite He.
  assert (Hp : parse_u64 (c :: rest) = v ← digits 0 (c :: rest); if in_u 64 v then Some v else None).
  { unfold parse_u64. assert (c ≠ 0x2B ∧ c ≠ 0x2D) as [] by lia.
    destruct c as [|c|c]; [done| |done]. do 6 (destruct c as [c|c|]; try done). }
  rewrite Hp, Hd. cbn. unfold in_u. destruct (_ && _) eqn:E; [done|]. bool_lia.
Qed.
