(* ===== verification/Errors.v ===== *)
(** * Errors (src/errors.rs)

    [Error] is the crate's flat error enum, [is_retriable] the classification the
    reconnect supervisor acts on, [to_string] its [Display]. *)

From S2P Require Import Prelude RustStd.

(** The [std::io::ErrorKind]s the classification names; every other kind is
    [OtherKind]. *)
Inductive ErrorKind :=
| ConnectionReset | ConnectionAborted | ConnectionRefused | BrokenPipe
| TimedOut | NotConnected | Interrupted | OtherKind.

(** An [std::io::Error]: its kind and its rendered message. *)
Record IoError := { kind : ErrorKind; io_text : text }.

Inductive Error :=
| Error_Aws (message : text) (code : option str)
| Error_Protocol (m : text)
| Error_Transport (m : text)
| Error_SessionClosed (m : text)
| Error_Config (m : text)
| Error_Unsupported (m : text)
| Error_Crypto (m : text)
| Error_Io (e : IoError)
| Error_Serialization (m : text)
| Error_Timeout (d : Duration).

Abbreviation Res := (Result Error).

(** [#[error("...")]]: the [Display] of each variant. *)
Definition to_string (e : Error) : text :=
  match e with
  | Error_Aws m code =>
    [PLit "AWS API error"]
      ++ match code with Some c => [PLit " ("; PStr c; PLit ")"] | None => [] end
      ++ [PLit ": "] ++ m
  | Error_Protocol m => PLit "protocol error: " :: m
  | Error_Transport m => PLit "transport error: " :: m
  | Error_SessionClosed m => PLit "session closed: " :: m
  | Error_Config m => PLit "invalid configuration: " :: m
  | Error_Unsupported m => PLit "unsupported by this client: " :: m
  | Error_Crypto m => PLit "session encryption error: " :: m
  | Error_Io e => PLit "I/O error: " :: io_text e
  | Error_Serialization m => PLit "serialization error: " :: m
  | Error_Timeout d => [PLit "operation timed out after "; PDuration d]
  end.

(** [Error::aws], [Error::protocol], [Error::transport]. *)
Definition aws (m : text) : Error := Error_Aws m None.
Definition protocol (m : text) : Error := Error_Protocol m.
Definition transport (m : text) : Error := Error_Transport m.

Definition transient_codes : list str := map lit [
  "ThrottlingException"; "Throttling"; "ThrottledException"; "TooManyRequestsException";
  "RequestThrottled"; "RequestThrottledException";
  "ProvisionedThroughputExceededException"; "TransactionInProgressException";
  "ServiceUnavailable"; "ServiceUnavailableException"; "InternalServerError";
  "InternalFailure"; "RequestTimeout"; "RequestTimeoutException" ]%string.

Definition is_transient_aws_code (code : str) : bool :=
  bool_decide (code ∈ transient_codes).

Definition is_retriable (e : Error) : bool :=
  match e with
  | Error_Timeout _ | Error_Transport _ => true
  | Error_Io e =>
    match kind e with
    | ConnectionReset | ConnectionAborted | ConnectionRefused | BrokenPipe
    | TimedOut | NotConnected | Interrupted => true
    | OtherKind => false
    end
  | Error_Aws _ code =>
    match code with Some c => is_transient_aws_code c | None => false end
  | _ => false
  end.

(** What the conversion reads of an [SdkError]: the code and message of the service's
    answer, which a call that got no answer has not, and the [Debug] text. *)
Record SdkError := { sdk_code : option str; sdk_message : option str; sdk_debug : text }.

(** [From<SdkError<E, R>> for Error]. *)
Definition from_sdk_error (e : SdkError) : Error :=
  Error_Aws match sdk_message e with Some m => [PStr m] | None => sdk_debug e end (sdk_code e).

(** ** Lemmas *)

(** A failed call is retried exactly if the service answered with a transient code:
    one that could not be delivered is permanent. *)
Lemma from_sdk_retriable e :
  is_retriable (from_sdk_error e) = true ↔ ∃ c, sdk_code e = Some c ∧ c ∈ transient_codes.
Proof.
  destruct e as [[c|] m d]; cbn; unfold is_transient_aws_code; rewrite ?bool_decide_eq_true;
    naive_solver.
Qed.

(** Only timeouts, transport failures, seven I/O kinds and the listed AWS codes
    are retriable; an AWS error without a code is permanent. *)
Lemma is_retriable_spec e :
  is_retriable e = true ↔
    (∃ d, e = Error_Timeout d) ∨ (∃ m, e = Error_Transport m)
    ∨ (∃ io, e = Error_Io io ∧ kind io ≠ OtherKind)
    ∨ (∃ m c, e = Error_Aws m (Some c) ∧ c ∈ transient_codes).
Proof.
  destruct e as [m [c|]| | | | | | |[k t]| |]; cbn;
    unfold is_transient_aws_code; rewrite ?bool_decide_eq_true;
    try destruct k; naive_solver.
Qed.
