(* ===== verification/Interfaces.v ===== *)
(** * Interfaces of the libraries the crate builds on

    - [Serde]: JSON encoding of one type ([serde_json]), with its round trip.
    - [UuidDisplay]: the hyphenated form of a UUID (crate [uuid]).
    - [Mpsc]: a bounded channel ([tokio::sync::mpsc]).  A channel is seen through
      its queued items, its capacity and whether the receiver is alive; the laws
      are the documented behaviour of [try_send], [recv] and dropping a handle.
    - [Notify]: notifying waiters ([tokio::sync::Notify]).

    Each class has an instance here, so that theorems assuming its laws can be
    applied. *)

From S2P Require Import Prelude RustStd.

(** ** JSON *)

Class Serde (T : Type) := {
  to_vec : T → Result text (list byte);
  from_slice : list byte → Result text T }.

Class SerdeOk (T : Type) `{Serde T} : Prop :=
  from_to_vec x bs : to_vec x = Ok bs → from_slice bs = Ok x.

Class UuidDisplay := uuid_to_string : list byte → str.

(** ** Bounded channels *)

Inductive TrySend := Sent | Full | Closed.

#[export] Instance TrySend_eq_dec : EqDecision TrySend.
Proof. solve_decision. Defined.

(** What a receiver sees: an item, the end of the stream, or nothing yet. *)
Inductive Recv (A : Type) := Item (a : A) | Ended | Pending_.
Arguments Item {A} _.
Arguments Ended {A}.
Arguments Pending_ {A}.

Class Mpsc (C : Type → Type) := {
  channel {A} : Z → C A;             (* mpsc::channel(capacity) *)
  queued {A} : C A → list A;
  capacity_of {A} : C A → Z;
  rx_alive {A} : C A → bool;         (* the receiver has not been dropped *)
  tx_alive {A} : C A → bool;         (* some sender has not been dropped *)
  try_send {A} : A → C A → TrySend * C A;
  poll_recv {A} : C A → Recv A * C A;
  drop_rx {A} : C A → C A;
  drop_tx {A} : C A → C A }.         (* drop the last sender *)

Class MpscOk (C : Type → Type) `{Mpsc C} : Prop := {
  channel_spec {A} n : 0 < n →
    queued (channel n : C A) = [] ∧ capacity_of (channel n : C A) = n
    ∧ rx_alive (channel n : C A) = true ∧ tx_alive (channel n : C A) = true;
  try_send_closed {A} (x : A) c :
    rx_alive c = false → try_send x c = (Closed, c);
  try_send_full {A} (x : A) c :
    rx_alive c = true → capacity_of c ≤ #(queued c) → try_send x c = (Full, c);
  try_send_ok {A} (x : A) c :
    rx_alive c = true → #(queued c) < capacity_of c →
    ∃ c', try_send x c = (Sent, c') ∧ queued c' = queued c ++ [x]
      ∧ capacity_of c' = capacity_of c ∧ rx_alive c' = true ∧ tx_alive c' = tx_alive c;
  poll_recv_item {A} (c : C A) x q :
    queued c = x :: q →
    ∃ c', poll_recv c = (Item x, c') ∧ queued c' = q
      ∧ capacity_of c' = capacity_of c ∧ rx_alive c' = rx_alive c ∧ tx_alive c' = tx_alive c;
  poll_recv_empty {A} (c : C A) :
    queued c = [] → poll_recv c = (if tx_alive c then Pending_ else Ended, c);
  drop_rx_spec {A} (c : C A) :
    rx_alive (drop_rx c) = false ∧ tx_alive (drop_rx c) = tx_alive c;
  drop_tx_spec {A} (c : C A) :
    queued (drop_tx c) = queued c ∧ capacity_of (drop_tx c) = capacity_of c
    ∧ rx_alive (drop_tx c) = rx_alive c ∧ tx_alive (drop_tx c) = false }.

Section mpsc_lemmas.
Context {C : Type → Type} `{MpscOk C} {A : Type}.

(** The laws by the verdict of the call. *)
Lemma try_send_inv (x : A) (c c' : C A) r :
  try_send x c = (r, c') →
  match r with
  | Sent => rx_alive c = true ∧ queued c' = queued c ++ [x] ∧ rx_alive c' = true
            ∧ capacity_of c' = capacity_of c ∧ tx_alive c' = tx_alive c
  | Full => rx_alive c = true ∧ capacity_of c ≤ #(queued c) ∧ c' = c
  | Closed => rx_alive c = false ∧ c' = c
  end.
Proof.
  destruct (rx_alive c) eqn:Ha.
  - destruct (Z_lt_le_dec (#(queued c)) (capacity_of c)).
    + destruct (try_send_ok x c) as (d & -> & ?); [done..|]. intros [= <- <-]. tauto.
    + rewrite try_send_full by done. by intros [= <- <-].
  - rewrite try_send_closed by done. by intros [= <- <-].
Qed.

Lemma poll_recv_inv (c c' : C A) r :
  poll_recv c = (r, c') →
  match r with
  | Item x => queued c = x :: queued c' ∧ capacity_of c' = capacity_of c
              ∧ rx_alive c' = rx_alive c ∧ tx_alive c' = tx_alive c
  | Ended => queued c = [] ∧ tx_alive c = false ∧ c' = c
  | Pending_ => queued c = [] ∧ tx_alive c = true ∧ c' = c
  end.
Proof.
  destruct (queued c) as [|x q] eqn:Hq.
  - rewrite poll_recv_empty by done. by destruct (tx_alive c) eqn:?; intros [= <- <-].
  - destruct (poll_recv_item c x q Hq) as (d & -> & ?). intros [= <- <-].
    destruct_and?. split_and!; congruence.
Qed.
End mpsc_lemmas.

(** ** A channel that satisfies the laws *)

Record Chan (A : Type) := MkChan { ch_q : list A; ch_cap : Z; ch_rx : bool; ch_tx : bool }.
Arguments MkChan {A} _ _ _ _.
Arguments ch_q {A} _.
Arguments ch_cap {A} _.
Arguments ch_rx {A} _.
Arguments ch_tx {A} _.

#[export] Instance Chan_mpsc : Mpsc Chan := {
  channel A n := MkChan [] n true true;
  queued A := ch_q;
  capacity_of A := ch_cap;
  rx_alive A := ch_rx;
  tx_alive A := ch_tx;
  try_send A x c :=
    if negb (ch_rx c) then (Closed, c)
    else if ch_cap c <=? #(ch_q c) then (Full, c)
    else (Sent, MkChan (ch_q c ++ [x]) (ch_cap c) (ch_rx c) (ch_tx c));
  poll_recv A c :=
    match ch_q c with
    | x :: q => (Item x, MkChan q (ch_cap c) (ch_rx c) (ch_tx c))
    | [] => (if ch_tx c then Pending_ else Ended, c)
    end;
  drop_rx A c := MkChan [] (ch_cap c) false (ch_tx c);
  drop_tx A c := MkChan (ch_q c) (ch_cap c) (ch_rx c) false }.

#[export] Instance Chan_mpsc_ok : MpscOk Chan.
Proof.
  split; cbn; try done.
  - by intros A x c ->.
  - intros A x c -> H. cbn. by rewrite (proj2 (Z.leb_le _ _) H).
  - intros A x c Hr H. rewrite Hr. cbn. rewrite (proj2 (Z.leb_gt _ _) H). by eexists.
  - intros A c x q Hq. rewrite Hq. by eexists.
  - intros A c Hq. by rewrite Hq.
Qed.

(** ** A codec for every countable type *)

(** One byte per binary digit of stdpp's encoding of the value. *)
Fixpoint pos_bytes (p : positive) : list byte :=
  match p with
  | xH => []
  | xO p => x00 :: pos_bytes p
  | xI p => x01 :: pos_bytes p
  end.

Fixpoint bytes_pos (bs : list byte) : positive :=
  match bs with
  | [] => xH
  | x00 :: bs => xO (bytes_pos bs)
  | _ :: bs => xI (bytes_pos bs)
  end.

Definition toy_serde (T : Type) `{Countable T} : Serde T := {|
  to_vec x := Ok (pos_bytes (encode x));
  from_slice bs := match decode (bytes_pos bs) with
                   | Some x => Ok x
                   | None => Err [PLit "expected value"] end |}.

Lemma bytes_pos_bytes p : bytes_pos (pos_bytes p) = p.
Proof. induction p; cbn; congruence. Qed.

Lemma toy_serde_ok (T : Type) `{Countable T} : @SerdeOk T (toy_serde T).
Proof. intros x bs [= <-]. cbn. by rewrite bytes_pos_bytes, decode_encode. Qed.

(** ** Notification *)

(** [tokio::sync::Notify].  Its waiters are named: [enable] creates
    and enqueues a [Notified] future. *)
Class Notify (N : Type) := {
  notify_new : N;
  enable : N → nat * N;
  notify_waiters : N → N;
  enqueued : N → nat → bool;         (* waiting for a notification *)
  woken : N → nat → bool }.          (* its await resolves *)

Class NotifyOk (N : Type) `{Notify N} : Prop := {
  enable_enqueues n : enqueued (enable n).2 (enable n).1 = true;
  enable_fresh n : woken n (enable n).1 = false;
  enable_enqueued n i : enqueued n i = true → enqueued (enable n).2 i = true;
  enable_woken n i : woken (enable n).2 i = woken n i;
  notify_wakes n i : enqueued n i = true → woken (notify_waiters n) i = true;
  notify_only n i : woken (notify_waiters n) i = true → enqueued n i = true ∨ woken n i = true;
  notify_woken n i : woken n i = true → woken (notify_waiters n) i = true;
  new_quiet i : woken notify_new i = false }.

Record Bell := { bell_next : nat; bell_woken : nat }.

(** Waiters are numbered; those below [bell_woken] have been notified. *)
#[export] Instance Bell_notify : Notify Bell := {
  notify_new := {| bell_next := 0; bell_woken := 0 |};
  enable b := (Nat.max (bell_next b) (bell_woken b),
               {| bell_next := S (Nat.max (bell_next b) (bell_woken b));
                  bell_woken := bell_woken b |});
  notify_waiters b :=
    {| bell_next := bell_next b; bell_woken := Nat.max (bell_next b) (bell_woken b) |};
  enqueued b i := (bell_woken b <=? i)%nat && (i <? bell_next b)%nat;
  woken b i := (i <? bell_woken b)%nat }.

#[export] Instance Bell_notify_ok : NotifyOk Bell.
Proof.
  split; intros *; unfold enqueued, woken, enable, notify_waiters, notify_new, Bell_notify;
    cbn [fst snd bell_next bell_woken];
    rewrite ?andb_true_iff, ?Nat.leb_le, ?Nat.ltb_lt, ?Nat.ltb_ge; done || lia.
Qed.
