(* ===== verification/Coroutine.v ===== *)
(** * Tasks that interleave

    Asynchronous code as a tree of atomic steps on a shared state.  A step is a
    partial function: where it is undefined the code waits (an await that is not
    ready, a queue without room, a lock somebody holds) and is polled again later.
    Between any two steps other tasks may run, so that a theorem about all lists of
    polls covers every interleaving, parallel ones included.

    [wp] is a program logic for such trees: [K] is what a task knows while others
    run, [pre] what that knowledge says of the state, [post] what a step has to
    establish.  A task repeats its body, one round of the loop of the source, for as
    long as the body says so. *)

From S2P Require Import Prelude.

Section Coroutine.
Context {S E : Type}.

#[local] Unset Elimination Schemes.
Inductive Prog (A : Type) :=
| Ret (r : Result E A)
| Crash                              (* a panic *)
| Step (f : S → option (Prog A * S)).
#[local] Set Elimination Schemes.
Arguments Ret {A} _.
Arguments Crash {A}.
Arguments Step {A} _.

(** Induction with a hypothesis for every program a step may continue with. *)
Lemma Prog_tree_ind {A} (P : Prog A → Prop) :
  (∀ r, P (Ret r)) → P Crash →
  (∀ f, (∀ s p' s', f s = Some (p', s') → P p') → P (Step f)) → ∀ p, P p.
Proof.
  intros HR HC HS. fix IH 1. intros [r| |f]; [apply HR|apply HC|]. apply HS. intros s p' s'.
  destruct (f s) as [[q t]|]; [intros [= <- _]; apply IH|discriminate].
Qed.

#[global] Instance Prog_ret : MRet Prog := λ A a, Ret (Ok a).

#[global] Instance Prog_bind : MBind Prog := λ A B g,
  fix bind (p : Prog A) : Prog B :=
    match p with
    | Ret (Ok a) => g a
    | Ret (Err e) => Ret (Err e)
    | Crash => Crash
    | Step f => Step (λ s, match f s with Some (p', s') => Some (bind p', s') | None => None end)
    end.

(** Run to the end whatever the outcome: a guard is dropped on the error path too. *)
Definition attempt {A} : Prog A → Prog (Result E A) :=
  fix attempt p :=
    match p with
    | Ret r => Ret (Ok r)
    | Crash => Crash
    | Step f => Step (λ s, match f s with Some (p', s') => Some (attempt p', s') | None => None end)
    end.

(** One step: waiting, failing or not, without and with a result. *)
Definition res {A} (r : Result E A) : Prog A := Ret r.
Definition wait {A} (f : S → option (Result E A * S)) : Prog A :=
  Step (λ s, match f s with Some (r, s') => Some (Ret r, s') | None => None end).
Definition act {A} (f : S → A * S) : Prog A := wait (λ s, let '(a, s') := f s in Some (Ok a, s')).
Definition modify (f : S → S) : Prog () := act (λ s, ((), f s)).
Definition gets {A} (f : S → A) : Prog A := act (λ s, (f s, s)).

(** ** Tasks *)

Inductive Task := Running (p : Prog bool) | Stopped | Panicked_ | Aborted.

(** Between two rounds, also before the first. *)
Definition at_head : Task := Running (Ret (Ok true)).

(** One poll of a task: one step, or none where it waits. *)
Definition poll_task (body : Prog bool) (t : Task) (s : S) : Task * S :=
  match t with
  | Running p =>
    match match p with Ret (Ok true) => body | _ => p end with
    | Step f => match f s with Some (p', s') => (Running p', s') | None => (t, s) end
    | Ret (Ok true) => (t, s)
    | Ret _ => (Stopped, s)
    | Crash => (Panicked_, s)
    end
  | Stopped | Panicked_ | Aborted => (t, s)
  end.

(** ** Program logic *)

Section wp.
Context {K : Type} (pre : K → S → Prop) (post : K → S → K → S → Prop)
  (stuck : K → S → Prop) (crash : K → Prop).

Definition wp {A} : Prog A → (Result E A → K → Prop) → K → Prop :=
  fix wp p Q k :=
    match p with
    | Ret r => Q r k
    | Crash => crash k
    | Step f => ∀ s, pre k s →
        match f s with
        | None => stuck k s
        | Some (p', s') => ∃ k', post k s k' s' ∧ wp p' Q k'
        end
    end.

Lemma wp_mono {A} (p : Prog A) (Q Q' : Result E A → K → Prop) k :
  (∀ r k, Q r k → Q' r k) → wp p Q k → wp p Q' k.
Proof.
  intros HQ. revert k. induction p as [r| |f IH] using Prog_tree_ind; intros k Hp; [by apply HQ|done|].
  intros s Hs. specialize (Hp s Hs). destruct (f s) as [[p' s']|] eqn:Ef; [|done].
  destruct Hp as (k' & Hpost & Hp'). exists k'. split; [done|]. by eapply IH.
Qed.

Lemma wp_bind {A B} (p : Prog A) (g : A → Prog B) Q k :
  wp p (λ r k, match r with Ok a => wp (g a) Q k | Err e => Q (Err e) k end) k →
  wp (p ≫= g) Q k.
Proof.
  revert k. induction p as [[a|e]| |f IH] using Prog_tree_ind; intros k Hp; [exact Hp..|].
  intros s Hs. specialize (Hp s Hs). cbn. destruct (f s) as [[p' s']|] eqn:Ef; [|done].
  destruct Hp as (k' & Hpost & Hp'). exists k'. split; [done|]. by eapply IH.
Qed.

Lemma wp_attempt {A} (p : Prog A) Q k :
  wp p (λ r, Q (Ok r)) k → wp (attempt p) Q k.
Proof.
  revert k. induction p as [r| |f IH] using Prog_tree_ind; intros k Hp; [exact Hp..|].
  intros s Hs. specialize (Hp s Hs). cbn. destruct (f s) as [[p' s']|] eqn:Ef; [|done].
  destruct Hp as (k' & Hpost & Hp'). exists k'. split; [done|]. by eapply IH.
Qed.

Lemma wp_wait {A} (f : S → option (Result E A * S)) Q k :
  (∀ s, pre k s →
     match f s with
     | None => stuck k s
     | Some (r, s') => ∃ k', post k s k' s' ∧ Q r k'
     end) → wp (wait f) Q k.
Proof.
  intros Hf s Hs. specialize (Hf s Hs). by destruct (f s) as [[r s']|].
Qed.

Lemma wp_act {A} (f : S → A * S) Q k :
  (∀ s, pre k s → ∃ k', post k s k' (f s).2 ∧ Q (Ok (f s).1) k') → wp (act f) Q k.
Proof. intros Hf. apply wp_wait. intros s Hs. specialize (Hf s Hs). by destruct (f s). Qed.

Lemma wp_modify f Q k :
  (∀ s, pre k s → ∃ k', post k s k' (f s) ∧ Q (Ok ()) k') → wp (modify f) Q k.
Proof. intros Hf. by apply wp_act. Qed.

Lemma wp_gets {A} (f : S → A) Q k :
  (∀ s, pre k s → ∃ k', post k s k' s ∧ Q (Ok (f s)) k') → wp (gets f) Q k.
Proof. intros Hf. by apply wp_act. Qed.

(** A task between two polls: its program is correct for the rounds to come, if [I]
    holds of its knowledge at the head of the loop; [J] holds once it has stopped, and
    [A] once it has been aborted. *)
Definition task_ok (I J A : K → Prop) (t : Task) (k : K) : Prop :=
  match t with
  | Running p => wp p (λ r k, match r with Ok true => I k | _ => J k end) k
  | Stopped => J k
  | Panicked_ => crash k
  | Aborted => A k
  end.

Lemma poll_ok (I J A : K → Prop) body t k s :
  (∀ k, I k → wp body (λ r k, match r with Ok true => I k | _ => J k end) k) →
  task_ok I J A t k → pre k s →
  let '(t', s') := poll_task body t s in
  ∃ k', task_ok I J A t' k' ∧ (post k s k' s' ∨ k' = k ∧ s' = s).
Proof.
  intros Hbody Ht Hs. destruct t as [p| | |]; cbn; eauto.
  set (q := match p with Ret (Ok true) => body | _ => p end).
  assert (Hq : wp q (λ r k, match r with Ok true => I k | _ => J k end) k).
  { subst q. destruct p as [[[]|e]| |f]; [by apply Hbody|done..]. }
  clearbody q. destruct q as [[[]|e]| |f]; cbn in Hq; eauto.
  pose proof (Hq s Hs) as Hf. destruct (f s) as [[p' s']|] eqn:Ef; [|by eauto].
  destruct Hf as (k' & ? & ?). eauto.
Qed.
End wp.

(** ** Running a task alone *)

(** Polls of one task with nobody in between, to its end or to where it waits. *)
Definition run {A} : Prog A → S → Prog A * S :=
  fix run p s :=
    match p with
    | Step f => match f s with Some (p', s') => run p' s' | None => (p, s) end
    | _ => (p, s)
    end.

Lemma run_polls body p s :
  ∃ n, Nat.iter n (λ '(t, s), poll_task body t s) (Running p, s)
       = (Running (run p s).1, (run p s).2).
Proof.
  revert s. induction p as [r| |f IH] using Prog_tree_ind; intros s; [by exists 0%nat..|].
  cbn. destruct (f s) as [[p' s']|] eqn:Ef; [|by exists 0%nat].
  destruct (IH s p' s' Ef s') as [n Hn]. exists (n + 1)%nat. rewrite Nat.iter_add. cbn. by rewrite Ef.
Qed.

(** A whole round. *)
Lemma round_polls body s s' :
  body ≠ Ret (Ok true) → run body s = (Ret (Ok true), s') →
  ∃ n, Nat.iter n (λ '(t, s), poll_task body t s) (at_head, s) = (at_head, s').
Proof.
  intros Hne Hr. destruct body as [r| |f] eqn:Eb; [by injection Hr as -> _|done|]. rewrite <- Eb.
  cbn in Hr. destruct (f s) as [[p s1]|] eqn:Ef; [|done].
  destruct (run_polls body p s1) as [n Hn]. rewrite Hr in Hn. exists (n + 1)%nat.
  rewrite Nat.iter_add. cbn. rewrite Eb, Ef. by rewrite <- Eb.
Qed.

(** A program that never waits and never panics finishes. *)
Lemma run_total {K A} (pre : K → S → Prop) (p : Prog A) Q k s :
  wp pre (λ _ _ k' s', pre k' s') (λ _ _, False) (λ _, False) p Q k → pre k s →
  ∃ r s' k', run p s = (Ret r, s') ∧ pre k' s' ∧ Q r k'.
Proof.
  revert k s. induction p as [r| |f IH] using Prog_tree_ind; intros k s Hp Hs; [by eauto 6|done|].
  specialize (Hp s Hs). cbn. destruct (f s) as [[p' s']|] eqn:Ef; [|done].
  destruct Hp as (k' & Hs' & Hp'). by eapply IH.
Qed.
(** A relation between the states before and after every step, whatever the others
    do meanwhile; the program may wait or panic only if [L]. *)
Section keeps.
Context (L : Prop) (R : S → S → Prop).

Definition keeps {A} (p : Prog A) : Prop :=
  wp (λ _ _, True) (λ _ s _ s', R s s') (λ _ _, L) (λ _, L) p (λ _ _, True) ().

Lemma keeps_res {A} (r : Result E A) : keeps (Ret r).
Proof. done. Qed.
Lemma keeps_bind {A B} (p : Prog A) (g : A → Prog B) :
  keeps p → (∀ a, keeps (g a)) → keeps (p ≫= g).
Proof.
  intros Hp Hg. apply wp_bind. eapply wp_mono; [|exact Hp]. intros [a|e] [] _; [apply Hg|done].
Qed.
Lemma keeps_attempt {A} (p : Prog A) : keeps p → keeps (attempt p).
Proof. intros Hp. by apply wp_attempt. Qed.
Lemma keeps_wait {A} (f : S → option (Result E A * S)) :
  (∀ s, match f s with Some (_, s') => R s s' | None => L end) → keeps (wait f).
Proof.
  intros Hf. apply wp_wait. intros s _. specialize (Hf s). destruct (f s) as [[r s']|]; [|done].
  by exists ().
Qed.
Lemma keeps_act {A} (f : S → A * S) : (∀ s, R s (f s).2) → keeps (act f).
Proof. intros Hf. apply wp_act. intros s _. by exists (). Qed.

(** Every poll of a task whose programs are such keeps the relation. *)
Definition task_keeps (t : Task) : Prop :=
  match t with Running p => keeps p | _ => True end.

Lemma poll_keeps body t s :
  (∀ s, R s s) → keeps body → task_keeps t →
  let '(t', s') := poll_task body t s in task_keeps t' ∧ R s s'.
Proof.
  intros Hr Hb Ht. destruct t as [p| | |]; cbn; auto.
  set (q := match p with Ret (Ok true) => body | _ => p end).
  assert (Hq : keeps q) by (subst q; by destruct p as [[[]|e]| |f]).
  clearbody q. destruct q as [[[]|e]| |f]; cbn; auto.
  pose proof (Hq s I) as Hs. destruct (f s) as [[p' s']|]; [|by split].
  destruct Hs as ([] & ? & ?). auto.
Qed.
End keeps.

Lemma keeps_mono {A} (L L' : Prop) (R R' : S → S → Prop) (p : Prog A) :
  (L → L') → (∀ s s', R s s' → R' s s') → keeps L R p → keeps L' R' p.
Proof.
  intros HL HR. unfold keeps. induction p as [r| |f IH] using Prog_tree_ind; [done|exact HL|].
  intros Hp s _. specialize (Hp s I).
  destruct (f s) as [[p' s']|] eqn:Ef; [|by apply HL]. destruct Hp as ([] & Hq & Hp).
  exists (). split; [by apply HR|]. by eapply IH.
Qed.

(** Such a program under a richer logic, if its steps do not change what is known. *)
Lemma wp_keeps {K A} (pre : K → S → Prop) post (stuck : K → S → Prop) crash L R (p : Prog A)
    (Q : Result E A → K → Prop) k :
  (L → (∀ s, stuck k s) ∧ crash k) → (∀ s s', R s s' → pre k s → post k s k s') →
  keeps L R p → (∀ r, Q r k) → wp pre post stuck crash p Q k.
Proof.
  intros HL HR Hp HQ. unfold keeps in Hp. induction p as [r| |f IH] using Prog_tree_ind.
  - apply HQ.
  - by apply HL.
  - intros s Hs. specialize (Hp s I). destruct (f s) as [[p' s']|] eqn:Ef; [|by apply HL].
    destruct Hp as ([] & Hq & Hp). exists k. split; [by apply HR|]. by eapply IH.
Qed.

(** ** Ending *)

(** Whether a poll makes a step. *)
Definition steps (body : Prog bool) (t : Task) (s : S) : bool :=
  match t with
  | Running p =>
    match match p with Ret (Ok true) => body | _ => p end with
    | Step f => bool_decide (is_Some (f s))
    | Ret (Ok true) => false
    | _ => true
    end
  | _ => false
  end.

(** A poll that makes none leaves everything as it was. *)
Lemma poll_idle body t s : steps body t s = false → poll_task body t s = (t, s).
Proof.
  unfold steps, poll_task. destruct t as [p| | |]; [|done..].
  destruct (match p with Ret (Ok true) => body | _ => p end) as [[[]|e]| |f]; [done..|].
  by destruct (f s) as [[p' s']|].
Qed.

(** A task that waits. *)
Lemma wait_stuck {K} (pre : K → S → Prop) post stuck crash (I J A : K → Prop) body p k s :
  (∀ k, I k → wp pre post stuck crash body (λ r k, match r with Ok true => I k | _ => J k end) k) →
  task_ok pre post stuck crash I J A (Running p) k → pre k s → body ≠ Ret (Ok true) →
  steps body (Running p) s = false → stuck k s.
Proof.
  intros Hb Hp Hs Hne. cbn.
  assert (Hq : wp pre post stuck crash (match p with Ret (Ok true) => body | _ => p end)
                 (λ r k, match r with Ok true => I k | _ => J k end) k).
  { destruct p as [[[]|e]| |f]; [by apply Hb|done..]. }
  assert (Hq' : match p with Ret (Ok true) => body | _ => p end ≠ Ret (Ok true))
    by (by destruct p as [[[]|e]| |f]).
  destruct (match p with Ret (Ok true) => body | _ => p end) as [[[]|e]| |f]; try done.
  specialize (Hq s Hs). by destruct (f s) as [[p' s']|].
Qed.

(** Programs after which a task does not go on. *)
Definition ends (p : Prog bool) : Prop :=
  wp (λ _ _, True) (λ _ _ _ _, True) (λ _ _, True) (λ _, True) p (λ r _, r ≠ Ok true) ().

(** The steps a task can still make where [D] holds. *)
Definition step_in (D : S → Prop) (body : Prog bool) (t' t : Task) : Prop :=
  ∃ s, D s ∧ steps body t s = true ∧ (poll_task body t s).1 = t'.

(** If a round that begins where [D] holds is the last, there are finitely many. *)
Lemma winds_down D f :
  (∀ s p s', D s → f s = Some (p, s') → ends p) → ∀ t, Acc (step_in D (Step f)) t.
Proof.
  intros Hf.
  assert (Hdone : ∀ t, (∀ p, t ≠ Running p) → Acc (step_in D (Step f)) t).
  { intros t Ht. constructor. intros t' (s & _ & Hs & _). by destruct t as [p| | |]; [destruct (Ht p)|..]. }
  assert (Hends : ∀ p, ends p → Acc (step_in D (Step f)) (Running p)).
  { intros p. induction p as [r| |g IH] using Prog_tree_ind; intros Hp; constructor;
      intros t' (s & _ & Hs & <-).
    - cbn in Hp. destruct r as [[]|e]; [done|by apply Hdone..].
    - by apply Hdone.
    - cbn in Hs |- *. specialize (Hp s I). destruct (g s) as [[p' s']|] eqn:Eg; [|done].
      destruct Hp as ([] & _ & Hp). by eapply IH. }
  assert (Hhead : Acc (step_in D (Step f)) at_head).
  { constructor. intros t' (s & HD & Hs & <-). cbn in Hs |- *.
    destruct (f s) as [[p' s']|] eqn:Ef; [|done]. by eapply Hends, Hf. }
  intros [p| | |]; [|by apply Hdone..].
  induction p as [r| |g IH] using Prog_tree_ind.
  - destruct r as [[]|e]; [exact Hhead|by apply Hends..].
  - by apply Hends.
  - constructor. intros t' (s & _ & Hs & <-). cbn in Hs |- *.
    destruct (g s) as [[p' s']|] eqn:Eg; [|done]. by eapply IH.
Qed.

(** ** Systems of tasks *)

Section System.
Context {I : Type} `{EqDecision I} (body : I → Prog bool).

Record Sys := { s_world : S; s_task : I → Task }.

Definition upd_task (ts : I → Task) (i : I) (t : Task) : I → Task :=
  λ j, if decide (j = i) then t else ts j.

Definition poll (i : I) (x : Sys) : Sys :=
  let '(t, s) := poll_task (body i) (s_task x i) (s_world x) in
  {| s_world := s; s_task := upd_task (s_task x) i t |}.

(** Rely and guarantee: what each task knows of the state, and that no step of
    another task invalidates it. *)
Section rely_guarantee.
Context {K : Type} (pre stuck : I → K → S → Prop) (crash loop stop gone : I → K → Prop).

Definition guarantee (i : I) (k : K) (s : S) (k' : K) (s' : S) : Prop :=
  pre i k' s' ∧ ∀ j kj, j ≠ i → pre j kj s → pre j kj s'.

Definition task_fine (i : I) : Task → K → Prop :=
  task_ok (pre i) (guarantee i) (stuck i) (crash i) (loop i) (stop i) (gone i).

Definition body_fine (i : I) : Prop :=
  ∀ k, loop i k → task_fine i (Running (body i)) k.

Definition sys_ok (x : Sys) : Prop :=
  ∃ κ : I → K, ∀ i, pre i (κ i) (s_world x) ∧ task_fine i (s_task x i) (κ i).

Lemma poll_sys i x : (∀ i, body_fine i) → sys_ok x → sys_ok (poll i x).
Proof.
  intros Hb [κ Hx]. destruct (Hx i) as [Hpre Ht]. unfold poll.
  pose proof (poll_ok (pre i) (guarantee i) (stuck i) (crash i) (loop i) (stop i) (gone i) (body i)
    (s_task x i) (κ i) (s_world x) (Hb i) Ht Hpre) as Hp.
  destruct (poll_task _ _ _) as [t s]. destruct Hp as (k' & Ht' & Hpost).
  assert (Hs : pre i k' s ∧ ∀ j kj, j ≠ i → pre j kj (s_world x) → pre j kj s).
  { by destruct Hpost as [Hpost|[-> ->]]; [|split]. }
  destruct Hs as [Hi Hj].
  exists (λ j, if decide (j = i) then k' else κ j). intros j. cbn. unfold upd_task.
  destruct (decide (j = i)) as [->|Hne]; [done|]. destruct (Hx j). auto.
Qed.

(** A step of the outside. *)
Lemma outside_sys x s :
  (∀ j k, pre j k (s_world x) → pre j k s) → sys_ok x →
  sys_ok {| s_world := s; s_task := s_task x |}.
Proof. intros Hs [κ Hx]. exists κ. intros i. destruct (Hx i). auto. Qed.

(** A task is aborted. *)
Lemma abort_sys i x s :
  (∀ k, pre i k (s_world x) → ∃ k', pre i k' s ∧ gone i k') →
  (∀ j k, j ≠ i → pre j k (s_world x) → pre j k s) → sys_ok x →
  sys_ok {| s_world := s; s_task := upd_task (s_task x) i Aborted |}.
Proof.
  intros Hi Hj [κ Hx]. destruct (Hx i) as [(k & Hk & Hg)%Hi _].
  exists (λ j, if decide (j = i) then k else κ j). intros j. cbn. unfold upd_task.
  destruct (Hx j). destruct (decide (j = i)) as [->|Hne]; [by split|auto].
Qed.
End rely_guarantee.

(** Polls of one task only. *)
Lemma polls_of i n x :
  let '(t, s) := Nat.iter n (λ '(t, s), poll_task (body i) t s) (s_task x i, s_world x) in
  let y := Nat.iter n (poll i) x in
  s_world y = s ∧ s_task y i = t ∧ ∀ j, j ≠ i → s_task y j = s_task x j.
Proof.
  induction n as [|n IH]; [done|]. cbv zeta. rewrite !Nat.iter_succ.
  destruct (Nat.iter n _ (s_task x i, s_world x)) as [t s]. destruct IH as (Hs & Ht & Hj).
  set (y := Nat.iter n (poll i) x) in *. clearbody y. unfold poll. rewrite Hs, Ht.
  destruct (poll_task (body i) t s) as [t' s']. cbn. unfold upd_task.
  rewrite decide_True by done. split_and!; [done|done|]. intros j Hne.
  rewrite decide_False by done. by apply Hj.
Qed.

(** Finitely many tasks with finitely many steps each. *)
Lemma acc_product (R : I → Task → Task → Prop) (l : list I) : ∀ ts : I → Task,
  (∀ i, i ∈ l → Acc (R i) (ts i)) →
  Acc (λ ts' ts, ∃ i, i ∈ l ∧ R i (ts' i) (ts i) ∧ ∀ j, j ≠ i → ts' j = ts j) ts.
Proof.
  induction l as [|a l IH]; intros ts Hts.
  { constructor. by intros ts' (i & ?%elem_of_nil & _). }
  assert (Ha : Acc (R a) (ts a)) by (apply Hts, list_elem_of_here).
  assert (Hl : ∀ i, i ∈ l → Acc (R i) (ts i)) by (intros i Hi; by apply Hts, list_elem_of_further).
  clear Hts. remember (ts a) as t eqn:Et. revert ts Et Hl.
  induction Ha as [t _ IHa]. intros ts Et Hl. specialize (IH ts Hl).
  induction IH as [ts _ IHl]. constructor. intros ts' (i & Hi & Hr & Hj).
  assert (Hl' : ∀ j, j ∈ l → Acc (R j) (ts' j)).
  { intros j Hjl. destruct (decide (j = i)) as [->|Hne]; [|rewrite Hj by done; auto].
    by apply (Acc_inv (Hl i Hjl)). }
  destruct (decide (i = a)) as [->|Hne].
  - apply (IHa (ts' a)); [by rewrite Et|done|done].
  - apply IHl; [|by rewrite Hj by done|done]. exists i. split_and!; [|done|done].
    by apply elem_of_cons in Hi as [?|?].
Qed.

(** A relation every body keeps. *)
Lemma poll_sys_keeps L R i x :
  (∀ s, R s s) → (∀ i, keeps L R (body i)) → (∀ i, task_keeps L R (s_task x i)) →
  R (s_world x) (s_world (poll i x)) ∧ ∀ j, task_keeps L R (s_task (poll i x) j).
Proof.
  intros Hr Hb Ht. pose proof (poll_keeps L R (body i) (s_task x i) (s_world x) Hr (Hb i) (Ht i)).
  unfold poll. destruct (poll_task _ _ _) as [t s]. cbn. destruct_and?. split; [done|].
  intros j. unfold upd_task. by destruct (decide (j = i)).
Qed.
End System.
End Coroutine.

Arguments Prog S E A : clear implicits.
Arguments Task S E : clear implicits.
Arguments Ret {S E A} _.
Arguments Crash {S E A}.
Arguments Step {S E A} _.
Arguments Running {S E} _.
Arguments Stopped {S E}.
Arguments Panicked_ {S E}.
Arguments Aborted {S E}.
Arguments at_head {S E}.
Arguments Sys S E I : clear implicits.
Arguments s_world {S E I} _.
Arguments s_task {S E I} _ _.

(** ** Automation *)

Create HintDb io discriminated.
#[export] Hint Constants Opaque : io.

(** Split a program into its steps; what is left is a fact about each. *)
Ltac walk :=
  repeat first
    [ solve [eauto with io]
    | apply keeps_bind; [|intros ?]
    | apply keeps_attempt
    | apply keeps_res
    | match goal with
      | |- keeps _ _ Crash => exact I
      | |- keeps _ _ (match ?x with _ => _ end) => destruct x
      | |- keeps _ _ (let '(_, _) := ?x in _) => destruct x
      end ].
