(* ===== verification/BinaryProtocol.v ===== *)
(** * The binary wire format (src/binary_protocol.rs)

    [ClientMessage] with [serialize]/[deserialize]/[validate], the message and
    payload discriminators and the control flags.  Bytes are [list byte]; the
    fixed-width reads of [bytes::Buf] panic on a short buffer, so [deserialize]
    returns an [Outcome] and its freedom from panics is a theorem.

    SHA-256 (crate [sha2]) is the class [Sha256]; the clock and the random
    UUID of [ClientMessage::new] are arguments. *)

From S2P Require Import Prelude RustStd Errors.

Definition HEADER_LENGTH : Z := 116.
Definition HEADER_SIZE : Z := 120.
Definition MESSAGE_TYPE_LEN : nat := 32.
Definition MESSAGE_ID_LEN : nat := 16.
Definition DIGEST_LEN : nat := 32.
Definition MAX_PAYLOAD_SIZE : Z := 10 * 1024 * 1024.
Definition DEFAULT_PAYLOAD_CHUNK_SIZE : Z := 1024.

(** The digest function of the [sha2] crate, and the one fact about it the
    layout relies on. *)
Class Sha256 := sha256 : list byte → list byte.
Class Sha256Ok `{Sha256} : Prop := length_sha256 p : length (sha256 p) = DIGEST_LEN.

(** ** MessageType *)

Inductive MessageType :=
| InputStreamData | OutputStreamData | Acknowledge
| ChannelClosed | StartPublication | PausePublication.

#[export] Instance MessageType_eq_dec : EqDecision MessageType.
Proof. solve_decision. Defined.

Definition as_str (t : MessageType) : str :=
  lit match t with
      | InputStreamData => "input_stream_data"
      | OutputStreamData => "output_stream_data"
      | Acknowledge => "acknowledge"
      | ChannelClosed => "channel_closed"
      | StartPublication => "start_publication"
      | PausePublication => "pause_publication"
      end%string.

Definition MessageType_parse (s : str) : option MessageType :=
  if decide (s = lit "input_stream_data") then Some InputStreamData
  else if decide (s = lit "output_stream_data") then Some OutputStreamData
  else if decide (s = lit "acknowledge") then Some Acknowledge
  else if decide (s = lit "channel_closed") then Some ChannelClosed
  else if decide (s = lit "start_publication") then Some StartPublication
  else if decide (s = lit "pause_publication") then Some PausePublication
  else None.

(** ** PayloadType *)

Inductive PayloadType :=
| Pt_Undefined | Pt_Output | Pt_Error | Pt_Size | Pt_Parameter
| Pt_HandshakeRequest | Pt_HandshakeResponse | Pt_HandshakeComplete
| Pt_EncChallengeRequest | Pt_EncChallengeResponse
| Pt_Flag | Pt_StdErr | Pt_ExitCode.

#[export] Instance PayloadType_eq_dec : EqDecision PayloadType.
Proof. solve_decision. Defined.

(** [self as u32]. *)
Definition PayloadType_as_u32 (t : PayloadType) : Z :=
  match t with
  | Pt_Undefined => 0 | Pt_Output => 1 | Pt_Error => 2 | Pt_Size => 3
  | Pt_Parameter => 4 | Pt_HandshakeRequest => 5 | Pt_HandshakeResponse => 6
  | Pt_HandshakeComplete => 7 | Pt_EncChallengeRequest => 8
  | Pt_EncChallengeResponse => 9 | Pt_Flag => 10 | Pt_StdErr => 11 | Pt_ExitCode => 12
  end.

Definition from_u32 (value : Z) : Res PayloadType :=
  match value with
  | 0 => Ok Pt_Undefined
  | 1 => Ok Pt_Output
  | 2 => Ok Pt_Error
  | 3 => Ok Pt_Size
  | 4 => Ok Pt_Parameter
  | 5 => Ok Pt_HandshakeRequest
  | 6 => Ok Pt_HandshakeResponse
  | 7 => Ok Pt_HandshakeComplete
  | 8 => Ok Pt_EncChallengeRequest
  | 9 => Ok Pt_EncChallengeResponse
  | 10 => Ok Pt_Flag
  | 11 => Ok Pt_StdErr
  | 12 => Ok Pt_ExitCode
  | other => Err (protocol [PLit "unknown PayloadType "; PInt other])
  end.

Definition is_encrypted_inbound (t : PayloadType) : bool :=
  match t with Pt_Output | Pt_StdErr | Pt_ExitCode => true | _ => false end.

(** ** ControlFlag *)

Inductive ControlFlag := DisconnectToPort | TerminateSession | ConnectToPortError.

Definition from_payload (payload : list byte) : option ControlFlag :=
  if #payload <? 4 then None
  else match be_value (take 4 payload) with
       | 1 => Some DisconnectToPort
       | 2 => Some TerminateSession
       | 3 => Some ConnectToPortError
       | _ => None
       end.

(** Bit values of the [Flags] header field. *)
Definition SYN : Z := Z.shiftl 1 0.
Definition FIN : Z := Z.shiftl 1 1.

(** ** ClientMessage *)

Record ClientMessage := {
  message_type : MessageType;
  schema_version : Z;          (* u32 *)
  created_date : Z;            (* u64 *)
  sequence_number : Z;         (* i64 *)
  flags : Z;                   (* u64 *)
  message_id : list byte;      (* Uuid: 16 bytes, RFC 4122 order *)
  payload_digest : list byte;  (* [u8; 32] *)
  payload_type : PayloadType;
  payload : list byte
}.

(** The field types of the struct: integer widths and array lengths. *)
Definition wf_message (m : ClientMessage) : bool :=
  in_u 32 (schema_version m) && in_u 64 (created_date m)
  && in_i 64 (sequence_number m) && in_u 64 (flags m)
  && bool_decide (length (message_id m) = MESSAGE_ID_LEN)
  && bool_decide (length (payload_digest m) = DIGEST_LEN).

Definition padded_message_type (t : MessageType) : list byte :=
  let s := to_utf8 (as_str t) in
  s ++ replicate (MESSAGE_TYPE_LEN - length s) x20.

Definition parse_message_type (bytes : list byte) : Res MessageType :=
  text ← map_err (λ e, protocol [PLit "MessageType is not valid UTF-8: "; PUtf8Error e])
           (from_utf8 bytes);
  let name := trim_matches (λ c, (c =? 0) || is_whitespace c) text in
  match MessageType_parse name with
  | Some t => Ok t
  | None => Err (protocol [PLit "unknown MessageType "; PDebugStr name])
  end.

Definition serialize (m : ClientMessage) : list byte :=
  be_bytes 4 HEADER_LENGTH
  ++ padded_message_type (message_type m)
  ++ be_bytes 4 (schema_version m)
  ++ be_bytes 8 (created_date m)
  ++ be_bytes 8 (sequence_number m)
  ++ be_bytes 8 (flags m)
  ++ take 8 (drop 8 (message_id m))
  ++ take 8 (message_id m)
  ++ payload_digest m
  ++ be_bytes 4 (PayloadType_as_u32 (payload_type m))
  ++ be_bytes 4 (#(payload m))
  ++ payload m.

(** ** Reading a buffer *)

(** A read from a [Buf]: it may panic, fail, or return a value and what remains. *)
Definition Buf (A : Type) : Type := list byte → Outcome (Res (A * list byte)).

#[export] Instance Buf_ret : MRet Buf := λ A a d, Done (Ok (a, d)).
#[export] Instance Buf_bind : MBind Buf := λ A B f p d,
  match p d with
  | Done (Ok (a, d')) => f a d'
  | Done (Err e) => Done (Err e)
  | Panicked => Panicked
  end.

Definition buf_res {A} (r : Res A) : Buf A := λ d,
  Done match r with Ok a => Ok (a, d) | Err e => Err e end.
Definition remaining : Buf Z := λ d, Done (Ok (#d, d)).

(** [copy_to_slice], [copy_to_bytes] and the fixed-width reads consume [n] bytes
    and panic when fewer remain. *)
Definition get_bytes (n : nat) : Buf (list byte) := λ d,
  if #d <? Z.of_nat n then Panicked else Done (Ok (take n d, drop n d)).
Definition get_uint (n : nat) : Buf Z := bs ← get_bytes n; mret (be_value bs).
Definition get_i64 : Buf Z := v ← get_uint 8; mret (wrap_i 64 v).

Section Deserialize.
Context `{Sha256}.

Definition validate (m : ClientMessage) : Res () :=
  match message_type m with
  | StartPublication | PausePublication => Ok ()
  | t =>
    if sequence_number m <? 0 then
      Err (protocol [PLit "negative sequence number "; PInt (sequence_number m)])
    else if negb (bool_decide (payload m = []))
            && negb (bool_decide (sha256 (payload m) = payload_digest m)) then
      Err (protocol [PLit "payload digest mismatch on "; PStr (as_str t);
                     PLit " seq "; PInt (sequence_number m)])
    else Ok ()
  end.

Definition deserialize (data : list byte) : Outcome (Res ClientMessage) :=
  if #data <? HEADER_SIZE then
    Done (Err (protocol [PLit "message truncated: "; PInt (#data);
                         PLit " bytes, need at least "; PInt HEADER_SIZE]))
  else
    let read : Buf ClientMessage :=
      header_length ← get_uint 4;
      _ ← buf_res (if header_length =? HEADER_LENGTH then Ok () else
             Err (protocol [PLit "bad HeaderLength "; PInt header_length;
                            PLit ", expected "; PInt HEADER_LENGTH]));
      type_bytes ← get_bytes MESSAGE_TYPE_LEN;
      message_type ← buf_res (parse_message_type type_bytes);
      schema_version ← get_uint 4;
      created_date ← get_uint 8;
      sequence_number ← get_i64;
      flags ← get_uint 8;
      wire_uuid ← get_bytes MESSAGE_ID_LEN;
      let message_id := take 8 (drop 8 wire_uuid) ++ take 8 wire_uuid in
      payload_digest ← get_bytes DIGEST_LEN;
      raw_type ← get_uint 4;
      payload_type ← buf_res (from_u32 raw_type);
      payload_length ← get_uint 4;
      _ ← buf_res (if MAX_PAYLOAD_SIZE <? payload_length then
             Err (protocol [PLit "declared payload of "; PInt payload_length;
                            PLit " bytes exceeds the "; PInt MAX_PAYLOAD_SIZE;
                            PLit "-byte limit"]) else Ok ());
      left ← remaining;
      _ ← buf_res (if left <? payload_length then
             Err (protocol [PLit "declared payload of "; PInt payload_length;
                            PLit " bytes but only "; PInt left; PLit " remain"])
             else Ok ());
      payload ← get_bytes (Z.to_nat payload_length);
      let msg := {| message_type := message_type; schema_version := schema_version;
                    created_date := created_date; sequence_number := sequence_number;
                    flags := flags; message_id := message_id;
                    payload_digest := payload_digest; payload_type := payload_type;
                    payload := payload |} in
      _ ← buf_res (validate msg);
      mret msg in
    match read data with
    | Done (Ok (m, _)) => Done (Ok m)
    | Done (Err e) => Done (Err e)
    | Panicked => Panicked
    end.

(** [ClientMessage::new], with the clock and the fresh UUID as arguments. *)
Definition ClientMessage_new (now_millis : Z) (uuid : list byte)
    (t : MessageType) (seq : Z) (pt : PayloadType) (p : list byte) : ClientMessage :=
  {| message_type := t; schema_version := 1; created_date := now_millis;
     sequence_number := seq; flags := 0; message_id := uuid;
     payload_digest := sha256 p; payload_type := pt; payload := p |}.
End Deserialize.

(** ** Lemmas: running the reader *)

Lemma bind_get_bytes {B} n (f : list byte → Buf B) l k :
  length l = n → (get_bytes n ≫= f) (l ++ k) = f l k.
Proof.
  intros Hl. unfold mbind, Buf_bind, get_bytes.
  destruct (Z.ltb_spec (#(l ++ k)) (Z.of_nat n)) as [Hlt|_].
  - rewrite len_app in Hlt. unfold len in Hlt. lia.
  - by rewrite take_app_exact, drop_app_exact.
Qed.

Lemma bind_get_uint {B} n (f : Z → Buf B) l k :
  length l = n → (get_uint n ≫= f) (l ++ k) = f (be_value l) k.
Proof.
  intros Hl. unfold get_uint. unfold mbind at 1, Buf_bind at 1.
  rewrite bind_get_bytes by done. done.
Qed.

Lemma bind_get_i64 {B} (f : Z → Buf B) l k :
  length l = 8%nat → (get_i64 ≫= f) (l ++ k) = f (wrap_i 64 (be_value l)) k.
Proof.
  intros Hl. unfold get_i64. unfold mbind at 1, Buf_bind at 1.
  rewrite bind_get_uint by done. done.
Qed.

Lemma bind_buf_res {A B} (r : Res A) (f : A → Buf B) d :
  (buf_res r ≫= f) d = match r with Ok a => f a d | Err e => Done (Err e) end.
Proof. by destruct r. Qed.

Lemma bind_remaining {B} (f : Z → Buf B) d : (remaining ≫= f) d = f (#d) d.
Proof. done. Qed.

(** A buffer that holds [n] bytes splits into those bytes and the rest. *)
Lemma split_bytes (n : nat) (d : list byte) :
  Z.of_nat n ≤ #d → ∃ l k, d = l ++ k ∧ length l = n ∧ #k = #d - Z.of_nat n.
Proof.
  intros H. exists (take n d), (drop n d). rewrite take_drop, len_drop.
  unfold len in *. rewrite length_take. repeat split; lia.
Qed.

(** The ten header fields of a message, as byte strings of the declared sizes. *)
Record Header := {
  h_len : list byte; h_type : list byte; h_schema : list byte; h_date : list byte;
  h_seq : list byte; h_flags : list byte; h_id : list byte; h_digest : list byte;
  h_ptype : list byte; h_plen : list byte }.

Definition wf_header (h : Header) : Prop :=
  length (h_len h) = 4%nat ∧ length (h_type h) = 32%nat ∧ length (h_schema h) = 4%nat
  ∧ length (h_date h) = 8%nat ∧ length (h_seq h) = 8%nat ∧ length (h_flags h) = 8%nat
  ∧ length (h_id h) = 16%nat ∧ length (h_digest h) = 32%nat
  ∧ length (h_ptype h) = 4%nat ∧ length (h_plen h) = 4%nat.

Definition header_bytes (h : Header) : list byte :=
  h_len h ++ h_type h ++ h_schema h ++ h_date h ++ h_seq h ++ h_flags h
  ++ h_id h ++ h_digest h ++ h_ptype h ++ h_plen h.

Lemma len_header_bytes h : wf_header h → #(header_bytes h) = HEADER_SIZE.
Proof.
  intros (?&?&?&?&?&?&?&?&?&?). unfold header_bytes, HEADER_SIZE.
  rewrite !len_app. unfold len. lia.
Qed.

Lemma split_header d :
  HEADER_SIZE ≤ #d → ∃ h rest, wf_header h ∧ d = header_bytes h ++ rest.
Proof.
  unfold HEADER_SIZE. intros Hd.
  destruct (split_bytes 4 d) as (a&d1&->&Ha&H1); [lia|].
  destruct (split_bytes 32 d1) as (b&d2&->&Hb&H2); [lia|].
  destruct (split_bytes 4 d2) as (c&d3&->&Hc&H3); [lia|].
  destruct (split_bytes 8 d3) as (e&d4&->&He&H4); [lia|].
  destruct (split_bytes 8 d4) as (f&d5&->&Hf&H5); [lia|].
  destruct (split_bytes 8 d5) as (g&d6&->&Hg&H6); [lia|].
  destruct (split_bytes 16 d6) as (i&d7&->&Hi&H7); [lia|].
  destruct (split_bytes 32 d7) as (j&d8&->&Hj&H8); [lia|].
  destruct (split_bytes 4 d8) as (k&d9&->&Hk&H9); [lia|].
  destruct (split_bytes 4 d9) as (l&rest&->&Hl&_); [lia|].
  exists (Build_Header a b c e f g i j k l), rest.
  split; [done|]. unfold header_bytes; cbn. by rewrite <- !app_assoc.
Qed.

(** Reduce header projections only. *)
Ltac header_simpl :=
  cbn [h_len h_type h_schema h_date h_seq h_flags h_id h_digest h_ptype h_plen].

Section DeserializeFacts.
Context `{Sha256}.

(** The fields of an accepted header. *)
Definition message_of (h : Header) (t : MessageType) (pt : PayloadType) (p : list byte)
  : ClientMessage :=
  {| message_type := t; schema_version := be_value (h_schema h);
     created_date := be_value (h_date h);
     sequence_number := wrap_i 64 (be_value (h_seq h));
     flags := be_value (h_flags h);
     message_id := take 8 (drop 8 (h_id h)) ++ take 8 (h_id h);
     payload_digest := h_digest h; payload_type := pt; payload := p |}.

(** What [deserialize] computes on a buffer that holds a whole header: the checks
    in order, none of which can panic. *)
Definition decode (h : Header) (rest : list byte) : Res ClientMessage :=
  let plen := be_value (h_plen h) in
  _ ← (if be_value (h_len h) =? HEADER_LENGTH then Ok () else
         Err (protocol [PLit "bad HeaderLength "; PInt (be_value (h_len h));
                        PLit ", expected "; PInt HEADER_LENGTH]));
  t ← parse_message_type (h_type h);
  pt ← from_u32 (be_value (h_ptype h));
  _ ← (if MAX_PAYLOAD_SIZE <? plen then
         Err (protocol [PLit "declared payload of "; PInt plen;
                        PLit " bytes exceeds the "; PInt MAX_PAYLOAD_SIZE;
                        PLit "-byte limit"]) else Ok ());
  _ ← (if #rest <? plen then
         Err (protocol [PLit "declared payload of "; PInt plen;
                        PLit " bytes but only "; PInt (#rest); PLit " remain"])
       else Ok ());
  let m := message_of h t pt (take (Z.to_nat plen) rest) in
  _ ← validate m;
  Ok m.

Lemma deserialize_header h rest :
  wf_header h → deserialize (header_bytes h ++ rest) = Done (decode h rest).
Proof.
  intros Hwf. pose proof (len_header_bytes h Hwf) as Hlen.
  destruct Hwf as (?&?&?&?&?&?&?&?&?&?). unfold deserialize.
  destruct (Z.ltb_spec (#(header_bytes h ++ rest)) HEADER_SIZE) as [Hlt|_].
  { rewrite len_app in Hlt. pose proof (len_nonneg rest). lia. }
  unfold header_bytes. rewrite <- !app_assoc. unfold decode.
  rewrite bind_get_uint, bind_buf_res by done.
  destruct (be_value (h_len h) =? HEADER_LENGTH); [|done].
  rewrite bind_get_bytes, bind_buf_res by done.
  destruct (parse_message_type (h_type h)) as [t|e]; [|done].
  rewrite !bind_get_uint, bind_get_i64, !bind_get_uint, bind_get_bytes by done.
  cbv zeta. rewrite bind_get_bytes, bind_get_uint, bind_buf_res by done.
  destruct (from_u32 (be_value (h_ptype h))) as [pt|e]; [|done].
  rewrite bind_get_uint, bind_buf_res by done.
  pose proof (be_value_range (h_plen h)).
  cbn [mbind Result_bind]. destruct (Z.ltb_spec MAX_PAYLOAD_SIZE (be_value (h_plen h))); [done|].
  rewrite bind_remaining, bind_buf_res.
  destruct (Z.ltb_spec (#rest) (be_value (h_plen h))); [done|].
  destruct (split_bytes (Z.to_nat (be_value (h_plen h))) rest) as (p&k&->&Hp&_); [lia|].
  rewrite bind_get_bytes, bind_buf_res, take_app_exact by done.
  change (validate _) with
    (validate (message_of h t pt p)).
  by destruct (validate (message_of h t pt p)).
Qed.

(** The header [serialize] writes. *)
Definition header_of (m : ClientMessage) : Header :=
  {| h_len := be_bytes 4 HEADER_LENGTH; h_type := padded_message_type (message_type m);
     h_schema := be_bytes 4 (schema_version m); h_date := be_bytes 8 (created_date m);
     h_seq := be_bytes 8 (sequence_number m); h_flags := be_bytes 8 (flags m);
     h_id := take 8 (drop 8 (message_id m)) ++ take 8 (message_id m);
     h_digest := payload_digest m;
     h_ptype := be_bytes 4 (PayloadType_as_u32 (payload_type m));
     h_plen := be_bytes 4 (#(payload m)) |}.

Lemma serialize_header m : serialize m = header_bytes (header_of m) ++ payload m.
Proof. unfold serialize, header_bytes, header_of. header_simpl. by rewrite <- !app_assoc. Qed.

Lemma length_padded t : length (padded_message_type t) = MESSAGE_TYPE_LEN.
Proof. by destruct t. Qed.

Lemma parse_padded t : parse_message_type (padded_message_type t) = Ok t.
Proof. destruct t; vm_compute; reflexivity. Qed.

Lemma from_u32_as t : from_u32 (PayloadType_as_u32 t) = Ok t.
Proof. by destruct t. Qed.

Lemma as_u32_from v t : from_u32 v = Ok t → PayloadType_as_u32 t = v.
Proof.
  unfold from_u32. intros Hv.
  repeat (case_match; simplify_eq; try done).
Qed.

Lemma PayloadType_range t : 0 ≤ PayloadType_as_u32 t < 13.
Proof. destruct t; cbn; lia. Qed.

Lemma wf_message_spec m :
  wf_message m = true ↔
    0 ≤ schema_version m < 2 ^ 32 ∧ 0 ≤ created_date m < 2 ^ 64
    ∧ - 2 ^ 63 ≤ sequence_number m < 2 ^ 63 ∧ 0 ≤ flags m < 2 ^ 64
    ∧ length (message_id m) = 16%nat ∧ length (payload_digest m) = 32%nat.
Proof.
  unfold wf_message, in_u, in_i. change (64 - 1) with 63.
  rewrite !andb_true_iff, !bool_decide_eq_true. unfold MESSAGE_ID_LEN, DIGEST_LEN.
  rewrite !Z.leb_le, !Z.ltb_lt. tauto.
Qed.

Lemma swap_halves_length (l : list byte) :
  length l = 16%nat → length (take 8 (drop 8 l) ++ take 8 l) = 16%nat.
Proof. intros Hl. rewrite length_app, !length_take, length_drop. lia. Qed.

(** Swapping the two halves of a UUID twice is the identity. *)
Lemma swap_halves_involutive (l : list byte) :
  length l = 16%nat →
  take 8 (drop 8 (take 8 (drop 8 l) ++ take 8 l)) ++ take 8 (take 8 (drop 8 l) ++ take 8 l) = l.
Proof.
  intros Hl. assert (length (take 8 (drop 8 l)) = 8%nat) by
    (rewrite length_take, length_drop; lia).
  rewrite drop_app_exact, (take_app_exact 8) by done.
  rewrite take_take, Nat.min_id, (firstn_all2 (n := 8) (drop 8 l)).
  - apply take_drop.
  - rewrite length_drop. lia.
Qed.

Lemma wf_header_of m :
  length (message_id m) = 16%nat → length (payload_digest m) = 32%nat →
  wf_header (header_of m).
Proof.
  intros Hid Hdg. unfold wf_header, header_of. header_simpl.
  rewrite !length_be_bytes, length_padded, swap_halves_length by done. done.
Qed.

(** Decoding the header of a well-formed message recovers its fields, and the
    verdict is that of [validate]. *)
Lemma decode_header_of m extra :
  wf_message m = true → #(payload m) ≤ MAX_PAYLOAD_SIZE →
  decode (header_of m) (payload m ++ extra) = (_ ← validate m; Ok m).
Proof.
  intros (Hsv & Hcd & Hsn & Hfl & Hid & Hdg)%wf_message_spec Hmax.
  pose proof (len_nonneg (payload m)). pose proof (PayloadType_range (payload_type m)).
  unfold MAX_PAYLOAD_SIZE in *.
  assert (Hbe : ∀ n z, 0 ≤ z < 256 ^ Z.of_nat n → be_value (be_bytes n z) = z)
    by (intros; rewrite be_value_bytes; by apply Z.mod_small).
  unfold decode, header_of. header_simpl.
  rewrite (Hbe 4%nat HEADER_LENGTH), (Hbe 4%nat (PayloadType_as_u32 _)),
    (Hbe 4%nat (#(payload m))), parse_padded, from_u32_as by (cbn; unfold HEADER_LENGTH; lia).
  rewrite Z.eqb_refl. cbn [mbind Result_bind]. unfold MAX_PAYLOAD_SIZE.
  destruct (Z.ltb_spec (10 * 1024 * 1024) (#(payload m))); [lia|].
  pose proof (len_nonneg extra). destruct (Z.ltb_spec (#(payload m ++ extra)) (#(payload m)));
    [rewrite len_app in *; lia|].
  rewrite take_app_exact by (unfold len; lia).
  assert (message_of (header_of m) (message_type m) (payload_type m) (payload m) = m) as Hm.
  { unfold message_of, header_of. header_simpl.
    rewrite (Hbe 4%nat (schema_version m)), (Hbe 8%nat (created_date m)),
      (Hbe 8%nat (flags m)), be_value_bytes by (cbn; lia).
    change (256 ^ Z.of_nat 8) with (2 ^ 64). rewrite wrap_i_mod, wrap_i_small by (cbn; lia).
    rewrite swap_halves_involutive by done. by destruct m. }
  unfold header_of in Hm. by rewrite Hm.
Qed.

Lemma deserialize_serialize m extra :
  wf_message m = true → #(payload m) ≤ MAX_PAYLOAD_SIZE →
  deserialize (serialize m ++ extra) = Done (_ ← validate m; Ok m).
Proof.
  intros Hwf Hmax. rewrite serialize_header, <- app_assoc, deserialize_header.
  - by rewrite decode_header_of.
  - apply wf_message_spec in Hwf. apply wf_header_of; tauto.
Qed.

End DeserializeFacts.

(** [&l[i..j]]. *)
Definition slice (i j : nat) (l : list byte) : list byte := take (j - i) (drop i l).

Lemma slice_app_l j (a k : list byte) : length a = j → slice 0 j (a ++ k) = a.
Proof. intros Ha. unfold slice. by rewrite drop_0, Nat.sub_0_r, take_app_exact. Qed.

Lemma slice_app_r i j n (a k : list byte) :
  length a = n → (n ≤ i)%nat → slice i j (a ++ k) = slice (i - n) (j - n) k.
Proof.
  intros <- Hi. unfold slice. rewrite drop_app_ge by lia. f_equal. lia.
Qed.

(** Walk a slice of a concatenation to the segment it names. *)
Ltac slice_simpl :=
  repeat first
    [ rewrite slice_app_l by first [apply length_be_bytes | eassumption]
    | erewrite slice_app_r; [|first [apply length_be_bytes | eassumption]|lia];
      cbn [Nat.sub] ].

Section HeaderFacts.
Context `{Sha256}.

Lemma validate_ok_inv m :
  validate m = Ok () →
  message_type m ≠ StartPublication → message_type m ≠ PausePublication →
  0 ≤ sequence_number m ∧ (payload m = [] ∨ sha256 (payload m) = payload_digest m).
Proof.
  unfold validate. intros Hv Hs Hp.
  destruct (message_type m); try done;
    (destruct (Z.ltb_spec (sequence_number m) 0); [done|]; split; [done|];
     destruct (decide (payload m = [])) as [|Hne]; [by left|right];
     rewrite (bool_decide_false _ Hne) in Hv; cbn [negb andb] in Hv;
     destruct (decide (sha256 (payload m) = payload_digest m)) as [|Hd]; [done|];
     by rewrite (bool_decide_false _ Hd) in Hv).
Qed.

Lemma decode_ok_inv h rest m :
  decode h rest = Ok m →
  be_value (h_len h) = HEADER_LENGTH ∧
  parse_message_type (h_type h) = Ok (message_type m) ∧
  be_value (h_ptype h) = PayloadType_as_u32 (payload_type m) ∧
  be_value (h_plen h) ≤ MAX_PAYLOAD_SIZE ∧ be_value (h_plen h) ≤ #rest ∧
  payload m = take (Z.to_nat (be_value (h_plen h))) rest ∧
  m = message_of h (message_type m) (payload_type m) (payload m) ∧ validate m = Ok ().
Proof.
  unfold decode. cbv zeta. intros (?&Hl&Hd)%Result_bind_Ok.
  apply Result_bind_Ok in Hd as (t&Ht&Hd). apply Result_bind_Ok in Hd as (pt&Hpt&Hd).
  apply Result_bind_Ok in Hd as (?&Hm&Hd). apply Result_bind_Ok in Hd as (?&Hr&Hd).
  apply Result_bind_Ok in Hd as ([]&Hv&[= <-]).
  destruct (Z.eqb_spec (be_value (h_len h)) HEADER_LENGTH); [|done].
  destruct (Z.ltb_spec MAX_PAYLOAD_SIZE (be_value (h_plen h))); [done|].
  destruct (Z.ltb_spec (#rest) (be_value (h_plen h))); [done|].
  cbn [message_type payload_type payload message_of].
  repeat split; try done. symmetry; by apply as_u32_from.
Qed.

(** Results whose error, if any, is a protocol error. *)
Definition protocol_only {A} (r : Res A) : Prop :=
  match r with Ok _ => True | Err e => ∃ m, e = Error_Protocol m end.

Lemma protocol_only_bind {A B} (r : Res A) (f : A → Res B) :
  protocol_only r → (∀ a, protocol_only (f a)) → protocol_only (r ≫= f).
Proof. destruct r; cbn; auto. Qed.

Lemma parse_message_type_protocol bs : protocol_only (parse_message_type bs).
Proof.
  apply protocol_only_bind; [destruct (from_utf8 bs); cbn; eauto|].
  intros t. cbn zeta. destruct (MessageType_parse _); cbn; eauto.
Qed.

Lemma from_u32_protocol v : protocol_only (from_u32 v).
Proof. unfold from_u32. repeat (case_match; cbn; eauto). Qed.

Lemma validate_protocol m : protocol_only (validate m).
Proof. unfold validate. destruct (message_type m); cbn; eauto; split_ifs; cbn; eauto. Qed.

Lemma decode_protocol h rest : protocol_only (decode h rest).
Proof.
  unfold decode. cbv zeta.
  repeat first [ apply parse_message_type_protocol | apply from_u32_protocol
    | apply validate_protocol | apply protocol_only_bind; [|intros ?]
    | match goal with |- protocol_only (if ?b then _ else _) => destruct b; cbn; by eauto end
    | exact I ].
Qed.

Lemma be_bytes_value_fixed h : wf_header h →
  ∀ t pt p, be_value (h_len h) = HEADER_LENGTH →
    be_value (h_ptype h) = PayloadType_as_u32 pt → be_value (h_plen h) = #p →
    header_of (message_of h t pt p) =
      {| h_len := h_len h; h_type := padded_message_type t; h_schema := h_schema h;
         h_date := h_date h; h_seq := h_seq h; h_flags := h_flags h; h_id := h_id h;
         h_digest := h_digest h; h_ptype := h_ptype h; h_plen := h_plen h |}.
Proof.
  intros (Hl&Ht&Hs&Hd&Hq&Hf&Hi&Hg&Hp&Hn) t pt p El Ept Epl.
  unfold header_of, message_of. cbn [message_type schema_version created_date
    sequence_number flags message_id payload_digest payload_type payload].
  rewrite <- El, <- Ept, <- Epl, !be_bytes_value by done.
  rewrite swap_halves_involutive by done. f_equal.
  rewrite <- (be_bytes_value 8 (h_seq h)) at 2 by done.
  pose proof (be_value_range (h_seq h)) as Hr. unfold len in Hr. rewrite Hq in Hr.
  apply be_bytes_ext. change (256 ^ Z.of_nat 8) with (2 ^ 64) in *.
  unfold wrap_i. change (64 - 1) with 63.
  rewrite Zminus_mod_idemp_l. f_equal. lia.
Qed.
End HeaderFacts.

(** ** Properties *)

Section Properties.
Context `{Sha256}.

(** C18: a message whose fields fit their widths, whose payload is within the
    10 MiB limit and which passes [validate] decodes from its own encoding to
    itself, whatever bytes follow it in the frame. *)
Theorem wire_roundtrip m extra :
  wf_message m = true → #(payload m) ≤ MAX_PAYLOAD_SIZE → validate m = Ok () →
  deserialize (serialize m ++ extra) = Done (Ok m).
Proof. intros Hwf Hmax Hv. by rewrite deserialize_serialize, Hv. Qed.

(** C19: decoding never panics, on any byte string: it returns a message or a
    protocol error. *)
Theorem deserialize_never_panics data :
  ∃ r, deserialize data = Done r ∧
       match r with Ok _ => True | Err e => ∃ m, e = Error_Protocol m end.
Proof.
  destruct (Z.ltb_spec (#data) HEADER_SIZE) as [Hlt|Hge].
  - eexists. split.
    + unfold deserialize. by rewrite (proj2 (Z.ltb_lt _ _) Hlt).
    + by eexists.
  - destruct (split_header data Hge) as (h & rest & Hwf & ->).
    exists (decode h rest). split; [by apply deserialize_header|apply decode_protocol].
Qed.

(** C30: an accepted message is well-formed, its payload is the declared slice of
    the frame and within the limit, and, unless it is a publication control
    message, its sequence number is non-negative and a non-empty payload hashes
    to the carried digest. *)
Theorem deserialize_sound data m :
  deserialize data = Done (Ok m) →
  wf_message m = true ∧ #(payload m) ≤ MAX_PAYLOAD_SIZE ∧
  HEADER_SIZE + #(payload m) ≤ #data ∧
  payload m = slice 120 (120 + length (payload m)) data ∧
  (message_type m ≠ StartPublication → message_type m ≠ PausePublication →
   0 ≤ sequence_number m ∧ (payload m = [] ∨ sha256 (payload m) = payload_digest m)).
Proof.
  destruct (Z.ltb_spec (#data) HEADER_SIZE) as [Hlt|Hge].
  { unfold deserialize. by rewrite (proj2 (Z.ltb_lt _ _) Hlt). }
  destruct (split_header data Hge) as (h & rest & Hwf & ->).
  rewrite deserialize_header by done. intros [= Hd].
  apply decode_ok_inv in Hd as (_&_&_&Hmax&Hrest&Hp&Hm&Hv).
  pose proof (be_value_range (h_plen h)).
  assert (Hlen : #(payload m) = be_value (h_plen h)) by (rewrite Hp, len_take; lia).
  pose proof (len_header_bytes h Hwf) as Hhdr.
  split_and!.
  - rewrite Hm. apply wf_message_spec. destruct Hwf as (?&?&Hs&Hda&?&Hf&Hi&Hg&?&?).
    cbn [message_of schema_version created_date sequence_number flags message_id payload_digest].
    pose proof (be_value_range (h_schema h)) as B1. pose proof (be_value_range (h_date h)) as B2.
    pose proof (be_value_range (h_flags h)) as B3. unfold len in B1, B2, B3.
    rewrite Hs in B1. rewrite Hda in B2. rewrite Hf in B3.
    rewrite swap_halves_length by done. repeat split; try done; try (cbn in *; lia);
      unfold wrap_i; change (64 - 1) with 63;
      pose proof (Z.mod_pos_bound (be_value (h_seq h) + 2 ^ 63) (2 ^ 64) ltac:(lia)); lia.
  - lia.
  - rewrite len_app. lia.
  - unfold slice. rewrite drop_app_exact by (unfold len, HEADER_SIZE in Hhdr; lia).
    rewrite Hp at 1. f_equal. unfold len in Hlen. lia.
  - intros. by apply validate_ok_inv.
Qed.

(** Re-encoding an accepted message reproduces the frame byte for byte,
    except for the padding of the message type (bytes 4..36) and whatever
    trailed the payload: decoding loses no header field. *)
Theorem reserialize data m :
  deserialize data = Done (Ok m) →
  serialize m = slice 0 4 data ++ padded_message_type (message_type m)
                ++ slice 36 (120 + length (payload m)) data.
Proof.
  destruct (Z.ltb_spec (#data) HEADER_SIZE) as [Hlt|Hge].
  { unfold deserialize. by rewrite (proj2 (Z.ltb_lt _ _) Hlt). }
  destruct (split_header data Hge) as (h & rest & Hwf & ->).
  rewrite deserialize_header by done. intros [= Hd].
  apply decode_ok_inv in Hd as (Hl&_&Hpt&Hmax&Hrest&Hp&Hm&_).
  pose proof (be_value_range (h_plen h)).
  assert (Hlen : be_value (h_plen h) = #(payload m)) by (rewrite Hp, len_take; lia).
  rewrite serialize_header, Hm at 1.
  rewrite (be_bytes_value_fixed h Hwf _ _ _ Hl Hpt Hlen).
  destruct Hwf as (Hl4&Ht&?&?&?&?&?&?&?&?).
  unfold header_bytes, slice. header_simpl. rewrite <- !app_assoc.
  rewrite drop_0, take_app_exact by done. do 2 f_equal.
  rewrite (app_assoc (h_len h)), drop_app_exact by (rewrite length_app; lia).
  set (hd := h_schema h ++ h_date h ++ h_seq h ++ h_flags h ++ h_id h ++ h_digest h
             ++ h_ptype h ++ h_plen h).
  assert (length hd = 84%nat) by (unfold hd; rewrite !length_app; lia).
  trans (hd ++ payload m); [unfold hd; by rewrite <- !app_assoc|].
  trans (take (length hd + length (payload m)) (hd ++ rest)).
  - rewrite take_app_add, Hp, length_take. do 2 f_equal. unfold len in *. lia.
  - f_equal; [lia|]. unfold hd. by rewrite <- !app_assoc.
Qed.

(** Replacing the payload of an encoded non-publication message by any
    non-empty bytes of the same length whose hash is not the carried digest is
    rejected as a digest mismatch; in particular a payload byte flipped in
    transit is never delivered. *)
Theorem payload_corruption_detected m p :
  wf_message m = true → #(payload m) ≤ MAX_PAYLOAD_SIZE → 0 ≤ sequence_number m →
  message_type m ≠ StartPublication → message_type m ≠ PausePublication →
  p ≠ [] → length p = length (payload m) → sha256 p ≠ payload_digest m →
  deserialize (slice 0 120 (serialize m) ++ p) =
    Done (Err (protocol [PLit "payload digest mismatch on "; PStr (as_str (message_type m));
                         PLit " seq "; PInt (sequence_number m)])).
Proof.
  intros Hwf Hmax Hseq Hs Hpa Hne Hlen Hsha.
  set (m' := {| message_type := message_type m; schema_version := schema_version m;
                created_date := created_date m; sequence_number := sequence_number m;
                flags := flags m; message_id := message_id m;
                payload_digest := payload_digest m; payload_type := payload_type m;
                payload := p |}).
  assert (header_of m' = header_of m) as Hh
    by (unfold header_of, m', len; cbn [message_type schema_version created_date
        sequence_number flags message_id payload_digest payload_type payload]; by rewrite Hlen).
  assert (wf_header (header_of m)) as Hwh
    by (apply wf_message_spec in Hwf; apply wf_header_of; tauto).
  pose proof (len_header_bytes _ Hwh) as Hl. unfold len, HEADER_SIZE in Hl.
  assert (slice 0 120 (serialize m) ++ p = serialize m' ++ []) as ->.
  { rewrite app_nil_r, !serialize_header, Hh. unfold slice.
    by rewrite drop_0, take_app_exact by lia. }
  rewrite deserialize_serialize by (done || (unfold m', len in *; cbn [payload] in *; lia)).
  unfold validate, m'; cbn [message_type sequence_number payload payload_digest].
  rewrite (bool_decide_false (p = [])), (bool_decide_false (sha256 p = _)) by done.
  destruct (Z.ltb_spec (sequence_number m) 0); [lia|].
  by destruct (message_type m).
Qed.

(** The byte offsets of the encoded header are those of the protocol: the
    header length 116 at 0, the space-padded type name at 4, the schema version
    at 36, the timestamp at 40, the sequence number at 48, the flags at 56, the
    two UUID halves swapped at 64 and 72, the digest at 80, the payload type at
    112, the payload length at 116 and the payload from 120. *)
Theorem header_layout m :
  wf_message m = true → #(payload m) ≤ MAX_PAYLOAD_SIZE →
  let w := serialize m in
  be_value (slice 0 4 w) = 116 ∧ slice 4 36 w = padded_message_type (message_type m) ∧
  be_value (slice 36 40 w) = schema_version m ∧ be_value (slice 40 48 w) = created_date m ∧
  wrap_i 64 (be_value (slice 48 56 w)) = sequence_number m ∧
  be_value (slice 56 64 w) = flags m ∧
  slice 64 72 w = slice 8 16 (message_id m) ∧ slice 72 80 w = slice 0 8 (message_id m) ∧
  slice 80 112 w = payload_digest m ∧
  be_value (slice 112 116 w) = PayloadType_as_u32 (payload_type m) ∧
  be_value (slice 116 120 w) = #(payload m) ∧ drop 120 w = payload m.
Proof.
  intros (Hsv & Hcd & Hsn & Hfl & Hid & Hdg)%wf_message_spec Hmax w.
  pose proof (len_nonneg (payload m)). pose proof (PayloadType_range (payload_type m)).
  unfold MAX_PAYLOAD_SIZE in *. pose proof (length_padded (message_type m)) as Hpad.
  unfold MESSAGE_TYPE_LEN in Hpad.
  assert (Hbe : ∀ n z, 0 ≤ z < 256 ^ Z.of_nat n → be_value (be_bytes n z) = z)
    by (intros; rewrite be_value_bytes; by apply Z.mod_small).
  assert (length (take 8 (message_id m)) = 8%nat) by (rewrite length_take; lia).
  assert (length (take 8 (drop 8 (message_id m))) = 8%nat)
    by (rewrite length_take, length_drop; lia).
  change (slice 8 16 (message_id m)) with (take 8 (drop 8 (message_id m))).
  change (slice 0 8 (message_id m)) with (take 8 (message_id m)).
  unfold w, serialize. split_and!; slice_simpl; rewrite ?Hbe by (cbn; lia); try done.
  - rewrite be_value_bytes. change (256 ^ Z.of_nat 8) with (2 ^ 64).
    by rewrite wrap_i_mod, wrap_i_small by (cbn; lia).
  - rewrite !app_assoc, drop_app_exact; [done|].
    rewrite !length_app, !length_be_bytes, Hpad. lia.
Qed.

(** a declared payload length over the limit, or past the end of the frame, is
    rejected from the header alone, whatever the other fields hold, so no
    allocation follows the declared length. *)
Theorem oversized_payload_rejected data :
  HEADER_SIZE ≤ #data →
  let declared := be_value (slice 116 120 data) in
  MAX_PAYLOAD_SIZE < declared ∨ #data - HEADER_SIZE < declared →
  ∃ e, deserialize data = Done (Err e).
Proof.
  intros Hge. destruct (split_header data Hge) as (h & rest & Hwf & ->).
  pose proof (len_header_bytes h Hwf) as Hl. rewrite deserialize_header by done.
  assert (slice 116 120 (header_bytes h ++ rest) = h_plen h) as ->.
  { destruct Hwf as (?&?&?&?&?&?&?&?&?&?). unfold header_bytes. rewrite <- !app_assoc.
    by slice_simpl. }
  cbv zeta. rewrite len_app. intros Hbig.
  destruct (decode h rest) as [m|e] eqn:Hd; [|by eauto].
  apply decode_ok_inv in Hd as (_&_&_&?&?&_). lia.
Qed.
End Properties.

(** ** Witnesses *)

(** A stand-in digest: the payload read as a number, in 32 bytes. *)
Definition toy_sha : Sha256 := λ p, be_bytes 32 (le_value p).

Definition sample : ClientMessage :=
  @ClientMessage_new toy_sha 1700000000000 (be_bytes 16 0x000102030405060708090A0B0C0D0E0F)
    OutputStreamData 7 Pt_Output [x68; x69].

Lemma wire_roundtrip_witness :
  @deserialize toy_sha (serialize sample ++ [x00]) = Done (Ok sample).
Proof. apply (@wire_roundtrip toy_sha); [vm_compute; reflexivity|vm_compute; discriminate|vm_compute; reflexivity]. Defined.

Lemma deserialize_sound_witness : wf_message sample = true ∧ 0 ≤ sequence_number sample.
Proof.
  destruct (@deserialize_sound toy_sha (serialize sample) sample) as (Hwf & _ & _ & _ & Hv).
  - vm_compute. reflexivity.
  - split; [exact Hwf|]. apply Hv; discriminate.
Defined.

Lemma reserialize_witness :
  serialize sample = slice 0 4 (serialize sample) ++ padded_message_type OutputStreamData
                     ++ slice 36 122 (serialize sample).
Proof. apply (@reserialize toy_sha (serialize sample) sample). vm_compute. reflexivity. Defined.

Lemma payload_corruption_detected_witness :
  ∃ e, @deserialize toy_sha (slice 0 120 (serialize sample) ++ [x68; x6a]) = Done (Err e).
Proof.
  eexists. apply (@payload_corruption_detected toy_sha sample [x68; x6a]);
    first [reflexivity | discriminate | vm_compute; discriminate].
Defined.

Lemma header_layout_witness : be_value (slice 116 120 (serialize sample)) = 2.
Proof.
  destruct (header_layout sample) as (_&_&_&_&_&_&_&_&_&_&Hl&_);
    [vm_compute; reflexivity|vm_compute; discriminate|exact Hl].
Defined.

Lemma oversized_payload_rejected_witness :
  ∃ e, @deserialize toy_sha (replicate 116 x00 ++ replicate 4 xff) = Done (Err e).
Proof.
  apply (@oversized_payload_rejected toy_sha); [vm_compute; discriminate|left; vm_compute; reflexivity].
Defined.
