(* ===== verification/Ack.v ===== *)
(** * Reliable delivery (src/ack.rs)

    Acknowledgement payloads, the RTT estimator of RFC 6298, the buffer of sent
    but unacknowledged messages and the reorder buffer.  The mutexes of the
    source guard each operation as a whole, so an operation is a function on the
    guarded state; [Instant]s are nanoseconds and every reading of the clock is
    an argument. *)

From S2P Require Import Prelude RustStd Errors Interfaces BinaryProtocol.

Definition INITIAL_RTT : Duration := from_millis 100.
Definition INITIAL_RTO : Duration := from_millis 200.
Definition MIN_RTO : Duration := from_millis 50.
Definition MAX_RTO : Duration := from_secs 30.
Definition RTO_VARIANCE_FACTOR : Z := 4.

(** ** Acknowledgement payload *)

Record AcknowledgeContent := {
  ack_message_type : str;
  ack_message_id : str;
  ack_sequence_number : Z;
  ack_is_sequential : bool }.

Section AckMessages.
Context `{Sha256, UuidDisplay, Serde AcknowledgeContent}.

Definition ack_content (received : ClientMessage) (is_sequential : bool) : AcknowledgeContent :=
  {| ack_message_type := as_str (message_type received);
     ack_message_id := uuid_to_string (message_id received);
     ack_sequence_number := sequence_number received;
     ack_is_sequential := is_sequential |}.

Definition build_ack (now_millis : Z) (uuid : list byte)
    (received : ClientMessage) (is_sequential : bool) : Res ClientMessage :=
  payload ← map_err Error_Serialization (to_vec (ack_content received is_sequential));
  let ack := ClientMessage_new now_millis uuid Acknowledge 0 Pt_Undefined payload in
  Ok {| message_type := message_type ack; schema_version := schema_version ack;
        created_date := created_date ack; sequence_number := sequence_number ack;
        flags := Z.lor SYN FIN; message_id := message_id ack;
        payload_digest := payload_digest ack; payload_type := payload_type ack;
        payload := BinaryProtocol.payload ack |}.

Definition parse_ack (message : ClientMessage) : Res AcknowledgeContent :=
  map_err (λ e, protocol (PLit "malformed acknowledge payload: " :: e))
    (from_slice (payload message)).
End AckMessages.

(** ** RTT estimation *)

Record RttEstimate := {
  smoothed : Duration; variance : Duration; rto : Duration; samples : Z (* u64 *) }.

Definition RttEstimate_default : RttEstimate :=
  {| smoothed := INITIAL_RTT; variance := dur_div INITIAL_RTT 2;
     rto := INITIAL_RTO; samples := 0 |}.

Definition record (e : RttEstimate) (sample : Duration) : Outcome RttEstimate :=
  '(s, v) ← (if samples e =? 0 then mret (sample, dur_div sample 2)
             else
               let deviation := abs_diff (smoothed e) sample in
               v3 ← dur_mul (variance e) 3;
               v ← dur_add v3 deviation;
               s7 ← dur_mul (smoothed e) 7;
               s ← dur_add s7 sample;
               mret (dur_div s 8, dur_div v 4));
  kv ← dur_mul v RTO_VARIANCE_FACTOR;
  t ← dur_add s kv;
  mret {| smoothed := s; variance := v; rto := clamp t MIN_RTO MAX_RTO;
          samples := wrap_u 64 (samples e + 1) |}.

(** ** Outgoing buffer *)

Record Pending := {
  wire : list byte; sequence : Z; last_sent : Z; attempts : Z (* u32 *) }.

Inductive RetransmitAction :=
| Idle
| Resend (sequence : Z) (wire : list byte)
| GaveUp (sequence : Z) (attempts : Z).

(** [OutgoingBuffer] with the [OutgoingState] its mutex guards. *)
Record OutgoingBuffer := {
  pending : list Pending;
  rtt : RttEstimate;
  capacity : Z;
  max_attempts : Z }.

Definition OutgoingBuffer_new (capacity max_attempts : Z) : OutgoingBuffer :=
  {| pending := []; rtt := RttEstimate_default;
     capacity := capacity; max_attempts := max_attempts |}.

Definition with_pending (b : OutgoingBuffer) (p : list Pending) : OutgoingBuffer :=
  {| pending := p; rtt := rtt b; capacity := capacity b; max_attempts := max_attempts b |}.

Definition track (now : Z) (w : list byte) (seq : Z) (b : OutgoingBuffer)
  : bool * OutgoingBuffer :=
  if capacity b <=? #(pending b) then (false, b)
  else (true, with_pending b (pending b ++
          [{| wire := w; sequence := seq; last_sent := now; attempts := 1 |}])).

(** [Instant::elapsed], which saturates at zero. *)
Definition elapsed (now since : Z) : Duration := Z.max 0 (now - since).

Definition acknowledge (now : Z) (seq : Z) (b : OutgoingBuffer)
  : Outcome (bool * OutgoingBuffer) :=
  match list_find (λ p, sequence p = seq) (pending b) with
  | None => Done (false, b)
  | Some (index, entry) =>
    let b' := with_pending b (delete index (pending b)) in
    if attempts entry =? 1 then
      r ← record (rtt b) (elapsed now (last_sent entry));
      mret (true, {| pending := pending b'; rtt := r;
                     capacity := capacity b'; max_attempts := max_attempts b' |})
    else Done (true, b')
  end.

(** [now] is the reading of [elapsed()], [now'] the later one stored in
    [last_sent]. *)
Definition poll_retransmit (now now' : Z) (b : OutgoingBuffer)
  : RetransmitAction * OutgoingBuffer :=
  match pending b with
  | [] => (Idle, b)
  | head :: rest =>
    if elapsed now (last_sent head) <=? rto (rtt b) then (Idle, b)
    else if max_attempts b <=? attempts head then
      (GaveUp (sequence head) (attempts head), b)
    else
      (Resend (sequence head) (wire head),
       with_pending b ({| wire := wire head; sequence := sequence head;
                          last_sent := now'; attempts := wrap_u 32 (attempts head + 1) |}
                       :: rest))
  end.

Definition outgoing_len (b : OutgoingBuffer) : Z := #(pending b).
Definition outgoing_is_empty (b : OutgoingBuffer) : bool := outgoing_len b =? 0.
Definition outgoing_clear (b : OutgoingBuffer) : OutgoingBuffer := with_pending b [].

(** ** Incoming buffer *)

Record IncomingBuffer := {
  messages : gmap Z ClientMessage;   (* BTreeMap<i64, ClientMessage> *)
  in_capacity : Z }.

Definition IncomingBuffer_new (capacity : Z) : IncomingBuffer :=
  {| messages := ∅; in_capacity := capacity |}.

Definition map_len {A} (m : gmap Z A) : Z := Z.of_nat (size m).

Definition incoming_insert (m : ClientMessage) (b : IncomingBuffer) : bool * IncomingBuffer :=
  if (in_capacity b <=? map_len (messages b))
     && negb (bool_decide (is_Some (messages b !! sequence_number m)))
  then (false, b)
  else (true, {| messages := <[sequence_number m := m]> (messages b);
                 in_capacity := in_capacity b |}).

Definition incoming_take (seq : Z) (b : IncomingBuffer)
  : option ClientMessage * IncomingBuffer :=
  (messages b !! seq,
   {| messages := delete seq (messages b); in_capacity := in_capacity b |}).

Definition incoming_len (b : IncomingBuffer) : Z := map_len (messages b).

(** ** Lemmas: RTT estimation *)

(** Samples up to this bound (about 73 billion years) cannot overflow the
    estimator's arithmetic. *)
Definition RTT_BOUND : Duration := DURATION_MAX / 8.

Definition rtt_ok (e : RttEstimate) : Prop :=
  0 ≤ smoothed e ≤ RTT_BOUND ∧ 0 ≤ variance e ≤ RTT_BOUND ∧ MIN_RTO ≤ rto e ≤ MAX_RTO.

Lemma rtt_ok_default : rtt_ok RttEstimate_default.
Proof. repeat split; vm_compute; discriminate. Qed.

(** The recurrence [record] computes, with no panic. *)
Lemma record_spec e x :
  rtt_ok e → 0 ≤ x ≤ RTT_BOUND →
  ∃ e', record e x = Done e' ∧ rtt_ok e'
    ∧ samples e' = wrap_u 64 (samples e + 1)
    ∧ smoothed e' = (if samples e =? 0 then x else (smoothed e * 7 + x) / 8)
    ∧ variance e' = (if samples e =? 0 then x / 2
                     else (variance e * 3 + Z.abs (smoothed e - x)) / 4).
Proof.
  intros (Hs & Hv & Hr) Hx.
  assert (HB : 8 * RTT_BOUND ≤ DURATION_MAX) by (vm_compute; discriminate).
  assert (HC : ∀ t, MIN_RTO ≤ clamp t MIN_RTO MAX_RTO ≤ MAX_RTO)
    by (intros; apply clamp_range; vm_compute; discriminate).
  unfold record, dur_mul, dur_add, dur_div, abs_diff, RTO_VARIANCE_FACTOR.
  destruct (samples e =? 0).
  - pose proof (Z.div_pos x 2). assert (x / 2 ≤ x) by (apply Z.div_le_upper_bound; lia).
    unfold mbind, Outcome_bind, mret, Outcome_ret. rewrite !checked_dur_le by lia.
    eexists. repeat split; cbn [smoothed variance rto]; try apply HC; lia.
  - unfold mbind, Outcome_bind, mret, Outcome_ret.
    rewrite !(checked_dur_le (_ * 3)), !(checked_dur_le (_ + Z.abs _)),
      !(checked_dur_le (_ * 7)), (checked_dur_le (_ + x)) by lia.
    set (v := (variance e * 3 + Z.abs (smoothed e - x)) / 4).
    set (s := (smoothed e * 7 + x) / 8).
    assert (0 ≤ v ≤ RTT_BOUND) by
      (unfold v; split; [apply Z.div_pos|apply Z.div_le_upper_bound]; lia).
    assert (0 ≤ s ≤ RTT_BOUND) by
      (unfold s; split; [apply Z.div_pos|apply Z.div_le_upper_bound]; lia).
    rewrite !checked_dur_le by lia.
    eexists. repeat split; cbn [smoothed variance rto]; try apply HC; lia.
Qed.

Fixpoint record_all (e : RttEstimate) (xs : list Duration) : Outcome RttEstimate :=
  match xs with
  | [] => Done e
  | x :: xs => e' ← record e x; record_all e' xs
  end.

(** Once inside [lo, hi], the smoothed estimate stays there while samples do. *)
Lemma record_all_range lo hi e xs :
  0 ≤ lo → hi ≤ RTT_BOUND → rtt_ok e →
  (samples e = 0 ∨ lo ≤ smoothed e ≤ hi ∧ variance e ≤ hi) →
  Forall (λ x, lo ≤ x ≤ hi) xs → (xs = [] → samples e ≠ 0) →
  ∃ e', record_all e xs = Done e' ∧ rtt_ok e' ∧ lo ≤ smoothed e' ≤ hi ∧ variance e' ≤ hi.
Proof.
  intros Hlo Hhi He Hin Hxs. revert e He Hin.
  induction Hxs as [|x xs Hx Hxs IH]; intros e He Hin Hne; cbn [record_all].
  - exists e. destruct Hin as [Hz|[??]]; [by destruct Hne|done].
  - destruct (record_spec e x He) as (e1 & -> & He1 & _ & Hs1 & Hv1); [lia|].
    cbn [mbind Outcome_bind].
    assert (lo ≤ smoothed e1 ≤ hi ∧ variance e1 ≤ hi) as [Hs Hv].
    { destruct He as (?&?&_). rewrite Hs1, Hv1. destruct (Z.eqb_spec (samples e) 0).
      - split; [lia|]. apply Z.div_le_upper_bound; lia.
      - destruct Hin as [?|[??]]; [lia|]. repeat split.
        + apply Z.div_le_lower_bound; lia.
        + apply Z.div_le_upper_bound; lia.
        + apply Z.div_le_upper_bound; lia. }
    destruct xs as [|y ys]; [by exists e1|].
    apply IH; [done|by right|done].
Qed.

(** ** Lemmas: outgoing buffer *)

(** The sequence numbers and bytes awaiting acknowledgement, oldest first. *)
Definition backlog (b : OutgoingBuffer) : list (Z * list byte) :=
  map (λ p, (sequence p, wire p)) (pending b).

(** Well-formedness: bounded occupancy, transmission counts within the budget,
    a sane estimator. *)
Definition wf_out (b : OutgoingBuffer) : Prop :=
  #(pending b) ≤ capacity b ∧ max_attempts b < 2 ^ 32
  ∧ Forall (λ p, 1 ≤ attempts p ≤ Z.max 1 (max_attempts b) ∧ 0 ≤ last_sent p) (pending b)
  ∧ rtt_ok (rtt b).

Lemma wf_out_new cap att : 0 ≤ cap → att < 2 ^ 32 → wf_out (OutgoingBuffer_new cap att).
Proof. intros ??. split_and!; try done; apply rtt_ok_default. Qed.

Lemma track_wf now w seq b :
  0 ≤ now → wf_out b → wf_out (track now w seq b).2.
Proof.
  intros Hnow (Hc & Hm & Ha & Hr). unfold track.
  destruct (Z.leb_spec (capacity b) (#(pending b))); [done|].
  split_and!; cbn; try done.
  - rewrite len_app, len_cons, len_nil. lia.
  - apply Forall_app. split; [done|]. constructor; [cbn; lia|constructor].
Qed.

Lemma track_backlog now w seq b :
  backlog (track now w seq b).2 =
    if capacity b <=? #(backlog b) then backlog b else backlog b ++ [(seq, w)].
Proof.
  unfold track, backlog at 2 3, len. rewrite length_map. fold (len (pending b)).
  destruct (capacity b <=? #(pending b)); [done|].
  unfold backlog; cbn. by rewrite map_app.
Qed.

(** Remove the first entry with this sequence number. *)
Fixpoint retire (seq : Z) (l : list (Z * list byte)) : list (Z * list byte) :=
  match l with
  | [] => []
  | x :: l => if decide (x.1 = seq) then l else x :: retire seq l
  end.

Lemma retire_delete seq ps :
  retire seq (map (λ p, (sequence p, wire p)) ps) =
    map (λ p, (sequence p, wire p))
      match list_find (λ p, sequence p = seq) ps with
      | Some (i, _) => delete i ps
      | None => ps
      end.
Proof.
  induction ps as [|p ps IH]; [done|]. cbn [map retire list_find fst].
  destruct (decide (sequence p = seq)); [done|]. rewrite IH.
  by destruct (list_find (λ p, sequence p = seq) ps) as [[i q]|].
Qed.

Lemma acknowledge_spec now seq b :
  0 ≤ now ≤ RTT_BOUND → wf_out b →
  ∃ found b', acknowledge now seq b = Done (found, b') ∧ wf_out b'
    ∧ found = bool_decide (seq ∈ (backlog b).*1)
    ∧ backlog b' = retire seq (backlog b) ∧ capacity b' = capacity b
    ∧ max_attempts b' = max_attempts b.
Proof.
  intros Hnow Hwf. pose proof Hwf as (Hc & Hm & Ha & Hr).
  unfold acknowledge, backlog. rewrite retire_delete, <- list_fmap_compose.
  destruct (list_find (λ p, sequence p = seq) (pending b)) as [[i p]|] eqn:Hf.
  - apply list_find_Some in Hf as (Hi & Hp & _).
    assert (Hin : bool_decide (seq ∈ (fst ∘ (λ p, (sequence p, wire p))) <$> pending b) = true).
    { apply bool_decide_eq_true. apply list_elem_of_fmap. exists p.
      split; [done|]. by eapply list_elem_of_lookup_2. }
    assert (Hpa : 0 ≤ last_sent p) by (eapply Forall_lookup_1 in Ha as [??]; eauto).
    assert (Hdel : #(delete i (pending b)) ≤ capacity b).
    { unfold len in *. rewrite length_delete by eauto. lia. }
    assert (HaD : Forall (λ p, 1 ≤ attempts p ≤ Z.max 1 (max_attempts b) ∧ 0 ≤ last_sent p)
      (delete i (pending b))) by (by apply Forall_delete).
    destruct (attempts p =? 1).
    + destruct (record_spec (rtt b) (elapsed now (last_sent p)) Hr) as (r & -> & Hr' & _).
      { unfold elapsed. lia. }
      eexists _, _. split; [done|]. unfold wf_out. by split_and!.
    + eexists _, _. split; [done|]. unfold wf_out. by split_and!.
  - exists false, b. split_and!; try done.
    symmetry. apply bool_decide_eq_false. intros (p & -> & Hp)%list_elem_of_fmap.
    apply list_find_None in Hf. rewrite Forall_forall in Hf.
    by eapply Hf.
Qed.

Lemma poll_spec now now' b :
  0 ≤ now' → wf_out b →
  let '(_, b') := poll_retransmit now now' b in
  wf_out b' ∧ backlog b' = backlog b ∧ capacity b' = capacity b
  ∧ max_attempts b' = max_attempts b ∧ rtt b' = rtt b.
Proof.
  intros Hnow (Hc & Hm & Ha & Hr). unfold poll_retransmit.
  destruct (pending b) as [|p ps] eqn:Hp.
  { unfold wf_out. rewrite Hp. by split_and!. }
  assert (wf_out b) by (unfold wf_out; rewrite Hp; by split_and!).
  destruct (_ <=? _); [done|].
  destruct (Z.leb_spec (max_attempts b) (attempts p)); [done|].
  apply Forall_cons in Ha as [[Hap Hlp] Ha].
  unfold wf_out, backlog, with_pending; cbn. rewrite Hp. split_and!; try done.
  constructor; [|done]. cbn. rewrite wrap_u_small by lia. lia.
Qed.

(** ** A history of buffer operations *)

Inductive out_event :=
| Track (now : Z) (w : list byte) (seq : Z)
| Ackd (now : Z) (seq : Z)
| Poll (now now' : Z).

Definition clock_ok (e : out_event) : Prop :=
  match e with
  | Track now _ _ => 0 ≤ now
  | Ackd now _ => 0 ≤ now ≤ RTT_BOUND
  | Poll _ now' => 0 ≤ now'
  end.

Definition out_step (b : OutgoingBuffer) (e : out_event) : Outcome OutgoingBuffer :=
  match e with
  | Track now w seq => Done (track now w seq b).2
  | Ackd now seq => '(_, b') ← acknowledge now seq b; mret b'
  | Poll now now' => Done (poll_retransmit now now' b).2
  end.

Fixpoint out_run (b : OutgoingBuffer) (es : list out_event) : Outcome OutgoingBuffer :=
  match es with
  | [] => Done b
  | e :: es => b' ← out_step b e; out_run b' es
  end.

(** The specification: a bounded FIFO of unacknowledged messages.  A message is
    refused only when the queue is full, leaves only by being acknowledged, and
    retransmission does not touch the queue. *)
Definition fifo_step (cap : Z) (q : list (Z * list byte)) (e : out_event)
  : list (Z * list byte) :=
  match e with
  | Track _ w seq => if cap <=? #q then q else q ++ [(seq, w)]
  | Ackd _ seq => retire seq q
  | Poll _ _ => q
  end.

Lemma out_step_refines b e :
  wf_out b → clock_ok e →
  ∃ b', out_step b e = Done b' ∧ wf_out b' ∧ capacity b' = capacity b
    ∧ max_attempts b' = max_attempts b ∧ backlog b' = fifo_step (capacity b) (backlog b) e.
Proof.
  intros Hwf Hck. destruct e as [now w seq|now seq|now now']; cbn in Hck |- *.
  - eexists. split; [done|]. split_and!; [by apply track_wf|..|apply track_backlog];
      unfold track; by destruct (_ <=? _).
  - destruct (acknowledge_spec now seq b Hck Hwf) as (f & b' & -> & ? & _ & ? & ? & ?).
    by exists b'.
  - pose proof (poll_spec now now' b Hck Hwf) as Hp.
    destruct (poll_retransmit now now' b) as [a b']. exists b'. by destruct Hp as (?&?&?&?&?).
Qed.

Lemma out_run_refines es : ∀ b,
  wf_out b → Forall clock_ok es →
  ∃ b', out_run b es = Done b' ∧ wf_out b' ∧ capacity b' = capacity b
    ∧ max_attempts b' = max_attempts b
    ∧ backlog b' = foldl (fifo_step (capacity b)) (backlog b) es.
Proof.
  induction es as [|e es IH]; intros b Hwf Hck; cbn [out_run foldl].
  - by exists b.
  - apply Forall_cons in Hck as [He Hes].
    destruct (out_step_refines b e Hwf He) as (b1 & -> & Hwf1 & Hc1 & Hm1 & Hb1).
    cbn [mbind Outcome_bind]. destruct (IH b1 Hwf1 Hes) as (b2 & -> & ? & Hc2 & Hm2 & Hb2).
    exists b2. rewrite Hb2, Hb1, Hc1. split_and!; congruence.
Qed.

(** Every poll of the history [times] finds the head overdue. *)
Fixpoint overdue (t since : Z) (times : list (Z * Z)) : Prop :=
  match times with
  | [] => True
  | (now, now') :: times => t < now - since ∧ overdue t now' times
  end.

Fixpoint polls (b : OutgoingBuffer) (times : list (Z * Z))
  : list RetransmitAction * OutgoingBuffer :=
  match times with
  | [] => ([], b)
  | (now, now') :: times =>
    let '(a, b1) := poll_retransmit now now' b in
    let '(al, b2) := polls b1 times in (a :: al, b2)
  end.

Lemma polls_resend times : ∀ b p ps,
  pending b = p :: ps → 0 ≤ rto (rtt b) → max_attempts b < 2 ^ 32 → 0 ≤ attempts p →
  #times = max_attempts b - attempts p → overdue (rto (rtt b)) (last_sent p) times →
  let '(al, b') := polls b times in
  al = replicate (length times) (Resend (sequence p) (wire p))
  ∧ rtt b' = rtt b ∧ max_attempts b' = max_attempts b
  ∧ ∃ p', pending b' = p' :: ps ∧ sequence p' = sequence p ∧ wire p' = wire p
      ∧ attempts p' = max_attempts b ∧ last_sent p' = default (last_sent p) (snd <$> last times).
Proof.
  induction times as [|[now now'] times IH]; intros b p ps Hp Hr Hm Ha Hlen Hod; cbn [polls].
  { split_and!; try done. exists p. rewrite len_nil in Hlen. split_and!; try done. lia. }
  destruct Hod as [Hnow Hod]. rewrite len_cons in Hlen. pose proof (len_nonneg times).
  unfold poll_retransmit. rewrite Hp.
  destruct (Z.leb_spec (elapsed now (last_sent p)) (rto (rtt b))) as [Hle|_];
    [unfold elapsed in Hle; lia|].
  destruct (Z.leb_spec (max_attempts b) (attempts p)); [lia|]. cbn beta iota.
  match goal with |- context [with_pending b (?q :: ps)] => set (p1 := q) end.
  assert (attempts p1 = attempts p + 1) as Ha1 by (apply wrap_u_small; lia).
  specialize (IH (with_pending b (p1 :: ps)) p1 ps eq_refl Hr Hm ltac:(lia)
    ltac:(cbn [with_pending max_attempts]; lia) Hod).
  destruct (polls _ times) as [al b2]. destruct IH as (-> & ? & ? & p' & ? & ? & ? & ? & Hls).
  cbn beta iota. split_and!; try done. exists p'. split_and!; try done.
  rewrite Hls, last_cons. by destruct (last times).
Qed.

(** ** Lemmas: incoming buffer *)

Definition wf_in (b : IncomingBuffer) : Prop :=
  map_len (messages b) ≤ in_capacity b
  ∧ map_Forall (λ k m, sequence_number m = k) (messages b).

Lemma map_len_insert_le {A} (m : gmap Z A) k x :
  map_len (<[k:=x]> m) ≤ (if decide (is_Some (m !! k)) then map_len m else map_len m + 1).
Proof.
  unfold map_len. rewrite map_size_insert.
  destruct (m !! k); destruct (decide _) as [[? ?]|?]; unfold id; (done || lia).
Qed.

Lemma map_len_delete_le {A} (m : gmap Z A) k : map_len (delete k m) ≤ map_len m.
Proof. unfold map_len. rewrite map_size_delete. destruct (m !! k); unfold id; lia. Qed.

Lemma incoming_insert_wf m b : wf_in b → wf_in (incoming_insert m b).2.
Proof.
  intros [Hc Hk]. unfold incoming_insert.
  destruct (Z.leb_spec (in_capacity b) (map_len (messages b)));
    destruct (decide (is_Some (messages b !! sequence_number m))) as [Hs|Hn];
    rewrite ?(bool_decide_true (is_Some _)), ?(bool_decide_false (is_Some _)) by done;
    cbn [negb andb]; try done.
  all: split; cbn;
    [pose proof (map_len_insert_le (messages b) (sequence_number m) m) as Hl;
     first [rewrite decide_True in Hl by done | rewrite decide_False in Hl by done]; lia
    |by apply map_Forall_insert_2].
Qed.

Lemma incoming_take_wf k b : wf_in b → wf_in (incoming_take k b).2.
Proof.
  intros [Hc Hk]. split; cbn.
  - pose proof (map_len_delete_le (messages b) k). lia.
  - by apply map_Forall_delete.
Qed.

(** ** Properties *)

(** An acknowledgement built for a received message survives the wire and
    parses to the type, id and sequence number of that message and to the
    in-order flag; its own header carries sequence number 0 and SYN|FIN. *)
Theorem ack_roundtrip `{Sha256Ok, UuidDisplay, SerdeOk AcknowledgeContent}
    now uuid received sequential ack :
  0 ≤ now < 2 ^ 64 → length uuid = MESSAGE_ID_LEN →
  build_ack now uuid received sequential = Ok ack → #(payload ack) ≤ MAX_PAYLOAD_SIZE →
  deserialize (serialize ack) = Done (Ok ack)
  ∧ message_type ack = Acknowledge ∧ sequence_number ack = 0 ∧ flags ack = 3
  ∧ parse_ack ack = Ok (ack_content received sequential).
Proof.
  intros Hnow Huuid Hb Hmax. unfold build_ack in Hb.
  destruct (to_vec (ack_content received sequential)) as [bs|] eqn:Hbs; [|done].
  injection Hb as <-. split_and!; try done.
  - rewrite <- (app_nil_r (serialize _)), deserialize_serialize; try done.
    + unfold validate; cbn. rewrite (bool_decide_true (sha256 bs = sha256 bs)) by done.
      by rewrite andb_false_r.
    + apply wf_message_spec. cbn. rewrite length_sha256. split_and!; (done || lia).
  - unfold parse_ack; cbn. by rewrite (from_to_vec _ _ Hbs).
Qed.

(** Folding any non-empty series of samples from [lo, hi] into the initial
    estimate never overflows, keeps the smoothed RTT within [lo, hi] and the
    retransmission timeout within its 50 ms .. 30 s clamp. *)
Theorem rtt_tracks_samples lo hi xs :
  0 ≤ lo → hi ≤ RTT_BOUND → xs ≠ [] → Forall (λ x, lo ≤ x ≤ hi) xs →
  ∃ e, record_all RttEstimate_default xs = Done e
    ∧ lo ≤ smoothed e ≤ hi ∧ 0 ≤ variance e ≤ hi ∧ MIN_RTO ≤ rto e ≤ MAX_RTO.
Proof.
  intros Hlo Hhi Hne Hxs.
  destruct (record_all_range lo hi RttEstimate_default xs) as (e & He & Hok & Hs & Hv);
    try done; [by left|].
  exists e. destruct Hok as (_ & [? _] & ?). split; [done|lia].
Qed.

(** C26: over any history of [track], [acknowledge] and [poll_retransmit] the
    buffer implements a bounded FIFO of unacknowledged messages: nothing is
    evicted, lost, duplicated or reordered, it never panics, and occupancy and
    transmission counts stay within their limits. *)
Theorem outgoing_refines_fifo cap att es :
  0 ≤ cap → att < 2 ^ 32 → Forall clock_ok es →
  ∃ b, out_run (OutgoingBuffer_new cap att) es = Done b
    ∧ backlog b = foldl (fifo_step cap) [] es ∧ #(pending b) ≤ cap
    ∧ Forall (λ p, 1 ≤ attempts p ≤ Z.max 1 att) (pending b).
Proof.
  intros Hcap Hatt Hes.
  destruct (out_run_refines es _ (wf_out_new cap att Hcap Hatt) Hes)
    as (b & Hrun & (Hc & _ & Ha & _) & Hcapb & Hmb & Hbl).
  exists b. cbn in Hcapb, Hmb, Hbl. subst cap att. split_and!; try done.
  eapply Forall_impl; [exact Ha|]. by intros p [??].
Qed.

(** C40: while the oldest message stays unacknowledged and every poll finds it
    overdue, it is resent exactly [max_attempts - 1] times, always with its
    original bytes, and the poll after that gives up on it, naming its sequence
    number and the number of transmissions. *)
Theorem retransmit_budget b p ps times :
  pending b = p :: ps → attempts p = 1 → rtt_ok (rtt b) → max_attempts b < 2 ^ 32 →
  #times = max_attempts b - 1 → overdue (rto (rtt b)) (last_sent p) times →
  let '(al, b') := polls b times in
  al = replicate (length times) (Resend (sequence p) (wire p))
  ∧ ∀ now now', rto (rtt b) < now - default (last_sent p) (snd <$> last times) →
      poll_retransmit now now' b' = (GaveUp (sequence p) (max_attempts b), b').
Proof.
  intros Hp Ha (_ & _ & Hr) Hm Hlen Hod. assert (0 ≤ MIN_RTO) by done.
  pose proof (polls_resend times b p ps Hp ltac:(lia) Hm ltac:(lia) ltac:(lia) Hod) as HP.
  destruct (polls b times) as [al b'].
  destruct HP as (-> & Hrtt & Hmax & p' & Hp' & Hs & _ & Ha' & Hls).
  split; [done|]. intros now now' Hnow. unfold poll_retransmit. rewrite Hp', Hrtt.
  destruct (Z.leb_spec (elapsed now (last_sent p')) (rto (rtt b))) as [Hle|_];
    [unfold elapsed in Hle; lia|].
  rewrite Ha', Hmax, Z.leb_refl, Hs. done.
Qed.

(** Karn's algorithm: the acknowledgement of a message that was ever
    retransmitted retires it without touching the RTT estimate. *)
Theorem retransmitted_ack_keeps_rtt b p ps now now' later b1 :
  wf_out b → pending b = p :: ps →
  poll_retransmit now now' b = (Resend (sequence p) (wire p), b1) →
  acknowledge later (sequence p) b1 = Done (true, with_pending b ps).
Proof.
  intros (_ & Hm & Ha & _) Hp. unfold poll_retransmit. rewrite Hp in Ha |- *.
  apply Forall_cons in Ha as [Ha _].
  destruct (_ <=? _); [done|]. destruct (Z.leb_spec (max_attempts b) (attempts p)); [done|].
  intros [= <-]. unfold acknowledge; cbn [pending with_pending list_find].
  cbn [sequence]. rewrite decide_True by done. cbn.
  rewrite wrap_u_small by lia. destruct (Z.eqb_spec (attempts p + 1) 1); [lia|done].
Qed.

(** The reorder buffer never exceeds its capacity; a refused message leaves
    it unchanged and is refused only when it is full and the sequence number is
    new; an accepted one is stored under its own number without disturbing the
    others and comes back from [take] once. *)
Theorem incoming_buffer_spec m b :
  wf_in b →
  let '(accepted, b') := incoming_insert m b in
  wf_in b' ∧ (accepted = false ↔ in_capacity b ≤ incoming_len b ∧ messages b !! sequence_number m = None)
  ∧ (accepted = false → b' = b)
  ∧ (accepted = true →
     let '(got, b'') := incoming_take (sequence_number m) b' in
     got = Some m ∧ (incoming_take (sequence_number m) b'').1 = None ∧ wf_in b'' ∧
     ∀ k, k ≠ sequence_number m → messages b'' !! k = messages b !! k).
Proof.
  intros Hwf. pose proof (incoming_insert_wf m b Hwf) as Hwf'.
  unfold incoming_insert, incoming_len in *.
  destruct (Z.leb_spec (in_capacity b) (map_len (messages b)));
    destruct (messages b !! sequence_number m) as [old|] eqn:Hold;
    rewrite ?(bool_decide_true (is_Some (Some _))), ?(bool_decide_false (is_Some None)) in *
      by (by eauto || by intros [? ?]); cbn [negb andb snd] in *.
  2: by split_and!.
  all: split_and!; try done; [split; [done|intros [??]; (done || lia)]|].
  all: intros _; unfold incoming_take; cbn; rewrite lookup_insert_eq, lookup_delete_eq.
  all: split_and!; try done; [by apply (incoming_take_wf (sequence_number m)) in Hwf'|].
  all: intros k Hk; by rewrite lookup_delete_ne, lookup_insert_ne.
Qed.

(** ** Witnesses *)

#[local] Instance AcknowledgeContent_eq_dec : EqDecision AcknowledgeContent.
Proof. solve_decision. Defined.
#[local] Instance AcknowledgeContent_countable : Countable AcknowledgeContent.
Proof.
  refine (inj_countable'
    (λ c, (ack_message_type c, ack_message_id c, ack_sequence_number c, ack_is_sequential c))
    (λ '(t, i, n, s), Build_AcknowledgeContent t i n s) _).
  by intros [].
Defined.

Definition toy_uuid : UuidDisplay := map byte_val.

Lemma toy_sha_ok : @Sha256Ok toy_sha.
Proof. intros p. apply length_be_bytes. Qed.

Definition toy_ack : Result Error ClientMessage :=
  @build_ack toy_sha toy_uuid (toy_serde AcknowledgeContent)
    5 (be_bytes 16 77) sample true.

Lemma ack_roundtrip_witness :
  ∃ ack, toy_ack = Ok ack ∧ @deserialize toy_sha (serialize ack) = Done (Ok ack)
    ∧ sequence_number ack = 0.
Proof.
  eexists. split; [vm_compute; reflexivity|].
  edestruct (@ack_roundtrip toy_sha toy_sha_ok toy_uuid (toy_serde AcknowledgeContent)
    (toy_serde_ok AcknowledgeContent) 5 (be_bytes 16 77) sample true) as (H1 & _ & H2 & _);
    [lia|reflexivity|vm_compute; reflexivity|vm_compute; discriminate|split; [exact H1|exact H2]].
Defined.

Lemma rtt_tracks_samples_witness :
  ∃ e, record_all RttEstimate_default [from_millis 60; from_millis 70] = Done e
    ∧ from_millis 60 ≤ smoothed e ≤ from_millis 70.
Proof.
  destruct (rtt_tracks_samples (from_millis 60) (from_millis 70)
    [from_millis 60; from_millis 70]) as (e & He & Hs & _);
    [vm_compute; discriminate|vm_compute; discriminate|discriminate| |by exists e].
  repeat constructor; vm_compute; discriminate.
Defined.

Lemma outgoing_refines_fifo_witness :
  ∃ b, out_run (OutgoingBuffer_new 2 3)
         [Track 0 [x61] 0; Track 1 [x62] 1; Track 2 [x63] 2; Ackd 5 0; Poll 900000000 900000001]
       = Done b ∧ backlog b = [(1, [x62])].
Proof.
  destruct (outgoing_refines_fifo 2 3
    [Track 0 [x61] 0; Track 1 [x62] 1; Track 2 [x63] 2; Ackd 5 0; Poll 900000000 900000001])
    as (b & Hr & Hb & _); [lia|lia| |by exists b].
  repeat constructor; vm_compute; discriminate.
Defined.

Definition one_pending : OutgoingBuffer := (track 0 [x61] 7 (OutgoingBuffer_new 8 2)).2.

Lemma retransmit_budget_witness :
  let '(al, b') := polls one_pending [(300000000, 300000001)] in
  al = [Resend 7 [x61]] ∧
  poll_retransmit 900000000 900000000 b' = (GaveUp 7 2, b').
Proof.
  destruct (retransmit_budget one_pending {| wire := [x61]; sequence := 7; last_sent := 0; attempts := 1 |}
    [] [(300000000, 300000001)]) as [Ha Hg];
    [reflexivity|reflexivity|apply rtt_ok_default|vm_compute; reflexivity|reflexivity
    |split; [vm_compute; reflexivity|exact I]|].
  split; [exact Ha|]. apply Hg. vm_compute. reflexivity.
Defined.

Lemma retransmitted_ack_keeps_rtt_witness :
  acknowledge 400000000 7 (poll_retransmit 300000000 300000001 one_pending).2
  = Done (true, with_pending one_pending []).
Proof.
  eapply (retransmitted_ack_keeps_rtt one_pending
    {| wire := [x61]; sequence := 7; last_sent := 0; attempts := 1 |} []
    300000000 300000001 400000000).
  - apply track_wf; [lia|]. apply wf_out_new; lia.
  - reflexivity.
  - vm_compute. reflexivity.
Defined.

Lemma incoming_buffer_spec_witness :
  (incoming_take 7 (incoming_insert sample (IncomingBuffer_new 4)).2).1 = Some sample.
Proof.
  destruct (incoming_buffer_spec sample (IncomingBuffer_new 4)) as (_ & _ & _ & H).
  - split; [vm_compute; discriminate|apply map_Forall_empty].
  - destruct (H eq_refl) as [Hg _]. exact Hg.
Defined.
