(* ===== verification/Crypto.v ===== *)
(** * KMS session encryption (src/crypto.rs, the [kms] build)

    [SessionCrypto] is the pair of directional AES-256-GCM keys.  AES-GCM (crate
    [aes-gcm]) is the class [Aes256Gcm]; the KMS client is a function from the
    [GenerateDataKey] request to its answer; the random nonce is an argument. *)

From S2P Require Import Prelude RustStd Errors Interfaces.

Definition DATA_KEY_BYTES : Z := 64.
Definition NONCE_LEN : nat := 12.
Definition TAG_LEN : Z := 16.

(** Authenticated encryption under a key and a nonce; [None] is the crate's
    opaque [aead::Error]. *)
Class Aes256Gcm := {
  gcm_encrypt : list byte → list byte → list byte → option (list byte);
  gcm_decrypt : list byte → list byte → list byte → option (list byte) }.

Class Aes256GcmOk `{Aes256Gcm} : Prop := {
  gcm_roundtrip k n p c : gcm_encrypt k n p = Some c → gcm_decrypt k n c = Some p;
  gcm_length k n p c : gcm_encrypt k n p = Some c → #c = #p + TAG_LEN }.

(** ** KMS *)

(** The request [negotiate] sends. *)
Record GenerateDataKey := {
  key_id : str;
  number_of_bytes : Z;
  encryption_context : gmap str str }.

Record GenerateDataKeyOutput := {
  out_plaintext : option (list byte);
  out_ciphertext_blob : option (list byte) }.

Abbreviation KmsClient := (GenerateDataKey → Res GenerateDataKeyOutput).

(** ** SessionCrypto *)

Record SessionCrypto := {
  cipher_text_blob : list byte;
  encrypt_key : list byte;
  decrypt_key : list byte }.

Definition from_key_material (material : list byte) (blob : list byte) : Res SessionCrypto :=
  if negb (#material =? DATA_KEY_BYTES) then
    Err (Error_Crypto [PLit "expected a "; PInt DATA_KEY_BYTES; PLit "-byte data key, got ";
                       PInt (#material)])
  else
    let half := Nat.div (length material) 2 in
    let decrypt_half := take half material in
    let encrypt_half := drop half material in
    Ok {| cipher_text_blob := blob; encrypt_key := encrypt_half; decrypt_key := decrypt_half |}.

Definition negotiate (kms : KmsClient) (kms_key_id session_id target_id : str)
  : Res SessionCrypto :=
  let context : gmap str str :=
    list_to_map [(lit "aws:ssm:SessionId", session_id); (lit "aws:ssm:TargetId", target_id)] in
  output ← kms {| key_id := kms_key_id; number_of_bytes := DATA_KEY_BYTES;
                  encryption_context := context |};
  plaintext ← match out_plaintext output with
              | Some p => Ok p
              | None => Err (Error_Crypto [PLit "KMS returned no plaintext data key"]) end;
  blob ← match out_ciphertext_blob output with
         | Some b => Ok b
         | None => Err (Error_Crypto [PLit "KMS returned no ciphertext blob"]) end;
  from_key_material plaintext blob.

Section Cipher.
Context `{Aes256Gcm}.

(** [nonce] is the fresh value of [Aes256Gcm::generate_nonce]. *)
Definition encrypt (nonce : list byte) (c : SessionCrypto) (plaintext : list byte)
  : Res (list byte) :=
  match gcm_encrypt (encrypt_key c) nonce plaintext with
  | None => Err (Error_Crypto [PLit "AES-GCM encryption failed"])
  | Some ciphertext => Ok (nonce ++ ciphertext)
  end.

Definition decrypt (c : SessionCrypto) (frame : list byte) : Res (list byte) :=
  if #frame <? Z.of_nat NONCE_LEN + TAG_LEN then
    Err (Error_Crypto [PLit "encrypted frame is "; PInt (#frame);
                       PLit " bytes, shorter than the "; PInt (Z.of_nat NONCE_LEN + TAG_LEN);
                       PLit "-byte minimum"])
  else
    let nonce := take NONCE_LEN frame in
    let ciphertext := drop NONCE_LEN frame in
    match gcm_decrypt (decrypt_key c) nonce ciphertext with
    | None => Err (Error_Crypto
        [PLit "AES-GCM authentication failed: frame corrupt or key mismatch"])
    | Some plaintext => Ok plaintext
    end.

(** ** Lemmas *)

Lemma encrypt_decrypt `{!Aes256GcmOk} nonce c d p f :
  length nonce = NONCE_LEN → decrypt_key d = encrypt_key c →
  encrypt nonce c p = Ok f → decrypt d f = Ok p ∧ #f = Z.of_nat NONCE_LEN + #p + TAG_LEN.
Proof.
  intros Hn Hk. unfold encrypt. destruct (gcm_encrypt _ _ p) as [ct|] eqn:He; [|done].
  intros [= <-]. pose proof (gcm_length _ _ _ _ He) as Hl.
  assert (Hlen : #(nonce ++ ct) = Z.of_nat NONCE_LEN + #p + TAG_LEN)
    by (rewrite len_app, Hl; unfold len; rewrite Hn; lia).
  split; [|done]. unfold decrypt. pose proof (len_nonneg p).
  destruct (Z.ltb_spec (#(nonce ++ ct)) (Z.of_nat NONCE_LEN + TAG_LEN)); [lia|].
  rewrite take_app_exact, drop_app_exact, Hk by done. cbn.
  by rewrite (gcm_roundtrip _ _ _ _ He).
Qed.
End Cipher.

(** The agent's view of the same key material: the two halves the other way round. *)
Definition swap_material (material : list byte) : list byte :=
  drop 32 material ++ take 32 material.

Lemma from_key_material_halves material blob c :
  from_key_material material blob = Ok c ↔
    #material = DATA_KEY_BYTES ∧
    c = {| cipher_text_blob := blob; encrypt_key := drop 32 material;
           decrypt_key := take 32 material |}.
Proof.
  unfold from_key_material, DATA_KEY_BYTES.
  destruct (Z.eqb_spec (#material) 64) as [Hl|Hl]; cbn [negb].
  - assert (length material = 64%nat) as -> by (unfold len in Hl; lia).
    change (Nat.div 64 2) with 32%nat. cbv zeta. split; [by intros [= <-]|by intros [_ ->]].
  - split; [done|by intros [? _]].
Qed.

(** ** Properties *)

(** C35: whatever the client encrypts the agent decrypts to the same bytes and
    the other way round, when each builds its ciphers from the same 64-byte data
    key with the halves exchanged; an encrypted frame is 28 bytes longer than the
    plaintext. *)
Theorem peers_decrypt_each_other `{Aes256GcmOk} material blob client agent nonce p f :
  from_key_material material blob = Ok client →
  from_key_material (swap_material material) blob = Ok agent →
  length nonce = NONCE_LEN →
  (encrypt nonce client p = Ok f → decrypt agent f = Ok p ∧ #f = #p + 28) ∧
  (encrypt nonce agent p = Ok f → decrypt client f = Ok p ∧ #f = #p + 28).
Proof.
  intros [Hl ->]%from_key_material_halves [_ ->]%from_key_material_halves Hn.
  unfold DATA_KEY_BYTES, len in Hl.
  split; intros He; eapply encrypt_decrypt in He as [Hd Hf]; try exact Hn;
    try (split; [exact Hd|rewrite Hf; unfold TAG_LEN, NONCE_LEN; lia]);
    unfold swap_material; cbn [encrypt_key decrypt_key].
  - by rewrite take_app_exact by (rewrite length_drop; lia).
  - by rewrite drop_app_exact by (rewrite length_drop; lia).
Qed.

(** Negotiation asks KMS for 64 bytes under the session's encryption context
    and yields ciphers only from a 64-byte key with its ciphertext blob; every
    other answer is an error, never an unencrypted session. *)
Theorem negotiate_spec kms kid sid tid c :
  negotiate kms kid sid tid = Ok c →
  ∃ ctx out material, kms {| key_id := kid; number_of_bytes := 64; encryption_context := ctx |} = Ok out
    ∧ ctx !! lit "aws:ssm:SessionId" = Some sid ∧ ctx !! lit "aws:ssm:TargetId" = Some tid
    ∧ out_plaintext out = Some material ∧ #material = 64
    ∧ out_ciphertext_blob out = Some (cipher_text_blob c)
    ∧ decrypt_key c ++ encrypt_key c = material.
Proof.
  unfold negotiate. cbv zeta. intros (out & Hout & H)%Result_bind_Ok.
  destruct (out_plaintext out) as [m|] eqn:Hm; [|done].
  destruct (out_ciphertext_blob out) as [b|] eqn:Hb; [|done].
  cbn [mbind Result_bind] in H. apply from_key_material_halves in H as [Hl ->].
  eexists _, out, m. split; [exact Hout|]. split_and!; try done.
  apply take_drop.
Qed.

(** A frame shorter than a nonce and a tag is rejected before the cipher is
    consulted, and a decrypted payload is exactly what the cipher authenticated
    for the frame's own nonce. *)
Theorem decrypt_spec `{Aes256Gcm} c f :
  (#f < 28 → ∃ m, decrypt c f = Err (Error_Crypto m)) ∧
  (∀ p, decrypt c f = Ok p ↔
     28 ≤ #f ∧ gcm_decrypt (decrypt_key c) (take 12 f) (drop 12 f) = Some p).
Proof.
  unfold decrypt, NONCE_LEN, TAG_LEN. change (Z.of_nat 12 + 16) with 28.
  destruct (Z.ltb_spec (#f) 28); split; try lia.
  - by eauto.
  - intros p. split; [done|]. intros [??]; lia.
  - intros p. cbv zeta. destruct (gcm_decrypt _ _ _); naive_solver.
Qed.

(** ** Witnesses *)

Definition toy_tag (k : list byte) : list byte := take 16 (k ++ replicate 16 x00).

Definition toy_gcm : Aes256Gcm := {|
  gcm_encrypt k n p := Some (p ++ toy_tag k);
  gcm_decrypt k n c :=
    if decide (drop (length c - 16) c = toy_tag k) then Some (take (length c - 16) c) else None |}.

Lemma length_toy_tag k : length (toy_tag k) = 16%nat.
Proof. unfold toy_tag. rewrite length_take, length_app, length_replicate. lia. Qed.

Lemma toy_gcm_ok : @Aes256GcmOk toy_gcm.
Proof.
  split; intros k n p c [= <-].
  - cbn. rewrite length_app, length_toy_tag.
    replace (length p + 16 - 16)%nat with (length p) by lia.
    by rewrite take_app_length, drop_app_length, decide_True.
  - rewrite len_app. unfold len at 2. by rewrite length_toy_tag.
Qed.

Definition toy_material : list byte := replicate 32 x01 ++ replicate 32 x02.
Definition toy_kms : KmsClient := λ _,
  Ok {| out_plaintext := Some toy_material; out_ciphertext_blob := Some [x62] |}.

Definition toy_client : SessionCrypto :=
  {| cipher_text_blob := []; encrypt_key := replicate 32 x02; decrypt_key := replicate 32 x01 |}.
Definition toy_agent : SessionCrypto :=
  {| cipher_text_blob := []; encrypt_key := replicate 32 x01; decrypt_key := replicate 32 x02 |}.

Lemma peers_decrypt_each_other_witness :
  ∃ f, @encrypt toy_gcm (replicate 12 x07) toy_client [x41; x42] = Ok f ∧
    @decrypt toy_gcm toy_agent f = Ok [x41; x42].
Proof.
  eexists. split; [reflexivity|].
  edestruct (@peers_decrypt_each_other toy_gcm toy_gcm_ok toy_material [] toy_client toy_agent
    (replicate 12 x07) [x41; x42]) as [H _]; [reflexivity..|].
  edestruct H as [Hd _]; [reflexivity|exact Hd].
Defined.

Lemma negotiate_spec_witness :
  ∃ c, negotiate toy_kms (lit "key") (lit "sid") (lit "tid") = Ok c ∧
    decrypt_key c ++ encrypt_key c = toy_material.
Proof.
  eexists. split; [vm_compute; reflexivity|].
  edestruct (negotiate_spec toy_kms (lit "key") (lit "sid") (lit "tid"))
    as (ctx & out & m & Ho & _ & _ & Hm & _ & _ & Hc); [vm_compute; reflexivity|].
  injection Ho as <-. injection Hm as <-. exact Hc.
Defined.
