(* ===== verification/Channels.v ===== *)
(** * Output fan-out (src/channels.rs)

    [OutputFanout] hands every output chunk to each subscriber's own bounded
    queue.  The queue and the [lagged] flag are shared by the fan-out (the sending
    side) and the [OutputStream] (the receiving side): both live in a store
    [streams], and the two sides name them by the same key.  Locked sections are
    single steps. *)

From S2P Require Import Prelude RustStd Errors Interfaces.

Definition DEFAULT_SUBSCRIBER_CAPACITY : Z := 8192.

Section Fanout.
Context {C : Type → Type} `{Mpsc C}.

(** What an [OutputStream] and its [Subscriber] share. *)
Record Stream := { rx : C (list byte); lagged : bool }.

(** [OutputFanout]: the attached subscribers in order, the [closed] latch, and the
    store of shared queues with the next free key. *)
Record Fanout := {
  subscribers : list nat;
  closed : bool;
  streams : gmap nat Stream;
  next_stream : nat }.

Definition Fanout_new : Fanout :=
  {| subscribers := []; closed := false; streams := ∅; next_stream := 0 |}.

(** [OutputStream::ended]: a queue whose sender is already gone. *)
Definition ended : Stream := {| rx := drop_tx (channel 1); lagged := false |}.

Definition subscribe (capacity : Z) (f : Fanout) : nat * Fanout :=
  let id := next_stream f in
  let fresh := {| rx := channel (Z.max capacity 1); lagged := false |} in
  if closed f then
    (id, {| subscribers := subscribers f; closed := closed f;
            streams := <[id := ended]> (streams f); next_stream := S id |})
  else
    (id, {| subscribers := subscribers f ++ [id]; closed := closed f;
            streams := <[id := fresh]> (streams f); next_stream := S id |}).

(** One subscriber's turn in [send]: whether it is retained, and its queue after
    [try_send].  An evicted subscriber's [lagged] flag is set before its sender
    is dropped. *)
Definition offer (data : list byte) (s : Stream) : bool * Stream :=
  match try_send data (rx s) with
  | (Sent, c) => (true, {| rx := c; lagged := lagged s |})
  | (Full, c) => (false, {| rx := drop_tx c; lagged := true |})
  | (Closed, c) => (false, {| rx := drop_tx c; lagged := lagged s |})
  end.

(** [Vec::retain] over the subscribers. *)
Fixpoint retain (data : list byte) (subs : list nat) (st : gmap nat Stream)
  : list nat * gmap nat Stream :=
  match subs with
  | [] => ([], st)
  | i :: subs =>
    match st !! i with
    | None => retain data subs st
    | Some s =>
      let '(keep, s') := offer data s in
      let '(kept, st') := retain data subs (<[i := s']> st) in
      (if keep then i :: kept else kept, st')
    end
  end.

Definition send (data : list byte) (f : Fanout) : Fanout :=
  let '(subs, st) := retain data (subscribers f) (streams f) in
  {| subscribers := subs; closed := closed f; streams := st; next_stream := next_stream f |}.

(** Drop the senders of these subscribers. *)
Definition hang_up (subs : list nat) (st : gmap nat Stream) : gmap nat Stream :=
  foldr (λ i, alter (λ s, {| rx := drop_tx (rx s); lagged := lagged s |}) i) st subs.

Definition close (f : Fanout) : Fanout :=
  if closed f then f
  else {| subscribers := []; closed := true;
          streams := hang_up (subscribers f) (streams f); next_stream := next_stream f |}.

(** [OutputStream::recv]/[poll_next] on stream [i]. *)
Definition recv (i : nat) (f : Fanout) : Recv (list byte) * Fanout :=
  match streams f !! i with
  | None => (Pending_, f)
  | Some s =>
    let '(r, c) := poll_recv (rx s) in
    (r, {| subscribers := subscribers f; closed := closed f;
           streams := <[i := {| rx := c; lagged := lagged s |}]> (streams f);
           next_stream := next_stream f |})
  end.

(** Dropping an [OutputStream]. *)
Definition drop_stream (i : nat) (f : Fanout) : Fanout :=
  {| subscribers := subscribers f; closed := closed f;
     streams := alter (λ s, {| rx := drop_rx (rx s); lagged := lagged s |}) i (streams f);
     next_stream := next_stream f |}.

(** ** Lemmas *)

Lemma retain_spec data subs : ∀ st,
  NoDup subs → Forall (λ i, is_Some (st !! i)) subs →
  let '(kept, st') := retain data subs st in
  kept = filter (λ i, (fst ∘ offer data <$> st !! i) = Some true) subs ∧
  ∀ j, st' !! j = if decide (j ∈ subs) then snd ∘ offer data <$> st !! j else st !! j.
Proof.
  induction subs as [|i subs IH]; intros st Hnd Hin; cbn [retain].
  { split; [done|]. intros j. by rewrite decide_False by set_solver. }
  apply NoDup_cons in Hnd as [Hi Hnd]. apply Forall_cons in Hin as [[s Hs] Hin].
  rewrite Hs. destruct (offer data s) as [keep s'] eqn:Ho.
  specialize (IH (<[i:=s']> st) Hnd).
  destruct (retain data subs (<[i:=s']> st)) as [kept st'].
  destruct IH as [-> Hst].
  { rewrite Forall_forall in Hin |- *. intros j Hj.
    rewrite lookup_insert_ne by set_solver. by apply Hin. }
  split.
  - rewrite filter_cons, Hs. cbn [fmap option_fmap option_map compose]. rewrite Ho. cbn [fst].
    assert (Heq : filter (λ i0, fst ∘ offer data <$> <[i:=s']> st !! i0 = Some true) subs
                  = filter (λ i0, fst ∘ offer data <$> st !! i0 = Some true) subs).
    { apply list_filter_ext_in. intros j Hj. rewrite lookup_insert_ne by set_solver. done. }
    rewrite Heq. by destruct keep.
  - intros j. rewrite Hst. destruct (decide (j = i)) as [->|Hne].
    + rewrite decide_False, decide_True, lookup_insert_eq, Hs by set_solver.
      cbn. by rewrite Ho.
    + rewrite lookup_insert_ne by done.
      destruct (decide (j ∈ subs)); [rewrite decide_True|rewrite decide_False]; set_solver.
Qed.

Lemma hang_up_lookup subs st j :
  NoDup subs →
  hang_up subs st !! j =
    if decide (j ∈ subs)
    then (λ s, {| rx := drop_tx (rx s); lagged := lagged s |}) <$> st !! j else st !! j.
Proof.
  intros Hnd. unfold hang_up. induction subs as [|i subs IH]; cbn [foldr].
  { by rewrite decide_False by set_solver. }
  apply NoDup_cons in Hnd as [Hi Hnd]. specialize (IH Hnd).
  destruct (decide (j = i)) as [->|Hne].
  - rewrite lookup_alter_eq, IH, decide_False, decide_True by set_solver. done.
  - rewrite lookup_alter_ne, IH by done.
    destruct (decide (j ∈ subs)); [rewrite decide_True|rewrite decide_False]; set_solver.
Qed.

(** ** Histories *)

Inductive fan_event :=
| EvSubscribe (capacity : Z)
| EvSend (data : list byte)
| EvRecv (i : nat)
| EvDrop (i : nat)
| EvClose.

(** Per stream: the chunks its consumer has received, and the chunks sent while
    the fan-out was open since it subscribed. *)
Abbreviation History := (gmap nat (list (list byte) * list (list byte))).

Definition fan_step (fh : Fanout * History) (e : fan_event) : Fanout * History :=
  let '(f, h) := fh in
  match e with
  | EvSubscribe cap => let '(i, f') := subscribe cap f in (f', <[i := ([], [])]> h)
  | EvSend d => (send d f, if closed f then h else (λ '(g, o), (g, o ++ [d])) <$> h)
  | EvRecv i =>
    let '(r, f') := recv i f in
    (f', match r with Item x => alter (λ '(g, o), (g ++ [x], o)) i h | _ => h end)
  | EvDrop i => (drop_stream i f, h)
  | EvClose => (close f, h)
  end.

Definition fan_run (es : list fan_event) : Fanout * History :=
  foldl fan_step (Fanout_new, ∅) es.

(** A stream with a live consumer, given what it received and what was sent. *)
Definition stream_ok (attached is_closed : bool) (s : Stream)
    (got offered : list (list byte)) : Prop :=
  rx_alive (rx s) = true →
  if attached then offered = got ++ queued (rx s) ∧ lagged s = false ∧ tx_alive (rx s) = true
  else tx_alive (rx s) = false ∧
       ∃ lost, offered = got ++ queued (rx s) ++ lost
         ∧ (lagged s = false → lost = [] ∧ is_closed = true)
         ∧ (lagged s = true → lost ≠ []).

Definition attached (f : Fanout) (i : nat) : bool := bool_decide (i ∈ subscribers f).

Record fan_inv (f : Fanout) (h : History) : Prop := {
  inv_nodup : NoDup (subscribers f);
  inv_known : ∀ i, i ∈ subscribers f → is_Some (streams f !! i);
  inv_fresh : ∀ i, is_Some (streams f !! i) → (i < next_stream f)%nat;
  inv_dom : ∀ i, is_Some (streams f !! i) ↔ is_Some (h !! i);
  inv_closed : closed f = true → subscribers f = [];
  inv_streams : ∀ i s g o, streams f !! i = Some s → h !! i = Some (g, o) →
    stream_ok (attached f i) (closed f) s g o }.

Context `{!MpscOk C}.

Lemma offer_alive d s :
  rx_alive (rx s) = true →
  let '(keep, s') := offer d s in
  rx_alive (rx s') = true ∧
  if keep then queued (rx s') = queued (rx s) ++ [d] ∧ lagged s' = lagged s
               ∧ tx_alive (rx s') = tx_alive (rx s)
  else queued (rx s') = queued (rx s) ∧ lagged s' = true ∧ tx_alive (rx s') = false.
Proof.
  intros Ha. unfold offer.
  destruct (Z.le_gt_cases (capacity_of (rx s)) (#(queued (rx s)))) as [Hf|Hf].
  - rewrite try_send_full by done. cbn.
    destruct (drop_tx_spec (rx s)) as (? & _ & ? & ?). by split_and!; try congruence.
  - destruct (try_send_ok d (rx s) Ha Hf) as (c & -> & Hq & _ & Hr & Ht). by split_and!.
Qed.

Lemma offer_dead d s : rx_alive (rx s) = false → rx_alive (rx (offer d s).2) = false.
Proof.
  intros Hd. unfold offer. rewrite try_send_closed by done. cbn.
  by destruct (drop_tx_spec (rx s)) as (_ & _ & -> & _).
Qed.

Lemma stream_ok_offer d s g o :
  stream_ok true false s g o →
  stream_ok (offer d s).1 false (offer d s).2 g (o ++ [d]).
Proof.
  intros Hok Ha'. destruct (rx_alive (rx s)) eqn:Ha.
  - pose proof (offer_alive d s Ha) as Ho. destruct (offer d s) as [keep s']. cbn in *.
    destruct (Hok Ha) as (-> & Hl & Ht). destruct Ho as [_ Ho]. destruct keep.
    + destruct Ho as (-> & -> & ->). by rewrite app_assoc.
    + destruct Ho as (-> & -> & ->). split; [done|]. exists [d].
      split_and!; [by rewrite app_assoc|done|done].
  - by rewrite offer_dead in Ha'.
Qed.

Lemma stream_ok_detached_send d s g o :
  stream_ok false false s g o → stream_ok false false s g (o ++ [d]).
Proof.
  intros Hok Ha. destruct (Hok Ha) as (Ht & lost & -> & Hl & Hn). split; [done|].
  exists (lost ++ [d]). split_and!.
  - by rewrite <- !app_assoc.
  - intros Hf. by destruct (Hl Hf).
  - intros _. by destruct lost.
Qed.

Lemma stream_ok_hang_up s g o :
  stream_ok true false s g o →
  stream_ok false true {| rx := drop_tx (rx s); lagged := lagged s |} g o.
Proof.
  intros Hok Ha. cbn in Ha. destruct (drop_tx_spec (rx s)) as (Hq & _ & Hr & Ht).
  rewrite Hr in Ha. destruct (Hok Ha) as (-> & Hl & _). cbn. rewrite Hq. split; [done|].
  exists []. rewrite app_nil_r, Hl. by split_and!.
Qed.

Lemma stream_ok_recv a cl s g o :
  stream_ok a cl s g o →
  let '(r, c) := poll_recv (rx s) in
  stream_ok a cl {| rx := c; lagged := lagged s |}
    match r with Item x => g ++ [x] | _ => g end o.
Proof.
  intros Hok. destruct (queued (rx s)) as [|x q] eqn:Hq.
  - rewrite poll_recv_empty by done. destruct (tx_alive (rx s)); exact Hok.
  - destruct (poll_recv_item (rx s) x q Hq) as (c & -> & Hc & _ & Hr & Ht).
    intros Ha. cbn in Ha |- *. rewrite Hr in Ha. specialize (Hok Ha). rewrite Hq in Hok.
    rewrite Hc, Ht. destruct a.
    + destruct Hok as (-> & ? & ?). by rewrite <- app_assoc.
    + destruct Hok as (? & lost & -> & ? & ?). split; [done|]. exists lost.
      by rewrite <- app_assoc.
Qed.

Lemma fan_inv_new : fan_inv Fanout_new ∅.
Proof.
  split; cbn; try done.
  - constructor.
  - by intros i ?%elem_of_nil.
  - by intros i [? ?].
  - intros i. rewrite !lookup_empty, !is_Some_alt. done.
Qed.

Lemma fan_inv_subscribe cap f h :
  fan_inv f h →
  let '(i, f') := subscribe cap f in fan_inv f' (<[i := ([], [])]> h).
Proof.
  intros Hinv. pose proof Hinv as [Hnd Hk Hf Hd Hc Hs].
  assert (Hnew : next_stream f ∉ subscribers f) by (intros ?%Hk%Hf; lia).
  assert (HF : ∀ st i, is_Some (<[next_stream f := st]> (streams f) !! i) →
    (i < S (next_stream f))%nat).
  { intros st i. rewrite lookup_insert_is_Some. intros [<-|[_ ?%Hf]]; lia. }
  assert (HD : ∀ st i, is_Some (<[next_stream f := st]> (streams f) !! i) ↔
    is_Some (<[next_stream f := ([], [])]> h !! i)).
  { intros st i. rewrite !lookup_insert_is_Some, Hd. done. }
  unfold subscribe. destruct (closed f) eqn:Hcl.
  - split; cbn [subscribers closed streams next_stream]; try done; try apply HD; try apply HF.
    + intros i Hi%Hk. rewrite lookup_insert_is_Some'. auto.
    + intros i st g o. rewrite !lookup_insert. destruct (decide (next_stream f = i)) as [<-|].
      * intros [= <-] [= <- <-] _. unfold attached; cbn. rewrite bool_decide_false by done.
        cbn. destruct (channel_spec (C := C) (A := list byte) 1 ltac:(lia)) as (Hq & _).
        destruct (drop_tx_spec (channel 1 : C (list byte))) as (-> & _ & _ & ->).
        rewrite Hq. split; [done|]. by exists [].
      * intros Hst Hh. rewrite ?Hcl. exact (Hs i st g o Hst Hh).
  - split; cbn.
    + apply NoDup_app. split_and!; [done|set_solver|apply NoDup_singleton].
    + intros i [Hi%Hk| ->%list_elem_of_singleton]%elem_of_app; rewrite lookup_insert_is_Some'; auto.
    + apply HF.
    + apply HD.
    + congruence.
    + intros i st g o. rewrite !lookup_insert. destruct (decide (next_stream f = i)) as [<-|].
      * intros [= <-] [= <- <-] _. unfold attached; cbn. rewrite bool_decide_true by set_solver.
        destruct (channel_spec (C := C) (A := list byte) (Z.max cap 1) ltac:(lia)) as (-> & _ & _ & ->).
        done.
      * intros Hst Hh. replace (attached _ i) with (attached f i);
          [rewrite ?Hcl; exact (Hs i st g o Hst Hh)|].
        unfold attached; cbn. apply bool_decide_ext. set_solver.
Qed.

Lemma fan_inv_send d f h :
  fan_inv f h →
  fan_inv (send d f) (if closed f then h else (λ '(g, o), (g, o ++ [d])) <$> h).
Proof.
  intros Hinv. pose proof Hinv as [Hnd Hk Hf Hd Hc Hs]. unfold send.
  destruct (closed f) eqn:Hcl.
  { rewrite (Hc eq_refl). cbn. destruct f; cbn in *. subst. by rewrite (Hc eq_refl) in Hinv. }
  pose proof (retain_spec d (subscribers f) (streams f) Hnd) as Hr.
  destruct (retain d (subscribers f) (streams f)) as [kept st'].
  destruct Hr as [-> Hst]; [by apply Forall_forall|].
  assert (Hsome : ∀ i, is_Some (st' !! i) ↔ is_Some (streams f !! i)).
  { intros i. rewrite Hst. destruct (decide _); [by rewrite fmap_is_Some|done]. }
  split; cbn [subscribers streams next_stream closed].
  - by apply NoDup_filter.
  - intros i [_ Hi%Hk]%list_elem_of_filter. by apply Hsome.
  - intros i Hi%Hsome. by apply Hf.
  - intros i. by rewrite Hsome, Hd, lookup_fmap, fmap_is_Some.
  - congruence.
  - intros i s' g o' Hi. rewrite lookup_fmap. intros ([g0 o] & Hh & [= -> ->])%fmap_Some.
    rewrite Hst in Hi. unfold attached; cbn [subscribers].
    destruct (decide (i ∈ subscribers f)) as [Hin|Hout].
    + apply fmap_Some in Hi as (s & Hsi & ->). cbn.
      replace (bool_decide _) with (offer d s).1.
      * apply stream_ok_offer. specialize (Hs i s g0 o Hsi Hh).
        unfold attached in Hs. by rewrite bool_decide_true in Hs.
      * symmetry. destruct (offer d s).1 eqn:Ho.
        -- apply bool_decide_eq_true, list_elem_of_filter. split; [|done].
           rewrite Hsi. cbn. by rewrite Ho.
        -- apply bool_decide_eq_false. intros [Hx _]%list_elem_of_filter.
           rewrite Hsi in Hx. cbn in Hx. congruence.
    + rewrite bool_decide_false by (by intros [_ ?]%list_elem_of_filter).
      apply stream_ok_detached_send. specialize (Hs i s' g0 o Hi Hh).
      unfold attached in Hs. by rewrite bool_decide_false in Hs.
Qed.

Lemma fan_inv_close f h : fan_inv f h → fan_inv (close f) h.
Proof.
  intros Hinv. pose proof Hinv as [Hnd Hk Hf Hd Hc Hs]. unfold close.
  destruct (closed f) eqn:Hcl; [done|].
  assert (Hsome : ∀ i, is_Some (hang_up (subscribers f) (streams f) !! i) ↔
    is_Some (streams f !! i)).
  { intros i. rewrite hang_up_lookup by done. destruct (decide _); [by rewrite fmap_is_Some|done]. }
  split; cbn [subscribers streams next_stream closed]; try done.
  - constructor.
  - by intros i ?%elem_of_nil.
  - intros i Hi%Hsome. by apply Hf.
  - intros i. by rewrite Hsome.
  - intros i s' g o Hi Hh. rewrite hang_up_lookup in Hi by done.
    unfold attached; cbn [subscribers]. rewrite bool_decide_false by apply not_elem_of_nil.
    destruct (decide (i ∈ subscribers f)) as [Hin|Hout].
    + apply fmap_Some in Hi as (s & Hsi & ->). apply stream_ok_hang_up.
      specialize (Hs i s g o Hsi Hh). unfold attached in Hs. by rewrite bool_decide_true in Hs.
    + specialize (Hs i s' g o Hi Hh). unfold attached in Hs.
      rewrite bool_decide_false in Hs by done. intros Ha.
      destruct (Hs Ha) as (? & lost & ? & Hl & ?). split; [done|]. exists lost.
      split_and!; try done. intros Hlag. by destruct (Hl Hlag).
Qed.

Lemma fan_inv_recv i f h :
  fan_inv f h →
  let '(r, f') := recv i f in
  fan_inv f' match r with Item x => alter (λ '(g, o), (g ++ [x], o)) i h | _ => h end.
Proof.
  intros Hinv. pose proof Hinv as [Hnd Hk Hf Hd Hc Hs]. unfold recv.
  destruct (streams f !! i) as [s|] eqn:Hi; [|done].
  assert (is_Some (h !! i)) as [[g o] Hh] by (apply Hd; eauto).
  pose proof (stream_ok_recv _ _ _ _ _ (Hs i s g o Hi Hh)) as Hok.
  destruct (poll_recv (rx s)) as [r c].
  set (h' := match r with Item x => alter (λ '(g, o), (g ++ [x], o)) i h | _ => h end).
  assert (Hhi : h' !! i = Some (match r with Item x => g ++ [x] | _ => g end, o)).
  { unfold h'. destruct r; try done. by rewrite lookup_alter_eq, Hh. }
  assert (Hhj : ∀ j, j ≠ i → h' !! j = h !! j).
  { intros j Hj. unfold h'. destruct r; try done. by rewrite lookup_alter_ne. }
  assert (Hin : is_Some (streams f !! i)) by eauto.
  split; cbn [subscribers streams next_stream closed]; try done.
  - intros j Hj%Hk. rewrite lookup_insert_is_Some'. auto.
  - intros j. rewrite lookup_insert_is_Some. intros [<-|[_ Hj]]; by apply Hf.
  - intros j. rewrite lookup_insert_is_Some'. destruct (decide (j = i)) as [->|Hj].
    + rewrite Hhi. split; [by eauto|by left].
    + rewrite Hhj, <- Hd by done. split; [by intros [->|?]|by right].
  - intros j s' g' o'. rewrite lookup_insert. destruct (decide (i = j)) as [<-|Hj].
    + rewrite Hhi. intros [= <-] [= <- <-]. exact Hok.
    + rewrite Hhj by done. apply Hs.
Qed.

Lemma fan_inv_drop i f h : fan_inv f h → fan_inv (drop_stream i f) h.
Proof.
  intros Hinv. pose proof Hinv as [Hnd Hk Hf Hd Hc Hs].
  split; cbn [subscribers streams next_stream closed drop_stream]; try done.
  - intros j Hj%Hk. by rewrite lookup_alter_is_Some.
  - intros j. rewrite lookup_alter_is_Some. apply Hf.
  - intros j. rewrite lookup_alter_is_Some. apply Hd.
  - intros j s' g o. rewrite lookup_alter. destruct (decide (i = j)) as [<-|Hj].
    + intros (s & _ & ->)%fmap_Some _ Ha. cbn in Ha. by rewrite (proj1 (drop_rx_spec _)) in Ha.
    + apply Hs.
Qed.

(** An [OutputStream] that has not been dropped: only its owner can end that. *)
Definition live (i : nat) (f : Fanout) : Prop := ∃ s, streams f !! i = Some s ∧ rx_alive (rx s) = true.

Lemma live_send d i f : live i f → live i (send d f).
Proof.
  unfold live, send.
  enough (Hr : ∀ subs st, (∃ s, st !! i = Some s ∧ rx_alive (rx s) = true) →
    ∃ s, (retain d subs st).2 !! i = Some s ∧ rx_alive (rx s) = true).
  { intros Hi. specialize (Hr (subscribers f) (streams f) Hi). by destruct (retain _ _ _). }
  induction subs as [|j subs IH]; intros st (s & Hs & Ha); [by exists s|]. cbn.
  destruct (st !! j) as [s'|] eqn:Ej; [|by apply IH; exists s].
  destruct (offer d s') as [keep s''] eqn:Eo.
  enough (Hj : ∃ s, <[j := s'']> st !! i = Some s ∧ rx_alive (rx s) = true).
  { specialize (IH _ Hj). by destruct (retain _ _ _). }
  rewrite lookup_insert. destruct (decide (j = i)) as [->|]; [|by exists s].
  exists s''. split; [done|]. replace s' with s in Eo by congruence.
  pose proof (offer_alive d s Ha) as Ho. rewrite Eo in Ho. apply Ho.
Qed.

Lemma live_close i f : live i f → live i (close f).
Proof.
  intros (s & Hs & Ha). unfold close. destruct (closed f); [by exists s|].
  unfold live, hang_up. cbn [streams]. induction (subscribers f) as [|j subs IH]; cbn; [by exists s|].
  destruct IH as (s' & Hs' & Ha'). destruct (decide (j = i)) as [->|].
  - rewrite lookup_alter_eq, Hs'. eexists. split; [done|]. cbn.
    by destruct (drop_tx_spec (rx s')) as (_ & _ & -> & _).
  - rewrite lookup_alter_ne by done. by exists s'.
Qed.

Lemma live_subscribe cap i f h : fan_inv f h → live i f → live i (subscribe cap f).2.
Proof.
  intros Hinv (s & Hs & Ha). pose proof (inv_fresh _ _ Hinv i (ex_intro _ s Hs)).
  exists s. split; [|done]. unfold subscribe.
  destruct (closed f); cbn; rewrite lookup_insert_ne by lia; done.
Qed.

Lemma live_recv i j f : live i f → live i (recv j f).2.
Proof.
  intros (s & Hs & Ha). unfold recv. destruct (streams f !! j) as [s'|] eqn:Ej; [|by exists s].
  destruct (poll_recv (rx s')) as [r c] eqn:Er. unfold live. cbn. rewrite lookup_insert.
  destruct (decide (j = i)) as [->|]; [|by exists s]. eexists. split; [done|]. cbn.
  apply poll_recv_inv in Er. replace s' with s in Er by congruence.
  destruct r; destruct_and?; subst; congruence.
Qed.

Lemma live_drop i j f : j ≠ i → live i f → live i (drop_stream j f).
Proof. intros Hne (s & Hs & Ha). exists s. split; [|done]. cbn. by rewrite lookup_alter_ne. Qed.

Lemma fan_inv_run es : let '(f, h) := fan_run es in fan_inv f h.
Proof.
  unfold fan_run.
  assert (Hgen : ∀ fh, fan_inv fh.1 fh.2 →
    let '(f, h) := foldl fan_step fh es in fan_inv f h).
  { induction es as [|e es IH]; intros [f h] Hinv; [exact Hinv|]. cbn [foldl].
    apply IH. cbn in Hinv. destruct e as [cap|d|i|i|]; cbn [fan_step].
    - pose proof (fan_inv_subscribe cap f h Hinv). by destruct (subscribe cap f).
    - by apply fan_inv_send.
    - pose proof (fan_inv_recv i f h Hinv). by destruct (recv i f) as [r f'].
    - by apply fan_inv_drop.
    - by apply fan_inv_close. }
  apply Hgen, fan_inv_new.
Qed.

(** ** Properties *)

(** Over any history of subscriptions, sends, receives, drops and a close,
    what a live consumer has received plus what is queued for it is a prefix of
    everything sent since it subscribed; chunks are missing exactly when its
    [lagged] flag is set; and when its stream ends with the flag clear it has
    received everything. *)
Theorem fanout_lossless es i s got offered :
  let '(f, h) := fan_run es in
  streams f !! i = Some s → h !! i = Some (got, offered) → rx_alive (rx s) = true →
  (∃ lost, offered = got ++ queued (rx s) ++ lost ∧ (lagged s = true ↔ lost ≠ []))
  ∧ ((recv i f).1 = Ended → lagged s = false → offered = got).
Proof.
  pose proof (fan_inv_run es) as Hinv. destruct (fan_run es) as [f h].
  intros Hs Hh Ha. pose proof (inv_streams f h Hinv i s got offered Hs Hh Ha) as Hok.
  assert (Hend : (recv i f).1 = Ended → queued (rx s) = [] ∧ tx_alive (rx s) = false).
  { unfold recv. rewrite Hs. destruct (queued (rx s)) as [|x q] eqn:Hq.
    - rewrite poll_recv_empty by done. by destruct (tx_alive (rx s)).
    - by destruct (poll_recv_item (rx s) x q Hq) as (c & -> & _). }
  destruct (attached f i).
  - destruct Hok as (-> & Hl & Ht). split.
    + exists []. rewrite app_nil_r, Hl. by split_and!.
    + intros [_ ?]%Hend. congruence.
  - destruct Hok as (_ & lost & -> & Hl & Hn). split.
    + exists lost. split; [done|]. split; [done|]. intros Hne.
      destruct (lagged s); [done|]. by destruct (Hl eq_refl).
    + intros [-> _]%Hend Hlag. destruct (Hl Hlag) as [-> _]. by rewrite !app_nil_r.
Qed.

(** A send reaches every attached subscriber with room, whatever happens to
    the others: its queue grows by the chunk, it stays attached and its flag is
    untouched; a full one is evicted with the flag set and its queue intact. *)
Theorem send_isolated es d i s :
  let '(f, _) := fan_run es in
  i ∈ subscribers f → streams f !! i = Some s → rx_alive (rx s) = true →
  ∃ s', streams (send d f) !! i = Some s' ∧
    if #(queued (rx s)) <? capacity_of (rx s)
    then i ∈ subscribers (send d f) ∧ queued (rx s') = queued (rx s) ++ [d] ∧ lagged s' = lagged s
    else (i ∉ subscribers (send d f)) ∧ queued (rx s') = queued (rx s) ∧ lagged s' = true.
Proof.
  pose proof (fan_inv_run es) as Hinv. destruct (fan_run es) as [f h].
  intros Hi Hs Ha. unfold send.
  pose proof (retain_spec d (subscribers f) (streams f) (inv_nodup f h Hinv)) as Hr.
  destruct (retain d (subscribers f) (streams f)) as [kept st'].
  destruct Hr as [-> Hst]; [by apply Forall_forall, (inv_known f h)|].
  cbn [streams subscribers]. rewrite Hst, decide_True, Hs by done.
  exists (offer d s).2. split; [done|]. pose proof (offer_alive d s Ha) as Ho.
  destruct (Z.ltb_spec (#(queued (rx s))) (capacity_of (rx s))).
  - destruct (try_send_ok d (rx s) Ha) as (c & Hc & _); [done|].
    unfold offer in *. rewrite Hc in *. cbn in *. destruct Ho as (_ & ? & ? & _).
    split_and!; try done. apply list_elem_of_filter. rewrite Hs. cbn. by rewrite Hc.
  - unfold offer in *. rewrite try_send_full in * by done. cbn in *.
    destruct Ho as (_ & ? & ? & _). split_and!; try done.
    intros [Hx _]%list_elem_of_filter. rewrite Hs in Hx. cbn in Hx.
    by rewrite try_send_full in Hx.
Qed.

(** Once the fan-out is closed no reader waits: every live consumer's next
    receive yields a queued chunk or the end of the stream, also for a consumer
    that subscribes after the close. *)
Theorem closed_never_pends es i s :
  let '(f, _) := fan_run es in
  closed f = true → streams f !! i = Some s → rx_alive (rx s) = true →
  (recv i f).1 ≠ Pending_ ∧ (queued (rx s) = [] → (recv i f).1 = Ended).
Proof.
  pose proof (fan_inv_run es) as Hinv. destruct (fan_run es) as [f h].
  intros Hc Hs Ha. assert (is_Some (h !! i)) as [[g o] Hh] by (apply (inv_dom f h Hinv); eauto).
  pose proof (inv_streams f h Hinv i s g o Hs Hh Ha) as Hok.
  unfold attached in Hok. rewrite (inv_closed f h Hinv Hc) in Hok.
  rewrite bool_decide_false in Hok by apply not_elem_of_nil. destruct Hok as [Ht _].
  unfold recv. rewrite Hs. destruct (queued (rx s)) as [|x q] eqn:Hq.
  - rewrite poll_recv_empty, Ht by done. done.
  - by destruct (poll_recv_item (rx s) x q Hq) as (c & -> & _).
Qed.
End Fanout.

(** ** Witnesses *)

(** One reader that keeps up (stream 0) and one that does not (stream 1), then a
    close. *)
Definition sample_run : list fan_event :=
  [EvSubscribe 4; EvSubscribe 1; EvSend [x61]; EvRecv 0; EvSend [x62]].

Lemma fanout_lossless_witness :
  let '(f, h) := fan_run (C := Chan) sample_run in
  ∃ s lost, streams f !! 1%nat = Some s ∧ lagged s = true ∧
    [[x61]; [x62]] = [] ++ queued (rx s) ++ lost.
Proof.
  pose proof (fanout_lossless (C := Chan) sample_run 1
    {| rx := MkChan [[x61]] 1 true false; lagged := true |} [] [[x61]; [x62]]) as H.
  destruct H as [(lost & Hl & _) _]; [vm_compute; reflexivity..|].
  eexists _, lost. split; [vm_compute; reflexivity|]. split; [reflexivity|exact Hl].
Defined.

Lemma send_isolated_witness :
  let '(f, _) := fan_run (C := Chan) sample_run in
  ∃ s', streams (send [x63] f) !! 0%nat = Some s' ∧ queued (rx s') = [[x62]; [x63]].
Proof.
  pose proof (send_isolated (C := Chan) sample_run [x63] 0
    {| rx := MkChan [[x62]] 4 true true; lagged := false |}) as H.
  destruct H as (s' & Hs & Hq); [apply list_elem_of_here|vm_compute; reflexivity..|].
  exists s'. split; [exact Hs|]. apply Hq.
Defined.

Lemma closed_never_pends_witness :
  let '(f, _) := fan_run (C := Chan) (sample_run ++ [EvClose; EvRecv 0]) in
  (recv 0 f).1 = Ended.
Proof.
  pose proof (closed_never_pends (C := Chan) (sample_run ++ [EvClose; EvRecv 0]) 0
    {| rx := MkChan [] 4 true false; lagged := false |}) as H.
  destruct H as [_ H]; [vm_compute; reflexivity..|]. apply H. reflexivity.
Defined.
