(* ===== verification/Mux.v ===== *)
(** * smux v1 multiplexing (src/mux.rs)

    Framing ([encode]/[decode_frame]), the demultiplexer ([dispatch] and the
    [route_*] functions), the session ([open_stream], [close]) and the per-stream
    reader and writer ([poll_read], [poll_write], [poll_shutdown], drop).

    A stream's inbound queue and close tag are shared by the session's table and
    the [SmuxStream]; they live in the store [cells] and both sides hold the
    cell's key.  Removing a table entry drops the only sender of its queue.  The
    [die] notification wakes the tasks once [is_closed] is set; a task woken by it
    leaves its loop. *)

From S2P Require Import Prelude RustStd Errors Interfaces.

Definition VERSION : byte := x01.
Definition CMD_SYN : byte := x00.
Definition CMD_FIN : byte := x01.
Definition CMD_PSH : byte := x02.
Definition CMD_NOP : byte := x03.
Definition SMUX_HEADER_SIZE : Z := 8.
Definition MAX_FRAME_PAYLOAD : Z := 32 * 1024.
Definition FRAME_QUEUE_DEPTH : Z := 256.
Definition STREAM_QUEUE_DEPTH : Z := 256.

(** ** Framing *)

Definition smux_encode (cmd : byte) (stream_id : Z) (payload : list byte) : list byte :=
  [VERSION; cmd] ++ le_bytes 2 (#payload) ++ le_bytes 4 stream_id ++ payload.

Definition control (cmd : byte) (stream_id : Z) : list byte := smux_encode cmd stream_id [].

Record Frame := { cmd : byte; stream_id : Z; frame_payload : list byte }.

Inductive Decoded :=
| DFrame (f : Frame)
| Incomplete
| Corrupt (problem : text).

(** Decode from the front of the buffer; the second component is what remains. *)
Definition decode_frame (buf : list byte) : Decoded * list byte :=
  if #buf <? SMUX_HEADER_SIZE then (Incomplete, buf)
  else if negb (bool_decide (nth 0 buf x00 = VERSION)) then
    (Corrupt [PLit "unexpected smux version byte"], buf)
  else
    let length := le_value (take 2 (drop 2 buf)) in
    if MAX_FRAME_PAYLOAD <? length then
      (Corrupt [PLit "smux frame length exceeds the protocol maximum"], buf)
    else if #buf <? SMUX_HEADER_SIZE + length then (Incomplete, buf)
    else
      let body := drop 8 buf in
      (DFrame {| cmd := nth 1 buf x00; stream_id := le_value (take 4 (drop 4 buf));
                 frame_payload := take (Z.to_nat length) body |},
       drop (Z.to_nat length) body).

(** ** Session state *)

Inductive StreamCloseReason := Clean | SlowConsumer | Desynchronised.

Definition reason_u8 (r : StreamCloseReason) : Z :=
  match r with Clean => 0 | SlowConsumer => 1 | Desynchronised => 2 end.
Definition REASON_OPEN : Z := 255.

Section Mux.
Context {C : Type → Type} `{Mpsc C}.

(** What a [StreamEntry] and its [SmuxStream] share. *)
Record Cell := { inbound : C (list byte); close_tag : Z (* AtomicU8 *) }.

Record Inner := {
  streams : gmap Z nat;            (* stream id -> cell *)
  cells : gmap nat Cell;
  next_cell : nat;
  frames : C (list byte);
  next_id : Z;                     (* AtomicU32 *)
  is_closed : bool }.

Definition set_frames (i : Inner) (c : C (list byte)) : Inner :=
  {| streams := streams i; cells := cells i; next_cell := next_cell i;
     frames := c; next_id := next_id i; is_closed := is_closed i |}.
Definition set_cells (i : Inner) (c : gmap nat Cell) : Inner :=
  {| streams := streams i; cells := c; next_cell := next_cell i;
     frames := frames i; next_id := next_id i; is_closed := is_closed i |}.

(** [frames.try_send] where the caller ignores the verdict. *)
Definition post (frame : list byte) (i : Inner) : Inner :=
  set_frames i (try_send frame (frames i)).2.

(** [compare_exchange(REASON_OPEN, reason)]. *)
Definition tag (r : StreamCloseReason) (c : Cell) : Cell :=
  {| inbound := inbound c;
     close_tag := if close_tag c =? REASON_OPEN then reason_u8 r else close_tag c |}.
Definition hang (c : Cell) : Cell :=
  {| inbound := drop_tx (inbound c); close_tag := close_tag c |}.

(** [self.lock().remove(&stream_id)]: the entry and with it the sender. *)
Definition remove_entry (id : Z) (i : Inner) : Inner :=
  match streams i !! id with
  | None => i
  | Some h => {| streams := delete id (streams i); cells := alter hang h (cells i);
                 next_cell := next_cell i; frames := frames i; next_id := next_id i;
                 is_closed := is_closed i |}
  end.

(** [SmuxSession::new]. *)
Definition Inner_new : Inner :=
  {| streams := ∅; cells := ∅; next_cell := 0; frames := channel FRAME_QUEUE_DEPTH;
     next_id := 1; is_closed := false |}.

(** [close] and [poll_read] with nothing between their parts; the parts are in
    [SmuxStreams]. *)
Definition close (reason : StreamCloseReason) (i : Inner) : Inner :=
  if is_closed i then i
  else {| streams := ∅;
          cells := foldr (λ h, alter (λ c, hang (tag reason c)) h) (cells i)
                     (map_to_list (streams i)).*2;
          next_cell := next_cell i; frames := frames i; next_id := next_id i;
          is_closed := true |}.

Definition route_push (id : Z) (payload : list byte) (i : Inner) : Inner :=
  match streams i !! id with
  | None => post (control CMD_FIN id) i
  | Some h =>
    match cells i !! h with
    | None => i
    | Some c =>
      match try_send payload (inbound c) with
      | (Sent, q) =>
        set_cells i (<[h := {| inbound := q; close_tag := close_tag c |}]> (cells i))
      | (Full, q) =>
        post (control CMD_FIN id)
          (remove_entry id (set_cells i (<[h := {| inbound := q;
             close_tag := reason_u8 SlowConsumer |}]> (cells i))))
      | (Closed, q) =>
        remove_entry id
          (set_cells i (<[h := {| inbound := q; close_tag := close_tag c |}]> (cells i)))
      end
    end
  end.

Definition route_fin (id : Z) (i : Inner) : Inner :=
  match streams i !! id with
  | None => i
  | Some h => remove_entry id (set_cells i (alter (tag Clean) h (cells i)))
  end.

(** One decoded frame's effect in [dispatch]. *)
Definition route_frame (f : Frame) (i : Inner) : Inner :=
  if decide (cmd f = CMD_PSH) then route_push (stream_id f) (frame_payload f) i
  else if decide (cmd f = CMD_FIN) then route_fin (stream_id f) i
  else i.

(** [dispatch]: drain complete frames.  Every frame consumes at least the eight
    header bytes, so a fuel of the buffer's length plus one is enough
    ([dispatch_enough]); [None] is running out of it. *)
Fixpoint dispatch_fuel (n : nat) (buf : list byte) (i : Inner)
  : option (Result text (list byte) * Inner) :=
  match n with
  | O => None
  | S n =>
    match decode_frame buf with
    | (Incomplete, buf') => Some (Ok buf', i)
    | (Corrupt problem, _) => Some (Err problem, i)
    | (DFrame f, buf') => dispatch_fuel n buf' (route_frame f i)
    end
  end.

Definition dispatch (buf : list byte) (i : Inner) : option (Result text (list byte) * Inner) :=
  dispatch_fuel (S (length buf)) buf i.

(** What the receive task's [select!] yields. *)
Inductive recv_event :=
| Chunk (bytes : list byte)        (* output.next() = Some *)
| EndOfOutput (lagged : bool)      (* output.next() = None *)
| Die.                             (* the session was closed elsewhere *)

(** [recv_task]: the loop over a finite run of events, then [inner.close]. *)
Fixpoint recv_task (buf : list byte) (es : list recv_event) (i : Inner) : option Inner :=
  match es with
  | [] => Some i                   (* still waiting *)
  | Die :: _ => Some (close Clean i)
  | EndOfOutput lagged :: _ => Some (close (if lagged then Desynchronised else Clean) i)
  | Chunk c :: es =>
    match dispatch (buf ++ c) i with
    | None => None
    | Some (Err _, i') => Some (close Desynchronised i')
    | Some (Ok buf', i') => recv_task buf' es i'
    end
  end.

(** ** Opening and using a stream *)

Record SmuxStream := {
  sid : Z;
  cell : nat;
  partial : option (list byte);
  read_closed : bool;
  write_closed : bool }.

Definition open_stream (i : Inner) : Res SmuxStream * Inner :=
  if is_closed i then
    (Err (Error_SessionClosed [PLit "the smux session is closed"]), i)
  else
    let id := next_id i in
    let h := next_cell i in
    let fresh := {| inbound := channel STREAM_QUEUE_DEPTH; close_tag := REASON_OPEN |} in
    (* HashMap::insert drops an entry already under this id *)
    let i0 := remove_entry id i in
    let i1 := {| streams := <[id := h]> (streams i0); cells := <[h := fresh]> (cells i0);
                 next_cell := S h; frames := frames i0;
                 next_id := wrap_u 32 (next_id i0 + 2); is_closed := is_closed i0 |} in
    match try_send (control CMD_SYN id) (frames i1) with
    | (Sent, q) =>
      (Ok {| sid := id; cell := h; partial := None; read_closed := false;
             write_closed := false |}, set_frames i1 q)
    | (Closed, q) =>
      (Err (Error_SessionClosed [PLit "the smux session is closed"]),
       remove_entry id (set_frames i1 q))
    | (Full, q) =>
      (Err (transport [PLit "the smux frame queue is saturated; retry once the session drains"]),
       remove_entry id (set_frames i1 q))
    end.

Definition close_reason (s : SmuxStream) (i : Inner) : option StreamCloseReason :=
  if negb (read_closed s) then None
  else Some match cells i !! cell s with
            | Some c =>
              if close_tag c =? reason_u8 SlowConsumer then SlowConsumer
              else if close_tag c =? reason_u8 Desynchronised then Desynchronised
              else Clean
            | None => Clean
            end.

Inductive PollRead := ReadReady (bytes : list byte) | ReadPending.

(** [poll_read] into a buffer with room for [n] bytes: the bytes put into it.  The queue
    and then the flag are looked at, at once. *)
Definition poll_read (n : nat) (s : SmuxStream) (i : Inner) : PollRead * SmuxStream * Inner :=
  let with_partial p :=
    {| sid := sid s; cell := cell s; partial := p; read_closed := read_closed s;
       write_closed := write_closed s |} in
  let eof := {| sid := sid s; cell := cell s; partial := partial s; read_closed := true;
                write_closed := write_closed s |} in
  let keep rest := match rest with [] => None | _ => Some rest end in
  if read_closed s then (ReadReady [], s, i)
  else match partial s with
  | Some chunk => (ReadReady (take n chunk), with_partial (keep (drop n chunk)), i)
  | None =>
    match cells i !! cell s with
    | None => (ReadPending, s, i)
    | Some c =>
      let '(r, q) := poll_recv (inbound c) in
      let i' := set_cells i (<[cell s := {| inbound := q; close_tag := close_tag c |}]> (cells i)) in
      match r with
      | Item chunk => (ReadReady (take n chunk), with_partial (keep (drop n chunk)), i')
      | Ended => (ReadReady [], eof, i')
      | Pending_ =>
        if is_closed i' then (ReadReady [], eof, i') else (ReadPending, s, i')
      end
    end
  end.

Inductive PollWrite := Wrote (n : Z) | WritePending | BrokenPipeError (m : text).

(** [poll_reserve] then [send_item]: a full queue parks the writer, a stopped
    send task breaks the pipe. *)
Definition poll_write (buf : list byte) (s : SmuxStream) (i : Inner) : PollWrite * Inner :=
  if write_closed s then (BrokenPipeError [PLit "smux stream is write-closed"], i)
  else if is_closed i then (BrokenPipeError [PLit "smux session is closed"], i)
  else
    let n := Z.to_nat (Z.min (#buf) MAX_FRAME_PAYLOAD) in
    match try_send (smux_encode CMD_PSH (sid s) (take n buf)) (frames i) with
    | (Full, _) => (WritePending, i)
    | (Closed, _) => (BrokenPipeError [PLit "smux session is closed"], i)
    | (Sent, q) => (Wrote (Z.of_nat n), set_frames i q)
    end.

Definition set_write_closed (s : SmuxStream) : SmuxStream :=
  {| sid := sid s; cell := cell s; partial := partial s; read_closed := read_closed s;
     write_closed := true |}.

(** [poll_shutdown]: whether it completed, and the stream and session after it. *)
Definition poll_shutdown (s : SmuxStream) (i : Inner) : bool * SmuxStream * Inner :=
  if write_closed s then (true, s, i)
  else match try_send (control CMD_FIN (sid s)) (frames i) with
       | (Full, _) => (false, s, i)
       | (Closed, _) => (true, set_write_closed s, i)
       | (Sent, q) => (true, set_write_closed s, set_frames i q)
       end.

Definition drop_receiver (c : Cell) : Cell :=
  {| inbound := drop_rx (inbound c); close_tag := close_tag c |}.

(** [Drop for SmuxStream]. *)
Definition drop_stream (s : SmuxStream) (i : Inner) : Inner :=
  let i1 := if write_closed s then i else post (control CMD_FIN (sid s)) i in
  let i2 := remove_entry (sid s) i1 in
  set_cells i2 (alter drop_receiver (cell s) (cells i2)).

(** [Drop for SmuxSession]. *)
Definition drop_session (i : Inner) : Inner := close Clean i.

(** What the send task's [select!] yields. *)
Inductive send_event :=
| SendDie                          (* the session was closed elsewhere *)
| SendSessionClosed                (* session.closed() *)
| SendFrame (accepted : bool).     (* frames.recv(), then the verdict of session.send *)

(** [send_task]: the loop over a finite run of events; the second component is
    what reached the session.  Leaving the loop closes the multiplexer and drops
    the frame receiver. *)
Fixpoint send_task (es : list send_event) (sent : list (list byte)) (i : Inner)
  : Inner * list (list byte) :=
  let stop i := (let i' := close Clean i in set_frames i' (drop_rx (frames i')), sent) in
  if is_closed i then stop i
  else match es with
  | [] => (i, sent)
  | SendDie :: _ | SendSessionClosed :: _ => stop i
  | SendFrame accepted :: es =>
    let '(r, q) := poll_recv (frames i) in
    let i' := set_frames i q in
    match r with
    | Item f => if accepted then send_task es (sent ++ [f]) i' else stop i'
    | Ended => stop i'
    | Pending_ => send_task es sent i'
    end
  end.

(** One tick of [keepalive_task]: whether the task goes on. *)
Definition keepalive_tick (i : Inner) : bool * Inner :=
  match try_send (control CMD_NOP 0) (frames i) with
  | (Sent, q) => (true, set_frames i q)
  | (_, q) => (negb (is_closed i), set_frames i q)
  end.

(** ** Framing lemmas *)

Definition enc (f : Frame) : list byte := smux_encode (cmd f) (stream_id f) (frame_payload f).

Definition wf_frame (f : Frame) : Prop :=
  in_u 32 (stream_id f) = true ∧ #(frame_payload f) ≤ MAX_FRAME_PAYLOAD.

Lemma len_enc f : #(enc f) = 8 + #(frame_payload f).
Proof.
  unfold enc, smux_encode. rewrite !len_app, !len_le_bytes, !len_cons, len_nil. lia.
Qed.

Lemma decode_enc f rest : wf_frame f → decode_frame (enc f ++ rest) = (DFrame f, rest).
Proof.
  intros [Hid Hp]. unfold in_u in Hid.
  assert (Hl : le_value (le_bytes 2 (#(frame_payload f))) = #(frame_payload f)).
  { rewrite le_value_bytes. apply Z.mod_small.
    unfold MAX_FRAME_PAYLOAD in Hp. split; auto with ssm. cbn; lia. }
  assert (Hs : le_value (le_bytes 4 (stream_id f)) = stream_id f).
  { rewrite le_value_bytes. apply Z.mod_small. change (256 ^ Z.of_nat 4) with (2 ^ 32).
    bool_lia. }
  unfold decode_frame. rewrite len_app, len_enc.
  pose proof (len_nonneg rest); pose proof (len_nonneg (frame_payload f)).
  assert (Hr : enc f ++ rest
    = [VERSION; cmd f] ++ le_bytes 2 (#(frame_payload f)) ++ le_bytes 4 (stream_id f)
      ++ frame_payload f ++ rest).
  { unfold enc, smux_encode. by rewrite <- !app_assoc. }
  rewrite Hr. set (l2 := le_bytes 2 _) in *. set (l4 := le_bytes 4 _) in *.
  assert (length l2 = 2%nat) by apply length_le_bytes.
  assert (length l4 = 4%nat) by apply length_le_bytes. clearbody l2 l4. clear Hr.
  rewrite (drop_app_exact 2 [VERSION; cmd f]) by done.
  rewrite (take_app_exact 2 l2), Hl by done.
  rewrite (app_assoc _ l2), (drop_app_exact 4 (_ ++ l2)) by (rewrite length_app; cbn; lia).
  rewrite (take_app_exact 4 l4), Hs by done.
  rewrite (app_assoc _ l4), (drop_app_exact 8) by (rewrite !length_app; cbn; lia).
  cbn [nth app]. rewrite bool_decide_true by done. cbn [negb].
  unfold SMUX_HEADER_SIZE in *.
  destruct (_ <? 8) eqn:E1; [bool_lia|]. destruct (_ <? #(frame_payload f)) eqn:E2; [bool_lia|].
  destruct (_ <? 8 + _) eqn:E3; [bool_lia|].
  unfold len. rewrite Nat2Z.id, take_app_length, drop_app_length. by destruct f.
Qed.

(** A decoded frame accounts for every byte it consumed. *)
Lemma decode_sound buf f rest :
  decode_frame buf = (DFrame f, rest) → buf = enc f ++ rest ∧ wf_frame f.
Proof.
  unfold decode_frame, SMUX_HEADER_SIZE.
  destruct (_ <? 8) eqn:E1; [done|].
  destruct buf as [|b0 [|b1 [|b2 [|b3 [|b4 [|b5 [|b6 [|b7 body]]]]]]]]; try by exfalso; cbn in E1.
  cbn [nth drop]. rewrite ?drop_0. cbn [take]. rewrite ?take_0. destruct (bool_decide (b0 = VERSION)) eqn:Hv; cbn [negb]; [|done].
  apply bool_decide_eq_true in Hv as ->.
  pose proof (le_value_range [b2; b3]) as Hn.
  pose proof (le_value_range [b4; b5; b6; b7]) as Hid.
  pose proof (le_bytes_value [b2; b3]) as Hbn.
  pose proof (le_bytes_value [b4; b5; b6; b7]) as Hbid. cbn [length] in Hbn, Hbid.
  generalize dependent (le_value [b2; b3]). generalize dependent (le_value [b4; b5; b6; b7]).
  intros id Hid Hbid n Hn Hbn.
  destruct (_ <? n) eqn:E2; [done|]. destruct (_ <? 8 + n) eqn:E3; [done|].
  intros [= <- <-].
  change (256 ^ len [b4; b5; b6; b7]) with (2 ^ 32) in Hid.
  rewrite !len_cons in E3.
  assert (Hl : #(take (Z.to_nat n) body) = n) by (rewrite len_take; bool_lia).
  split.
  - unfold enc, smux_encode. cbn [cmd stream_id frame_payload]. rewrite Hl, Hbn, Hbid.
    cbn [app]. by rewrite take_drop.
  - split; cbn [stream_id frame_payload]; [unfold in_u|rewrite Hl]; bool_lia.
Qed.

(** A frame cut short is waited for. *)
Lemma decode_incomplete_keeps buf buf' : decode_frame buf = (Incomplete, buf') → buf' = buf.
Proof. unfold decode_frame. split_ifs; congruence. Qed.

Lemma decode_corrupt_app buf b more p :
  decode_frame buf = (Corrupt p, b) → decode_frame (buf ++ more) = (Corrupt p, buf ++ more).
Proof.
  unfold decode_frame, SMUX_HEADER_SIZE.
  destruct (_ <? 8) eqn:E1; [done|].
  destruct buf as [|b0 [|b1 [|b2 [|b3 [|b4 [|b5 [|b6 [|b7 body]]]]]]]]; try by exfalso; cbn in E1.
  rewrite len_app. pose proof (len_nonneg more).
  destruct (_ + _ <? 8) eqn:E1'; [bool_lia|].
  cbn [app nth drop]. rewrite ?drop_0. cbn [take]. rewrite ?take_0.
  split_ifs; congruence.
Qed.

(** *** Draining a buffer *)

Definition route_all (fs : list Frame) (i : Inner) : Inner := foldl (λ i f, route_frame f i) i fs.

Definition incomplete (buf : list byte) : Prop := decode_frame buf = (Incomplete, buf).

Lemma length_enc_pos f rest : (length rest < length (enc f ++ rest))%nat.
Proof.
  rewrite length_app. pose proof (len_enc f) as Hf. pose proof (len_nonneg (frame_payload f)).
  unfold len in *. lia.
Qed.

Lemma dispatch_fuel_frames fs rest n i :
  Forall wf_frame fs → incomplete rest → (length (concat (enc <$> fs) ++ rest) < n)%nat →
  dispatch_fuel n (concat (enc <$> fs) ++ rest) i = Some (Ok rest, route_all fs i).
Proof.
  intros Hfs Hr. revert n i. induction Hfs as [|f fs Hf _ IH]; intros [|n] i Hn; try lia.
  - cbn in *. by rewrite Hr.
  - cbn [fmap list_fmap concat dispatch_fuel] in *. rewrite <- app_assoc in Hn |- *.
    rewrite decode_enc by done. cbn [route_all foldl]. apply IH.
    pose proof (length_enc_pos f (concat (enc <$> fs) ++ rest)). lia.
Qed.

Lemma dispatch_frames fs rest i :
  Forall wf_frame fs → incomplete rest →
  dispatch (concat (enc <$> fs) ++ rest) i = Some (Ok rest, route_all fs i).
Proof. intros. apply dispatch_fuel_frames; auto; lia. Qed.

(** How a buffer splits: whole frames, then a cut-short frame or garbage. *)
Lemma buffer_split n buf : (length buf < n)%nat →
  ∃ fs rest, buf = concat (enc <$> fs) ++ rest ∧ Forall wf_frame fs
    ∧ ∀ i, (incomplete rest ∧ dispatch_fuel n buf i = Some (Ok rest, route_all fs i))
      ∨ ∃ p, decode_frame rest = (Corrupt p, rest)
             ∧ dispatch_fuel n buf i = Some (Err p, route_all fs i).
Proof.
  revert buf; induction n as [|n IH]; intros buf Hn; [lia|].
  destruct (decode_frame buf) as [[f| |p] rest] eqn:E.
  - apply decode_sound in E as E'. destruct E' as [-> Hf].
    pose proof (length_enc_pos f rest).
    destruct (IH rest) as (fs & r & Hrest & Hfs & Hi); [lia|].
    exists (f :: fs), r. split_and!; [|by constructor|].
    + cbn. by rewrite <- app_assoc, <- Hrest.
    + intros i. cbn [dispatch_fuel]. rewrite E. apply (Hi (route_frame f i)).
  - apply decode_incomplete_keeps in E as E'. subst rest.
    exists [], buf. split_and!; [done..|]. intros i. left. split; [done|].
    cbn. by rewrite E.
  - assert (rest = buf) as -> by (revert E; unfold decode_frame; split_ifs; congruence).
    exists [], buf. split_and!; [done..|]. intros i. right. exists p. split; [done|].
    cbn. by rewrite E.
Qed.

(** The frames at the front of a buffer are determined by its bytes. *)
Lemma frames_prefix fs1 rest1 fs rest :
  Forall wf_frame fs1 → Forall wf_frame fs → incomplete rest →
  concat (enc <$> fs1) ++ rest1 = concat (enc <$> fs) ++ rest →
  ∃ fs2, fs = fs1 ++ fs2 ∧ rest1 = concat (enc <$> fs2) ++ rest.
Proof.
  intros H1. revert fs. induction H1 as [|f1 fs1 Hf1 _ IH]; intros fs Hfs Hr Heq; [eauto|].
  cbn [fmap list_fmap concat app] in Heq. rewrite <- app_assoc in Heq.
  pose proof (decode_enc f1 (concat (enc <$> fs1) ++ rest1) Hf1) as Hd. rewrite Heq in Hd.
  destruct Hfs as [|f fs Hf Hfs].
  - cbn [fmap list_fmap concat app] in Hd. by rewrite Hr in Hd.
  - cbn [fmap list_fmap concat app] in Hd, Heq. rewrite <- app_assoc in Hd, Heq. rewrite decode_enc in Hd by done.
    injection Hd as -> Htl.
    destruct (IH fs Hfs Hr) as (fs2 & -> & ->); [done|]. by exists fs2.
Qed.

Lemma recv_task_chunks chunks buf es fs rest i :
  incomplete buf → Forall wf_frame fs → incomplete rest →
  buf ++ concat chunks = concat (enc <$> fs) ++ rest →
  recv_task buf ((Chunk <$> chunks) ++ es) i = recv_task rest es (route_all fs i).
Proof.
  revert buf fs i. induction chunks as [|c chunks IH]; intros buf fs i Hb Hfs Hr Heq.
  - cbn [fmap list_fmap concat app] in Heq. rewrite app_nil_r in Heq.
    destruct (frames_prefix fs rest [] buf Hfs) as (fs2 & Hnil & ->); [done..|].
    destruct (app_eq_nil fs fs2 (eq_sym Hnil)) as [-> ->]. done.
  - cbn [fmap list_fmap app recv_task]. cbn [fmap list_fmap concat app] in Heq. rewrite app_assoc in Heq. unfold dispatch.
    destruct (buffer_split (S (length (buf ++ c))) (buf ++ c)) as (fs1 & r1 & Hs & Hfs1 & Hi);
      [lia|].
    rewrite Hs, <- app_assoc in Heq.
    destruct (frames_prefix fs1 _ fs rest Hfs1 Hfs Hr Heq) as (fs2 & -> & Heq2).
    apply Forall_app in Hfs as [_ Hfs2].
    destruct (Hi i) as [[Hr1 ->]|(p & Hc & ->)].
    + rewrite (IH r1 fs2) by done. unfold route_all. by rewrite foldl_app.
    + exfalso. pose proof (decode_corrupt_app _ _ (concat chunks) _ Hc) as Hd.
      rewrite Heq2 in Hd. destruct Hfs2 as [|f fs2 Hf _].
      * cbn [fmap list_fmap concat app] in Hd. by rewrite Hr in Hd.
      * cbn [fmap list_fmap concat app] in Hd. rewrite <- app_assoc, decode_enc in Hd by done. done.
Qed.

(** ** The session invariant *)

Context `{!MpscOk C}.

(** Every table entry is an open cell with its sender; identifiers were handed
    out below [next_id]; a closed session has no entries. *)
Record wf_inner (i : Inner) : Prop := {
  wf_entry id h : streams i !! id = Some h →
    id < next_id i ∧ ∃ c, cells i !! h = Some c ∧ close_tag c = REASON_OPEN
                          ∧ tx_alive (inbound c) = true;
  wf_cells h : is_Some (cells i !! h) → (h < next_cell i)%nat;
  wf_inj id id' h : streams i !! id = Some h → streams i !! id' = Some h → id = id';
  wf_odd : Z.odd (next_id i) = true ∧ in_u 32 (next_id i) = true;
  wf_closed : is_closed i = true → streams i = ∅ }.

Lemma wf_Inner_new : wf_inner Inner_new.
Proof.
  split; cbn; try done.
  - intros h [c Hc]. by rewrite lookup_empty in Hc.
Qed.

(** Operations that only touch the frame queue. *)
Lemma wf_set_frames i q : wf_inner i → wf_inner (set_frames i q).
Proof. intros [? ? ? ? ?]. by split. Qed.

(** Changing the data of one cell without closing it. *)
Lemma wf_set_cell i h c c' :
  wf_inner i → cells i !! h = Some c →
  (close_tag c = REASON_OPEN → tx_alive (inbound c) = true →
   close_tag c' = REASON_OPEN ∧ tx_alive (inbound c') = true) →
  wf_inner (set_cells i (<[h := c']> (cells i))).
Proof.
  intros [He Hc Hi Ho Hcl] Hh Hc'. split; cbn; try done.
  - intros id h1 Hid. destruct (He id h1 Hid) as (Hlt & c1 & Hl & Ht & Hx). split; [done|].
    destruct (decide (h = h1)) as [<-|].
    + exists c'. rewrite lookup_insert_eq. simplify_eq. by destruct Hc'.
    + exists c1. by rewrite lookup_insert_ne.
  - intros h1. destruct (decide (h = h1)) as [<-|].
    + intros _. apply Hc. by eexists.
    + rewrite lookup_insert_ne by done. apply Hc.
Qed.

(** A receiver may go at any time. *)
Lemma wf_drop_receiver i h : wf_inner i → wf_inner (set_cells i (alter drop_receiver h (cells i))).
Proof.
  intros Hwf. destruct (cells i !! h) as [c|] eqn:Hc.
  - replace (alter drop_receiver h (cells i)) with (<[h := drop_receiver c]> (cells i)).
    + apply (wf_set_cell i h c); [done..|]. cbn. by rewrite (proj2 (drop_rx_spec _)).
    + apply map_eq. intros h'. destruct (decide (h' = h)) as [->|].
      * by rewrite lookup_alter_eq, lookup_insert_eq, Hc.
      * by rewrite lookup_alter_ne, lookup_insert_ne.
  - replace (alter drop_receiver h (cells i)) with (cells i); [by destruct i|].
    apply map_eq. intros h'. destruct (decide (h' = h)) as [->|].
    + by rewrite lookup_alter_eq, Hc.
    + by rewrite lookup_alter_ne.
Qed.

(** Taking an entry out of the table, whatever becomes of its cell. *)
Lemma wf_detach i i' id h :
  wf_inner i → streams i !! id = Some h →
  streams i' = delete id (streams i) → next_cell i' = next_cell i →
  next_id i' = next_id i → is_closed i' = is_closed i →
  (∀ h', h' ≠ h → cells i' !! h' = cells i !! h') →
  wf_inner i'.
Proof.
  intros [He Hc Hi Ho Hcl] E Hs Hn Hid Hx Hd. split; rewrite ?Hs, ?Hn, ?Hid, ?Hx; try done.
  - intros id1 h1 [Hne Hl]%lookup_delete_Some. rewrite Hd; [eauto|].
    intros ->. apply Hne. eauto.
  - intros h1 Hs1. destruct (decide (h1 = h)) as [->|].
    + apply Hc. destruct (He id h E) as (_ & c & -> & _). by eexists.
    + apply Hc. by rewrite <- Hd.
  - intros id1 id2 h1 [_ H1]%lookup_delete_Some [_ H2]%lookup_delete_Some. eauto.
  - intros Hy. rewrite (Hcl Hy). apply delete_empty.
Qed.

(** Follow the effect of an operation on cells and table. *)
Ltac cell_simpl :=
  repeat (cbn [streams cells next_cell frames next_id is_closed set_cells set_frames post
               inbound close_tag tag hang] in * ||
          (rewrite lookup_insert_ne by done) || (rewrite lookup_alter_ne by done) ||
          rewrite lookup_insert_eq || rewrite lookup_alter_eq).

Lemma wf_remove_entry i id : wf_inner i → wf_inner (remove_entry id i).
Proof.
  intros Hwf. unfold remove_entry. destruct (streams i !! id) as [h|] eqn:E; [|done].
  eapply wf_detach; [done..|]. intros h' Hne. by cell_simpl.
Qed.

Lemma wf_route_fin i id : wf_inner i → wf_inner (route_fin id i).
Proof.
  intros Hwf. unfold route_fin, remove_entry. cbn [streams set_cells].
  destruct (streams i !! id) as [h|] eqn:E; [|done].
  eapply wf_detach; [done..|]. intros h' Hne. by cell_simpl.
Qed.

Lemma wf_route_push i id p : wf_inner i → wf_inner (route_push id p i).
Proof.
  intros Hwf. unfold route_push.
  destruct (streams i !! id) as [h|] eqn:E; [|by apply wf_set_frames].
  destruct (cells i !! h) as [c|] eqn:Ec; [|done].
  destruct (try_send p (inbound c)) as [[] q] eqn:Et; unfold post, remove_entry;
    cbn [streams set_cells]; rewrite ?E.
  - apply try_send_inv in Et as (_ & _ & _ & _ & Ht).
    eapply wf_set_cell; [done..|]. cbn. by rewrite Ht.
  - apply wf_set_frames. eapply wf_detach; [done..|]. intros h' Hne. by cell_simpl.
  - eapply wf_detach; [done..|]. intros h' Hne. by cell_simpl.
Qed.

Lemma wf_route_frame i f : wf_inner i → wf_inner (route_frame f i).
Proof.
  intros. unfold route_frame. destruct (decide _); [by apply wf_route_push|].
  destruct (decide _); [by apply wf_route_fin|done].
Qed.

(** The cells of a closed session: tagged and hung up if they had an entry. *)
Lemma close_cells_other r hs (m : gmap nat Cell) h :
  h ∉ hs → foldr (λ h, alter (λ c, hang (tag r c)) h) m hs !! h = m !! h.
Proof.
  induction hs as [|h1 hs IH]; cbn; [done|]. intros Hn.
  rewrite lookup_alter_ne by set_solver. apply IH. set_solver.
Qed.

Lemma close_cells_entry r hs (m : gmap nat Cell) h :
  h ∈ hs → NoDup hs →
  foldr (λ h, alter (λ c, hang (tag r c)) h) m hs !! h = (λ c, hang (tag r c)) <$> m !! h.
Proof.
  induction hs as [|h1 hs IH]; intros Hin Hnd; [set_solver|]. cbn.
  apply NoDup_cons in Hnd as [Hni Hnd].
  destruct (decide (h1 = h)) as [<-|].
  - rewrite lookup_alter_eq, close_cells_other by done. done.
  - rewrite lookup_alter_ne by done. apply IH; [set_solver|done].
Qed.

Lemma wf_handles i : wf_inner i → NoDup (map_to_list (streams i)).*2.
Proof.
  intros Hwf. apply NoDup_fmap_2_strong; [|apply NoDup_map_to_list].
  intros [id1 h1] [id2 h2] H1%elem_of_map_to_list H2%elem_of_map_to_list ?. cbn in *. subst.
  f_equal. by eapply wf_inj.
Qed.

Lemma handles_spec i h : h ∈ (map_to_list (streams i)).*2 ↔ ∃ id, streams i !! id = Some h.
Proof.
  rewrite list_elem_of_fmap. split.
  - intros ([id h'] & -> & H1%elem_of_map_to_list). eauto.
  - intros [id Hid]. exists (id, h). by rewrite elem_of_map_to_list.
Qed.

Lemma wf_close i r : wf_inner i → wf_inner (close r i).
Proof.
  intros Hwf. unfold close. destruct (is_closed i); [done|]. destruct Hwf as [He Hc Hi Ho Hcl].
  split; cbn; try done. intros h Hs. apply Hc.
  revert Hs. generalize (map_to_list (streams i)).*2; intros hs.
  induction hs as [|h1 hs IH]; cbn; [done|]. by rewrite lookup_alter_is_Some.
Qed.

(** The table right after [open_stream] has inserted its entry. *)
Definition with_entry (i : Inner) (c : Cell) : Inner :=
  {| streams := <[next_id i := next_cell i]> (streams i);
     cells := <[next_cell i := c]> (cells i);
     next_cell := S (next_cell i); frames := frames i;
     next_id := wrap_u 32 (next_id i + 2); is_closed := is_closed i |}.

Lemma id_step i : wf_inner i → next_id i + 2 < 2 ^ 32 → wrap_u 32 (next_id i + 2) = next_id i + 2.
Proof.
  intros Hwf Hn. destruct (wf_odd _ Hwf) as [_ Hr]. apply wrap_u_small.
  unfold in_u in Hr. bool_lia.
Qed.

Lemma next_id_fresh i : wf_inner i → streams i !! next_id i = None.
Proof.
  intros Hwf. destruct (streams i !! next_id i) as [h|] eqn:E; [|done].
  apply (wf_entry _ Hwf) in E as [? _]. lia.
Qed.

Lemma wf_with_entry i c :
  wf_inner i → is_closed i = false → next_id i + 2 < 2 ^ 32 →
  close_tag c = REASON_OPEN → tx_alive (inbound c) = true → wf_inner (with_entry i c).
Proof.
  intros Hwf Hcl Hn Ht Hx. pose proof (id_step i Hwf Hn) as Hid.
  destruct Hwf as [He Hc Hi [Ho Hr] _]. split; cbn.
  - intros id h. rewrite Hid. intros [[<- <-]|[Hne Hl]]%lookup_insert_Some.
    + split; [lia|]. exists c. by rewrite lookup_insert_eq.
    + destruct (He id h Hl) as (Hlt & c1 & Hc1 & ?). split; [lia|]. exists c1.
      rewrite lookup_insert_ne; [done|]. intros <-.
      assert (next_cell i < next_cell i)%nat by (apply Hc; eauto). lia.
  - intros h. destruct (decide (next_cell i = h)) as [<-|]; [lia|].
    rewrite lookup_insert_ne by done. intros Hs%Hc. lia.
  - assert (Hnew : ∀ id, streams i !! id ≠ Some (next_cell i)).
    { intros id (_ & c1 & Hc1 & _)%He.
      assert (next_cell i < next_cell i)%nat by (apply Hc; eauto). lia. }
    intros id id' h [[<- <-]|[? H1]]%lookup_insert_Some [[<- H2]|[? H2]]%lookup_insert_Some;
      simplify_eq; try done; [by apply Hnew in H2|by subst; apply Hnew in H1|eauto].
  - rewrite Hid. unfold in_u in *. rewrite Z.odd_add, Ho. split; [done|bool_lia].
  - by rewrite Hcl.
Qed.

Definition fresh_cell : Cell :=
  {| inbound := channel STREAM_QUEUE_DEPTH; close_tag := REASON_OPEN |}.

(** [open_stream] on a well-formed session, by cases. *)
Lemma open_stream_cases i :
  wf_inner i →
  open_stream i =
    if is_closed i then (Err (Error_SessionClosed [PLit "the smux session is closed"]), i)
    else let i1 := with_entry i fresh_cell in
      match try_send (control CMD_SYN (next_id i)) (frames i) with
      | (Sent, q) =>
        (Ok {| sid := next_id i; cell := next_cell i; partial := None; read_closed := false;
               write_closed := false |}, set_frames i1 q)
      | (Closed, q) =>
        (Err (Error_SessionClosed [PLit "the smux session is closed"]),
         remove_entry (next_id i) (set_frames i1 q))
      | (Full, q) =>
        (Err (transport [PLit "the smux frame queue is saturated; retry once the session drains"]),
         remove_entry (next_id i) (set_frames i1 q))
      end.
Proof.
  intros Hwf. unfold open_stream, remove_entry. by rewrite (next_id_fresh i Hwf).
Qed.

(** What other streams see of an [open_stream], and what the new one gets. *)
Lemma open_stream_effect i r i' :
  wf_inner i → next_id i + 2 < 2 ^ 32 → open_stream i = (r, i') →
  wf_inner i' ∧ (∀ h, h ≠ next_cell i → cells i' !! h = cells i !! h)
  ∧ (∀ id, id ≠ next_id i → streams i' !! id = streams i !! id)
  ∧ next_id i ≤ next_id i' ≤ next_id i + 2 ∧ (next_cell i ≤ next_cell i')%nat
  ∧ (∀ s, r = Ok s → s = {| sid := next_id i; cell := next_cell i; partial := None;
                            read_closed := false; write_closed := false |}
       ∧ streams i' !! next_id i = Some (next_cell i)
       ∧ cells i' !! next_cell i = Some fresh_cell
       ∧ next_id i' = next_id i + 2 ∧ (next_cell i' = S (next_cell i))).
Proof.
  intros Hwf Hn. rewrite open_stream_cases by done.
  destruct (is_closed i) eqn:Hcl; [intros [= <- <-]; split_and!; auto; (lia || done)|].
  assert (Hwf1 : wf_inner (with_entry i fresh_cell)).
  { apply wf_with_entry; try done. by apply channel_spec. }
  destruct (try_send _ (frames i)) as [[] q] eqn:Et; cbv zeta; intros [= <- <-].
  - split_and!; [by apply wf_set_frames|..]; cbn; rewrite ?id_step by done; try lia.
    + intros. by cell_simpl.
    + intros. by cell_simpl.
    + intros s [= <-]. by rewrite !lookup_insert_eq.
  - split_and!; [by apply wf_remove_entry, wf_set_frames|..]; unfold remove_entry; cbn;
      rewrite lookup_insert_eq; cbn; rewrite ?id_step by done; try (lia || done).
    + intros. by cell_simpl.
    + intros. rewrite lookup_delete_ne by done. by cell_simpl.
  - split_and!; [by apply wf_remove_entry, wf_set_frames|..]; unfold remove_entry; cbn;
      rewrite lookup_insert_eq; cbn; rewrite ?id_step by done; try (lia || done).
    + intros. by cell_simpl.
    + intros. rewrite lookup_delete_ne by done. by cell_simpl.
Qed.

(** *** Reading *)

(** Bytes received for the stream and not yet read. *)
Definition pend (s : SmuxStream) (c : Cell) : list byte :=
  default [] (partial s) ++ concat (queued (inbound c)).

Definition bytes_of (r : PollRead) : list byte :=
  match r with ReadReady bs => bs | ReadPending => [] end.

(** The read half has ended and nothing is left behind it. *)
Definition drained (s : SmuxStream) (c : Cell) : Prop :=
  read_closed s = true → partial s = None ∧ queued (inbound c) = [].

Lemma keep_rest (bs : list byte) : default [] (match bs with [] => None | _ => Some bs end) = bs.
Proof. by destruct bs. Qed.

Lemma poll_read_effect n s i c r s' i' :
  wf_inner i → cells i !! cell s = Some c → drained s c → poll_read n s i = (r, s', i') →
  wf_inner i' ∧ sid s' = sid s ∧ cell s' = cell s
  ∧ streams i' = streams i ∧ next_id i' = next_id i ∧ next_cell i' = next_cell i
  ∧ is_closed i' = is_closed i
  ∧ (∀ h, h ≠ cell s → cells i' !! h = cells i !! h)
  ∧ ∃ c', cells i' !! cell s = Some c' ∧ close_tag c' = close_tag c
      ∧ tx_alive (inbound c') = tx_alive (inbound c) ∧ rx_alive (inbound c') = rx_alive (inbound c)
      ∧ bytes_of r ++ pend s' c' = pend s c ∧ drained s' c'
      ∧ (read_closed s' = true →
         read_closed s = true ∨ tx_alive (inbound c) = false ∨ is_closed i = true).
Proof.
  intros Hwf Hc Hd. unfold poll_read.
  destruct (read_closed s) eqn:Erc.
  { intros [= <- <- <-]. split_and!; auto. exists c. split_and!; auto. }
  destruct (partial s) as [chunk|] eqn:Ep.
  { intros [= <- <- <-]. split_and!; auto. exists c. split_and!; auto; cbn; try congruence.
    - unfold pend; cbn. by rewrite keep_rest, Ep, app_assoc, take_drop.
    - intros ?; cbn in *; congruence. }
  rewrite Hc. destruct (poll_recv (inbound c)) as [rv q] eqn:Er. apply poll_recv_inv in Er.
  set (i1 := set_cells i _). assert (Hwf1 : wf_inner i1).
  { eapply wf_set_cell; [done..|]. cbn. intros ? ?. split; [done|].
    destruct rv; destruct_and?; subst; congruence. }
  destruct rv as [chunk| |].
  - destruct Er as (Hq & _ & Hr & Ht). intros [= <- <- <-]. split_and!; auto.
    + intros. unfold i1. by cell_simpl.
    + eexists. unfold i1; cbn. rewrite lookup_insert_eq. split_and!; [done..| |by intros|].
      * unfold pend; cbn. by rewrite keep_rest, Ep, Hq, app_assoc, take_drop.
      * cbn. congruence.
  - destruct Er as (Hq & Ht & ->). intros [= <- <- <-]. split_and!; auto.
    + intros. unfold i1. by cell_simpl.
    + eexists. unfold i1; cbn. rewrite lookup_insert_eq. split_and!; try done.
      * unfold pend. by rewrite Ep.
      * by right; left.
  - destruct Er as (Hq & Ht & ->).
    destruct (is_closed i1) eqn:Ecl; intros [= <- <- <-]; split_and!; auto;
      try (intros; unfold i1; by cell_simpl);
      eexists; unfold i1; cbn; rewrite lookup_insert_eq; split_and!; try done.
    + unfold pend. by rewrite Ep.
    + right; right. exact Ecl.
    + intros ?. congruence.
Qed.

(** ** One stream in a running session *)

(** What happens to a session after a stream was opened in it: frames arrive,
    the stream is read, written and shut down, and everything else goes on.  A read and a
    close are one step each; [SmuxStreams] takes them apart and shows that the invariant
    below survives that. *)
Inductive event :=
| EvFrame (f : Frame)
| EvRead (n : nat)
| EvShutdown
| EvClose (r : StreamCloseReason)
| EvOpen                                  (* another stream is opened *)
| EvWrite (o : SmuxStream) (buf : list byte)
| EvKeepalive
| EvOtherRead (n : nat) (o : SmuxStream)
| EvOtherDrop (o : SmuxStream).

(** The session, the stream, and the history: the bytes read so far, the bytes
    the peer sent to it before its FIN or the session's end, and whether that
    end is still to come. *)
Record View := {
  v_i : Inner; v_s : SmuxStream; v_got : list byte; v_sent : list byte; v_live : bool }.

Definition is_other (o s : SmuxStream) : Prop := sid o ≠ sid s ∧ cell o ≠ cell s.
#[global] Instance is_other_dec o s : Decision (is_other o s).
Proof. apply and_dec; solve_decision. Defined.

Definition set_inner (v : View) (i : Inner) : View :=
  {| v_i := i; v_s := v_s v; v_got := v_got v; v_sent := v_sent v; v_live := v_live v |}.

Definition view_step (v : View) (e : event) : View :=
  let i := v_i v in let s := v_s v in
  match e with
  | EvFrame f =>
    let mine := bool_decide (stream_id f = sid s) in
    {| v_i := route_frame f i; v_s := s; v_got := v_got v;
       v_sent := if v_live v && mine && bool_decide (cmd f = CMD_PSH)
                 then v_sent v ++ frame_payload f else v_sent v;
       v_live := v_live v && negb (mine && bool_decide (cmd f = CMD_FIN)) |}
  | EvRead n =>
    let '(r, s', i') := poll_read n s i in
    {| v_i := i'; v_s := s'; v_got := v_got v ++ bytes_of r; v_sent := v_sent v;
       v_live := v_live v |}
  | EvShutdown =>
    let '(_, s', i') := poll_shutdown s i in
    {| v_i := i'; v_s := s'; v_got := v_got v; v_sent := v_sent v; v_live := v_live v |}
  | EvClose r =>
    {| v_i := close r i; v_s := s; v_got := v_got v; v_sent := v_sent v; v_live := false |}
  | EvOpen => set_inner v (open_stream i).2
  | EvWrite o buf => set_inner v (poll_write buf o i).2
  | EvKeepalive => set_inner v (keepalive_tick i).2
  | EvOtherRead n o => if decide (is_other o s) then set_inner v (poll_read n o i).2 else v
  | EvOtherDrop o => if decide (is_other o s) then set_inner v (drop_stream o i) else v
  end.

Definition opened (s : SmuxStream) (i : Inner) : View :=
  {| v_i := i; v_s := s; v_got := []; v_sent := []; v_live := true |}.

Fixpoint opens (es : list event) : Z :=
  match es with
  | [] => 0
  | EvOpen :: es => 1 + opens es
  | _ :: es => opens es
  end.

(** Where the stream stands: registered, ended in order, or evicted. *)
Inductive standing (v : View) (c : Cell) : Prop :=
| Registered :
    streams (v_i v) !! sid (v_s v) = Some (cell (v_s v)) → v_live v = true →
    read_closed (v_s v) = false →
    v_got v ++ pend (v_s v) c = v_sent v → standing v c
| EndedInOrder :
    streams (v_i v) !! sid (v_s v) = None → v_live v = false →
    tx_alive (inbound c) = false → close_tag c ≠ reason_u8 SlowConsumer →
    close_tag c ≠ REASON_OPEN →
    v_got v ++ pend (v_s v) c = v_sent v → standing v c
| Evicted :
    streams (v_i v) !! sid (v_s v) = None → tx_alive (inbound c) = false →
    close_tag c = reason_u8 SlowConsumer →
    v_got v ++ pend (v_s v) c `prefix_of` v_sent v → standing v c.

Record view_inv (v : View) : Prop := {
  vi_wf : wf_inner (v_i v);
  vi_id : sid (v_s v) < next_id (v_i v);
  vi_cell : (cell (v_s v) < next_cell (v_i v))%nat;
  vi_own id : streams (v_i v) !! id = Some (cell (v_s v)) → id = sid (v_s v);
  vi_standing : ∃ c, cells (v_i v) !! cell (v_s v) = Some c ∧ rx_alive (inbound c) = true
                     ∧ drained (v_s v) c ∧ standing v c }.

(** Operations that leave the stream's entry and cell alone. *)
Lemma view_inv_frame v i' :
  view_inv v → wf_inner i' → next_id (v_i v) ≤ next_id i' →
  (next_cell (v_i v) ≤ next_cell i')%nat →
  cells i' !! cell (v_s v) = cells (v_i v) !! cell (v_s v) →
  streams i' !! sid (v_s v) = streams (v_i v) !! sid (v_s v) →
  (∀ id, streams i' !! id = Some (cell (v_s v)) → streams (v_i v) !! id = Some (cell (v_s v))) →
  view_inv (set_inner v i').
Proof.
  intros [Hwf Hid Hcell Hown (c & Hc & Hrx & Hd & Hst)] Hwf' Hn Hk Hcs Hs Ho.
  split; cbn; auto; try lia. exists c. rewrite Hcs. split_and!; auto.
  destruct Hst; [apply Registered|apply EndedInOrder|apply Evicted]; cbn; (done || congruence).
Qed.

Lemma view_inv_frames v q : view_inv v → view_inv (set_inner v (set_frames (v_i v) q)).
Proof. intros Hv. apply view_inv_frame; auto; try (cbn; lia). apply wf_set_frames, Hv. Qed.

Lemma set_inner_id v : set_inner v (v_i v) = v.
Proof. by destruct v. Qed.

(** Removing another entry leaves the stream alone. *)
Lemma remove_entry_other i id h :
  streams i !! id ≠ Some h → cells (remove_entry id i) !! h = cells i !! h.
Proof.
  intros Hne. unfold remove_entry. destruct (streams i !! id) as [h'|]; [|done]. cbn.
  rewrite lookup_alter_ne; congruence.
Qed.

Lemma remove_entry_streams i id : streams (remove_entry id i) = delete id (streams i).
Proof.
  unfold remove_entry. destruct (streams i !! id) as [h|] eqn:E; [done|].
  symmetry. by apply delete_id.
Qed.

Lemma remove_entry_counters i id :
  next_id (remove_entry id i) = next_id i ∧ next_cell (remove_entry id i) = next_cell i
  ∧ is_closed (remove_entry id i) = is_closed i.
Proof. unfold remove_entry. by destruct (streams i !! id). Qed.

(** [open_stream] gives no entry to a cell that was there before. *)
Lemma open_stream_others i r i' id h :
  wf_inner i → next_id i + 2 < 2 ^ 32 → open_stream i = (r, i') → h ≠ next_cell i →
  streams i' !! id = Some h → streams i !! id = Some h.
Proof.
  intros Hwf Hn E Hh Hid. destruct (open_stream_effect _ _ _ Hwf Hn E) as (_ & _ & Hs & _ & _ & Hr).
  destruct (decide (id = next_id i)) as [->|Hne]; [|by rewrite <- Hs]. exfalso. destruct r as [s|e].
  - destruct (Hr s eq_refl) as (_ & Hl & _). congruence.
  - revert E Hid. rewrite open_stream_cases by done. pose proof (next_id_fresh _ Hwf) as Hf.
    destruct (is_closed i); [intros [= _ <-]; congruence|].
    destruct (try_send _ _) as [[] q]; intros [= _ <-]; rewrite remove_entry_streams;
      by rewrite lookup_delete_eq.
Qed.

Lemma view_open v :
  view_inv v → next_id (v_i v) + 2 < 2 ^ 32 → view_inv (view_step v EvOpen).
Proof.
  intros Hv Hn. cbn. destruct (open_stream (v_i v)) as [r i'] eqn:E. cbn.
  destruct (open_stream_effect _ _ _ (vi_wf _ Hv) Hn E) as (Hwf & Hcs & Hs & Hb & Hk & Hr).
  pose proof (vi_id _ Hv); pose proof (vi_cell _ Hv).
  apply view_inv_frame; auto; [lia|apply Hcs; lia|apply Hs; lia|].
  intros id. eapply open_stream_others; [apply Hv|done..|lia].
Qed.

Lemma view_other_read v n o : view_inv v → view_inv (view_step v (EvOtherRead n o)).
Proof.
  intros Hv. cbn. destruct (decide (is_other o (v_s v))) as [[_ Ho]|]; [|done].
  unfold poll_read. destruct (read_closed o); [cbn; by rewrite set_inner_id|].
  destruct (partial o); [cbn; by rewrite set_inner_id|].
  destruct (cells (v_i v) !! cell o) as [c|] eqn:Hc; [|cbn; by rewrite set_inner_id].
  destruct (poll_recv (inbound c)) as [r q] eqn:Er. apply poll_recv_inv in Er.
  assert (Hgoal : view_inv (set_inner v (set_cells (v_i v)
            (<[cell o:={| inbound := q; close_tag := close_tag c |}]> (cells (v_i v)))))).
  { apply view_inv_frame; auto; try (cbn; lia); [|cbn; by rewrite lookup_insert_ne].
    eapply wf_set_cell; [apply Hv|done|]. cbn.
    destruct r; destruct_and?; subst; intuition congruence. }
  destruct r; try exact Hgoal. by destruct (is_closed _).
Qed.

Lemma view_other_drop v o : view_inv v → view_inv (view_step v (EvOtherDrop o)).
Proof.
  intros Hv. cbn. destruct (decide (is_other o (v_s v))) as [[Hid Ho]|]; [|done].
  unfold drop_stream. set (i1 := if write_closed o then _ else _).
  assert (Hi1 : view_inv (set_inner v i1)).
  { unfold i1. destruct (write_closed o); [by rewrite set_inner_id|by apply view_inv_frames]. }
  assert (Hsame : streams i1 = streams (v_i v) ∧ cells i1 = cells (v_i v))
    by (unfold i1; by destruct (write_closed o)).
  destruct Hsame as [Hs Hc].
  assert (Hn1 : next_id i1 = next_id (v_i v) ∧ next_cell i1 = next_cell (v_i v))
    by (unfold i1; by destruct (write_closed o)). destruct Hn1 as [Hn Hk].
  set (i2 := remove_entry (sid o) i1). destruct (remove_entry_counters i1 (sid o)) as (En & Ek & _).
  assert (Hwf2 : wf_inner i2) by (apply wf_remove_entry, Hi1).
  assert (Hst2 : streams i2 = delete (sid o) (streams (v_i v)))
    by (unfold i2; by rewrite remove_entry_streams, Hs).
  apply view_inv_frame; auto; cbn; fold i2 in En, Ek; rewrite ?En, ?Ek, ?Hn, ?Hk; auto; try lia.
  - by apply wf_drop_receiver.
  - rewrite lookup_alter_ne by done. unfold i2. rewrite remove_entry_other, Hc; [done|].
    rewrite Hs. intros Hx. by apply (vi_own _ Hv) in Hx.
  - by rewrite Hst2, lookup_delete_ne.
  - rewrite Hst2. by intros id [_ ?]%lookup_delete_Some.
Qed.

(** A frame for another stream leaves this one alone. *)
Lemma route_frame_other v f :
  view_inv v → stream_id f ≠ sid (v_s v) → view_inv (set_inner v (route_frame f (v_i v))).
Proof.
  intros Hv Hne.
  assert (Hcell : ∀ h, streams (v_i v) !! stream_id f = Some h → cell (v_s v) ≠ h).
  { intros h Hh <-. by apply (vi_own _ Hv) in Hh. }
  pose proof (wf_route_frame _ f (vi_wf _ Hv)) as Hwf'. revert Hwf'.
  unfold route_frame. destruct (decide (cmd f = CMD_PSH)) as [_|].
  - unfold route_push. destruct (streams (v_i v) !! stream_id f) as [h|] eqn:E;
      [|intros _; by apply view_inv_frames].
    specialize (Hcell h eq_refl).
    destruct (cells (v_i v) !! h) as [c|]; [|intros _; by rewrite set_inner_id].
    destruct (try_send _ _) as [[] q]; unfold post, remove_entry; cbn [streams set_cells];
      rewrite ?E; intros Hwf'; apply view_inv_frame; auto; cell_simpl; try lia; try done;
      try (by rewrite lookup_delete_ne); by intros id [_ ?]%lookup_delete_Some.
  - destruct (decide (cmd f = CMD_FIN)) as [_|]; [|intros _; by rewrite set_inner_id].
    unfold route_fin, remove_entry; cbn [streams set_cells].
    destruct (streams (v_i v) !! stream_id f) as [h|] eqn:E; [|intros _; by rewrite set_inner_id].
    specialize (Hcell h eq_refl).
    intros Hwf'; apply view_inv_frame; auto; cell_simpl; try lia; try done;
      try (by rewrite lookup_delete_ne); by intros id [_ ?]%lookup_delete_Some.
Qed.

Lemma standing_pend v s' c c' i' got' :
  standing v c → sid s' = sid (v_s v) → cell s' = cell (v_s v) →
  streams i' = streams (v_i v) → close_tag c' = close_tag c →
  tx_alive (inbound c') = tx_alive (inbound c) →
  (streams (v_i v) !! sid (v_s v) = Some (cell (v_s v)) → read_closed s' = false) →
  got' ++ pend s' c' = v_got v ++ pend (v_s v) c →
  standing {| v_i := i'; v_s := s'; v_got := got'; v_sent := v_sent v; v_live := v_live v |} c'.
Proof.
  intros Hst Hs Hc Hi Ht Hx Hrc Hp.
  destruct Hst; [apply Registered|apply EndedInOrder|apply Evicted];
    cbn [v_i v_s v_got v_sent v_live]; rewrite ?Hp; try congruence; auto.
Qed.

Lemma view_read v n : view_inv v → view_inv (view_step v (EvRead n)).
Proof.
  intros [Hwf Hid Hcell Hown (c & Hc & Hrx & Hd & Hst)]. cbn.
  destruct (poll_read n (v_s v) (v_i v)) as [[r s'] i'] eqn:E.
  destruct (poll_read_effect _ _ _ _ _ _ _ Hwf Hc Hd E) as
    (Hwf' & Hs & Hh & Hst' & Hni & Hnc & Hcl & _ & c' & Hc' & Ht & Hx & Hrx' & Hp & Hd' & Hrc).
  split; cbn; rewrite ?Hs, ?Hh, ?Hst', ?Hni, ?Hnc; auto.
  exists c'. rewrite Hrx'. split_and!; auto.
  eapply standing_pend; eauto.
  - intros Hreg. destruct (read_closed s') eqn:Er; [|done]. exfalso.
    destruct (wf_entry _ Hwf _ _ Hreg) as (_ & c1 & Hc1 & _ & Htx). simplify_eq.
    destruct (Hrc eq_refl) as [Ho|[Ho|Ho]]; [|congruence|].
    + destruct Hst; congruence.
    + apply (wf_closed _ Hwf) in Ho. by rewrite Ho in Hreg.
  - by rewrite <- app_assoc, Hp.
Qed.

Lemma view_shutdown v : view_inv v → view_inv (view_step v EvShutdown).
Proof.
  intros Hv. cbn. unfold poll_shutdown.
  assert (Hkeep : ∀ q s', sid s' = sid (v_s v) → cell s' = cell (v_s v) →
    partial s' = partial (v_s v) → read_closed s' = read_closed (v_s v) →
    view_inv {| v_i := set_frames (v_i v) q; v_s := s'; v_got := v_got v; v_sent := v_sent v;
                v_live := v_live v |}).
  { intros q s' Hs Hh Hp Hr. destruct Hv as [Hwf Hid Hcell Hown (c & Hc & Hrx & Hd & Hst)].
    split; cbn; rewrite ?Hs, ?Hh; auto; [by apply wf_set_frames|].
    exists c. split_and!; auto; [unfold drained in *; by rewrite Hr, Hp|].
    eapply standing_pend; eauto.
    - intros Hreg. rewrite Hr. destruct Hst; congruence.
    - unfold pend. by rewrite Hp. }
  assert (Hid : set_frames (v_i v) (frames (v_i v)) = v_i v) by by destruct (v_i v).
  destruct (write_closed (v_s v)); [by rewrite <- Hid; apply Hkeep|].
  destruct (try_send _ _) as [[] q]; try (rewrite <- Hid); by apply Hkeep.
Qed.

Lemma view_close v r : view_inv v → view_inv (view_step v (EvClose r)).
Proof.
  intros Hv. pose proof (wf_close _ r (vi_wf _ Hv)) as Hwf'. cbn.
  destruct Hv as [Hwf Hid Hcell Hown (c & Hc & Hrx & Hd & Hst)].
  unfold close in *. destruct (is_closed (v_i v)) eqn:Ecl.
  { apply (wf_closed _ Hwf) in Ecl.
    split; cbn; auto. exists c. split_and!; auto.
    destruct Hst as [Hs| |]; [by rewrite Ecl in Hs|apply EndedInOrder|apply Evicted]; auto. }
  split; cbn; auto; [done|].
  destruct Hst as [Hs Hl Hr Hp|Hs Hl Ht Htag Ho Hp|Hs Ht Htag Hp].
  - destruct (wf_entry _ Hwf _ _ Hs) as (_ & c1 & Hc1 & Htag & _). simplify_eq.
    exists (hang (tag r c)). destruct (drop_tx_spec (inbound c)) as (Hq & _ & Hrx' & Htx).
    rewrite close_cells_entry, Hc; [|apply handles_spec; eauto|by apply wf_handles].
    unfold hang, tag; cbn. rewrite Htag. cbn. split_and!; auto; [congruence|intros ?; congruence|].
    destruct r; [apply EndedInOrder|apply Evicted|apply EndedInOrder]; cbn; auto;
      rewrite ?Htag; try done; unfold pend in *; cbn; rewrite Hq; by rewrite <- Hp.
  - exists c. rewrite close_cells_other.
    + split_and!; auto. apply EndedInOrder; auto.
    + intros [id Hx]%handles_spec. apply Hown in Hx as Hy. subst. congruence.
  - exists c. rewrite close_cells_other.
    + split_and!; auto. apply Evicted; auto.
    + intros [id Hx]%handles_spec. apply Hown in Hx as Hy. subst. congruence.
Qed.

(** Data for this stream. *)
Lemma view_push v p :
  view_inv v →
  view_inv {| v_i := route_push (sid (v_s v)) p (v_i v); v_s := v_s v; v_got := v_got v;
              v_sent := if v_live v then v_sent v ++ p else v_sent v; v_live := v_live v |}.
Proof.
  intros Hv. pose proof (wf_route_push _ (sid (v_s v)) p (vi_wf _ Hv)) as Hwf'.
  pose proof Hv as [Hwf Hid Hcell Hown (c & Hc & Hrx & Hd & Hst)].
  unfold route_push in *. destruct Hst as [Hs Hl Hr Hp|Hs Hl Ht Htag Ho Hp|Hs Ht Htag Hp].
  - rewrite Hs, Hc, Hl in *.
    destruct (wf_entry _ Hwf _ _ Hs) as (_ & c1 & Hc1 & Htag & Htx). simplify_eq.
    destruct (try_send p (inbound c)) as [[] q] eqn:Et; apply try_send_inv in Et.
    + destruct Et as (_ & Hq & Hrq & _ & Htq). split; cbn; auto.
      eexists. rewrite lookup_insert_eq. split_and!; [done|done|intros ?; congruence|].
      apply Registered; auto. cbn. unfold pend in *. cbn.
      rewrite Hq, concat_app, <- Hp, <- !app_assoc. cbn. by rewrite app_nil_r.
    + destruct Et as (_ & _ & ->). unfold post, remove_entry in *. cbn [streams set_cells] in *.
      rewrite Hs in *. destruct (drop_tx_spec (inbound c)) as (Hq & _ & Hrx' & Htx').
      split; cbn; auto; [by intros id [_ ?%Hown]%lookup_delete_Some|].
      eexists. rewrite lookup_alter_eq, lookup_insert_eq. split_and!; [done|cbn; congruence| |].
      { intros ?; congruence. }
      apply Evicted; cbn; auto; [by rewrite lookup_delete_eq|].
      unfold pend in *; cbn. rewrite Hq, Hp. by apply prefix_app_r.
    + destruct Et as [? _]. congruence.
  - rewrite Hs in *. rewrite Hl in *. split; cbn; auto.
    exists c. split_and!; auto. apply EndedInOrder; auto.
  - rewrite Hs in *. split; cbn; auto.
    exists c. split_and!; auto. apply Evicted; auto. cbn.
    destruct (v_live v); [by apply prefix_app_r|done].
Qed.

(** The peer's FIN for this stream. *)
Lemma view_fin v :
  view_inv v →
  view_inv {| v_i := route_fin (sid (v_s v)) (v_i v); v_s := v_s v; v_got := v_got v;
              v_sent := v_sent v; v_live := false |}.
Proof.
  intros Hv. pose proof (wf_route_fin _ (sid (v_s v)) (vi_wf _ Hv)) as Hwf'.
  pose proof Hv as [Hwf Hid Hcell Hown (c & Hc & Hrx & Hd & Hst)].
  unfold route_fin, remove_entry in *. cbn [streams set_cells] in *.
  destruct Hst as [Hs Hl Hr Hp|Hs Hl Ht Htag Ho Hp|Hs Ht Htag Hp]; rewrite Hs in *.
  - destruct (wf_entry _ Hwf _ _ Hs) as (_ & c1 & Hc1 & Htag & Htx). simplify_eq.
    destruct (drop_tx_spec (inbound c)) as (Hq & _ & Hrx' & Htx').
    split; cbn; auto; [by intros id [_ ?%Hown]%lookup_delete_Some|].
    exists (hang (tag Clean c)). rewrite !lookup_alter_eq, Hc.
    split_and!; [done|cbn; congruence|intros ?; congruence|].
    apply EndedInOrder; cbn; auto; rewrite ?Htag; try done; [by rewrite lookup_delete_eq|].
    unfold pend in *; cbn. by rewrite Hq.
  - split; cbn; auto. exists c. split_and!; auto. apply EndedInOrder; auto.
  - split; cbn; auto. exists c. split_and!; auto. apply Evicted; auto.
Qed.

Lemma view_frame v f : view_inv v → view_inv (view_step v (EvFrame f)).
Proof.
  intros Hv. cbn. destruct (decide (stream_id f = sid (v_s v))) as [E|E].
  - rewrite bool_decide_true, andb_true_r by done. cbn [andb]. unfold route_frame.
    destruct (decide (cmd f = CMD_PSH)) as [Hc|Hc].
    + rewrite !bool_decide_true, bool_decide_false, !andb_true_r, E by (by rewrite ?Hc).
      by apply view_push.
    + rewrite (bool_decide_false (cmd f = CMD_PSH)), andb_false_r by done.
      destruct (decide (cmd f = CMD_FIN)) as [Hf|Hf].
      * rewrite bool_decide_true, andb_false_r, E by done. by apply view_fin.
      * rewrite bool_decide_false, andb_true_r by done. by destruct v.
  - rewrite (bool_decide_false (stream_id f = _)), andb_false_r, andb_true_r by done.
    cbn [andb]. by apply route_frame_other.
Qed.

Lemma view_write v o buf : view_inv v → view_inv (view_step v (EvWrite o buf)).
Proof.
  intros Hv. cbn. unfold poll_write.
  destruct (write_closed o), (is_closed (v_i v)); cbn; rewrite ?set_inner_id; try done.
  destruct (try_send _ _) as [[] q]; cbn; rewrite ?set_inner_id; try done.
  by apply view_inv_frames.
Qed.

Lemma view_keepalive v : view_inv v → view_inv (view_step v EvKeepalive).
Proof.
  intros Hv. cbn. unfold keepalive_tick.
  destruct (try_send _ _) as [[] q]; by apply view_inv_frames.
Qed.

Lemma next_id_other v e : e ≠ EvOpen → next_id (v_i (view_step v e)) = next_id (v_i v).
Proof.
  destruct e; intros He; try done; cbn;
    unfold route_frame, route_push, route_fin, poll_read, poll_shutdown, close, poll_write,
      keepalive_tick, drop_stream; repeat case_match; cbn; simplify_eq; try done;
    unfold remove_entry; cbn; repeat case_match; done.
Qed.

Lemma view_step_inv v e :
  view_inv v → next_id (v_i v) + 2 * opens [e] < 2 ^ 32 →
  view_inv (view_step v e) ∧ next_id (v_i (view_step v e)) ≤ next_id (v_i v) + 2 * opens [e].
Proof.
  intros Hv Hn. destruct e; try (rewrite next_id_other by done; split; [|cbn; lia]);
    eauto using view_frame, view_read, view_shutdown, view_close, view_write, view_keepalive,
      view_other_read, view_other_drop.
  split; [by apply view_open|]. cbn.
  destruct (open_stream (v_i v)) as [r i'] eqn:E. cbn in *.
  destruct (open_stream_effect _ _ _ (vi_wf _ Hv) Hn E) as (_ & _ & _ & ? & _). lia.
Qed.

Lemma view_run_inv es v :
  view_inv v → next_id (v_i v) + 2 * opens es < 2 ^ 32 → view_inv (foldl view_step v es).
Proof.
  revert v; induction es as [|e es IH]; intros v Hv Hn; [done|]. cbn [foldl].
  assert (Ho : opens (e :: es) = opens [e] + opens es) by (destruct e; cbn; lia).
  assert (0 ≤ opens es) by (clear; induction es as [|[]]; cbn; lia).
  destruct (view_step_inv v e Hv); [lia|]. apply IH; [done|lia].
Qed.

Lemma view_opened i s i' :
  wf_inner i → next_id i + 2 < 2 ^ 32 → open_stream i = (Ok s, i') → view_inv (opened s i').
Proof.
  intros Hwf Hn E.
  destruct (open_stream_effect _ _ _ Hwf Hn E) as (Hwf' & Hcs & Hst & _ & _ & Hr).
  destruct (Hr s eq_refl) as (-> & Hs & Hc & Hni & Hnc).
  destruct (channel_spec (C:=C) (A:=list byte) STREAM_QUEUE_DEPTH) as (Hq & _ & Hrx & _); [done|].
  split; cbn; auto; try lia.
  - intros id Hid. by eapply wf_inj.
  - eexists. split_and!; [done|done|by intros|]. apply Registered; auto. cbn.
    unfold pend, fresh_cell; cbn. by rewrite Hq.
Qed.

(** ** Properties *)

(** C36: frame reassembly does not depend on how the session's byte stream is cut
    into chunks: if the chunks concatenate to whole frames followed by a cut-short
    one, the receive task has routed exactly those frames, in order, and waits
    with exactly the cut-short tail. *)
Theorem recv_any_chunking chunks es fs rest i :
  Forall wf_frame fs → incomplete rest → concat chunks = concat (enc <$> fs) ++ rest →
  recv_task [] ((Chunk <$> chunks) ++ es) i = recv_task rest es (route_all fs i).
Proof. intros Hfs Hr Heq. by apply recv_task_chunks. Qed.

(** Draining a buffer terminates on every input.  The buffer splits into
    whole frames, all of them routed in order, and a rest that is kept if it is a
    cut-short frame and reported if it is not smux; no byte is skipped. *)
Theorem dispatch_total buf i :
  ∃ fs rest, buf = concat (enc <$> fs) ++ rest ∧ Forall wf_frame fs
    ∧ ((incomplete rest ∧ dispatch buf i = Some (Ok rest, route_all fs i))
       ∨ ∃ p, decode_frame rest = (Corrupt p, rest)
              ∧ dispatch buf i = Some (Err p, route_all fs i)).
Proof.
  destruct (buffer_split (S (length buf)) buf) as (fs & rest & Hb & Hfs & Hi); [lia|].
  exists fs, rest. split_and!; [done..|]. apply Hi.
Qed.

(** A stalled stream never blocks the others.  Pushing to a stream leaves
    every other stream's entry, queue and close tag as they were; a full queue is
    kept for its reader but evicted from the table, tagged [SlowConsumer], its
    sender dropped and a FIN offered to the peer. *)
Theorem push_isolated id p i h c :
  wf_inner i → streams i !! id = Some h → cells i !! h = Some c →
  rx_alive (inbound c) = true →
  let i' := route_push id p i in
  (∀ id', id' ≠ id → streams i' !! id' = streams i !! id')
  ∧ (∀ h', h' ≠ h → cells i' !! h' = cells i !! h')
  ∧ ∃ c', cells i' !! h = Some c' ∧
    if #(queued (inbound c)) <? capacity_of (inbound c) then
      streams i' !! id = Some h ∧ close_tag c' = REASON_OPEN ∧ frames i' = frames i
      ∧ queued (inbound c') = queued (inbound c) ++ [p]
    else
      streams i' !! id = None ∧ close_tag c' = reason_u8 SlowConsumer
      ∧ tx_alive (inbound c') = false ∧ queued (inbound c') = queued (inbound c)
      ∧ frames i' = (try_send (control CMD_FIN id) (frames i)).2.
Proof.
  intros Hwf Hs Hc Hrx i'. subst i'. unfold route_push. rewrite Hs, Hc.
  destruct (wf_entry _ Hwf _ _ Hs) as (_ & c1 & Hc1 & Htag & _). simplify_eq.
  destruct (try_send p (inbound c)) as [[] q] eqn:Et.
  - destruct (_ <? _) eqn:Ef.
    + apply try_send_inv in Et as (_ & Hq & _). cbn. split_and!; [done|intros; by cell_simpl|].
      eexists. by rewrite lookup_insert_eq.
    + rewrite try_send_full in Et by (done || bool_lia). done.
  - destruct (_ <? _) eqn:Ef.
    + destruct (try_send_ok p (inbound c)) as (? & ? & _); [done|bool_lia|congruence].
    + apply try_send_inv in Et as (_ & _ & ->). unfold post, remove_entry. cbn. rewrite Hs. cbn.
      destruct (drop_tx_spec (inbound c)) as (Hq & _ & _ & Htx).
      split_and!; [intros; by rewrite lookup_delete_ne|intros; by cell_simpl|].
      eexists. rewrite lookup_alter_eq, lookup_insert_eq. split; [done|]. cbn.
      by rewrite lookup_delete_eq.
  - apply try_send_inv in Et as [? _]. congruence.
Qed.

(** Closing the multiplexer is final.  The first reason wins, no stream can be
    opened, writes fail with a broken pipe, reads never wait; a stream that was
    open keeps its undelivered bytes and is tagged with the reason, and one that
    had already ended keeps its own. *)
Theorem close_final i r :
  wf_inner i → is_closed i = false →
  let i' := close r i in
  is_closed i' = true ∧ (∀ r', close r' i' = i')
  ∧ open_stream i' = (Err (Error_SessionClosed [PLit "the smux session is closed"]), i')
  ∧ (∀ buf s, ∃ m, poll_write buf s i' = (BrokenPipeError m, i'))
  ∧ (∀ n s, is_Some (cells i' !! cell s) → (poll_read n s i').1.1 ≠ ReadPending)
  ∧ ∀ h c, cells i !! h = Some c → ∃ c', cells i' !! h = Some c'
      ∧ queued (inbound c') = queued (inbound c)
      ∧ ((∃ id, streams i !! id = Some h) → close_tag c' = reason_u8 r)
      ∧ ((∀ id, streams i !! id ≠ Some h) → c' = c).
Proof.
  intros Hwf Hcl i'. subst i'. unfold close. rewrite Hcl. split_and!; try done.
  - intros buf s. unfold poll_write. cbn [is_closed].
    destruct (write_closed s); eauto.
  - intros n s [c Hc]. unfold poll_read. cbn [cells is_closed set_cells].
    cbn [cells] in Hc. rewrite Hc.
    destruct (read_closed s); [done|]. destruct (partial s); [done|].
    by destruct (poll_recv (inbound c)) as [[] q].
  - intros h c Hc. cbn [cells].
    destruct (decide (h ∈ (map_to_list (streams i)).*2)) as [Hin|Hni].
    + rewrite close_cells_entry, Hc by (done || by apply wf_handles). eexists.
      apply handles_spec in Hin as [id Hid].
      destruct (wf_entry _ Hwf _ _ Hid) as (_ & c1 & Hc1 & Htag & _). simplify_eq.
      destruct (drop_tx_spec (inbound c)) as (Hq & _).
      split_and!; [done|done| |intros Hno; by apply Hno in Hid].
      intros _. unfold hang, tag; cbn. by rewrite Htag.
    + rewrite close_cells_other, Hc by done. exists c. split_and!; try done.
      by intros ?%handles_spec.
Qed.

(** A write puts one frame on the shared queue that the peer decodes to a PSH
    for this stream carrying a prefix of the buffer of at most 32 KiB, non-empty
    if the buffer is; a full queue parks the writer and changes nothing. *)
Theorem write_frames buf s i :
  write_closed s = false → is_closed i = false → in_u 32 (sid s) = true →
  rx_alive (frames i) = true →
  if #(queued (frames i)) <? capacity_of (frames i) then
    ∃ n q, poll_write buf s i = (Wrote n, set_frames i q)
      ∧ n = Z.min (#buf) MAX_FRAME_PAYLOAD ∧ (0 < n ∨ buf = [])
      ∧ ∃ wire, queued q = queued (frames i) ++ [wire]
        ∧ ∀ more, decode_frame (wire ++ more)
            = (DFrame {| cmd := CMD_PSH; stream_id := sid s;
                         frame_payload := take (Z.to_nat n) buf |}, more)
  else poll_write buf s i = (WritePending, i).
Proof.
  intros Hw Hcl Hid Hrx. unfold poll_write. rewrite Hw, Hcl.
  set (n := Z.min (#buf) MAX_FRAME_PAYLOAD).
  assert (Hn : 0 ≤ n ≤ MAX_FRAME_PAYLOAD).
  { pose proof (len_nonneg buf). unfold n, MAX_FRAME_PAYLOAD. lia. }
  set (f := {| cmd := CMD_PSH; stream_id := sid s; frame_payload := take (Z.to_nat n) buf |}).
  change (smux_encode CMD_PSH (sid s) (take (Z.to_nat n) buf)) with (enc f).
  destruct (_ <? _) eqn:Ef.
  - destruct (try_send_ok (enc f) (frames i)) as (q & -> & Hq & _); [done|bool_lia|].
    exists n, q. rewrite Z2Nat.id by lia. split_and!; [done..| |].
    + destruct buf as [|b buf]; [by right|]. left. unfold n. rewrite len_cons.
      pose proof (len_nonneg buf). unfold MAX_FRAME_PAYLOAD. lia.
    + exists (enc f). split; [done|]. intros more. apply decode_enc. split; [done|].
      cbn. rewrite len_take. lia.
  - by rewrite try_send_full by (done || bool_lia).
Qed.

(** An empty PSH frame is queued like any other, and reading it fills nothing:
    the reader sees what [AsyncRead] defines as end of file although the stream
    is open, has no close reason and may have more data queued. *)
Lemma empty_push_reads_as_eof n s i c q :
  read_closed s = false → partial s = None →
  cells i !! cell s = Some c → queued (inbound c) = [] :: q →
  ∃ s' i', poll_read n s i = (ReadReady [], s', i') ∧ close_reason s' i' = None
    ∧ ∃ c', cells i' !! cell s = Some c' ∧ queued (inbound c') = q.
Proof.
  intros Hr Hp Hc Hq. unfold poll_read. rewrite Hr, Hp, Hc.
  destruct (poll_recv_item _ _ _ Hq) as (d & -> & Hd & _).
  rewrite take_nil, drop_nil. eexists _, _. split_and!; [done|done|].
  eexists. cbn. by rewrite lookup_insert_eq.
Qed.
End Mux.

(** ** Witnesses *)

Definition psh (id : Z) (p : list byte) : Frame :=
  {| cmd := CMD_PSH; stream_id := id; frame_payload := p |}.

Definition new_session : Inner (C := Chan) := Inner_new.
Definition one_stream : Inner (C := Chan) := (open_stream new_session).2.
Definition first_stream : SmuxStream :=
  {| sid := 1; cell := 0; partial := None; read_closed := false; write_closed := false |}.

Lemma open_first : open_stream new_session = (Ok first_stream, one_stream).
Proof. reflexivity. Qed.

Lemma wf_one_stream : wf_inner one_stream.
Proof.
  by destruct (open_stream_effect new_session _ _ wf_Inner_new eq_refl open_first).
Qed.

Lemma recv_any_chunking_witness :
  let fs := [psh 1 [x61; x62]; psh 3 []; psh 1 [x63]] in
  let bytes := concat (enc <$> fs) ++ [x01; x02] in
  recv_task [] ((Chunk <$> [take 5 bytes; take 6 (drop 5 bytes); drop 11 bytes]) ++ []) one_stream
  = recv_task [x01; x02] [] (route_all fs one_stream).
Proof.
  intros fs bytes. apply recv_any_chunking; [|reflexivity|reflexivity].
  repeat constructor; unfold fs; vm_compute; congruence.
Defined.

Lemma push_isolated_witness :
  ∃ c', cells (route_push 1 [x61] one_stream) !! 0%nat = Some c'
    ∧ queued (inbound c') = [[x61]].
Proof.
  edestruct (push_isolated 1 [x61] one_stream 0 fresh_cell wf_one_stream)
    as (_ & _ & c' & Hc & Hs); [reflexivity..|].
  exists c'. split; [exact Hc|]. apply Hs.
Defined.

Lemma close_final_witness :
  close Clean (close Desynchronised one_stream) = close Desynchronised one_stream.
Proof.
  by destruct (close_final one_stream Desynchronised wf_one_stream eq_refl) as (_ & H & _).
Defined.

Lemma write_frames_witness :
  ∃ q, poll_write [x61; x62] first_stream one_stream = (Wrote 2, set_frames one_stream q).
Proof.
  destruct (write_frames [x61; x62] first_stream one_stream) as (n & q & Hw & Hn & _);
    [reflexivity..|].
  exists q. rewrite Hw, Hn. reflexivity.
Defined.
