(* ===== verification/SmuxStreams.v ===== *)
(** * The streams of a multiplexer that is being closed (src/mux.rs)

    [Inner::close] sets its flag, wakes the tasks, and only then takes the table away;
    [poll_read] looks at a stream's queue and then at the flag.  [Mux] does either at
    once.  Here are the parts, and what survives between them: a reader may be told end
    of file while frames for its stream still arrive, but has at any time been handed a
    prefix of what was pushed to it. *)

From S2P Require Import Prelude RustStd Interfaces Errors Mux.

Section SmuxStreams.
Context {C : Type → Type} `{Mpsc C}.
Implicit Types (i : Inner (C := C)) (s o : SmuxStream) (c : Cell (C := C)).

Definition set_read_closed s : SmuxStream :=
  {| sid := sid s; cell := cell s; partial := partial s; read_closed := true;
     write_closed := write_closed s |}.

(** [self.closed.swap(true)]. *)
Definition mark_closed i : Inner (C := C) :=
  {| streams := streams i; cells := cells i; next_cell := next_cell i; frames := frames i;
     next_id := next_id i; is_closed := true |}.

(** The tags of the streams, and [streams.clear()]. *)
Definition clear (reason : StreamCloseReason) i : Inner (C := C) :=
  {| streams := ∅;
     cells := foldr (λ h, alter (λ c, hang (tag reason c)) h) (cells i)
                (map_to_list (streams i)).*2;
     next_cell := next_cell i; frames := frames i; next_id := next_id i;
     is_closed := is_closed i |}.

(** With nothing between them they are [Mux.close]. *)
Lemma close_parts r i : is_closed i = false → clear r (mark_closed i) = close r i.
Proof. intros Hi. unfold close. by rewrite Hi. Qed.

(** [AsyncRead::poll_read] in two parts: what the queue holds, and if it holds nothing,
    the flag. *)
Definition poll_queue (n : nat) s i : option PollRead * SmuxStream * Inner (C := C) :=
  let with_partial p :=
    {| sid := sid s; cell := cell s; partial := p; read_closed := read_closed s;
       write_closed := write_closed s |} in
  let keep rest := match rest with [] => None | _ => Some rest end in
  if read_closed s then (Some (ReadReady []), s, i)
  else match partial s with
  | Some chunk => (Some (ReadReady (take n chunk)), with_partial (keep (drop n chunk)), i)
  | None =>
    match cells i !! cell s with
    | None => (Some ReadPending, s, i)
    | Some c =>
      let '(r, q) := poll_recv (inbound c) in
      let i' := set_cells i (<[cell s := {| inbound := q; close_tag := close_tag c |}]> (cells i)) in
      match r with
      | Item chunk => (Some (ReadReady (take n chunk)), with_partial (keep (drop n chunk)), i')
      | Ended => (Some (ReadReady []), set_read_closed s, i')
      | Pending_ => (None, s, i')
      end
    end
  end.
Definition poll_flag s i : PollRead * SmuxStream :=
  if is_closed i then (ReadReady [], set_read_closed s) else (ReadPending, s).

Lemma poll_read_parts n s i :
  poll_read n s i =
    let '(r, s1, i1) := poll_queue n s i in
    match r with Some b => (b, s1, i1) | None => (poll_flag s1 i1, i1) end.
Proof.
  unfold poll_read, poll_queue, poll_flag, set_read_closed. destruct (read_closed s); [done|].
  destruct (partial s) eqn:Ep; [done|]. destruct (cells i !! cell s) as [c|]; [|done].
  destruct (poll_recv (inbound c)) as [[x| |] q]; [done..|]. cbn. rewrite Ep. by destruct (is_closed i).
Qed.

(** The bytes this part has given the caller. *)
Definition read_bytes (r : option PollRead) : list byte := from_option bytes_of [] r.

(** ** The table, whatever the flag says *)

Definition unclosed i : Inner (C := C) :=
  {| streams := streams i; cells := cells i; next_cell := next_cell i; frames := frames i;
     next_id := next_id i; is_closed := false |}.
Definition wf_table i : Prop := wf_inner (unclosed i).

(** The bytes pushed to a stream by a sequence of frames. *)
Definition pushed (id : Z) (fs : list Frame) : list byte :=
  concat ((λ f, if decide (cmd f = CMD_PSH ∧ stream_id f = id) then frame_payload f else []) <$> fs).

Lemma pushed_snoc id fs f :
  pushed id (fs ++ [f])
  = pushed id fs ++ if decide (cmd f = CMD_PSH ∧ stream_id f = id) then frame_payload f else [].
Proof. unfold pushed. rewrite fmap_app, concat_app. cbn. by rewrite app_nil_r. Qed.

(** A stream that has read [got] out of [sent]. *)
Record linked i s (got sent : list byte) : Prop := {
  ln_id : sid s < next_id i;
  ln_own id : streams i !! id = Some (cell s) → id = sid s;
  ln_cell : ∃ c, cells i !! cell s = Some c
    ∧ (streams i !! sid s = Some (cell s) → got ++ pend s c = sent)
    ∧ got ++ pend s c `prefix_of` sent }.

Context `{!MpscOk C}.

(** An operation that leaves the stream's cell alone and gives it no entry. *)
Lemma linked_apart i i' s got sent more :
  linked i s got sent → next_id i ≤ next_id i' → cells i' !! cell s = cells i !! cell s →
  (∀ id, streams i' !! id = Some (cell s) → streams i !! id = Some (cell s)) →
  (streams i' !! sid s = Some (cell s) → more = []) → linked i' s got (sent ++ more).
Proof.
  intros [Hid Hown (c & Hc & Hr & Hp)] Hn Hcs Hs Hm. split; [lia|by eauto|].
  exists c. rewrite Hcs. split_and!; [done| |by apply prefix_app_r].
  intros Hreg. rewrite (Hm Hreg), app_nil_r. auto.
Qed.

Lemma linked_same i i' s got sent :
  linked i s got sent → next_id i ≤ next_id i' → cells i' !! cell s = cells i !! cell s →
  (∀ id, streams i' !! id = Some (cell s) → streams i !! id = Some (cell s)) → linked i' s got sent.
Proof. intros Hl Hn Hc Hs. rewrite <- (app_nil_r sent). by eapply linked_apart. Qed.

(** Taking entries out of the table leaves what their streams have queued. *)
Lemma linked_hang i i' s got sent more c' :
  linked i s got sent → next_id i ≤ next_id i' → cells i' !! cell s = Some c' →
  (∀ c, cells i !! cell s = Some c → queued (inbound c') = queued (inbound c)) →
  (∀ id, streams i' !! id ≠ Some (cell s)) → linked i' s got (sent ++ more).
Proof.
  intros [Hid Hown (c & Hc & Hr & Hp)] Hn Hc' Hq Hs. split; [lia|by intros id ?%Hs|].
  exists c'. split_and!; [done|by intros ?%Hs|].
  unfold pend in *. rewrite (Hq c Hc). by apply prefix_app_r.
Qed.

Lemma linked_remove id i s got sent more :
  linked i s got sent → (streams (remove_entry id i) !! sid s = Some (cell s) → more = []) →
  linked (remove_entry id i) s got (sent ++ more).
Proof.
  intros Hl. pose proof (remove_entry_streams i id) as Hst. intros Hm.
  destruct (remove_entry_counters i id) as (Hn & _ & _).
  destruct (decide (streams i !! id = Some (cell s))) as [Hid|Hid].
  - pose proof (ln_cell _ _ _ _ Hl) as (c & Hc & _).
    apply (linked_hang i _ _ _ _ _ (hang c)); [done|lia| | |].
    + unfold remove_entry. rewrite Hid. cbn. by rewrite lookup_alter_eq, Hc.
    + intros c0 Hc0. replace c0 with c by congruence. cbn. by destruct (drop_tx_spec (inbound c)).
    + intros id'. rewrite Hst. intros [Hne Hid']%lookup_delete_Some.
      apply Hne. by rewrite (ln_own _ _ _ _ Hl _ Hid), (ln_own _ _ _ _ Hl _ Hid').
  - apply (linked_apart i); [done|lia|by apply remove_entry_other| |done].
    intros id'. rewrite Hst. by intros [_ ?]%lookup_delete_Some.
Qed.

(** ** The operations *)

(** The cell of another stream. *)
Ltac far := cbn; rewrite ?lookup_alter_ne, ?lookup_insert_ne by done; done.

(** A new tag on a cell. *)
Lemma linked_cells i m s got sent :
  (∀ c, cells i !! cell s = Some c → ∃ c', m !! cell s = Some c' ∧ queued (inbound c') = queued (inbound c)) →
  linked i s got sent → linked (set_cells i m) s got sent.
Proof.
  intros Hm [Hid Hown (c & Hc & Hr & Hp)]. split; [done|done|].
  destruct (Hm c Hc) as (c' & Hc' & Hq). exists c'. unfold pend in *. by rewrite Hq.
Qed.

Lemma linked_push id p i s got sent :
  linked i s got sent →
  linked (route_push id p i) s got (sent ++ if decide (sid s = id) then p else []).
Proof.
  intros Hl. pose proof Hl as [Hid Hown (c & Hc & Hr & Hp)].
  assert (Hout : (streams i !! sid s = Some (cell s) → sid s ≠ id) → streams i !! sid s = Some (cell s) →
    (if decide (sid s = id) then p else []) = []) by (intros Hn Hs; rewrite decide_False; auto).
  unfold route_push. destruct (streams i !! id) as [h|] eqn:E.
  2: { apply (linked_apart i); [done|cbn; lia|done|done|]. apply Hout. congruence. }
  destruct (decide (h = cell s)) as [->|Hne].
  - rewrite Hc. apply Hown in E as E'. subst id. rewrite decide_True by done.
    assert (Hgone : ∀ c', queued (inbound c') = queued (inbound c) →
      linked (remove_entry (sid s) (set_cells i (<[cell s := c']> (cells i)))) s got (sent ++ p)).
    { intros c' Hq. apply linked_remove.
      - apply linked_cells; [|done]. intros c0 Hc0. exists c'. rewrite lookup_insert_eq. split; [done|congruence].
      - rewrite remove_entry_streams, lookup_delete_eq. done. }
    destruct (try_send p (inbound c)) as [v q] eqn:Et. apply try_send_inv in Et. destruct v.
    + destruct Et as (_ & Hq & _). split; [done|done|]. cbn. eexists. rewrite lookup_insert_eq.
      split; [done|]. assert (Hg : got ++ pend s {| inbound := q; close_tag := close_tag c |} = sent ++ p).
      { rewrite <- (Hr E). unfold pend. cbn. rewrite Hq, concat_app, <- !app_assoc. cbn. by rewrite app_nil_r. }
      by rewrite Hg.
    + destruct Et as (_ & _ & ->). eapply linked_same;
        [by apply (Hgone {| inbound := inbound c; close_tag := reason_u8 SlowConsumer |})|cbn; lia|done|done].
    + destruct Et as (_ & ->). by apply Hgone.
  - specialize (Hout ltac:(intros Hs Hx; congruence)).
    destruct (cells i !! h) as [c0|]; [|apply (linked_apart i); auto; lia].
    destruct (try_send p (inbound c0)) as [[] q]; unfold post, remove_entry; cbn; rewrite ?E;
      (apply (linked_apart i); [done|cbn; lia|by far|cbn|cbn]); auto;
      try (by intros ? [_ ?]%lookup_delete_Some); intros Hs; apply Hout;
      by apply lookup_delete_Some in Hs as [_ ?].
Qed.

Lemma linked_fin id i s got sent : linked i s got sent → linked (route_fin id i) s got sent.
Proof.
  intros Hl. unfold route_fin. destruct (streams i !! id) as [h|] eqn:E; [|done].
  rewrite <- (app_nil_r sent). apply linked_remove; [|done]. apply linked_cells; [|done]. intros c Hc.
  destruct (decide (h = cell s)) as [->|]; [exists (tag Clean c)|exists c; by rewrite lookup_alter_ne].
  by rewrite lookup_alter_eq, Hc.
Qed.

Lemma linked_route f i s got sent :
  linked i s got sent →
  linked (route_frame f i) s got
    (sent ++ if decide (cmd f = CMD_PSH ∧ stream_id f = sid s) then frame_payload f else []).
Proof.
  intros Hl. unfold route_frame. destruct (decide (cmd f = CMD_PSH)) as [Hc|Hc].
  - pose proof (linked_push (stream_id f) (frame_payload f) _ _ _ _ Hl) as Hp.
    destruct (decide (sid s = stream_id f)) as [Hs|Hs], (decide (cmd f = CMD_PSH ∧ _)) as [[_ Hy]|Hy];
      try exact Hp; [by destruct Hy|by destruct Hs].
  - rewrite (decide_False (P := _ ∧ _)), app_nil_r by (by intros []). destruct (decide _); [by apply linked_fin|done].
Qed.

Lemma linked_read n i s got sent r s' i' :
  linked i s got sent → poll_queue n s i = (r, s', i') →
  linked i' s' (got ++ read_bytes r) sent ∧ cell s' = cell s ∧ sid s' = sid s.
Proof.
  intros [Hid Hown (c & Hc & Hr & Hp)]. unfold poll_queue.
  assert (Hl : ∀ q p rc wc bs, bs ++ default [] p ++ concat (queued q) = pend s c →
    linked (set_cells i (<[cell s := {| inbound := q; close_tag := close_tag c |}]> (cells i)))
      {| sid := sid s; cell := cell s; partial := p; read_closed := rc; write_closed := wc |} (got ++ bs) sent).
  { intros q p rc wc bs Hb. split; [done|done|]. cbn [cells cell sid set_cells streams].
    eexists. rewrite lookup_insert_eq. split; [done|].
    match goal with |- (_ → ?l = _) ∧ _ => assert (Hl : l = got ++ pend s c) end.
    { unfold pend at 1. cbn. by rewrite <- Hb, <- !app_assoc. }
    by rewrite Hl. }
  assert (Hk : set_cells i (<[cell s := {| inbound := inbound c; close_tag := close_tag c |}]> (cells i)) = i).
  { destruct i, c. cbn in *. by rewrite insert_id. }
  destruct (read_closed s) eqn:Erc.
  { intros [= <- <- <-]. split; [|done]. cbn. rewrite app_nil_r. split; eauto. }
  destruct (partial s) as [chunk|] eqn:Ep.
  { intros [= <- <- <-]. split; [|done]. rewrite <- Hk at 1. apply Hl. rewrite keep_rest. unfold pend.
    rewrite Ep. cbn. by rewrite app_assoc, take_drop. }
  rewrite Hc. destruct (poll_recv (inbound c)) as [v q] eqn:Eq. apply poll_recv_inv in Eq.
  assert (Hpend : pend s c = concat (queued (inbound c))) by (unfold pend; by rewrite Ep).
  destruct v as [chunk| |].
  - destruct Eq as (Hq & _). intros [= <- <- <-]. split; [|done]. apply Hl.
    rewrite Hpend, Hq, keep_rest. cbn. by rewrite app_assoc, take_drop.
  - destruct Eq as (_ & _ & ->). intros [= <- <- <-]. split; [|done]. apply Hl. by rewrite Ep, Hpend.
  - destruct Eq as (_ & _ & ->). rewrite Hk. intros [= <- <- <-]. split; [|done]. cbn.
    rewrite app_nil_r. split; eauto.
Qed.

Lemma linked_read_other n o i s got sent :
  cell o ≠ cell s → linked i s got sent → linked (poll_queue n o i).2 s got sent.
Proof.
  intros Hne Hl. unfold poll_queue. repeat case_match; simplify_eq; try done;
    (eapply linked_same; [done|cbn; lia|by far|done]).
Qed.

Lemma linked_drop_other o i s got sent :
  cell o ≠ cell s → linked i s got sent → linked (drop_stream o i) s got sent.
Proof.
  intros Hne Hl. unfold drop_stream. set (i1 := if write_closed o then i else _).
  assert (Hl1 : linked i1 s got sent).
  { unfold i1. destruct (write_closed o); [done|]. eapply linked_same; [done|cbn; lia|done|done]. }
  apply (linked_same (remove_entry (sid o) i1)); [|cbn; lia|by far|done]. rewrite <- (app_nil_r sent). by apply linked_remove.
Qed.

Lemma linked_clear r i s got sent : linked i s got sent → linked (clear r i) s got sent.
Proof.
  intros Hl. pose proof (ln_cell _ _ _ _ Hl) as (c & Hc & _).
  assert (Hf : ∃ c', cells (clear r i) !! cell s = Some c' ∧ queued (inbound c') = queued (inbound c)).
  { cbn. induction (map_to_list (streams i)).*2 as [|h hs (c' & Hc' & Hq)]; cbn; [by exists c|].
    destruct (decide (h = cell s)) as [->|]; [|exists c'; by rewrite lookup_alter_ne].
    exists (hang (tag r c')). rewrite lookup_alter_eq, Hc'. split; [done|]. cbn.
    by destruct (drop_tx_spec (inbound c')) as [-> _]. }
  destruct Hf as (c' & Hc' & Hq). rewrite <- (app_nil_r sent).
  apply (linked_hang i _ _ _ _ _ c'); try done. intros c0 Hc0. congruence.
Qed.

(** ** Opening *)

Lemma linked_open i s got sent :
  wf_table i → next_id i + 2 < 2 ^ 32 → linked i s got sent → linked (open_stream i).2 s got sent.
Proof.
  intros Hwf Hn Hl. destruct (is_closed i) eqn:Hcl; [unfold open_stream; by rewrite Hcl|].
  assert (Hi : unclosed i = i) by (destruct i; cbn in *; by subst). unfold wf_table in Hwf. rewrite Hi in Hwf.
  destruct (open_stream i) as [r i'] eqn:Eo. cbn.
  destruct (open_stream_effect _ _ _ Hwf Hn Eo) as (_ & Hcs & _ & Hid & _).
  pose proof (ln_cell _ _ _ _ Hl) as (c & Hc & _).
  assert (cell s ≠ next_cell i) by (pose proof (wf_cells _ Hwf (cell s) (mk_is_Some _ _ Hc)); lia).
  apply (linked_same i); [done|lia|by apply Hcs|]. intros id. by eapply open_stream_others.
Qed.

Lemma linked_opened i s i' :
  wf_table i → next_id i + 2 < 2 ^ 32 → open_stream i = (Ok s, i') →
  linked i' s [] [] ∧ cell s = next_cell i.
Proof.
  intros Hwf Hn Eo. destruct (is_closed i) eqn:Hcl; [unfold open_stream in Eo; by rewrite Hcl in Eo|].
  assert (Hi : unclosed i = i) by (destruct i; cbn in *; by subst). unfold wf_table in Hwf. rewrite Hi in Hwf.
  destruct (view_opened _ _ _ Hwf Hn Eo) as [_ Hid _ Hown (c & Hc & _ & _ & Hst)]. cbn in *.
  destruct (open_stream_effect _ _ _ Hwf Hn Eo) as (_ & _ & _ & _ & _ & Hs).
  split; [|by destruct (Hs s eq_refl) as (-> & _)]. split; [done|done|]. exists c. split; [done|].
  destruct Hst as [_ _ _ Hp|_ _ _ _ _ Hp|_ _ _ Hp]; cbn in Hp; [by rewrite Hp..|].
  apply prefix_nil_inv in Hp. by rewrite Hp.
Qed.

(** ** The table is well formed throughout *)

Lemma wf_table_new : wf_table Inner_new.
Proof. apply wf_Inner_new. Qed.

Lemma unclosed_route f i : route_frame f (unclosed i) = unclosed (route_frame f i).
Proof.
  unfold route_frame, route_push, route_fin, remove_entry, post. cbn.
  repeat case_match; cbn in *; simplify_eq; done.
Qed.

Lemma closed_route f i : is_closed (route_frame f i) = is_closed i.
Proof.
  unfold route_frame, route_push, route_fin, post.
  repeat case_match; cbn; rewrite ?(proj2 (proj2 (remove_entry_counters _ _))); done.
Qed.

Lemma wf_table_route f i : wf_table i → wf_table (route_frame f i).
Proof.
  intros Hwf%(wf_route_frame _ f). unfold wf_table. by rewrite <- unclosed_route.
Qed.

Lemma wf_table_open i : wf_table i → next_id i + 2 < 2 ^ 32 → wf_table (open_stream i).2.
Proof.
  intros Hwf Hn. destruct (is_closed i) eqn:Hcl; [unfold open_stream; by rewrite Hcl|].
  assert (Hi : unclosed i = i) by (destruct i; cbn in *; by subst). unfold wf_table in *. rewrite Hi in Hwf.
  destruct (open_stream i) as [r i'] eqn:Eo. cbn.
  destruct (open_stream_effect _ _ _ Hwf Hn Eo) as ([He Hc Hj Ho _] & _). by split.
Qed.

Lemma wf_table_read n s i : wf_table i → wf_table (poll_queue n s i).2.
Proof.
  intros Hwf. unfold poll_queue. destruct (read_closed s); [done|]. destruct (partial s); [done|].
  destruct (cells i !! cell s) as [c|] eqn:Hc; [|done].
  destruct (poll_recv (inbound c)) as [v q] eqn:Eq. apply poll_recv_inv in Eq.
  assert (Hg : wf_table (set_cells i (<[cell s := {| inbound := q; close_tag := close_tag c |}]> (cells i)))).
  { apply (wf_set_cell (unclosed i) (cell s) c); [done|done|]. cbn.
    destruct v; destruct_and?; subst; intuition congruence. }
  by destruct v.
Qed.

Lemma wf_table_drop s i : wf_table i → wf_table (drop_stream s i).
Proof.
  intros Hwf. unfold drop_stream. set (i1 := if write_closed s then i else _).
  assert (Hwf1 : wf_table i1) by (unfold i1; destruct (write_closed s); [done|by apply (wf_set_frames (unclosed i))]).
  apply (wf_remove_entry _ (sid s)) in Hwf1.
  assert (Hwf2 : wf_table (remove_entry (sid s) i1)).
  { revert Hwf1. unfold wf_table, remove_entry. cbn. by destruct (streams i1 !! sid s). }
  exact (wf_drop_receiver _ (cell s) Hwf2).
Qed.

Lemma wf_table_clear r i : wf_table i → wf_table (clear r i).
Proof.
  intros Hwf%(wf_close _ r). destruct Hwf as [_ Hc _ Ho _]. split; try done.
Qed.

Lemma open_next_id i :
  wf_table i → next_id i + 2 < 2 ^ 32 → next_id (open_stream i).2 ≤ next_id i + 2.
Proof.
  intros Hwf Hn. destruct (is_closed i) eqn:Hcl; [unfold open_stream; rewrite Hcl; cbn; lia|].
  assert (Hi : unclosed i = i) by (destruct i; cbn in *; by subst). unfold wf_table in Hwf. rewrite Hi in Hwf.
  destruct (open_stream i) as [r i'] eqn:Eo.
  destruct (open_stream_effect _ _ _ Hwf Hn Eo) as (_ & _ & _ & ? & _). cbn. lia.
Qed.

(** Only [open_stream] takes identifiers. *)
Lemma route_next_id f i : next_id (route_frame f i) = next_id i.
Proof.
  unfold route_frame, route_push, route_fin, post. repeat case_match; cbn; try done;
    unfold remove_entry; cbn; by repeat case_match.
Qed.
Lemma read_next_id n s i : next_id (poll_queue n s i).2 = next_id i.
Proof. unfold poll_queue. by repeat case_match; simplify_eq. Qed.
Lemma read_frames n s i : frames (poll_queue n s i).2 = frames i.
Proof. unfold poll_queue. by repeat case_match; simplify_eq. Qed.
Lemma drop_next_id s i : next_id (drop_stream s i) = next_id i.
Proof. unfold drop_stream, remove_entry. cbn. by repeat case_match; simplify_eq. Qed.

(** What reading does not look at. *)
Lemma linked_stream i s s' got sent :
  sid s' = sid s → cell s' = cell s → partial s' = partial s → linked i s got sent → linked i s' got sent.
Proof.
  intros Hs Hc Hp [Hid Hown (c & Hcc & Hr)]. split; rewrite ?Hs, ?Hc; [done..|].
  exists c. unfold pend in *. by rewrite Hp.
Qed.

(** The frame queue is nothing to a stream's reader. *)
Lemma linked_frames q i s got sent : linked i s got sent → linked (set_frames i q) s got sent.
Proof. intros Hl. eapply linked_same; [done|cbn; lia|done|done]. Qed.

Lemma wf_table_frames q i : wf_table i → wf_table (set_frames i q).
Proof. apply (wf_set_frames (unclosed i)). Qed.

(** Writing and half-closing touch the frame queue only. *)
Lemma poll_write_frames buf s i : ∃ q, (poll_write buf s i).2 = set_frames i q.
Proof.
  assert (Hid : set_frames i (frames i) = i) by by destruct i.
  unfold poll_write. destruct (write_closed s); [by exists (frames i)|].
  destruct (is_closed i); [by exists (frames i)|].
  destruct (try_send _ _) as [[] q]; [by exists q|by exists (frames i)..].
Qed.

Lemma poll_shutdown_frames s i :
  ∃ q, (poll_shutdown s i).2 = set_frames i q.
Proof.
  unfold poll_shutdown. destruct (write_closed s); [exists (frames i); by destruct i|].
  destruct (try_send _ _) as [[] q]; [by exists q|exists (frames i); by destruct i..].
Qed.

(** ** One stream, in parts *)

(** What happens after a stream was opened: [Mux.event] with the close and the reads in
    their parts. *)
Inductive part :=
| PtFrame (f : Frame)
| PtQueue (n : nat)                  (* [poll_read] looks at the queue *)
| PtFlag                             (* and, having found nothing, at the flag *)
| PtShutdown
| PtMark                             (* [close] sets the flag *)
| PtClear (r : StreamCloseReason)    (* and takes the table away *)
| PtOpen
| PtWrite (o : SmuxStream) (buf : list byte)
| PtKeepalive
| PtOtherQueue (n : nat) (o : SmuxStream)
| PtOtherDrop (o : SmuxStream).

(** The stream and its history ([Mux.View]), whether its reader is between the two looks,
    and whether it was the queue that told it the end. *)
Record Parts := { w_view : View (C := C); w_reading : bool; w_ended : bool }.

Definition parts_opened s i : Parts :=
  {| w_view := opened s i; w_reading := false; w_ended := false |}.

Definition inner_of (w : Parts) : Inner (C := C) := v_i (w_view w).
Definition set_view (w : Parts) (v : View (C := C)) : Parts :=
  {| w_view := v; w_reading := w_reading w; w_ended := w_ended w |}.

Definition part_step (w : Parts) (e : part) : Parts :=
  let v := w_view w in let i := v_i v in let s := v_s v in
  match e with
  | PtFrame f => set_view w (view_step v (EvFrame f))
  | PtQueue n =>
    if w_reading w then w
    else let '(r, s', i') := poll_queue n s i in
         {| w_view := {| v_i := i'; v_s := s'; v_got := v_got v ++ read_bytes r;
                         v_sent := v_sent v; v_live := v_live v |};
            w_reading := negb (bool_decide (is_Some r));
            w_ended := w_ended w || (read_closed s' && negb (read_closed s)) |}
  | PtFlag =>
    if w_reading w then
      {| w_view := {| v_i := i; v_s := (poll_flag s i).2; v_got := v_got v;
                      v_sent := v_sent v; v_live := v_live v |};
         w_reading := false; w_ended := w_ended w |}
    else w
  | PtShutdown => set_view w (view_step v EvShutdown)
  | PtMark => set_view w (set_inner v (mark_closed i))
  | PtClear r =>
    if is_closed i then
      set_view w {| v_i := clear r i; v_s := s; v_got := v_got v; v_sent := v_sent v;
                    v_live := false |}
    else w
  | PtOpen => set_view w (view_step v EvOpen)
  | PtWrite o buf => set_view w (view_step v (EvWrite o buf))
  | PtKeepalive => set_view w (view_step v EvKeepalive)
  | PtOtherQueue n o =>
    if decide (is_other o s) then set_view w (set_inner v (poll_queue n o i).2) else w
  | PtOtherDrop o => set_view w (view_step v (EvOtherDrop o))
  end.
Definition parts_run (w : Parts) (es : list part) : Parts := foldl part_step w es.

Fixpoint part_opens (es : list part) : Z :=
  match es with
  | [] => 0
  | PtOpen :: es => 1 + part_opens es
  | _ :: es => part_opens es
  end.

(** The same stream in a multiplexer whose flag nobody set, knowing of an end only what
    the queue said: its reads and closes are those of [Mux]. *)
Definition quiet_stream (ended : bool) s : SmuxStream :=
  {| sid := sid s; cell := cell s; partial := partial s; read_closed := ended;
     write_closed := write_closed s |}.
Definition quiet_view (w : Parts) : View (C := C) :=
  let v := w_view w in
  {| v_i := unclosed (v_i v); v_s := quiet_stream (w_ended w) (v_s v); v_got := v_got v;
     v_sent := v_sent v; v_live := v_live v |}.

Record parts_inv (w : Parts) : Prop := {
  pi_view : view_inv (quiet_view w);
  pi_ended : w_ended w = true → read_closed (v_s (w_view w)) = true;
  pi_flag : read_closed (v_s (w_view w)) = true → w_ended w = true ∨ is_closed (inner_of w) = true;
  pi_reading : w_reading w = true → read_closed (v_s (w_view w)) = false }.

Lemma unclosed_drop s i : drop_stream s (unclosed i) = unclosed (drop_stream s i).
Proof.
  unfold drop_stream, remove_entry, post. cbn. repeat case_match; cbn in *; simplify_eq; done.
Qed.

Lemma unclosed_open i : is_closed i = false → unclosed i = i.
Proof. intros Hc. destruct i. cbn in *. by subst. Qed.

(** The flag is nothing to the invariant of a stream. *)
Lemma view_inv_unclosed (v : View (C := C)) : view_inv v → view_inv (set_inner v (unclosed (v_i v))).
Proof.
  intros Hv. apply view_inv_frame; try done. destruct (vi_wf _ Hv) as [? ? ? ? _]. by split.
Qed.

Lemma poll_queue_unclosed n s i :
  let '(r, s', i') := poll_queue n s i in
  poll_read n s (unclosed i) = (default ReadPending r, s', unclosed i').
Proof.
  unfold poll_queue, poll_read, set_read_closed. destruct (read_closed s); [done|].
  destruct (partial s) eqn:Ep; [done|]. cbn. destruct (cells i !! cell s) as [c|]; [|done].
  by destruct (poll_recv (inbound c)) as [[x| |] q].
Qed.

(** A step that is one of [Mux]'s for the quiet view, and does not touch the reader. *)
Lemma parts_inv_step w v :
  parts_inv w → v_s v = v_s (w_view w) ∨ (∃ b, v_s v = {| sid := sid (v_s (w_view w));
    cell := cell (v_s (w_view w)); partial := partial (v_s (w_view w));
    read_closed := read_closed (v_s (w_view w)); write_closed := b |}) →
  (is_closed (inner_of w) = true → is_closed (v_i v) = true) →
  view_inv (quiet_view (set_view w v)) → parts_inv (set_view w v).
Proof.
  intros [Hv He Hf Hr] Hs Hc Hq.
  assert (read_closed (v_s v) = read_closed (v_s (w_view w))) as Hrc
    by (destruct Hs as [->|[b ->]]; done).
  split; cbn; rewrite ?Hrc; auto. intros [|]%Hf; auto.
Qed.

Lemma parts_frame w f : parts_inv w → parts_inv (part_step w (PtFrame f)).
Proof.
  intros Hw. apply parts_inv_step; [done|by left| |].
  { change (is_closed (inner_of w) = true → is_closed (route_frame f (inner_of w)) = true).
    by rewrite closed_route. }
  pose proof (view_frame _ f (pi_view _ Hw)) as Hq. cbn in Hq. rewrite unclosed_route in Hq. exact Hq.
Qed.

Lemma parts_queue w n : parts_inv w → parts_inv (part_step w (PtQueue n)).
Proof.
  intros Hw. pose proof Hw as [Hv He Hf Hr]. cbn. destruct (w_reading w) eqn:Ew; [done|].
  destruct (read_closed (v_s (w_view w))) eqn:Erc.
  - unfold poll_queue. rewrite Erc. cbn. rewrite Erc, app_nil_r, orb_false_r.
    destruct w as [[i s got sent live] rd en]. cbn in *. subst rd.
    exact Hw.
  - pose proof (poll_queue_unclosed n (v_s (w_view w)) (inner_of w)) as Hq.
    pose proof (view_read _ n Hv) as Hv'. cbn in Hv'. unfold inner_of in *.
    assert (w_ended w = false) as Een by (destruct (w_ended w); [by specialize (He eq_refl)|done]).
    assert (quiet_stream (w_ended w) (v_s (w_view w)) = v_s (w_view w)) as Hs.
    { rewrite Een, <- Erc. by destruct (v_s (w_view w)). }
    rewrite Hs in Hv'. destruct (poll_queue n _ _) as [[r s'] i'] eqn:Eq. rewrite Hq in Hv'.
    assert (is_closed i' = is_closed (v_i (w_view w))) as Hcl.
    { unfold poll_queue in Eq. repeat case_match; by simplify_eq. }
    assert (r = None → read_closed s' = false) as Hno.
    { unfold poll_queue in Eq. intros ->. repeat case_match; by simplify_eq. }
    cbn. rewrite Een, andb_true_r. cbn. split; cbn.
    + unfold quiet_view. cbn. replace (quiet_stream (read_closed s') s') with s' by by destruct s'.
      destruct r as [[]|]; exact Hv'.
    + done.
    + auto.
    + intros Hrd. apply Hno. destruct r; [|done]. by rewrite bool_decide_true in Hrd by eauto.
Qed.

Lemma parts_flag w : parts_inv w → parts_inv (part_step w PtFlag).
Proof.
  intros Hw. pose proof Hw as [Hv He Hf Hr]. cbn. destruct (w_reading w) eqn:Ew; [|done].
  unfold poll_flag. destruct (is_closed (v_i (w_view w))) eqn:Ec; by split; cbn; auto.
Qed.

Lemma parts_shutdown w : parts_inv w → parts_inv (part_step w PtShutdown).
Proof.
  intros Hw. pose proof (view_shutdown _ (pi_view _ Hw)) as Hv. cbn in *. revert Hv.
  unfold poll_shutdown. cbn. destruct (write_closed (v_s (w_view w))) eqn:Ewc; cbn.
  { intros Hv. apply parts_inv_step; auto. }
  destruct (try_send _ _) as [[] q]; intros Hv; (apply parts_inv_step; [done| |done|exact Hv]);
    cbn; eauto.
Qed.

Lemma parts_clear w r : parts_inv w → parts_inv (part_step w (PtClear r)).
Proof.
  intros Hw. cbn. destruct (is_closed (v_i (w_view w))) eqn:Ec; [|done].
  apply parts_inv_step; [done|by left|by cbn|].
  pose proof (view_inv_unclosed _ (view_close _ r (pi_view _ Hw))) as Hv. exact Hv.
Qed.

Lemma parts_open w :
  parts_inv w → next_id (inner_of w) + 2 < 2 ^ 32 → parts_inv (part_step w PtOpen).
Proof.
  intros Hw Hn.
  change (parts_inv (set_view w (set_inner (w_view w) (open_stream (v_i (w_view w))).2))).
  destruct (is_closed (v_i (w_view w))) eqn:Ec.
  - unfold open_stream. rewrite Ec. cbn. rewrite set_inner_id. by destruct w.
  - apply parts_inv_step; [done|by left|unfold inner_of; congruence|].
    pose proof (view_open _ (pi_view _ Hw) Hn) as Hv.
    change (view_inv (set_inner (quiet_view w) (open_stream (unclosed (v_i (w_view w)))).2)) in Hv.
    rewrite unclosed_open in Hv by done. exact (view_inv_unclosed _ Hv).
Qed.

Lemma parts_frames w i q :
  parts_inv w → i = set_frames (inner_of w) q → parts_inv (set_view w (set_inner (w_view w) i)).
Proof.
  intros Hw ->. apply parts_inv_step; [done|by left|done|].
  exact (view_inv_frames _ q (pi_view _ Hw)).
Qed.

Lemma parts_other_queue w n o : parts_inv w → parts_inv (part_step w (PtOtherQueue n o)).
Proof.
  intros Hw. cbn. case_decide as Ho; [|done].
  pose proof (view_other_read _ n o (pi_view _ Hw)) as Hv. cbn in Hv.
  rewrite decide_True in Hv by exact Ho.
  pose proof (poll_queue_unclosed n o (v_i (w_view w))) as Hq.
  destruct (poll_queue n o (v_i (w_view w))) as [[r s'] i'] eqn:Eq. rewrite Hq in Hv.
  apply parts_inv_step; [done|by left| |exact Hv].
  unfold poll_queue in Eq. cbn. by repeat case_match; simplify_eq.
Qed.

Lemma parts_other_drop w o : parts_inv w → parts_inv (part_step w (PtOtherDrop o)).
Proof.
  intros Hw. pose proof (view_other_drop _ o (pi_view _ Hw)) as Hv. cbn in *. revert Hv.
  change (is_other o (quiet_stream (w_ended w) (v_s (w_view w)))) with (is_other o (v_s (w_view w))).
  case_decide as Ho; intros Hv.
  - rewrite decide_True by done. rewrite unclosed_drop in Hv.
    apply parts_inv_step; [done|by left| |exact Hv]. cbn. unfold drop_stream, remove_entry, post.
    by repeat case_match; cbn in *; simplify_eq.
  - rewrite decide_False by done. by destruct w.
Qed.

Lemma part_step_inv w e :
  parts_inv w → next_id (inner_of w) + 2 * part_opens [e] < 2 ^ 32 →
  parts_inv (part_step w e)
  ∧ next_id (inner_of (part_step w e)) ≤ next_id (inner_of w) + 2 * part_opens [e].
Proof.
  intros Hw Hn. destruct e as [f|n| | | |r| |o buf| |n o|o].
  - split; [by apply parts_frame|]. unfold inner_of. cbn. rewrite route_next_id. lia.
  - split; [by apply parts_queue|]. unfold inner_of. cbn. destruct (w_reading w); [lia|].
    pose proof (read_next_id n (v_s (w_view w)) (v_i (w_view w))).
    destruct (poll_queue _ _ _) as [[r s'] i']. cbn in *. lia.
  - split; [by apply parts_flag|]. unfold inner_of. cbn. destruct (w_reading w); cbn; lia.
  - split; [by apply parts_shutdown|]. unfold inner_of. cbn. unfold poll_shutdown.
    destruct (write_closed _); [cbn; lia|]. destruct (try_send _ _) as [[] q]; cbn; lia.
  - split; [|unfold inner_of; cbn; lia]. apply parts_inv_step; [done|by left|done|]. apply Hw.
  - split; [by apply parts_clear|]. unfold inner_of. cbn. destruct (is_closed _); cbn; lia.
  - split; [by apply parts_open|].
    change (next_id (open_stream (inner_of w)).2 ≤ next_id (inner_of w) + 2 * 1).
    rewrite Z.mul_1_r. apply open_next_id; [|done]. apply (vi_wf _ (pi_view _ Hw)).
  - destruct (poll_write_frames buf o (inner_of w)) as [q Hq]. split.
    + by apply (parts_frames w _ q).
    + unfold inner_of in *. cbn. rewrite Hq. cbn. lia.
  - assert (∃ q, (keepalive_tick (inner_of w)).2 = set_frames (inner_of w) q) as [q Hq].
    { unfold keepalive_tick. by destruct (try_send _ _) as [[] q]; exists q. }
    split; [by apply (parts_frames w _ q)|]. unfold inner_of in *. cbn. rewrite Hq. cbn. lia.
  - split; [by apply parts_other_queue|]. unfold inner_of. cbn. case_decide; [|lia].
    cbn. rewrite read_next_id. lia.
  - split; [by apply parts_other_drop|]. unfold inner_of. cbn. case_decide; [|cbn; lia].
    cbn [v_i set_view set_inner w_view]. rewrite drop_next_id. lia.
Qed.

Lemma parts_run_inv es w :
  parts_inv w → next_id (inner_of w) + 2 * part_opens es < 2 ^ 32 → parts_inv (parts_run w es).
Proof.
  revert w. induction es as [|e es IH]; intros w Hw Hn; [done|]. cbn [parts_run foldl].
  assert (part_opens (e :: es) = part_opens [e] + part_opens es) by (destruct e; cbn; lia).
  assert (0 ≤ part_opens es) by (clear; induction es as [|[]]; cbn; lia).
  destruct (part_step_inv w e Hw); [lia|]. apply IH; [done|lia].
Qed.

(** ** Reading to the end *)

(** Bounds the reads there are in a queue. *)
Definition load s c : nat :=
  (match partial s with Some p => S (length p) | None => 0 end
   + sum_list_with (λ p, S (length p)) (queued (inbound c)))%nat.

Lemma load_keep (n : nat) (p : list byte) : (0 < n)%nat →
  (match match drop n p with [] => None | _ => Some (drop n p) end with
   | Some rest => S (length rest) | None => 0 end < S (length p))%nat.
Proof.
  intros Hn. pose proof (length_drop p n) as Hl. destruct (drop n p) as [|b rest]; [lia|].
  cbn in *. lia.
Qed.

Lemma queue_step w n c :
  w_reading w = false → read_closed (v_s (w_view w)) = false → (0 < n)%nat →
  cells (inner_of w) !! cell (v_s (w_view w)) = Some c → tx_alive (inbound c) = false →
  let w' := part_step w (PtQueue n) in
  w_reading w' = false ∧ v_sent (w_view w') = v_sent (w_view w)
  ∧ ∃ c', cells (inner_of w') !! cell (v_s (w_view w')) = Some c'
    ∧ close_tag c' = close_tag c ∧ tx_alive (inbound c') = false
    ∧ (w_ended w' = true
       ∨ read_closed (v_s (w_view w')) = false ∧ (load (v_s (w_view w')) c' < load (v_s (w_view w)) c)%nat).
Proof.
  intros Hr Hrc Hn Hc Ht. cbn. rewrite Hr. unfold poll_queue, inner_of in *. rewrite Hrc.
  destruct (partial (v_s (w_view w))) as [p|] eqn:Ep.
  - cbn. rewrite ?Hrc. split_and!; [done|done|]. exists c. split_and!; [done..|]. right.
    split; [done|]. unfold load. rewrite Ep. cbn. pose proof (load_keep n p Hn). lia.
  - rewrite Hc. destruct (poll_recv (inbound c)) as [v q] eqn:Eq. apply poll_recv_inv in Eq.
    destruct v as [p| |]; destruct_and?; cbn; rewrite ?Hrc, ?lookup_insert_eq; [| |congruence].
    + split_and!; [done|done|]. eexists. split_and!; [done|done|cbn; congruence|]. right.
      split; [done|]. unfold load. rewrite Ep. cbn. pose proof (load_keep n p Hn).
      match goal with H : queued (inbound c) = _ |- _ => rewrite H end. cbn. lia.
    + split_and!; [done|done|]. eexists. split_and!; [done|done|cbn; congruence|]. left.
      by rewrite orb_true_r.
Qed.

Lemma queue_drains n : (0 < n)%nat → ∀ m w c,
  (load (v_s (w_view w)) c < m)%nat → w_reading w = false → read_closed (v_s (w_view w)) = false →
  cells (inner_of w) !! cell (v_s (w_view w)) = Some c → tx_alive (inbound c) = false →
  ∃ k, let w' := parts_run w (replicate k (PtQueue n)) in
    w_ended w' = true ∧ v_sent (w_view w') = v_sent (w_view w)
    ∧ ∃ c', cells (inner_of w') !! cell (v_s (w_view w')) = Some c' ∧ close_tag c' = close_tag c.
Proof.
  intros Hn m. induction m as [|m IH]; intros w c Hl Hr Hrc Hc Ht; [lia|].
  destruct (queue_step w n c Hr Hrc Hn Hc Ht) as (Hr' & Hs' & c' & Hc' & Htag & Ht' & [He|[Hrc' Hl']]).
  - exists 1%nat. split_and!; [done|done|]. by exists c'.
  - destruct (IH (part_step w (PtQueue n)) c' ltac:(lia) Hr' Hrc' Hc' Ht') as (k & He & Hs & c2 & Hc2 & Htag2).
    exists (S k). split_and!; [done|by etrans|]. exists c2. split; [done|congruence].
Qed.

Lemma parts_opened_inv i s i' :
  wf_inner i → next_id i + 2 < 2 ^ 32 → open_stream i = (Ok s, i') →
  parts_inv (parts_opened s i') ∧ next_id i' ≤ next_id i + 2.
Proof.
  intros Hwf Hn E. pose proof (view_opened _ _ _ Hwf Hn E) as Hv.
  destruct (open_stream_effect _ _ _ Hwf Hn E) as (_ & _ & _ & ? & _ & Hr).
  destruct (Hr s eq_refl) as (-> & _). split; [|lia].
  split; cbn; try done. exact (view_inv_unclosed _ Hv).
Qed.

(** What the invariant of a stream says of its bytes. *)
Lemma parts_bytes w :
  parts_inv w → let v := w_view w in
  ∃ c, cells (v_i v) !! cell (v_s v) = Some c
  ∧ v_got v ++ pend (v_s v) c `prefix_of` v_sent v
  ∧ (close_tag c ≠ reason_u8 SlowConsumer → v_got v ++ pend (v_s v) c = v_sent v)
  ∧ (w_ended w = true → pend (v_s v) c = [])
  ∧ (v_live v = false → tx_alive (inbound c) = false).
Proof.
  intros Hw v. subst v. destruct (vi_standing _ (pi_view _ Hw)) as (c & Hc & _ & Hd & Hst).
  exists c. split; [exact Hc|]. cbn in Hst.
  assert (Hp : pend (v_s (quiet_view w)) c = pend (v_s (w_view w)) c) by done.
  assert (He : w_ended w = true → pend (v_s (w_view w)) c = []).
  { intros He. destruct (Hd He) as [H1 H2]. unfold pend. cbn in H1. by rewrite H1, H2. }
  destruct Hst as [_ Hl _ Hg|_ _ Ht _ _ Hg|_ Ht Htag Hg]; cbn in *; rewrite Hp in Hg.
  - split_and!; [by rewrite Hg|done|done|congruence].
  - split_and!; [by rewrite Hg|done|done|done].
  - split_and!; [done|congruence|done|done].
Qed.

(** C16: the bytes of one stream, from the moment it is opened and whatever else the
    session does: frames, reads, writes, other streams, keep-alives and the session's end,
    with the two looks of a read (the queue, then the flag) and the two parts of a close
    (the flag, then the table) separate, in any interleaving.  What the reader has been
    given, followed by what is still held for it, is the beginning of what the peer sent it
    before its FIN or the session's end, in order and without duplication, and all of it
    unless the stream was evicted as a slow consumer.  The end of file comes from the queue
    or, of a closed session, from the flag; from the queue with the reason [Clean] it means
    that everything was read.  And a reader that has not been told the end when the FIN was
    routed or the table taken away reaches it by reading on, having read everything unless
    evicted.  The flag promises less: what it cuts off is what is still held. *)
Theorem stream_delivery i s i' es :
  wf_inner i → open_stream i = (Ok s, i') → next_id i + 2 * (1 + part_opens es) < 2 ^ 32 →
  let w := parts_run (parts_opened s i') es in
  let v := w_view w in
  ∃ c, cells (v_i v) !! cell (v_s v) = Some c
  ∧ v_got v ++ pend (v_s v) c `prefix_of` v_sent v
  ∧ (close_tag c ≠ reason_u8 SlowConsumer → v_got v ++ pend (v_s v) c = v_sent v)
  ∧ (read_closed (v_s v) = true → w_ended w = true ∨ is_closed (v_i v) = true)
  ∧ (w_ended w = true → close_reason (v_s v) (v_i v) = Some Clean → v_got v = v_sent v)
  ∧ (v_live v = false → read_closed (v_s v) = false → w_reading w = false →
     ∀ n, (0 < n)%nat → ∃ k,
       let w' := parts_run w (replicate k (PtQueue n)) in
       w_ended w' = true ∧ v_sent (w_view w') = v_sent v
       ∧ (close_tag c ≠ reason_u8 SlowConsumer → v_got (w_view w') = v_sent v)).
Proof.
  intros Hwf E Hn w v.
  assert (0 ≤ part_opens es) by (clear; induction es as [|[]]; cbn; lia).
  destruct (parts_opened_inv i s i' Hwf ltac:(lia) E) as [Ho Hid].
  assert (Hw : parts_inv w) by (apply parts_run_inv; [done|unfold inner_of; cbn; lia]).
  destruct (parts_bytes w Hw) as (c & Hc & Hp & Hall & He & Hl). fold v in Hc, Hp, Hall, He, Hl.
  exists c. split_and!; [done..|apply Hw| |].
  - intros Hend Hr. unfold close_reason in Hr. rewrite Hc in Hr.
    destruct (read_closed (v_s v)); [|done]. specialize (He Hend).
    rewrite He, app_nil_r in Hall. apply Hall. intros Ht. by rewrite Ht in Hr.
  - intros Hlive Hrc Hrd n Hn0.
    destruct (queue_drains n Hn0 _ w c (Nat.lt_succ_diag_r _) Hrd Hrc Hc (Hl Hlive))
      as (k & Hend & Hsent & c' & Hc' & Htag).
    exists k. split_and!; [done..|]. intros Hns.
    assert (Hw' : parts_inv (parts_run w (replicate k (PtQueue n)))).
    { unfold w. unfold parts_run. rewrite <- foldl_app. apply parts_run_inv; [done|].
      assert (part_opens (es ++ replicate k (PtQueue n)) = part_opens es) as ->.
      { clear. induction es as [|[] es IH]; cbn; try lia. by induction k. }
      unfold inner_of. cbn. lia. }
    destruct (parts_bytes _ Hw') as (c2 & Hc2 & _ & Hall' & He' & _).
    assert (c2 = c') as -> by (unfold inner_of in Hc'; congruence).
    etrans; [|exact Hsent]. rewrite <- Hall', (He' Hend), app_nil_r by congruence. done.
Qed.
End SmuxStreams.

(** ** A stream's life *)

(** Two pushes, a short read, the peer's FIN, and the session's end in the middle of a read
    of another stream. *)
Definition delivery_run : list part :=
  [PtFrame (psh 1 [x61; x62; x63]); PtOpen; PtQueue 2; PtFrame (psh 3 [x7a]);
   PtFrame (psh 1 [x64]); PtMark; PtFrame {| cmd := CMD_FIN; stream_id := 1; frame_payload := [] |};
   PtClear Desynchronised].

Lemma stream_delivery_witness :
  let w := parts_run (parts_opened first_stream one_stream) delivery_run in
  v_got (w_view w) = [x61; x62] ∧ v_sent (w_view w) = [x61; x62; x63; x64]
  ∧ ∃ k, v_got (w_view (parts_run w (replicate k (PtQueue 9)))) = [x61; x62; x63; x64].
Proof.
  intros w. split; [reflexivity|]. split; [reflexivity|].
  destruct (stream_delivery new_session first_stream one_stream delivery_run wf_Inner_new
    open_first eq_refl) as (c & Hc & _ & _ & _ & _ & Hread).
  destruct (Hread eq_refl eq_refl eq_refl 9%nat ltac:(lia)) as (k & _ & _ & Hgot).
  exists k. apply Hgot. vm_compute in Hc. injection Hc as <-. discriminate.
Defined.
