(* ===== verification/Handshake.v ===== *)
(** * The agent handshake (src/handshake.rs)

    The wire records, the [HandshakeHandler] state machine and the challenge
    answer.  [serde_json] and base64 are parameters: a JSON [Value] is opaque, the
    parsers of the two action parameter records and the renderer of the KMS result
    are functions on it.  [feature_kms] is the crate's [kms] feature; the KMS
    client answers per call, so that two requests may get two keys. *)

From S2P Require Import Prelude RustStd Errors Interfaces Crypto.

Definition CLIENT_PROTOCOL_VERSION : str := lit "1.2.764.0".

Inductive ActionType := KmsEncryption | SessionType.
#[export] Instance ActionType_eq_dec : EqDecision ActionType.
Proof. solve_decision. Defined.

Inductive ActionStatus := Success | StatusFailed | Unsupported.
#[export] Instance ActionStatus_eq_dec : EqDecision ActionStatus.
Proof. solve_decision. Defined.

(** [Serialize] and [Deserialize] for [ActionStatus]: a [u32]. *)
Definition ActionStatus_serialize (s : ActionStatus) : Z :=
  match s with Success => 1 | StatusFailed => 2 | Unsupported => 3 end.

Definition ActionStatus_deserialize (n : Z) : Result text ActionStatus :=
  if n =? 1 then Ok Success
  else if n =? 2 then Ok StatusFailed
  else if n =? 3 then Ok Unsupported
  else Err [PLit "invalid ActionStatus "; PInt n].

Inductive NegotiatedSessionType := StandardStream | InteractiveCommands | Port.

Definition NegotiatedSessionType_parse (raw : str) : option NegotiatedSessionType :=
  if decide (raw = lit "Standard_Stream") then Some StandardStream
  else if decide (raw = lit "InteractiveCommands") then Some InteractiveCommands
  else if decide (raw = lit "Port") then Some Port
  else None.

(** The base64 engine ([STANDARD]) and [serde_json]'s values. *)
Class Base64 := {
  b64_encode : list byte → str;
  b64_decode : str → Result text (list byte) }.
Class Base64Ok `{Base64} : Prop := b64_roundtrip bs : b64_decode (b64_encode bs) = Ok bs.

(** [mod base64_bytes]: a byte array is a base64 string, [null] an empty one. *)
Definition base64_serialize `{Base64} (bytes : list byte) : str := b64_encode bytes.
Definition base64_deserialize `{Base64} (field : option str) : Result text (list byte) :=
  match field with
  | None => Ok []
  | Some encoded => map_err (λ e, PLit "field is not valid base64: " :: e) (b64_decode encoded)
  end.

Class ActionJson (Value : Type) := {
  kms_parameters : Value → Result text str;          (* KmsEncryptionRequest: KMSKeyId *)
  session_type_parameters : Value → Result text str; (* SessionTypeRequest: SessionType *)
  kms_result : str → Value }.                        (* KmsEncryptionResponse: KMSCipherTextKey *)

Section Handshake.
Context {Value : Type} `{ActionJson Value} `{Base64} `{Aes256Gcm}.
Variable feature_kms : bool.

Record RequestedClientAction := { action_type : ActionType; action_parameters : Value }.

Record HandshakeRequest := {
  req_agent_version : str;
  requested_client_actions : list RequestedClientAction }.

Record ProcessedClientAction := {
  p_action_type : ActionType;
  action_status : ActionStatus;
  action_result : option Value;
  error : option text }.

Record HandshakeResponse := {
  client_version : str;
  processed_client_actions : list ProcessedClientAction;
  errors : list text }.

Record HandshakeComplete := {
  handshake_time_to_complete : Z;
  customer_message : option str }.

Record EncryptionChallengeRequest := { challenge : list byte }.
Record EncryptionChallengeResponse := { answer : list byte }.

Inductive HandshakeState := AwaitingRequest | AwaitingComplete | Completed | Failed.

#[export] Instance HandshakeState_eq_dec : EqDecision HandshakeState.
Proof. solve_decision. Defined.

(** [client n] answers the session's [n]-th [GenerateDataKey] call. *)
Record KmsContext := {
  client : nat → KmsClient;
  kms_session_id : str;
  kms_target_id : str }.

Record HandshakeHandler := {
  state : HandshakeState;
  agent_version : option str;
  session_type : option NegotiatedSessionType;
  kms : option KmsContext;
  kms_calls : nat;                 (* KMS requests made so far *)
  crypto : option SessionCrypto }.

Definition HandshakeHandler_new : HandshakeHandler :=
  {| state := AwaitingRequest; agent_version := None; session_type := None; kms := None;
     kms_calls := 0; crypto := None |}.

Definition with_kms (k : KmsContext) : HandshakeHandler :=
  {| state := AwaitingRequest; agent_version := None; session_type := None; kms := Some k;
     kms_calls := 0; crypto := None |}.

Definition success (t : ActionType) (result : option Value) : ProcessedClientAction :=
  {| p_action_type := t; action_status := Success; action_result := result; error := None |}.

Definition failure (t : ActionType) (message : text) : ProcessedClientAction :=
  {| p_action_type := t; action_status := StatusFailed; action_result := None;
     error := Some message |}.

Definition handle_session_type (h : HandshakeHandler) (a : RequestedClientAction)
  : ProcessedClientAction * HandshakeHandler :=
  match session_type_parameters (action_parameters a) with
  | Ok raw =>
    let negotiated := default StandardStream (NegotiatedSessionType_parse raw) in
    (success SessionType None,
     {| state := state h; agent_version := agent_version h; session_type := Some negotiated;
        kms := kms h; kms_calls := kms_calls h; crypto := crypto h |})
  | Err e =>
    (failure SessionType (PLit "could not parse SessionType parameters: " :: e), h)
  end.

(** The build with the [kms] feature. *)
Definition handle_kms_encryption_kms (h : HandshakeHandler) (a : RequestedClientAction)
  : ProcessedClientAction * HandshakeHandler :=
  match kms h with
  | None =>
    (failure KmsEncryption
       [PLit "this session was created without a KMS client, so session encryption cannot be negotiated"],
     h)
  | Some k =>
    match kms_parameters (action_parameters a) with
    | Err e => (failure KmsEncryption (PLit "could not parse KMSEncryption parameters: " :: e), h)
    | Ok kms_key_id =>
      let called c :=
        {| state := state h; agent_version := agent_version h; session_type := session_type h;
           kms := kms h; kms_calls := S (kms_calls h); crypto := c |} in
      match negotiate (client k (kms_calls h)) kms_key_id (kms_session_id k) (kms_target_id k) with
      | Ok c =>
        (success KmsEncryption (Some (kms_result (base64_serialize (cipher_text_blob c)))),
         called (Some c))
      | Err e =>
        (failure KmsEncryption
           ([PLit "kms:GenerateDataKey failed for key "; PStr kms_key_id; PLit ": "]
              ++ to_string e ++
            [PLit ". The caller needs kms:GenerateDataKey on this key, and the target's instance profile needs kms:Decrypt."]),
         called (crypto h))
      end
    end
  end.

(** The build without it. *)
Definition handle_kms_encryption_off (h : HandshakeHandler) (_ : RequestedClientAction)
  : ProcessedClientAction * HandshakeHandler :=
  ({| p_action_type := KmsEncryption; action_status := Unsupported; action_result := None;
      error := Some [PLit "this build of aws-ssm-bridge was compiled without the `kms` feature, but the session preferences require encrypted sessions. Rebuild with `--features kms`, or disable "; PDebugStr (lit "Encrypt session data"); PLit " in the Session Manager preferences."] |}, h).

Definition handle_kms_encryption :=
  if feature_kms then handle_kms_encryption_kms else handle_kms_encryption_off.

Definition handle_action (h : HandshakeHandler) (a : RequestedClientAction) :=
  match action_type a with
  | SessionType => handle_session_type h a
  | KmsEncryption => handle_kms_encryption h a
  end.

(** The loop of [on_request]: the processed actions and the collected errors. *)
Fixpoint process_actions (h : HandshakeHandler) (actions : list RequestedClientAction)
    (processed : list ProcessedClientAction) (errs : list text)
  : HandshakeHandler * list ProcessedClientAction * list text :=
  match actions with
  | [] => (h, processed, errs)
  | a :: actions =>
    let '(result, h') := handle_action h a in
    let errs' := match error result with Some m => errs ++ [m] | None => errs end in
    process_actions h' actions (processed ++ [result]) errs'
  end.

Definition set_state (h : HandshakeHandler) (st : HandshakeState) : HandshakeHandler :=
  {| state := st; agent_version := agent_version h; session_type := session_type h;
     kms := kms h; kms_calls := kms_calls h; crypto := crypto h |}.

Definition set_agent_version (h : HandshakeHandler) (v : str) : HandshakeHandler :=
  {| state := state h; agent_version := Some v; session_type := session_type h;
     kms := kms h; kms_calls := kms_calls h; crypto := crypto h |}.

Definition on_request (h : HandshakeHandler) (request : HandshakeRequest)
  : Res (option HandshakeResponse) * HandshakeHandler :=
  match state h with
  | AwaitingComplete | Completed => (Ok None, h)
  | Failed =>
    (Err (protocol [PLit "HandshakeRequest received after the handshake already failed"]), h)
  | AwaitingRequest =>
    let h0 := set_agent_version h (req_agent_version request) in
    let '(h1, processed, errs) :=
      process_actions h0 (requested_client_actions request) [] [] in
    let any_failed := existsb (λ a, negb (bool_decide (action_status a = Success))) processed in
    (Ok (Some {| client_version := CLIENT_PROTOCOL_VERSION;
                 processed_client_actions := processed; errors := errs |}),
     set_state h1 (if any_failed then Failed else AwaitingComplete))
  end.

(** [format!("{:?}", state)]. *)
Definition state_debug (s : HandshakeState) : piece :=
  match s with
  | AwaitingRequest => PLit "AwaitingRequest" | AwaitingComplete => PLit "AwaitingComplete"
  | Completed => PLit "Completed" | Failed => PLit "Failed"
  end.

Definition on_complete (h : HandshakeHandler) (complete : HandshakeComplete)
  : Res (option str) * HandshakeHandler :=
  if negb (bool_decide (state h = AwaitingComplete)) then
    (Err (protocol [PLit "HandshakeComplete received in state "; state_debug (state h)]), h)
  else
    (Ok (m ← customer_message complete; if decide (m = []) then None else Some m),
     set_state h Completed).

(** [nonce] is the fresh nonce of the re-encryption. *)
Definition answer_challenge (nonce : list byte) (h : HandshakeHandler)
    (request : EncryptionChallengeRequest) : Res EncryptionChallengeResponse :=
  c ← match crypto h with
      | Some c => Ok c
      | None => Err (protocol
          [PLit "agent sent an encryption challenge but no key was negotiated"]) end;
  plaintext ← decrypt c (challenge request);
  out ← encrypt nonce c plaintext;
  Ok {| answer := out |}.

(** ** Lemmas *)

(** A processed action answers its request; it carries an error message exactly
    when it did not succeed. *)
Definition answers (a : RequestedClientAction) (r : ProcessedClientAction) : Prop :=
  p_action_type r = action_type a ∧ (error r = None ↔ action_status r = Success).

(** What an action leaves alone, and what it does to the cipher. *)
Lemma handle_action_spec h a r h' :
  handle_action h a = (r, h') →
  answers a r ∧ state h' = state h ∧ agent_version h' = agent_version h ∧ kms h' = kms h
  ∧ (action_type a = SessionType → crypto h' = crypto h)
  ∧ (action_type a = KmsEncryption → action_status r = Success →
     ∃ c, crypto h' = Some c
       ∧ r = success KmsEncryption (Some (kms_result (base64_serialize (cipher_text_blob c)))))
  ∧ (action_type a = KmsEncryption → action_status r ≠ Success → crypto h' = crypto h).
Proof.
  unfold handle_action, answers. destruct (action_type a) eqn:Ea.
  - unfold handle_kms_encryption. destruct feature_kms.
    + unfold handle_kms_encryption_kms. destruct (kms h) as [k|] eqn:Ek.
      * destruct (kms_parameters _) as [key|e];
          [destruct (negotiate _ _ _ _) as [c|e] eqn:En|]; intros [= <- <-]; cbn; split_and!;
          try done; eauto.
      * intros [= <- <-]; cbn; split_and!; try done; eauto.
    + intros [= <- <-]; cbn; split_and!; try done; eauto.
  - unfold handle_session_type. destruct (session_type_parameters _);
      intros [= <- <-]; cbn; split_and!; try done; eauto.
Qed.

Definition is_kms (r : ProcessedClientAction) : Prop := p_action_type r = KmsEncryption.
#[export] Instance is_kms_dec r : Decision (is_kms r).
Proof. unfold is_kms. solve_decision. Defined.

(** The cipher after a run of actions is the one the last KMS action reported, if
    all of them succeeded. *)
Definition reported (before : option SessionCrypto) (ps : list ProcessedClientAction)
    (after : option SessionCrypto) : Prop :=
  match last (filter is_kms ps) with
  | None => after = before
  | Some r => ∃ c, after = Some c
      ∧ r = success KmsEncryption (Some (kms_result (base64_serialize (cipher_text_blob c))))
  end.

Lemma process_actions_spec acts : ∀ h ps0 es0,
  ∃ ps h', process_actions h acts ps0 es0 = (h', ps0 ++ ps, es0 ++ omap error ps)
    ∧ Forall2 answers acts ps ∧ state h' = state h ∧ agent_version h' = agent_version h
    ∧ (Forall (λ r, action_status r = Success) ps → reported (crypto h) ps (crypto h')).
Proof.
  induction acts as [|a acts IH]; intros h ps0 es0; cbn [process_actions].
  - exists [], h. by rewrite !app_nil_r.
  - destruct (handle_action h a) as [r h1] eqn:Ea.
    destruct (handle_action_spec _ _ _ _ Ea) as ([Ht He] & Hs & Hv & _ & Hc1 & Hc2 & _).
    destruct (IH h1 (ps0 ++ [r]) (match error r with Some m => es0 ++ [m] | None => es0 end))
      as (ps & h' & -> & HF & Hs' & Hv' & Hrep).
    exists (r :: ps), h'. split_and!; [| |congruence|congruence|].
    + rewrite <- app_assoc. cbn [app omap list_omap].
      destruct (error r); [by rewrite <- app_assoc|done].
    + by constructor.
    + intros [Hok Hoks]%Forall_cons. specialize (Hrep Hoks). unfold reported in *.
      rewrite filter_cons. destruct (action_type a) eqn:Et.
      * rewrite decide_True by done. destruct (Hc2 eq_refl Hok) as (c & Hc & ->).
        rewrite last_cons. destruct (last (filter is_kms ps)); [done|].
        exists c. split; [congruence|done].
      * rewrite decide_False by (unfold is_kms; congruence). destruct (last (filter is_kms ps)); [done|].
        by rewrite Hrep, Hc1.
Qed.

Lemma any_failed_spec ps :
  existsb (λ a, negb (bool_decide (action_status a = Success))) ps = false
  ↔ Forall (λ r, action_status r = Success) ps.
Proof.
  induction ps as [|r ps IH]; cbn; [by split; [constructor|]|].
  rewrite orb_false_iff, negb_false_iff, bool_decide_eq_true, Forall_cons. by rewrite IH.
Qed.

Lemma answers_errors acts ps :
  Forall2 answers acts ps →
  omap error ps = [] ↔ Forall (λ r, action_status r = Success) ps.
Proof.
  induction 1 as [|a r acts ps [_ He] _ IH]; cbn; [by split; [constructor|]|].
  rewrite Forall_cons, <- IH, <- He. destruct (error r); [|tauto].
  split; [done|by intros [? _]].
Qed.

(** What a first request does. *)
Lemma on_request_first h req :
  state h = AwaitingRequest →
  ∃ ps h', on_request h req
      = (Ok (Some {| client_version := CLIENT_PROTOCOL_VERSION; processed_client_actions := ps;
                     errors := omap error ps |}), h')
    ∧ Forall2 answers (requested_client_actions req) ps
    ∧ agent_version h' = Some (req_agent_version req)
    ∧ (state h' = AwaitingComplete ∧ omap error ps = [] ∧ reported (crypto h) ps (crypto h')
       ∨ state h' = Failed ∧ omap error ps ≠ []).
Proof.
  intros Hst. unfold on_request. rewrite Hst.
  destruct (process_actions_spec (requested_client_actions req)
              (set_agent_version h (req_agent_version req)) [] [])
    as (ps & h' & -> & HF & _ & Hv & Hrep).
  cbn [app]. eexists ps, _. split_and!; [done|done|done|].
  rewrite (answers_errors _ _ HF). cbn [state crypto set_state].
  destruct (existsb _ ps) eqn:Ex.
  - right. split; [done|]. by rewrite <- any_failed_spec, Ex.
  - left. apply any_failed_spec in Ex. auto.
Qed.

(** ** Runs *)

Inductive hs_event :=
| OnRequest (r : HandshakeRequest)
| OnComplete (c : HandshakeComplete).

Inductive hs_output :=
| Responded (r : Res (option HandshakeResponse))
| CompletedWith (r : Res (option str)).

Definition hs_step (h : HandshakeHandler) (e : hs_event) : hs_output * HandshakeHandler :=
  match e with
  | OnRequest r => let '(o, h') := on_request h r in (Responded o, h')
  | OnComplete c => let '(o, h') := on_complete h c in (CompletedWith o, h')
  end.

Fixpoint hs_run (h : HandshakeHandler) (es : list hs_event) : list hs_output * HandshakeHandler :=
  match es with
  | [] => ([], h)
  | e :: es =>
    let '(o, h1) := hs_step h e in
    let '(os, h2) := hs_run h1 es in (o :: os, h2)
  end.

(** Responses sent to the agent, and the completions accepted from it. *)
Definition responses (os : list hs_output) : list HandshakeResponse :=
  omap (λ o, match o with Responded (Ok (Some r)) => Some r | _ => None end) os.
Definition completions (os : list hs_output) : list (option str) :=
  omap (λ o, match o with CompletedWith (Ok m) => Some m | _ => None end) os.

(** What a handler may still do, by its state. *)
Lemma hs_run_from h es os h' :
  hs_run h es = (os, h') →
  match state h with
  | AwaitingRequest =>
    (responses os = [] ∧ completions os = [] ∧ h' = h)
    ∨ ∃ r, responses os = [r]
       ∧ (errors r ≠ [] ∧ completions os = [] ∧ state h' = Failed
          ∨ errors r = [] ∧ completions os = [] ∧ state h' = AwaitingComplete
          ∨ errors r = [] ∧ (∃ m, completions os = [m]) ∧ state h' = Completed)
  | AwaitingComplete =>
    responses os = [] ∧ crypto h' = crypto h
    ∧ (completions os = [] ∧ state h' = AwaitingComplete
       ∨ (∃ m, completions os = [m]) ∧ state h' = Completed)
  | Completed => responses os = [] ∧ completions os = [] ∧ h' = h
  | Failed => responses os = [] ∧ completions os = [] ∧ h' = h
  end.
Proof.
  revert h os h'. induction es as [|e es IH]; intros h os h'; cbn [hs_run].
  { intros [= <- <-]. destruct (state h); cbn; auto. }
  destruct (hs_step h e) as [o h1] eqn:Es.
  destruct (hs_run h1 es) as [os1 h2] eqn:Er. specialize (IH _ _ _ Er).
  intros [= <- <-]. destruct e as [r|c]; cbn in Es.
  - destruct (state h) eqn:Est.
    + destruct (on_request_first h r Est) as (ps & hx & Ho & _ & _ & Hcase).
      rewrite Ho in Es. injection Es as <- <-. right.
      change (completions (_ :: os1)) with (completions os1).
      match goal with |- context [responses (Responded (Ok (Some ?x)) :: os1)] =>
        change (responses _) with (x :: responses os1) end.
      destruct Hcase as [(Hs & He & _)|(Hs & He)]; rewrite Hs in IH.
      * destruct IH as (Hr & _ & Hc). eexists. rewrite Hr. split; [done|]. cbn [errors]. tauto.
      * destruct IH as (Hr & Hc & ->). eexists. rewrite Hr, Hc. split; [done|]. cbn [errors]. tauto.
    + unfold on_request in Es. rewrite Est in Es. injection Es as <- <-. by rewrite Est in IH.
    + unfold on_request in Es. rewrite Est in Es. injection Es as <- <-. by rewrite Est in IH.
    + unfold on_request in Es. rewrite Est in Es. injection Es as <- <-. by rewrite Est in IH.
  - unfold on_complete in Es. destruct (state h) eqn:Est; cbn in Es.
    1,3,4: injection Es as <- <-; by rewrite Est in IH.
    injection Es as <- <-. cbn [state set_state] in IH. destruct IH as (Hr & Hc & ->).
    match goal with |- context [completions (CompletedWith (Ok ?x) :: os1)] =>
      change (completions _) with (x :: completions os1) end.
    change (responses (_ :: os1)) with (responses os1). rewrite Hr, Hc. eauto 6.
Qed.

(** ** Properties *)

(** The first handshake request is answered with one result per requested
    action, in request order, and the collected error messages; the handler then
    waits for completion if there are none and has failed otherwise.  A repeated
    request changes nothing and is not answered. *)
Theorem on_request_spec h req r h' :
  on_request h req = (r, h') →
  match state h with
  | AwaitingRequest =>
    ∃ resp, r = Ok (Some resp) ∧ client_version resp = CLIENT_PROTOCOL_VERSION
      ∧ p_action_type <$> processed_client_actions resp
        = action_type <$> requested_client_actions req
      ∧ errors resp = omap error (processed_client_actions resp)
      ∧ agent_version h' = Some (req_agent_version req)
      ∧ state h' = (if decide (errors resp = []) then AwaitingComplete else Failed)
  | Failed => ∃ e, r = Err (Error_Protocol e) ∧ h' = h
  | _ => r = Ok None ∧ h' = h
  end.
Proof.
  destruct (state h) eqn:Est.
  - destruct (on_request_first h req Est) as (ps & hx & -> & HF & Hv & Hcase). intros [= <- <-].
    eexists. split_and!; try done; cbn [processed_client_actions errors].
    + clear -HF. induction HF as [|a p acts ps' [Ht _] _ IH]; [done|]. rewrite !fmap_cons. by f_equal.
    + destruct Hcase as [(-> & -> & _)|(-> & He)]; [done|by rewrite decide_False].
  - unfold on_request. rewrite Est. by intros [= <- <-].
  - unfold on_request. rewrite Est. by intros [= <- <-].
  - unfold on_request. rewrite Est. intros [= <- <-]. by eexists.
Qed.

(** C23: no silent downgrade.  If a request left the handshake alive, then either
    the agent asked for no encryption or a session cipher was negotiated, and the
    last encryption result reported to the agent carries that cipher's key blob. *)
Theorem no_downgrade h req resp h' :
  state h = AwaitingRequest → crypto h = None →
  on_request h req = (Ok (Some resp), h') → state h' ≠ Failed →
  match crypto h' with
  | None => Forall (λ a, action_type a = SessionType) (requested_client_actions req)
  | Some c =>
    last (filter is_kms (processed_client_actions resp))
    = Some (success KmsEncryption (Some (kms_result (base64_serialize (cipher_text_blob c)))))
  end.
Proof.
  intros Hst Hc0. destruct (on_request_first h req Hst) as (ps & hx & -> & HF & _ & Hcase).
  intros [= <- <-] Hnf. destruct Hcase as [(_ & _ & Hrep)|[? _]]; [|done].
  unfold reported in Hrep. cbn [processed_client_actions].
  destruct (last (filter is_kms ps)) as [r|] eqn:El.
  - by destruct Hrep as (c & -> & ->).
  - rewrite Hrep, Hc0. apply last_None in El. clear -HF El.
    induction HF as [|a p acts ps [Ht _] _ IH]; [constructor|].
    rewrite filter_cons in El. destruct (decide (is_kms p)) as [|Hn]; [done|].
    constructor; [|auto]. unfold is_kms in Hn. rewrite Ht in Hn. by destruct (action_type a).
Qed.

(** Over any sequence of agent messages the client answers at most once and
    accepts at most one completion, the latter only after an answer without
    errors; the final state says which of these happened. *)
Theorem handshake_once h es os h' :
  state h = AwaitingRequest → hs_run h es = (os, h') →
  (length (responses os) ≤ 1)%nat ∧ (length (completions os) ≤ 1)%nat
  ∧ (state h' = Completed ↔ completions os ≠ [])
  ∧ (completions os ≠ [] → ∃ r, responses os = [r] ∧ errors r = [])
  ∧ (state h' = Failed ↔ ∃ r, responses os = [r] ∧ errors r ≠ []).
Proof.
  intros Hst Hrun. pose proof (hs_run_from _ _ _ _ Hrun) as Hr. rewrite Hst in Hr.
  destruct Hr as [(-> & -> & ->)|(r & -> & [(He & -> & Hs)|[(He & -> & Hs)|(He & (m & ->) & Hs)]])];
    rewrite ?Hst, ?Hs; cbn [length]; split_and!; try lia; try done; try (by split);
    try (split; [done|]); try (by intros (? & ? & ?)); try (by eexists).
  - split; [by eexists|done].
  - intros (? & [= <-] & ?). done.
  - intros (? & [= <-] & ?). done.
Qed.

(** Answering a challenge proves the key.  The agent's challenge, encrypted
    under its half of the data key, comes back encrypted under the client's half,
    and decrypts at the agent to the same bytes. *)
Theorem challenge_proves_key `{!Aes256GcmOk} h material blob client agent n1 n2 p f req resp :
  crypto h = Some client →
  from_key_material material blob = Ok client →
  from_key_material (swap_material material) blob = Ok agent →
  length n1 = NONCE_LEN → length n2 = NONCE_LEN →
  encrypt n1 agent p = Ok f → challenge req = f →
  answer_challenge n2 h req = Ok resp →
  decrypt agent (answer resp) = Ok p.
Proof.
  intros Hc Hm1 Hm2 Hn1 Hn2 He Hq. unfold answer_challenge. rewrite Hc, Hq. cbn.
  apply from_key_material_halves in Hm1 as [Hl ->].
  apply from_key_material_halves in Hm2 as [_ ->].
  assert (Hlen : length (drop 32 material) = 32%nat)
    by (rewrite length_drop; unfold len, DATA_KEY_BYTES in Hl; lia).
  eapply (encrypt_decrypt n1 _ {| cipher_text_blob := blob; encrypt_key := drop 32 material;
     decrypt_key := take 32 material |}) in He as [Hd _];
    [|done|cbn; unfold swap_material; by rewrite drop_app_exact].
  rewrite Hd. cbn. intros (out & Ho & [= <-])%Result_bind_Ok.
  eapply encrypt_decrypt; [exact Hn2| |exact Ho]. cbn. unfold swap_material.
  by rewrite take_app_exact.
Qed.
End Handshake.

(** ** Witnesses *)

(** JSON values as strings and base64 as the byte values. *)
#[local] Instance toy_json : ActionJson str :=
  {| kms_parameters := Ok; session_type_parameters := Ok; kms_result := λ s, s |}.
#[local] Instance toy_base64 : Base64 :=
  {| b64_encode := map byte_val; b64_decode := λ s, Ok (map byte_of s) |}.

Definition toy_context : KmsContext :=
  {| client := λ _, toy_kms; kms_session_id := lit "s-1"; kms_target_id := lit "i-1" |}.

(** A request for a port-forwarding session with encryption. *)
Definition toy_request : HandshakeRequest (Value := str) :=
  {| req_agent_version := lit "3.3";
     requested_client_actions :=
       [{| action_type := KmsEncryption; action_parameters := lit "key" |};
        {| action_type := SessionType; action_parameters := lit "Port" |}] |}.

Definition toy_complete : HandshakeComplete :=
  {| handshake_time_to_complete := 1000; customer_message := Some [] |}.

Lemma on_request_spec_witness :
  state (on_request true (with_kms toy_context) toy_request).2 = AwaitingComplete
  ∧ state (on_request false HandshakeHandler_new toy_request).2 = Failed
  ∧ (on_request true (on_request true (with_kms toy_context) toy_request).2 toy_request).1 = Ok None.
Proof.
  edestruct (on_request_spec true (with_kms toy_context) toy_request) as (r1 & E1 & _ & _ & _ & _ & H1);
    [vm_compute; reflexivity|].
  edestruct (on_request_spec false HandshakeHandler_new toy_request) as (r2 & E2 & _ & _ & _ & _ & H2);
    [vm_compute; reflexivity|].
  split_and!; [vm_compute; reflexivity..|].
  destruct (on_request true (on_request true (with_kms toy_context) toy_request).2 toy_request)
    as [r h'] eqn:E.
  pose proof (on_request_spec true _ _ _ _ E) as H3. by destruct H3 as [-> _].
Defined.

Lemma no_downgrade_witness :
  ∃ resp h', on_request true (with_kms toy_context) toy_request = (Ok (Some resp), h')
    ∧ is_Some (crypto h') ∧ state h' = AwaitingComplete
    ∧ last (filter is_kms (processed_client_actions resp))
      = Some (success KmsEncryption (Some [byte_val x62])).
Proof.
  destruct (on_request true (with_kms toy_context) toy_request) as [r h'] eqn:E.
  assert (E' := E). vm_compute in E'. injection E' as <- <-.
  do 2 eexists. split; [reflexivity|]. split_and!; [vm_compute; eauto|reflexivity|].
  exact (no_downgrade true (with_kms toy_context) toy_request _ _ eq_refl eq_refl E ltac:(done)).
Defined.

Lemma handshake_once_witness :
  ∃ os h', hs_run true (with_kms toy_context)
      [OnComplete toy_complete; OnRequest toy_request; OnRequest toy_request;
       OnComplete toy_complete; OnComplete toy_complete] = (os, h')
    ∧ state h' = Completed ∧ completions os ≠ [].
Proof.
  do 2 eexists. split; [vm_compute; reflexivity|]. split; [reflexivity|].
  edestruct (handshake_once true (with_kms toy_context)
    [OnComplete toy_complete; OnRequest toy_request; OnRequest toy_request;
     OnComplete toy_complete; OnComplete toy_complete]) as (_ & _ & H & _);
    [reflexivity|vm_compute; reflexivity|].
  apply H. reflexivity.
Defined.

Definition toy_handler : HandshakeHandler :=
  {| state := AwaitingComplete; agent_version := None; session_type := None; kms := None;
     kms_calls := 0; crypto := Some toy_client |}.

Lemma challenge_proves_key_witness :
  ∃ f resp, @encrypt toy_gcm (replicate 12 x07) toy_agent [x41] = Ok f
    ∧ @answer_challenge toy_gcm (replicate 12 x08) toy_handler {| challenge := f |} = Ok resp
    ∧ @decrypt toy_gcm toy_agent (answer resp) = Ok [x41].
Proof.
  do 2 eexists. split_and!; [reflexivity|vm_compute; reflexivity|].
  eapply (@challenge_proves_key toy_gcm toy_gcm_ok toy_handler toy_material [] toy_client toy_agent
    (replicate 12 x07) (replicate 12 x08) [x41] _ {| challenge := _ |});
    [reflexivity..|vm_compute; reflexivity].
Defined.
