(* ===== verification/Documents.v ===== *)
(** * Session Manager documents (src/documents.rs)

    The trait [SsmDocument] is a class with one instance per document type;
    [DocumentSpec] (src/session.rs) is what a session keeps of a document. *)

From S2P Require Import Prelude RustStd.

Module Documents.

Inductive SessionType := StandardStream | Port.
#[export] Instance SessionType_eq_dec : EqDecision SessionType.
Proof. solve_decision. Defined.

(** [HashMap<String, Vec<String>>]. *)
Abbreviation Parameters := (gmap str (list str)).

Class SsmDocument (D : Type) := {
  document_name : D → str;
  session_type : D → SessionType;
  parameters : D → Parameters }.

Definition params (pairs : list (str * str)) : Parameters :=
  list_to_map (map (λ '(k, v), (k, [v])) pairs).

(** ** The documents *)

Record ShellSession := MkShellSession {}.
#[export] Instance ShellSession_document : SsmDocument ShellSession := {|
  document_name _ := lit "";
  session_type _ := StandardStream;
  parameters _ := ∅ |}.

Record PortForwardingSession := { pf_remote_port : Z (* u16 *) }.
#[export] Instance PortForwardingSession_document : SsmDocument PortForwardingSession := {|
  document_name _ := lit "AWS-StartPortForwardingSession";
  session_type _ := Port;
  parameters d := params [(lit "portNumber", u64_to_string (pf_remote_port d))] |}.

Record PortForwardingToRemoteHost := { host : str; rh_remote_port : Z (* u16 *) }.
#[export] Instance PortForwardingToRemoteHost_document
  : SsmDocument PortForwardingToRemoteHost := {|
  document_name _ := lit "AWS-StartPortForwardingSessionToRemoteHost";
  session_type _ := Port;
  parameters d := params [(lit "host", host d);
                          (lit "portNumber", u64_to_string (rh_remote_port d))] |}.

Record SshSession := { ssh_port : Z (* u16 *) }.
Definition SshSession_new : SshSession := {| ssh_port := 22 |}.
Definition on_port (port : Z) : SshSession := {| ssh_port := port |}.
#[export] Instance SshSession_document : SsmDocument SshSession := {|
  document_name _ := lit "AWS-StartSSHSession";
  session_type _ := StandardStream;
  parameters d := params [(lit "portNumber", u64_to_string (ssh_port d))] |}.

Record InteractiveCommand := { ic_command : str }.
#[export] Instance InteractiveCommand_document : SsmDocument InteractiveCommand := {|
  document_name _ := lit "AWS-StartInteractiveCommand";
  session_type _ := StandardStream;
  parameters d := params [(lit "command", ic_command d)] |}.

Record NonInteractiveCommand := { nc_command : str }.
#[export] Instance NonInteractiveCommand_document : SsmDocument NonInteractiveCommand := {|
  document_name _ := lit "AWS-StartNonInteractiveCommand";
  session_type _ := StandardStream;
  parameters d := params [(lit "command", nc_command d)] |}.

(** ** What a session keeps *)

Record DocumentSpec := {
  name : str;
  spec_parameters : Parameters;
  spec_session_type : SessionType }.

Definition DocumentSpec_new {D} `{SsmDocument D} (d : D) : DocumentSpec :=
  {| name := document_name d; spec_parameters := parameters d;
     spec_session_type := session_type d |}.

(** ** Properties *)

(** The port an agent reads back from a document's parameters. *)
Definition port_parameter (p : Parameters) : option Z :=
  match p !! lit "portNumber" with Some [s] => parse_u64 s | _ => None end.

(** the port of a port-forwarding or SSH document reaches the service intact:
    its only [portNumber] parameter is the decimal numeral of the port and parses
    back to it, for every [u16]; only the two port-forwarding documents claim a
    multiplexed session. *)
Theorem documents_carry_port p h :
  in_u 16 p = true →
  let pf := DocumentSpec_new {| pf_remote_port := p |} in
  let rh := DocumentSpec_new {| host := h; rh_remote_port := p |} in
  let ssh := DocumentSpec_new (on_port p) in
  port_parameter (spec_parameters pf) = Some p
  ∧ port_parameter (spec_parameters rh) = Some p
  ∧ spec_parameters rh !! lit "host" = Some [h]
  ∧ port_parameter (spec_parameters ssh) = Some p
  ∧ spec_session_type pf = Port ∧ spec_session_type rh = Port
  ∧ spec_session_type ssh = StandardStream.
Proof.
  intros Hp.
  assert (Hr : parse_u64 (u64_to_string p) = Some p).
  { apply parse_u64_to_string. unfold in_u in Hp. bool_lia. }
  intros pf rh ssh. unfold port_parameter.
  assert (Hpf : spec_parameters pf = <[lit "portNumber" := [u64_to_string p]]> ∅) by done.
  assert (Hssh : spec_parameters ssh = <[lit "portNumber" := [u64_to_string p]]> ∅) by done.
  assert (Hrh : spec_parameters rh
    = <[lit "host" := [h]]> (<[lit "portNumber" := [u64_to_string p]]> ∅)) by done.
  rewrite Hpf, Hrh, Hssh, (lookup_insert_ne _ (lit "host")) by done.
  by rewrite !lookup_insert_eq.
Qed.

Lemma documents_carry_port_witness :
  port_parameter (spec_parameters (DocumentSpec_new {| pf_remote_port := 3306 |})) = Some 3306.
Proof. apply (documents_carry_port 3306 (lit "db")). reflexivity. Defined.
End Documents.
