(* ===== verification/Session.v ===== *)
(** * Sessions (src/session.rs, and the state of src/connection.rs they hold)

    [CloseReason], the state shared by a session and its tasks ([SessionCore] with
    the [Continuity] that outlives a channel), [SessionConfig] and its validation,
    the session handle and the manager that starts and resumes sessions.

    The [Notify] wake-ups carry no data: an awaited future is modelled by the
    condition it waits for, [None] standing for "still waiting".  The SSM API and
    the data channel's [connect] are parameters of the manager; every API call is
    recorded in a log. *)

From S2P Require Import Prelude RustStd Errors Interfaces BinaryProtocol Ack Crypto Channels.
From S2P Require Import Documents.

Definition MAX_TARGET_CHARS : Z := 400.
Definition MAX_REASON_CHARS : Z := 256.

(** ** Why a session ended *)

Inductive CloseReason :=
| Terminated
| AgentClosed (exit_code : option Z) (detail : option str)
| PeerUnresponsive (idle : Duration)
| DeliveryFailed (sequence attempts : Z)
| Transport (m : text)
| ProtocolFailure (m : text).

#[export] Instance CloseReason_eq_dec : EqDecision CloseReason.
Proof. solve_decision. Defined.

(** [Display]. *)
Definition reason_to_string (r : CloseReason) : text :=
  match r with
  | Terminated => [PLit "terminated by the local application"]
  | AgentClosed code detail =>
    [PLit "the agent closed the session"]
      ++ match detail with Some d => [PLit ": "; PStr d] | None => [] end
      ++ match code with Some c => [PLit " (exit code "; PInt c; PLit ")"] | None => [] end
  | PeerUnresponsive idle => [PLit "no traffic from the agent for "; PDuration idle]
  | DeliveryFailed s a =>
    [PLit "message "; PInt s; PLit " was never acknowledged after "; PInt a; PLit " attempts"]
  | Transport e => PLit "transport failure: " :: e
  | ProtocolFailure e => PLit "protocol failure: " :: e
  end.

Definition is_recoverable (r : CloseReason) : bool :=
  match r with
  | PeerUnresponsive _ | DeliveryFailed _ _ | Transport _ => true
  | _ => false
  end.

Definition is_resumable (r : CloseReason) : bool :=
  match r with PeerUnresponsive _ | Transport _ => true | _ => false end.

(** ** The stream state that survives a channel being rebuilt *)

Definition MESSAGE_BUFFER_CAPACITY : Z := 10000.
Definition MAX_RETRANSMIT_ATTEMPTS : Z := 3000.

Record Continuity := {
  next_sequence : Z;                 (* Mutex<i64> *)
  outgoing : OutgoingBuffer;
  expected : Z;                      (* AtomicI64 *)
  incoming : IncomingBuffer;
  cipher : option SessionCrypto }.   (* OnceLock *)

Definition Continuity_fresh : Continuity :=
  {| next_sequence := 0;
     outgoing := OutgoingBuffer_new MESSAGE_BUFFER_CAPACITY MAX_RETRANSMIT_ATTEMPTS;
     expected := 0; incoming := IncomingBuffer_new MESSAGE_BUFFER_CAPACITY;
     cipher := None |}.

(** [OnceLock::set] keeps the first value. *)
Definition continuity_set_crypto (c : SessionCrypto) (s : Continuity) : Continuity :=
  {| next_sequence := next_sequence s; outgoing := outgoing s; expected := expected s;
     incoming := incoming s;
     cipher := match cipher s with Some c0 => Some c0 | None => Some c end |}.

(** ** SessionCore *)

Section Core.
Context {C : Type → Type} `{Mpsc C}.

Record SessionCore := {
  session_id : str;
  fanout : Fanout (C := C);
  subscriber_capacity : Z;
  sendable : bool;
  core_closed : bool;
  close_reason : option CloseReason;
  continuity : Continuity;
  agent_version : option str;        (* OnceLock *)
  banner : option str;
  exit_code : option Z }.

Definition SessionCore_new (id : str) (cap : Z) (c : Continuity) : SessionCore :=
  {| session_id := id; fanout := Fanout_new; subscriber_capacity := cap; sendable := false;
     core_closed := false; close_reason := None; continuity := c; agent_version := None;
     banner := None; exit_code := None |}.

(** One record update per field the operations write. *)
Definition set_fanout (s : SessionCore) (f : Fanout (C := C)) : SessionCore :=
  {| session_id := session_id s; fanout := f; subscriber_capacity := subscriber_capacity s;
     sendable := sendable s; core_closed := core_closed s; close_reason := close_reason s;
     continuity := continuity s; agent_version := agent_version s; banner := banner s;
     exit_code := exit_code s |}.
Definition set_continuity (s : SessionCore) (c : Continuity) : SessionCore :=
  {| session_id := session_id s; fanout := fanout s; subscriber_capacity := subscriber_capacity s;
     sendable := sendable s; core_closed := core_closed s; close_reason := close_reason s;
     continuity := c; agent_version := agent_version s; banner := banner s;
     exit_code := exit_code s |}.

Definition core_close (reason : CloseReason) (s : SessionCore) : SessionCore :=
  if core_closed s then s
  else {| session_id := session_id s; fanout := Channels.close (fanout s);
          subscriber_capacity := subscriber_capacity s; sendable := sendable s;
          core_closed := true; close_reason := Some reason; continuity := continuity s;
          agent_version := agent_version s; banner := banner s; exit_code := exit_code s |}.

Definition set_sendable (b : bool) (s : SessionCore) : SessionCore :=
  {| session_id := session_id s; fanout := fanout s; subscriber_capacity := subscriber_capacity s;
     sendable := b; core_closed := core_closed s; close_reason := close_reason s;
     continuity := continuity s; agent_version := agent_version s; banner := banner s;
     exit_code := exit_code s |}.

(** [closed().await] and [wait_sendable().await]: whether they resolve. *)
Definition closed_resolves (s : SessionCore) : bool := core_closed s.
Definition wait_sendable (s : SessionCore) : bool := sendable s || core_closed s.

Definition emit_output (data : list byte) (s : SessionCore) : SessionCore :=
  set_fanout s (Channels.send data (fanout s)).

Definition core_subscribe (s : SessionCore) : nat * SessionCore :=
  let '(i, f) := Channels.subscribe (subscriber_capacity s) (fanout s) in (i, set_fanout s f).

Definition core_crypto (s : SessionCore) : option SessionCrypto := cipher (continuity s).

Definition set_crypto (c : SessionCrypto) (s : SessionCore) : SessionCore :=
  set_continuity s (continuity_set_crypto c (continuity s)).

Definition set_agent_version (v : option str) (s : SessionCore) : SessionCore :=
  {| session_id := session_id s; fanout := fanout s; subscriber_capacity := subscriber_capacity s;
     sendable := sendable s; core_closed := core_closed s; close_reason := close_reason s;
     continuity := continuity s;
     agent_version := match agent_version s with Some v0 => Some v0 | None => v end;
     banner := banner s; exit_code := exit_code s |}.

Definition set_session_banner (b : option str) (s : SessionCore) : SessionCore :=
  {| session_id := session_id s; fanout := fanout s; subscriber_capacity := subscriber_capacity s;
     sendable := sendable s; core_closed := core_closed s; close_reason := close_reason s;
     continuity := continuity s; agent_version := agent_version s; banner := b;
     exit_code := exit_code s |}.

Definition set_exit_code (code : option Z) (s : SessionCore) : SessionCore :=
  match code with
  | None => s
  | Some _ =>
    {| session_id := session_id s; fanout := fanout s;
       subscriber_capacity := subscriber_capacity s;
       sendable := sendable s; core_closed := core_closed s; close_reason := close_reason s;
       continuity := continuity s; agent_version := agent_version s; banner := banner s;
       exit_code := code |}
  end.
End Core.

(** ** Configuration *)

Inductive EndpointPolicy := AwsOnly | AllowAny.

Record SessionConfig := {
  target : str;
  document : option Documents.DocumentSpec;
  reason : option str;
  ready_timeout : Duration;
  heartbeat_interval : Duration;
  idle_timeout : Duration;
  payload_chunk_size : Z;            (* usize *)
  output_buffer : Z;                 (* usize *)
  endpoint_policy : EndpointPolicy }.

Definition SessionConfig_new (t : str) : SessionConfig :=
  {| target := t; document := None; reason := None; ready_timeout := from_secs 30;
     heartbeat_interval := from_secs 30; idle_timeout := from_secs 120;
     payload_chunk_size := DEFAULT_PAYLOAD_CHUNK_SIZE;
     output_buffer := DEFAULT_SUBSCRIBER_CAPACITY; endpoint_policy := AwsOnly |}.

Definition SessionConfig_default : SessionConfig := SessionConfig_new [].

Definition config_session_type (c : SessionConfig) : Documents.SessionType :=
  match document c with
  | None => Documents.StandardStream
  | Some d => Documents.spec_session_type d
  end.

Definition config_validate (c : SessionConfig) : Res () :=
  if bool_decide (trim (target c) = []) then
    Err (Error_Config [PLit "target must not be empty"])
  else
  let target_chars := #(target c) in
  if MAX_TARGET_CHARS <? target_chars then
    Err (Error_Config [PLit "target is "; PInt target_chars;
      PLit " characters; ssm:StartSession accepts at most "; PInt MAX_TARGET_CHARS])
  else
  _ ← match reason c with
      | None => Ok ()
      | Some r =>
        let reason_chars := #r in
        if reason_chars =? 0 then
          Err (Error_Config [PLit "reason must not be empty; leave it unset instead"])
        else if MAX_REASON_CHARS <? reason_chars then
          Err (Error_Config [PLit "reason is "; PInt reason_chars;
            PLit " characters; ssm:StartSession accepts at most "; PInt MAX_REASON_CHARS])
        else Ok ()
      end;
  if payload_chunk_size c =? 0 then
    Err (Error_Config [PLit "payload_chunk_size must be at least 1"])
  else if MAX_PAYLOAD_SIZE <? payload_chunk_size c then
    Err (Error_Config [PLit "payload_chunk_size "; PInt (payload_chunk_size c);
      PLit " exceeds the "; PInt MAX_PAYLOAD_SIZE; PLit "-byte protocol limit"])
  else if idle_timeout c <=? heartbeat_interval c then
    Err (Error_Config [PLit "idle_timeout ("; PDuration (idle_timeout c);
      PLit ") must exceed heartbeat_interval ("; PDuration (heartbeat_interval c);
      PLit "), otherwise a healthy connection is declared dead between pings"])
  else Ok ().

(** ** The session handle *)

(** Work submitted to the data channel. *)
Inductive Command :=
| Data (data : list byte)
| Control (payload_type : PayloadType) (data : list byte).

Record TerminalSize := { cols : Z; rows : Z }. (* u16 *)

Section Handle.
Context {C : Type → Type} `{Mpsc C} `{Serde TerminalSize}.

Record Session := {
  core : SessionCore (C := C);
  commands : C Command;
  config : SessionConfig;
  ssm : bool }.                      (* an SSM client is attached *)

Definition set_core (s : Session) (c : SessionCore (C := C)) : Session :=
  {| core := c; commands := commands s; config := config s; ssm := ssm s |}.

Definition closed_error (s : Session) : Error :=
  Error_SessionClosed
    match close_reason (core s) with
    | None => [PLit "session is closing"]
    | Some r => reason_to_string r
    end.

(** [dispatch]: [None] while the command queue has no room and the session is open. *)
Definition dispatch (c : Command) (s : Session) : option (Res ()) * Session :=
  if core_closed (core s) then (Some (Err (closed_error s)), s)
  else match try_send c (commands s) with
       | (Sent, q) =>
         (Some (Ok ()), {| core := core s; commands := q; config := config s; ssm := ssm s |})
       | (Closed, _) => (Some (Err (closed_error s)), s)
       | (Full, _) => (None, s)
       end.

Definition session_send (data : list byte) (s : Session) : option (Res ()) * Session :=
  dispatch (Data data) s.

Definition send_terminal_size (c r : Z) (s : Session) : option (Res ()) * Session :=
  match to_vec {| cols := c; rows := r |} with
  | Err e => (Some (Err (Error_Serialization e)), s)
  | Ok payload => dispatch (Control Pt_Size payload) s
  end.

(** [wait_ready], once [waited] of its deadline has passed. *)
Definition wait_ready (waited : Duration) (s : Session) : option (Res ()) :=
  let decide_ready := Some (if sendable (core s) then Ok () else Err (closed_error s)) in
  if wait_sendable (core s) then decide_ready
  else if closed_resolves (core s) then decide_ready
  else if ready_timeout (config s) <=? waited then Some (Err (Error_Timeout (ready_timeout (config s))))
  else None.

(** Calls to the SSM API. *)
Inductive ApiCall :=
| StartSession | ResumeSession (id : str) | TerminateSession (id : str).

(** [terminate] in the steps that others may come between: loading the flag, closing,
    joining the tasks, and the API call, whose failure is only logged. *)
Inductive Terminating :=
| TLoad
| TClose (first : bool)
| TJoin (first : bool)               (* until the tasks have ended, or their deadlines *)
| TCall                              (* the request is on its way *)
| TDone (first : bool).

Definition terminating_step (p : Terminating) (s : Session) : Terminating * Session * list ApiCall :=
  match p with
  | TLoad => (TClose (negb (core_closed (core s))), s, [])
  | TClose first => (TJoin first, set_core s (core_close Terminated (core s)), [])
  | TJoin first =>
    if first && ssm s then (TCall, s, [TerminateSession (session_id (core s))])
    else (TDone first, s, [])
  | TCall => (TDone true, s, [])
  | TDone first => (TDone first, s, [])
  end.

(** A call that nobody interrupts; [Termination] is about those that are. *)
Definition terminate (s : Session) : Res () * Session * list ApiCall :=
  let '(_, s', log) := Nat.iter 4 (λ '(p, s, log),
    let '(p', s', more) := terminating_step p s in (p', s', log ++ more)) (TLoad, s, []) in
  (Ok (), s', log).

Lemma terminate_alone (s : Session) :
  terminate s = (Ok (), set_core s (core_close Terminated (core s)),
                 if negb (core_closed (core s)) && ssm s
                 then [TerminateSession (session_id (core s))] else []).
Proof.
  unfold terminate. simpl. destruct (core_closed (core s)) eqn:Ec, (ssm s) eqn:Es; simpl;
    unfold set_core, core_close; rewrite Ec; simpl; rewrite ?Es; reflexivity.
Qed.

(** [Drop for Session]. *)
Definition drop_session (s : Session) : Session := set_core s (core_close Terminated (core s)).
End Handle.

(** ** Starting and resuming *)

Section Manager.
Context {C : Type → Type} `{Mpsc C} {Signer Kms : Type}.

Record ConnectionParams := {
  cp_session_id : str;
  cp_target : str;
  cp_stream_url : str;
  cp_token : str;
  cp_chunk_size : Z;
  cp_endpoint_policy : EndpointPolicy;
  cp_signer : option Signer;
  cp_continuity : Continuity;
  cp_heartbeat_interval : Duration;
  cp_idle_timeout : Duration;
  cp_kms : option Kms }.

Record Opening := {
  op_session_id : str;
  op_config : SessionConfig;
  op_stream_url : str;
  op_token : str;
  op_ssm : bool;
  op_signer : option Signer;
  op_continuity : Continuity;
  op_kms : option Kms }.

(** The request and the answers of the SSM API. *)
Record StartRequest := {
  rq_target : str;
  rq_document_name : option str;
  rq_parameters : option Documents.Parameters;
  rq_reason : option str }.
Record StartOutput := {
  out_session_id : option str; out_stream_url : option str; out_token_value : option str }.
Record ResumeOutput := { res_stream_url : option str; res_token_value : option str }.

(** The SDK client. *)
Variable api_start : StartRequest → Res StartOutput.
Variable api_resume : str → Res ResumeOutput.
Variable api_terminate : str → Res ().

Record SessionManager := { signer : option Signer; kms : option Kms }.

Definition start_request (c : SessionConfig) : StartRequest :=
  {| rq_target := target c;
     rq_document_name :=
       d ← document c; if decide (Documents.name d = []) then None else Some (Documents.name d);
     rq_parameters :=
       d ← document c;
       if decide (Documents.spec_parameters d = ∅) then None
       else Some (Documents.spec_parameters d);
     rq_reason := reason c |}.

Definition ok_or {A} (o : option A) (e : Error) : Res A :=
  match o with Some a => Ok a | None => Err e end.

(** [connection::connect] gives the session a command queue, and spawns tasks: [X] is
    what they run on, which the session only keeps the handles of. *)
Section Open.
Context {X : Type} (connect : SessionCore (C := C) → ConnectionParams → Res (C Command * X)).

(** [Session::open]. *)
Definition session_open_on (o : Opening) : Res (Session (C := C) * X) :=
  let c := op_config o in
  let core := SessionCore_new (op_session_id o) (output_buffer c) (op_continuity o) in
  '(commands, tasks) ← connect core
    {| cp_session_id := op_session_id o; cp_target := target c; cp_stream_url := op_stream_url o;
       cp_token := op_token o; cp_chunk_size := payload_chunk_size c;
       cp_endpoint_policy := endpoint_policy c; cp_signer := op_signer o;
       cp_continuity := op_continuity o; cp_heartbeat_interval := heartbeat_interval c;
       cp_idle_timeout := idle_timeout c; cp_kms := op_kms o |};
  Ok ({| core := core; commands := commands; config := c; ssm := op_ssm o |}, tasks).

Definition attach_on (id url token : str) (c : SessionConfig) : Res (Session (C := C) * X) :=
  _ ← config_validate c;
  session_open_on {| op_session_id := id; op_config := c; op_stream_url := url; op_token := token;
                     op_ssm := false; op_signer := None; op_continuity := Continuity_fresh;
                     op_kms := None |}.

(** [start_session]: its result and the API calls it made, in order. *)
Definition start_session_on (m : SessionManager) (c : SessionConfig)
  : Res (Session (C := C) * X) * list ApiCall :=
  match config_validate c with
  | Err e => (Err e, [])
  | Ok _ =>
    match
      (response ← api_start (start_request c);
       id ← ok_or (out_session_id response) (aws [PLit "StartSession returned no session ID"]);
       url ← ok_or (out_stream_url response) (aws [PLit "StartSession returned no stream URL"]);
       token ← ok_or (out_token_value response) (aws [PLit "StartSession returned no token"]);
       Ok (id, url, token))
    with
    | Err e => (Err e, [StartSession])
    | Ok (id, url, token) =>
      match session_open_on {| op_session_id := id; op_config := c; op_stream_url := url;
                               op_token := token; op_ssm := true; op_signer := signer m;
                               op_continuity := Continuity_fresh; op_kms := kms m |} with
      | Ok s => (Ok s, [StartSession])
      | Err e =>
        (* the outcome of the clean-up call is only logged *)
        (Err e, [StartSession; TerminateSession id])
      end
    end
  end.

Definition resume_session_on (m : SessionManager) (id : str) (c : SessionConfig) (cont : Continuity)
  : Res (option (Session (C := C) * X)) * list ApiCall :=
  match config_validate c with
  | Err e => (Err e, [])
  | Ok _ =>
    match api_resume id with
    | Err e => (Err e, [ResumeSession id])
    | Ok response =>
      match res_stream_url response, res_token_value response with
      | Some url, Some token =>
        if decide (token = []) then (Ok None, [ResumeSession id])
        else
          (s ← session_open_on {| op_session_id := id; op_config := c; op_stream_url := url;
                                  op_token := token; op_ssm := true; op_signer := signer m;
                                  op_continuity := cont; op_kms := kms m |};
           Ok (Some s), [ResumeSession id])
      | _, _ => (Ok None, [ResumeSession id])
      end
    end
  end.
End Open.

(** The same for those who do not look at the tasks. *)
Variable connect : SessionCore (C := C) → ConnectionParams → Res (C Command).
Definition connect_queue (core : SessionCore (C := C)) (p : ConnectionParams) : Res (C Command * ()) :=
  q ← connect core p; Ok (q, ()).

Definition session_open (o : Opening) : Res (Session (C := C)) :=
  s ← session_open_on connect_queue o; Ok s.1.
Definition attach (id url token : str) (c : SessionConfig) : Res (Session (C := C)) :=
  s ← attach_on connect_queue id url token c; Ok s.1.
Definition start_session (m : SessionManager) (c : SessionConfig)
  : Res (Session (C := C)) * list ApiCall :=
  let '(r, log) := start_session_on connect_queue m c in (s ← r; Ok s.1, log).
Definition resume_session (m : SessionManager) (id : str) (c : SessionConfig) (cont : Continuity)
  : Res (option (Session (C := C))) * list ApiCall :=
  let '(r, log) := resume_session_on connect_queue m id c cont in (s ← r; Ok (option_map fst s), log).

Definition terminate_session (id : str) : Res () * list ApiCall :=
  (api_terminate id, [TerminateSession id]).
End Manager.

(** ** Histories of a session's shared state *)

Section CoreHistory.
Context {C : Type → Type} `{Mpsc C}.

Inductive core_op :=
| OpClose (r : CloseReason)
| OpSendable (b : bool)
| OpEmit (d : list byte)
| OpSubscribe
| OpCrypto (c : SessionCrypto)
| OpVersion (v : option str)
| OpBanner (b : option str)
| OpExit (code : option Z).

Definition core_step (s : SessionCore (C := C)) (o : core_op) : SessionCore :=
  match o with
  | OpClose r => core_close r s
  | OpSendable b => set_sendable b s
  | OpEmit d => emit_output d s
  | OpSubscribe => (core_subscribe s).2
  | OpCrypto c => set_crypto c s
  | OpVersion v => set_agent_version v s
  | OpBanner b => set_session_banner b s
  | OpExit code => set_exit_code code s
  end.

Definition reasons (os : list core_op) : list CloseReason :=
  omap (λ o, match o with OpClose r => Some r | _ => None end) os.
Definition ciphers (os : list core_op) : list SessionCrypto :=
  omap (λ o, match o with OpCrypto c => Some c | _ => None end) os.
Definition versions (os : list core_op) : list str :=
  omap (λ o, match o with OpVersion v => v | _ => None end) os.
Definition exits (os : list core_op) : list Z :=
  omap (λ o, match o with OpExit c => c | _ => None end) os.

(** The first value wins, or the one that was there before. *)
Definition first_of {A} (old : option A) (new : list A) : option A :=
  match old with Some a => Some a | None => head new end.

Lemma first_of_app {A} (old : option A) l k :
  first_of old (l ++ k) = first_of (first_of old l) k.
Proof. by destruct old, l. Qed.

Lemma emit_closed d (f : Fanout (C := C)) : closed (Channels.send d f) = closed f.
Proof. unfold Channels.send. by destruct (retain _ _ _). Qed.

Lemma subscribe_closed n (f : Fanout (C := C)) : closed (Channels.subscribe n f).2 = closed f.
Proof. unfold Channels.subscribe. by destruct (closed f) eqn:E; cbn; rewrite ?E. Qed.

Lemma core_subscribe_fanout (s : SessionCore (C := C)) :
  (core_subscribe s).2
  = set_fanout s (Channels.subscribe (subscriber_capacity s) (fanout s)).2.
Proof. unfold core_subscribe. by destruct (Channels.subscribe _ _). Qed.

(** A session's shared state after any history of operations.  It is closed
    exactly when some operation closed it, for the first reason given; closing it
    ends the output fan-out; the cipher and the agent version are the first ones
    set (a resumed session keeps the cipher it inherited); an exit code once
    reported is only replaced by another. *)
Theorem core_history id cap cont os :
  let s := foldl core_step (SessionCore_new (C := C) id cap cont) os in
  close_reason s = head (reasons os)
  ∧ core_closed s = bool_decide (is_Some (close_reason s))
  ∧ closed (fanout s) = core_closed s
  ∧ core_crypto s = first_of (cipher cont) (ciphers os)
  ∧ agent_version s = head (versions os)
  ∧ exit_code s = last (exits os)
  ∧ session_id s = id.
Proof.
  intros s. subst s. induction os as [|o os IH] using rev_ind.
  { split_and!; try done. cbn. unfold core_crypto; cbn. by destruct (cipher cont). }
  rewrite foldl_snoc. set (s := foldl core_step _ os) in *. clearbody s.
  destruct IH as (Hr & Hc & Hf & Hx & Hv & He & Hi).
  unfold reasons, ciphers, versions, exits in *. rewrite !omap_app.
  destruct o as [r|b|d| |c|v|b|code]; cbn [core_step omap list_omap]; rewrite ?app_nil_r;
    try (by split_and!).
  - unfold core_close. destruct (core_closed s) eqn:Ec.
    + symmetry in Hc. apply bool_decide_eq_true in Hc as [r0 Hr0]. rewrite Hr0 in *.
      destruct (omap _ os) as [|r1 rs]; [done|]. cbn in *. split_and!; auto; congruence.
    + symmetry in Hc. apply bool_decide_eq_false, eq_None_not_Some in Hc. rewrite Hc in Hr.
      destruct (omap _ os); [|done]. cbn. split_and!; auto.
      unfold Channels.close. by rewrite Hf.
  - split_and!; auto. cbn. by rewrite emit_closed.
  - rewrite core_subscribe_fanout. split_and!; auto. cbn. by rewrite subscribe_closed.
  - split_and!; auto. cbn. unfold core_crypto in *. cbn. rewrite first_of_app, <- Hx.
    by destruct (cipher (continuity s)).
  - split_and!; auto; [|by destruct v; rewrite ?app_nil_r..]. cbn. rewrite Hv.
    generalize (omap (λ o, match o with OpVersion v => v | _ => None end) os); intros l.
    by destruct v, l; cbn; rewrite ?app_nil_r.
  - destruct code as [c|]; cbn; rewrite ?app_nil_r; split_and!; auto. cbn.
    by rewrite last_snoc.
Qed.
End CoreHistory.

(** Which configurations are accepted: a non-blank target of at most 400
    characters, a reason of 1 to 256 characters if any, a chunk size of at most
    the protocol's payload limit and not 0, and an idle timeout longer than the
    ping interval.  Everything else is a configuration error, and the defaults
    are acceptable for every short non-blank target. *)
Lemma config_validate_spec c :
  (config_validate c = Ok () ↔
     trim (target c) ≠ [] ∧ #(target c) ≤ 400
     ∧ (∀ r, reason c = Some r → 1 ≤ #r ≤ 256)
     ∧ payload_chunk_size c ≠ 0 ∧ payload_chunk_size c ≤ MAX_PAYLOAD_SIZE
     ∧ heartbeat_interval c < idle_timeout c)
  ∧ (∀ e, config_validate c = Err e → ∃ m, e = Error_Config m)
  ∧ ∀ t, trim t ≠ [] → #t ≤ 400 → config_validate (SessionConfig_new t) = Ok ().
Proof.
  assert (Hspec : ∀ c, (config_validate c = Ok () ↔
     trim (target c) ≠ [] ∧ #(target c) ≤ 400
     ∧ (∀ r, reason c = Some r → 1 ≤ #r ≤ 256)
     ∧ payload_chunk_size c ≠ 0 ∧ payload_chunk_size c ≤ MAX_PAYLOAD_SIZE
     ∧ heartbeat_interval c < idle_timeout c)).
  { clear c. intros c. unfold config_validate, MAX_TARGET_CHARS, MAX_REASON_CHARS.
    destruct (bool_decide_reflect (trim (target c) = [])); [by split; [|intros [? _]]|].
    destruct (Z.ltb_spec 400 (#(target c))); [split; [done|lia]|].
    destruct (reason c) as [r|]; cbn [mbind Result_bind].
    - pose proof (len_nonneg r).
      destruct (Z.eqb_spec (#r) 0) as [Hr|Hr]; cbn.
      { split; [done|]. intros (_ & _ & Hb & _). specialize (Hb r eq_refl). lia. }
      destruct (Z.ltb_spec 256 (#r)); cbn.
      { split; [done|]. intros (_ & _ & Hb & _). specialize (Hb r eq_refl). lia. }
      split_ifs; (split; [try done|try done; intros (?&?&?&?&?&?); exfalso; bool_lia]).
      intros _. split_and!; try bool_lia; try done. intros ? [= <-]. lia.
    - split_ifs; (split; [try done|try done; intros (?&?&?&?&?&?); exfalso; bool_lia]).
      intros _. split_and!; try bool_lia; try done. }
  split_and!; [apply Hspec| |].
  - intros e. unfold config_validate. destruct (reason c); cbn; split_ifs; intros [= <-]; eauto.
  - intros t Ht Hl. apply Hspec. split_and!; try done.
Qed.

Section ManagerProperties.
Context {C : Type → Type} `{Mpsc C} {Signer Kms : Type}.
Context (api_start : StartRequest → Res StartOutput) (api_resume : str → Res ResumeOutput)
  (connect : SessionCore (C := C) → ConnectionParams (Signer := Signer) (Kms := Kms)
             → Res (C Command)).

(** C37: starting a session and releasing it.  An invalid configuration makes no API
    call; if the service answered with an identifier, a URL and a token, either the
    caller gets a session under that identifier with fresh stream state, or the session
    is terminated through the API and the channel's error returned.  A service that
    started a session and left out the URL or the token is not told: the caller gets an
    error and nothing is released. *)
Theorem start_session_no_leak m c r log :
  start_session api_start connect m c = (r, log) →
  (∀ e, config_validate c = Err e → r = Err e ∧ log = [])
  ∧ (∀ resp id url token, config_validate c = Ok () → api_start (start_request c) = Ok resp →
      out_session_id resp = Some id → out_stream_url resp = Some url →
      out_token_value resp = Some token →
      match r with
      | Ok s => log = [StartSession] ∧ session_id (core s) = id ∧ config s = c
                ∧ continuity (core s) = Continuity_fresh ∧ core_closed (core s) = false
      | Err _ => log = [StartSession; TerminateSession id]
      end)
  ∧ (∀ resp, config_validate c = Ok () → api_start (start_request c) = Ok resp →
      out_stream_url resp = None ∨ out_token_value resp = None →
      log = [StartSession] ∧ ∃ e, r = Err e).
Proof.
  unfold start_session, start_session_on. destruct (config_validate c) as [[]|e] eqn:Ev.
  - intros Heq. split_and!; [done| |].
    + intros resp id url token _ Hs Hid Hu Ht. revert Heq.
      rewrite Hs. cbn [mbind Result_bind]. rewrite Hid, Hu, Ht. cbn. unfold session_open_on, connect_queue.
      cbn. destruct (connect _ _) as [q|e]; cbn; intros [= <- <-]; by split_and?.
    + intros resp _ Hs Hno. revert Heq. rewrite Hs. cbn [mbind Result_bind].
      destruct (out_session_id resp); [|intros [= <- <-]; by eauto]. cbn.
      destruct (out_stream_url resp); [|intros [= <- <-]; by eauto]. cbn.
      destruct Hno as [|Hno]; [done|]. rewrite Hno. intros [= <- <-]. by eauto.
  - intros [= <- <-]. split_and!; [by intros ? [= ->]|done..].
Qed.

(** A resumed session continues the old one.  Resuming asks the service about
    the same identifier and starts no session; if it succeeds the new channel has
    the old stream state (counters, unacknowledged backlog, reorder buffer and
    cipher); no token, or an empty one, means the session has timed out. *)
Theorem resume_keeps_stream m id c cont r log :
  resume_session api_resume connect m id c cont = (r, log) →
  (log = [] ∨ log = [ResumeSession id])
  ∧ (∀ s, r = Ok (Some s) → continuity (core s) = cont ∧ session_id (core s) = id
       ∧ core_closed (core s) = false ∧ config s = c)
  ∧ (r = Ok None → ∃ resp, api_resume id = Ok resp
       ∧ (res_stream_url resp = None ∨ default [] (res_token_value resp) = [])).
Proof.
  unfold resume_session, resume_session_on. destruct (config_validate c) as [[]|e].
  2: { intros [= <- <-]. split_and!; [by left|done|done]. }
  destruct (api_resume id) as [resp|e] eqn:Er.
  2: { intros [= <- <-]. split_and!; [by right|done|done]. }
  destruct (res_stream_url resp) as [url|] eqn:Eu, (res_token_value resp) as [token|] eqn:Et;
    [destruct (decide (token = [])) as [Htok|Htok]|..]; intros [= <- <-].
  - split_and!; [by right|done|]. intros _. exists resp. rewrite Et. auto.
  - split_and!; [by right| |].
    + intros s. unfold session_open_on, connect_queue. cbn.
      destruct (connect _ _) as [q|]; [|done]. by intros [= <-].
    + unfold session_open_on, connect_queue. cbn. by destruct (connect _ _).
  - split_and!; [by right|done|]. intros _. exists resp. rewrite Et. auto.
  - split_and!; [by right|done|]. intros _. exists resp. auto.
  - split_and!; [by right|done|]. intros _. exists resp. auto.
Qed.
End ManagerProperties.

(** ** Sessions behind shared references *)

(** A pool, a supervisor, their callers and a session's own tasks hold [Arc]s of
    one session: references into a heap. *)
Section SharedSessions.
Context {C : Type → Type} `{Mpsc C}.
Abbreviation SessionStore := (gmap nat (Session (C := C))).

(** Heaps only grow, sessions keep their identity and stay closed. *)
Definition heap_le (h h' : SessionStore) : Prop :=
  ∀ r s, h !! r = Some s → ∃ s', h' !! r = Some s' ∧ session_id (core s') = session_id (core s)
    ∧ config s' = config s ∧ (core_closed (core s) = true → core_closed (core s') = true).

Lemma heap_le_refl h : heap_le h h.
Proof. intros r s Hr. eauto. Qed.

Lemma heap_le_fresh h s : heap_le h (<[fresh (dom h) := s]> h).
Proof.
  intros r s' Hr. exists s'. rewrite lookup_insert_ne; [done|].
  intros <-. apply (is_fresh (dom h)). by apply elem_of_dom_2 in Hr.
Qed.

Lemma heap_le_insert (h : SessionStore) r s s' :
  h !! r = Some s → session_id (core s') = session_id (core s) → config s' = config s →
  (core_closed (core s) = true → core_closed (core s') = true) →
  heap_le h (<[r := s']> h).
Proof.
  intros Hs Hid Hcf Hcl r' t Ht. destruct (decide (r = r')) as [<-|Hne].
  - rewrite lookup_insert_eq. exists s'. simplify_eq. done.
  - rewrite lookup_insert_ne by done. eauto.
Qed.

Lemma core_step_mono (c : SessionCore (C := C)) o :
  session_id (core_step c o) = session_id c
  ∧ (core_closed c = true → core_closed (core_step c o) = true).
Proof.
  destruct o as [r|b|d| |k|v|b|code]; cbn [core_step]; try done.
  - unfold core_close. destruct (core_closed c) eqn:E; [by rewrite E|done].
  - by rewrite core_subscribe_fanout.
  - by destruct code.
Qed.

Lemma heap_le_alter h r o :
  heap_le h (alter (λ s, set_core s (core_step (core s) o)) r h).
Proof.
  intros r' s Hs. destruct (decide (r = r')) as [<-|Hne].
  - rewrite lookup_alter_eq, Hs. eexists. split; [done|]. cbn.
    destruct (core_step_mono (core s) o). done.
  - rewrite lookup_alter_ne by done. eauto.
Qed.

Lemma terminate_shape (s : Session (C := C)) :
  ∃ calls, terminate s = (Ok (), set_core s (core_close Terminated (core s)), calls).
Proof. rewrite terminate_alone. by eexists. Qed.

Lemma terminate_mono (s s' : Session (C := C)) r log :
  terminate s = (r, s', log) →
  session_id (core s') = session_id (core s) ∧ config s' = config s
  ∧ core_closed (core s') = true.
Proof.
  rewrite terminate_alone. unfold core_close. destruct (core_closed (core s)) eqn:E; cbn;
    intros [= <- <- <-]; cbn; by rewrite ?E.
Qed.
End SharedSessions.

(** ** Witnesses *)

Definition toy_core : SessionCore (C := Chan) :=
  SessionCore_new (lit "s-1") 16 Continuity_fresh.
Definition toy_session : Session (C := Chan) :=
  {| core := toy_core; commands := channel 256; config := SessionConfig_new (lit "i-1");
     ssm := true |}.

(** A service that starts and resumes sessions, and a channel that opens or not. *)
Definition toy_api : StartRequest → Res StartOutput := λ _,
  Ok {| out_session_id := Some (lit "s-1"); out_stream_url := Some (lit "wss://x");
        out_token_value := Some (lit "t") |}.
Definition toy_resume : str → Res ResumeOutput := λ _,
  Ok {| res_stream_url := Some (lit "wss://x"); res_token_value := Some (lit "t") |}.
Definition toy_connect (up : bool) (_ : SessionCore (C := Chan))
    (_ : ConnectionParams (Signer := unit) (Kms := unit)) : Res (Chan Command) :=
  if up then Ok (channel 256) else Err (transport [PLit "unreachable"]).
Definition toy_manager : SessionManager (Signer := unit) (Kms := unit) :=
  {| signer := None; kms := None |}.

Lemma start_session_no_leak_witness :
  (start_session toy_api (toy_connect false) toy_manager (SessionConfig_new (lit "i-1"))).2
  = [StartSession; TerminateSession (lit "s-1")].
Proof.
  destruct (start_session toy_api (toy_connect false) toy_manager (SessionConfig_new (lit "i-1")))
    as [r log] eqn:E.
  destruct (start_session_no_leak _ _ _ _ _ _ E) as (_ & Hl & _).
  specialize (Hl _ (lit "s-1") (lit "wss://x") (lit "t") eq_refl eq_refl eq_refl eq_refl eq_refl).
  destruct r as [s|e]; [|exact Hl]. vm_compute in E. discriminate E.
Defined.

Definition toy_continuity : Continuity :=
  {| next_sequence := 7; outgoing := OutgoingBuffer_new 10000 3000; expected := 5;
     incoming := IncomingBuffer_new 10000; cipher := Some toy_client |}.

Lemma resume_keeps_stream_witness :
  ∃ s log, resume_session toy_resume (toy_connect true) toy_manager (lit "s-1")
      (SessionConfig_new (lit "i-1")) toy_continuity = (Ok (Some s), log)
    ∧ continuity (core s) = toy_continuity.
Proof.
  do 2 eexists. split; [vm_compute; reflexivity|].
  edestruct (resume_keeps_stream toy_resume (toy_connect true) toy_manager (lit "s-1")
    (SessionConfig_new (lit "i-1")) toy_continuity) as (_ & Hs & _); [vm_compute; reflexivity|].
  by edestruct Hs as [Hc _].
Defined.
