(* ===== verification/Termination.v ===== *)
(** * Terminating a shared session (src/session.rs)

    Any number of calls of [Session::terminate] on one session, each in the steps of
    [Session.terminating_step], between each other, between everything else that happens to
    the session (its holders send and read, its tasks and the agent change the core), and
    dropped at any await: a caller may cancel the future. *)

From S2P Require Import Prelude RustStd Errors Interfaces BinaryProtocol Channels Documents Session.

Section Termination.
Context {C : Type → Type} `{Mpsc C}.

(** The session, where the calls are, those whose future was dropped, and the requests
    made, in order. *)
Record Calls := {
  x_session : Session (C := C);
  x_calls : gmap nat Terminating;
  x_dropped : gset nat;
  x_log : list ApiCall }.

Definition no_calls (s : Session (C := C)) : Calls :=
  {| x_session := s; x_calls := ∅; x_dropped := ∅; x_log := [] |}.

Inductive call_op :=
| Begin (k : nat)
| Advance (k : nat)
| Cancel (k : nat)
| Dispatch (c : Command)             (* a holder of the session sends *)
| Recv (i : nat)                     (* or reads output stream [i] *)
| Other (o : core_op).

Definition with_session (x : Calls) (s : Session (C := C)) : Calls :=
  {| x_session := s; x_calls := x_calls x; x_dropped := x_dropped x; x_log := x_log x |}.

Definition call_step (x : Calls) (op : call_op) : Calls :=
  match op with
  | Begin k =>
    if decide (is_Some (x_calls x !! k)) then x
    else {| x_session := x_session x; x_calls := <[k := TLoad]> (x_calls x);
            x_dropped := x_dropped x; x_log := x_log x |}
  | Advance k =>
    match x_calls x !! k with
    | Some p =>
      if decide (k ∈ x_dropped x) then x
      else let '(p', s', more) := terminating_step p (x_session x) in
           {| x_session := s'; x_calls := <[k := p']> (x_calls x);
              x_dropped := x_dropped x; x_log := x_log x ++ more |}
    | None => x
    end
  | Cancel k =>
    match x_calls x !! k with
    | Some (TLoad | TJoin _ | TCall) =>
      {| x_session := x_session x; x_calls := x_calls x;
         x_dropped := {[k]} ∪ x_dropped x; x_log := x_log x |}
    | _ => x
    end
  | Dispatch c => with_session x (dispatch c (x_session x)).2
  | Recv i =>
    let c := core (x_session x) in
    with_session x (set_core (x_session x) (set_fanout c (recv i (fanout c)).2))
  | Other o => with_session x (set_core (x_session x) (core_step (core (x_session x)) o))
  end.
Definition calls_run (x : Calls) (ops : list call_op) : Calls := foldl call_step x ops.

(** ** What each call has done *)

Definition closing (p : Terminating) : bool :=
  match p with TLoad | TClose _ => false | _ => true end.
Definition released (p : Terminating) : bool :=
  match p with TCall => true | TDone first => first | _ => false end.
(** A call that found the session open. *)
Definition saw_open (p : Terminating) : bool :=
  match p with TLoad => false | TClose b | TJoin b | TDone b => b | TCall => true end.

Definition releases (x : Calls) : nat := size (filter (λ kp, released kp.2 = true) (x_calls x)).

Lemma releases_insert x k p q :
  x_calls x !! k = Some p →
  size (filter (λ kp, released kp.2 = true) (<[k := q]> (x_calls x)))
  = (releases x - (if released p then 1 else 0) + (if released q then 1 else 0))%nat.
Proof.
  intros Hp. unfold releases.
  assert (Hs : ∀ r, size (filter (λ kp, released kp.2 = true) (<[k := r]> (x_calls x)))
    = ((if released r then 1 else 0) +
       size (filter (λ kp, released kp.2 = true) (delete k (x_calls x))))%nat).
  { intros r. destruct (released r) eqn:Er.
    - rewrite <- insert_delete_eq, map_filter_insert_True by done.
      rewrite map_size_insert_None; [done|]. apply map_lookup_filter_None. left.
      apply lookup_delete_eq.
    - rewrite map_filter_insert_False by (cbn; congruence). done. }
  rewrite <- (insert_id (x_calls x) k p Hp) at 2. rewrite !Hs. lia.
Qed.

Lemma releases_begin x k :
  x_calls x !! k = None →
  size (filter (λ kp, released kp.2 = true) (<[k := TLoad]> (x_calls x))) = releases x.
Proof.
  intros Hk. unfold releases. rewrite map_filter_insert_False by done. f_equal.
  by rewrite delete_id.
Qed.

Lemma releases_pos x k p :
  x_calls x !! k = Some p → released p = true → releases x ≠ 0%nat.
Proof.
  intros Hk Hp Hz. apply map_size_empty_inv in Hz. apply (f_equal (lookup k)) in Hz.
  rewrite lookup_empty in Hz. apply map_lookup_filter_None in Hz as [?|Hz]; [congruence|].
  by apply (Hz p).
Qed.

(** ** The books of a shared session *)

(** What is always so of a session that began as [s0]: the requests are those the calls
    say they made, and a call's view of the flag is not out of date. *)
Record calls_ok (s0 : Session (C := C)) (x : Calls) : Prop := {
  ck_id : session_id (core (x_session x)) = session_id (core s0);
  ck_ssm : ssm (x_session x) = ssm s0;
  ck_closed k p : x_calls x !! k = Some p → closing p = true ∨ p = TClose false →
    core_closed (core (x_session x)) = true;
  ck_log : x_log x = if ssm s0
    then replicate (releases x) (TerminateSession (session_id (core s0))) else [] }.

Lemma no_calls_ok s : calls_ok s (no_calls s).
Proof. by constructor; cbn; try set_solver; destruct (ssm s). Qed.

Lemma core_step_open (c : SessionCore (C := C)) o :
  (∀ r, o ≠ OpClose r) →
  core_closed (core_step c o) = core_closed c ∧ close_reason (core_step c o) = close_reason c.
Proof.
  intros Ho. destruct o; cbn; unfold core_subscribe; try done.
  - by destruct (Ho r).
  - by destruct (Channels.subscribe _ _).
  - by destruct code.
Qed.

(** Sending never touches the shared state. *)
Lemma dispatch_core c (s : Session (C := C)) :
  core (dispatch c s).2 = core s ∧ ssm (dispatch c s).2 = ssm s.
Proof.
  unfold dispatch. destruct (core_closed _); [done|]. by destruct (try_send _ _) as [[] q].
Qed.

Lemma core_close_closed r (c : SessionCore (C := C)) : core_closed (core_close r c) = true.
Proof. unfold core_close. by destruct (core_closed c) eqn:E. Qed.

Lemma core_close_id r (c : SessionCore (C := C)) : session_id (core_close r c) = session_id c.
Proof. unfold core_close. by destruct (core_closed c). Qed.

(** One step of a call, seen from the books. *)
Lemma terminating_step_spec p (s : Session (C := C)) p' s' more :
  terminating_step p s = (p', s', more) →
  session_id (core s') = session_id (core s) ∧ ssm s' = ssm s ∧
  (core_closed (core s) = true → core_closed (core s') = true) ∧
  (closing p' = true ∨ p' = TClose false →
   (closing p = true ∨ p = TClose false → core_closed (core s) = true) →
   core_closed (core s') = true) ∧
  (released p = true → released p' = true) ∧
  more = if ssm s then replicate ((if released p' then 1 else 0) - (if released p then 1 else 0))
                         (TerminateSession (session_id (core s))) else [].
Proof.
  destruct p as [|b|b| |b]; cbn.
  - intros [= <- <- <-]. destruct (core_closed (core s)), (ssm s); naive_solver.
  - intros [= <- <- <-]. cbn. rewrite core_close_id, core_close_closed.
    destruct (ssm s); naive_solver.
  - destruct b, (ssm s) eqn:Es; cbn; intros [= <- <- <-]; rewrite ?Es; naive_solver.
  - intros [= <- <- <-]. destruct (ssm s); naive_solver.
  - intros [= <- <- <-]. destruct (ssm s), b; naive_solver.
Qed.

Lemma call_step_ok s0 x op : calls_ok s0 x → calls_ok s0 (call_step x op).
Proof.
  intros [Hid Hssm Hcl Hlog].
  assert (Hsame : ∀ s', session_id (core s') = session_id (core (x_session x)) →
    ssm s' = ssm (x_session x) →
    (core_closed (core (x_session x)) = true → core_closed (core s') = true) →
    calls_ok s0 (with_session x s')).
  { intros s' H1 H2 H3. split; cbn; [congruence..| |done]. intros j p Hp Hc. eauto. }
  destruct op as [k|k|k|c|i|o]; cbn.
  - case_decide as Hk; [done|]. apply eq_None_not_Some in Hk. constructor; cbn; try done.
    + intros j p [[-> <-]|[_ Hp]]%lookup_insert_Some; [|by eauto]. by intros [?|?].
    + unfold releases at 1. cbn. by rewrite releases_begin.
  - destruct (x_calls x !! k) as [p|] eqn:Hk; [|done]. case_decide; [done|].
    destruct (terminating_step p (x_session x)) as [[p' s'] more] eqn:Hs.
    apply terminating_step_spec in Hs as (Hid' & Hssm' & Hmono & Hcl' & Hrel & Hmore).
    constructor; cbn; [congruence..| |].
    + intros j q [[-> <-]|[_ Hq]]%lookup_insert_Some; [|by eauto].
      intros Hp'. apply Hcl'; [done|]. by apply (Hcl _ p Hk).
    + unfold releases. cbn. rewrite (releases_insert x k p p') by done.
      rewrite Hlog, Hmore, Hid, Hssm. destruct (ssm s0); [|done].
      rewrite <- replicate_add. f_equal.
      assert (released p = true → (0 < releases x)%nat) as Hpos.
      { intros Hp. pose proof (releases_pos x k p Hk Hp). lia. }
      destruct (released p), (released p'); try specialize (Hpos eq_refl); try lia.
  - by destruct (x_calls x !! k) as [[]|].
  - destruct (dispatch_core c (x_session x)) as [Hc Hs]. apply Hsame; by rewrite ?Hc, ?Hs.
  - by apply Hsame.
  - apply Hsame; [apply core_step_mono|done|apply core_step_mono].
Qed.

Lemma calls_run_ok s ops : calls_ok s (calls_run (no_calls s) ops).
Proof.
  unfold calls_run. induction ops as [|op ops IH] using rev_ind; [apply no_calls_ok|].
  rewrite foldl_snoc. by apply call_step_ok.
Qed.

(** ** Who closes the session *)

Definition outside_close (op : call_op) : Prop := ∃ r, op = Other (OpClose r).

(** A call of [terminate] that found the session open has closed it. *)
Definition closed_by_call (x : Calls) : Prop :=
  close_reason (core (x_session x)) = Some Terminated ∧
  ∃ k p, x_calls x !! k = Some p ∧ saw_open p = true ∧ closing p = true.

Lemma terminating_step_saw p (s : Session (C := C)) p' s' more :
  terminating_step p s = (p', s', more) → saw_open p = true ∧ closing p = true →
  saw_open p' = true ∧ closing p' = true ∧ s' = s.
Proof.
  destruct p as [|b|b| |b]; cbn; try naive_solver.
  intros Heq [-> _]. destruct (ssm s); naive_solver.
Qed.

Lemma close_reason_closed (c : SessionCore (C := C)) r :
  core_closed c = true → core_close r c = c.
Proof. unfold core_close. by intros ->. Qed.

Lemma closed_by_call_step s0 x op :
  calls_ok s0 x → ¬ outside_close op →
  (core_closed (core (x_session x)) = true → closed_by_call x) →
  core_closed (core (x_session (call_step x op))) = true → closed_by_call (call_step x op).
Proof.
  intros Hok Hop Hby. destruct op as [k|k|k|c|i|o]; cbn.
  - case_decide as Hk; [done|]. cbn. intros [Hr (j & p & Hj & Hp)]%Hby. split; [done|].
    exists j, p. cbn. split; [|done]. rewrite lookup_insert_ne; [done|]. intros ->. by destruct Hk.
  - destruct (x_calls x !! k) as [p|] eqn:Hk; [|done]. case_decide; [done|].
    destruct (terminating_step p (x_session x)) as [[p' s'] more] eqn:Hs. cbn. intros Hc'.
    destruct (core_closed (core (x_session x))) eqn:Hc.
    + destruct (Hby eq_refl) as [Hr (j & q & Hj & Hq)].
      split; cbn.
      * destruct p as [|b|b| |b]; cbn in Hs; try by simplify_eq.
        -- simplify_eq. cbn. by rewrite close_reason_closed.
        -- by destruct (b && ssm (x_session x)); simplify_eq.
      * destruct (decide (j = k)) as [->|Hne]; [|exists j, q; by rewrite lookup_insert_ne].
        rewrite Hk in Hj. simplify_eq. exists k, p'. rewrite lookup_insert_eq.
        destruct (terminating_step_saw _ _ _ _ _ Hs Hq) as (? & ? & _). done.
    + assert (∃ b, p = TClose b) as [b ->].
      { destruct p as [|b|b| |b]; [|by eauto|..]; cbn in Hs.
        1: simplify_eq; congruence.
        all: by rewrite (ck_closed _ _ Hok k _ Hk) in Hc; auto. }
      destruct b; [|by rewrite (ck_closed _ _ Hok k _ Hk) in Hc; auto].
      cbn in Hs. simplify_eq. split; cbn; [unfold core_close; by rewrite Hc|].
      exists k, (TJoin true). by rewrite lookup_insert_eq.
  - by destruct (x_calls x !! k) as [[]|].
  - destruct (dispatch_core c (x_session x)) as [Hc _]. unfold closed_by_call. cbn. by rewrite Hc.
  - exact Hby.
  - destruct (core_step_open (core (x_session x)) o) as [-> Hr].
    { intros r ->. apply Hop. by exists r. }
    intros [? Hk]%Hby. split; [|done]. cbn. by rewrite Hr.
Qed.

Lemma closed_by_call_run s ops :
  core_closed (core s) = false → Forall (λ op, ¬ outside_close op) ops →
  core_closed (core (x_session (calls_run (no_calls s) ops))) = true →
  closed_by_call (calls_run (no_calls s) ops).
Proof.
  intros Hs. induction ops as [|op ops IH] using rev_ind; [cbn; congruence|].
  intros [Hf [Hop _]%Forall_cons]%Forall_app. unfold calls_run in *. rewrite foldl_snoc.
  eapply closed_by_call_step; [apply calls_run_ok|done|]. by apply IH.
Qed.

(** ** After the close *)

(** Nothing is on its way any more. *)
Definition settled (x : Calls) : Prop :=
  core_closed (core (x_session x)) = true ∧
  ∀ k p, x_calls x !! k = Some p → k ∉ x_dropped x →
    p ∈ [TLoad; TClose false; TJoin false; TDone false; TDone true].

Lemma settled_step x op : settled x → settled (call_step x op) ∧ x_log (call_step x op) = x_log x.
Proof.
  intros [Hc Hp]. destruct op as [k|k|k|c|i|o]; cbn.
  - case_decide; [by split_and!|]. split; [|done]. split; [done|]. cbn.
    intros j p [[-> <-]|[_ Hj]]%lookup_insert_Some; [set_solver|by eauto].
  - destruct (x_calls x !! k) as [p|] eqn:Hk; [|by split_and!].
    case_decide as Hd; [by split_and!|]. pose proof (Hp k p Hk Hd) as Hin.
    assert (∃ p', terminating_step p (x_session x) = (p', x_session x, []) ∧
              p' ∈ [TLoad; TClose false; TJoin false; TDone false; TDone true]) as (p' & -> & Hin').
    { rewrite !elem_of_cons in Hin. destruct (x_session x) as [c q f b]. cbn in Hc.
      destruct Hin as [->|[->|[->|[->|[->|[]%elem_of_nil]]]]]; cbn; rewrite ?Hc; cbn;
        eexists; (split; [|]); try (unfold set_core; cbn; rewrite ?close_reason_closed by done);
        try reflexivity; set_solver. }
    cbn. rewrite app_nil_r. split; [|done]. split; [done|]. cbn.
    intros j q [[-> <-]|[_ Hj]]%lookup_insert_Some; [done|by eauto].
  - split; [|by destruct (x_calls x !! k) as [[]|]]. split.
    + by destruct (x_calls x !! k) as [[]|].
    + destruct (x_calls x !! k) as [[]|]; cbn; intros j q Hj Hq; eauto; apply (Hp j); set_solver.
  - destruct (dispatch_core c (x_session x)) as [Hd _]. split; [|done]. split; [cbn; congruence|done].
  - split; [|done]. by split.
  - split; [|done]. split; [by apply core_step_mono|done].
Qed.

Lemma settled_run x ops : settled x → x_log (calls_run x ops) = x_log x.
Proof.
  revert x. induction ops as [|op ops IH]; intros x Hx; [done|].
  destruct (settled_step x op Hx) as [Hy Hl]. cbn. rewrite IH by done. done.
Qed.

(** A call nobody cancels runs to its end. *)
Lemma call_finishes x k p :
  x_calls x !! k = Some p → k ∉ x_dropped x →
  ∃ b, x_calls (calls_run x (replicate 4 (Advance k))) !! k = Some (TDone b).
Proof.
  assert (Hstep : ∀ y q, x_calls y !! k = Some q → k ∉ x_dropped y →
            x_calls (call_step y (Advance k)) !! k = Some (terminating_step q (x_session y)).1.1 ∧
            k ∉ x_dropped (call_step y (Advance k))).
  { intros y q Hq Hd. cbn. rewrite Hq, decide_False by done.
    destruct (terminating_step q (x_session y)) as [[q' s'] more]. cbn.
    by rewrite lookup_insert_eq. }
  intros Hp Hd. cbn [calls_run replicate foldl].
  do 4 (match goal with
    | Hp : x_calls ?y !! k = Some ?q, Hd : k ∉ x_dropped ?y |- _ =>
      destruct (Hstep y q Hp Hd) as [Hp' Hd']; clear Hp Hd; revert Hp' Hd';
      generalize (call_step y (Advance k)); generalize (x_session y); intros ?s ? Hp Hd end).
  rewrite Hp. destruct p as [|b|b| |b]; cbn;
    repeat match goal with |- context [if ?b then _ else _] => destruct b end; eauto.
Qed.

Lemma calls_present ops : ∀ x k,
  is_Some (x_calls x !! k) → is_Some (x_calls (calls_run x ops) !! k).
Proof.
  induction ops as [|op ops IH]; intros x k Hk; [done|]. cbn [calls_run foldl]. apply IH.
  destruct op as [j|j|j|c|i|o]; cbn; try done.
  - case_decide; [done|]. by apply lookup_insert_is_Some'; auto.
  - destruct (x_calls x !! j); [|done]. case_decide; [done|].
    destruct (terminating_step _ _) as [[p' s'] more]. by apply lookup_insert_is_Some'; auto.
  - by destruct (x_calls x !! j) as [[]|].
Qed.

Lemma log_bounded s0 x : calls_ok s0 x → (length (x_log x) ≤ size (x_calls x))%nat.
Proof.
  intros Hok. rewrite (ck_log _ _ Hok). destruct (ssm s0); [|cbn; lia]. rewrite length_replicate.
  apply map_subseteq_size, map_filter_subseteq.
Qed.

Lemma closed_refuses (s : Session (C := C)) :
  core_closed (core s) = true →
  (∀ c, dispatch c s = (Some (Err (closed_error s)), s)) ∧ ∀ w, wait_ready w s ≠ None.
Proof.
  intros Hc. unfold dispatch, wait_ready, wait_sendable. rewrite Hc, orb_true_r. done.
Qed.

(** C38: [terminate] on a session shared by any number of callers, each call in its own
    steps (the load of the flag, the close, the join of the tasks, the request), with
    everything else that happens to the session in between and with calls cancelled at any
    of their awaits.  The requests made are exactly one [TerminateSession] with the
    session's id for each call that found it open and got past its join, and none without
    an API client.  From the close of any call on, the session is closed, every command is
    refused and no [wait_ready] hangs.  A call that is not cancelled returns.  Where only
    these calls close a session that was open, and those made have all returned, it is
    closed as terminated and has been released; and once a session is closed and no call
    that found it open is left between its close and its request, nothing that happens
    later, further calls included, makes a request. *)
Theorem terminate_spec (s : Session (C := C)) ops :
  let x := calls_run (no_calls s) ops in
  let request := TerminateSession (session_id (core s)) in
  x_log x = (if ssm s then replicate (releases x) request else []) ∧
  (∀ k p, x_calls x !! k = Some p → closing p = true →
    core_closed (core (x_session x)) = true ∧
    (∀ c, dispatch c (x_session x) = (Some (Err (closed_error (x_session x))), x_session x)) ∧
    ∀ w, wait_ready w (x_session x) ≠ None) ∧
  (∀ k, is_Some (x_calls x !! k) → k ∉ x_dropped x →
    ∃ b, x_calls (calls_run x (replicate 4 (Advance k))) !! k = Some (TDone b)) ∧
  (core_closed (core s) = false → Forall (λ op, ¬ outside_close op) ops →
   (∃ k, is_Some (x_calls x !! k)) →
   (∀ k p, x_calls x !! k = Some p → ∃ b, p = TDone b) →
   close_reason (core (x_session x)) = Some Terminated ∧
   (ssm s = true → request ∈ x_log x)) ∧
  (core_closed (core (x_session x)) = true →
   (∀ k p, x_calls x !! k = Some p → k ∉ x_dropped x → p = TLoad ∨ ∃ b, p = TDone b) →
   ∀ more, x_log (calls_run x more) = x_log x).
Proof.
  intros x request. pose proof (calls_run_ok s ops) as Hok. fold x in Hok.
  split_and!.
  - apply (ck_log _ _ Hok).
  - intros k p Hp Hc. assert (core_closed (core (x_session x)) = true) as Hcl
      by (by apply (ck_closed _ _ Hok k p); auto).
    split; [done|]. by apply closed_refuses.
  - intros k [p Hp]. by apply (call_finishes x k p).
  - intros Hs Hf [k [p Hp]] Hall.
    destruct (Hall k p Hp) as [b ->].
    destruct (closed_by_call_run s ops Hs Hf) as [Hr (j & q & Hj & Hsaw & _)].
    { by apply (ck_closed _ _ Hok k (TDone b)); auto. }
    split; [done|]. intros Hssm. rewrite (ck_log _ _ Hok), Hssm.
    destruct (Hall j q Hj) as [b' ->]. cbn in Hsaw. subst b'.
    apply elem_of_replicate. split; [done|]. apply releases_pos with j (TDone true); done.
  - intros Hc Hall more. apply settled_run. split; [done|]. intros k p Hp Hd.
    destruct (Hall k p Hp Hd) as [->|[[] ->]]; set_solver.
Qed.

(** What that does not promise.  A call cancelled while the tasks wind down has closed the
    session and will not release it, and neither will a later call, which finds it
    closed: the service keeps the session until it times out. *)
Lemma cancelled_release_lost (s : Session (C := C)) ops :
  let x := calls_run (no_calls s) ([Begin 0; Advance 0; Advance 0; Cancel 0] ++ ops) in
  core_closed (core (x_session x)) = true ∧ x_log x = [].
Proof.
  intros x. subst x. unfold calls_run. rewrite foldl_app.
  set (y := foldl _ _ [_; _; _; _]).
  assert (settled y) as Hy.
  { split; [apply core_close_closed|]. intros k p Hp Hd. exfalso. apply Hd.
    destruct (decide (k = 0%nat)) as [->|Hne]; [set_solver|].
    change (x_calls y) with (<[0%nat := TJoin (negb (core_closed (core s)))]> (<[0%nat :=
      TClose (negb (core_closed (core s)))]> (<[0%nat := TLoad]> (∅ : gmap nat Terminating)))) in Hp.
    by rewrite !lookup_insert_ne in Hp. }
  split; [|by rewrite settled_run]. clearbody y. revert y Hy.
  induction ops as [|op ops IH]; intros y Hy; [apply Hy|]. apply IH. by apply settled_step.
Qed.

(** And of two calls that both look before either closes, both make the request. *)
Lemma concurrent_release_twice (s : Session (C := C)) :
  core_closed (core s) = false → ssm s = true →
  x_log (calls_run (no_calls s)
    [Begin 0; Begin 1; Advance 0; Advance 1; Advance 0; Advance 1; Advance 0; Advance 1])
  = replicate 2 (TerminateSession (session_id (core s))).
Proof.
  intros Hc Hs. destruct s as [[] ? ? ?]. simpl in Hc, Hs. subst.
  vm_compute. reflexivity.
Qed.
End Termination.

(** ** A concrete session *)

Abbreviation one_call := [Begin 0; Advance 0; Advance 0; Other (OpEmit []); Advance 0; Advance 0].

Lemma terminate_spec_witness :
  let x := calls_run (no_calls toy_session) one_call in
  close_reason (core (x_session x)) = Some Terminated ∧
  TerminateSession (lit "s-1") ∈ x_log x ∧
  x_log (calls_run x [Begin 1; Advance 1; Advance 1; Advance 1]) = x_log x.
Proof.
  destruct (terminate_spec toy_session one_call) as (_ & _ & _ & Hreleased & Hlater).
  assert (∀ k p, x_calls (calls_run (no_calls toy_session) one_call) !! k = Some p → p = TDone true)
    as Hone.
  { intros k p Hp. apply elem_of_map_to_list in Hp. vm_compute in Hp.
    apply list_elem_of_singleton in Hp. congruence. }
  destruct Hreleased as [Hr Hin].
  - reflexivity.
  - by repeat constructor; intros [r Hr].
  - exists 0%nat. by eexists.
  - intros k p ->%Hone. by eexists.
  - split; [exact Hr|]. split; [by apply Hin|]. apply Hlater; [reflexivity|].
    intros k p ->%Hone _. right. by eexists.
Defined.
