(* ===== verification/Endpoint.v ===== *)
(** * Reaching the gateway (src/connection.rs: endpoint policy, URL hygiene, dial;
      src/signing.rs: presigned URLs)

    The [url] crate, the WebSocket handshake and SigV4 signing are parameters.
    Each dial attempt is numbered, so that the clock, the credentials and the
    network may answer differently every time. *)

From S2P Require Import Prelude RustStd Errors Interfaces Session.

(** ** Strings *)

Definition ends_with (s suffix : str) : bool :=
  bool_decide (drop (length s - length suffix) s = suffix) && (#suffix <=? #s).
Definition starts_with (s prefix : str) : bool := bool_decide (take (length prefix) s = prefix).

(** [str::split(c)]: the pieces between the separators, at least one. *)
Fixpoint split_on (c : Z) (s : str) : list str :=
  match s with
  | [] => [[]]
  | x :: s' =>
    if x =? c then [] :: split_on c s'
    else match split_on c s' with
         | [] => [[x]]
         | l :: ls => (x :: l) :: ls
         end
  end.

Definition ascii_lower (c : Z) : Z := if (0x41 <=? c) && (c <=? 0x5A) then c + 32 else c.
Definition eq_ignore_ascii_case (s t : str) : bool :=
  bool_decide (map ascii_lower s = map ascii_lower t).

(** ** URLs *)

Class UrlLib := {
  Url : Type;
  url_parse : str → Result text Url;
  scheme : Url → str;
  host_str : Url → option str;
  query_pairs : Url → list (str * str);
  set_query : option (list (str * str)) → Url → Url;   (* None removes the query *)
  url_into : Url → str }.

(** Writing the query of a URL and reading it back. *)
Class UrlLibOk `{UrlLib} : Prop := {
  query_set ps u : query_pairs (set_query (Some ps) u) = ps;
  query_clear u : query_pairs (set_query None u) = [] }.

Section Endpoint.
Context `{UrlLib}.

Definition endpoint_validate (p : EndpointPolicy) (raw : str) : Res () :=
  url ← map_err (λ e, Error_Config (PLit "stream URL is not a valid URL: " :: e)) (url_parse raw);
  match p with
  | AllowAny =>
    if bool_decide (scheme url = lit "ws") || bool_decide (scheme url = lit "wss") then Ok ()
    else Err (Error_Config [PLit "stream URL scheme must be ws or wss, got "; PStr (scheme url)])
  | AwsOnly =>
    if negb (bool_decide (scheme url = lit "wss")) then
      Err (Error_Config [PLit "stream URL must use wss://, got "; PStr (scheme url); PLit "://"])
    else
      host ← match host_str url with
             | Some h => Ok h
             | None => Err (Error_Config [PLit "stream URL has no host"])
             end;
      let in_aws := ends_with host (lit ".amazonaws.com")
                    || ends_with host (lit ".amazonaws.com.cn") in
      let is_ssm := existsb (λ label, bool_decide (label = lit "ssmmessages")
                                      || starts_with label (lit "ssmmessages-"))
                      (split_on 0x2E host) in
      if in_aws && is_ssm then Ok ()
      else Err (Error_Config [PLit "refusing to connect to "; PStr host;
        PLit ": not an AWS SSM messages endpoint. Set SessionConfig::endpoint_policy to EndpointPolicy::AllowAny to override."])
  end.

(** The URL as logged; the last branch is its fixed text. *)
Definition sanitized (raw : str) : option Url :=
  match url_parse raw with
  | Ok url =>
    let kept := filter (λ kv, negb (eq_ignore_ascii_case kv.1 (lit "tokenValue")) = true)
                  (query_pairs url) in
    let cleared := set_query None url in
    Some (if decide (kept = []) then cleared else set_query (Some kept) cleared)
  | Err _ => None
  end.

Definition sanitize_url (raw : str) : str :=
  match sanitized raw with
  | Some u => url_into u
  | None => lit "<unparseable URL>"
  end.

(** ** Presigned URLs *)

Definition PRESIGNED_PARAMS : list str := map lit [
  "X-Amz-Algorithm"; "X-Amz-Credential"; "X-Amz-Date"; "X-Amz-Expires";
  "X-Amz-SignedHeaders"; "X-Amz-Signature"; "X-Amz-Security-Token" ]%string.

Definition is_presigned (raw : str) : bool :=
  match url_parse raw with
  | Err _ => false
  | Ok parsed =>
    existsb (λ kv, existsb (eq_ignore_ascii_case kv.1) PRESIGNED_PARAMS) (query_pairs parsed)
  end.

(** ** Dialling *)

Definition CONNECT_ATTEMPTS : nat := 3.

(** [tungstenite::Error]: an I/O error, or anything a retry cannot fix. *)
Inductive DialError := DialIo (m : text) | DialOther (m : text).
Definition dial_text (e : DialError) : text := match e with DialIo m | DialOther m => m end.

Section Dial.
Context {Request Signer Ws : Type}.
Variable upgrade_request : nat → str → Res Request.
Variable sign : nat → Signer → Request → Res Request.
Variable connect_async : nat → Request → Result DialError Ws.

(** The request of one attempt: built afresh, signed unless the URL is presigned. *)
Definition dial_request (url : str) (signer : option Signer) (attempt : nat) : Res Request :=
  request ← upgrade_request attempt url;
  match signer with
  | Some s => if is_presigned url then Ok request else sign attempt s request
  | None => Ok request
  end.

(** The loop over the [remaining] attempts.  The second component is the
    trace: the requests sent and the pauses between them; falling out of the loop
    is the source's [unreachable!]. *)
Inductive dial_event (R : Type) := Dialled (r : R) | Slept (d : Duration).
Arguments Dialled {R} _.
Arguments Slept {R} _.

Fixpoint dial_loop (url : str) (signer : option Signer) (remaining attempt : nat) (backoff : Duration)
  : Outcome (Res Ws) * list (dial_event Request) :=
  match remaining with
  | O => (Panicked, [])
  | S remaining =>
    match dial_request url signer attempt with
    | Err e => (Done (Err e), [])
    | Ok request =>
      match connect_async attempt request with
      | Ok ws => (Done (Ok ws), [Dialled request])
      | Err e =>
        let retriable := match e with DialIo _ => true | DialOther _ => false end in
        if negb retriable || (attempt =? CONNECT_ATTEMPTS)%nat then
          (Done (Err (transport (PLit "could not open the SSM WebSocket: " :: dial_text e))),
           [Dialled request])
        else
          match dur_mul backoff 2 with
          | Panicked => (Panicked, [Dialled request; Slept backoff])
          | Done backoff' =>
            let '(r, tr) := dial_loop url signer remaining (S attempt) backoff' in
            (r, Dialled request :: Slept backoff :: tr)
          end
      end
    end
  end.

Definition dial (url : str) (signer : option Signer) :=
  dial_loop url signer CONNECT_ATTEMPTS 1 (from_millis 200).

(** The error a failed attempt ends the dial with, [None] if it is retried. *)
Definition dial_verdict (attempt : nat) (e : DialError) : option Error :=
  match e with
  | DialIo m => if (attempt =? 3)%nat
                then Some (transport (PLit "could not open the SSM WebSocket: " :: m)) else None
  | DialOther m => Some (transport (PLit "could not open the SSM WebSocket: " :: m))
  end.

(** The requests sent: each is the request of its own attempt, and there are at most as
    many as attempts. *)
Definition dialled {R} (tr : list (dial_event R)) : list R :=
  omap (λ e, match e with Dialled r => Some r | Slept _ => None end) tr.

Lemma dial_loop_requests url signer remaining : ∀ attempt backoff,
  (length (dialled (dial_loop url signer remaining attempt backoff).2) ≤ remaining)%nat
  ∧ ∀ j q, dialled (dial_loop url signer remaining attempt backoff).2 !! j = Some q →
      dial_request url signer (attempt + j) = Ok q.
Proof.
  unfold dialled. induction remaining as [|k IH]; intros attempt backoff; cbn [dial_loop].
  { by split. }
  destruct (dial_request url signer attempt) as [q|e] eqn:Eq; cbn; [|split; [lia|done]].
  assert (Hone : ∀ j q', [q] !! j = Some q' → dial_request url signer (attempt + j) = Ok q').
  { intros [|j] q' [= <-]. by rewrite Nat.add_0_r. }
  destruct (connect_async attempt q) as [ws|e]; [cbn; split; [lia|done]|].
  destruct (_ || _); [cbn; split; [lia|done]|].
  destruct (dur_mul backoff 2) as [b'|]; [|cbn; split; [lia|done]].
  specialize (IH (S attempt) b') as [Hl Hin].
  destruct (dial_loop url signer k (S attempt) b') as [r tr]. cbn in *.
  split; [lia|]. intros [|j] q' Hq; [by apply Hone|]. rewrite Nat.add_succ_r. by apply (Hin j).
Qed.

(** Dialling never falls out of its loop, makes at most three attempts with
    pauses of 200 and 400 ms between them, and moves on to another attempt only
    after an I/O error: a rejection by the service or a signing failure ends it
    at once, and so does the first success. *)
Lemma dial_bounded url signer :
  ∃ r k, (dial url signer).1 = Done r ∧ (1 ≤ k ≤ 3)%nat
    ∧ (∀ n, (1 ≤ n < k)%nat → ∃ q m, dial_request url signer n = Ok q
         ∧ connect_async n q = Err (DialIo m))
    ∧ omap (λ e, match e with Slept d => Some d | _ => None end) (dial url signer).2
      = take (k - 1) [from_millis 200; from_millis 400]
    ∧ match dial_request url signer k with
      | Err e => r = Err e
      | Ok q => match connect_async k q with
                | Ok ws => r = Ok ws
                | Err e => ∃ x, dial_verdict k e = Some x ∧ r = Err x
                end
      end.
Proof.
  unfold dial, CONNECT_ATTEMPTS. cbn [dial_loop].
  assert (Hb1 : dur_mul (from_millis 200) 2 = Done (from_millis 400)) by reflexivity.
  assert (Hb2 : dur_mul (from_millis 400) 2 = Done (from_millis 800)) by reflexivity.
  assert (Hb3 : dur_mul (from_millis 800) 2 = Done (from_millis 1600)) by reflexivity.
  rewrite Hb1, Hb2, Hb3.
  destruct (dial_request url signer 1) as [q1|e1] eqn:E1.
  2: { eexists _, 1%nat. rewrite E1. split_and!; try done; lia. }
  destruct (connect_async 1 q1) as [w1|[m1|m1]] eqn:F1; cbn [negb orb Nat.eqb].
  1, 3: eexists _, 1%nat; rewrite E1, F1; split_and!; try done; try lia; by eexists.
  destruct (dial_request url signer 2) as [q2|e2] eqn:E2.
  2: { eexists _, 2%nat. rewrite E2. split_and!; try done; try lia.
       intros n Hn. assert (n = 1)%nat as -> by lia. eauto. }
  assert (H1 : ∀ n, (1 ≤ n < 2)%nat → ∃ q m, dial_request url signer n = Ok q
                 ∧ connect_async n q = Err (DialIo m))
    by (intros n Hn; assert (n = 1)%nat as -> by lia; eauto).
  destruct (connect_async 2 q2) as [w2|[m2|m2]] eqn:F2; cbn [negb orb Nat.eqb].
  1, 3: eexists _, 2%nat; rewrite E2, F2; split_and!; try done; try lia; by eexists.
  assert (H2 : ∀ n, (1 ≤ n < 3)%nat → ∃ q m, dial_request url signer n = Ok q
                 ∧ connect_async n q = Err (DialIo m)).
  { intros n Hn. destruct (decide (n = 2)%nat) as [->|]; [eauto|apply H1; lia]. }
  destruct (dial_request url signer 3) as [q3|e3] eqn:E3.
  2: { eexists _, 3%nat. rewrite E3. split_and!; try done; lia. }
  destruct (connect_async 3 q3) as [w3|[m3|m3]] eqn:F3; cbn [negb orb Nat.eqb];
    eexists _, 3%nat; rewrite E3, F3; split_and!; try done; try lia; by eexists.
Qed.
End Dial.

(** ** Properties of the policy *)

Lemma ends_with_spec s suf : ends_with s suf = true ↔ ∃ p, s = p ++ suf.
Proof.
  unfold ends_with. rewrite andb_true_iff, bool_decide_eq_true, Z.leb_le. split.
  - intros [<- _]. exists (take (length s - length suf) s). by rewrite take_drop.
  - intros [p ->]. rewrite length_app, len_app. pose proof (len_nonneg p). split; [|lia].
    by replace (length p + length suf - length suf)%nat with (length p) by lia;
      rewrite drop_app_length.
Qed.

Lemma starts_with_spec s pre : starts_with s pre = true ↔ ∃ t, s = pre ++ t.
Proof.
  unfold starts_with. rewrite bool_decide_eq_true. split.
  - intros Hp. exists (drop (length pre) s). by rewrite <- Hp at 1; rewrite take_drop.
  - intros [t ->]. by rewrite take_app_length.
Qed.

Lemma split_on_nonempty c s : split_on c s ≠ [].
Proof. destruct s as [|x s]; cbn; [done|]. destruct (x =? c); [done|]. by destruct (split_on c s). Qed.

(** The labels of a host name, joined by dots, are the host name. *)
Lemma split_on_join c s :
  s = match split_on c s with [] => [] | l :: ls => l ++ concat (map (cons c) ls) end.
Proof.
  induction s as [|x s IH]; [done|]. cbn [split_on].
  pose proof (split_on_nonempty c s) as Hne. destruct (split_on c s) as [|l ls]; [done|].
  destruct (Z.eqb_spec x c) as [->|]; cbn; by rewrite IH at 1.
Qed.

(** C20: the default policy accepts exactly the [wss] URLs whose host lies under
    [.amazonaws.com] or [.amazonaws.com.cn] and has a dot-separated label that is
    [ssmmessages] or begins with [ssmmessages-]; everything else is refused with a
    configuration error. *)
Theorem endpoint_policy_spec raw :
  (endpoint_validate AwsOnly raw = Ok () ↔
     ∃ u h, url_parse raw = Ok u ∧ scheme u = lit "wss" ∧ host_str u = Some h
       ∧ (∃ p, h = p ++ lit ".amazonaws.com" ∨ h = p ++ lit ".amazonaws.com.cn")
       ∧ ∃ label, label ∈ split_on 0x2E h
         ∧ (label = lit "ssmmessages" ∨ ∃ t, label = lit "ssmmessages-" ++ t))
  ∧ ∀ e, endpoint_validate AwsOnly raw = Err e → ∃ m, e = Error_Config m.
Proof.
  unfold endpoint_validate.
  destruct (url_parse raw) as [u|e0]; cbn [map_err mbind Result_bind].
  2: { split; [split; [done|by intros (?&?&?&_)]|]. intros e [= <-]. eauto. }
  destruct (bool_decide_reflect (scheme u = lit "wss")) as [Hs|Hs]; cbn [negb].
  2: { split; [split; [done|]|intros e [= <-]; eauto].
       intros (u' & h & [= <-] & ? & _). done. }
  destruct (host_str u) as [h|] eqn:Eh; cbn [mbind Result_bind].
  2: { split; [split; [done|]|intros e [= <-]; eauto].
       intros (u' & h & [= <-] & _ & ? & _). congruence. }
  set (in_aws := ends_with _ _ || _). set (is_ssm := existsb _ _).
  assert (Ha : in_aws = true ↔ ∃ p, h = p ++ lit ".amazonaws.com" ∨ h = p ++ lit ".amazonaws.com.cn").
  { unfold in_aws. rewrite orb_true_iff, !ends_with_spec. split.
    - intros [[p ?]|[p ?]]; eauto.
    - intros [p [?|?]]; eauto. }
  assert (Hl : is_ssm = true ↔ ∃ label, label ∈ split_on 0x2E h
         ∧ (label = lit "ssmmessages" ∨ ∃ t, label = lit "ssmmessages-" ++ t)).
  { unfold is_ssm. rewrite existsb_exists. split.
    - intros (l & Hin%list_elem_of_In & Hl). exists l. split; [done|]. revert Hl.
      rewrite orb_true_iff, bool_decide_eq_true, starts_with_spec. done.
    - intros (l & Hin & Hl). exists l. split; [by apply list_elem_of_In|].
      rewrite orb_true_iff, bool_decide_eq_true, starts_with_spec. done. }
  split.
  - split.
    + destruct (in_aws && is_ssm) eqn:E; [|done]. apply andb_true_iff in E as [E1 E2]. intros _.
      exists u, h. split_and!; try done; [by apply Ha|by apply Hl].
    + intros (u' & h' & [= <-] & _ & Hh & H1 & H2).
      rewrite Eh in Hh. injection Hh as <-.
      by rewrite (proj2 Ha H1), (proj2 Hl H2).
  - destruct (in_aws && is_ssm); [done|]. intros e [= <-]. eauto.
Qed.

(** A logged URL keeps every query parameter but the session token. *)
Lemma sanitize_hides_token `{!UrlLibOk} raw u v :
  url_parse raw = Ok u → sanitized raw = Some v →
  query_pairs v = filter (λ kv, negb (eq_ignore_ascii_case kv.1 (lit "tokenValue")) = true)
                    (query_pairs u).
Proof.
  intros Hp. unfold sanitized. rewrite Hp. cbv zeta.
  destruct (decide _) as [Hk|]; intros Hv; apply (inj Some) in Hv as <-.
  - rewrite Hk. apply query_clear.
  - apply query_set.
Qed.
End Endpoint.

(** ** Witnesses *)

(** URLs that are a host under [wss] with no query. *)
#[local] Instance toy_url : UrlLib := {|
  Url := str; url_parse := Ok; scheme _ := lit "wss"; host_str u := Some u;
  query_pairs _ := []; set_query _ u := u; url_into u := u |}.

(** The regional endpoint is accepted, and so is any host under [amazonaws.com]
    with a label beginning with [ssmmessages-], such as a load balancer's. *)
Lemma endpoint_policy_spec_witness :
  endpoint_validate AwsOnly (lit "ssmmessages.us-east-1.amazonaws.com") = Ok ()
  ∧ endpoint_validate AwsOnly (lit "ssmmessages-x-1.us-east-1.elb.amazonaws.com") = Ok ()
  ∧ endpoint_validate AwsOnly (lit "evil-ssmmessages.amazonaws.com") ≠ Ok ().
Proof.
  split_and!; [| |by vm_compute].
  - apply (endpoint_policy_spec (lit "ssmmessages.us-east-1.amazonaws.com")).
    eexists _, _. split_and!; [reflexivity..| |].
    + exists (lit "ssmmessages.us-east-1"). left. reflexivity.
    + exists (lit "ssmmessages"). split; [vm_compute; left|by left].
  - apply (endpoint_policy_spec (lit "ssmmessages-x-1.us-east-1.elb.amazonaws.com")).
    eexists _, _. split_and!; [reflexivity..| |].
    + exists (lit "ssmmessages-x-1.us-east-1.elb"). left. reflexivity.
    + exists (lit "ssmmessages-x-1"). split; [vm_compute; left|].
      right. exists (lit "x-1"). reflexivity.
Defined.
