(* ===== verification/Connection.v ===== *)
(** * The data channel (src/connection.rs)

    The state the tasks of a channel share ([World]) and the five tasks as programs
    of [Coroutine]: the reader with acknowledgement, reordering, in-order delivery,
    the handshake and control messages; the command task with chunking, encryption,
    sequence numbers and tracking; retransmission, heartbeat and the writer.  Each
    lock, atomic or queue operation is one step, so that tasks interleave, and wait,
    wherever the source lets them.

    [Event] puts the tasks together with the outside: frames that arrive, commands that
    are submitted, a socket that finishes a write when it likes, a key service that
    answers when it likes, tickers, and the session handle, which closes the channel,
    reads its output, and when it is dropped aborts the tasks.  A run is a list of events.

    Readings of the clock, fresh UUIDs and nonces come from numbered supplies.
    [History] records what happened, oldest first, and is read by nothing.

    A panic ends a task; the places that can panic hold no guard.  The sending half
    of the writer queue lives in the state the other four tasks share; they end only
    when the session is closed, which the writer notices before the queue's end. *)

From S2P Require Import Prelude RustStd Errors Interfaces Coroutine BinaryProtocol Ack Crypto.
From S2P Require Import Channels Handshake Documents Session.

Definition WRITER_QUEUE_DEPTH : Z := 1024.
Definition COMMAND_QUEUE_DEPTH : Z := 256.

(** [tungstenite::Message]; a close frame carries at most a reason. *)
Inductive WsMessage :=
| Text (s : str)
| Binary (data : list byte)
| Ping (data : list byte)
| Pong (data : list byte)
| CloseFrame (reason : option str)
| RawFrame.

(** What [source.next()] yields. *)
Inductive ReadEvent := Incoming (m : WsMessage) | ReadFailed (e : text) | EndOfStream.

(** The WebSocket sink: idle, busy with a frame, done with it (the error, if any),
    busy closing, closed. *)
Inductive Sink :=
| SinkIdle
| Writing (m : WsMessage)
| Written (e : option text)
| SinkClosing
| SinkClosed.

(** The body of a [channel_closed] message. *)
Record ChannelClosedBody := { output : option str }.


(** [truncate]: at most [max] characters. *)
Definition truncate (s : str) (max : nat) : str := take max s.

(** [errors.join("; ")]. *)
Fixpoint join_text (ts : list text) : text :=
  match ts with
  | [] => []
  | [t] => t
  | t :: ts => t ++ [PLit "; "] ++ join_text ts
  end.

(** The tasks of a channel. *)
Inductive TaskId := Writer | Reader | Commands | Retransmit | Heartbeat.
#[export] Instance TaskId_eq_dec : EqDecision TaskId.
Proof. solve_decision. Defined.

(** A message that was given a sequence number: by whom, its payload before
    encryption, and its frame. *)
Record Tracked := {
  tk_by : TaskId; tk_seq : Z; tk_type : PayloadType; tk_payload : list byte;
  tk_wire : list byte }.

(** Sending: messages numbered, frames handed to the writer by senders, frames the
    socket accepted, commands accepted from callers and taken from the queue.
    Receiving: events read, stream messages delivered, chunks put out, and what each
    output stream was offered and gave its reader.  Whether a task was aborted. *)
Record History := {
  h_tracked : list Tracked;
  h_sent : list (list byte);
  h_wire : list WsMessage;
  h_accepted : list Command;
  h_taken : list Command;
  h_read : list ReadEvent;
  h_delivered : list ClientMessage;
  h_emitted : list (list byte);
  h_streams : gmap nat (list (list byte) * list (list byte));
  h_aborted : bool }.

Definition no_history : History :=
  {| h_tracked := []; h_sent := []; h_wire := []; h_accepted := []; h_taken := [];
     h_read := []; h_delivered := []; h_emitted := []; h_streams := ∅; h_aborted := false |}.

(** The build, and the supplies of clock readings and fresh values. *)
Class Platform := {
  feature_kms : bool;
  clock : nat → Z;
  millis : nat → Z;
  uuids : nat → list byte;
  nonces : nat → list byte }.

Section Connection.
Context {C : Type → Type} `{Mpsc C}.
Context `{Sha256, UuidDisplay, Aes256Gcm, Base64}.
Context {Value : Type} `{ActionJson Value}.
Context `{Serde AcknowledgeContent, Serde (HandshakeRequest (Value := Value)),
  Serde (HandshakeResponse (Value := Value)), Serde HandshakeComplete,
  Serde EncryptionChallengeRequest, Serde EncryptionChallengeResponse,
  Serde ChannelClosedBody}.
Context `{Platform}.

(** The queues, the socket, the tickers and the key service. *)
Record Net := {
  n_commands : C Command;
  n_writer : C WsMessage;
  n_inbox : list ReadEvent;
  n_sink : Sink;
  n_retransmit_due : bool;
  n_heartbeat_due : bool;
  n_kms : nat }.                     (* answers of the KMS the reader has not taken *)

Record World := {
  w_core : SessionCore (C := C);
  w_net : Net;
  w_last_inbound : Z;
  w_chunk_size : Z;
  w_locked : option TaskId;          (* the mutex around the next sequence number *)
  w_handshake : HandshakeHandler;
  w_started : option Z;
  w_draws : nat;
  w_history : History }.

Abbreviation Io := (Prog World Error).

(** *** Record updates *)

Definition set_core (w : World) (c : SessionCore (C := C)) : World :=
  {| w_core := c; w_net := w_net w; w_last_inbound := w_last_inbound w;
     w_chunk_size := w_chunk_size w; w_locked := w_locked w; w_handshake := w_handshake w;
     w_started := w_started w; w_draws := w_draws w; w_history := w_history w |}.
Definition set_net (w : World) (n : Net) : World :=
  {| w_core := w_core w; w_net := n; w_last_inbound := w_last_inbound w;
     w_chunk_size := w_chunk_size w; w_locked := w_locked w; w_handshake := w_handshake w;
     w_started := w_started w; w_draws := w_draws w; w_history := w_history w |}.
Definition set_last_inbound (w : World) (t : Z) : World :=
  {| w_core := w_core w; w_net := w_net w; w_last_inbound := t;
     w_chunk_size := w_chunk_size w; w_locked := w_locked w; w_handshake := w_handshake w;
     w_started := w_started w; w_draws := w_draws w; w_history := w_history w |}.
Definition set_locked (w : World) (b : option TaskId) : World :=
  {| w_core := w_core w; w_net := w_net w; w_last_inbound := w_last_inbound w;
     w_chunk_size := w_chunk_size w; w_locked := b; w_handshake := w_handshake w;
     w_started := w_started w; w_draws := w_draws w; w_history := w_history w |}.
Definition set_handshake (w : World) (h : HandshakeHandler) (st : option Z) : World :=
  {| w_core := w_core w; w_net := w_net w; w_last_inbound := w_last_inbound w;
     w_chunk_size := w_chunk_size w; w_locked := w_locked w; w_handshake := h;
     w_started := st; w_draws := w_draws w; w_history := w_history w |}.
Definition add_draw (w : World) : World :=
  {| w_core := w_core w; w_net := w_net w; w_last_inbound := w_last_inbound w;
     w_chunk_size := w_chunk_size w; w_locked := w_locked w; w_handshake := w_handshake w;
     w_started := w_started w; w_draws := S (w_draws w); w_history := w_history w |}.
Definition set_history (w : World) (h : History) : World :=
  {| w_core := w_core w; w_net := w_net w; w_last_inbound := w_last_inbound w;
     w_chunk_size := w_chunk_size w; w_locked := w_locked w; w_handshake := w_handshake w;
     w_started := w_started w; w_draws := w_draws w; w_history := h |}.

Definition set_commands (w : World) (q : C Command) : World :=
  set_net w {| n_commands := q; n_writer := n_writer (w_net w); n_inbox := n_inbox (w_net w);
               n_sink := n_sink (w_net w); n_retransmit_due := n_retransmit_due (w_net w);
               n_heartbeat_due := n_heartbeat_due (w_net w); n_kms := n_kms (w_net w) |}.
Definition set_writer (w : World) (q : C WsMessage) : World :=
  set_net w {| n_commands := n_commands (w_net w); n_writer := q; n_inbox := n_inbox (w_net w);
               n_sink := n_sink (w_net w); n_retransmit_due := n_retransmit_due (w_net w);
               n_heartbeat_due := n_heartbeat_due (w_net w); n_kms := n_kms (w_net w) |}.
Definition set_inbox (w : World) (l : list ReadEvent) : World :=
  set_net w {| n_commands := n_commands (w_net w); n_writer := n_writer (w_net w); n_inbox := l;
               n_sink := n_sink (w_net w); n_retransmit_due := n_retransmit_due (w_net w);
               n_heartbeat_due := n_heartbeat_due (w_net w); n_kms := n_kms (w_net w) |}.
Definition set_sink (w : World) (s : Sink) : World :=
  set_net w {| n_commands := n_commands (w_net w); n_writer := n_writer (w_net w);
               n_inbox := n_inbox (w_net w); n_sink := s;
               n_retransmit_due := n_retransmit_due (w_net w);
               n_heartbeat_due := n_heartbeat_due (w_net w); n_kms := n_kms (w_net w) |}.
Definition set_due (w : World) (retransmit heartbeat : bool) : World :=
  set_net w {| n_commands := n_commands (w_net w); n_writer := n_writer (w_net w);
               n_inbox := n_inbox (w_net w); n_sink := n_sink (w_net w);
               n_retransmit_due := retransmit; n_heartbeat_due := heartbeat;
               n_kms := n_kms (w_net w) |}.
Definition set_kms (w : World) (n : nat) : World :=
  set_net w {| n_commands := n_commands (w_net w); n_writer := n_writer (w_net w);
               n_inbox := n_inbox (w_net w); n_sink := n_sink (w_net w);
               n_retransmit_due := n_retransmit_due (w_net w);
               n_heartbeat_due := n_heartbeat_due (w_net w); n_kms := n |}.

Definition add_tracked (w : World) (x : Tracked) : World :=
  let h := w_history w in
  set_history w {| h_tracked := h_tracked h ++ [x]; h_sent := h_sent h; h_wire := h_wire h;
    h_accepted := h_accepted h; h_taken := h_taken h; h_read := h_read h;
    h_delivered := h_delivered h; h_emitted := h_emitted h; h_streams := h_streams h;
    h_aborted := h_aborted h |}.
Definition add_sent (w : World) (wire : list byte) : World :=
  let h := w_history w in
  set_history w {| h_tracked := h_tracked h; h_sent := h_sent h ++ [wire]; h_wire := h_wire h;
    h_accepted := h_accepted h; h_taken := h_taken h; h_read := h_read h;
    h_delivered := h_delivered h; h_emitted := h_emitted h; h_streams := h_streams h;
    h_aborted := h_aborted h |}.
Definition add_wire (w : World) (m : WsMessage) : World :=
  let h := w_history w in
  set_history w {| h_tracked := h_tracked h; h_sent := h_sent h; h_wire := h_wire h ++ [m];
    h_accepted := h_accepted h; h_taken := h_taken h; h_read := h_read h;
    h_delivered := h_delivered h; h_emitted := h_emitted h; h_streams := h_streams h;
    h_aborted := h_aborted h |}.
Definition add_accepted (w : World) (c : Command) : World :=
  let h := w_history w in
  set_history w {| h_tracked := h_tracked h; h_sent := h_sent h; h_wire := h_wire h;
    h_accepted := h_accepted h ++ [c]; h_taken := h_taken h; h_read := h_read h;
    h_delivered := h_delivered h; h_emitted := h_emitted h; h_streams := h_streams h;
    h_aborted := h_aborted h |}.
Definition add_taken (w : World) (c : Command) : World :=
  let h := w_history w in
  set_history w {| h_tracked := h_tracked h; h_sent := h_sent h; h_wire := h_wire h;
    h_accepted := h_accepted h; h_taken := h_taken h ++ [c]; h_read := h_read h;
    h_delivered := h_delivered h; h_emitted := h_emitted h; h_streams := h_streams h;
    h_aborted := h_aborted h |}.
Definition add_read (w : World) (ev : ReadEvent) : World :=
  let h := w_history w in
  set_history w {| h_tracked := h_tracked h; h_sent := h_sent h; h_wire := h_wire h;
    h_accepted := h_accepted h; h_taken := h_taken h; h_read := h_read h ++ [ev];
    h_delivered := h_delivered h; h_emitted := h_emitted h; h_streams := h_streams h;
    h_aborted := h_aborted h |}.
Definition add_delivered (w : World) (m : ClientMessage) : World :=
  let h := w_history w in
  set_history w {| h_tracked := h_tracked h; h_sent := h_sent h; h_wire := h_wire h;
    h_accepted := h_accepted h; h_taken := h_taken h; h_read := h_read h;
    h_delivered := h_delivered h ++ [m]; h_emitted := h_emitted h; h_streams := h_streams h;
    h_aborted := h_aborted h |}.
Definition add_emitted (w : World) (d : list byte) : World :=
  let h := w_history w in
  set_history w {| h_tracked := h_tracked h; h_sent := h_sent h; h_wire := h_wire h;
    h_accepted := h_accepted h; h_taken := h_taken h; h_read := h_read h;
    h_delivered := h_delivered h; h_emitted := h_emitted h ++ [d]; h_streams := h_streams h;
    h_aborted := h_aborted h |}.
(** What happens to the output streams, next to [Channels.fan_step]. *)
Definition add_fan (w : World) (ev : fan_event) : World :=
  let h := w_history w in
  set_history w {| h_tracked := h_tracked h; h_sent := h_sent h; h_wire := h_wire h;
    h_accepted := h_accepted h; h_taken := h_taken h; h_read := h_read h;
    h_delivered := h_delivered h; h_emitted := h_emitted h;
    h_streams := (fan_step (fanout (w_core w), h_streams h) ev).2;
    h_aborted := h_aborted h |}.
Definition set_aborted (w : World) : World :=
  let h := w_history w in
  set_history w {| h_tracked := h_tracked h; h_sent := h_sent h; h_wire := h_wire h;
    h_accepted := h_accepted h; h_taken := h_taken h; h_read := h_read h;
    h_delivered := h_delivered h; h_emitted := h_emitted h; h_streams := h_streams h;
    h_aborted := true |}.

(** The [Continuity] the core and the channel share. *)
Definition stream (w : World) : Continuity := continuity (w_core w).
Definition set_stream (w : World) (s : Continuity) : World :=
  set_core w (set_continuity (w_core w) s).
Definition set_outgoing (s : Continuity) (b : OutgoingBuffer) (seq : Z) : Continuity :=
  {| next_sequence := seq; outgoing := b; expected := expected s; incoming := incoming s;
     cipher := cipher s |}.
Definition set_incoming (s : Continuity) (b : IncomingBuffer) (e : Z) : Continuity :=
  {| next_sequence := next_sequence s; outgoing := outgoing s; expected := e; incoming := b;
     cipher := cipher s |}.

(** *** Steps on the core and the supplies *)

(** One number from the supplies. *)
Definition draw : Io nat := act (λ w, (w_draws w, add_draw w)).
Definition upd_core (f : SessionCore (C := C) → SessionCore) : Io () :=
  modify (λ w, set_core w (f (w_core w))).
Definition is_closed : Io bool := gets (λ w, core_closed (w_core w)).
Definition close_channel (r : CloseReason) : Io () := upd_core (core_close r).

(** ** Writing *)

Definition mark_inbound : Io () :=
  modify (λ w, add_draw (set_last_inbound w (clock (w_draws w)))).
Definition idle_for : Io Duration :=
  act (λ w, (elapsed (clock (w_draws w)) (w_last_inbound w), add_draw w)).

(** [ChannelState::write]; [sent] notes in the history that it was done. *)
Definition write (sent : World → World) (m : WsMessage) : Io () :=
  wait (λ w,
    match try_send m (n_writer (w_net w)) with
    | (Sent, q) => Some (Ok (), sent (set_writer w q))
    | (Closed, _) => Some (Err (transport [PLit "the data channel writer has stopped"]), w)
    | (Full, _) => None
    end).

(** [ChannelState::try_write]. *)
Definition try_write (m : WsMessage) : Io bool :=
  act (λ w, match try_send m (n_writer (w_net w)) with
            | (Sent, q) => (true, set_writer w q)
            | (_, _) => (false, w)
            end).

(** ** Sending *)

(** [sequence.lock().await]: the guard, with the number in it. *)
Definition lock_sequence (me : TaskId) : Io Z :=
  wait (λ w, match w_locked w with
             | Some _ => None
             | None => Some (Ok (next_sequence (stream w)), set_locked w (Some me))
             end).
Definition unlock_sequence : Io () := modify (λ w, set_locked w None).

(** [outgoing.track] with the number in the guard, which is then incremented. *)
Definition try_track (me : TaskId) (pt : PayloadType) (payload wire : list byte) (w : World)
  : option World :=
  let s := stream w in
  match track (clock (w_draws w)) wire (next_sequence s) (outgoing s) with
  | (true, b) =>
    Some (add_tracked (set_stream (add_draw w)
            (set_outgoing s b (wrap_i 64 (next_sequence s + 1))))
            {| tk_by := me; tk_seq := next_sequence s; tk_type := pt; tk_payload := payload;
               tk_wire := wire |})
  | (false, _) => None
  end.

(** The loop of [send_payload].  A sender that finds the buffer full waits for an
    acknowledgement, and being woken is having room: [Wakeups] has the loop with its
    notifications.  A session that ended is noticed first. *)
Definition track_message (me : TaskId) (pt : PayloadType) (payload wire : list byte) : Io () :=
  tracked ← act (λ w, match try_track me pt payload wire w with
                      | Some w' => (true, w')
                      | None => (false, w)
                      end);
  if tracked : bool then mret ()
  else wait (λ w,
    if core_closed (w_core w) then
      Some (Err (Error_SessionClosed
                   [PLit "session closed while waiting for acknowledgements"]), w)
    else match try_track me pt payload wire w with
         | Some w' => Some (Ok (), w')
         | None => None
         end).

(** [send_payload] while it holds the mutex. *)
Definition send_locked (me : TaskId) (pt : PayloadType) (payload body : list byte) (seq : Z)
  : Io () :=
  k ← draw;
  let wire := serialize (ClientMessage_new (millis k) (uuids k) InputStreamData seq pt body) in
  _ ← track_message me pt payload wire;
  write (λ w, add_sent w wire) (Binary wire).

(** Only stream output is encrypted.  The guard is dropped on every path. *)
Definition send_payload (me : TaskId) (pt : PayloadType) (payload : list byte) : Io () :=
  crypto ← gets (λ w, core_crypto (w_core w));
  body ← match pt, crypto with
         | Pt_Output, Some c => n ← draw; res (encrypt (nonces n) c payload)
         | _, _ => mret payload
         end;
  seq ← lock_sequence me;
  result ← attempt (send_locked me pt payload body seq);
  _ ← unlock_sequence;
  res result.

(** [send_stream_data]: the loop over offsets.  Every round consumes at least one
    byte (the chunk size is clamped to at least 1), so the buffer's length is
    enough fuel. *)
Fixpoint send_chunks (fuel : nat) (chunk : nat) (data : list byte) : Io () :=
  match data, fuel with
  | [], _ => mret ()
  | _, O => Crash
  | _, S fuel =>
    _ ← send_payload Commands Pt_Output (take chunk data);
    send_chunks fuel chunk (drop chunk data)
  end.

Definition send_stream_data (data : list byte) : Io () :=
  chunk ← gets w_chunk_size; send_chunks (length data) (Z.to_nat chunk) data.

Definition run_command (c : Command) : Io () :=
  match c with
  | Data data => send_stream_data data
  | Control pt data => send_payload Commands pt data
  end.

(** The next command, or [None] when there will be none. *)
Definition next_command : Io (option Command) :=
  wait (λ w,
    if core_closed (w_core w) then Some (Ok None, w)
    else match poll_recv (n_commands (w_net w)) with
         | (Item c, q) => Some (Ok (Some c), add_taken (set_commands w q) c)
         | (Ended, q) => Some (Ok None, set_commands w q)
         | (Pending_, _) => None
         end).

(** Leaving [command_task] drops its receiver. *)
Definition stop_commands : Io bool :=
  _ ← modify (λ w, set_commands w (drop_rx (n_commands (w_net w)))); mret false.

(** [command_task]. *)
Definition command_task : Io bool :=
  command ← next_command;
  match command with
  | None => stop_commands
  | Some c =>
    permitted ← wait (λ w, if core_closed (w_core w) then Some (Ok false, w)
                           else if wait_sendable (w_core w) then Some (Ok true, w) else None);
    if negb (permitted : bool) then stop_commands
    else
      result ← attempt (run_command c);
      match result with
      | Ok _ => mret true
      | Err e =>
        closed ← is_closed;
        _ ← if closed : bool then mret () else close_channel (Transport (to_string e));
        stop_commands
      end
  end.

(** ** Receiving *)

(** [acknowledge]: best effort, a full writer queue drops the reply. *)
Definition acknowledge_message (m : ClientMessage) (sequential : bool) : Io () :=
  k ← draw;
  match build_ack (millis k) (uuids k) m sequential with
  | Ok reply => _ ← try_write (Binary (serialize reply)); mret ()
  | Err _ => mret ()
  end.

Definition decrypt_if_needed (m : ClientMessage) : Io (list byte) :=
  crypto ← gets (λ w, core_crypto (w_core w));
  res match crypto with
      | Some c => if is_encrypted_inbound (payload_type m) then decrypt c (payload m)
                  else Ok (payload m)
      | None => Ok (payload m)
      end.

(** [serde_json::from_slice] with the error text of the call site. *)
Definition parse_payload {T} `{Serde T} (what : string) (m : ClientMessage) : Io T :=
  res (map_err (λ e, protocol (PLit what :: e)) (from_slice (payload m))).

(** [emit_output]. *)
Definition emit (p : list byte) : Io () :=
  modify (λ w, set_core (add_emitted (add_fan w (EvSend p)) p) (emit_output p (w_core w))).

Definition deliver_output (m : ClientMessage) : Io () :=
  ready ← gets (λ w, sendable (w_core w));
  _ ← if ready : bool then mret () else upd_core (set_sendable true);
  if decide (payload m = []) then mret ()
  else p ← decrypt_if_needed m; emit p.

(** [kms.generate_data_key().send().await]: the answer may be there at once, or be long
    in coming.  The session being closed does not interrupt the reader here. *)
Definition kms_answer : Io () :=
  wait (λ w, match n_kms (w_net w) with
             | O => None
             | S n => Some (Ok (), set_kms w n)
             end).
Fixpoint kms_answers (n : nat) : Io () :=
  match n with
  | O => mret ()
  | S n => _ ← kms_answer; kms_answers n
  end.

(** The handler belongs to the reader: nobody sees it while [on_request] awaits the KMS,
    once for each key the request makes it ask for. *)
Definition deliver_handshake_request (m : ClientMessage) : Io () :=
  request ← parse_payload (T := HandshakeRequest (Value := Value)) "malformed HandshakeRequest: " m;
  _ ← modify (λ w, set_handshake (add_draw w) (w_handshake w)
                     (match w_started w with
                      | Some t => Some t
                      | None => Some (clock (w_draws w))
                      end));
  h ← gets w_handshake;
  _ ← kms_answers (kms_calls (on_request feature_kms h request).2 - kms_calls h);
  r ← act (λ w, let '(r, h) := on_request feature_kms (w_handshake w) request in
                (r, set_handshake w h (w_started w)));
  answer ← res r;
  match answer with
  | None => mret ()                  (* duplicate; response already sent *)
  | Some response =>
    h ← gets w_handshake;
    payload ← res (map_err Error_Serialization (to_vec response));
    _ ← send_payload Reader Pt_HandshakeResponse payload;
    if decide (Handshake.state h = Failed) then
      res (Err (Error_Unsupported (join_text (errors response))))
    else
      _ ← upd_core (Session.set_agent_version (Handshake.agent_version h));
      match Handshake.crypto h with
      | Some c => upd_core (set_crypto c)
      | None => mret ()
      end
  end.

Definition deliver_handshake_complete (m : ClientMessage) : Io () :=
  complete ← parse_payload "malformed HandshakeComplete: " m;
  r ← act (λ w, let '(r, h) := on_complete (w_handshake w) complete in
                (r, set_handshake w h (w_started w)));
  b ← res r;
  _ ← modify (λ w, set_handshake w (w_handshake w) None);
  _ ← upd_core (set_session_banner b);
  upd_core (set_sendable true).

Definition deliver_challenge (m : ClientMessage) : Io () :=
  request ← parse_payload "malformed encryption challenge: " m;
  n ← draw;
  h ← gets w_handshake;
  response ← res (answer_challenge (nonces n) h request);
  payload ← res (map_err Error_Serialization (to_vec response));
  send_payload Reader Pt_EncChallengeResponse payload.

Definition deliver_exit_code (m : ClientMessage) : Io () :=
  p ← decrypt_if_needed m;
  upd_core (set_exit_code (s ← ok (from_utf8 p); parse_i32 (trim s))).

(** Closing with the exit code reported so far. *)
Definition close_by_agent (detail : option str) : Io () :=
  code ← gets (λ w, exit_code (w_core w)); close_channel (AgentClosed code detail).

Definition deliver_flag (m : ClientMessage) : Io () :=
  match from_payload (payload m) with
  | Some BinaryProtocol.TerminateSession => close_by_agent None
  | _ => mret ()
  end.

(** [deliver]: act on one in-order message. *)
Definition deliver (m : ClientMessage) : Io () :=
  _ ← modify (λ w, add_delivered w m);
  match payload_type m with
  | Pt_Output | Pt_StdErr | Pt_Undefined => deliver_output m
  | Pt_HandshakeRequest => deliver_handshake_request m
  | Pt_HandshakeComplete => deliver_handshake_complete m
  | Pt_EncChallengeRequest => deliver_challenge m
  | Pt_ExitCode => deliver_exit_code m
  | Pt_Flag => deliver_flag m
  | Pt_Error => mret ()
  | _ => mret ()
  end.

(** [advance_expected]: the next number to deliver. *)
Definition advance_expected : Io Z :=
  act (λ w, let s := stream w in
            let e := wrap_i 64 (expected s + 1) in
            (e, set_stream w (set_incoming s (incoming s) e))).

Definition take_incoming (seq : Z) : Io (option ClientMessage) :=
  act (λ w, let s := stream w in
            let '(m, b) := incoming_take seq (incoming s) in
            (m, set_stream w (set_incoming s b (expected s)))).

Definition insert_incoming (m : ClientMessage) : Io bool :=
  act (λ w, let s := stream w in
            let '(stored, b) := incoming_insert m (incoming s) in
            (stored, set_stream w (set_incoming s b (expected s)))).

(** The drain loop of [route_stream_data].  Every round takes a message out of the
    reorder buffer, so one more round than it holds is enough. *)
Fixpoint drain (fuel : nat) (next : Z) : Io () :=
  match fuel with
  | O => Crash
  | S fuel =>
    buffered ← take_incoming next;
    match buffered with
    | None => mret ()
    | Some m => _ ← deliver m; next' ← advance_expected; drain fuel next'
    end
  end.

Definition route_stream_data (m : ClientMessage) : Io () :=
  e ← gets (λ w, expected (stream w));
  match Z.compare (sequence_number m) e with
  | Lt => mret ()
  | Gt =>
    stored ← insert_incoming m;
    if stored : bool then acknowledge_message m false else mret ()
  | Eq =>
    _ ← acknowledge_message m true;
    _ ← deliver m;
    next ← advance_expected;
    held ← gets (λ w, size (messages (incoming (stream w))));
    drain (S held) next
  end.

(** [channel_closed_detail]. *)
Definition channel_closed_detail (p : list byte) : option str :=
  let text := match from_slice (T := ChannelClosedBody) p with
              | Ok parsed => default [] (output parsed)
              | Err _ => from_utf8_lossy p
              end in
  let trimmed := truncate (trim text) 500 in
  if decide (trimmed = []) then None else Some trimmed.

(** [outgoing.acknowledge]; whether it freed room only matters for the wake-up of
    a parked sender. *)
Definition retire_outgoing (seq : Z) : Io () :=
  Step (λ w,
    let s := stream w in
    match Ack.acknowledge (clock (w_draws w)) seq (outgoing s) with
    | Done (_, b) => Some (mret (), set_stream (add_draw w) (set_outgoing s b (next_sequence s)))
    | Panicked => Some (Crash, w)
    end).

Definition route_ack (m : ClientMessage) : Io () :=
  content ← res (parse_ack m);
  retire_outgoing (ack_sequence_number content).

Definition route (m : ClientMessage) : Io () :=
  match message_type m with
  | OutputStreamData => route_stream_data m
  | Acknowledge => route_ack m
  | StartPublication => upd_core (set_sendable true)
  | PausePublication => upd_core (set_sendable false)
  | ChannelClosed => close_by_agent (channel_closed_detail (payload m))
  | InputStreamData => mret ()
  end.

(** [handle_text]: the close reason if the frame ends the session. *)
Definition handle_text (t : str) : Io (option CloseReason) :=
  let t := trim t in
  if decide (t = lit "start_publication") then _ ← upd_core (set_sendable true); mret None
  else if decide (t = lit "pause_publication") then _ ← upd_core (set_sendable false); mret None
  else if decide (t = lit "channel_closed") then
    code ← gets (λ w, exit_code (w_core w)); mret (Some (AgentClosed code None))
  else mret None.

(** What [reader_task] does with an event; [Some] is the reason its loop breaks
    with. *)
Definition read_event (ev : ReadEvent) : Io (option CloseReason) :=
  match ev with
  | Incoming (Binary data) =>
    match deserialize data with
    | Panicked => Crash
    | Done (Err e) => mret (Some (ProtocolFailure (to_string e)))
    | Done (Ok m) =>
      result ← attempt (route m);
      mret (match result with
            | Ok _ => None
            | Err e => Some (ProtocolFailure (to_string e))
            end)
    end
  | Incoming (Text t) => handle_text t
  | Incoming (CloseFrame frame) =>
    let detail := r ← frame; let r := trim r in if decide (r = []) then None else Some r in
    code ← gets (λ w, exit_code (w_core w));
    mret (Some (AgentClosed code detail))
  | Incoming (Ping _ | Pong _ | RawFrame) => mret None
  | ReadFailed e => mret (Some (Transport (PLit "WebSocket read failed: " :: e)))
  | EndOfStream => mret (Some (Transport [PLit "WebSocket stream ended"]))
  end.

Definition next_event : Io (option ReadEvent) :=
  wait (λ w,
    if core_closed (w_core w) then Some (Ok None, w)
    else match n_inbox (w_net w) with
         | [] => None
         | ev :: l => Some (Ok (Some ev), add_read (set_inbox w l) ev)
         end).

Definition reader_task : Io bool :=
  frame ← next_event;
  match frame with
  | None => mret false
  | Some ev =>
    _ ← mark_inbound;
    reason ← read_event ev;
    match reason with
    | None => mret true
    | Some r => _ ← close_channel r; mret false
    end
  end.

(** ** The other tasks *)

(** [poll_retransmit] reads the clock twice. *)
Definition poll_outgoing : Io RetransmitAction :=
  act (λ w,
    let s := stream w in
    let '(action, b) := poll_retransmit (clock (w_draws w)) (clock (S (w_draws w))) (outgoing s) in
    (action, set_stream (add_draw (add_draw w)) (set_outgoing s b (next_sequence s)))).

(** [closed()] raced with a ticker. *)
Definition next_tick (due : Net → bool) (clear : World → World) : Io bool :=
  wait (λ w, if core_closed (w_core w) then Some (Ok false, w)
             else if due (w_net w) then Some (Ok true, clear w) else None).

(** [closed()] raced with [write]; whether the task goes on. *)
Definition write_or_closed (m : WsMessage) : Io bool :=
  wait (λ w,
    if core_closed (w_core w) then Some (Ok false, w)
    else match try_send m (n_writer (w_net w)) with
         | (Sent, q) => Some (Ok true, set_writer w q)
         | (Closed, _) => Some (Ok false, w)
         | (Full, _) => None
         end).

Definition retransmit_task : Io bool :=
  tick ← next_tick n_retransmit_due (λ w, set_due w false (n_heartbeat_due (w_net w)));
  if negb (tick : bool) then mret false
  else
    action ← poll_outgoing;
    match action with
    | Idle => mret true
    | Resend _ wire => write_or_closed (Binary wire)
    | GaveUp seq att => _ ← close_channel (DeliveryFailed seq att); mret false
    end.

Definition heartbeat_task (timeout : Duration) : Io bool :=
  tick ← next_tick n_heartbeat_due (λ w, set_due w (n_retransmit_due (w_net w)) false);
  if negb (tick : bool) then mret false
  else
    idle ← idle_for;
    if timeout <? idle then _ ← close_channel (PeerUnresponsive idle); mret false
    else _ ← try_write (Ping []); mret true.

(** [sink.send(m).await] and [sink.close().await]: started, then waited for. *)
Definition sink_send (m : WsMessage) : Io (option text) :=
  _ ← modify (λ w, set_sink w (Writing m));
  wait (λ w, match n_sink (w_net w) with
             | Written e => Some (Ok e, set_sink w SinkIdle)
             | _ => None
             end).
Definition sink_close : Io () :=
  _ ← modify (λ w, set_sink w SinkClosing);
  wait (λ w, match n_sink (w_net w) with SinkClosed => Some (Ok (), w) | _ => None end).

(** After its loop [writer_task] closes the sink; returning drops its receiver. *)
Definition stop_writer : Io bool :=
  _ ← sink_close;
  _ ← modify (λ w, set_writer w (drop_rx (n_writer (w_net w))));
  mret false.

Definition next_message : Io (option WsMessage) :=
  wait (λ w,
    if core_closed (w_core w) then Some (Ok None, w)
    else match poll_recv (n_writer (w_net w)) with
         | (Item m, q) => Some (Ok (Some m), set_writer w q)
         | (Ended, q) => Some (Ok None, set_writer w q)
         | (Pending_, _) => None
         end).

Definition writer_task : Io bool :=
  message ← next_message;
  match message with
  | None => stop_writer
  | Some m =>
    failed ← sink_send m;
    match failed with
    | None => mret true
    | Some e =>
      closed ← is_closed;
      _ ← if closed : bool then mret ()
          else close_channel (Transport (PLit "WebSocket write failed: " :: e));
      stop_writer
    end
  end.

(** ** The channel *)

(** The state [connect] hands to the tasks it spawns. *)
Definition channel_new (core : SessionCore (C := C)) (chunk : Z) (h : HandshakeHandler) (now : Z)
  : World :=
  {| w_core := core;
     w_net := {| n_commands := channel COMMAND_QUEUE_DEPTH; n_writer := channel WRITER_QUEUE_DEPTH;
                 n_inbox := []; n_sink := SinkIdle; n_retransmit_due := true;
                 n_heartbeat_due := false; n_kms := 0 |};
     w_last_inbound := now; w_chunk_size := clamp chunk 1 MAX_PAYLOAD_SIZE; w_locked := None;
     w_handshake := h; w_started := None; w_draws := 0; w_history := no_history |}.

Context (idle_timeout : Duration).

Definition body (t : TaskId) : Io bool :=
  match t with
  | Writer => writer_task
  | Reader => reader_task
  | Commands => command_task
  | Retransmit => retransmit_task
  | Heartbeat => heartbeat_task idle_timeout
  end.

Abbreviation System := (Sys World Error TaskId).

Definition spawn (w : World) : System := {| s_world := w; s_task := λ _, at_head |}.

(** What happens, one at a time: a task is polled; the network delivers, or answers
    the writer; a ticker fires; the KMS answers the reader; the session's handle is used. *)
Inductive Event :=
| Poll (t : TaskId)
| Arrive (ev : ReadEvent)
| SinkDone (e : option text)
| RetransmitTick
| HeartbeatTick
| KmsAnswer
| Submit (c : Command)
| Close (r : CloseReason)
| Subscribe
| Receive (i : nat)
| DropStream (i : nat)
| DropSender
| Abort (t : TaskId).

Definition sink_done (e : option text) (w : World) : World :=
  match n_sink (w_net w) with
  | Writing m =>
    let w := match e with None => add_wire w m | Some _ => w end in set_sink w (Written e)
  | SinkClosing => set_sink w SinkClosed
  | _ => w
  end.

(** The handle shares the core and the command queue with the tasks. *)
Definition handle (w : World) : Session (C := C) :=
  {| Session.core := w_core w; commands := n_commands (w_net w); config := SessionConfig_default;
     ssm := false |}.
Definition submit (c : Command) (w : World) : World :=
  match dispatch c (handle w) with
  | (Some (Ok _), s) => add_accepted (set_commands w (commands s)) c
  | (_, _) => w
  end.

Definition fan_op (ev : fan_event) (f : SessionCore (C := C) → SessionCore (C := C)) (w : World)
  : World := set_core (add_fan w ev) (f (w_core w)).

(** What dropping a task's future drops: its guard, its receiver. *)
Definition release (t : TaskId) (w : World) : World :=
  let w := if decide (w_locked w = Some t) then set_locked w None else w in
  match t with
  | Writer => set_writer w (drop_rx (n_writer (w_net w)))
  | Commands => set_commands w (drop_rx (n_commands (w_net w)))
  | _ => w
  end.

Definition outside (ev : Event) (w : World) : World :=
  match ev with
  | Arrive e => set_inbox w (n_inbox (w_net w) ++ [e])
  | SinkDone e => sink_done e w
  | RetransmitTick => set_due w true (n_heartbeat_due (w_net w))
  | HeartbeatTick => set_due w (n_retransmit_due (w_net w)) true
  | KmsAnswer => set_kms w (S (n_kms (w_net w)))
  | Submit c => submit c w
  | Close r => set_core w (core_close r (w_core w))
  | Subscribe => fan_op (EvSubscribe (subscriber_capacity (w_core w))) (λ c, (core_subscribe c).2) w
  | Receive i => fan_op (EvRecv i) (λ c, set_fanout c (recv i (fanout c)).2) w
  | DropStream i => fan_op (EvDrop i) (λ c, set_fanout c (drop_stream i (fanout c))) w
  | DropSender => set_commands w (drop_tx (n_commands (w_net w)))
  | Poll _ | Abort _ => w
  end.

Definition finished (t : Task World Error) : bool :=
  match t with Running _ => false | _ => true end.

Definition sys_step (x : System) (ev : Event) : System :=
  match ev with
  | Poll t => poll body t x
  | Abort t =>
    if finished (s_task x t) then x
    else {| s_world := set_aborted (release t (s_world x));
            s_task := upd_task (s_task x) t Aborted |}
  | _ => {| s_world := outside ev (s_world x); s_task := s_task x |}
  end.

Definition sys_run (x : System) (evs : list Event) : System := foldl sys_step x evs.

(** Waiting for the key service changes nothing else. *)
Lemma keeps_kms (R : World → World → Prop) (n : nat) :
  (∀ w (l : nat), R w (set_kms w l)) → keeps True R (kms_answers n).
Proof.
  intros HR. induction n as [|n IH]; [by apply keeps_res|]. cbn [kms_answers].
  apply keeps_bind; [|intros _; exact IH]. apply keeps_wait. intros w. by destruct (n_kms _).
Qed.
End Connection.

(** ** Stand-ins for the libraries *)

Section ConnectionToys.
#[local] Existing Instance toy_sha.

(** The JSON codecs refuse everything but acknowledgements, which plain output does
    not need. *)
#[local] Instance toy_ack : Serde AcknowledgeContent :=
  {| to_vec _ := Ok [x41]; from_slice _ := Err [] |}.
#[local] Instance no_serde T : Serde T | 10 :=
  {| to_vec _ := Err []; from_slice _ := Err [] |}.
#[local] Instance toy_platform : Platform := {|
  feature_kms := true; clock n := Z.of_nat n; millis n := Z.of_nat n;
  uuids _ := replicate 16 x07; nonces _ := replicate 12 x05 |}.

Definition toy_output (k : Z) : ClientMessage :=
  ClientMessage_new 0 (replicate 16 x01) OutputStreamData k Pt_Output [x61; byte_of k].
Definition toy_agent_stream : list ClientMessage := [toy_output 0; toy_output 1; toy_output 2].

Definition toy_world : World (C := Chan) := channel_new toy_core 4 HandshakeHandler_new 0.

(** Messages 1, 0 and 0 again arrive while a caller sends and the writer writes. *)
Definition toy_polls (t : TaskId) (n : nat) : list Event := replicate n (Poll t).
Definition toy_events : list Event :=
  [Subscribe; Arrive (Incoming (Binary (serialize (toy_output 1)))); Submit (Data (replicate 6 x62))]
  ++ toy_polls Reader 5 ++ toy_polls Commands 3 ++ toy_polls Reader 4
  ++ [Arrive (Incoming (Binary (serialize (toy_output 0))))]
  ++ toy_polls Reader 9 ++ toy_polls Commands 9 ++ toy_polls Writer 2 ++ [SinkDone None]
  ++ toy_polls Writer 4 ++ [Arrive (Incoming (Binary (serialize (toy_output 0))))]
  ++ toy_polls Reader 30 ++ toy_polls Commands 30.
End ConnectionToys.
