(* ===== verification/Inbound.v ===== *)
(** * What a channel receives (src/connection.rs: [reader_task])

    The reader's place in the agent's stream belongs to the reader: no step of
    another task moves it.  So its program can be proved alone, with [wp], and what
    is proved holds in every interleaving: deliveries are the stream in order and
    once each, what is put out is their plaintext, and everything read is accounted
    for.  With the fan-out of [Channels] this reaches the subscribers. *)

From S2P Require Import Prelude RustStd Errors Interfaces Coroutine BinaryProtocol Ack Crypto.
From S2P Require Import Channels Handshake Documents Session Connection.

Section Inbound.
Context {C : Type → Type} `{Mpsc C} `{!MpscOk C}.
Context `{Sha256, UuidDisplay, Aes256Gcm, Base64}.
Context {Value : Type} `{ActionJson Value}.
Context `{Serde AcknowledgeContent, Serde (HandshakeRequest (Value := Value)),
  Serde (HandshakeResponse (Value := Value)), Serde HandshakeComplete,
  Serde EncryptionChallengeRequest, Serde EncryptionChallengeResponse,
  Serde ChannelClosedBody}.
Context `{Platform}.
Implicit Types (w : World (C := C)) (m : ClientMessage).

Lemma map_size_bound {A} (M : gmap Z A) (n : nat) :
  (∀ k x, M !! k = Some x → 0 ≤ k < Z.of_nat n) → (size M ≤ n)%nat.
Proof.
  intros HM. rewrite <- size_dom.
  assert (Hsub : dom M ⊆ list_to_set (Z.of_nat <$> seq 0 n)).
  { intros k [x Hk]%elem_of_dom. apply elem_of_list_to_set, list_elem_of_fmap.
    exists (Z.to_nat k). specialize (HM k x Hk). split; [lia|]. apply elem_of_seq. lia. }
  apply subseteq_size in Hsub. rewrite size_list_to_set in Hsub.
  - by rewrite length_fmap, length_seq in Hsub.
  - apply NoDup_fmap_2; [|apply NoDup_seq]. intros ??. lia.
Qed.

(** ** The reader's place *)

Record RView := {
  v_expected : Z;
  v_incoming : IncomingBuffer;
  v_cipher : option SessionCrypto;
  v_read : list ReadEvent;
  v_delivered : list ClientMessage;
  v_emitted : list (list byte) }.

Definition rview w : RView :=
  {| v_expected := expected (stream w); v_incoming := incoming (stream w);
     v_cipher := cipher (stream w); v_read := h_read (w_history w);
     v_delivered := h_delivered (w_history w); v_emitted := h_emitted (w_history w) |}.

(** Steps that leave it alone; tasks also leave alone what the session's handle did,
    and the output streams, except that they close them. *)
Definition same_reader w w' : Prop :=
  rview w' = rview w ∧ (core_closed (w_core w) = true → core_closed (w_core w') = true)
  ∧ n_inbox (w_net w') = n_inbox (w_net w).
Definition same_handle w w' : Prop :=
  h_streams (w_history w') = h_streams (w_history w)
  ∧ h_accepted (w_history w') = h_accepted (w_history w).
Definition same_streams w w' : Prop :=
  fanout (w_core w') = fanout (w_core w) ∧ same_handle w w'.
Definition quiet w w' : Prop :=
  rview w' = rview w ∧ core_closed (w_core w') = core_closed (w_core w)
  ∧ n_inbox (w_net w') = n_inbox (w_net w) ∧ same_streams w w'.
Definition minds_own w w' : Prop := quiet w w' ∨
  rview w' = rview w ∧ n_inbox (w_net w') = n_inbox (w_net w)
  ∧ same_handle w w'
  ∧ ∃ r, w_core w' = core_close r (w_core w).

Lemma minds_same w w' : minds_own w w' → same_reader w w'.
Proof.
  intros [(? & Hc & ? & _)|(? & ? & _ & r & Hr)]; (split_and!; [done| |done]); [by rewrite Hc|].
  rewrite Hr. unfold core_close. by destruct (core_closed (w_core w)) eqn:E; rewrite ?E.
Qed.

Lemma keeps_quiet {A} L (p : Prog World Error A) : keeps L quiet p → keeps True minds_own p.
Proof. apply keeps_mono; [done|]. by left. Qed.
Lemma keeps_minds {A} (p : Prog World Error A) : keeps True minds_own p → keeps True same_reader p.
Proof. by apply keeps_mono; [|apply minds_same]. Qed.
Lemma keeps_calm {A} (p : Prog World Error A) : keeps False quiet p → keeps True quiet p.
Proof. by apply keeps_mono. Qed.
#[local] Hint Resolve keeps_quiet keeps_minds keeps_calm : io.

(** *** The steps *)

Lemma quiet_upd_core f :
  (∀ c, expected (continuity (C := C) (f c)) = expected (continuity c)
        ∧ incoming (continuity (f c)) = incoming (continuity c)
        ∧ cipher (continuity (f c)) = cipher (continuity c)
        ∧ core_closed (f c) = core_closed c ∧ fanout (f c) = fanout c) →
  keeps False quiet (upd_core f).
Proof.
  intros Hf. apply keeps_act. intros w. destruct (Hf (w_core w)) as (He & Hi & Hc & Hcl & Hf').
  unfold quiet, rview, stream, same_streams, same_handle. cbn. by rewrite He, Hi, Hc, Hcl, Hf'.
Qed.

Lemma quiet_draw : keeps False quiet draw.
Proof. by apply keeps_act. Qed.
Lemma quiet_mark : keeps False quiet mark_inbound.
Proof. by apply keeps_act. Qed.
Lemma quiet_gets {A} (f : World → A) : keeps (E := Error) False quiet (gets f).
Proof. by apply keeps_act. Qed.
Lemma quiet_sendable b : keeps False quiet (upd_core (set_sendable b)).
Proof. by apply quiet_upd_core. Qed.
Lemma quiet_try_write x : keeps False quiet (try_write x).
Proof. apply keeps_act. intros w. by destruct (try_send _ _) as [[] q]. Qed.
Lemma quiet_write f x : (∀ w, quiet w (f w)) → keeps True quiet (write f x).
Proof.
  intros Hf. apply keeps_wait. intros w. destruct (try_send _ _) as [[] q]; [apply (Hf (set_writer w q))|done..].
Qed.
Lemma quiet_kms n : keeps True quiet (kms_answers n).
Proof. by apply keeps_kms. Qed.
#[local] Hint Resolve quiet_draw quiet_mark quiet_gets quiet_sendable quiet_try_write quiet_kms : io.

Lemma quiet_track me pt p wire w w' : try_track me pt p wire w = Some w' → quiet w w'.
Proof. unfold try_track. destruct (track _ _ _ _) as [[] b]; [|done]. by intros [= <-]. Qed.

Lemma quiet_send_payload me pt p : keeps True quiet (send_payload me pt p).
Proof.
  unfold send_payload, send_locked, track_message. walk.
  - apply keeps_wait. intros w. by destruct (w_locked w).
  - apply keeps_act. intros w. destruct (try_track _ _ _ _ w) eqn:Et; [|done].
    by eapply quiet_track.
  - apply keeps_wait. intros w. destruct (core_closed _); [done|].
    destruct (try_track _ _ _ _ w) eqn:Et; [|done]. by eapply quiet_track.
  - by apply quiet_write.
  - by apply keeps_act.
Qed.
#[local] Hint Resolve quiet_send_payload : io.

Lemma quiet_acknowledge m b : keeps False quiet (acknowledge_message m b).
Proof. unfold acknowledge_message. walk. Qed.
#[local] Hint Resolve quiet_acknowledge : io.

Lemma same_close r : keeps True minds_own (close_channel r).
Proof.
  apply keeps_act. intros w. right. split_and!; [|done|done|by exists r].
  unfold rview, stream. cbn. unfold core_close. by destruct (core_closed (w_core w)).
Qed.
#[local] Hint Resolve same_close : io.

(** The other tasks. *)
Lemma same_command : keeps True minds_own command_task.
Proof.
  assert (Hstop : keeps True minds_own stop_commands).
  { unfold stop_commands. walk. apply keeps_act; by left. }
  assert (Hchunks : ∀ fuel n data, keeps True quiet (send_chunks fuel n data)).
  { induction fuel as [|fuel IH]; intros n [|b data]; cbn [send_chunks]; walk. }
  unfold command_task, run_command, send_stream_data, is_closed. walk.
  - apply keeps_wait. intros w. destruct (core_closed _); [by left|].
    destruct (poll_recv _) as [[] q]; by try left.
  - apply keeps_wait. intros w. destruct (core_closed _); [by left|]. destruct (wait_sendable _); by try left.
Qed.

Lemma same_tick due clear :
  (∀ w, quiet w (clear w)) → keeps True minds_own (next_tick due clear).
Proof.
  intros Hc. apply keeps_wait. intros w. destruct (core_closed _); [by left|].
  destruct (due _); [left; apply Hc|done].
Qed.

Lemma same_retransmit : keeps True minds_own retransmit_task.
Proof.
  unfold retransmit_task. walk; [by apply same_tick| |].
  - apply keeps_act. intros w. cbv zeta. destruct (poll_retransmit _ _ _) as [[] b]; by left.
  - apply keeps_wait. intros w. destruct (core_closed _); [by left|].
    destruct (try_send _ _) as [[] q]; by try left.
Qed.

Lemma same_heartbeat t : keeps True minds_own (heartbeat_task t).
Proof. unfold heartbeat_task, idle_for. walk; [by apply same_tick|apply keeps_act; by left]. Qed.

Lemma same_writer : keeps True minds_own writer_task.
Proof.
  assert (Hstop : keeps True minds_own stop_writer).
  { unfold stop_writer, sink_close. walk; [apply keeps_act; by left| |apply keeps_act; by left].
    apply keeps_wait. intros w. destruct (n_sink _); by try left. }
  unfold writer_task, sink_send, is_closed. walk.
  - apply keeps_wait. intros x. destruct (core_closed _); [by left|].
    destruct (poll_recv _) as [[] q]; by try left.
  - apply keeps_act; by left.
  - apply keeps_wait. intros x. destruct (n_sink _); by try left.
Qed.

Lemma same_body timeout t : t ≠ Reader → keeps True minds_own (body timeout t).
Proof.
  destruct t; cbn [body]; [intros _|done|intros _..];
    auto using same_writer, same_command, same_retransmit, same_heartbeat.
Qed.

Lemma same_outside ev w :
  match ev with Arrive _ => True | _ => same_reader w (outside ev w) end.
Proof.
  destruct ev; cbn [outside]; try done.
  - unfold sink_done. destruct (n_sink _); try done. by destruct e.
  - unfold submit. by destruct (dispatch _ _) as [[[]|] s].
  - unfold same_reader, rview, stream. cbn. unfold core_close.
    by destruct (core_closed (w_core w)) eqn:E; rewrite ?E.
  - unfold fan_op. rewrite core_subscribe_fanout. done.
Qed.

Lemma same_release t w : same_reader w (set_aborted (release t w)).
Proof. unfold release. by destruct (decide _), t. Qed.
(** ** Events and output streams *)

(** Events are read in the order of their arrival. *)
Definition reads w : list ReadEvent := h_read (w_history w) ++ n_inbox (w_net w).

(** Each output stream was offered a stretch of what was put out, the end of it while
    the session is open. *)
Definition streams_ok w : Prop :=
  fan_inv (fanout (w_core w)) (h_streams (w_history w))
  ∧ closed (fanout (w_core w)) = core_closed (w_core w)
  ∧ ∀ i got offered, h_streams (w_history w) !! i = Some (got, offered) →
      ∃ before after, h_emitted (w_history w) = before ++ offered ++ after
        ∧ (core_closed (w_core w) = false → after = []).

(** A closed session stays closed. *)
Abbreviation stays_closed w w' :=
  (core_closed (w_core w) = true → core_closed (w_core w') = true).

(** What the handle read from the output streams, and what it submitted. *)
Definition handed w : gmap nat (list (list byte)) * list Command :=
  (fst <$> h_streams (w_history w), h_accepted (w_history w)).

Abbreviation stays_live w w' :=
  (∀ i, live i (fanout (w_core w)) → live i (fanout (w_core w'))).

Definition tidy w w' : Prop :=
  reads w' = reads w ∧ (handed w' = handed w ∧ stays_live w w') ∧ stays_closed w w'
  ∧ (streams_ok w → streams_ok w').

Lemma minds_tidy w w' : minds_own w w' → tidy w w'.
Proof.
  intros Hm. split; [|split; [|split; [exact (proj1 (proj2 (minds_same _ _ Hm)))|]]].
  { destruct Hm as [(Hv & _ & Hi & _)|(Hv & Hi & _)]; unfold reads;
      by rewrite Hi, (f_equal v_read Hv : h_read _ = h_read _). }
  { unfold handed.
    destruct Hm as [(_ & _ & _ & -> & -> & ->)|(_ & _ & [-> ->] & r & ->)]; (split; [done|]); [done|].
    intros i. unfold core_close. destruct (core_closed _); [done|]. apply live_close. }
  unfold streams_ok. destruct Hm as [(Hv & Hc & _ & Hf & Hs & _)|(Hv & _ & [Hs _] & r & Hr)];
    rewrite Hs, (f_equal v_emitted Hv : h_emitted _ = h_emitted _); [by rewrite Hc, Hf|].
  rewrite Hr. unfold core_close. destruct (core_closed (w_core w)) eqn:E; [by rewrite E|].
  cbn. intros (Hinv & Hcl & Hall). split_and!; [by apply fan_inv_close| |].
  - unfold Channels.close. by rewrite Hcl.
  - intros i got offered Hi. destruct (Hall i got offered Hi) as (b & a & ? & _). by exists b, a.
Qed.

Lemma emit_streams d w :
  streams_ok w →
  streams_ok (set_core (add_emitted (add_fan w (EvSend d)) d) (emit_output d (w_core w))).
Proof.
  intros (Hinv & Hcl & Hall). split_and!; cbn.
  - by apply fan_inv_send.
  - by rewrite emit_closed.
  - intros i got offered. rewrite Hcl. destruct (core_closed (w_core w)).
    + intros Hi. destruct (Hall i got offered Hi) as (b & a & Hem & _).
      exists b, (a ++ [d]). split; [|done]. by rewrite Hem, <- !app_assoc.
    + rewrite lookup_fmap. intros ([g o] & Hi & [= -> ->])%fmap_Some.
      destruct (Hall i g o Hi) as (b & a & Hem & Ha). rewrite (Ha eq_refl), app_nil_r in Hem.
      exists b, []. split; [|done]. by rewrite Hem, app_nil_r, <- app_assoc.
Qed.

Lemma emit_handed d w :
  handed (set_core (add_emitted (add_fan w (EvSend d)) d) (emit_output d (w_core w))) = handed w.
Proof.
  unfold handed. cbn. f_equal. destruct (closed _); [done|]. rewrite <- map_fmap_compose.
  apply map_fmap_ext. by intros i [g o] _.
Qed.

Lemma emit_live d w :
  stays_live w (set_core (add_emitted (add_fan w (EvSend d)) d) (emit_output d (w_core w))).
Proof. intros i Hi. cbn. by apply live_send. Qed.

Lemma keeps_tidy {A} (p : Prog World Error A) : keeps True minds_own p → keeps True tidy p.
Proof. by apply keeps_mono; [|apply minds_tidy]. Qed.
#[local] Hint Resolve keeps_tidy : io.

Lemma tidy_upd_core f :
  (∀ k, core_closed (f k) = core_closed k ∧ fanout (f k) = fanout k) →
  keeps True tidy (upd_core f).
Proof.
  intros Hf. apply keeps_act. intros w. destruct (Hf (w_core w)) as [Hc Hfo]. split; [done|].
  unfold streams_ok. cbn. by rewrite Hc, Hfo.
Qed.

Lemma tidy_deliver m : keeps True tidy (deliver m).
Proof.
  unfold deliver, deliver_output, deliver_handshake_request, deliver_handshake_complete,
    deliver_challenge, deliver_exit_code, deliver_flag, parse_payload, decrypt_if_needed,
    close_by_agent, emit.
  walk; try (by apply tidy_upd_core); try (by apply keeps_act);
    try (apply keeps_act; intros w; split_and!;
         [done|apply emit_handed|apply emit_live|done|apply emit_streams]).
  - apply keeps_act. intros w. by destruct (on_request _ _ _).
  - apply keeps_act. intros w. by destruct (on_complete _ _).
  - apply tidy_upd_core. intros k. by destruct (ok (from_utf8 _) ≫= _).
Qed.
#[local] Hint Resolve tidy_deliver : io.

Lemma tidy_reader : keeps True tidy reader_task.
Proof.
  assert (Hdrain : ∀ fuel next, keeps True tidy (drain fuel next)).
  { induction fuel as [|fuel IH]; intros next; cbn [drain]; walk; by apply keeps_act. }
  unfold reader_task, read_event, route, route_stream_data, route_ack, handle_text, close_by_agent.
  walk; try (by apply keeps_act).
  - apply keeps_wait. intros w. destruct (core_closed _); [done|].
    destruct (n_inbox (w_net w)) as [|ev l] eqn:Ei; [done|]. split_and!; [|done..].
    unfold reads. cbn. by rewrite Ei, <- app_assoc.
  - apply keeps_act. intros w. cbv zeta. by destruct (incoming_insert _ _).
  - intros w _. cbn. destruct (Ack.acknowledge _ _ _) as [[? b]|]; by exists ().
Qed.

Lemma tidy_body timeout t : keeps True tidy (body timeout t).
Proof.
  destruct (decide (t = Reader)) as [->|]; [apply tidy_reader|by apply keeps_tidy, same_body].
Qed.

Lemma streams_outside ev w : streams_ok w → streams_ok (outside ev w).
Proof.
  intros Hok. destruct ev; cbn [outside]; try exact Hok.
  - unfold sink_done. destruct (n_sink _); [|destruct e|..]; exact Hok.
  - unfold submit. destruct (dispatch _ _) as [[[]|] s]; exact Hok.
  - assert (Hm : minds_own w (set_core w (core_close r (w_core w))));
      [|by apply (minds_tidy _ _ Hm)].
    right. split_and!; [|done|done|by exists r]. unfold rview, stream. cbn. unfold core_close.
    by destruct (core_closed (w_core w)).
  - destruct Hok as (Hinv & Hcl & Hall). unfold fan_op. rewrite core_subscribe_fanout.
    pose proof (fan_inv_subscribe (subscriber_capacity (w_core w)) _ _ Hinv) as Hi.
    pose proof (subscribe_closed (subscriber_capacity (w_core w)) (fanout (w_core w))) as Hc.
    unfold streams_ok. cbn.
    destruct (subscribe (subscriber_capacity (w_core w)) (fanout (w_core w))) as [i f].
    cbn in *. split_and!; [exact Hi|by rewrite Hc|].
    intros j got offered [[<- [= <- <-]]|[_ Hj]]%lookup_insert_Some; [|by eapply Hall].
    exists (h_emitted (w_history w)), []. by rewrite !app_nil_r.
  - destruct Hok as (Hinv & Hcl & Hall). pose proof (fan_inv_recv i _ _ Hinv) as Hi.
    assert (Hc : closed (recv i (fanout (w_core w))).2 = closed (fanout (w_core w))).
    { unfold recv. destruct (streams _ !! i) as [st|]; [|done]. by destruct (poll_recv _). }
    unfold streams_ok, fan_op. cbn. rewrite Hc.
    destruct (recv i (fanout (w_core w))) as [x f]. split_and!; [exact Hi|done|].
    intros j got offered. destruct x as [d| |]; try apply Hall. cbn. rewrite lookup_alter.
    destruct (decide (i = j)) as [<-|]; [|apply Hall].
    intros ([g o] & Hg & [= -> ->])%fmap_Some. by apply (Hall i g).
  - destruct Hok as (Hinv & Hcl & Hall). split_and!; [by apply fan_inv_drop|done|done].
Qed.

Definition arrivals (evs : list Event) : list ReadEvent :=
  omap (λ ev, match ev with Arrive e => Some e | _ => None end) evs.

Lemma tidy_run timeout evs : ∀ x,
  (∀ t, task_keeps True tidy (s_task x t)) → streams_ok (s_world x) →
  let y := sys_run timeout x evs in
  reads (s_world y) = reads (s_world x) ++ arrivals evs ∧ streams_ok (s_world y)
  ∧ stays_closed (s_world x) (s_world y) ∧ ∀ t, task_keeps True tidy (s_task y t).
Proof.
  induction evs as [|ev evs IH]; intros x Ht Hs; [by rewrite app_nil_r; split_and!|].
  assert (Hstep : reads (s_world (sys_step timeout x ev)) = reads (s_world x) ++ arrivals [ev]
    ∧ streams_ok (s_world (sys_step timeout x ev))
    ∧ stays_closed (s_world x) (s_world (sys_step timeout x ev))
    ∧ ∀ t, task_keeps True tidy (s_task (sys_step timeout x ev) t)).
  { assert (Hout : arrivals [ev] = [] → streams_ok (outside ev (s_world x)) →
      reads (outside ev (s_world x)) = reads (s_world x) →
      stays_closed (s_world x) (outside ev (s_world x)) →
      reads (outside ev (s_world x)) = reads (s_world x) ++ arrivals [ev]
      ∧ streams_ok (outside ev (s_world x)) ∧ stays_closed (s_world x) (outside ev (s_world x))
      ∧ ∀ t, task_keeps True tidy (s_task x t)).
    { intros -> ? -> ?. rewrite app_nil_r. by split_and!. }
    pose proof (streams_outside ev (s_world x) Hs) as Hso.
    pose proof (same_outside ev (s_world x)) as Hsame.
    destruct ev as [t|e|e| | | |c0|r| |i|i| |t]; cbn [sys_step]; try (apply Hout; [done|done|done|exact (proj1 (proj2 Hsame))]).
    - rewrite app_nil_r. destruct (poll_sys_keeps (body timeout) True tidy t x) as [(Hr & _ & Hc & Hk) Hts];
        [done|apply tidy_body|done|]. by split_and!; [|apply Hk| |].
    - split_and!; [|exact Hs|done|exact Ht]. unfold reads. cbn. by rewrite app_assoc.
    - apply Hout; [done|done| |exact (proj1 (proj2 Hsame))]. unfold outside, sink_done, reads.
      destruct (n_sink _); [|destruct e|..]; done.
    - apply Hout; [done|done| |exact (proj1 (proj2 Hsame))]. unfold outside, submit, reads. by destruct (dispatch _ _) as [[[]|] s].
    - rewrite app_nil_r. destruct (finished _); [by split_and!|]. cbn. split_and!.
      + unfold release, reads. by destruct (decide _), t.
      + unfold release. by destruct (decide _), t.
      + exact (proj1 (proj2 (same_release t (s_world x)))).
      + intros t'. unfold upd_task. by destruct (decide (t' = t)). }
  destruct Hstep as (Hr & Hs' & Hc & Ht'). cbn [sys_run foldl].
  destruct (IH _ Ht' Hs') as (Hr1 & Hs1 & Hc1 & Ht1). split_and!; [|exact Hs1| |exact Ht1].
  2: { intros Hx. by apply Hc1, Hc. }
  cbv zeta in Hr1. unfold sys_run in Hr1. rewrite Hr1, Hr, <- app_assoc.
  f_equal. unfold arrivals. by rewrite <- omap_app.
Qed.

(** ** The agent's stream *)

Section Stream.
(** Message [k] of the agent's output carries sequence number [k]; the channel takes
    over at message [base]. *)
Context (agent : list ClientMessage) (base : nat).
Context (agent_seq : ∀ k m, agent !! k = Some m → sequence_number m = Z.of_nat k).
Context (agent_len : #agent < 2 ^ 63).
(** The session's cipher, if there is one, and the room for reordering. *)
Context (c : option SessionCrypto) (room : Z).

(** Plain output that decrypts under the cipher. *)
Definition plaintext (m : ClientMessage) : Res (list byte) :=
  match c with
  | Some k => if is_encrypted_inbound (payload_type m) then decrypt k (payload m)
              else Ok (payload m)
  | None => Ok (payload m)
  end.

Definition readable (m : ClientMessage) : Prop :=
  payload_type m ∈ [Pt_Output; Pt_StdErr; Pt_Undefined]
  ∧ (payload m = [] ∨ is_ok (plaintext m) = true).
Definition all_readable : Prop := Forall readable (drop base agent).

(** The chunks these messages contribute to the session's output. *)
Definition outputs (ms : list ClientMessage) : list (list byte) :=
  omap (λ m, if decide (payload m = []) then None else ok (plaintext m)) ms.

(** The stream message in an event; it belongs to the agent's stream. *)
Definition stream_message (ev : ReadEvent) : option ClientMessage :=
  match ev with
  | Incoming (Binary data) =>
    match deserialize data with
    | Done (Ok m) => if decide (message_type m = OutputStreamData) then Some m else None
    | _ => None
    end
  | _ => None
  end.
Definition from_agent (ev : ReadEvent) : Prop := ∀ m, stream_message ev = Some m → m ∈ agent.

Definition buffered (v : RView) : gmap Z ClientMessage := messages (v_incoming v).
Definition cap (v : RView) : Z := in_capacity (v_incoming v).

(** Delivered so far: exactly the messages from [base] to [e], [e] being the expected
    number; everything in the reorder buffer is ahead of that. *)
Definition segment (e : nat) : list ClientMessage := take (e - base) (drop base agent).
Definition rpos (e : nat) (v : RView) : Prop :=
  v_expected v = Z.of_nat e ∧ (base ≤ e ≤ length agent)%nat ∧ v_delivered v = segment e
  ∧ ∀ k m, buffered v !! k = Some m → Z.of_nat e ≤ k ∧ agent !! Z.to_nat k = Some m.
Definition rinv (v : RView) : Prop := ∃ e, rpos e v ∧ buffered v !! Z.of_nat e = None.

(** Message [k] has been delivered or is waiting in the reorder buffer. *)
Definition covered (k : nat) (v : RView) : Prop :=
  Z.of_nat k < v_expected v ∨ is_Some (buffered v !! Z.of_nat k).

(** Put out: the plaintext of what was delivered, at all times but for the last
    message. *)
Definition shown (v : RView) : Prop :=
  all_readable → v_cipher v = c ∧ v_emitted v = outputs (v_delivered v).
Definition in_order (v : RView) : Prop :=
  v_delivered v `prefix_of` drop base agent
  ∧ (all_readable → v_cipher v = c ∧ v_emitted v `prefix_of` outputs (v_delivered v)).

(** Between two events everything read is accounted for. *)
Definition complete (v : RView) : Prop :=
  #agent ≤ room →
  ∀ k m, agent !! k = Some m → m ∈ omap stream_message (v_read v) → covered k v.
Definition settled (v : RView) : Prop := rinv v ∧ shown v ∧ complete v ∧ cap v = room.

Lemma segment_prefix e : segment e `prefix_of` drop base agent.
Proof. exists (drop (e - base) (drop base agent)). symmetry. apply take_drop. Qed.

Lemma segment_snoc e m :
  (base ≤ e)%nat → agent !! e = Some m → segment e ++ [m] = segment (S e).
Proof.
  intros Hle Hm. unfold segment. replace (S e - base)%nat with (S (e - base)) by lia.
  symmetry. apply take_S_r. rewrite lookup_drop. by replace (base + (e - base))%nat with e by lia.
Qed.

Lemma rinv_in_order v : rinv v → shown v → in_order v.
Proof.
  intros (e & (_ & _ & Hd & _) & _) Hs. split.
  - rewrite Hd. apply segment_prefix.
  - intros Ha. destruct (Hs Ha) as [-> ->]. done.
Qed.

#[local] Instance readable_dec m : Decision (readable m).
Proof. unfold readable. tc_solve. Defined.
#[local] Instance all_readable_dec : Decision all_readable.
Proof. unfold all_readable. tc_solve. Defined.

(** *** The reader's programs *)

(** The places the reader moves to. *)
Definition v_deliver (v : RView) m : RView :=
  {| v_expected := v_expected v; v_incoming := v_incoming v; v_cipher := v_cipher v;
     v_read := v_read v; v_delivered := v_delivered v ++ [m]; v_emitted := v_emitted v |}.
Definition v_emit (v : RView) (d : list byte) : RView :=
  {| v_expected := v_expected v; v_incoming := v_incoming v; v_cipher := v_cipher v;
     v_read := v_read v; v_delivered := v_delivered v; v_emitted := v_emitted v ++ [d] |}.
Definition v_move (v : RView) (e : Z) (b : IncomingBuffer) : RView :=
  {| v_expected := e; v_incoming := b; v_cipher := v_cipher v;
     v_read := v_read v; v_delivered := v_delivered v; v_emitted := v_emitted v |}.

(** Same place, whatever was put out. *)
Definition agree (v v' : RView) : Prop :=
  v_expected v' = v_expected v ∧ v_incoming v' = v_incoming v ∧ v_read v' = v_read v
  ∧ v_delivered v' = v_delivered v.
Definition loose w w' : Prop :=
  agree (rview w) (rview w') ∧ (core_closed (w_core w) = true → core_closed (w_core w') = true)
  ∧ n_inbox (w_net w') = n_inbox (w_net w).

Lemma same_loose w w' : same_reader w w' → loose w w'.
Proof. intros (Hv & Hc & Hi). unfold loose. by rewrite Hv. Qed.
Lemma keeps_loose {A} L (p : Prog World Error A) : keeps L same_reader p → keeps True loose p.
Proof. by apply keeps_mono; [|apply same_loose]. Qed.
Lemma loose_upd_core f :
  (∀ k, expected (continuity (C := C) (f k)) = expected (continuity k)
        ∧ incoming (continuity (f k)) = incoming (continuity k)
        ∧ core_closed (f k) = core_closed k) →
  keeps True loose (upd_core f).
Proof.
  intros Hf. apply keeps_act. intros w. destruct (Hf (w_core w)) as (He & Hi & Hcl).
  unfold loose, agree, rview, stream. cbn. by rewrite He, Hi, Hcl.
Qed.
#[local] Hint Resolve keeps_loose : io.

Lemma loose_deliver m :
  keeps True loose
    match payload_type m with
    | Pt_Output | Pt_StdErr | Pt_Undefined => deliver_output m
    | Pt_HandshakeRequest => deliver_handshake_request m
    | Pt_HandshakeComplete => deliver_handshake_complete m
    | Pt_EncChallengeRequest => deliver_challenge m
    | Pt_ExitCode => deliver_exit_code m
    | Pt_Flag => deliver_flag m
    | Pt_Error => mret ()
    | _ => mret ()
    end.
Proof.
  unfold deliver_output, deliver_handshake_request, deliver_handshake_complete, deliver_challenge,
    deliver_exit_code, deliver_flag, parse_payload, decrypt_if_needed, emit, close_by_agent.
  walk; try (by apply loose_upd_core); try (by apply keeps_act).
  - apply keeps_act. intros w. by destruct (on_request _ _ _).
  - apply keeps_act. intros w. by destruct (on_complete _ _).
  - apply loose_upd_core. intros k. by destruct (ok (from_utf8 _) ≫= _).
Qed.

(** Its knowledge is its place and something about the rest of the state.  Plain
    output never disturbs that, never waits and never fails; otherwise the logic has
    to allow it. *)
Section logic.
Context {X : Type} (frame : X → World (C := C) → Prop).

Definition pre (k : RView * X) w : Prop := rview w = k.1 ∧ frame k.2 w ∧ in_order k.1.

Context (post : RView * X → World → RView * X → World → Prop)
  (post_pre : ∀ k w k' w', pre k w → pre k' w' → post k w k' w')
  (stuck : RView * X → World (C := C) → Prop) (crash : RView * X → Prop)
  (frame_quiet : ∀ x w w', frame x w → core_closed (w_core w') = core_closed (w_core w) →
     n_inbox (w_net w') = n_inbox (w_net w) → frame x w').
Definition permissive : Prop :=
  (∀ k w, stuck k w) ∧ (∀ k, crash k)
  ∧ ∀ x w w', frame x w → (core_closed (w_core w) = true → core_closed (w_core w') = true) →
      n_inbox (w_net w') = n_inbox (w_net w) → frame x w'.
Context (mode : all_readable ∨ permissive).
Abbreviation wp := (wp (E := Error) pre post stuck crash).

Lemma wp_calm {A} (p : Prog World Error A) Q k :
  keeps False quiet p → (∀ r, Q r k) → wp p Q k.
Proof.
  intros Hp HQ. eapply (wp_keeps _ _ _ _ False); [done| |exact Hp|done]. intros w w' (Hv & Hc & Hi & _) Hw.
  apply post_pre; [done|]. destruct Hw as (Hk & Hf & Ho). split_and!; [congruence| |done].
  by eapply frame_quiet.
Qed.

Lemma wp_look {A} (f : World → A * World) Q k :
  (∀ w, quiet w (f w).2) → (∀ a, Q (Ok a) k) → wp (act f) Q k.
Proof.
  intros Hf HQ. apply wp_act. intros w Hw. exists k. split; [|done].
  apply post_pre; [done|]. destruct (Hf w) as (Hv & Hc & Hi & _), Hw as (Hk & Hfr & Ho).
  split_and!; [congruence|by eapply frame_quiet|done].
Qed.

(** A step of the reader: from one place to the next. *)
Lemma wp_place {A} (f : World → A * World) v' a Q v x :
  (∀ w, rview w = v → rview (f w).2 = v' ∧ (f w).1 = a
        ∧ core_closed (w_core (f w).2) = core_closed (w_core w)
        ∧ n_inbox (w_net (f w).2) = n_inbox (w_net w)) →
  in_order v' → Q (Ok a) (v', x) → wp (act f) Q (v, x).
Proof.
  intros Hf Ho HQ. apply wp_act. intros w Hw. pose proof Hw as (Hk & Hfr & _). cbn in Hk, Hfr.
  destruct (Hf w Hk) as (Hv & Ha & Hc & Hi). exists (v', x). rewrite Ha. split; [|done].
  apply post_pre; [done|]. split_and!; [done|cbn; by eapply frame_quiet|done].
Qed.

Lemma wp_loose {A} (p : Prog World Error A) Q v x :
  ¬ all_readable → keeps True loose p → (∀ r v', agree v v' → Q r (v', x)) → wp p Q (v, x).
Proof.
  intros Hn. destruct mode as [Ha|(Hst & Hcr & Hfr)]; [done|]. unfold keeps.
  revert v. induction p as [r| |f IH] using Prog_tree_ind; intros v Hp HQ.
  - by apply HQ.
  - apply Hcr.
  - intros w Hw. specialize (Hp w I). destruct (f w) as [[p' w']|] eqn:Ef; [|apply Hst].
    destruct Hp as ([] & (Hag & Hcl & Hi) & Hp). pose proof Hw as (Hk & Hf & Ho & _).
    cbn in Hk, Hf, Ho. subst v. exists (rview w', x). split.
    + apply post_pre; [done|]. split_and!; [done|cbn; by eapply Hfr|].
      split; [|done]. destruct Hag as (_ & _ & _ & Hd). cbn in Hd |- *. by rewrite Hd.
    + eapply IH; [done|done|]. intros r v' Hv'. apply HQ. unfold agree in *.
      destruct_and?. split_and!; congruence.
Qed.

(** [deliver] on the next message of the stream. *)
Definition delivers (v : RView) m (r : Res ()) (v' : RView) : Prop :=
  agree (v_deliver v m) v' ∧ shown v' ∧ (all_readable → r = Ok ()).

Lemma outputs_snoc ms m :
  outputs (ms ++ [m])
  = outputs ms ++ if decide (payload m = []) then []
                  else from_option (λ d, [d]) [] (ok (plaintext m)).
Proof.
  unfold outputs. rewrite omap_app. f_equal. cbn. destruct (decide (payload m = [])); [done|].
  by destruct (ok (plaintext m)).
Qed.

Lemma wp_deliver_output m Q v x :
  all_readable → readable m → shown v → v_delivered v ++ [m] `prefix_of` drop base agent →
  (∀ r v', delivers v m r v' → Q r (v', x)) →
  wp (deliver_output m) Q (v_deliver v m, x).
Proof.
  intros Ha [_ Hm] Hs Hpre HQ. destruct (Hs Ha) as [Hc He].
  unfold deliver_output. apply wp_bind, wp_look; [done|]. intros ready. apply wp_bind.
  assert (Hgo : ∀ k P, P (Ok ()) k →
    wp (if ready then mret () else upd_core (set_sendable true)) P k).
  { intros k P HP. destruct ready; [exact HP|]. apply wp_look; [done|]. by intros []. }
  apply Hgo. clear Hgo.
  pose proof (outputs_snoc (v_delivered v) m) as Hout.
  destruct (decide (payload m = [])) as [Hnil|Hnil].
  { apply HQ. split_and!; try done. intros _. split; [done|].
    cbn [v_emitted v_delivered v_deliver]. by rewrite He, Hout, app_nil_r. }
  destruct Hm as [?|Hm]; [done|]. apply wp_bind, wp_bind.
  eapply wp_place with (v' := v_deliver v m) (a := c).
  - intros w Hw. split_and!; try done. apply (f_equal v_cipher) in Hw. by rewrite <- Hc.
  - split; [done|]. intros _. split; [done|].
    cbn [v_emitted v_delivered v_deliver]. rewrite He, Hout. by apply prefix_app_r.
  - fold (plaintext m). change (Coroutine.wp _ _ _ _ (res ?r) ?P ?k) with (P r k). cbv beta.
    replace (match c with Some _ => _ | None => _ end) with (plaintext m) by done.
    destruct (plaintext m) as [d|e]; [|done]. cbn in Hout.
    assert (Hv : v_emitted v ++ [d] = outputs (v_delivered v ++ [m])) by (by rewrite He, Hout).
    eapply wp_place with (v' := v_emit (v_deliver v m) d) (a := ()).
    + intros w Hw. rewrite <- Hw. by split_and!.
    + split; [done|]. intros _. split; [done|].
      cbn [v_emitted v_delivered v_deliver v_emit]. by rewrite Hv.
    + apply HQ. by split_and!.
Qed.

Lemma wp_deliver m Q v x :
  shown v → v_delivered v ++ [m] `prefix_of` drop base agent →
  (∀ r v', delivers v m r v' → Q r (v', x)) → wp (deliver m) Q (v, x).
Proof.
  intros Hs Hpre HQ.
  assert (Hm : m ∈ drop base agent).
  { destruct Hpre as [l ->]. apply elem_of_app. left. apply elem_of_app. right. by left. }
  unfold deliver. apply wp_bind. eapply wp_place with (v' := v_deliver v m) (a := ()).
  { intros w <-. by split_and!. }
  { split; [done|]. intros Ha. destruct (Hs Ha) as [Hc He]. split; [done|].
    cbn [v_emitted v_delivered v_deliver]. rewrite He, outputs_snoc. by apply prefix_app_r. }
  destruct (decide all_readable) as [Ha|Hn].
  - pose proof (proj1 (Forall_forall _ _) Ha m Hm) as Hrd. pose proof Hrd as [Hpt _].
    assert (Hwp : wp (deliver_output m) Q (v_deliver v m, x)) by (by apply wp_deliver_output).
    rewrite !elem_of_cons, elem_of_nil in Hpt. by destruct Hpt as [->|[->|[->|[]]]].
  - apply wp_loose; [done|apply loose_deliver|]. intros r v' Hv'. apply HQ. by split_and!.
Qed.

(** Stepping past a message that was delivered. *)
Lemma wp_deliver_next {A} e m (g : Z → Prog World Error A) Q v x :
  rpos e v → shown v → buffered v !! Z.of_nat e = None → agent !! e = Some m →
  (∀ v', rpos (S e) v' → shown v' → buffered v' = buffered v → cap v' = cap v →
     v_read v' = v_read v → wp (g (Z.of_nat (S e))) Q (v', x)) →
  (∀ err v', ¬ all_readable → v_read v' = v_read v → Q (Err err) (v', x)) →
  wp (_ ← deliver m; next ← advance_expected; g next) Q (v, x).
Proof.
  intros (He & Hle & Hd & Hb) Hs Hn Hm HQ Herr.
  assert (Hlt : (e < length agent)%nat) by (by eapply lookup_lt_Some).
  assert (Hd' : v_delivered v ++ [m] = segment (S e))
    by (rewrite Hd; apply segment_snoc; [lia|done]).
  apply wp_bind, wp_deliver; [done| |].
  { rewrite Hd'. apply segment_prefix. }
  intros r v1 ((He1 & Hi1 & Hr1 & Hd1) & Hs1 & Hok). cbn in He1, Hi1, Hr1, Hd1.
  destruct r as [[]|err]; [|apply Herr; [intros Ha; by specialize (Hok Ha)|done]].
  assert (Hwrap : wrap_i 64 (v_expected v1 + 1) = Z.of_nat (S e)).
  { rewrite He1, He, wrap_i_small; [lia|lia|]. unfold len in agent_len. cbn; lia. }
  set (v2 := v_move v1 (Z.of_nat (S e)) (v_incoming v1)).
  assert (Hr2 : rpos (S e) v2).
  { split_and!; [done|lia|done|cbn; congruence|]. intros k m' Hk. unfold buffered in Hk.
    cbn in Hk. rewrite Hi1 in Hk. destruct (Hb k m' Hk) as [Hge ?]. split; [|done].
    destruct (decide (k = Z.of_nat e)) as [->|]; [|lia]. unfold buffered in Hn. congruence. }
  assert (Hb2 : buffered v2 = buffered v ∧ cap v2 = cap v ∧ shown v2).
  { unfold buffered, cap. cbn. rewrite Hi1. by split_and!. }
  destruct Hb2 as (Hb2 & Hc2 & Hs2).
  assert (Ho2 : in_order v2).
  { split; [rewrite (proj1 (proj2 (proj2 Hr2))); apply segment_prefix|]. intros Ha. by destruct (Hs2 Ha) as [-> ->]. }
  apply wp_bind. eapply wp_place with (v' := v2) (a := Z.of_nat (S e)).
  - intros w <-. cbn in Hwrap. cbn [fst snd]. rewrite Hwrap. by split_and!.
  - done.
  - by apply HQ.
Qed.

(** What routing a stream message leads to. *)
Definition routed (v : RView) (r : Res ()) (v' : RView) : Prop :=
  match r with
  | Ok _ =>
    rinv v' ∧ shown v' ∧ cap v' = cap v ∧ v_read v' = v_read v ∧ v_expected v ≤ v_expected v'
    ∧ ∀ k, covered k v → covered k v'
  | Err _ => ¬ all_readable ∧ v_read v' = v_read v
  end.

Lemma wp_drain fuel : ∀ e Q v x,
  rpos e v → shown v → (size (buffered v) < fuel)%nat →
  (∀ r v', routed v r v' → Q r (v', x)) → wp (drain fuel (Z.of_nat e)) Q (v, x).
Proof.
  induction fuel as [|fuel IH]; intros e Q v x Hr Hs Hsize HQ; [lia|]. cbn [drain].
  pose proof Hr as (He & Hle & Hd & Hb). apply wp_bind.
  set (v1 := v_move v (v_expected v) (incoming_take (Z.of_nat e) (v_incoming v)).2).
  assert (Hb1 : buffered v1 = delete (Z.of_nat e) (buffered v)) by done.
  assert (Hr1 : rpos e v1).
  { split_and!; try done; try lia. rewrite Hb1. intros k m [_ Hk]%lookup_delete_Some. by apply Hb. }
  assert (Hn1 : buffered v1 !! Z.of_nat e = None) by (by rewrite Hb1, lookup_delete_eq).
  eapply wp_place with (v' := v1) (a := buffered v !! Z.of_nat e).
  { intros w <-. by split_and!. }
  { apply rinv_in_order; [by exists e|exact Hs]. }
  destruct (buffered v !! Z.of_nat e) as [m|] eqn:Em.
  - destruct (Hb _ _ Em) as [_ Hm]. rewrite Nat2Z.id in Hm.
    apply (wp_deliver_next e); [done|exact Hs|done|done| |by intros err v' Hn Hrd; apply HQ].
    intros v2 Hr2 Hs2 Hb2 Hc2 Hrd2. pose proof Hr2 as (He2 & _). apply IH; [done|done| |].
    { rewrite Hb2, Hb1, map_size_delete_Some by eauto.
      assert (size (buffered v) ≠ 0%nat); [|lia].
      intros Hz%map_size_empty_inv. by rewrite Hz in Em. }
    intros [[]|err] v' Hv'; apply HQ; [|destruct Hv' as [? Hrd]; split; [done|by rewrite Hrd, Hrd2]].
    destruct Hv' as (Hi & Hs' & Hc & Hrd & Hle' & Hcov).
    split_and!; [done|done|by rewrite Hc, Hc2|by rewrite Hrd, Hrd2|lia|].
    intros k Hk. apply Hcov. unfold covered in *. rewrite He2, Hb2, Hb1. rewrite He in Hk.
    destruct (decide (k = e)) as [->|Hne]; [left; lia|].
    destruct Hk as [Hk|Hk]; [left; lia|right]. by rewrite lookup_delete_ne by lia.
  - apply HQ. split_and!; [by exists e|done|done|done|cbn; lia|].
    intros k. unfold covered. rewrite Hb1, delete_id by done. done.
Qed.

Lemma wp_acknowledge m b Q k : Q (Ok ()) k → wp (acknowledge_message m b) Q k.
Proof.
  intros HQ. unfold acknowledge_message. apply wp_bind, wp_look; [done|]. intros n.
  destruct (build_ack _ _ _ _); [|exact HQ]. apply wp_bind, wp_look; [|by intros []].
  intros w. by destruct (try_send _ _) as [[] q].
Qed.

Definition routes (k : nat) (v : RView) (r : Res ()) (v' : RView) : Prop :=
  routed v r v' ∧ (is_ok r = true → #agent ≤ cap v → covered k v').

Lemma incoming_insert_inv m b :
  let b' := (incoming_insert m b).2 in
  in_capacity b' = in_capacity b
  ∧ (messages b' = <[sequence_number m := m]> (messages b)
     ∨ b' = b ∧ in_capacity b ≤ map_len (messages b) ∧ messages b !! sequence_number m = None).
Proof.
  unfold incoming_insert. destruct (_ && _) eqn:Efull; cbn; [|by split; [|left]].
  apply andb_true_iff in Efull as [Hfull Hnew]. apply Z.leb_le in Hfull.
  apply negb_true_iff, bool_decide_eq_false, eq_None_not_Some in Hnew.
  split; [done|]. by right.
Qed.

(** A message ahead of its turn finds room if the stream fits the buffer. *)
Lemma insert_ahead e k m v :
  rpos e v → buffered v !! Z.of_nat e = None → agent !! k = Some m → (e < k)%nat →
  let v1 := v_move v (v_expected v) (incoming_insert m (v_incoming v)).2 in
  rpos e v1 ∧ buffered v1 !! Z.of_nat e = None ∧ cap v1 = cap v
  ∧ (∀ j, covered j v → covered j v1) ∧ (#agent ≤ cap v → covered k v1).
Proof.
  intros (He & Hle & Hd & Hb) Hn Hm Hlt.
  assert (Hk : ∀ j y, <[Z.of_nat k := m]> (buffered v) !! j = Some y →
                 Z.of_nat e ≤ j ∧ agent !! Z.to_nat j = Some y).
  { intros j y [[<- <-]|[_ Hj]]%lookup_insert_Some; [|by apply Hb].
    rewrite Nat2Z.id. split; [lia|done]. }
  destruct (incoming_insert_inv m (v_incoming v)) as [Hc Hm1]. rewrite (agent_seq _ _ Hm) in Hm1.
  set (b := (incoming_insert m (v_incoming v)).2) in *. clearbody b. cbv zeta.
  destruct Hm1 as [Hm1|(-> & Hfull & Hnew)].
  - assert (Hb1 : buffered (v_move v (v_expected v) b) = <[Z.of_nat k := m]> (buffered v)) by exact Hm1.
    unfold rpos, covered. rewrite Hb1, lookup_insert_ne by lia. split_and!; try done; try lia.
    + intros j [?|Hj]; [by left|right]. rewrite lookup_insert_is_Some'. by right.
    + intros _. right. rewrite lookup_insert_eq. by eexists.
  - split_and!; try done; try lia. intros Hcap. exfalso.
    assert (Hsz : (size (<[Z.of_nat k := m]> (buffered v)) ≤ length agent)%nat).
    { apply map_size_bound. intros j y Hj. destruct (Hk j y Hj) as [Hj1 Hj2%lookup_lt_Some]. lia. }
    rewrite map_size_insert_None in Hsz by done.
    unfold cap, buffered, map_len, len in *. lia.
Qed.

Lemma wp_route_ahead e k m Q v x :
  rpos e v → shown v → buffered v !! Z.of_nat e = None → agent !! k = Some m → (e < k)%nat →
  (∀ r v', routes k v r v' → Q r (v', x)) →
  wp (stored ← insert_incoming m;
      if stored : bool then acknowledge_message m false else mret ()) Q (v, x).
Proof.
  intros Hr Hs Hn Hm Hlt HQ.
  destruct (insert_ahead e k m v) as (Hr1 & Hn1 & Hc1 & Hcov & Hk1); [done..|].
  set (v1 := v_move v _ _) in *. apply wp_bind.
  eapply wp_place with (v' := v1) (a := (incoming_insert m (v_incoming v)).1).
  { intros w Hw. unfold v1. rewrite <- Hw. cbn.
    destruct (incoming_insert m (incoming (stream w))) as [b buf]. by split_and!. }
  { apply rinv_in_order; [by exists e|exact Hs]. }
  assert (HQ1 : Q (Ok ()) (v1, x)).
  { apply HQ. split; [|done]. split_and!; [by exists e|exact Hs|done|done|cbn; lia|done]. }
  destruct (incoming_insert _ _).1; [by apply wp_acknowledge|exact HQ1].
Qed.

Lemma wp_route_stream k m Q v x :
  rinv v → shown v → agent !! k = Some m →
  (∀ r v', routes k v r v' → Q r (v', x)) → wp (route_stream_data m) Q (v, x).
Proof.
  intros (e & Hr & Hn) Hs Hm HQ. pose proof Hr as (He & _). unfold route_stream_data.
  apply wp_bind. eapply wp_place with (v' := v) (a := Z.of_nat e).
  { intros w <-. by split_and!. }
  { apply rinv_in_order; [by exists e|done]. }
  rewrite (agent_seq _ _ Hm).
  destruct (Z.compare_spec (Z.of_nat k) (Z.of_nat e)) as [Hke|Hke|Hke].
  - assert (k = e) as -> by lia. apply wp_bind, wp_acknowledge.
    apply (wp_deliver_next e); [done..| |by intros err v' Hx Hrd; apply HQ; split].
    intros v1 Hr1 Hs1 Hb1 Hc1 Hrd1. pose proof Hr1 as (He1 & _). apply wp_bind.
    eapply wp_place with (v' := v1) (a := size (buffered v1)).
    { intros w <-. by split_and!. }
    { split; [rewrite (proj1 (proj2 (proj2 Hr1))); apply segment_prefix|]. intros Ha. by destruct (Hs1 Ha) as [-> ->]. }
    apply wp_drain; [done|done|lia|]. intros [[]|err] v' Hv'; apply HQ; [|destruct Hv' as [? Hrd]; split; [split; [done|by rewrite Hrd, Hrd1]|done]].
    destruct Hv' as (Hi & Hs' & Hc & Hrd & Hle & Hcov). split; [split_and!|].
    + done.
    + done.
    + congruence.
    + congruence.
    + lia.
    + intros j Hj. apply Hcov. unfold covered in *. rewrite Hb1. destruct Hj; [left; lia|by right].
    + intros _ _. left. lia.
  - apply HQ. split; [split_and!; [by exists e|done..]|]. intros _ _. left. lia.
  - apply (wp_route_ahead e k); [done..|lia|done].
Qed.

(** *** One event *)

Definition v_reads (v : RView) (ev : ReadEvent) : RView :=
  {| v_expected := v_expected v; v_incoming := v_incoming v; v_cipher := v_cipher v;
     v_read := v_read v ++ [ev]; v_delivered := v_delivered v; v_emitted := v_emitted v |}.

(** Frames that neither end the session nor make the reader wait. *)
Definition benign (ev : ReadEvent) : Prop :=
  match ev with
  | Incoming (Binary _) => is_Some (stream_message ev)
  | Incoming (Text t) => trim t ≠ lit "channel_closed"
  | Incoming (Ping _ | Pong _ | RawFrame) => True
  | _ => False
  end.

Lemma settled_read v ev v' :
  settled v → routed (v_reads v ev) (Ok ()) v' →
  (∀ k m, agent !! k = Some m → stream_message ev = Some m → #agent ≤ cap v → covered k v') →
  settled v'.
Proof.
  intros (_ & _ & Hcp & Hroom) (Hi & Hs & Hc & Hrd & _ & Hcov) Hev.
  split_and!; [done|done| |by rewrite Hc].
  intros Hcap k m Hk Hin. rewrite Hrd in Hin.
  change (v_read (v_reads v ev)) with (v_read v ++ [ev]) in Hin.
  rewrite omap_app in Hin. apply elem_of_app in Hin as [Hin|Hin].
  - apply Hcov. exact (Hcp Hcap k m Hk Hin).
  - apply list_elem_of_omap in Hin as (ev' & ->%list_elem_of_singleton & Hm).
    apply (Hev k m); [done|done|]. by rewrite Hroom.
Qed.

Lemma settled_skip v ev : settled v → stream_message ev = None → settled (v_reads v ev).
Proof.
  intros Hv Hev. apply (settled_read v ev); [done| |by rewrite Hev].
  destruct Hv as (Hi & Hs & _). split_and!; [exact Hi|exact Hs|done..].
Qed.

Lemma wp_same {A} (p : Prog World Error A) Q k :
  permissive → keeps True same_reader p → (∀ r, Q r k) → wp p Q k.
Proof.
  intros (Hst & Hcr & Hfr) Hp HQ. eapply (wp_keeps _ _ _ _ True); [by auto| |exact Hp|done].
  intros w w' (Hv & Hc & Hi) Hw. apply post_pre; [done|]. destruct Hw as (Hk & Hf & Ho).
  split_and!; [congruence| |done]. by eapply Hfr.
Qed.

Lemma same_route m : message_type m ≠ OutputStreamData → keeps True same_reader (route m).
Proof.
  intros Hne. unfold route, route_ack, close_by_agent.
  destruct (message_type m); [|done|..]; walk. intros w _. cbn.
  destruct (Ack.acknowledge _ _ _) as [[? b]|]; exists (); by split_and!.
Qed.

Lemma wp_read_event ev Q v x :
  settled v → from_agent ev → (benign ev ∨ permissive) →
  (∀ o v', (o = None ∨ all_readable ∨ stream_message ev = None →
              settled v' ∧ v_read v' = v_read v ++ [ev]) →
     (benign ev → all_readable → o = None) → last (v_read v') = Some ev →
     Q (Ok o) (v', x)) →
  wp (read_event ev) Q (v_reads v ev, x).
Proof.
  intros Hv Hev Hm HQ. pose proof Hv as (Hi & Hs & _).
  assert (Hskip : stream_message ev = None → ∀ o, (benign ev → o = None) → Q (Ok o) (v_reads v ev, x)).
  { intros Hn o Ho. apply HQ; [|auto|apply last_snoc]. intros _. split; [by apply settled_skip|done]. }
  destruct ev as [[t|data|d|d|fr|]|e|]; cbn [read_event]; try (by apply Hskip).
  - unfold handle_text. repeat case_decide; try (by apply Hskip).
    + apply wp_bind, wp_look; [done|]. intros []. by apply Hskip.
    + apply wp_bind, wp_look; [done|]. intros []. by apply Hskip.
    + apply wp_bind, wp_look; [done|]. intros code. by apply Hskip.
  - unfold from_agent in Hev. cbn [stream_message benign] in Hev, Hm, Hskip, HQ.
    destruct (deserialize data) as [[m|e]|] eqn:Ed.
    + apply wp_bind, wp_attempt. unfold from_agent in Hev.
      destruct (decide (message_type m = OutputStreamData)) as [Ht|Ht].
      * assert (Hin : m ∈ agent) by (by apply Hev).
        apply list_elem_of_lookup in Hin as [k Hk]. unfold route. rewrite Ht.
        apply (wp_route_stream k m _ _ x); [done|done|done|].
        intros [[]|e] v' [Hr Hcov].
        2: { destruct Hr as [Hno Hrd]. apply HQ; [|done|rewrite Hrd; apply last_snoc].
             by intros [|[|]]. }
        pose proof Hr as (_ & _ & _ & Hrd & _). apply HQ; [|done|rewrite Hrd; apply last_snoc].
        intros _. split; [|apply Hr]. apply (settled_read v (Incoming (Binary data))); [done|done|].
        intros j m' Hj Hm'. cbn in Hm'. rewrite Ed, decide_True in Hm' by done.
        injection Hm' as <-. assert (j = k) as ->; [|by apply Hcov].
        apply agent_seq in Hj, Hk. lia.
      * destruct Hm as [[? [=]]|Hm]. apply wp_same; [done|by apply same_route|].
        intros [[]|e]; by apply Hskip; try (intros [? [=]]).
    + apply Hskip; [done|]. by intros [? [=]].
    + destruct Hm as [[? [=]]|Hm]. apply Hm.
  - apply wp_bind, wp_look; [done|]. intros code. by apply Hskip.
Qed.
End logic.

(** ** Every interleaving *)

Context (timeout : Duration).

(** What the reader knows of the rest: that the session is closed, once it has seen
    it, and that what is still to be read is the agent's. *)
Definition reader_frame (x : bool) w : Prop :=
  (x = true → core_closed (w_core w) = true) ∧ Forall from_agent (n_inbox (w_net w)).

Definition knows (t : TaskId) (k : RView * bool) w : Prop :=
  if decide (t = Reader) then pre reader_frame k w else True.
Definition head_of (t : TaskId) (k : RView * bool) : Prop :=
  if decide (t = Reader) then settled k.1 else True.
(** It did not end in the middle of a message: either every message can be delivered,
    or the last event was something else. *)
Definition orderly (l : list ReadEvent) : Prop :=
  all_readable ∨ ∀ ev, last l = Some ev → stream_message ev = None.
Definition end_of (t : TaskId) (k : RView * bool) : Prop :=
  if decide (t = Reader) then k.2 = true ∧ (orderly (v_read k.1) → settled k.1) else True.
Abbreviation fine := (body_fine (body timeout) knows (λ _ _ _, True) (λ _ _, True) head_of end_of
  (λ _ _, True)).
Abbreviation ok := (sys_ok (E := Error) knows (λ _ _ _, True) (λ _ _, True) head_of end_of
  (λ _ _, True)).

Lemma frame_mono x w w' :
  reader_frame x w → (core_closed (w_core w) = true → core_closed (w_core w') = true) →
  n_inbox (w_net w') = n_inbox (w_net w) → reader_frame x w'.
Proof. intros [Hc Hi] Hm Heq. split; [auto|]. by rewrite Heq. Qed.

Lemma knows_same t k w w' : same_reader w w' → knows t k w → knows t k w'.
Proof.
  unfold knows. intros (Hv & Hc & Hi). case_decide; [|done]. intros (Hk & Hf & Ho).
  split_and!; [congruence| |done]. by eapply frame_mono.
Qed.

Lemma inbound_others t : t ≠ Reader → fine t.
Proof.
  intros Hne k _. eapply (wp_keeps _ _ _ _ True same_reader).
  - by split.
  - intros w w' Hs Hk. split; [by eapply knows_same|]. intros j kj _. by apply knows_same.
  - by apply keeps_minds, same_body.
  - intros [[]|e]; unfold head_of, end_of; by rewrite decide_False.
Qed.

(** The reader alone, between two events. *)
Lemma reader_fine : fine Reader.
Proof.
  intros [v x] Hv. unfold head_of in Hv. rewrite decide_True in Hv by done. cbn [fst] in Hv.
  pose (P := guarantee knows Reader).
  assert (Hpost : ∀ k w k' w', pre reader_frame k w → pre reader_frame k' w' → P k w k' w').
  { intros k w k' w' _ Hk'. split; [unfold knows; by rewrite decide_True|].
    intros j kj Hne _. unfold knows. by rewrite decide_False. }
  assert (Hperm : permissive reader_frame (λ _ _, True) (λ _, True)).
  { split_and!; [done|done|apply frame_mono]. }
  assert (Hquiet : ∀ y w w', reader_frame y w → core_closed (w_core w') = core_closed (w_core w) →
    n_inbox (w_net w') = n_inbox (w_net w) → reader_frame y w').
  { intros y w w' Hf Hc. apply frame_mono; [done|]. by rewrite Hc. }
  change (knows Reader) with (pre reader_frame). unfold task_fine, task_ok. fold P.
  assert (Hclose : ∀ r u y, (orderly (v_read u) → settled u) → wp (pre reader_frame) P (λ _ _, True) (λ _, True)
    (_ ← close_channel r; mret false)
    (λ r k, match r with Ok true => head_of Reader k | _ => end_of Reader k end) (u, y)).
  { intros r u y Hu. apply wp_bind, wp_modify. intros w Hw. exists (u, true). split; [|by split].
    apply Hpost; [done|]. destruct Hw as (Hk & Hf & Ho). cbn in Hk, Hf.
    split_and!; [|cbn; split|done].
    - rewrite <- Hk. unfold rview, stream. cbn. unfold core_close. by destruct (core_closed _).
    - intros _. unfold core_close. by destruct (core_closed (w_core w)) eqn:E.
    - apply Hf. }
  cbn [body]. unfold reader_task. apply wp_bind, wp_wait. intros w (Hk & Hf & Ho).
  cbn [fst snd] in Hk, Hf, Ho. destruct (core_closed (w_core w)) eqn:Ecl.
  { exists (v, true). split; [|by split]. apply (Hpost (v, x)); [done|]. split_and!; try done.
    split; [done|apply Hf]. }
  destruct (n_inbox (w_net w)) as [|ev l] eqn:Ei; [done|].
  destruct Hf as [Hx Hin]. rewrite Ei in Hin. apply Forall_cons in Hin as [Hev Hl].
  exists (v_reads v ev, x). split.
  { apply (Hpost (v, x)); [split_and!; try done; split; [done|]; rewrite Ei; by constructor|].
    split_and!; [by rewrite <- Hk|by split|exact Ho]. }
  cbn [fst snd]. apply wp_bind. eapply wp_look; [exact Hpost|exact Hquiet|done|]. intros [].
  apply wp_bind. apply (wp_read_event reader_frame P Hpost _ _ Hquiet (or_intror Hperm));
    [done|done|by right|].
  intros [reason|] v' Hset _ Hlast; [|apply Hset; by left].
  apply Hclose. intros [Ha|Hn]; apply Hset; right; [by left|right; by apply Hn].
Qed.

Lemma inbound_fine t : fine t.
Proof. destruct (decide (t = Reader)) as [->|]; [apply reader_fine|by apply inbound_others]. Qed.

Definition event_from_agent (ev : Event) : Prop :=
  match ev with Arrive e => from_agent e | _ => True end.

Lemma inbound_step ev x : event_from_agent ev → ok x → ok (sys_step timeout x ev).
Proof.
  intros Hev Hx.
  assert (Hout : same_reader (s_world x) (outside ev (s_world x)) →
    ok {| s_world := outside ev (s_world x); s_task := s_task x |}).
  { intros Hs. apply outside_sys; [|done]. intros j k. by apply knows_same. }
  pose proof (same_outside ev (s_world x)) as Hs.
  destruct ev as [t|e|e| | | |c0|r| |i|i| |t]; cbn [sys_step]; try (by apply Hout).
  - apply poll_sys; [apply inbound_fine|done].
  - apply outside_sys; [|done]. intros j k. unfold knows. case_decide; [|done].
    intros (Hk & [Hc Hi] & Ho). split_and!; [done| |done]. split; [done|].
    cbn. apply Forall_app. split; [done|]. by constructor.
  - destruct (finished _); [done|]. apply abort_sys; [| |done].
    + intros k Hk. exists k. split; [|done]. by eapply knows_same, Hk; apply same_release.
    + intros j k _. apply knows_same, same_release.
Qed.

Lemma inbound_run evs : ∀ x, Forall event_from_agent evs → ok x → ok (sys_run timeout x evs).
Proof.
  induction evs as [|ev evs IH]; intros x Hevs Hx; [done|]. apply Forall_cons in Hevs as [Hev Hevs].
  apply IH; [done|]. by apply inbound_step.
Qed.

Definition ready w : Prop := settled (rview w) ∧ n_inbox (w_net w) = [].

Lemma spawn_ok w : ready w → ok (spawn w).
Proof.
  intros [Hs Hi]. exists (λ _, (rview w, false)). intros t. unfold knows, task_fine, task_ok, spawn.
  cbn. unfold head_of. case_decide; [|done]. split; [|done]. split_and!; [done| |].
  - split; [done|]. by rewrite Hi.
  - destruct Hs as (? & ? & _). by apply rinv_in_order.
Qed.

(** *** The reader alone *)

(** One round on a benign event, with nobody in between. *)
Lemma round_total w ev l :
  all_readable → settled (rview w) → core_closed (w_core w) = false →
  n_inbox (w_net w) = ev :: l → from_agent ev → benign ev →
  ∃ w', run reader_task w = (Ret (Ok true), w') ∧ settled (rview w')
    ∧ core_closed (w_core w') = false ∧ n_inbox (w_net w') = l
    ∧ h_read (w_history w') = h_read (w_history w) ++ [ev].
Proof.
  intros Ha Hv Hcl Hin Hev Hb.
  pose (frame := λ (x : list ReadEvent) w,
    core_closed (w_core (C := C) w) = false ∧ n_inbox (w_net w) = x).
  pose (P := λ (_ : RView * list ReadEvent) (_ : World (C := C)), pre frame).
  assert (Hpost : ∀ k u k' u', pre frame k u → pre frame k' u' → P k u k' u') by done.
  assert (Hquiet : ∀ y u u', frame y u → core_closed (w_core u') = core_closed (w_core u) →
    n_inbox (w_net u') = n_inbox (w_net u) → frame y u').
  { intros y u u' [? ?] Hc Hi. split; congruence. }
  assert (Hwp : wp (pre frame) P (λ _ _, False) (λ _, False) reader_task
    (λ r k, r = Ok true ∧ settled k.1 ∧ k.2 = l ∧ v_read k.1 = v_read (rview w) ++ [ev])
    (rview w, ev :: l)).
  { unfold reader_task. apply wp_bind, wp_wait. intros u (Hk & [Hc Hi] & Ho). cbn in Hk, Hi.
    rewrite Hc, Hi. exists (v_reads (rview w) ev, l). split.
    { split_and!; [by rewrite <- Hk|by split|exact Ho]. }
    apply wp_bind. eapply wp_look; [exact Hpost|exact Hquiet|done|]. intros [].
    apply wp_bind.
    apply (wp_read_event frame P Hpost _ _ Hquiet (or_introl Ha)); [done|done|by left|].
    intros o v' Hset Hn _. rewrite (Hn Hb Ha) in *. destruct (Hset (or_introl eq_refl)). by split_and!. }
  destruct (run_total (pre frame) reader_task _ _ w Hwp) as (r & w' & [v' x] & Hr & Hw & HQ).
  { split_and!; [done|by split|]. destruct Hv as (? & ? & _). by apply rinv_in_order. }
  destruct HQ as (-> & Hs & Hx & Hrd). destruct Hw as (Hk & [Hc Hi] & _). cbn in *. subst.
  exists w'. by split_and!.
Qed.

Lemma drains l : ∀ x,
  all_readable → settled (rview (s_world x)) → core_closed (w_core (s_world x)) = false →
  s_task x Reader = at_head → n_inbox (w_net (s_world x)) = l →
  Forall from_agent l → Forall benign l →
  ∃ n, let y := Nat.iter n (poll (body timeout) Reader) x in
    s_task y Reader = at_head ∧ settled (rview (s_world y))
    ∧ core_closed (w_core (s_world y)) = false ∧ n_inbox (w_net (s_world y)) = []
    ∧ h_read (w_history (s_world y)) = h_read (w_history (s_world x)) ++ l.
Proof.
  induction l as [|ev l IH]; intros x Ha Hv Hcl Ht Hin Hag Hb.
  { exists 0%nat. cbn. rewrite app_nil_r. by split_and!. }
  apply Forall_cons in Hag as [Hev Hag]. apply Forall_cons in Hb as [Hbev Hb].
  destruct (round_total (s_world x) ev l) as (w' & Hr & Hv' & Hcl' & Hin' & Hrd); [done..|].
  destruct (round_polls reader_task (s_world x) w') as [n Hn]; [done|done|].
  pose proof (polls_of (body timeout) Reader n x) as Hp. rewrite Ht in Hp.
  change (body timeout Reader) with reader_task in Hp. rewrite Hn in Hp. cbv zeta in Hp.
  destruct Hp as (Hw & Ht' & _).
  destruct (IH (Nat.iter n (poll (body timeout) Reader) x)) as (n' & Hh & Hs & Hc & Hi & Hread);
    try done; try congruence.
  exists (n' + n)%nat. cbv zeta in *. rewrite Nat.iter_add. split_and!; try done.
  rewrite Hread, Hw, Hrd, <- app_assoc. done.
Qed.
End Stream.

(** ** Theorems *)

Section Theorems.
Context (agent : list ClientMessage) (base : nat).
Context (agent_seq : ∀ k m, agent !! k = Some m → sequence_number m = Z.of_nat k).
Context (agent_len : #agent < 2 ^ 63).
Context (timeout : Duration).

(** A channel that takes over the stream at message [base]. *)
Record starts w : Prop := {
  st_expected : expected (stream w) = Z.of_nat base;
  st_base : (base ≤ length agent)%nat;
  st_buffer k m : messages (incoming (stream w)) !! k = Some m →
    Z.of_nat base < k ∧ agent !! Z.to_nat k = Some m;
  st_history : w_history w = no_history;
  st_inbox : n_inbox (w_net w) = [];
  st_open : core_closed (w_core w) = false;
  st_fanout : fanout (w_core w) = Fanout_new }.

Abbreviation room w := (in_capacity (incoming (stream w))).
Abbreviation fine_after w x :=
  (sys_ok (E := Error) (knows agent base (cipher (stream w))) (λ _ _ _, True) (λ _ _, True)
     (head_of agent base (cipher (stream w)) (room w)) (end_of agent base (cipher (stream w)) (room w))
     (λ _ _, True) x).

Lemma starts_ready w : starts w → ready agent base (cipher (stream w)) (room w) w.
Proof.
  intros [He Hb Hm Hh Hi _ _]. split; [|done]. unfold settled, shown, complete, rinv, rpos.
  cbn. rewrite Hh. cbn. split_and!.
  - exists base. split_and!; [done|done|done|unfold segment; by rewrite Nat.sub_diag| |].
    + intros k m Hk. destruct (Hm k m Hk). split; [lia|done].
    + destruct (buffered _ !! _) as [m|] eqn:E; [|done]. destruct (Hm _ _ E). lia.
  - done.
  - intros _ k m _ Hin. by apply elem_of_nil in Hin.
  - done.
Qed.

Lemma starts_streams w : starts w → streams_ok w.
Proof.
  intros [_ _ _ Hh _ Ho Hf]. unfold streams_ok. rewrite Hf, Hh, Ho. cbn.
  split_and!; [apply fan_inv_new|done|]. intros i got offered. by rewrite lookup_empty.
Qed.

(** The invariants after any run. *)
Lemma inbound_after w evs :
  starts w → Forall (event_from_agent agent) evs →
  let x := sys_run timeout (spawn w) evs in
  fine_after w x ∧ reads (s_world x) = arrivals evs ∧ streams_ok (s_world x).
Proof.
  intros Hw Hevs x. pose proof (starts_ready w Hw) as Hr.
  assert (Hok : fine_after w (spawn w)) by (by apply spawn_ok).
  split; [by apply inbound_run|].
  destruct (tidy_run timeout evs (spawn w)) as (Hreads & Hs & _); [done|by apply starts_streams|].
  split; [|exact Hs]. unfold x. rewrite Hreads. unfold reads. cbn.
  by rewrite (st_history _ Hw), (st_inbox _ Hw).
Qed.

Lemma after_in_order w x :
  fine_after w x → in_order agent base (cipher (stream w)) (rview (s_world x)).
Proof. intros [κ Hx]. destruct (Hx Reader) as [(Hk & _ & Ho) _]. by rewrite Hk. Qed.

Lemma after_settled w x :
  fine_after w x → s_task x Reader = at_head →
  settled agent base (cipher (stream w)) (room w) (rview (s_world x)).
Proof.
  intros [κ Hx] Ht. destruct (Hx Reader) as [(Hk & _ & _) Hs]. rewrite Ht in Hs.
  rewrite Hk. exact Hs.
Qed.

(** It leaves nothing half done when it ends. *)
Lemma after_stopped w x :
  fine_after w x → s_task x Reader = Stopped →
  orderly agent base (cipher (stream w)) (h_read (w_history (s_world x))) →
  settled agent base (cipher (stream w)) (room w) (rview (s_world x)).
Proof.
  intros [κ Hx] Ht Ha. destruct (Hx Reader) as [(Hk & _ & _) Hs]. rewrite Ht in Hs. destruct Hs as [_ Hs].
  rewrite Hk. apply Hs. by rewrite <- Hk.
Qed.

(** C1: reliable output.  Let the agent's messages arrive in any order, with any
    duplication, among any other frames, and let the tasks of the channel interleave
    in any way.  Whenever the reader is between two events, what it has delivered, and
    put out after decryption, is exactly the agent's messages from where the channel
    took over up to a point [e], in order and once each; events are read in the order
    of their arrival; and [e] reaches every point up to which all messages have been
    read at least once, provided the stream fits the reorder buffer. *)
Theorem inbound_exactly_once w evs :
  starts w → Forall (event_from_agent agent) evs → all_readable agent base (cipher (stream w)) →
  let x := sys_run timeout (spawn w) evs in
  let h := w_history (s_world x) in
  s_task x Reader = at_head →
  ∃ e, expected (stream (s_world x)) = Z.of_nat e
    ∧ h_delivered h = segment agent base e
    ∧ h_emitted h = outputs (cipher (stream w)) (segment agent base e)
    ∧ h_read h ++ n_inbox (w_net (s_world x)) = arrivals evs
    ∧ (#agent ≤ in_capacity (incoming (stream w)) → ∀ k, (base ≤ k ≤ length agent)%nat →
         (∀ j m, (base ≤ j < k)%nat → agent !! j = Some m → m ∈ omap stream_message (h_read h)) →
         (k ≤ e)%nat).
Proof.
  intros Hw Hevs Ha x h Ht. destruct (inbound_after w evs Hw Hevs) as (Hok & Hr & _).
  destruct (after_settled w x Hok Ht) as ((e & (He & Hle & Hd & _) & Hn) & Hs & Hc & _).
  destruct (Hs Ha) as [_ Hem]. exists e. split_and!; [done|done| |done|].
  { etransitivity; [exact Hem|]. by rewrite Hd. }
  intros Hcap k Hk Hall. destruct (le_lt_dec k e) as [|Hlt]; [done|]. exfalso.
  destruct (lookup_lt_is_Some_2 agent e) as [m Hm]; [lia|].
  destruct (Hc Hcap e m Hm) as [Hx|[y Hx]]; [by apply (Hall e m); [lia|]| |].
  - rewrite He in Hx. lia.
  - congruence.
Qed.

(** C2: whatever arrives and however the tasks of a channel interleave (sends, waits,
    acknowledgements, retransmissions, heartbeats, socket errors, closing, aborts),
    the messages the reader has acted on at any moment continue the agent's stream
    where the channel took over: none skipped, none repeated, none out of order.  The
    reader only ever stops because the session is closed. *)
Theorem inbound_in_order w evs :
  starts w → Forall (event_from_agent agent) evs →
  let x := sys_run timeout (spawn w) evs in
  h_delivered (w_history (s_world x)) `prefix_of` drop base agent
  ∧ (s_task x Reader = Stopped → core_closed (w_core (s_world x)) = true).
Proof.
  intros Hw Hevs x. destruct (inbound_after w evs Hw Hevs) as (Hok & _).
  split; [apply (after_in_order w x Hok)|]. intros Ht. destruct Hok as [κ Hx].
  destruct (Hx Reader) as [(_ & [Hc _] & _) Hs]. fold x in Hs. rewrite Ht in Hs. exact (Hc (proj1 Hs)).
Qed.

(** C4: the reader makes progress.  From any state of an open channel in which it is
    between two events and only plain frames wait to be read, polling it finitely
    often makes it read all of them and come back for more; it needs nothing of the
    other tasks, and nothing they did can hold it up. *)
Theorem reader_drains w evs :
  starts w → Forall (event_from_agent agent) evs → all_readable agent base (cipher (stream w)) →
  let x := sys_run timeout (spawn w) evs in
  s_task x Reader = at_head → core_closed (w_core (s_world x)) = false →
  Forall benign (n_inbox (w_net (s_world x))) →
  ∃ n, let y := sys_run timeout x (replicate n (Poll Reader)) in
    s_task y Reader = at_head ∧ core_closed (w_core (s_world y)) = false
    ∧ h_read (w_history (s_world y)) = arrivals evs.
Proof.
  intros Hw Hevs Ha x Ht Hc Hb. destruct (inbound_after w evs Hw Hevs) as (Hok & Hr & _).
  fold x in Hok, Hr. pose proof (after_settled w x Hok Ht) as Hs.
  destruct (drains agent base agent_seq agent_len (cipher (stream w)) (room w) timeout
    (n_inbox (w_net (s_world x))) x) as (n & Ht' & _ & Hc' & _ & Hread); try done.
  { destruct Hok as [κ Hx]. by destruct (Hx Reader) as [(_ & [_ Hi] & _) _]. }
  exists n. cbv zeta in *.
  assert (Hsame : sys_run timeout x (replicate n (Poll Reader))
                  = Nat.iter n (poll (body timeout) Reader) x).
  { clear. generalize x. induction n as [|n IH]; intros y; [done|].
    rewrite Nat.iter_succ_r. apply IH. }
  rewrite Hsame. split_and!; [done|done|]. rewrite Hread. exact Hr.
Qed.

(** What was put out is the beginning of what the agent sent. *)
Lemma emitted_prefix w x :
  fine_after w x → all_readable agent base (cipher (stream w)) →
  ∃ l, outputs (cipher (stream w)) (drop base agent) = h_emitted (w_history (s_world x)) ++ l.
Proof.
  intros Hok Ha. destruct (after_in_order w x Hok) as [[l Hd] Hpre]. destruct (Hpre Ha) as [_ [l' Hout]].
  cbn in Hd, Hout. exists (l' ++ outputs (cipher (stream w)) l). unfold outputs at 1.
  rewrite Hd, omap_app, app_assoc. f_equal. exact Hout.
Qed.

(** What an output stream was offered: what its reader got, what waits, what it missed. *)
Lemma offered_split w i st got offered :
  streams_ok w → streams (fanout (w_core w)) !! i = Some st →
  h_streams (w_history w) !! i = Some (got, offered) → rx_alive (rx st) = true →
  ∃ lost, offered = got ++ queued (rx st) ++ lost
    ∧ (lagged st = false → core_closed (w_core w) = false → lost = []).
Proof.
  intros (Hinv & Hcl & _) Hst Hh Hrx.
  pose proof (inv_streams _ _ Hinv i st got offered Hst Hh Hrx) as Hok.
  destruct (attached _ _).
  - destruct Hok as (-> & _). exists []. by rewrite app_nil_r.
  - destruct Hok as (_ & lost & -> & Hlag & _). exists lost. split; [done|].
    intros Hf Hc. destruct (Hlag Hf) as [_ Hc']. rewrite Hcl in Hc'. congruence.
Qed.

(** C3: what subscribers see.  At any moment of any run, what the reader of an output
    stream has received and what is queued for it is a contiguous stretch of the
    agent's output, decrypted, from the point where it subscribed; and while the
    session is open, a stream that did not lag reaches up to the last message
    delivered. *)
Theorem subscriber_reads_stream w evs i st got offered :
  starts w → Forall (event_from_agent agent) evs → all_readable agent base (cipher (stream w)) →
  let x := sys_run timeout (spawn w) evs in
  let v := s_world x in
  streams (fanout (w_core v)) !! i = Some st →
  h_streams (w_history v) !! i = Some (got, offered) → rx_alive (rx st) = true →
  ∃ before rest,
    outputs (cipher (stream w)) (drop base agent) = before ++ got ++ queued (rx st) ++ rest
    ∧ (lagged st = false → core_closed (w_core v) = false → s_task x Reader = at_head →
       before ++ got ++ queued (rx st)
       = outputs (cipher (stream w)) (h_delivered (w_history v))).
Proof.
  intros Hw Hevs Ha x v Hst Hh Hrx. destruct (inbound_after w evs Hw Hevs) as (Hok & _ & Hs).
  fold x in Hok, Hs. fold v in Hs.
  destruct (offered_split v i st got offered Hs Hst Hh Hrx) as (lost & -> & Hlost).
  destruct (proj2 (proj2 Hs) i got _ Hh) as (before & after & Hem & Hafter).
  destruct (emitted_prefix w x Hok Ha) as [l Hl]. fold v in Hl.
  exists before, (lost ++ after ++ l). split; [by rewrite Hl, Hem, <- !app_assoc|].
  intros Hf Hc Ht. destruct (after_settled w x Hok Ht) as (_ & Hsh & _).
  destruct (Hsh Ha) as [_ Heq].
  change (h_emitted (w_history v) = outputs (cipher (stream w)) (h_delivered (w_history v))) in Heq.
  rewrite <- Heq, Hem, (Hlost Hf Hc), (Hafter Hc). by rewrite !app_nil_r.
Qed.
End Theorems.

(** A lost acknowledgement is not made up for.  If the writer queue is full when a
    message's turn comes, its acknowledgement is dropped; and once the message has been
    delivered, every retransmission of it is ignored without being acknowledged, in
    whatever state the channel then is. *)
Theorem lost_ack_never_repeated m b w :
  rx_alive (n_writer (w_net w)) = true →
  capacity_of (n_writer (w_net w)) ≤ #(queued (n_writer (w_net w))) →
  (∃ w', run (acknowledge_message m b) w = (Ret (Ok ()), w') ∧ w_net w' = w_net w)
  ∧ ∀ w', sequence_number m < expected (stream w') →
      run (route_stream_data m) w' = (Ret (Ok ()), w').
Proof.
  intros Hrx Hfull. split.
  - unfold acknowledge_message. cbn. destruct (build_ack _ _ _ _); cbn; [|by eexists].
    rewrite try_send_full by done. by eexists.
  - intros w' Hlt. unfold route_stream_data. cbn.
    destruct (Z.compare_spec (sequence_number m) (expected (stream w'))); [lia|done|lia].
Qed.
End Inbound.

(** ** Witnesses *)

Section InboundWitnesses.
#[local] Existing Instance toy_sha.
#[local] Existing Instance toy_uuid.
#[local] Existing Instance toy_gcm.
#[local] Existing Instance toy_base64.
#[local] Existing Instance toy_json.
#[local] Existing Instance toy_ack.
#[local] Existing Instance no_serde.
#[local] Existing Instance toy_platform.

Lemma toy_agent_seq k m : toy_agent_stream !! k = Some m → sequence_number m = Z.of_nat k.
Proof. do 3 (destruct k as [|k]; [by intros [= <-]|]). done. Qed.

Lemma toy_readable : all_readable toy_agent_stream 0 None.
Proof. repeat constructor; by right. Qed.

Lemma toy_starts : starts toy_agent_stream 0 toy_world.
Proof. by split; try (cbn; lia). Qed.

Lemma toy_from_agent : Forall (event_from_agent toy_agent_stream) toy_events.
Proof.
  unfold toy_events, toy_polls. rewrite !Forall_app, !Forall_cons, !Forall_nil.
  split_and!; try (apply Forall_replicate; exact I); try exact I;
    intros m Hm; vm_compute in Hm; injection Hm as <-; vm_compute; repeat constructor.
Qed.

(** The run [toy_events]. *)
Definition toy_run : Sys (World (C := Chan)) Error TaskId := sys_run 100 (spawn toy_world) toy_events.

(** Messages 1, 0 and 0 arrived: the first two of the stream are delivered once. *)
Lemma inbound_exactly_once_witness :
  ∃ e, h_delivered (w_history (s_world toy_run)) = segment toy_agent_stream 0 e ∧ (2 ≤ e)%nat.
Proof.
  destruct (inbound_exactly_once toy_agent_stream 0 toy_agent_seq ltac:(done) 100 toy_world
    toy_events toy_starts toy_from_agent toy_readable) as (e & _ & Hd & _ & _ & He).
  - vm_compute. reflexivity.
  - exists e. split; [exact Hd|]. apply He; [vm_compute; discriminate|cbn; lia|].
    intros j m Hj. do 2 (destruct j as [|j]; [intros [= <-]; vm_compute; repeat constructor|]). lia.
Defined.

Lemma inbound_in_order_witness :
  h_delivered (w_history (s_world toy_run)) `prefix_of` toy_agent_stream
  ∧ length (h_delivered (w_history (s_world toy_run))) = 2%nat.
Proof.
  split; [|vm_compute; reflexivity].
  exact (proj1 (inbound_in_order toy_agent_stream 0 toy_agent_seq ltac:(done) 100 toy_world
    toy_events toy_starts toy_from_agent)).
Defined.

(** Two frames wait when the reader comes back. *)
Definition toy_waiting : list Event :=
  [Arrive (Incoming (Binary (serialize (toy_output 0)))); Arrive (Incoming (Ping []))].

Lemma toy_waiting_ok : Forall (event_from_agent toy_agent_stream) (toy_events ++ toy_waiting).
Proof.
  apply Forall_app. split; [apply toy_from_agent|]. unfold toy_waiting.
  rewrite !Forall_cons, !Forall_nil. split_and!; try done.
  intros m Hm. vm_compute in Hm. injection Hm as <-. vm_compute. repeat constructor.
Qed.

Lemma reader_drains_witness :
  let x := sys_run 100 (spawn toy_world) (toy_events ++ toy_waiting) in
  length (n_inbox (w_net (s_world x))) = 2%nat
  ∧ ∃ n, h_read (w_history (s_world (sys_run 100 x (replicate n (Poll Reader)))))
         = arrivals (toy_events ++ toy_waiting).
Proof.
  intros x. split; [vm_compute; reflexivity|].
  destruct (reader_drains toy_agent_stream 0 toy_agent_seq ltac:(done) 100 toy_world
    (toy_events ++ toy_waiting) toy_starts toy_waiting_ok toy_readable) as (n & _ & _ & Hn).
  - vm_compute. reflexivity.
  - vm_compute. reflexivity.
  - replace (n_inbox _) with [Incoming (Binary (serialize (toy_output 0))); Incoming (Ping [])]
      by (vm_compute; reflexivity).
    rewrite !Forall_cons, Forall_nil. split_and!; try exact I.
    exists (toy_output 0). vm_compute. reflexivity.
  - exists n. exact Hn.
Defined.

(** The subscriber has both chunks waiting. *)
Lemma subscriber_reads_stream_witness :
  ∃ before rest, outputs None toy_agent_stream = before ++ [] ++ [[x61; x00]; [x61; x01]] ++ rest.
Proof.
  destruct (subscriber_reads_stream toy_agent_stream 0 toy_agent_seq ltac:(done) 100 toy_world
    toy_events 0 {| rx := MkChan [[x61; x00]; [x61; x01]] 16 true true; lagged := false |} []
    [[x61; x00]; [x61; x01]] toy_starts toy_from_agent toy_readable)
    as (before & rest & Hb & _); [vm_compute; reflexivity..|].
  exists before, rest. exact Hb.
Defined.
End InboundWitnesses.
