(* ===== verification/Outbound.v ===== *)
(** * What a channel sends (src/connection.rs: [send_payload] and its callers)

    Two tasks send, the command task and the reader with its handshake answers, and
    the mutex around the sequence number is all that orders them.  What a task knows
    is where it is in the critical section ([Mode]); no step of another task
    invalidates that.  It follows, for every interleaving, that messages are numbered
    without gaps and handed to the writer in that order, and that what the command
    task sends is what callers submitted, split into pieces. *)

From S2P Require Import Prelude RustStd Errors Interfaces Coroutine BinaryProtocol Ack Crypto.
From S2P Require Import Channels Handshake Documents Session Connection.

Create HintDb send discriminated.
#[export] Hint Constants Opaque : send.

Section Outbound.
Context {C : Type → Type} `{Mpsc C} `{!MpscOk C}.
Context `{Sha256, UuidDisplay, Aes256Gcm, Base64}.
Context {Value : Type} `{ActionJson Value}.
Context `{Serde AcknowledgeContent, Serde (HandshakeRequest (Value := Value)),
  Serde (HandshakeResponse (Value := Value)), Serde HandshakeComplete,
  Serde EncryptionChallengeRequest, Serde EncryptionChallengeResponse,
  Serde ChannelClosedBody}.
Context `{Platform}.
Implicit Types (w : World (C := C)) (me t : TaskId).

Section Numbering.
(** The next number, the unacknowledged backlog and the cipher the channel starts
    with. *)
Context (s0 : Z) (b0 : list (Z * list byte)) (c0 : option SessionCrypto).

Abbreviation tracked w := (h_tracked (w_history w)).
Abbreviation sent w := (h_sent (w_history w)).
Abbreviation aborted w := (h_aborted (w_history w)).
Abbreviation writer w := (n_writer (w_net w)).
Abbreviation sink w := (n_sink (w_net w)).
Definition wires w : list (list byte) := tk_wire <$> tracked w.

(** The body a message carries: output is encrypted if the session has a cipher, and
    certainly if it had one from the start. *)
Definition sealed (pt : PayloadType) (payload body : list byte) : Prop :=
  match pt with
  | Pt_Output =>
    (c0 = None ∧ body = payload)
    ∨ ∃ c k, encrypt (nonces k) c payload = Ok body ∧ (c0 = None ∨ c0 = Some c)
  | _ => body = payload
  end.
Definition carries (x : Tracked) : Prop :=
  ∃ ms uuid body, sealed (tk_type x) (tk_payload x) body
    ∧ tk_wire x = serialize (ClientMessage_new ms uuid InputStreamData (tk_seq x) (tk_type x) body).

Record out_base w : Prop := {
  ob_next : next_sequence (stream w) = wrap_i 64 (s0 + #(tracked w));
  ob_num k x : tracked w !! k = Some x → tk_seq x = wrap_i 64 (s0 + Z.of_nat k) ∧ carries x;
  ob_backlog : backlog (outgoing (stream w)) `sublist_of`
    b0 ++ ((λ x, (tk_seq x, tk_wire x)) <$> tracked w);
  ob_sent : sent w `sublist_of` wires w;
  ob_cipher : is_Some c0 → cipher (stream w) = c0 }.

(** These frames were handed to the writer, unless it stopped or a sender was
    aborted. *)
Definition sent_ok w (l : list (list byte)) : Prop :=
  sent w `sublist_of` l
  ∧ (aborted w = false → sent w = l ∨ rx_alive (writer w) = false ∧ sent w `prefix_of` l).

Inductive Mode :=
| Out                                (* not in the critical section *)
| Held (n : option Z)                (* holds the mutex, with this number *)
| Owes (wire : list byte)            (* has tracked this frame but not handed it over *)
| Sending | Closing | Gone.          (* the writer: in the sink, or stopped *)

Definition free t w : Prop := w_locked w ≠ Some t ∧ (w_locked w = None → sent_ok w (wires w)).

Definition knows t (k : Mode) w : Prop :=
  out_base w ∧
  match k with
  | Out => free t w
  | Held n =>
    w_locked w = Some t ∧ sent_ok w (wires w)
    ∧ from_option (λ n, next_sequence (stream w) = n) True n
  | Owes wire => w_locked w = Some t ∧ ∃ l, wires w = l ++ [wire] ∧ sent_ok w l
  | Sending =>
    t = Writer ∧ free t w ∧ match sink w with Writing _ | Written _ => True | _ => False end
  | Closing =>
    t = Writer ∧ free t w ∧ match sink w with SinkClosing | SinkClosed => True | _ => False end
  | Gone => free t w ∧ rx_alive (writer w) = false
  end.

(** Why a task of a closed session waits: the writer for the socket, a sender for the
    writer or for another sender, the reader for the key service, which it does outside
    the critical section. *)
Definition sink_busy w : Prop := match sink w with Writing _ | SinkClosing => True | _ => False end.
Definition stuck t (k : Mode) w : Prop :=
  core_closed (w_core w) = true →
  match t with
  | Writer => sink_busy w
  | Reader | Commands =>
    rx_alive (writer w) = true
    ∨ k = Out ∧ ((∃ j, j ≠ t ∧ w_locked w = Some j) ∨ t = Reader ∧ n_kms (w_net w) = 0%nat)
  | Retransmit | Heartbeat => False
  end.
Definition head_of t (k : Mode) : Prop := k = Out.
Definition end_of t (k : Mode) : Prop := k = if decide (t = Writer) then Gone else Out.
Definition crashed t (k : Mode) : Prop := t ≠ Writer ∧ k = Out.

Abbreviation wp t := (wp (E := Error) (knows t) (guarantee knows t) (stuck t) (crashed t)).

(** *** Steps outside the critical section *)

Record still w w' : Prop := {
  sl_next : next_sequence (stream w') = next_sequence (stream w);
  sl_tracked : tracked w' = tracked w;
  sl_sent : sent w' = sent w;
  sl_aborted : aborted w' = aborted w;
  sl_locked : w_locked w' = w_locked w;
  sl_writer : rx_alive (writer w) = false → rx_alive (writer w') = false;
  sl_backlog : backlog (outgoing (stream w')) `sublist_of` backlog (outgoing (stream w));
  sl_cipher : is_Some (cipher (stream w)) → cipher (stream w') = cipher (stream w) }.

Lemma still_base w w' : still w w' → out_base w → out_base w'.
Proof.
  intros [Hn Ht Hs Ha Hl Hw Hb Hc] [H1' H2' H3' H4' H5']. unfold wires in *.
  split; unfold wires; rewrite ?Hn, ?Ht, ?Hs; auto.
  - by etransitivity.
  - intros Hx. rewrite Hc; [auto|]. by rewrite (H5' Hx).
Qed.

Lemma still_sent w w' l : still w w' → sent_ok w l → sent_ok w' l.
Proof.
  intros [Hn Ht Hs Ha Hl Hw Hb Hc] [H1' H2']. unfold sent_ok. rewrite Hs, Ha. split; [done|].
  intros Hab. destruct (H2' Hab) as [?|[? ?]]; [by left|right; auto].
Qed.

Lemma still_wires w w' : still w w' → wires w' = wires w.
Proof. intros Hs. unfold wires. by rewrite (sl_tracked _ _ Hs). Qed.

Lemma still_free t w w' : still w w' → free t w → free t w'.
Proof.
  intros Hs [H1' H2']. unfold free. rewrite (sl_locked _ _ Hs), (still_wires _ _ Hs).
  split; [done|]. intros Hl. by eapply still_sent; [|apply H2'].
Qed.

Lemma still_knows t k w w' :
  still w w' → t ≠ Writer ∨ sink w' = sink w → knows t k w → knows t k w'.
Proof.
  intros Hs Hsink [Hb Hk]. split; [by eapply still_base|].
  assert (Hsk : t = Writer → sink w' = sink w) by (by destruct Hsink).
  destruct k as [|n|wire| | |].
  - by eapply still_free.
  - rewrite (sl_locked _ _ Hs), (still_wires _ _ Hs), (sl_next _ _ Hs).
    destruct Hk as (? & ? & ?). split_and!; auto. by eapply still_sent.
  - rewrite (sl_locked _ _ Hs), (still_wires _ _ Hs). destruct Hk as (? & l & ? & ?).
    split; [done|]. exists l. split; [done|]. by eapply still_sent.
  - destruct Hk as (Ht & ? & ?). rewrite (Hsk Ht). split_and!; auto. by eapply still_free.
  - destruct Hk as (Ht & ? & ?). rewrite (Hsk Ht). split_and!; auto. by eapply still_free.
  - destruct Hk as [? ?]. split; [by eapply still_free|]. by apply (sl_writer _ _ Hs).
Qed.

(** The writer's own steps may change the sink. *)
Lemma still_guarantee t k k' w w' :
  still w w' → t = Writer ∨ sink w' = sink w → knows t k' w' → guarantee knows t k w k' w'.
Proof.
  intros Hs Hsink Hk. split; [done|]. intros j kj Hne. apply still_knows; [done|].
  destruct Hsink as [->|?]; [by left|by right].
Qed.

(** Programs that enter and leave outside the critical section. *)
Definition safe t {A} (p : Prog World Error A) : Prop :=
  ∀ Q, (∀ r, Q r Out) → wp t p Q Out.

Lemma safe_res t {A} (r : Res A) : safe t (res r).
Proof. intros Q HQ. apply HQ. Qed.
Lemma safe_ret t {A} (a : A) : safe t (mret a).
Proof. intros Q HQ. apply HQ. Qed.
Lemma safe_crash t {A} : t ≠ Writer → safe t (Crash (A := A)).
Proof. by intros Hne Q HQ. Qed.
Lemma safe_bind t {A B} (p : Prog World Error A) (g : A → Prog World Error B) :
  safe t p → (∀ a, safe t (g a)) → safe t (p ≫= g).
Proof. intros Hp Hg Q HQ. apply wp_bind, Hp. intros [a|e]; [by apply Hg|apply HQ]. Qed.
Lemma safe_attempt t {A} (p : Prog World Error A) : safe t p → safe t (attempt p).
Proof. intros Hp Q HQ. apply wp_attempt, Hp. intros r. apply HQ. Qed.
Lemma safe_wait t {A} (f : World → option (Res A * World)) :
  (∀ w, match f w with
        | Some (_, w') => still w w' ∧ sink w' = sink w
        | None => knows t Out w → stuck t Out w
        end) → safe t (wait f).
Proof.
  intros Hf Q HQ. apply wp_wait. intros w Hw. specialize (Hf w).
  destruct (f w) as [[r w']|]; [|by apply Hf]. destruct Hf as [Hs Hsk]. exists Out.
  split; [|done]. apply still_guarantee; [done|by right|]. eapply still_knows; eauto.
Qed.
Lemma safe_act t {A} (f : World → A * World) :
  (∀ w, still w (f w).2 ∧ sink (f w).2 = sink w) → safe t (act f).
Proof. intros Hf. apply safe_wait. intros w. specialize (Hf w). by destruct (f w). Qed.

Lemma safe_upd_core t f :
  (∀ k, next_sequence (continuity (C := C) (f k)) = next_sequence (continuity k)
        ∧ outgoing (continuity (f k)) = outgoing (continuity k)
        ∧ (is_Some (cipher (continuity k)) → cipher (continuity (f k)) = cipher (continuity k))) →
  safe t (upd_core f).
Proof.
  intros Hf. apply safe_act. intros w. destruct (Hf (w_core w)) as (Hn & Ho & Hc).
  split; [|done]. split; try done. unfold stream. cbn. by rewrite Ho.
Qed.

Lemma safe_close t r : safe t (close_channel r).
Proof. apply safe_upd_core. intros k. unfold core_close. by destruct (core_closed k). Qed.
Lemma safe_gets t {A} (f : World → A) : safe t (gets f).
Proof. by apply safe_act. Qed.
Lemma safe_draw t : safe t draw.
Proof. by apply safe_act. Qed.

Lemma still_writer w q :
  (rx_alive (writer w) = false → rx_alive q = false) → still w (set_writer w q).
Proof. by split. Qed.

Lemma safe_try_write t m : safe t (try_write m).
Proof.
  apply safe_act. intros w. destruct (try_send m (writer w)) as [[] q] eqn:E; try done.
  split; [|done]. apply still_writer. apply try_send_inv in E. destruct_and?. congruence.
Qed.

(** *** The critical section *)

Lemma try_track_inv me pt p wire w w' :
  try_track me pt p wire w = Some w' →
  tracked w' = tracked w ++ [{| tk_by := me; tk_seq := next_sequence (stream w); tk_type := pt;
                                tk_payload := p; tk_wire := wire |}]
  ∧ next_sequence (stream w') = wrap_i 64 (next_sequence (stream w) + 1)
  ∧ sent w' = sent w ∧ aborted w' = aborted w ∧ w_locked w' = w_locked w
  ∧ w_net w' = w_net w ∧ cipher (stream w') = cipher (stream w)
  ∧ backlog (outgoing (stream w')) = backlog (outgoing (stream w)) ++ [(next_sequence (stream w), wire)].
Proof.
  unfold try_track.
  pose proof (track_backlog (clock (w_draws w)) wire (next_sequence (stream w)) (outgoing (stream w)))
    as Htb.
  destruct (track _ _ _ _) as [[] b] eqn:Et; [|done]. intros [= <-].
  split_and!; try done. cbn in *. rewrite Htb. unfold track in Et.
  assert (Hlen : #(backlog (outgoing (stream w))) = #(pending (outgoing (stream w))))
    by (unfold backlog, len; by rewrite length_map).
  rewrite Hlen. destruct (_ <=? _); [done|]. done.
Qed.

(** Another task's knowledge while [me] holds the mutex. *)
Lemma others_free j k me w : j ≠ me → w_locked w = Some me → knows j k w →
  free j w ∧ match k with Held _ | Owes _ => False | _ => True end.
Proof.
  intros Hne Hl [_ Hk]. destruct k; destruct_and?; split; auto; congruence.
Qed.

(** A step of the holder of the mutex: the others know as much as before. *)
Lemma holder_guarantee me k k' w w' :
  w_locked w = Some me → (w_locked w' = None → sent_ok w' (wires w')) →
  w_locked w' = Some me ∨ w_locked w' = None →
  (rx_alive (writer w) = false → rx_alive (writer w') = false) → sink w' = sink w →
  knows me k' w' → guarantee knows me k w k' w'.
Proof.
  intros Hl Hs Hl' Hrx Hsk Hk'. split; [done|]. intros j kj Hne Hj.
  destruct (others_free j kj me w Hne Hl Hj) as [Hf Hkj]. destruct Hj as [_ Hj].
  assert (Hf' : free j w').
  { split; [|done]. destruct Hl' as [->| ->]; [by injection|done]. }
  split; [apply Hk'|]. destruct kj; try done; rewrite ?Hsk; naive_solver.
Qed.

(** Tracking the message in the guard's turn. *)
Lemma track_knows me pt p wire body ms uuid n w w' :
  knows me (Held (Some n)) w → sealed pt p body →
  wire = serialize (ClientMessage_new ms uuid InputStreamData n pt body) →
  try_track me pt p wire w = Some w' →
  guarantee knows me (Held (Some n)) w (Owes wire) w'.
Proof.
  intros ([Hn Hnum Hb Hsub Hc] & Hl & Hs & Hseq) Hseal Hwire Ht. cbn in Hseq.
  apply try_track_inv in Ht as (Ht & Hn' & Hs' & Ha' & Hl' & Hnet & Hc' & Hb').
  apply holder_guarantee; [done| |by rewrite Hl'; left|by rewrite Hnet|by rewrite Hnet|].
  { rewrite Hl', Hl. done. }
  split; [split|].
  - rewrite Hn', Ht, Hn, wrap_i_succ, len_app, len_cons, len_nil. f_equal. lia.
  - rewrite Ht. intros k x Hk. apply lookup_app_Some in Hk as [Hk|[Hge Hk]]; [by apply Hnum|].
    apply list_lookup_singleton_Some in Hk as [Hk <-]. cbn.
    assert (Z.of_nat k = #(tracked w)) as -> by (unfold len; lia). split; [exact Hn|].
    exists ms, uuid, body. cbn. by rewrite Hseq.
  - rewrite Hb', Ht, fmap_app, app_assoc. by apply sublist_app.
  - unfold wires. rewrite Hs', Ht, fmap_app. by apply sublist_inserts_r.
  - by rewrite Hc'.
  - split; [by rewrite Hl'|]. exists (wires w). unfold wires. rewrite Ht, fmap_app.
    split; [done|]. unfold sent_ok in *. by rewrite Hs', Ha', Hnet.
Qed.

Lemma holder_same me k k' w :
  w_locked w = Some me → knows me k' w → guarantee knows me k w k' w.
Proof. by split. Qed.

(** Handing it over, or finding that the writer is gone. *)
Lemma wp_hand_over me wire Q :
  (∀ r, Q r (Held None)) → (me = Reader ∨ me = Commands) →
  wp me (write (λ w, add_sent w wire) (Binary wire)) Q (Owes wire).
Proof.
  intros HQ Hme. apply wp_wait. intros w Hw. pose proof Hw as (Hb & Hl & l & Hwl & Hs1 & Hs2).
  destruct (try_send (Binary wire) (writer w)) as [[] q] eqn:E; apply try_send_inv in E.
  - exists (Held None). split; [|apply HQ]. destruct E as (Hrx & _ & Hrx' & _).
    apply holder_guarantee; try done; [by cbn; rewrite Hl|by left|by cbn; rewrite Hrx|].
    assert (Hsub : sent (add_sent (set_writer w q) wire) `sublist_of` wires w)
      by (rewrite Hwl; by apply sublist_app).
    split; [by destruct Hb|]. split_and!; [done| |done].
    change (wires (add_sent (set_writer w q) wire)) with (wires w). split; [done|]. rewrite Hwl.
    intros Ha. left. cbn. destruct (Hs2 Ha) as [->|[? _]]; [done|congruence].
  - intros _. destruct Hme as [->| ->]; left; apply E.
  - destruct E as [Hrx _]. exists (Held None). split; [|apply HQ]. apply holder_same; [done|].
    split; [done|]. split_and!; [done| |done]. rewrite Hwl. split.
    + by apply sublist_inserts_r.
    + intros Ha. right. split; [done|]. destruct (Hs2 Ha) as [->|[_ ?]]; by apply prefix_app_r.
Qed.

Lemma wp_send_locked me pt p body n Q :
  (me = Reader ∨ me = Commands) → sealed pt p body →
  (∀ r, Q r (Held None)) → (∀ r, Q r (Held (Some n))) →
  wp me (send_locked me pt p body n) Q (Held (Some n)).
Proof.
  intros Hme Hseal HQ HQn. unfold send_locked. apply wp_bind, wp_act. intros w Hw.
  exists (Held (Some n)). split.
  { apply still_guarantee; [done|by right|]. by eapply still_knows, Hw; [|right]. }
  cbn [fst]. set (wire := serialize _). apply wp_bind, wp_bind, wp_act. intros w1 Hw1.
  destruct (try_track me pt p wire w1) as [w2|] eqn:Et; cbn [fst snd].
  { exists (Owes wire). split; [by eapply track_knows|]. by apply wp_hand_over. }
  exists (Held (Some n)). split; [by apply holder_same; [apply Hw1|]|].
  apply wp_wait. intros w3 Hw3. destruct (core_closed (w_core w3)) eqn:Ecl.
  { exists (Held (Some n)). split; [by apply holder_same; [apply Hw3|]|]. apply HQn. }
  destruct (try_track me pt p wire w3) as [w4|] eqn:Et3; [|by intros ?; congruence].
  exists (Owes wire). split; [by eapply track_knows|]. by apply wp_hand_over.
Qed.

Lemma safe_send me pt p : me = Reader ∨ me = Commands → safe me (send_payload me pt p).
Proof.
  intros Hme Q HQ. unfold send_payload. apply wp_bind, wp_gets. intros w Hw. exists Out.
  split; [by split|]. set (cr := core_crypto (w_core w)).
  assert (Hcr : is_Some c0 → cr = c0) by (destruct Hw as [Hb _]; apply (ob_cipher _ Hb)).
  clearbody cr. clear w Hw.
  (* the body, sealed under the cipher found *)
  assert (Hbody : ∀ P, (∀ body, sealed pt p body → P (Ok body) Out) → (∀ e, P (Err e) Out) →
    wp me (match pt, cr with
           | Pt_Output, Some c => n ← draw; res (encrypt (nonces n) c p)
           | _, _ => mret p
           end) P Out).
  { intros P HP HPe. destruct pt; try (by apply HP). destruct cr as [c|].
    - apply wp_bind, wp_act. intros w Hw. exists Out. split.
      { apply still_guarantee; [done|by right|]. by eapply still_knows, Hw; [|right]. }
      destruct (encrypt (nonces (w_draws w)) c p) as [body|e] eqn:Ee;
        change (Coroutine.wp _ _ _ _ (res ?r) ?P' ?k) with (P' r k); cbn [fst];
        rewrite Ee; [|apply HPe]. apply HP. right. exists c, (w_draws w). split; [done|].
      destruct c0; [right|by left]. symmetry. by apply Hcr.
    - apply HP. left. split; [|done]. destruct c0; [|done]. by specialize (Hcr ltac:(done)). }
  apply wp_bind, Hbody; [|intros e; apply HQ]. intros body Hseal.
  apply wp_bind, wp_wait. intros w Hw. pose proof Hw as [Hb [Hl Hs]].
  destruct (w_locked w) as [j|] eqn:Elk.
  { intros _. destruct Hme as [->| ->]; right; (split; [done|]); left; exists j; split; congruence. }
  exists (Held (Some (next_sequence (stream w)))). split.
  { assert (Hb' : out_base (set_locked w (Some me))) by (by destruct Hb).
    split; [split; [done|]; by split_and!; auto|].
    intros j kj Hne [_ Hj]. split; [done|].
    assert (Hf' : free j (set_locked w (Some me))) by (split; [by cbn; injection|done]).
    destruct kj; try done; naive_solver. }
  set (n := next_sequence (stream w)). clearbody n. clear w Hw Hb Hl Hs Elk.
  assert (Hend : ∀ r m, wp me (_ ← unlock_sequence; res r) Q (Held m)).
  { intros r m. apply wp_bind, wp_modify. intros w (Hb & Hl & Hs & _). exists Out.
    assert (Hk : knows me Out (set_locked w None)).
    { split; [by destruct Hb|]. by split. }
    split; [|apply HQ]. apply holder_guarantee; try done. by right. }
  apply wp_bind, wp_attempt, wp_send_locked; [done|done|..]; intros r; apply Hend.
Qed.

(** *** The tasks *)

(** Split a program into its steps; what is left is a fact about each. *)
Ltac safely :=
  repeat first
    [ solve [eauto with send]
    | apply safe_bind; [|intros ?]
    | apply safe_attempt
    | apply safe_ret
    | apply safe_res
    | apply safe_crash; done
    | match goal with
      | |- safe _ (match ?x with _ => _ end) => destruct x
      | |- safe _ (let '(_, _) := ?x in _) => destruct x
      end ].

#[local] Hint Resolve safe_close safe_gets safe_draw safe_try_write : send.
Lemma safe_send_reader pt p : safe Reader (send_payload Reader pt p).
Proof. apply safe_send. by left. Qed.
Lemma safe_send_commands pt p : safe Commands (send_payload Commands pt p).
Proof. apply safe_send. by right. Qed.
#[local] Hint Resolve safe_send_reader safe_send_commands : send.

Lemma safe_kms n : safe Reader (kms_answers n).
Proof.
  induction n as [|n IH]; [apply safe_ret|]. cbn [kms_answers]. apply safe_bind; [|by intros []].
  apply safe_wait. intros w. destruct (n_kms (w_net w)) eqn:E; [|by split].
  intros _ _. right. split; [done|by right].
Qed.

Lemma safe_deliver m : safe Reader (deliver m).
Proof.
  unfold deliver, deliver_output, deliver_handshake_request, deliver_handshake_complete,
    deliver_challenge, deliver_exit_code, deliver_flag, parse_payload, decrypt_if_needed,
    close_by_agent, emit.
  safely; try (by apply safe_upd_core); try (by apply safe_act).
  - apply safe_kms.
  - apply safe_act. intros w. by destruct (on_request _ _ _).
  - apply safe_upd_core. intros k. split_and!; try done. cbn. intros [c ->]. done.
  - apply safe_act. intros w. by destruct (on_complete _ _).
  - apply safe_upd_core. intros k. by destruct (ok (from_utf8 _) ≫= _).
Qed.
#[local] Hint Resolve safe_deliver : send.

Lemma safe_drain fuel : ∀ next, safe Reader (drain fuel next).
Proof.
  induction fuel as [|fuel IH]; intros next; cbn [drain]; safely; by apply safe_act.
Qed.

Lemma safe_acknowledge m b : safe Reader (acknowledge_message m b).
Proof. unfold acknowledge_message. safely. Qed.
#[local] Hint Resolve safe_drain safe_acknowledge : send.

Lemma safe_retire seq : safe Reader (retire_outgoing seq).
Proof.
  intros Q HQ w Hw. cbn.
  destruct (Ack.acknowledge _ _ _) as [[f b]|] eqn:Ea; exists Out; [|by split; [split|]].
  assert (Hb : backlog b `sublist_of` backlog (outgoing (stream w))).
  { revert Ea. unfold Ack.acknowledge. destruct (list_find _ _) as [[i p]|]; [|by intros [= _ <-]].
    assert (Hsub : ∀ r c a, backlog {| pending := delete i (pending (outgoing (stream w)));
              rtt := r; capacity := c; max_attempts := a |}
            `sublist_of` backlog (outgoing (stream w))).
    { intros r c a. unfold backlog; cbn [pending]. apply fmap_sublist, sublist_delete. }
    destruct (attempts p =? 1); cbn [mbind Outcome_bind].
    - destruct (record _ _); [|done]. cbn. intros [= _ <-]. apply Hsub.
    - intros [= _ <-]. apply Hsub. }
  split; [|apply HQ]. set (w' := set_stream _ _).
  assert (Hs : still w w') by (by split).
  apply still_guarantee; [done|by right|]. eapply still_knows; eauto.
Qed.
#[local] Hint Resolve safe_retire : send.

Lemma safe_reader : safe Reader reader_task.
Proof.
  unfold reader_task, read_event, route, route_stream_data, route_ack, handle_text, close_by_agent.
  safely; try (by apply safe_act); try (by apply safe_upd_core).
  - apply safe_wait. intros w. destruct (core_closed (w_core w)) eqn:Ec; [done|].
    destruct (n_inbox (w_net w)); [|done]. intros _ Hc. congruence.
  - apply safe_act. intros w. cbv zeta. by destruct (incoming_insert _ _).
Qed.

Lemma safe_command : safe Commands command_task.
Proof.
  assert (Hstop : safe Commands stop_commands).
  { unfold stop_commands. safely. by apply safe_act. }
  assert (Hchunks : ∀ fuel n data, safe Commands (send_chunks fuel n data)).
  { induction fuel as [|fuel IH]; intros n [|b data]; cbn [send_chunks]; safely. }
  unfold command_task, run_command, send_stream_data, is_closed. safely.
  - apply safe_wait. intros w. destruct (core_closed (w_core w)) eqn:Ec; [done|].
    destruct (poll_recv _) as [[] q]; try done. intros _ Hc. congruence.
  - apply safe_wait. intros w. destruct (core_closed (w_core w)) eqn:Ec; [done|].
    destruct (wait_sendable _); [done|]. intros _ Hc. congruence.
Qed.

Lemma safe_tick t due clear :
  (∀ w, still w (clear w) ∧ sink (clear w) = sink w) → safe t (next_tick due clear).
Proof.
  intros Hc. apply safe_wait. intros w. destruct (core_closed (w_core w)) eqn:Ec; [done|].
  destruct (due _); [apply Hc|]. intros _ Hcl. congruence.
Qed.

Lemma safe_retransmit : safe Retransmit retransmit_task.
Proof.
  unfold retransmit_task. safely; [by apply safe_tick| |].
  - apply safe_act. intros w. cbv zeta.
    destruct (poll_retransmit _ _ _) as [action b] eqn:Ep. split; [|done]. split; try done. cbn.
    revert Ep. unfold poll_retransmit.
    destruct (pending (outgoing (stream w))) as [|p ps] eqn:Epend; [by intros [= _ <-]|].
    destruct (_ <=? _); [by intros [= _ <-]|]. destruct (_ <=? _); intros [= _ <-]; [done|].
    unfold backlog; cbn. by rewrite Epend.
  - apply safe_wait. intros w. destruct (core_closed (w_core w)) eqn:Ec; [done|].
    destruct (try_send _ (writer w)) as [[] q] eqn:E; [|intros _ Hcl; congruence|done].
    split; [|done]. apply still_writer. apply try_send_inv in E. destruct_and?. congruence.
Qed.

Lemma safe_heartbeat timeout : safe Heartbeat (heartbeat_task timeout).
Proof. unfold heartbeat_task, idle_for. safely; [by apply safe_tick|by apply safe_act]. Qed.

(** A step of the writer, from what it knows to what it knows next. *)
Lemma writer_moves k k' w w' :
  still w w' → knows Writer k w →
  (free Writer w' → match k' with
                    | Out => True
                    | Sending => match sink w' with Writing _ | Written _ => True | _ => False end
                    | Closing => match sink w' with SinkClosing | SinkClosed => True | _ => False end
                    | Gone => rx_alive (writer w') = false
                    | _ => False
                    end) →
  match k with Held _ | Owes _ => False | _ => True end →
  guarantee knows Writer k w k' w'.
Proof.
  intros Hs [Hb Hk] Hk' Hm. apply still_guarantee; [done|by left|].
  assert (Hf : free Writer w) by (destruct k; naive_solver).
  pose proof (still_free _ _ _ Hs Hf) as Hf'. specialize (Hk' Hf').
  split; [by eapply still_base|]. by destruct k'.
Qed.

Abbreviation writer_ends := (λ (r : Res bool) (k : Mode),
  match r with Ok true => head_of Writer k | _ => end_of Writer k end).

Lemma wp_stop_writer : wp Writer stop_writer writer_ends Out.
Proof.
  unfold stop_writer, sink_close. apply wp_bind, wp_bind, wp_modify. intros w Hw. exists Closing.
  split; [by apply writer_moves; [|exact Hw|..]|].
  apply wp_wait. intros w1 Hw1. destruct (sink w1) eqn:Es;
    try (exfalso; destruct Hw1 as (_ & _ & _ & Hsk); by rewrite Es in Hsk).
  { intros _. unfold sink_busy. by rewrite Es. }
  exists Closing. split; [by split|]. apply wp_bind, wp_modify. intros w2 Hw2. exists Gone.
  split; [|done]. apply writer_moves; [|exact Hw2| |done].
  - apply still_writer. intros _. apply drop_rx_spec.
  - intros _. apply drop_rx_spec.
Qed.

Lemma writer_fine : wp Writer writer_task writer_ends Out.
Proof.
  unfold writer_task. apply wp_bind, wp_wait. intros w Hw.
  destruct (core_closed (w_core w)) eqn:Ec.
  { exists Out. split; [by split|apply wp_stop_writer]. }
  destruct (poll_recv (writer w)) as [x q] eqn:Ep. apply poll_recv_inv in Ep.
  assert (Hst : rx_alive q = rx_alive (writer w) → still w (set_writer w q)).
  { intros Hq. apply still_writer. congruence. }
  destruct x as [m| |]; [| |by intros Hc; congruence]; exists Out.
  2: { split; [|apply wp_stop_writer]. apply writer_moves; [|exact Hw|done|done].
       apply Hst. destruct_and?. congruence. }
  split; [apply writer_moves; [apply Hst; destruct_and?; congruence|exact Hw|done|done]|].
  clear w Hw Ec q Ep Hst. unfold sink_send. apply wp_bind, wp_bind, wp_modify. intros w Hw.
  exists Sending. split; [by apply writer_moves; [|exact Hw|..]|].
  apply wp_wait. intros w1 Hw1. destruct (sink w1) as [|m'|e| |] eqn:Es;
    try (exfalso; destruct Hw1 as (_ & _ & _ & Hsk); by rewrite Es in Hsk).
  { intros _. unfold sink_busy. by rewrite Es. }
  exists Out. split; [by apply writer_moves; [|exact Hw1|..]|]. destruct e as [e|]; [|done].
  apply wp_bind, wp_gets. intros w2 Hw2. exists Out. split; [by split|]. apply wp_bind.
  destruct (core_closed (w_core w2)); [apply wp_stop_writer|]. apply wp_modify. intros w3 Hw3.
  exists Out. split; [|apply wp_stop_writer]. apply writer_moves; [|exact Hw3|done|done].
  split; try done; unfold stream; cbn; unfold core_close; by destruct (core_closed (w_core w3)).
Qed.

Context (timeout : Duration).
Abbreviation fine := (body_fine (body timeout) knows stuck crashed head_of end_of end_of).
Abbreviation ok := (sys_ok (E := Error) knows stuck crashed head_of end_of end_of).

Lemma safe_fine t : t ≠ Writer → safe t (body timeout t) → fine t.
Proof.
  intros Hne Hs k ->. apply Hs. unfold end_of. rewrite decide_False by done. by intros [[]|e].
Qed.

Lemma outbound_fine t : fine t.
Proof.
  destruct t; [by intros k ->; apply writer_fine|..]; apply safe_fine; try done;
    [apply safe_reader|apply safe_command|apply safe_retransmit|apply safe_heartbeat].
Qed.

(** *** The outside *)

Lemma still_outside ev w :
  still w (outside ev w)
  ∧ (∀ k, knows Writer k w → knows Writer k (outside ev w)).
Proof.
  assert (Hst : ∀ w', still w w' → sink w' = sink w →
    still w w' ∧ ∀ k, knows Writer k w → knows Writer k w').
  { intros w' Hs Hk. split; [done|]. intros k. apply still_knows; auto. }
  destruct ev; cbn [outside]; try (by apply Hst).
  - unfold sink_done. destruct (sink w) as [|m|e'| |] eqn:Es; try (by apply Hst).
    + assert (Hs : still w (set_sink (match e with None => add_wire w m | Some _ => w end) (Written e)))
        by (by destruct e).
      split; [done|]. intros k [Hb Hk].
      split; [by eapply still_base|]. rewrite Es in Hk.
      destruct k; try done; destruct_and?; try (by eapply still_free); destruct e; naive_solver.
    + assert (Hs : still w (set_sink w SinkClosed)) by done. split; [done|]. intros k [Hb Hk].
      split; [by eapply still_base|]. rewrite Es in Hk.
      destruct k; try done; destruct_and?; try (by eapply still_free); naive_solver.
  - unfold submit. destruct (dispatch _ _) as [[[]|] s]; by apply Hst.
  - apply Hst; [|done].
    split; try done; unfold stream; cbn; unfold core_close; by destruct (core_closed (w_core w)).
  - apply Hst; [|done]. unfold fan_op. rewrite core_subscribe_fanout. done.
Qed.

(** What the others know survives an abort, and the task aborted leaves the mutex. *)
Lemma release_base t w : out_base w → out_base (set_aborted (release t w)).
Proof. intros []. unfold release. destruct (decide _), t; by split. Qed.

Lemma release_knows t j k w :
  j ≠ t → knows j k w → knows j k (set_aborted (release t w)).
Proof.
  intros Hne [Hb Hk]. pose proof (release_base t w Hb) as Hb'. split; [done|].
  set (w' := set_aborted (release t w)) in *.
  assert (Hw' : wires w' = wires w ∧ sent w' = sent w ∧ aborted w' = true
    ∧ next_sequence (stream w') = next_sequence (stream w) ∧ sink w' = sink w
    ∧ (w_locked w = Some j → w_locked w' = Some j) ∧ (w_locked w ≠ Some j → w_locked w' ≠ Some j)
    ∧ (rx_alive (writer w) = false → rx_alive (writer w') = false)).
  { unfold w', release. destruct (decide (w_locked w = Some t)) as [Hl|Hl], t;
      split_and!; try done; cbn; try congruence; intros _; apply drop_rx_spec. }
  clearbody w'. destruct Hw' as (Hwi & Hse & Hab & Hnx & Hsk & Hl1 & Hl2 & Hrx).
  assert (Hso : ∀ l, sent w `sublist_of` l → sent_ok w' l).
  { intros l Hl. split; [by rewrite Hse|]. by rewrite Hab. }
  assert (Hf : free j w → free j w').
  { intros [Hl _]. split; [auto|]. intros _. apply Hso. rewrite Hwi. apply Hb. }
  destruct k; rewrite ?Hsk.
  - auto.
  - destruct Hk as (? & [? _] & ?). rewrite Hwi, Hnx. auto.
  - destruct Hk as (? & l & ? & [? _]). rewrite Hwi. split; [auto|]. exists l. auto.
  - naive_solver.
  - naive_solver.
  - naive_solver.
Qed.

Lemma release_free t w :
  out_base w → ∃ k, knows t k (set_aborted (release t w)) ∧ end_of t k.
Proof.
  intros Hb. pose proof (release_base t w Hb) as Hb'. eexists. split; [|reflexivity].
  assert (Hf : free t (set_aborted (release t w))).
  { split.
    - unfold release. destruct (decide (w_locked w = Some t)), t; done.
    - intros _. split; [apply Hb'|]. unfold release. by destruct (decide _), t. }
  split; [done|]. case_decide as Ht; [|done]. split; [done|]. subst. unfold release.
  destruct (decide _); apply drop_rx_spec.
Qed.

Lemma out_step ev x : ok x → ok (sys_step timeout x ev).
Proof.
  intros Hx. destruct (still_outside ev (s_world x)) as [Hs Hw].
  assert (Hout : ok {| s_world := outside ev (s_world x); s_task := s_task x |}).
  { apply outside_sys; [|done]. intros j k Hk. destruct (decide (j = Writer)) as [->|Hne]; [auto|].
    eapply still_knows; eauto. }
  destruct ev as [t|e|e| | | |c|r| |i|i| |t]; cbn [sys_step]; try exact Hout.
  - apply poll_sys; [apply outbound_fine|done].
  - destruct (finished _); [done|]. apply abort_sys; [| |done].
    + intros k [Hb _]. by apply release_free.
    + intros j k Hne. by apply release_knows.
Qed.

Lemma out_run evs : ∀ x, ok x → ok (sys_run timeout x evs).
Proof.
  induction evs as [|ev evs IH]; intros x Hx; [done|]. cbn [sys_run foldl]. by apply IH, out_step.
Qed.

Lemma spawn_out w :
  in_i 64 s0 = true → next_sequence (stream w) = s0 → backlog (outgoing (stream w)) = b0 →
  cipher (stream w) = c0 → w_history w = no_history → w_locked w = None → ok (spawn w).
Proof.
  intros Hs0 Hn Hb Hc Hh Hl. exists (λ _, Out). intros t. split; [|done].
  change (s_world (spawn w)) with w. split; [split|split]; unfold wires; rewrite ?Hh, ?Hn, ?Hb; cbn [h_tracked h_sent h_aborted no_history]; try done.
  - rewrite len_nil, Z.add_0_r, wrap_i_small; [done|done|]. unfold in_i in Hs0. bool_lia.
  - by rewrite app_nil_r.
  - by rewrite Hl.
  - intros _. unfold sent_ok. rewrite Hh. cbn. split; [done|]. intros _. by left.
Qed.

Lemma out_prefix x :
  ok x → aborted (s_world x) = false → sent (s_world x) `prefix_of` wires (s_world x).
Proof.
  intros [κ Hx] Ha.
  assert (Hpre : ∀ l, sent_ok (s_world x) l → sent (s_world x) `prefix_of` l).
  { intros l [_ Hl]. destruct (Hl Ha) as [->|[_ ?]]; done. }
  destruct (w_locked (s_world x)) as [j|] eqn:El.
  - destruct (Hx j) as [[_ Hk] _]. destruct (κ j); unfold free in Hk; try naive_solver.
    destruct Hk as (_ & l & -> & Hl). by apply prefix_app_r, Hpre.
  - destruct (Hx Heartbeat) as [[_ Hk] _]. destruct (κ Heartbeat); unfold free in Hk; naive_solver.
Qed.
End Numbering.

(** C5: outbound numbering.  Over any run of a channel (commands and the reader's
    answers competing for the sequence mutex, senders that wait, retransmissions,
    acknowledgements, errors, aborts) the messages tracked carry consecutive sequence
    numbers from the one the channel started with, each its own number on the wire;
    they are handed to the writer in that order, none left out before the last unless
    a task was aborted; and what is kept for retransmission is, in order, among the
    inherited backlog and these messages.  Output of a session that has a cipher when
    the channel starts is never sent in the clear. *)
Theorem outbound_gapless timeout w evs :
  in_i 64 (next_sequence (stream w)) = true → w_history w = no_history → w_locked w = None →
  let s0 := next_sequence (stream w) in
  let v := s_world (sys_run timeout (spawn w) evs) in
  let h := w_history v in
  (∀ k x, h_tracked h !! k = Some x →
     tk_seq x = wrap_i 64 (s0 + Z.of_nat k) ∧ carries (cipher (stream w)) x)
  ∧ next_sequence (stream v) = wrap_i 64 (s0 + #(h_tracked h))
  ∧ h_sent h `sublist_of` (tk_wire <$> h_tracked h)
  ∧ (h_aborted h = false → h_sent h `prefix_of` (tk_wire <$> h_tracked h))
  ∧ backlog (outgoing (stream v)) `sublist_of`
      backlog (outgoing (stream w)) ++ ((λ x, (tk_seq x, tk_wire x)) <$> h_tracked h).
Proof.
  intros Hs Hh Hl s0 v h.
  pose proof (out_run s0 (backlog (outgoing (stream w))) (cipher (stream w)) timeout evs (spawn w))
    as Hok.
  specialize (Hok ltac:(by apply spawn_out)). pose proof (out_prefix _ _ _ _ Hok) as Hp.
  destruct Hok as [κ Hx]. destruct (Hx Reader) as [[[] _] _]. by split_and!.
Qed.
End Outbound.

(** ** Witnesses *)

Section OutboundWitnesses.
#[local] Existing Instance toy_sha.
#[local] Existing Instance toy_uuid.
#[local] Existing Instance toy_gcm.
#[local] Existing Instance toy_base64.
#[local] Existing Instance toy_json.
#[local] Existing Instance toy_ack.
#[local] Existing Instance no_serde.
#[local] Existing Instance toy_platform.

(** Two pieces are numbered 0 and 1 and handed over. *)
Lemma outbound_gapless_witness :
  let h := w_history (s_world (sys_run 100 (spawn toy_world) toy_events)) in
  tk_seq <$> h_tracked h = [0; 1] ∧ length (h_sent h) = 2%nat
  ∧ h_sent h `prefix_of` (tk_wire <$> h_tracked h).
Proof.
  split; [vm_compute; reflexivity|]. split; [vm_compute; reflexivity|].
  destruct (outbound_gapless 100 toy_world toy_events) as (_ & _ & _ & Hp & _); [reflexivity..|].
  apply Hp. vm_compute. reflexivity.
Defined.
End OutboundWitnesses.
