(* ===== verification/Commands.v ===== *)
(** * What callers submit (src/session.rs: [dispatch]; src/connection.rs: [command_task])

    The abstract specification of sending: callers' commands form a queue, and a
    command stands for the messages it is split into.  The command task implements it
    in every interleaving: the messages it has had numbered are those of the commands
    accepted, in order, up to a point. *)

From S2P Require Import Prelude RustStd Errors Interfaces Coroutine BinaryProtocol Ack Crypto.
From S2P Require Import Channels Handshake Documents Session Connection.

(** ** The specification *)

(** Pieces of [n] bytes, the last one possibly shorter. *)
Fixpoint chunks_of (fuel n : nat) (data : list byte) : list (list byte) :=
  match data, fuel with
  | [], _ | _, O => []
  | _, S fuel => take n data :: chunks_of fuel n (drop n data)
  end.

Lemma chunks_of_spec fuel n : ∀ data,
  (0 < n)%nat → (length data ≤ fuel)%nat →
  concat (chunks_of fuel n data) = data
  ∧ Forall (λ b, 0 < #b ≤ Z.of_nat n) (chunks_of fuel n data).
Proof.
  induction fuel as [|fuel IH]; intros data Hn Hl.
  - destruct data; cbn in *; [by split|lia].
  - destruct data as [|b data]; [by split|]. cbn [chunks_of concat].
    destruct (IH (drop n (b :: data)) Hn) as [Hc Hf].
    { rewrite length_drop. cbn [length] in *. lia. }
    rewrite Hc, take_drop. split; [done|]. constructor; [|done].
    rewrite len_take, len_cons. pose proof (len_nonneg data). lia.
Qed.

(** The messages a command stands for. *)
Definition messages_of (n : nat) (c : Command) : list (PayloadType * list byte) :=
  match c with
  | Data data => pair Pt_Output <$> chunks_of (length data) n data
  | Control pt data => [(pt, data)]
  end.
Definition meaning (n : nat) (cs : list Command) : list (PayloadType * list byte) :=
  concat (messages_of n <$> cs).

Lemma meaning_snoc n cs c : meaning n (cs ++ [c]) = meaning n cs ++ messages_of n c.
Proof. unfold meaning. rewrite fmap_app, concat_app. cbn. by rewrite app_nil_r. Qed.

Section Commands.
Context {C : Type → Type} `{Mpsc C} `{!MpscOk C}.
Context `{Sha256, UuidDisplay, Aes256Gcm, Base64}.
Context {Value : Type} `{ActionJson Value}.
Context `{Serde AcknowledgeContent, Serde (HandshakeRequest (Value := Value)),
  Serde (HandshakeResponse (Value := Value)), Serde HandshakeComplete,
  Serde EncryptionChallengeRequest, Serde EncryptionChallengeResponse,
  Serde ChannelClosedBody}.
Context `{Platform}.
Implicit Types (w : World (C := C)) (t : TaskId).

(** What the command task has had numbered. *)
Definition mine (x : Tracked) : option (PayloadType * list byte) :=
  if decide (tk_by x = Commands) then Some (tk_type x, tk_payload x) else None.
Definition by_commands w : list (PayloadType * list byte) := omap mine (h_tracked (w_history w)).
Abbreviation taken w := (h_taken (w_history w)).
Abbreviation accepted w := (h_accepted (w_history w)).
Abbreviation queue w := (n_commands (w_net w)).

(** Commands are taken in the order they were accepted. *)
Definition fifo w : Prop :=
  taken w `prefix_of` accepted w
  ∧ (rx_alive (queue w) = true → taken w ++ queued (queue w) = accepted w).

(** Steps that are not the command task's business. *)
Definition apart w w' : Prop :=
  by_commands w' = by_commands w ∧ taken w' = taken w ∧ accepted w' = accepted w
  ∧ w_chunk_size w' = w_chunk_size w ∧ queue w' = queue w.

Lemma apart_fifo w w' : apart w w' → fifo w → fifo w'.
Proof. intros (_ & Ht & Ha & _ & Hq). unfold fifo. by rewrite Ht, Ha, Hq. Qed.

Lemma apart_upd_core f : keeps False apart (upd_core f).
Proof. by apply keeps_act. Qed.
Lemma apart_draw : keeps False apart draw.
Proof. by apply keeps_act. Qed.
Lemma apart_gets {A} (f : World → A) : keeps (E := Error) False apart (gets f).
Proof. by apply keeps_act. Qed.
Lemma apart_try_write m : keeps False apart (try_write m).
Proof. apply keeps_act. intros w. by destruct (try_send _ _) as [[] q]. Qed.
Lemma apart_close r : keeps False apart (close_channel r).
Proof. by apply keeps_act. Qed.
Lemma apart_write wire m : keeps True apart (write (λ w, add_sent w wire) m).
Proof. apply keeps_wait. intros w. by destruct (try_send _ _) as [[] q]. Qed.
Lemma keeps_apart {A} (p : Prog World Error A) : keeps False apart p → keeps True apart p.
Proof. by apply keeps_mono. Qed.
#[local] Hint Resolve apart_upd_core apart_draw apart_gets apart_try_write apart_close apart_write
  keeps_apart : io.

Lemma try_track_mine me pt p wire w w' :
  try_track me pt p wire w = Some w' →
  taken w' = taken w ∧ accepted w' = accepted w ∧ w_chunk_size w' = w_chunk_size w
  ∧ queue w' = queue w
  ∧ by_commands w' = by_commands w ++ (if decide (me = Commands) then [(pt, p)] else []).
Proof.
  unfold try_track. destruct (track _ _ _ _) as [[] b]; [|done]. intros [= <-].
  split_and!; try done. unfold by_commands. cbn [h_tracked w_history add_tracked set_history].
  rewrite omap_app. f_equal. unfold mine. cbn. by destruct (decide (me = Commands)).
Qed.

Lemma apart_send pt p : keeps True apart (send_payload Reader pt p).
Proof.
  assert (Ht : ∀ pt p wire w w', try_track Reader pt p wire w = Some w' → apart w w').
  { intros ????? (? & ? & ? & ? & Hb)%try_track_mine. rewrite decide_False, app_nil_r in Hb by done.
    by split_and!. }
  unfold send_payload, send_locked, track_message. walk.
  - apply keeps_wait. intros w. by destruct (w_locked w).
  - apply keeps_act. intros w. destruct (try_track _ _ _ _ w) eqn:Et; [by eapply Ht|done].
  - apply keeps_wait. intros w. destruct (core_closed _); [done|].
    destruct (try_track _ _ _ _ w) eqn:Et; [by eapply Ht|done].
  - by apply keeps_act.
Qed.
#[local] Hint Resolve apart_send : io.

Lemma apart_reader : keeps True apart reader_task.
Proof.
  assert (Hdeliver : ∀ m, keeps True apart (deliver m)).
  { intros m. unfold deliver, deliver_output, deliver_handshake_request,
      deliver_handshake_complete, deliver_challenge, deliver_exit_code, deliver_flag,
      parse_payload, decrypt_if_needed, close_by_agent, emit.
    walk; try (by apply keeps_act).
    - by apply keeps_kms.
    - apply keeps_act. intros w. by destruct (on_request _ _ _).
    - apply keeps_act. intros w. by destruct (on_complete _ _). }
  assert (Hdrain : ∀ fuel next, keeps True apart (drain fuel next)).
  { induction fuel as [|fuel IH]; intros next; cbn [drain]; walk; by apply keeps_act. }
  unfold reader_task, read_event, route, route_stream_data, route_ack, handle_text, close_by_agent,
    acknowledge_message.
  walk; try (by apply keeps_act).
  - apply keeps_wait. intros w. destruct (core_closed _); [done|]. by destruct (n_inbox (w_net w)).
  - apply keeps_act. intros w. cbv zeta. by destruct (incoming_insert _ _).
  - intros w _. cbn. destruct (Ack.acknowledge _ _ _) as [[? b]|]; by exists ().
Qed.

Lemma apart_body timeout t : t ≠ Commands → keeps True apart (body timeout t).
Proof.
  assert (Htick : ∀ due clear, (∀ w, apart w (clear w)) → keeps True apart (next_tick due clear)).
  { intros due clear Hc. apply keeps_wait. intros w. destruct (core_closed _); [done|].
    destruct (due _); [apply Hc|done]. }
  destruct t; cbn [body]; intros Hne; [|apply apart_reader|done|..].
  - unfold writer_task, sink_send, stop_writer, sink_close, is_closed. walk; try (by apply keeps_act);
      apply keeps_wait; intros x; try (by destruct (n_sink _)).
    destruct (core_closed _); [done|]. by destruct (poll_recv _) as [[] q].
  - unfold retransmit_task. walk; [by apply Htick| |].
    + apply keeps_act. intros w. cbv zeta. by destruct (poll_retransmit _ _ _) as [[] b].
    + apply keeps_wait. intros w. destruct (core_closed _); [done|].
      by destruct (try_send _ _) as [[] q].
  - unfold heartbeat_task, idle_for. walk; [by apply Htick|by apply keeps_act].
Qed.

(** ** The command task *)

Section Refinement.
Context (n : nat) (n_pos : (0 < n)%nat) (timeout : Duration).
Abbreviation Sent := (list (PayloadType * list byte)).

(** While it runs: what it has had numbered, and the commands taken. *)
Definition knows t (k : option (Sent * list Command)) w : Prop :=
  fifo w ∧
  if decide (t = Commands) then
    by_commands w `prefix_of` meaning n (taken w)
    ∧ from_option (λ '(l, cs), w_chunk_size w = Z.of_nat n ∧ by_commands w = l ∧ taken w = cs
                               ∧ rx_alive (queue w) = true) True k
  else True.
Definition head_of t (k : option (Sent * list Command)) : Prop :=
  if decide (t = Commands) then ∃ cs, k = Some (meaning n cs, cs) else True.
(** It never panics: the fuel of [send_chunks] is enough. *)
Definition crashed t (k : option (Sent * list Command)) : Prop := t ≠ Commands.
Abbreviation fine := (body_fine (body timeout) knows (λ _ _ _, True) crashed head_of (λ _ _, True)
  (λ _ _, True)).
Abbreviation ok := (sys_ok (E := Error) knows (λ _ _ _, True) crashed head_of (λ _ _, True)
  (λ _ _, True)).
Abbreviation wp := (wp (E := Error) (knows Commands) (guarantee knows Commands) (λ _ _, True)
  (crashed Commands)).

Lemma knows_apart t k w w' : apart w w' → knows t k w → knows t k w'.
Proof.
  intros Ha [Hf Hk]. split; [by eapply apart_fifo|]. case_decide; [|done].
  destruct Ha as (Hb & Ht & _ & Hn & Hq). by rewrite Hb, Ht, Hn, Hq.
Qed.

Lemma commands_others t : t ≠ Commands → fine t.
Proof.
  intros Hne k _. eapply (wp_keeps _ _ _ _ True apart).
  - done.
  - intros w w' Hs Hk. split; [by eapply knows_apart|]. intros j kj _. by apply knows_apart.
  - by apply apart_body.
  - intros [[]|e]; unfold head_of; by rewrite ?decide_False.
Qed.

(** A step of the command task; the others only need [fifo]. *)
Lemma commands_guarantee k k' w w' : knows Commands k' w' → guarantee knows Commands k w k' w'.
Proof.
  intros Hk. split; [done|]. intros j kj Hne _. split; [apply Hk|]. by rewrite decide_False.
Qed.

Lemma apart_guarantee k w w' :
  apart w w' → knows Commands k w → guarantee knows Commands k w k w'.
Proof.
  intros Ha Hk. split; [by eapply knows_apart|]. intros j kj _. by apply knows_apart.
Qed.

Lemma wp_apart {A} (f : World → option (Res A * World)) Q k :
  (∀ w, match f w with Some (r, w') => apart w w' ∧ Q r k | None => True end) →
  wp (wait f) Q k.
Proof.
  intros Hf. apply wp_wait. intros w Hw. specialize (Hf w). destruct (f w) as [[r w']|]; [|done].
  destruct Hf as [Ha HQ]. exists k. split; [by apply apart_guarantee|done].
Qed.
Lemma wp_peek {A} (f : World → A * World) Q k :
  (∀ w, apart w (f w).2) → (∀ a, Q (Ok a) k) → wp (act f) Q k.
Proof. intros Hf HQ. apply wp_apart. intros w. specialize (Hf w). destruct (f w). by split. Qed.

Lemma track_guarantee pt p wire l cs w w' :
  try_track Commands pt p wire w = Some w' → knows Commands (Some (l, cs)) w →
  l ++ [(pt, p)] `prefix_of` meaning n cs →
  guarantee knows Commands (Some (l, cs)) w (Some (l ++ [(pt, p)], cs)) w'.
Proof.
  intros (Ht & Ha & Hn & Hq & Hb)%try_track_mine [Hf Hk] Hp.
  rewrite decide_True in Hb by done. rewrite decide_True in Hk by done.
  destruct Hk as (_ & Hn' & Hb' & Ht' & Hrx). apply commands_guarantee. split.
  - unfold fifo. by rewrite Ht, Ha, Hq.
  - rewrite decide_True by done. cbn. rewrite Hb, Ht, Hn, Hq, Hb', Ht'. by split_and!.
Qed.

(** One message of a command. *)
Lemma wp_send pt p Q l cs :
  l ++ [(pt, p)] `prefix_of` meaning n cs →
  Q (Ok ()) (Some (l ++ [(pt, p)], cs)) → (∀ e l, Q (Err e) (Some (l, cs))) →
  wp (send_payload Commands pt p) Q (Some (l, cs)).
Proof.
  intros Hp HQ HQe. set (k := Some (l, cs)).
  unfold send_payload. apply wp_bind, wp_peek; [done|]. intros cr. apply wp_bind.
  assert (Hbody : ∀ P, (∀ r, (is_ok r = true ∨ ∃ e, r = Err e) → P r k) →
    wp (match pt, cr with
        | Pt_Output, Some c => m ← draw; res (encrypt (nonces m) c p)
        | _, _ => mret p
        end) P k).
  { intros P HP. destruct pt; try (apply HP; by left). destruct cr; [|apply HP; by left].
    apply wp_bind, wp_peek; [done|]. intros m. apply HP. destruct (encrypt _ _ _); eauto. }
  apply Hbody. intros [body|e] _; [|apply HQe]. clear Hbody. apply wp_bind, wp_apart.
  intros w. destruct (w_locked w); [done|]. split; [done|]. apply wp_bind, wp_attempt.
  assert (Hend : ∀ r k', Q r k' → wp (_ ← unlock_sequence; res r) Q k').
  { intros r k' Hr. by apply wp_bind, wp_peek. }
  unfold send_locked. apply wp_bind, wp_peek; [done|]. intros m. cbv zeta.
  set (wire := serialize _). clearbody wire. apply wp_bind.
  assert (Hwrite : wp (write (λ w, add_sent w wire) (Binary wire))
    (λ r, Coroutine.wp (knows Commands) (guarantee knows Commands) (λ _ _, True) (crashed Commands)
            (_ ← unlock_sequence; res r) Q) (Some (l ++ [(pt, p)], cs))).
  { apply wp_apart. intros w1. destruct (try_send _ _) as [[] q]; [|done|].
    - split; [done|]. by apply Hend.
    - split; [done|]. apply Hend, HQe. }
  unfold track_message. apply wp_bind, wp_act. intros w1 Hw1.
  destruct (try_track Commands pt p wire w1) as [w2|] eqn:Et; cbn [fst snd].
  { eexists. split; [by eapply track_guarantee|exact Hwrite]. }
  exists k. split; [by split|]. apply wp_wait. intros w3 Hw3. destruct (core_closed (w_core w3)).
  { exists k. split; [by split|]. apply Hend, HQe. }
  destruct (try_track Commands pt p wire w3) as [w4|] eqn:Et3; [|done].
  eexists. split; [by eapply track_guarantee|exact Hwrite].
Qed.

Lemma wp_chunks fuel : ∀ data l cs Q,
  (length data ≤ fuel)%nat →
  l ++ (pair Pt_Output <$> chunks_of fuel n data) `prefix_of` meaning n cs →
  Q (Ok ()) (Some (l ++ (pair Pt_Output <$> chunks_of fuel n data), cs)) →
  (∀ e l, Q (Err e) (Some (l, cs))) → wp (send_chunks fuel n data) Q (Some (l, cs)).
Proof.
  induction fuel as [|fuel IH]; intros data l cs Q Hl Hp HQ HQe.
  { destruct data; [|cbn in Hl; lia]. cbn in *. by rewrite app_nil_r in HQ. }
  destruct data as [|b data]; [cbn in *; by rewrite app_nil_r in HQ|].
  cbn [send_chunks chunks_of] in *. set (piece := take n (b :: data)) in *.
  rewrite fmap_cons, cons_middle, app_assoc in Hp, HQ. apply wp_bind, wp_send; cbn [fst snd].
  - etransitivity; [|exact Hp]. by apply prefix_app_r.
  - apply IH; [|done|done|done]. rewrite length_drop. cbn [length] in *. lia.
  - intros e l'. apply HQe.
Qed.

Lemma wp_command c l cs Q :
  l = meaning n cs → Q (Ok ()) (Some (meaning n (cs ++ [c]), cs ++ [c])) →
  (∀ e l, Q (Err e) (Some (l, cs ++ [c]))) → wp (run_command c) Q (Some (l, cs ++ [c])).
Proof.
  intros -> HQ HQe. rewrite meaning_snoc in HQ. destruct c as [data|pt data]; cbn [run_command].
  - unfold send_stream_data. apply wp_bind, wp_gets. intros w Hw. pose proof Hw as [_ Hk].
    rewrite decide_True in Hk by done. destruct Hk as (_ & Hn & _). exists (Some (meaning n cs, cs ++ [Data data])).
    split; [by apply apart_guarantee|]. rewrite Hn, Nat2Z.id. apply wp_chunks; [done| |done|done].
    rewrite meaning_snoc. done.
  - apply wp_send; cbn [fst snd]; [|done|done]. by rewrite meaning_snoc.
Qed.

Lemma commands_fine : fine Commands.
Proof.
  intros k Hk. unfold head_of in Hk. rewrite decide_True in Hk by done. destruct Hk as [cs ->].
  pose (P := λ (r : Res bool) k, match r with Ok true => head_of Commands k | _ => True end).
  assert (Hstop : ∀ k, wp stop_commands P k).
  { intros k. apply wp_bind, wp_modify. intros w [[Hf1 Hf2] Hk]. exists None. split; [|done].
    rewrite decide_True in Hk by done. apply commands_guarantee. split.
    - split; [done|]. cbn. by rewrite (proj1 (drop_rx_spec (queue w))).
    - rewrite decide_True by done. split; [apply Hk|done]. }
  cbn [body]. unfold task_fine, task_ok. fold P. unfold command_task. apply wp_bind, wp_wait.
  intros w Hw. pose proof Hw as [[Hf1 Hf2] Hk]. rewrite decide_True in Hk by done.
  destruct Hk as (_ & Hn & Hb & Ht & Hrx). destruct (core_closed (w_core w)).
  { exists (Some (meaning n cs, cs)). split; [by apply apart_guarantee|apply Hstop]. }
  destruct (poll_recv (queue w)) as [x q] eqn:Ep. apply poll_recv_inv in Ep.
  destruct x as [c| |]; [|exists (Some (meaning n cs, cs)); split; [|apply Hstop]|done].
  2: { destruct Ep as (_ & _ & ->). by apply apart_guarantee. }
  destruct Ep as (Hq & _ & Hrx' & _). exists (Some (meaning n cs, cs ++ [c])). split.
  { specialize (Hf2 Hrx). rewrite Hq, Ht in Hf2. apply commands_guarantee. split.
    - split; cbn; rewrite Ht, <- Hf2; [|by rewrite <- app_assoc].
      exists (queued q). by rewrite <- app_assoc.
    - rewrite decide_True by done. set (w' := add_taken _ _).
      assert (Htk : taken w' = cs ++ [c]) by (cbn; by rewrite Ht).
      assert (Hbc : by_commands w' = meaning n cs) by exact Hb.
      rewrite Hbc, Htk. split; [rewrite meaning_snoc; by apply prefix_app_r|].
      split_and!; try done. cbn. by rewrite Hrx'. }
  cbn [fst snd]. clear w Hw Hf1 Hf2 Hn Hb Ht Hrx q Hq Hrx'. apply wp_bind, wp_apart.
  assert (Hrun : wp (result ← attempt (run_command c);
    match result with
    | Ok _ => mret true
    | Err e =>
      closed ← is_closed;
      _ ← if closed : bool then mret () else close_channel (Transport (to_string e));
      stop_commands
    end) P (Some (meaning n cs, cs ++ [c]))).
  { apply wp_bind, wp_attempt, wp_command; [done|by exists (cs ++ [c])|]. intros e l.
    apply wp_bind, wp_peek; [done|]. intros [].
    - apply wp_bind. apply Hstop.
    - apply wp_bind, wp_peek; [done|]. intros []. apply Hstop. }
  intros w. destruct (core_closed (w_core w)); [split; [done|apply Hstop]|].
  destruct (wait_sendable (w_core w)); [|done]. split; [done|exact Hrun].
Qed.

Lemma commands_all_fine t : fine t.
Proof. destruct (decide (t = Commands)) as [->|]; [apply commands_fine|by apply commands_others]. Qed.

(** *** Callers *)

(** A step of the outside changes the queue at most. *)
Lemma outside_knows ev t k w : knows t k w → knows t k (outside ev w).
Proof.
  assert (Ha : ∀ w', apart w w' → knows t k w → knows t k w') by (intros; by eapply knows_apart).
  assert (Hq : ∀ w', fifo w' → by_commands w' = by_commands w → taken w' = taken w →
    w_chunk_size w' = w_chunk_size w → rx_alive (queue w') = rx_alive (queue w) →
    knows t k w → knows t k w').
  { intros w' Hf' Hb Ht Hn Hrx [_ Hk]. split; [done|]. case_decide; [|done].
    by rewrite Hb, Ht, Hn, Hrx. }
  destruct ev; cbn [outside]; try (by apply Ha).
  - unfold sink_done. destruct (n_sink _); [|destruct e|..]; by apply Ha.
  - unfold submit, dispatch. cbn. destruct (core_closed _); [done|].
    destruct (try_send c (queue w)) as [[] q] eqn:E; [|done..]. apply try_send_inv in E.
    destruct E as (Hrx & Hqd & Hrx' & _). intros Hk. pose proof Hk as [[Hf1 Hf2] _].
    apply Hq; try done; [|cbn; congruence]. split; cbn; [by apply prefix_app_r|].
    intros _. by rewrite Hqd, app_assoc, Hf2.
  - intros Hk. pose proof Hk as [[Hf1 Hf2] _]. destruct (drop_tx_spec (queue w)) as (Hqd & _ & Hrx & _).
    apply Hq; try done. split; cbn; [done|]. by rewrite Hqd, Hrx.
Qed.

Lemma release_quiet t j k w : j ≠ t → knows j k w → knows j k (set_aborted (release t w)).
Proof.
  intros Hne. destruct (decide (t = Commands)) as [->|Ht].
  - intros [[Hf _] _].  unfold release.
    split; [|by rewrite decide_False]. destruct (decide _); (split; [exact Hf|]); cbn;
      by rewrite (proj1 (drop_rx_spec (queue w))).
  - apply knows_apart. unfold release. by destruct (decide _), t.
Qed.

Lemma release_commands k w :
  knows Commands k w → knows Commands None (set_aborted (release Commands w)).
Proof.
  intros [[Hf _] Hk]. rewrite decide_True in Hk by done. unfold release.
  split; [|rewrite decide_True by done; split; [|done]].
  - destruct (decide _); (split; [exact Hf|]); cbn; by rewrite (proj1 (drop_rx_spec (queue w))).
  - destruct (decide _); apply Hk.
Qed.

Lemma commands_run evs : ∀ x, ok x → ok (sys_run timeout x evs).
Proof.
  induction evs as [|ev evs IH]; intros x Hx; [done|]. cbn [sys_run foldl]. apply IH.
  assert (Hout : ok {| s_world := outside ev (s_world x); s_task := s_task x |}).
  { apply outside_sys; [|done]. intros j k. apply outside_knows. }
  destruct ev as [t|e|e| | | |c|r| |i|i| |t]; cbn [sys_step]; try exact Hout.
  - apply poll_sys; [apply commands_all_fine|done].
  - destruct (finished _); [done|]. apply abort_sys; [| |done].
    + intros k Hk. destruct (decide (t = Commands)) as [->|Hne].
      * exists None. split; [by eapply release_commands|done].
      * exists None. split; [|done]. split; [|by rewrite decide_False]. destruct Hk as [Hf _].
        eapply apart_fifo, Hf. unfold release. by destruct (decide _), t.
    + intros j k Hne. by apply release_quiet.
Qed.
End Refinement.

(** The invariant after any run of a new channel. *)
Lemma commands_after timeout w evs :
  1 ≤ w_chunk_size w → w_history w = no_history →
  queued (n_commands (w_net w)) = [] → rx_alive (n_commands (w_net w)) = true →
  let n := Z.to_nat (w_chunk_size w) in
  sys_ok (E := Error) (knows n) (λ _ _ _, True) crashed (head_of n) (λ _ _, True) (λ _ _, True)
    (sys_run timeout (spawn w) evs).
Proof.
  intros Hc Hh Hq Hrx n. apply commands_run; [lia|]. exists (λ _, Some ([], [])). intros t.
  assert (Hf : fifo w) by (split; rewrite Hh; [done|]; by rewrite Hq).
  split; [split; [exact Hf|]|].
  - case_decide; [|done]. cbn. unfold by_commands. rewrite Hh. cbn. split_and!; try done. lia.
  - unfold task_fine, task_ok, spawn, head_of. cbn. case_decide; [|done]. by exists [].
Qed.

(** C6: sending refines the queue of commands.  In any run of a channel, the messages
    the command task has had numbered are, in order, those that the commands it took
    stand for, up to a point, and all of them whenever it is between two commands;
    commands are taken in the order callers' [dispatch] accepted them, and until the
    task ends none is lost.  Caller data stands for consecutive non-empty pieces of at
    most the chunk size that together are the data. *)
Theorem commands_refined timeout w evs :
  1 ≤ w_chunk_size w → w_history w = no_history →
  queued (n_commands (w_net w)) = [] → rx_alive (n_commands (w_net w)) = true →
  let n := Z.to_nat (w_chunk_size w) in
  let x := sys_run timeout (spawn w) evs in
  let v := s_world x in
  let h := w_history v in
  by_commands v `prefix_of` meaning n (h_taken h)
  ∧ (s_task x Commands = at_head → by_commands v = meaning n (h_taken h))
  ∧ h_taken h `prefix_of` h_accepted h
  ∧ (rx_alive (n_commands (w_net v)) = true →
     h_taken h ++ queued (n_commands (w_net v)) = h_accepted h)
  ∧ s_task x Commands ≠ Panicked_
  ∧ ∀ data, concat (messages_of n (Data data)).*2 = data
      ∧ Forall (λ y, y.1 = Pt_Output ∧ 0 < #(y.2) ≤ w_chunk_size w) (messages_of n (Data data)).
Proof.
  intros Hc Hh Hq Hrx n x v h.
  pose proof (commands_after timeout w evs Hc Hh Hq Hrx) as Hok. fold x in Hok. fold n in Hok.
  destruct Hok as [κ Hx]. destruct (Hx Commands) as [[[Hf1 Hf2] Hk] Ht].
  rewrite decide_True in Hk by done. destruct Hk as [Hp Hk]. split_and!; try done.
  - intros Hhd. rewrite Hhd in Ht. unfold task_fine, task_ok, head_of in Ht. cbn in Ht.
    rewrite decide_True in Ht by done. destruct Ht as [cs Hcs]. rewrite Hcs in Hk. cbn in Hk.
    destruct Hk as (_ & Hb & Htk & _). fold v in Hb, Htk. unfold h. by rewrite Hb, Htk.
  - intros Hpk. rewrite Hpk in Ht. by apply Ht.
  - intros data. destruct (chunks_of_spec (length data) n data) as [Hcc Hfa]; [lia|lia|]. cbn.
    split.
    + rewrite <- list_fmap_compose. unfold compose. cbn. by rewrite list_fmap_id.
    + apply Forall_fmap. eapply Forall_impl; [exact Hfa|]. intros b Hb. cbn. split; [done|].
      cbn in Hb. lia.
Qed.
End Commands.

(** ** Witnesses *)

Section CommandsWitnesses.
#[local] Existing Instance toy_sha.
#[local] Existing Instance toy_uuid.
#[local] Existing Instance toy_gcm.
#[local] Existing Instance toy_base64.
#[local] Existing Instance toy_json.
#[local] Existing Instance toy_ack.
#[local] Existing Instance no_serde.
#[local] Existing Instance toy_platform.

(** Six bytes go out as four and two. *)
Lemma commands_refined_witness :
  let v := s_world (sys_run 100 (spawn toy_world) toy_events) in
  by_commands v = meaning 4 [Data (replicate 6 x62)]
  ∧ by_commands v = [(Pt_Output, replicate 4 x62); (Pt_Output, replicate 2 x62)].
Proof.
  split; [|vm_compute; reflexivity].
  destruct (commands_refined 100 toy_world toy_events) as (_ & Heq & _);
    [vm_compute; discriminate|reflexivity..|].
  rewrite Heq by (vm_compute; reflexivity). vm_compute. reflexivity.
Defined.
End CommandsWitnesses.
