(* ===== verification/Teardown.v ===== *)
(** * Ending a channel (src/session.rs: [terminate], [join_tasks], [Drop];
      src/connection.rs: how each task notices that the session is closed)

    A closed session stays closed, each of its tasks makes finitely many more steps,
    and as long as the socket and the key service answer none of them waits forever.
    [terminate] waits
    for the tasks with a deadline; what it does not wait for it forgets. *)

From S2P Require Import Prelude RustStd Errors Interfaces Coroutine BinaryProtocol Ack Crypto.
From S2P Require Import Channels Handshake Documents Session Connection Inbound Outbound.

Section Teardown.
Context {C : Type → Type} `{Mpsc C} `{!MpscOk C}.
Context `{Sha256, UuidDisplay, Aes256Gcm, Base64}.
Context {Value : Type} `{ActionJson Value}.
Context `{Serde AcknowledgeContent, Serde (HandshakeRequest (Value := Value)),
  Serde (HandshakeResponse (Value := Value)), Serde HandshakeComplete,
  Serde EncryptionChallengeRequest, Serde EncryptionChallengeResponse,
  Serde ChannelClosedBody}.
Context `{Platform} (timeout : Duration).
Implicit Types (w : World (C := C)) (t : TaskId).
Abbreviation System := (Sys (World (C := C)) Error TaskId).
Implicit Types x : System.

Definition closed_world w : Prop := core_closed (w_core w) = true.
Definition all_finished x : Prop := ∀ t, finished (s_task x t) = true.

(** ** Finitely many steps *)

(** The first thing every round looks at is whether the session is closed. *)
Lemma body_winds t (tk : Task (World (C := C)) Error) : Acc (step_in closed_world (body timeout t)) tk.
Proof.
  destruct t; cbn [body]; apply winds_down; intros s p s' Hc; cbn; rewrite Hc; intros [= <- <-];
    unfold ends; cbn; try done.
  intros w _. exists (). split; [done|]. intros w1 _. destruct (n_sink _); try done.
  exists (). split; [done|]. intros w2 _. by exists ().
Qed.

(** ** No deadlock *)

Definition all_tasks : list TaskId := [Writer; Reader; Commands; Retransmit; Heartbeat].
Lemma all_tasks_in t : t ∈ all_tasks.
Proof. destruct t; repeat constructor. Qed.

Section Progress.
Context (s0 : Z) (b0 : list (Z * list byte)) (c0 : option SessionCrypto).
Abbreviation ok := (sys_ok (E := Error) (knows s0 b0 c0) stuck crashed head_of end_of end_of).

Lemma waiting_stuck x (κ : TaskId → Mode) t :
  (∀ t, knows s0 b0 c0 t (κ t) (s_world x)
        ∧ task_fine (knows s0 b0 c0) stuck crashed head_of end_of end_of t (s_task x t) (κ t)) →
  finished (s_task x t) = false → steps (body timeout t) (s_task x t) (s_world x) = false →
  stuck t (κ t) (s_world x).
Proof.
  intros Hx Hf Hs. destruct (Hx t) as [Hk Ht]. destruct (s_task x t) as [p| | |]; [|done..].
  apply (wait_stuck (knows s0 b0 c0 t) (guarantee (knows s0 b0 c0) t) (stuck t) (crashed t)
    (head_of t) (end_of t) (end_of t) (body timeout t) p (κ t) (s_world x)); try done.
  - exact (outbound_fine s0 b0 c0 timeout t).
  - by destruct t.
Qed.

(** The reader is waiting for the key service, and for nothing else. *)
Definition kms_awaited x : Prop :=
  steps (body timeout Reader) (s_task x Reader) (s_world (sys_step timeout x KmsAnswer)) = true.

(** When no task can make a step, the writer gone means its receiver dropped and the mutex
    free. *)
Lemma writer_gone x (κ : TaskId → Mode) :
  (∀ t, knows s0 b0 c0 t (κ t) (s_world x)
        ∧ task_fine (knows s0 b0 c0) stuck crashed head_of end_of end_of t (s_task x t) (κ t)) →
  finished (s_task x Writer) = true → rx_alive (n_writer (w_net (s_world x))) = false.
Proof.
  intros Hx Hw. destruct (Hx Writer) as [Hk Ht]. destruct (s_task x Writer) as [p| | |]; [done|..].
  - cbn in Ht. unfold end_of in Ht. cbn in Ht. rewrite Ht in Hk. apply Hk.
  - by destruct Ht.
  - cbn in Ht. unfold end_of in Ht. cbn in Ht. rewrite Ht in Hk. apply Hk.
Qed.

Lemma mutex_free x (κ : TaskId → Mode) :
  (∀ t, knows s0 b0 c0 t (κ t) (s_world x)
        ∧ task_fine (knows s0 b0 c0) stuck crashed head_of end_of end_of t (s_task x t) (κ t)) →
  closed_world (s_world x) → rx_alive (n_writer (w_net (s_world x))) = false →
  finished (s_task x Writer) = true →
  (∀ t, finished (s_task x t) = false → stuck t (κ t) (s_world x)) → w_locked (s_world x) = None.
Proof.
  intros Hx Hc Hrx Ew Hst. destruct (w_locked (s_world x)) as [j|] eqn:El; [exfalso|done].
  destruct (Hx j) as [[_ Hk] Ht].
  assert (Hm : κ j ≠ Out ∧ κ j ≠ Gone).
  { split; intros Hj; rewrite Hj in Hk; unfold free in Hk; naive_solver. }
  destruct (finished (s_task x j)) eqn:Ej.
  - destruct (s_task x j) as [p| | |]; [done|..]; cbn in Ht; unfold end_of, crashed in Ht;
      destruct (decide (j = Writer)); naive_solver.
  - pose proof (Hst j Ej Hc) as Hs. destruct j; try done; [congruence|..];
      destruct Hs as [?|[? _]]; [congruence|tauto|congruence|tauto].
Qed.

Lemma closed_progress x :
  ok x → closed_world (s_world x) →
  all_finished x ∨ (∃ t, steps (body timeout t) (s_task x t) (s_world x) = true)
  ∨ (sink_busy (s_world x) ∧ finished (s_task x Writer) = false) ∨ kms_awaited x.
Proof.
  intros [κ Hx] Hc.
  destruct (decide (Exists (λ t, steps (body timeout t) (s_task x t) (s_world x) = true) all_tasks))
    as [(t & _ & Ht)%Exists_exists|Hn]; [right; left; by exists t|].
  assert (Hns : ∀ t, steps (body timeout t) (s_task x t) (s_world x) = false).
  { intros t. destruct (steps _ _ _) eqn:E; [|done]. destruct Hn. apply Exists_exists.
    exists t. split; [apply all_tasks_in|done]. }
  assert (Hst : ∀ t, finished (s_task x t) = false → stuck t (κ t) (s_world x)).
  { intros t Ht. by apply waiting_stuck. }
  destruct (finished (s_task x Writer)) eqn:Ew;
    [|right; right; left; split; [by apply (Hst Writer)|done]].
  pose proof (writer_gone x κ Hx Ew) as Hrx.
  pose proof (mutex_free x κ Hx Hc Hrx Ew Hst) as Hlock.
  destruct (finished (s_task x Reader)) eqn:Er.
  - left. intros t. destruct (finished (s_task x t)) eqn:Et; [done|]. pose proof (Hst t Et Hc) as Hs.
    destruct t; try done; try congruence.
    destruct Hs as [?|[_ [(j & _ & ?)|[? _]]]]; congruence.
  - right; right; right. unfold kms_awaited. set (y := sys_step timeout x KmsAnswer).
    destruct (steps _ _ _) eqn:Es; [done|exfalso].
    assert (Hy : ok y) by (apply out_step; by exists κ). destruct Hy as [κy Hy].
    pose proof (waiting_stuck y κy Reader Hy Er Es Hc) as Hs.
    destruct Hs as [Hs|[_ [(j & _ & Hj)|[_ Hz]]]]; [| |done].
    + change (rx_alive (n_writer (w_net (s_world x))) = true) in Hs. congruence.
    + change (w_locked (s_world x) = Some j) in Hj. congruence.
Qed.

(** ** Completion *)

(** Polls, a socket that answers, and a key service that does. *)
Definition answered (ev : Event) : Prop :=
  match ev with Poll _ | SinkDone None | KmsAnswer => True | _ => False end.

Lemma completes : ∀ ts x,
  Acc (λ ts' ts, ∃ i, i ∈ all_tasks ∧ step_in closed_world (body timeout i) (ts' i) (ts i)
                      ∧ ∀ j, j ≠ i → ts' j = ts j) ts →
  s_task x = ts → ok x → closed_world (s_world x) → (∀ t, task_keeps True tidy (s_task x t)) →
  ∃ evs, Forall answered evs ∧ all_finished (sys_run timeout x evs).
Proof.
  intros ts x Hacc. revert x. induction Hacc as [ts _ IH]. intros x Hts Hok Hc Ht.
  assert (Hstep : ∀ y, s_task y = ts → ok y → closed_world (s_world y) →
    (∃ t, steps (body timeout t) (s_task y t) (s_world y) = true) →
    ∃ evs, Forall answered evs ∧ all_finished (sys_run timeout y evs)).
  { intros y Hy Hoky Hcy (t & Hs).
    destruct (poll_sys_keeps (body timeout) True tidy t y) as [(_ & _ & Hcl & _) Ht'];
      [done|apply tidy_body|by rewrite Hy, <- Hts|].
    destruct (IH (s_task (poll (body timeout) t y))) with (x := poll (body timeout) t y)
      as (evs & He & Hf);
      [|done|by apply (out_step s0 b0 c0 timeout (Poll t))|by apply Hcl|done|].
    - exists t. split_and!; [apply all_tasks_in| |].
      + exists (s_world y). rewrite <- Hy. split_and!; [done|done|]. unfold poll.
        destruct (poll_task _ _ _) as [t' s'] eqn:Ep. cbn. unfold upd_task.
        by rewrite decide_True.
      + intros j Hj. unfold poll. destruct (poll_task _ _ _). cbn. unfold upd_task.
        by rewrite decide_False, Hy.
    - exists (Poll t :: evs). split; [by constructor|exact Hf]. }
  assert (Hkms : ∀ y, s_task y = ts → ok y → closed_world (s_world y) → kms_awaited y →
    ∃ evs, Forall answered evs ∧ all_finished (sys_run timeout y evs)).
  { intros y Hy Hoky Hcy Hk.
    destruct (Hstep (sys_step timeout y KmsAnswer)) as (evs & He & Hf);
      [done|by apply out_step|done|by exists Reader|].
    exists (KmsAnswer :: evs). split; [by constructor|exact Hf]. }
  destruct (closed_progress x Hok Hc) as [Hf|[Hs|[[Hb Hw]|Hk]]]; [by exists []|by apply Hstep| |by apply Hkms].
  set (y := sys_step timeout x (SinkDone None)).
  assert (Hoky : ok y) by (by apply out_step).
  assert (Hcy : closed_world (s_world y)).
  { apply (same_outside (SinkDone None) (s_world x)). exact Hc. }
  assert (Hy : ∃ evs, Forall answered evs ∧ all_finished (sys_run timeout y evs)).
  { destruct (closed_progress y Hoky Hcy) as [Hf|[Hs|[[Hb' _]|Hk]]];
      [by exists []|by apply Hstep| |by apply Hkms].
    exfalso. unfold sink_busy in *. cbn in Hb'. unfold sink_done in Hb'.
    by destruct (n_sink (w_net (s_world x))). }
  destruct Hy as (evs & He & Hf). exists (SinkDone None :: evs). split; [by constructor|exact Hf].
Qed.
End Progress.

(** C7: a closed session winds down.  From any state of a channel in which the session
    is closed, whatever happened before and whatever the tasks are in the middle of:
    it stays closed; each task makes finitely many more steps, however they are
    scheduled; as long as a task is unfinished one of them can make a step, or the
    writer is waiting for the socket, or the reader, in the middle of a handshake, for the
    key service, whose next answer lets it go on; and if the socket and the key service
    answer there is a schedule that ends every task. *)
Theorem shutdown_completes w evs :
  in_i 64 (next_sequence (stream w)) = true → w_history w = no_history → w_locked w = None →
  fanout (w_core w) = Fanout_new → core_closed (w_core w) = false →
  let x := sys_run timeout (spawn w) evs in
  closed_world (s_world x) →
  (∀ evs', closed_world (s_world (sys_run timeout x evs')))
  ∧ (∀ t, Acc (step_in closed_world (body timeout t)) (s_task x t))
  ∧ (all_finished x ∨ (∃ t, steps (body timeout t) (s_task x t) (s_world x) = true)
     ∨ (sink_busy (s_world x) ∧ finished (s_task x Writer) = false) ∨ kms_awaited x)
  ∧ ∃ evs', Forall answered evs' ∧ all_finished (sys_run timeout x evs').
Proof.
  intros Hs Hh Hl Hf Ho x Hc.
  assert (Hst : streams_ok w).
  { unfold streams_ok. rewrite Hf, Hh, Ho. cbn. split_and!; [apply fan_inv_new|done|].
    intros i got offered. by rewrite lookup_empty. }
  destruct (tidy_run timeout evs (spawn w)) as (_ & Hstx & _ & Hkx); [done|done|].
  assert (Hok : sys_ok (E := Error) (knows (next_sequence (stream w)) (backlog (outgoing (stream w)))
    (cipher (stream w))) stuck crashed head_of end_of end_of x)
    by (by apply out_run, spawn_out).
  split_and!.
  - intros evs'. destruct (tidy_run timeout evs' x Hkx Hstx) as (_ & _ & Hcl & _). by apply Hcl.
  - intros t. apply body_winds.
  - by eapply closed_progress.
  - eapply completes; [|done|exact Hok|done|exact Hkx]. apply (acc_product
      (λ i, step_in closed_world (body timeout i)) all_tasks). intros i _. apply body_winds.
Qed.

(** ** The session's handle *)

(** What [terminate] and [Drop] work on: the system, the join handles the session
    still has, and the deadline of the join under way. *)
Record Owner := {
  o_system : System;
  o_handles : list TaskId;
  o_deadline : bool }.

Definition set_handles (o : Owner) (l : list TaskId) : Owner :=
  {| o_system := o_system o; o_handles := l; o_deadline := o_deadline o |}.
Definition set_deadline (o : Owner) (b : bool) : Owner :=
  {| o_system := o_system o; o_handles := o_handles o; o_deadline := b |}.
Definition set_system (o : Owner) (x : System) : Owner :=
  {| o_system := x; o_handles := o_handles o; o_deadline := o_deadline o |}.

(** [tokio::time::timeout(5 s, task).await]; its outcome is only logged. *)
Definition join_task (t : TaskId) : Prog Owner Error () :=
  _ ← modify (λ o, set_deadline o false);
  wait (λ o, if finished (s_task (o_system o) t) || o_deadline o then Some (Ok (), o) else None).

Fixpoint join_all (ts : list TaskId) : Prog Owner Error () :=
  match ts with
  | [] => mret ()
  | t :: ts => _ ← join_task t; join_all ts
  end.

Definition join_tasks : Prog Owner Error () :=
  tasks ← act (λ o, (o_handles o, set_handles o [])); join_all tasks.

(** [terminate] up to the SSM call, for which see [Termination]: whether this call found
    the session open. *)
Definition terminate_channel : Prog Owner Error bool :=
  first ← gets (λ o, negb (core_closed (w_core (s_world (o_system o)))));
  _ ← modify (λ o, set_system o (sys_step timeout (o_system o) (Close Terminated)));
  _ ← join_tasks;
  mret first.

(** [Drop for Session]. *)
Definition drop_channel (o : Owner) : Owner :=
  let x := sys_run timeout (o_system o) (Close Terminated :: (Abort <$> o_handles o)) in
  set_handles (set_system o x) [].

(** What [connect] returned to the session. *)
Definition own (x : System) : Owner :=
  {| o_system := x; o_handles := all_tasks; o_deadline := false |}.

(** What can happen while [terminate] waits. *)
Inductive Meanwhile := Runs (ev : Event) | Deadline.
Definition meanwhile (o : Owner) (m : Meanwhile) : Owner :=
  match m with
  | Runs ev => set_system o (sys_step timeout (o_system o) ev)
  | Deadline => set_deadline o true
  end.
Definition terminate_step (y : Prog Owner Error bool * Owner) (m : option Meanwhile)
  : Prog Owner Error bool * Owner :=
  let '(p, o) := y in
  match m with
  | None => match p with
            | Step f => match f o with Some (p', o') => (p', o') | None => (p, o) end
            | _ => (p, o)
            end
  | Some m => (p, meanwhile o m)
  end.

Lemma aborted_finished l : ∀ x t,
  t ∈ l ∨ finished (s_task x t) = true →
  finished (s_task (sys_run timeout x (Abort <$> l)) t) = true.
Proof.
  induction l as [|i l IH]; intros x t Ht.
  { by destruct Ht as [?%elem_of_nil|?]. }
  cbn [fmap list_fmap sys_run foldl]. apply IH. cbn [sys_step].
  destruct (finished (s_task x i)) eqn:Ei.
  - destruct Ht as [[->|?]%elem_of_cons|?]; auto.
  - cbn. unfold upd_task. destruct (decide (t = i)); [by right|].
    destruct Ht as [[?|?]%elem_of_cons|?]; auto.
Qed.

(** Dropping a session that was not terminated aborts every task: whatever they were
    doing, none is left. *)
Lemma drop_aborts_all x : all_finished (o_system (drop_channel (own x))).
Proof. intros t. apply aborted_finished. left. apply all_tasks_in. Qed.

(** From the moment the handles are taken the session has none. *)
Lemma terminate_wp :
  wp (λ (k : bool) o, k = true → o_handles o = []) (λ _ _ k' o', k' = true → o_handles o' = [])
     (λ _ _, True) (λ _, False) terminate_channel (λ _ k, k = true) false.
Proof.
  unfold terminate_channel, join_tasks. apply wp_bind, wp_gets. intros o Ho. exists false.
  split; [done|]. apply wp_bind, wp_modify. intros o1 _. exists false. split; [done|].
  apply wp_bind, wp_bind, wp_act. intros o2 _. exists true. split; [done|]. cbn [fst].
  generalize (o_handles o2). intros ts.
  assert (Hj : ∀ ts, wp (λ (k : bool) o, k = true → o_handles o = [])
    (λ _ _ k' o', k' = true → o_handles o' = []) (λ _ _, True) (λ _, False) (join_all ts)
    (λ r k, is_ok r = true ∧ k = true) true).
  { clear. induction ts as [|t ts' IH]; [by split|]. cbn [join_all]. apply wp_bind. unfold join_task.
    apply wp_bind, wp_modify. intros o3 Ho3. exists true. split; [done|]. apply wp_wait.
    intros o4 Ho4. destruct (_ || _); [|done]. exists true. split; [done|exact IH]. }
  eapply wp_mono, Hj. intros [[]|e] k [Hr Hk]; done.
Qed.

(** C8: what [terminate] gives up on is given up for good.  However the tasks run and
    the deadlines fire while it waits, once [terminate] has returned, dropping the
    session aborts nothing: a task that did not end in time (a writer held up by its
    socket, a sender waiting for that writer) is left running. *)
Theorem terminate_then_drop x ms b :
  let y := foldl terminate_step (terminate_channel, own x) ms in
  y.1 = Ret (Ok b) →
  ∀ t, s_task (o_system (drop_channel y.2)) t = s_task (o_system y.2) t.
Proof.
  assert (Hinv : ∀ ms p o k, (k = true → o_handles o = []) →
    wp (λ (k : bool) o, k = true → o_handles o = []) (λ _ _ k' o', k' = true → o_handles o' = [])
       (λ _ _, True) (λ _, False) p (λ _ k, k = true) k →
    let y := foldl terminate_step (p, o) ms in y.1 = Ret (Ok b) → o_handles y.2 = []).
  { clear ms. induction ms as [|m ms IH]; intros p o k Hk Hp; cbn [foldl].
    { cbn. intros ->. apply Hk. exact Hp. }
    destruct m as [m|]; cbn [terminate_step].
    - apply (IH p (meanwhile o m) k); [by destruct m|done].
    - destruct p as [r| |f]; [by apply (IH _ o k)..|]. pose proof (Hp o Hk) as Hf.
      destruct (f o) as [[p' o']|]; [|by apply (IH _ o k)].
      destruct Hf as (k' & Hk' & Hp'). by apply (IH p' o' k'). }
  intros y Hy t. assert (Hh : o_handles y.2 = []).
  { exact (Hinv ms terminate_channel (own x) false ltac:(done) terminate_wp Hy). }
  unfold drop_channel. by rewrite Hh.
Qed.
End Teardown.

(** ** Witnesses *)

Section TeardownWitnesses.
#[local] Existing Instance toy_sha.
#[local] Existing Instance toy_uuid.
#[local] Existing Instance toy_gcm.
#[local] Existing Instance toy_base64.
#[local] Existing Instance toy_json.
#[local] Existing Instance toy_ack.
#[local] Existing Instance no_serde.
#[local] Existing Instance toy_platform.

(** The session ends while the writer is waiting for the socket. *)
Definition toy_stall : list Event :=
  toy_events ++ [Close Terminated] ++ toy_polls Reader 3 ++ toy_polls Commands 3.
Definition toy_stalled : Sys (World (C := Chan)) Error TaskId :=
  sys_run 100 (spawn toy_world) toy_stall.

Lemma shutdown_completes_witness :
  finished (s_task toy_stalled Writer) = false
  ∧ ∃ evs, Forall answered evs ∧ all_finished (sys_run 100 toy_stalled evs).
Proof.
  split; [vm_compute; reflexivity|].
  destruct (shutdown_completes 100 toy_world toy_stall) as (_ & _ & _ & Hex);
    [reflexivity..|vm_compute; reflexivity|exact Hex].
Defined.

(** The socket takes the next frame and never answers. *)
Definition toy_pinned : Sys (World (C := Chan)) Error TaskId :=
  sys_run 100 (spawn toy_world) (toy_events ++ toy_polls Writer 4).
Definition toy_wait : list (option Meanwhile) :=
  [None; None; None] ++ (Some <$> (Runs <$> concat ((λ t, toy_polls t 9) <$> all_tasks)))
  ++ concat (replicate 5 [None; Some Deadline; None]).

Abbreviation toy_left := (foldl (terminate_step 100) (terminate_channel 100, own toy_pinned) toy_wait).

Lemma terminate_then_drop_witness :
  finished (s_task (o_system toy_left.2) Writer) = false
  ∧ s_task (o_system (drop_channel 100 toy_left.2)) Writer = s_task (o_system toy_left.2) Writer.
Proof.
  split; [vm_compute; reflexivity|].
  refine (terminate_then_drop 100 toy_pinned toy_wait true _ Writer). vm_compute. reflexivity.
Defined.
End TeardownWitnesses.
