(* ===== verification/Shutdown.v ===== *)
(** * Cooperative cancellation (src/shutdown.rs)

    [ShutdownSignal] is an atomic latch and a [tokio::sync::Notify].  Setting the
    latch and waking the waiters are two actions, and so are the steps of
    [cancelled] (register, read the latch, await), so that another thread may run
    between any two of them.  The task of [install_signal_handlers] waits for the
    first operating-system signal. *)

From S2P Require Import Prelude Interfaces.

Section Shutdown.
Context {N : Type} `{Notify N}.

(** The calls in flight: [shutdown] past its swap, and [cancelled] past registering,
    past finding the latch clear, and returned. *)
Inductive signal_task :=
| Notifying
| Registered (i : nat)
| Awaiting (i : nat)
| Resolved.

Record ShutdownSignal := {
  triggered : bool;
  notify : N;
  callers : gmap nat signal_task }.

Definition ShutdownSignal_new : ShutdownSignal :=
  {| triggered := false; notify := notify_new; callers := ∅ |}.

(** [shutdown]: [swap] the latch; only the first caller goes on to notify. *)
Definition shutdown (t : nat) (s : ShutdownSignal) : ShutdownSignal :=
  {| triggered := true; notify := notify s;
     callers := if triggered s then callers s else <[t := Notifying]> (callers s) |}.

Definition is_shutdown (s : ShutdownSignal) : bool := triggered s.

(** [cancelled] up to and including [enable]. *)
Definition cancelled (t : nat) (s : ShutdownSignal) : ShutdownSignal :=
  let '(i, n) := enable (notify s) in
  {| triggered := triggered s; notify := n; callers := <[t := Registered i]> (callers s) |}.

(** Caller [t] takes its next action. *)
Definition resume (t : nat) (s : ShutdownSignal) : ShutdownSignal :=
  match callers s !! t with
  | Some Notifying =>
    {| triggered := triggered s; notify := notify_waiters (notify s);
       callers := delete t (callers s) |}
  | Some (Registered i) =>
    {| triggered := triggered s; notify := notify s;
       callers := <[t := if is_shutdown s then Resolved else Awaiting i]> (callers s) |}
  | Some (Awaiting i) =>
    if woken (notify s) i then
      {| triggered := triggered s; notify := notify s; callers := <[t := Resolved]> (callers s) |}
    else s
  | _ => s
  end.

(** [wait_timeout]: [Some true] once cancelled, [Some false] once the time is up. *)
Definition wait_timeout (t : nat) (elapsed : bool) (s : ShutdownSignal) : option bool :=
  match callers s !! t with
  | Some Resolved => Some true
  | _ => if elapsed then Some false else None
  end.

(** *** Operating-system signals *)

Inductive SignalKind := SIGINT | SIGTERM | SIGQUIT.

(** The spawned task: waiting for the first of the streams it could open, or over. *)
Inductive HandlerTask := Listening (streams : list SignalKind) | HandlerDone.

(** [install_signal_handlers] (unix), up to its await; [unix_signal] says which
    handlers can be installed. *)
Definition install_signal_handlers (unix_signal : SignalKind → bool) : HandlerTask :=
  match List.filter unix_signal [SIGINT; SIGTERM; SIGQUIT] with
  | [] => HandlerDone
  | streams => Listening streams
  end.

(** The stream of [k] yields: a signal arrived, or the stream ended, which is treated
    alike.  [t] names the call of [shutdown]. *)
Definition handler_poll (t : nat) (k : SignalKind) (h : HandlerTask) (s : ShutdownSignal)
  : HandlerTask * ShutdownSignal :=
  match h with
  | Listening streams =>
    if existsb (λ k', match k, k' with
                      | SIGINT, SIGINT | SIGTERM, SIGTERM | SIGQUIT, SIGQUIT => true
                      | _, _ => false
                      end) streams
    then (HandlerDone, shutdown t s) else (h, s)
  | HandlerDone => (HandlerDone, s)
  end.

Inductive signal_op := OpShutdown (t : nat) | OpCancelled (t : nat) | OpResume (t : nat).

Definition signal_step (s : ShutdownSignal) (o : signal_op) : ShutdownSignal :=
  match o with
  | OpShutdown t => if callers s !! t is Some _ then s else shutdown t s
  | OpCancelled t => if callers s !! t is Some _ then s else cancelled t s
  | OpResume t => resume t s
  end.

Definition signal_run (os : list signal_op) : ShutdownSignal :=
  foldl signal_step ShutdownSignal_new os.

(** ** No wake-up is lost *)

Definition notifying (s : ShutdownSignal) : Prop := ∃ t, callers s !! t = Some Notifying.

Record signal_inv (s : ShutdownSignal) : Prop := {
  si_registered : ∀ t i, callers s !! t = Some (Registered i) →
    woken (notify s) i = true ∨ enqueued (notify s) i = true;
  si_awaiting : ∀ t i, callers s !! t = Some (Awaiting i) →
    woken (notify s) i = true
    ∨ enqueued (notify s) i = true ∧ (triggered s = false ∨ notifying s);
  si_notifying : notifying s → triggered s = true;
  si_woken : ∀ i, woken (notify s) i = true → triggered s = true;
  si_resolved : ∀ t, callers s !! t = Some Resolved → triggered s = true }.

Context `{!NotifyOk N}.

Lemma notifying_insert s t k f n :
  callers s !! t ≠ Some Notifying → notifying s →
  notifying {| triggered := f; notify := n; callers := <[t := k]> (callers s) |}.
Proof.
  intros Hne [t' Ht']. exists t'. cbn. rewrite lookup_insert_ne; [done|congruence].
Qed.

Lemma notifying_back s t k f n :
  k ≠ Notifying →
  notifying {| triggered := f; notify := n; callers := <[t := k]> (callers s) |} → notifying s.
Proof.
  intros Hk [t' Ht']. exists t'. cbn in Ht'. rewrite lookup_insert in Ht'.
  destruct (decide (t = t')); congruence.
Qed.

Lemma signal_inv_shutdown s t :
  callers s !! t = None → signal_inv s → signal_inv (shutdown t s).
Proof.
  intros Ht [Hr Ha Hn Hw Hd]. unfold shutdown. destruct (triggered s) eqn:E.
  { by split. }
  split; cbn; try done; intros t' i; rewrite lookup_insert; destruct (decide _); try done.
  - apply Hr.
  - intros [?|[? _]]%Ha; [by left|]. right. split; [done|]. right. exists t.
    cbn. by rewrite lookup_insert_eq.
Qed.

Lemma signal_inv_cancelled s t :
  callers s !! t = None → signal_inv s → signal_inv (cancelled t s).
Proof.
  intros Ht [Hr Ha Hn Hw Hd]. unfold cancelled.
  pose proof (enable_enqueues (notify s)) as He. pose proof (enable_woken (notify s)) as Hk.
  pose proof (enable_enqueued (notify s)) as Hq.
  destruct (enable (notify s)) as [i0 n]. cbn in *.
  split; cbn.
  - intros t' i. rewrite lookup_insert. destruct (decide _) as [<-|].
    + intros [= <-]. by right.
    + rewrite Hk. intros [?|?]%Hr; auto.
  - intros t' i. rewrite lookup_insert. destruct (decide _) as [<-|]; [done|].
    intros Ht'. rewrite Hk. destruct (Ha t' i Ht') as [?|[? [?|?]]]; [by left| |];
      right; (split; [by apply Hq|]); [by left|right].
    apply notifying_insert; [by rewrite Ht|done].
  - intros Hx. apply Hn. by apply (notifying_back _ _ _ _ _ (ltac:(done) : Registered i0 ≠ Notifying) Hx).
  - intros i. rewrite Hk. apply Hw.
  - intros t'. rewrite lookup_insert. destruct (decide _); [done|]. apply Hd.
Qed.

Lemma signal_inv_resume s t : signal_inv s → signal_inv (resume t s).
Proof.
  intros Hi. pose proof Hi as [Hr Ha Hn Hw Hd]. unfold resume.
  destruct (callers s !! t) as [[|i|i|]|] eqn:Ht; try done.
  - assert (Htr : triggered s = true) by (apply Hn; by exists t).
    split; cbn; try done.
    + intros t' i. rewrite lookup_delete. destruct (decide _); [done|].
      intros [?|?]%Hr; left; [by apply notify_woken|by apply notify_wakes].
    + intros t' i. rewrite lookup_delete. destruct (decide _); [done|].
      intros [?|[? _]]%Ha; left; [by apply notify_woken|by apply notify_wakes].
  - unfold is_shutdown. split; cbn.
    + intros t' i'. rewrite lookup_insert. destruct (decide _); [by destruct (triggered s)|]. apply Hr.
    + intros t' i'. rewrite lookup_insert. destruct (decide _) as [<-|].
      * destruct (triggered s) eqn:E; [done|]. intros [= <-].
        destruct (Hr t i Ht) as [?|?]; auto.
      * intros [?|[? [?|?]]]%Ha; [by left|by auto|]. right. split; [done|]. right.
        apply notifying_insert; [by rewrite Ht|done].
    + intros Hx. apply Hn. eapply notifying_back; [|done]. by destruct (triggered s).
    + done.
    + intros t'. rewrite lookup_insert. destruct (decide _); [by destruct (triggered s)|]. apply Hd.
  - destruct (woken (notify s) i) eqn:E; [|done]. split; cbn.
    + intros t' i'. rewrite lookup_insert. destruct (decide _); [done|]. apply Hr.
    + intros t' i'. rewrite lookup_insert. destruct (decide _) as [<-|]; [done|].
      intros [?|[? [?|?]]]%Ha; [by left|by auto|]. right. split; [done|]. right.
      apply notifying_insert; [by rewrite Ht|done].
    + intros Hx. apply Hn. by apply (notifying_back _ _ _ _ _ (ltac:(done) : Resolved ≠ Notifying) Hx).
    + done.
    + intros t'. rewrite lookup_insert. destruct (decide _); [intros _; by eapply Hw|]. apply Hd.
Qed.

Lemma signal_inv_run os : signal_inv (signal_run os).
Proof.
  unfold signal_run. induction os as [|o os IH] using rev_ind.
  - split; cbn; try done.
    + by intros [t Ht].
    + intros i. by rewrite new_quiet.
  - rewrite foldl_snoc. destruct o as [t|t|t]; cbn [signal_step].
    + destruct (callers _ !! t) eqn:E; [done|]. by apply signal_inv_shutdown.
    + destruct (callers _ !! t) eqn:E; [done|]. by apply signal_inv_cancelled.
    + by apply signal_inv_resume.
Qed.

(** C34: no wake-up is lost and none is spurious.  However [shutdown] and
    [cancelled] interleave, a [cancelled] that returned did so because shutdown was
    triggered; and once it is triggered and the notification sent, every caller of
    [cancelled] returns the next time it runs, those that had read the latch just
    before it was set included. *)
Theorem cancelled_never_missed os t :
  let s := signal_run os in
  (callers s !! t = Some Resolved → is_shutdown s = true)
  ∧ (is_shutdown s = true → ¬ notifying s →
     ∀ i, callers s !! t = Some (Registered i) ∨ callers s !! t = Some (Awaiting i) →
     callers (resume t s) !! t = Some Resolved).
Proof.
  intros s. destruct (signal_inv_run os) as [Hr Ha Hn Hw Hd]. fold s in Hr, Ha, Hn, Hw, Hd.
  split; [apply Hd|]. intros Htr Hnn i [Ht|Ht]; unfold resume; rewrite Ht.
  - cbn. by rewrite Htr, lookup_insert_eq.
  - destruct (Ha t i Ht) as [->|[_ [Hf|?]]]; [|unfold is_shutdown in Htr; congruence|done].
    cbn. by rewrite lookup_insert_eq.
Qed.

(** The first signal whose handler could be installed triggers the shutdown, whichever
    others could not; the task is then over and later ones change nothing. *)
Theorem first_signal_shuts_down unix_signal ks t (s : ShutdownSignal) :
  let run := foldl (λ a k, handler_poll t k a.1 a.2) (install_signal_handlers unix_signal, s) ks in
  if existsb unix_signal ks
  then run.1 = HandlerDone ∧ run.2 = shutdown t s
  else run = (install_signal_handlers unix_signal, s).
Proof.
  assert (Hdone : ∀ ks s', foldl (λ a k, handler_poll t k a.1 a.2) (HandlerDone, s') ks
    = (HandlerDone, s')) by (intros l; induction l; auto).
  assert (Hp : ∀ k, handler_poll t k (install_signal_handlers unix_signal) s
    = if unix_signal k then (HandlerDone, shutdown t s)
      else (install_signal_handlers unix_signal, s)).
  { unfold install_signal_handlers. cbn [List.filter].
    destruct (unix_signal SIGINT) eqn:Ei, (unix_signal SIGTERM) eqn:Et,
      (unix_signal SIGQUIT) eqn:Eq; intros []; cbn; by rewrite ?Ei, ?Et, ?Eq. }
  cbv zeta. induction ks as [|k ks IH]; [done|]. cbn [foldl existsb]. cbn [fst snd].
  rewrite Hp. destruct (unix_signal k); cbn [orb]; [by rewrite Hdone|apply IH].
Qed.
End Shutdown.

(** A waiter registers and reads the latch before it is set, and is woken. *)
Lemma cancelled_never_missed_witness :
  let s := signal_run (N := Bell)
    [OpCancelled 0; OpResume 0; OpShutdown 1; OpResume 0; OpResume 1] in
  callers (resume 0 s) !! 0%nat = Some Resolved.
Proof.
  destruct (cancelled_never_missed (N := Bell)
    [OpCancelled 0; OpResume 0; OpShutdown 1; OpResume 0; OpResume 1] 0) as [_ Hc].
  apply (Hc eq_refl) with (i := 0%nat).
  - intros [t Ht]. apply elem_of_map_to_list in Ht. vm_compute in Ht.
    apply list_elem_of_singleton in Ht. discriminate Ht.
  - right. vm_compute. reflexivity.
Defined.
