(* ===== verification/Wakeups.v ===== *)
(** * Waiting for a session (src/session.rs, src/connection.rs)

    A session wakes those who wait for it with three [Notify]s next to its flags: it
    is closed, it may be sent to, an acknowledgement made room.  [Session] and
    [Connection] treat each await as waiting for a condition.  Here the flag and the
    notification are separate, as in the source: changing a flag and notifying are
    two steps, and so are registering, checking and parking, with other threads
    between any two of them.

    [sg_owing] and [sg_tracked] are read by nothing: who changed something and has
    not notified yet, and what was tracked. *)

From S2P Require Import Prelude RustStd Errors Interfaces Coroutine BinaryProtocol Ack Channels.
From S2P Require Import Documents Session.

(** The notifiers of a [SessionCore]. *)
Inductive Notice := NClosed | NSendable | NAck.
#[export] Instance Notice_eq_dec : EqDecision Notice.
Proof. solve_decision. Defined.

(** The calls: those that change the session, and those that wait for it. *)
Inductive Call :=
| Closing (r : CloseReason)
| Publishing (b : bool)
| Acknowledging (seq : Z)
| AwaitClosed
| AwaitSendable
| AwaitRoom (wire : list byte) (seq : Z).

Section Wakeups.
Context {C : Type → Type} `{Mpsc C} {N : Type} `{Notify N}.

Record Signals := {
  sg_core : SessionCore (C := C);
  sendable_notify : N;
  closed_notify : N;
  ack_notify : N;
  sg_now : Z;
  sg_tracked : list Z;
  sg_owing : list (nat * Notice) }.

Abbreviation Io := (Prog Signals Error).

Definition with_core (s : Signals) (c : SessionCore (C := C)) : Signals :=
  {| sg_core := c; sendable_notify := sendable_notify s; closed_notify := closed_notify s;
     ack_notify := ack_notify s; sg_now := sg_now s; sg_tracked := sg_tracked s;
     sg_owing := sg_owing s |}.
Definition with_owing (s : Signals) (l : list (nat * Notice)) : Signals :=
  {| sg_core := sg_core s; sendable_notify := sendable_notify s; closed_notify := closed_notify s;
     ack_notify := ack_notify s; sg_now := sg_now s; sg_tracked := sg_tracked s; sg_owing := l |}.
Definition with_tracked (s : Signals) (l : list Z) : Signals :=
  {| sg_core := sg_core s; sendable_notify := sendable_notify s; closed_notify := closed_notify s;
     ack_notify := ack_notify s; sg_now := sg_now s; sg_tracked := l; sg_owing := sg_owing s |}.
Definition with_now (s : Signals) (t : Z) : Signals :=
  {| sg_core := sg_core s; sendable_notify := sendable_notify s; closed_notify := closed_notify s;
     ack_notify := ack_notify s; sg_now := t; sg_tracked := sg_tracked s; sg_owing := sg_owing s |}.

Definition notice (b : Notice) (s : Signals) : N :=
  match b with
  | NClosed => closed_notify s
  | NSendable => sendable_notify s
  | NAck => ack_notify s
  end.
Definition with_notice (s : Signals) (b : Notice) (n : N) : Signals :=
  {| sg_core := sg_core s;
     sendable_notify := if decide (b = NSendable) then n else sendable_notify s;
     closed_notify := if decide (b = NClosed) then n else closed_notify s;
     ack_notify := if decide (b = NAck) then n else ack_notify s;
     sg_now := sg_now s; sg_tracked := sg_tracked s; sg_owing := sg_owing s |}.

Definition owe (me : nat) (bs : list Notice) (s : Signals) : Signals :=
  with_owing s (((me,.) <$> bs) ++ sg_owing s).
Definition settle (me : nat) (b : Notice) (s : Signals) : Signals :=
  with_owing s (filter (.≠ (me, b)) (sg_owing s)).

(** [closed.swap(true)] and the two writes that follow it. *)
Definition mark_closed (c : SessionCore (C := C)) : SessionCore :=
  {| session_id := session_id c; fanout := fanout c; subscriber_capacity := subscriber_capacity c;
     sendable := sendable c; core_closed := true; close_reason := close_reason c;
     continuity := continuity c; agent_version := agent_version c; banner := banner c;
     exit_code := exit_code c |}.
Definition publish (r : CloseReason) (c : SessionCore (C := C)) : SessionCore :=
  {| session_id := session_id c; fanout := fanout c; subscriber_capacity := subscriber_capacity c;
     sendable := sendable c; core_closed := core_closed c; close_reason := Some r;
     continuity := continuity c; agent_version := agent_version c; banner := banner c;
     exit_code := exit_code c |}.

(** ** Those who change the session *)

(** [notify_waiters]. *)
Definition ring (me : nat) (b : Notice) : Io () :=
  modify (λ s, settle me b (with_notice s b (notify_waiters (notice b s)))).

(** [SessionCore::close]. *)
Definition close (me : nat) (r : CloseReason) : Io bool :=
  was ← act (λ s, let c := sg_core s in
                  (core_closed c,
                   if core_closed c then s
                   else owe me [NClosed; NSendable; NAck] (with_core s (mark_closed c))));
  if was : bool then mret false
  else
    _ ← modify (λ s, with_core s (publish r (sg_core s)));
    _ ← modify (λ s, with_core s (set_fanout (sg_core s) (Channels.close (fanout (sg_core s)))));
    _ ← ring me NClosed;
    _ ← ring me NSendable;
    _ ← ring me NAck;
    mret false.

(** [SessionCore::set_sendable]. *)
Definition set_sendable (me : nat) (b : bool) : Io bool :=
  previous ← act (λ s, let c := sg_core s in
                       let s' := with_core s (Session.set_sendable b c) in
                       (sendable c, if b && negb (sendable c) then owe me [NSendable] s' else s'));
  if b && negb previous then _ ← ring me NSendable; mret false else mret false.

Definition set_buffer (c : SessionCore (C := C)) (b : OutgoingBuffer) : SessionCore :=
  let k := continuity c in
  set_continuity c {| next_sequence := next_sequence k; outgoing := b; expected := expected k;
                      incoming := incoming k; cipher := cipher k |}.

(** The acknowledgement branch of [route]: [outgoing.acknowledge], then [notify_ack] if
    it retired something. *)
Definition acknowledge (me : nat) (seq : Z) : Io bool :=
  Step (λ s,
    let c := sg_core s in
    match Ack.acknowledge (sg_now s) seq (outgoing (continuity c)) with
    | Done (true, b) =>
      Some (_ ← ring me NAck; mret false, owe me [NAck] (with_core s (set_buffer c b)))
    | Done (false, b) => Some (mret false, with_core s (set_buffer c b))
    | Panicked => Some (Crash, s)
    end).

(** ** Those who wait *)

(** [notified()] and [enable()]. *)
Definition register (b : Notice) : Io nat :=
  act (λ s, let '(i, n) := enable (notice b s) in (i, with_notice s b n)).
Definition is_closed : Io bool := gets (λ s, core_closed (sg_core s)).
Definition is_sendable : Io bool := gets (λ s, sendable (sg_core s)).

(** [notified.await]. *)
Definition notified (b : Notice) (i : nat) : Io () :=
  wait (λ s, if woken (notice b s) i then Some (Ok (), s) else None).

(** [SessionCore::closed]. *)
Definition closed : Io bool :=
  i ← register NClosed;
  over ← is_closed;
  if over : bool then mret false else _ ← notified NClosed i; mret false.

(** A round of the loop of [SessionCore::wait_sendable]. *)
Definition wait_sendable : Io bool :=
  i ← register NSendable;
  ready ← is_sendable;
  if ready : bool then mret false
  else
    over ← is_closed;
    if over : bool then mret false else _ ← notified NSendable i; mret true.

(** A round of the loop of [send_payload]: [ack_notified], then [track], then the two
    futures of the [select!], [closed()] polled first. *)
Definition wait_room (wire : list byte) (seq : Z) : Io bool :=
  acked ← register NAck;
  tracked ← act (λ s,
    let c := sg_core s in
    let '(done, b) := track (sg_now s) wire seq (outgoing (continuity c)) in
    (done, if done : bool
           then with_tracked (with_core s (set_buffer c b)) (seq :: sg_tracked s) else s));
  if tracked : bool then mret false
  else
    i ← register NClosed;
    over ← is_closed;
    if over : bool then mret false
    else wait (λ s, if woken (closed_notify s) i then Some (Ok false, s)
                    else if woken (ack_notify s) acked then Some (Ok true, s) else None).

Context (role : nat → Call).

Definition body (i : nat) : Io bool :=
  match role i with
  | Closing r => close i r
  | Publishing b => set_sendable i b
  | Acknowledging seq => acknowledge i seq
  | AwaitClosed => closed
  | AwaitSendable => wait_sendable
  | AwaitRoom wire seq => wait_room wire seq
  end.

(** Only a future can be dropped before it returns. *)
Definition waits (c : Call) : bool :=
  match c with AwaitClosed | AwaitSendable | AwaitRoom _ _ => true | _ => false end.

(** A call that has not begun is like one that was dropped. *)
Inductive Happening := Begin (i : nat) | Poll (i : nat) | Forget (i : nat) | Tick (t : Z).

Abbreviation System := (Sys Signals Error nat).

Definition at_rest (c : SessionCore (C := C)) : System :=
  {| s_world := {| sg_core := c; sendable_notify := notify_new; closed_notify := notify_new;
                   ack_notify := notify_new; sg_now := 0; sg_tracked := []; sg_owing := [] |};
     s_task := λ _, Aborted |}.

Definition signals_step (x : System) (h : Happening) : System :=
  match h with
  | Begin i =>
    if s_task x i is Aborted
    then {| s_world := s_world x; s_task := upd_task (s_task x) i at_head |} else x
  | Poll i => poll body i x
  | Forget i =>
    if waits (role i)
    then {| s_world := s_world x; s_task := upd_task (s_task x) i Aborted |} else x
  | Tick t => {| s_world := with_now (s_world x) t; s_task := s_task x |}
  end.
Definition signals_run (x : System) (hs : list Happening) : System := foldl signals_step x hs.

(** No call can go on by itself. *)
Definition quiescent (x : System) : Prop := ∀ i, steps (body i) (s_task x i) (s_world x) = false.

(** ** No wake-up is lost *)

Context `{!NotifyOk N}.
Implicit Types (s : Signals) (b : Notice).

(** What a call may find not to be the case, and which notifiers tell that it now
    is. *)
Inductive Flag := FClosed | FSendable | FRoom.
Definition off (f : Flag) s : Prop :=
  match f with
  | FClosed => core_closed (sg_core s) = false
  | FSendable => sendable (sg_core s) = false
  | FRoom => let b := outgoing (continuity (sg_core s)) in capacity b ≤ #(pending b)
  end.
Definition tells (f : Flag) b : Prop :=
  match f with FClosed => True | FSendable => b = NSendable | FRoom => b = NAck end.
Definition owed b s : Prop := ∃ j, (j, b) ∈ sg_owing s.

(** A registration: it was notified, or will be once something it checked changes. *)
Record Reg := { r_notice : Notice; r_waiter : nat; r_checked : list Flag }.
Definition reg_ok s (r : Reg) : Prop :=
  woken (notice (r_notice r) s) (r_waiter r) = true
  ∨ enqueued (notice (r_notice r) s) (r_waiter r) = true
    ∧ ∀ f, f ∈ r_checked r → tells f (r_notice r) ∧ (off f s ∨ owed (r_notice r) s).

(** What a call knows: its registrations, the notifications it owes, that the session
    is closed, that the reason is published, what it has tracked. *)
Record Known := {
  k_regs : list Reg; k_owes : list Notice; k_over : bool; k_said : bool; k_done : option Z }.
Definition nothing : Known :=
  {| k_regs := []; k_owes := []; k_over := false; k_said := false; k_done := None |}.
Definition owes (over said : bool) (bs : list Notice) : Known :=
  {| k_regs := []; k_owes := bs; k_over := over; k_said := said; k_done := None |}.
Definition holds (rs : list Reg) : Known :=
  {| k_regs := rs; k_owes := []; k_over := false; k_said := false; k_done := None |}.

(** Who was notified of the close can read why, and who will be is still to be
    notified. *)
Definition told s : Prop :=
  (core_closed (sg_core s) = true → owed NClosed s ∨ is_Some (close_reason (sg_core s)))
  ∧ ∀ w, woken (closed_notify s) w = true →
      core_closed (sg_core s) = true ∧ is_Some (close_reason (sg_core s)).

Record knows (i : nat) (k : Known) s : Prop := {
  kn_told : told s;
  kn_owes b : (i, b) ∈ sg_owing s ↔ b ∈ k_owes k;
  kn_regs : Forall (reg_ok s) (k_regs k);
  kn_over : k_over k = true → core_closed (sg_core s) = true;
  kn_said : k_said k = true → is_Some (close_reason (sg_core s));
  kn_done seq : k_done k = Some seq → seq ∈ sg_tracked s;
  kn_waits : waits (role i) = true → k_owes k = [] }.

(** A step of call [i]. *)
Record evolves (i : nat) s s' : Prop := {
  ev_owing j b : j ≠ i → (j, b) ∈ sg_owing s' ↔ (j, b) ∈ sg_owing s;
  ev_closed : core_closed (sg_core s) = true → core_closed (sg_core s') = true;
  ev_said : is_Some (close_reason (sg_core s)) → is_Some (close_reason (sg_core s'));
  ev_tracked seq : seq ∈ sg_tracked s → seq ∈ sg_tracked s';
  ev_woken b w : woken (notice b s) w = true → woken (notice b s') w = true;
  ev_reg b w : enqueued (notice b s) w = true →
    woken (notice b s') w = true
    ∨ enqueued (notice b s') w = true
      ∧ ∀ f, tells f b → off f s ∨ owed b s → off f s' ∨ owed b s';
  ev_told : told s → told s' }.

Lemma evolves_reg i s s' r : evolves i s s' → reg_ok s r → reg_ok s' r.
Proof.
  intros He [Hw|[Hq Hf]]; [left; by apply (ev_woken _ _ _ He)|].
  destruct (ev_reg _ _ _ He _ _ Hq) as [?|[? Hs]]; [by left|]. right. split; [done|].
  intros f Hin. destruct (Hf f Hin) as [Ht Ho]. split; [done|]. by apply Hs.
Qed.

Lemma evolves_others i j k s s' : evolves i s s' → j ≠ i → knows j k s → knows j k s'.
Proof.
  intros He Hne [Ht Ho Hr Hc Hs Hd Hw]. split; [..|exact Hw].
  - by apply (ev_told _ _ _ He).
  - intros b. rewrite (ev_owing _ _ _ He) by done. apply Ho.
  - eapply Forall_impl; [exact Hr|]. intros r. by eapply evolves_reg.
  - intros Hx. by apply (ev_closed _ _ _ He), Hc.
  - intros Hx. by apply (ev_said _ _ _ He), Hs.
  - intros seq Hx. by apply (ev_tracked _ _ _ He), Hd.
Qed.

(** The caller's own knowledge after a step: what it had, and what is new. *)
Lemma evolves_guarantee i k k' s s' :
  evolves i s s' → knows i k s →
  (∀ b, (i, b) ∈ sg_owing s' ↔ b ∈ k_owes k') →
  Forall (λ r, r ∈ k_regs k ∨ reg_ok s' r) (k_regs k') →
  (k_over k' = true → k_over k = true ∨ core_closed (sg_core s') = true) →
  (k_said k' = true → k_said k = true ∨ is_Some (close_reason (sg_core s'))) →
  (∀ seq, k_done k' = Some seq → seq ∈ sg_tracked s') →
  (waits (role i) = true → k_owes k' = []) →
  guarantee knows i k s k' s'.
Proof.
  intros He Hk Ho Hr Hc Hs Hd Hw. split; [|intros j kj Hne; by eapply evolves_others].
  destruct Hk as [Ht _ Hr0 Hc0 Hs0 _ _]. split; auto.
  - by apply (ev_told _ _ _ He).
  - eapply Forall_impl; [exact Hr|]. intros r [Hin|?]; [|done]. eapply evolves_reg; [done|].
    by apply (proj1 (Forall_forall _ _) Hr0).
  - intros [?|?]%Hc; [|done]. by apply (ev_closed _ _ _ He), Hc0.
  - intros [?|?]%Hs; [|done]. by apply (ev_said _ _ _ He), Hs0.
Qed.

Lemma evolves_refl i s : evolves i s s.
Proof. split; auto. Qed.

Lemma notice_with s b n b' :
  notice b' (with_notice s b n) = if decide (b = b') then n else notice b' s.
Proof. by destruct b, b'. Qed.

Lemma off_notice f s b n : off f (with_notice s b n) ↔ off f s.
Proof. by destruct f. Qed.

Lemma owed_notice b s b' n : owed b (with_notice s b' n) ↔ owed b s.
Proof. done. Qed.

Lemma evolves_register me b s : evolves me s (with_notice s b (enable (notice b s)).2).
Proof.
  split; try done.
  - intros b' w Hw. rewrite notice_with. destruct (decide (b = b')) as [->|]; [|done].
    by rewrite enable_woken.
  - intros b' w Hw. right. rewrite notice_with. split.
    + destruct (decide (b = b')) as [->|]; [by apply enable_enqueued|done].
    + intros f _. by rewrite off_notice.
  - intros [Ht Hk]. split; [exact Ht|]. intros w Hw. apply (Hk w).
    change (closed_notify (with_notice ?s ?b ?n)) with (notice NClosed (with_notice s b n)) in Hw.
    rewrite notice_with in Hw. destruct (decide (b = NClosed)) as [->|]; [|done].
    by rewrite enable_woken in Hw.
Qed.

Lemma elem_owe j b me bs s :
  (j, b) ∈ sg_owing (owe me bs s) ↔ j = me ∧ b ∈ bs ∨ (j, b) ∈ sg_owing s.
Proof.
  cbn. rewrite elem_of_app, list_elem_of_fmap. naive_solver.
Qed.

(** A change of the core, and the notifications it calls for. *)
Lemma evolves_core me bs s c :
  let s' := owe me bs (with_core s c) in
  (core_closed (sg_core s) = true → core_closed c = true) →
  (core_closed c = true → core_closed (sg_core s) = true ∨ NClosed ∈ bs) →
  (is_Some (close_reason (sg_core s)) → is_Some (close_reason c)) →
  (∀ f b, tells f b → off f s → off f s' ∨ b ∈ bs) → evolves me s s'.
Proof.
  intros s' Hc Hc' Hr Hf.
  assert (Howed : ∀ b, owed b s → owed b s').
  { intros b [j Hj]. exists j. apply elem_owe. by right. }
  assert (Hnew : ∀ b, b ∈ bs → owed b s').
  { intros b Hb. exists me. apply elem_owe. by left. }
  split; try done.
  - intros j b Hne. unfold s'. rewrite elem_owe. naive_solver.
  - intros b w Hw. right. split; [done|]. intros f Ht [Ho|Ho]; [|auto].
    destruct (Hf f b Ht Ho); auto.
  - intros [Ht Hk]. split.
    + intros Hcl. destruct (Hc' Hcl) as [Hcs|]; [|auto]. destruct (Ht Hcs); auto.
    + intros w Hw. destruct (Hk w Hw). auto.
Qed.

Lemma elem_settle j b me b' s :
  (j, b) ∈ sg_owing (settle me b' s) ↔ (j, b) ≠ (me, b') ∧ (j, b) ∈ sg_owing s.
Proof. cbn. by rewrite list_elem_of_filter. Qed.

Lemma evolves_ring me b s :
  (b = NClosed → core_closed (sg_core s) = true ∧ is_Some (close_reason (sg_core s))) →
  evolves me s (settle me b (with_notice s b (notify_waiters (notice b s)))).
Proof.
  intros Hb. set (s' := settle _ _ _).
  assert (Hn : ∀ b', notice b' s' = if decide (b = b') then notify_waiters (notice b s) else notice b' s)
    by (intros b'; apply (notice_with s)).
  assert (Howed : ∀ b', b ≠ b' → owed b' s → owed b' s').
  { intros b' Hne [j Hj]. exists j. apply elem_settle. split; [congruence|done]. }
  split; try done.
  - intros j b' Hne. unfold s'. rewrite elem_settle. naive_solver.
  - intros b' w Hw. rewrite Hn. destruct (decide (b = b')) as [->|]; [by apply notify_woken|done].
  - intros b' w Hw. rewrite Hn. destruct (decide (b = b')) as [->|Hne].
    + left. by apply notify_wakes.
    + right. split; [done|]. intros f _ [Ho|Ho]; [by left; destruct f|right; auto].
  - intros [Ht Hk]. split.
    + intros Hcl. destruct (decide (b = NClosed)) as [->|Hne]; [right; by apply Hb|].
      destruct (Ht Hcl); auto.
    + intros w Hw. destruct (decide (b = NClosed)) as [->|Hne]; [by apply Hb|]. apply (Hk w).
      change (closed_notify s') with (notice NClosed s') in Hw. rewrite Hn in Hw.
      by rewrite decide_False in Hw.
Qed.

(** *** The calls *)

(** Why a call waits.  One that owes a notification never does. *)
Definition stuck (i : nat) (k : Known) s : Prop :=
  k_owes k = [] ∧
  match role i with
  | AwaitClosed => off FClosed s ∨ owed NClosed s
  | AwaitSendable => (off FClosed s ∨ owed NSendable s) ∧ (off FSendable s ∨ owed NSendable s)
  | AwaitRoom _ _ => (off FClosed s ∨ owed NClosed s) ∧ (off FRoom s ∨ owed NAck s)
  | _ => False
  end.
Definition idle (i : nat) (k : Known) : Prop := k_owes k = [].
Definition returned (i : nat) (k : Known) : Prop :=
  k_owes k = [] ∧
  match role i with
  | AwaitClosed => k_over k = true
  | AwaitRoom _ seq => k_over k = true ∨ k_done k = Some seq
  | _ => True
  end.

Abbreviation wp i := (wp (E := Error) (knows i%nat) (guarantee knows i%nat) (stuck i%nat)
                        (idle i%nat)).

Lemma wp_ring i b bs over said Q :
  b ∉ bs → (b = NClosed → over = true ∧ said = true) →
  Q (Ok ()) (owes over said bs) → wp i (ring i b) Q (owes over said (b :: bs)).
Proof.
  intros Hb Hsaid HQ. apply wp_modify. intros s Hs. exists (owes over said bs). split; [|done].
  eapply evolves_guarantee; [apply evolves_ring|exact Hs|..]; cbn; try done; auto.
  - intros ->. destruct (Hsaid eq_refl) as [-> ->]. split; [by apply (kn_over _ _ _ Hs)|].
    by apply (kn_said _ _ _ Hs).
  - intros b'. change (filter _ _) with (sg_owing (settle i b s)). rewrite elem_settle.
    rewrite (kn_owes _ _ _ Hs). cbn. rewrite elem_of_cons. split; [|set_solver].
    intros [Hne [->|?]]; [by destruct Hne|done].
  - intros Hw. discriminate (kn_waits _ _ _ Hs Hw).
Qed.

Lemma wp_register i b rs Q :
  (∀ w, Q (Ok w) (holds ({| r_notice := b; r_waiter := w; r_checked := [] |} :: rs))) →
  wp i (register b) Q (holds rs).
Proof.
  intros HQ. apply wp_act. intros s Hs. pose proof (evolves_register i b s) as He.
  pose proof (enable_enqueues (notice b s)) as Hq. destruct (enable (notice b s)) as [w n].
  exists (holds ({| r_notice := b; r_waiter := w; r_checked := [] |} :: rs)). split; [|apply HQ].
  eapply evolves_guarantee; [exact He| |..]; cbn; auto; try done.
  - apply (kn_owes _ _ _ Hs).
  - constructor; [|apply Forall_forall; auto]. right. right. cbn. rewrite notice_with, decide_True by done.
    split; [done|]. by intros f ?%elem_of_nil.
Qed.

Definition check (f : Flag) (r : Reg) : Reg :=
  {| r_notice := r_notice r; r_waiter := r_waiter r; r_checked := f :: r_checked r |}.

(** Reading a flag: what it says holds, or will be told. *)
Lemma wp_check i (g : Signals → bool) f rs k Q :
  (∀ s, g s = false → off f s) → Forall (λ r, tells f (r_notice r)) rs →
  (∀ s, g s = true → k_over k = true → core_closed (sg_core s) = true) →
  k_owes k = [] → k_regs k = [] → k_said k = false → k_done k = None →
  Q (Ok true) k → Q (Ok false) (holds (check f <$> rs)) → wp i (gets g) Q (holds rs).
Proof.
  intros Hg Ht Hk Hk1 Hk2 Hk3 Hk4 HQt HQf. apply wp_gets. intros s Hs. destruct (g s) eqn:Eg.
  - exists k. split; [|done]. eapply evolves_guarantee; [apply evolves_refl|done|..].
    + rewrite Hk1. apply (kn_owes _ _ _ Hs).
    + by rewrite Hk2.
    + right. by apply Hk.
    + by rewrite Hk3.
    + by rewrite Hk4.
    + done.
  - exists (holds (check f <$> rs)). split; [|done].
    eapply evolves_guarantee; [apply evolves_refl|done|..]; cbn; try done; auto.
    + apply (kn_owes _ _ _ Hs).
    + apply Forall_fmap, Forall_forall. intros r Hr. right.
      destruct (proj1 (Forall_forall _ _) (kn_regs _ _ _ Hs) r Hr) as [Hw|[Hq Hf]]; [by left|].
      right. split; [done|]. intros f' [->|Hf']%elem_of_cons; [|by apply Hf].
      split; [by apply (proj1 (Forall_forall _ _) Ht r Hr)|left; auto].
Qed.

(** Parking: once notified a call knows what the notifier says. *)
Lemma wp_notified i b w fs Q :
  (∀ s, (∀ f, f ∈ fs → off f s ∨ owed b s) → stuck i nothing s) →
  Q (Ok ()) (owes (bool_decide (b = NClosed)) false []) →
  wp i (notified b w) Q (holds [{| r_notice := b; r_waiter := w; r_checked := fs |}]).
Proof.
  intros Hst HQ. apply wp_wait. intros s Hs.
  pose proof (Forall_inv (kn_regs _ _ _ Hs)) as Hr.
  destruct (woken (notice b s) w) eqn:Ew; [|apply (Hst s)].
  2: { destruct Hr as [Hr|[_ Hr]]; [cbn in Hr; congruence|]. intros f Hf. by apply Hr. }
  exists (owes (bool_decide (b = NClosed)) false []). split.
  - eapply evolves_guarantee; [apply evolves_refl|exact Hs|..]; cbn; try done; auto.
    + apply (kn_owes _ _ _ Hs).
    + intros ->%bool_decide_eq_true. right. by apply (proj2 (kn_told _ _ _ Hs) w).
  - exact HQ.
Qed.

Abbreviation fine i := (body_fine body knows stuck idle (λ _ k, k = nothing) returned idle i%nat).

Lemma close_fine i r : role i = Closing r → fine i.
Proof.
  intros Hr k ->. unfold task_fine, task_ok. unfold body. rewrite Hr. unfold close.
  apply wp_bind, wp_act. intros s Hs. destruct (core_closed (sg_core s)) eqn:Ec; cbn [fst snd].
  { exists nothing. split; [by split|]. split; [done|]. by rewrite Hr. }
  exists (owes true false [NClosed; NSendable; NAck]). split.
  { eapply evolves_guarantee; [apply evolves_core|exact Hs|..]; cbn; try done; auto.
    - intros _. right. set_solver.
    - intros f b _ _. right. destruct b; set_solver.
    - intros b. change (_ :: _ :: _ :: sg_owing s)
        with (sg_owing (owe i [NClosed; NSendable; NAck] s)). rewrite elem_owe, (kn_owes _ _ _ Hs).
      cbn. set_solver.
    - by rewrite Hr. }
  assert (Hcore : ∀ f said said' Q, (∀ s, core_closed (f (sg_core s)) = core_closed (sg_core s)
      ∧ sendable (f (sg_core s)) = sendable (sg_core s)
      ∧ continuity (f (sg_core s)) = continuity (sg_core s)
      ∧ (is_Some (close_reason (sg_core s)) → is_Some (close_reason (f (sg_core s))))
      ∧ (said' = true → said = true ∨ is_Some (close_reason (f (sg_core s))))) →
    Q (Ok ()) (owes true said' [NClosed; NSendable; NAck]) →
    wp i (modify (λ s, with_core s (f (sg_core s)))) Q (owes true said [NClosed; NSendable; NAck])).
  { clear. intros f said said' Q Hf HQ. apply wp_modify. intros s Hs. destruct (Hf s) as (Hc & Hse & Hco & Hre & Hsa).
    exists (owes true said' [NClosed; NSendable; NAck]). split; [|done].
    eapply evolves_guarantee; [apply (evolves_core i [] s (f (sg_core s)))|exact Hs|..]; cbn; auto.
    - by rewrite Hc.
    - rewrite Hc. auto.
    - intros [] b _; cbn; rewrite ?Hc, ?Hse, ?Hco; auto.
    - apply (kn_owes _ _ _ Hs).
    - done.
    - intros Hw. discriminate (kn_waits _ _ _ Hs Hw). }
  apply wp_bind, (Hcore (publish r) false true).
  { intros s'. split_and!; eauto. }
  apply wp_bind, (Hcore (λ c, set_fanout c (Channels.close (fanout c))) true true).
  { intros s'. split_and!; auto. }
  apply wp_bind, wp_ring; [set_solver|done|]. apply wp_bind, wp_ring; [set_solver|done|].
  apply wp_bind, wp_ring; [set_solver|done|]. split; [done|]. by rewrite Hr.
Qed.

Lemma set_sendable_fine i (b : bool) : role i = Publishing b → fine i.
Proof.
  intros Hr k ->. unfold task_fine, task_ok, body. rewrite Hr. unfold set_sendable.
  assert (Hend : ∀ k, k_owes k = [] → returned i k) by (intros ??; split; [done|by rewrite Hr]).
  apply wp_bind, wp_act. intros s Hs. set (c := sg_core s).
  set (bs := if b && negb (sendable c) then [NSendable] else []).
  exists (owes false false bs). split.
  - assert (Heq : (if b && negb (sendable c) then owe i [NSendable] (with_core s (Session.set_sendable b c))
                   else with_core s (Session.set_sendable b c))
                  = owe i bs (with_core s (Session.set_sendable b c)))
      by (subst bs; by destruct (_ && _)).
    cbn [snd]. rewrite Heq. eapply evolves_guarantee; [apply evolves_core|exact Hs|..]; try done; auto.
    + intros [] b' Ht Ho; [by left| |by left]. cbn in Ht. subst b'. cbn in Ho |- *. fold c in Ho.
      subst bs. rewrite Ho. destruct b; cbn; [right; set_solver|by left].
    + intros b'. rewrite elem_owe. cbn. rewrite (kn_owes _ _ _ Hs). set_solver.
    + by rewrite Hr.
  - cbn [fst]. subst bs. destruct (b && negb (sendable c)); [|by apply Hend].
    apply wp_bind, wp_ring; [set_solver|done|]. by apply Hend.
Qed.

Lemma acknowledge_same now seq (b b' : OutgoingBuffer) : Ack.acknowledge now seq b = Done (false, b') → b' = b.
Proof.
  unfold Ack.acknowledge. destruct (list_find _ _) as [[n e]|]; [|by intros [= <-]].
  destruct (attempts e =? 1); [|done]. by destruct (record _ _).
Qed.

Lemma acknowledge_fine i seq : role i = Acknowledging seq → fine i.
Proof.
  intros Hr k ->. unfold task_fine, task_ok, body. rewrite Hr. unfold acknowledge.
  intros s Hs. cbv beta zeta.
  assert (Hend : ∀ k, k_owes k = [] → returned i k) by (intros ??; split; [done|by rewrite Hr]).
  destruct (Ack.acknowledge _ _ _) as [[[] b]|] eqn:Ea.
  - exists (owes false false [NAck]). split.
    + eapply evolves_guarantee; [apply evolves_core|exact Hs|..]; try done; auto.
      * intros [] b' Ht Ho; [by left..|]. cbn in Ht. subst b'. right. set_solver.
      * intros b'. rewrite elem_owe. cbn. rewrite (kn_owes _ _ _ Hs). set_solver.
      * by rewrite Hr.
    + apply wp_bind, wp_ring; [set_solver|done|]. by apply Hend.
  - exists nothing. split; [|by apply Hend]. apply acknowledge_same in Ea as ->.
    eapply evolves_guarantee; [apply (evolves_core i [])|exact Hs|..]; try done; auto.
    apply (kn_owes _ _ _ Hs).
  - exists nothing. split; [by split|]. done.
Qed.

Lemma closed_fine i : role i = AwaitClosed → fine i.
Proof.
  intros Hr k ->. unfold task_fine, task_ok, body. rewrite Hr. unfold closed.
  assert (Hend : ∀ k, k_owes k = [] → k_over k = true → returned i k)
    by (intros ???; split; [done|by rewrite Hr]).
  apply wp_bind, (wp_register i NClosed []). intros w.
  apply wp_bind, (wp_check i _ FClosed _ (owes true false [])); try done.
  { by constructor. }
  { by apply Hend. }
  apply wp_bind, wp_notified.
  - intros s Hf. split; [done|]. rewrite Hr. by apply Hf, list_elem_of_here.
  - by apply Hend.
Qed.

Lemma sendable_fine i : role i = AwaitSendable → fine i.
Proof.
  intros Hr k ->. unfold task_fine, task_ok, body. rewrite Hr. unfold wait_sendable.
  assert (Hend : ∀ k, k_owes k = [] → returned i k) by (intros ??; split; [done|by rewrite Hr]).
  apply wp_bind, (wp_register i NSendable []). intros w.
  apply wp_bind, (wp_check i _ FSendable _ nothing); try done.
  { by constructor. }
  { by apply Hend. }
  apply wp_bind, (wp_check i _ FClosed _ (owes true false [])); try done.
  { by constructor. }
  { by apply Hend. }
  apply wp_bind, wp_notified.
  - intros s Hf. split; [done|]. rewrite Hr. split; apply Hf; set_solver.
  - done.
Qed.

Lemma evolves_tracked i seq s s' :
  evolves i s s' → evolves i s (with_tracked s' (seq :: sg_tracked s')).
Proof.
  intros [Ho Hc Hs Ht Hw Hr Htd]. split; auto.
  intros x Hx. right. by apply Ht.
Qed.

Lemma room_fine i wire seq : role i = AwaitRoom wire seq → fine i.
Proof.
  intros Hr k ->. unfold task_fine, task_ok, body. rewrite Hr. unfold wait_room.
  assert (Hend : ∀ k, k_owes k = [] → k_over k = true ∨ k_done k = Some seq → returned i k)
    by (intros ???; split; [done|by rewrite Hr]).
  apply wp_bind, (wp_register i NAck []). intros w. apply wp_bind, wp_act. intros s Hs.
  destruct (track (sg_now s) wire seq (outgoing (continuity (sg_core s)))) as [[] b] eqn:Et;
    cbn [fst snd].
  - exists {| k_regs := []; k_owes := []; k_over := false; k_said := false; k_done := Some seq |}.
    split; [|by apply Hend; [|right]].
    eapply evolves_guarantee;
      [apply (evolves_tracked i seq s (with_core s (set_buffer (sg_core s) b))),
         (evolves_core i [] s (set_buffer (sg_core s) b))|exact Hs|..]; auto.
    + intros [] b' Ht Ho; left; try done. revert Ho Et. cbn. unfold track.
      destruct (Z.leb_spec (capacity (outgoing (continuity (sg_core s))))
        (#(pending (outgoing (continuity (sg_core s)))))); [done|lia].
    + apply (kn_owes _ _ _ Hs).
    + cbn. intros ? [= <-]. apply list_elem_of_here.
  - exists (holds [{| r_notice := NAck; r_waiter := w; r_checked := [FRoom] |}]). split.
    + eapply evolves_guarantee; [apply evolves_refl|exact Hs|..]; try done; auto.
      * apply (kn_owes _ _ _ Hs).
      * constructor; [|done]. right. destruct (Forall_inv (kn_regs _ _ _ Hs)) as [?|[? _]]; [by left|].
        right. split; [done|]. intros f ->%list_elem_of_singleton. split; [done|]. left. cbn.
        unfold track in Et. destruct (Z.leb_spec (capacity (outgoing (continuity (sg_core s))))
          (#(pending (outgoing (continuity (sg_core s)))))); [done|discriminate].
    + apply wp_bind, wp_register. intros v.
      apply wp_bind, (wp_check i _ FClosed _ (owes true false [])); try done.
      { by repeat constructor. }
      { by apply Hend; [|left]. }
      apply wp_wait. intros s1 Hs1. pose proof (kn_regs _ _ _ Hs1) as Hg.
      pose proof (Forall_inv Hg) as Hv. pose proof (Forall_inv (Forall_inv_tail Hg)) as Hw.
      destruct (woken (closed_notify s1) v) eqn:Ev; [|destruct (woken (ack_notify s1) w) eqn:Ew].
      * exists (owes true false []). split; [|by apply Hend; [|left]].
        eapply evolves_guarantee; [apply evolves_refl|exact Hs1|..]; try done; auto.
        -- apply (kn_owes _ _ _ Hs1).
        -- intros _. right. by apply (proj2 (kn_told _ _ _ Hs1) v).
      * exists nothing. split; [|done].
        eapply evolves_guarantee; [apply evolves_refl|exact Hs1|..]; try done; auto.
        -- apply (kn_owes _ _ _ Hs1).
      * split; [done|]. rewrite Hr. destruct Hv as [Hv|[_ Hv]]; [cbn in Hv; congruence|].
        destruct Hw as [Hw|[_ Hw]]; [cbn in Hw; congruence|]. cbn in Hv, Hw.
        split; [by destruct (Hv FClosed ltac:(set_solver))|by destruct (Hw FRoom ltac:(set_solver))].
Qed.

Lemma calls_fine i : fine i.
Proof.
  destruct (role i) eqn:Hr; [by eapply close_fine|by eapply set_sendable_fine|
    by eapply acknowledge_fine|by apply closed_fine|by apply sendable_fine|by eapply room_fine].
Qed.

Abbreviation fine_sys := (sys_ok (E := Error) knows stuck idle (λ _ k, k = nothing) returned idle).

Lemma knows_nothing i s : told s → (∀ b, (i, b) ∉ sg_owing s) → knows i nothing s.
Proof. intros Ht Ho. split; try done. intros b. split; [by intros ?%Ho|by intros ?%elem_of_nil]. Qed.

(** What is forgotten is the knowledge of a call that owes nothing. *)
Lemma knows_idle i k s : knows i k s → k_owes k = [] → knows i nothing s.
Proof.
  intros Hk Ho. apply knows_nothing; [apply Hk|]. intros b Hb. apply (kn_owes _ _ _ Hk) in Hb.
  rewrite Ho in Hb. by apply elem_of_nil in Hb.
Qed.

Lemma fine_step x h : fine_sys x → fine_sys (signals_step x h).
Proof.
  intros Hx. destruct h as [i|i|i|t]; cbn.
  - destruct (s_task x i) eqn:Et; try done. destruct Hx as [κ Hx].
    destruct (Hx i) as [Hk Hi]. rewrite Et in Hi.
    exists (λ j, if decide (j = i) then nothing else κ j). intros j. cbn. unfold upd_task.
    destruct (decide (j = i)) as [->|Hne]; [|apply Hx]. split; [by eapply knows_idle|done].
  - apply poll_sys; [apply calls_fine|done].
  - destruct (waits (role i)) eqn:Ew; [|done]. apply abort_sys; [|done|done].
    intros k Hk. exists nothing. split; [|done]. eapply knows_idle; [done|by apply Hk].
  - apply outside_sys; [|done]. by intros j k [].
Qed.

Lemma fine_run hs x : fine_sys x → fine_sys (signals_run x hs).
Proof. revert x. induction hs as [|h hs IH]; intros x Hx; [done|]. by apply IH, fine_step. Qed.

Lemma fine_rest c : core_closed c = false → fine_sys (at_rest c).
Proof.
  intros Hc. exists (λ _, nothing). intros i. split; [|done]. apply knows_nothing.
  - split; cbn; [by rewrite Hc|]. intros w. by rewrite new_quiet.
  - intros b. apply not_elem_of_nil.
Qed.

(** A call that cannot go on. *)
Lemma parked i p k s :
  task_fine (E := Error) knows stuck idle (λ _ k, k = nothing) returned idle i (Running p) k →
  knows i k s → steps (body i) (Running p) s = false → stuck i k s.
Proof.
  intros Ht Hk Hs.
  refine (wait_stuck (knows i) (guarantee knows i) (stuck i) (idle i) (λ k, k = nothing) (returned i)
    (idle i) (body i) p k s (calls_fine i) Ht Hk _ Hs).
  unfold body. by destruct (role i).
Qed.

(** Where nobody can go on, nobody owes a notification. *)
Lemma quiescent_settled x b : fine_sys x → quiescent x → ¬ owed b (s_world x).
Proof.
  intros [κ Hx] Hq [j Hj]. destruct (Hx j) as [Hk Ht]. apply (kn_owes _ _ _ Hk) in Hj.
  enough (k_owes (κ j) = []) as He by (rewrite He in Hj; by apply elem_of_nil in Hj).
  destruct (s_task x j) as [p| | |] eqn:Et; [|by apply Ht..].
  eapply (parked j p); [exact Ht|exact Hk|]. rewrite <- Et. apply Hq.
Qed.

(** C9: no wake-up is lost, and none is spurious.  However closing, publishing,
    acknowledging and the calls that wait interleave: a call of [closed] that has
    returned finds the session closed, and a sender that stopped waiting has its
    message tracked unless the session is closed; once the notification of the close
    went out the reason can be read; and where no call can go on by itself, whoever
    still waits has reason to: the session is open, and for [wait_sendable] the agent
    does not accept data, for a sender the buffer is full. *)
Theorem no_lost_wakeup c hs :
  core_closed c = false →
  let x := signals_run (at_rest c) hs in
  let s := s_world x in
  let b := outgoing (continuity (sg_core s)) in
  (∀ i, s_task x i = Stopped →
     match role i with
     | AwaitClosed => core_closed (sg_core s) = true
     | AwaitRoom _ seq => core_closed (sg_core s) = true ∨ seq ∈ sg_tracked s
     | _ => True
     end)
  ∧ (core_closed (sg_core s) = true → ¬ owed NClosed s → is_Some (close_reason (sg_core s)))
  ∧ (quiescent x → ∀ i p, s_task x i = Running p →
       core_closed (sg_core s) = false
       ∧ match role i with
         | AwaitClosed => True
         | AwaitSendable => sendable (sg_core s) = false
         | AwaitRoom _ _ => capacity b ≤ #(pending b)
         | _ => False
         end).
Proof.
  intros Hc x s b. pose proof (fine_run hs _ (fine_rest c Hc)) as Hx. fold x in Hx.
  pose proof Hx as [κ Hκ]. split_and!.
  - intros i Ht. destruct (Hκ i) as [Hk Hr]. rewrite Ht in Hr. destruct Hr as [_ Hr].
    destruct (role i); try done.
    + by apply (kn_over _ _ _ Hk).
    + destruct Hr; [left; by apply (kn_over _ _ _ Hk)|right; by apply (kn_done _ _ _ Hk)].
  - intros Hcl Ho. destruct (Hκ 0%nat) as [[[Ht _] _ _ _ _ _ _] _]. by destruct (Ht Hcl).
  - intros Hq i p Ht. destruct (Hκ i) as [Hk Hr]. rewrite Ht in Hr.
    assert (Hst : stuck i (κ i) s).
    { eapply (parked i p); [exact Hr|exact Hk|]. rewrite <- Ht. apply Hq. }
    assert (Hno : ∀ (P : Prop) b, P ∨ owed b s → P).
    { intros P b' [?|Ho]; [done|]. by destruct (quiescent_settled x b' Hx Hq). }
    destruct Hst as [_ Hst]. destruct (role i); [done..| | |]; [|destruct Hst as [Hst ?]..];
      (split; [by apply (Hno _ _ Hst)|]); [done|by eapply Hno..].
Qed.

(** ** The calls as single steps *)

(** What [Session] and [Connection] do in one step is what happens here when nobody
    runs in between. *)
Lemma close_uninterrupted me r s :
  let '(p, s') := run (close me r) s in
  p = Ret (Ok false) ∧ sg_core s' = core_close r (sg_core s).
Proof.
  unfold core_close. cbn. by destruct (core_closed (sg_core s)) eqn:E.
Qed.
Lemma set_sendable_uninterrupted me (b : bool) s :
  let '(p, s') := run (set_sendable me b) s in
  p = Ret (Ok false) ∧ sg_core s' = Session.set_sendable b (sg_core s).
Proof. cbn. by destruct (b && negb (sendable (sg_core s))). Qed.
End Wakeups.

(** ** Witnesses *)

Section WakeupsWitnesses.
(** Call 0 waits for the close, calls 1 and 2 for being allowed to send and for room,
    call 3 allows it, call 4 closes. *)
Definition toy_role (i : nat) : Call :=
  match i with
  | 0 => AwaitClosed
  | 1 => AwaitSendable
  | 2 => AwaitRoom [x41] 0
  | 3 => Publishing true
  | _ => Closing (AgentClosed None None)
  end%nat.

(** Call 1 has checked the flag when call 3 sets it, and returns once notified; call 2
    finds room; call 0 is left. *)
Definition toy_happenings : list Happening :=
  [Begin 0; Begin 1] ++ replicate 3 (Poll 0) ++ replicate 3 (Poll 1)
  ++ [Begin 3; Poll 3; Poll 1; Poll 3] ++ replicate 9 (Poll 1)
  ++ [Begin 2] ++ replicate 9 (Poll 2) ++ replicate 9 (Poll 3).

Lemma no_lost_wakeup_witness :
  let x := signals_run (C := Chan) (N := Bell) toy_role (at_rest toy_core) toy_happenings in
  (∃ p, s_task x 0%nat = Running p) ∧ s_task x 1%nat = Stopped
  ∧ core_closed (sg_core (s_world x)) = false ∧ 0 ∈ sg_tracked (s_world x).
Proof.
  intros x.
  destruct (no_lost_wakeup (N := Bell) toy_role toy_core toy_happenings eq_refl) as (Hs & _ & Hq).
  fold x in Hs, Hq.
  assert (Ht : ∃ p, s_task x 0%nat = Running p) by (eexists; vm_compute; reflexivity).
  split_and!; [exact Ht|vm_compute; reflexivity| |].
  - destruct Ht as [p Ht]. refine (proj1 (Hq _ 0%nat p Ht)).
    intros [|[|[|[|i]]]]; vm_compute; reflexivity.
  - destruct (Hs 2%nat) as [Hc|Hc]; [vm_compute; reflexivity|vm_compute in Hc; discriminate Hc|exact Hc].
Defined.

(** The flag is set before the reason is written: a call of [closed] in between returns
    although the reason cannot be read yet. *)
Lemma closed_before_reason :
  let x := signals_run (C := Chan) (N := Bell) toy_role (at_rest toy_core)
    [Begin 4; Poll 4; Begin 0; Poll 0; Poll 0; Poll 0] in
  s_task x 0%nat = Stopped ∧ core_closed (sg_core (s_world x)) = true
  ∧ close_reason (sg_core (s_world x)) = None.
Proof. vm_compute. split_and!; reflexivity. Qed.
End WakeupsWitnesses.
