(* ===== verification/Pool.v ===== *)
(** * The session pool (src/pool.rs)

    A pool indexes the sessions it holds by identifier.  An [Arc<Session>] is a
    reference into a heap: the pool, its callers and the session's own tasks see
    one object, which its tasks may close at any time.  The locked sections of
    the pool are single steps; between them ([StartSession] in flight, a session
    about to be counted or terminated) a call is a pending [pool_task], so that
    any interleaving of calls is a list of [pool_op]s.

    [map_to_list] fixes an iteration order of the [HashMap]; the theorems do not
    depend on it. *)

From S2P Require Import Prelude RustStd Errors Interfaces BinaryProtocol Ack Crypto Channels.
From S2P Require Import Documents Session.

Record PoolConfig := {
  max_sessions : Z;                  (* usize, 0 means unlimited *)
  allow_duplicate_targets : bool;
  session_defaults : SessionConfig }.

Definition PoolConfig_default : PoolConfig :=
  {| max_sessions := 100; allow_duplicate_targets := true;
     session_defaults := SessionConfig_default |}.

Record PoolStats := { live : Z; st_started : Z; st_ended : Z }.

Section Pool.
Context {C : Type → Type} `{Mpsc C} {Signer Kms : Type}.

(** The sessions behind the [Arc]s. *)
Abbreviation SessionHeap := (gmap nat (Session (C := C))).

Record SessionPool := {
  manager : SessionManager (Signer := Signer) (Kms := Kms);
  pool_config : PoolConfig;
  sessions : gmap str nat;           (* Mutex<HashMap<String, Arc<Session>>> *)
  started : Z }.                     (* Mutex<u64> *)

Definition with_manager (c : PoolConfig) (m : SessionManager) : SessionPool :=
  {| manager := m; pool_config := c; sessions := ∅; started := 0 |}.

Definition set_sessions (p : SessionPool) (m : gmap str nat) : SessionPool :=
  {| manager := manager p; pool_config := pool_config p; sessions := m; started := started p |}.

(** [session.is_closed()], [session.config().target] and [session.id()]. *)
Definition ref_closed (h : SessionHeap) (r : nat) : bool :=
  match h !! r with Some s => core_closed (core s) | None => true end.
Definition ref_target (h : SessionHeap) (r : nat) : option str :=
  s ← h !! r; Some (target (config s)).

Definition reap (h : SessionHeap) (m : gmap str nat) : gmap str nat :=
  filter (λ e, ref_closed h e.2 = false) m.

Definition admit_target (c : PoolConfig) (h : SessionHeap) (m : gmap str nat) (t : str) : Res () :=
  let n := Z.of_nat (size m) in
  if (0 <? max_sessions c) && (max_sessions c <=? n) then
    Err (Error_Config [PLit "session pool is full ("; PInt n; PLit " of ";
      PInt (max_sessions c); PLit " in use)"])
  else if negb (allow_duplicate_targets c)
          && existsb (λ e, bool_decide (ref_target h e.2 = Some t)) (map_to_list m) then
    Err (Error_Config [PLit "a session to "; PStr t;
      PLit " is already open and PoolConfig::allow_duplicate_targets is false"])
  else Ok ().

Definition check_admission (h : SessionHeap) (t : str) (p : SessionPool) : Res () * SessionPool :=
  let m := reap h (sessions p) in (admit_target (pool_config p) h m t, set_sessions p m).

(** The configuration [start] builds from the pool's defaults. *)
Definition start_config (t : str) (p : SessionPool) : SessionConfig :=
  let d := session_defaults (pool_config p) in
  {| target := t; document := document d; reason := reason d; ready_timeout := ready_timeout d;
     heartbeat_interval := heartbeat_interval d; idle_timeout := idle_timeout d;
     payload_chunk_size := payload_chunk_size d; output_buffer := output_buffer d;
     endpoint_policy := endpoint_policy d |}.

(** The locked section after [StartSession], and the whole of [insert] before the
    count: reap, check, and index the session [r] by its identifier. *)
Definition admit_ref (h : SessionHeap) (r : nat) (s : Session (C := C)) (p : SessionPool)
  : Res () * SessionPool :=
  let m := reap h (sessions p) in
  match admit_target (pool_config p) h m (target (config s)) with
  | Ok _ => (Ok (), set_sessions p (<[session_id (core s) := r]> m))
  | Err e => (Err e, set_sessions p m)
  end.

(** [*lock(&self.started) += 1]. *)
Definition count_started (p : SessionPool) : SessionPool :=
  {| manager := manager p; pool_config := pool_config p; sessions := sessions p;
     started := wrap_u 64 (started p + 1) |}.

Definition get (h : SessionHeap) (id : str) (p : SessionPool) : option nat * SessionPool :=
  let m := reap h (sessions p) in (m !! id, set_sessions p m).

Definition for_target (h : SessionHeap) (t : str) (p : SessionPool) : list nat * SessionPool :=
  let m := reap h (sessions p) in
  (filter (λ r, ref_target h r = Some t) (map_to_list m).*2, set_sessions p m).

Definition all_sessions (h : SessionHeap) (p : SessionPool) : list nat * SessionPool :=
  let m := reap h (sessions p) in ((map_to_list m).*2, set_sessions p m).

Definition session_ids (h : SessionHeap) (p : SessionPool) : list str * SessionPool :=
  let m := reap h (sessions p) in ((map_to_list m).*1, set_sessions p m).

Definition stats (h : SessionHeap) (p : SessionPool) : PoolStats * SessionPool :=
  let m := reap h (sessions p) in
  let n := Z.of_nat (size m) in
  ({| live := n; st_started := started p; st_ended := Z.max 0 (started p - n) |},
   set_sessions p m).

(** The locked sections of [terminate], [terminate_target] and [shutdown]: which
    sessions to terminate. *)
Definition take_one (id : str) (p : SessionPool) : list nat * SessionPool :=
  (match sessions p !! id with Some r => [r] | None => [] end,
   set_sessions p (delete id (sessions p))).

Definition take_target (h : SessionHeap) (t : str) (p : SessionPool) : list nat * SessionPool :=
  let doomed : gmap str nat := filter (λ e, ref_target h e.2 = Some t) (sessions p) in
  ((map_to_list doomed).*2, set_sessions p (sessions p ∖ doomed)).

Definition take_all (p : SessionPool) : list nat * SessionPool :=
  ((map_to_list (sessions p)).*2, set_sessions p ∅).

(** ** Calls in flight *)

Inductive pool_task :=
| TaskOpening (c : SessionConfig)            (* start_with: StartSession in flight *)
| TaskCounting                               (* admitted, about to be counted *)
| TaskTerminating (rs : list nat).           (* sessions still to be terminated *)

(** [opened] and [admitted] record the sessions [start_with] opened and the ones
    put in the pool; no operation reads them. *)
Record PoolWorld := {
  pool : SessionPool;
  heap : SessionHeap;
  tasks : gmap nat pool_task;
  calls : list ApiCall;
  opened : list nat;
  admitted : list nat }.

Definition set_pool (w : PoolWorld) (p : SessionPool) : PoolWorld :=
  {| pool := p; heap := heap w; tasks := tasks w; calls := calls w; opened := opened w;
     admitted := admitted w |}.
Definition set_task (w : PoolWorld) (t : nat) (o : option pool_task) : PoolWorld :=
  {| pool := pool w; heap := heap w; tasks := partial_alter (λ _, o) t (tasks w);
     calls := calls w; opened := opened w; admitted := admitted w |}.

(** [session.terminate().await]. *)
Definition kill (r : nat) (w : PoolWorld) : PoolWorld :=
  match heap w !! r with
  | None => w
  | Some s =>
    let '(_, s', log) := terminate s in
    {| pool := pool w; heap := <[r := s']> (heap w); tasks := tasks w;
       calls := calls w ++ log; opened := opened w; admitted := admitted w |}
  end.

(** Put session [r] in the pool: it is counted next, or the caller gets the error
    and [rejected] remains to be done. *)
Definition admission (t r : nat) (s : Session (C := C)) (rejected : option pool_task)
    (w : PoolWorld) : PoolWorld :=
  match admit_ref (heap w) r s (pool w) with
  | (Ok _, p) =>
    {| pool := p; heap := heap w; tasks := <[t := TaskCounting]> (tasks w); calls := calls w;
       opened := opened w; admitted := admitted w ++ [r] |}
  | (Err _, p) => set_task (set_pool w p) t rejected
  end.

(** [start_with] up to its first await, and [start]. *)
Definition start_with (t : nat) (c : SessionConfig) (w : PoolWorld) : PoolWorld :=
  match check_admission (heap w) (target c) (pool w) with
  | (Ok _, p) => set_task (set_pool w p) t (Some (TaskOpening c))
  | (Err _, p) => set_pool w p
  end.

Definition start (t : nat) (tg : str) (w : PoolWorld) : PoolWorld :=
  start_with t (start_config tg (pool w)) w.

(** [start_with] once [StartSession] has answered. *)
Definition start_with_opened (api : StartRequest → Res StartOutput)
    (connect : SessionCore (C := C) → ConnectionParams (Signer := Signer) (Kms := Kms)
               → Res (C Command)) (t : nat) (c : SessionConfig) (w : PoolWorld) : PoolWorld :=
  let '(res, log) := start_session api connect (manager (pool w)) c in
  match res with
  | Err _ =>
    {| pool := pool w; heap := heap w; tasks := delete t (tasks w); calls := calls w ++ log;
       opened := opened w; admitted := admitted w |}
  | Ok s =>
    let r := fresh (dom (heap w)) in
    admission t r s (Some (TaskTerminating [r]))
      {| pool := pool w; heap := <[r := s]> (heap w); tasks := tasks w; calls := calls w ++ log;
         opened := opened w ++ [r]; admitted := admitted w |}
  end.

Inductive pool_op :=
| PoolStart (t : nat) (tg : str)
| PoolStartWith (t : nat) (c : SessionConfig)
| PoolRun (t : nat) (api : StartRequest → Res StartOutput)
    (connect : SessionCore (C := C) → ConnectionParams (Signer := Signer) (Kms := Kms)
               → Res (C Command))
| PoolInsert (t r : nat)
| PoolGet (id : str)
| PoolForTarget (t : str)
| PoolSessions
| PoolIds
| PoolStat
| PoolTerminate (t : nat) (id : str)
| PoolTerminateTarget (t : nat) (tg : str)
| PoolShutdown (t : nat)
| Outside (s : Session (C := C))     (* a session built elsewhere *)
| SessionOp (r : nat) (o : core_op). (* a session's own tasks, or its user *)

(** Task [t] resumes after its await. *)
Definition run_task (api : StartRequest → Res StartOutput)
    (connect : SessionCore (C := C) → ConnectionParams (Signer := Signer) (Kms := Kms)
               → Res (C Command)) (t : nat) (w : PoolWorld) : PoolWorld :=
  match tasks w !! t with
  | None => w
  | Some (TaskOpening c) => start_with_opened api connect t c w
  | Some TaskCounting => set_task (set_pool w (count_started (pool w))) t None
  | Some (TaskTerminating []) => set_task w t None
  | Some (TaskTerminating (r :: rs)) => set_task (kill r w) t (Some (TaskTerminating rs))
  end.

(** A call under a fresh task name; a name in use is ignored. *)
Definition spawn (t : nat) (w : PoolWorld) (w' : PoolWorld) : PoolWorld :=
  match tasks w !! t with Some _ => w | None => w' end.

Definition doom (t : nat) (taken : list nat * SessionPool) (w : PoolWorld) : PoolWorld :=
  spawn t w (set_task (set_pool w taken.2) t (Some (TaskTerminating taken.1))).

Definition pool_step (w : PoolWorld) (o : pool_op) : PoolWorld :=
  match o with
  | PoolStart t tg => spawn t w (start t tg w)
  | PoolStartWith t c => spawn t w (start_with t c w)
  | PoolRun t api connect => run_task api connect t w
  | PoolInsert t r =>
    match heap w !! r with
    | None => w
    | Some s => spawn t w (admission t r s None w)
    end
  | PoolGet id => set_pool w (get (heap w) id (pool w)).2
  | PoolForTarget t => set_pool w (for_target (heap w) t (pool w)).2
  | PoolSessions => set_pool w (all_sessions (heap w) (pool w)).2
  | PoolIds => set_pool w (session_ids (heap w) (pool w)).2
  | PoolStat => set_pool w (stats (heap w) (pool w)).2
  | PoolTerminate t id => doom t (take_one id (pool w)) w
  | PoolTerminateTarget t tg => doom t (take_target (heap w) tg (pool w)) w
  | PoolShutdown t => doom t (take_all (pool w)) w
  | Outside s =>
    {| pool := pool w; heap := <[fresh (dom (heap w)) := s]> (heap w); tasks := tasks w;
       calls := calls w; opened := opened w; admitted := admitted w |}
  | SessionOp r o =>
    {| pool := pool w;
       heap := alter (λ s, set_core s (core_step (core s) o)) r (heap w);
       tasks := tasks w; calls := calls w; opened := opened w; admitted := admitted w |}
  end.

Definition pool_run (c : PoolConfig) (m : SessionManager) (os : list pool_op) : PoolWorld :=
  foldl pool_step
    {| pool := with_manager c m; heap := ∅; tasks := ∅; calls := []; opened := [];
       admitted := [] |} os.
End Pool.

(** ** Invariant *)

Section PoolInvariant.
Context {C : Type → Type} `{Mpsc C} {Signer Kms : Type}.
Abbreviation PW := (PoolWorld (C := C) (Signer := Signer) (Kms := Kms)).
Abbreviation SessionHeap := (gmap nat (Session (C := C))).

(** The service gives every session its own identifier. *)
Definition distinct_ids (h : SessionHeap) : Prop :=
  ∀ r1 r2 s1 s2, h !! r1 = Some s1 → h !! r2 = Some s2 →
    session_id (core s1) = session_id (core s2) → r1 = r2.

Lemma distinct_ids_le (h h' : SessionHeap) : heap_le h h' → distinct_ids h' → distinct_ids h.
Proof.
  intros Hle Hd r1 r2 s1 s2 (s1' & H1 & E1 & _)%Hle (s2' & H2 & E2 & _)%Hle Heq.
  apply (Hd _ _ _ _ H1 H2). congruence.
Qed.

Lemma ref_closed_le (h h' : SessionHeap) r :
  heap_le h h' → is_Some (h !! r) → ref_closed h r = true → ref_closed h' r = true.
Proof.
  intros Hle [s Hs]. destruct (Hle r s Hs) as (s' & Hs' & _ & _ & Hc).
  unfold ref_closed. rewrite Hs, Hs'. exact Hc.
Qed.

Lemma ref_target_le (h h' : SessionHeap) r t :
  heap_le h h' → ref_target h r = Some t → ref_target h' r = Some t.
Proof.
  unfold ref_target. intros Hle. destruct (h !! r) as [s|] eqn:Hs; [|done].
  destruct (Hle r s Hs) as (s' & -> & _ & Hc & _). cbn. by rewrite Hc.
Qed.

Lemma kill_spec r (w : PW) :
  heap_le (heap w) (heap (kill r w)) ∧ ref_closed (heap (kill r w)) r = true
  ∧ pool (kill r w) = pool w ∧ tasks (kill r w) = tasks w
  ∧ opened (kill r w) = opened w ∧ admitted (kill r w) = admitted w.
Proof.
  unfold kill. destruct (heap w !! r) as [s|] eqn:Hs.
  2: { split_and!; try done; [apply heap_le_refl|]. unfold ref_closed. by rewrite Hs. }
  destruct (terminate s) as [[res s'] log] eqn:Et.
  destruct (terminate_mono _ _ _ _ Et) as (Hid & Hcf & Hcl). cbn. split_and!; try done.
  - by eapply heap_le_insert.
  - unfold ref_closed. by rewrite lookup_insert_eq.
Qed.

(** Session [r] is closed, in the pool, or about to be terminated by some call. *)
Definition held (w : PW) (r : nat) : Prop :=
  ref_closed (heap w) r = true ∨ (∃ id, sessions (pool w) !! id = Some r)
  ∨ ∃ t rs, tasks w !! t = Some (TaskTerminating rs) ∧ r ∈ rs.

(** Calls whose session is in the pool but not counted yet. *)
Definition is_counting (k : pool_task) : bool :=
  match k with TaskCounting => true | _ => false end.
Definition pending (m : gmap nat pool_task) : Z :=
  Z.of_nat (size (filter (λ e, is_counting e.2 = true) m)).
Abbreviation counting w := (pending (tasks w)).

Record pool_inv (c : PoolConfig) (w : PW) : Prop := {
  pi_config : pool_config (pool w) = c;
  pi_cap : 0 < max_sessions c → Z.of_nat (size (sessions (pool w))) ≤ max_sessions c;
  pi_targets : allow_duplicate_targets c = false → ∀ i1 i2 r1 r2 t,
    sessions (pool w) !! i1 = Some r1 → sessions (pool w) !! i2 = Some r2 →
    ref_target (heap w) r1 = Some t → ref_target (heap w) r2 = Some t → i1 = i2;
  pi_map : ∀ i r, sessions (pool w) !! i = Some r →
    r ∈ admitted w ∧ ∃ s, heap w !! r = Some s ∧ session_id (core s) = i;
  pi_known : ∀ r, r ∈ opened w ++ admitted w → is_Some (heap w !! r);
  pi_held : distinct_ids (heap w) → ∀ r, r ∈ opened w ++ admitted w → held w r;
  pi_count : wrap_u 64 (started (pool w) + counting w) = wrap_u 64 (#(admitted w));
  pi_started : 0 ≤ started (pool w) < 2 ^ 64 }.

(** ** Preservation *)

Definition weight (o : option pool_task) : Z :=
  match o with Some TaskCounting => 1 | _ => 0 end.

Lemma pending_alter (m : gmap nat pool_task) t o :
  pending (partial_alter (λ _, o) t m) = pending m - weight (m !! t) + weight o.
Proof.
  unfold pending. set (P := λ e : nat * pool_task, is_counting e.2 = true).
  assert (Hdel : Z.of_nat (size (filter P (delete t m)))
                 = Z.of_nat (size (filter P m)) - weight (m !! t)).
  { rewrite map_filter_delete. destruct (filter P m !! t) as [k|] eqn:E.
    - assert (size (filter P m) ≠ 0%nat).
      { intros Hz%map_size_empty_inv. by rewrite Hz in E. }
      rewrite map_size_delete, E. apply map_lookup_filter_Some in E as [-> Hk].
      cbn in Hk. destruct k; try done. cbn. lia.
    - rewrite delete_id by done. apply map_lookup_filter_None in E as [->|E]; cbn; [lia|].
      destruct (m !! t) as [[]|] eqn:Em; cbn; try lia. by destruct (E _ eq_refl). }
  destruct o as [k|].
  - change (partial_alter (λ _, Some k) t m) with (<[t := k]> m).
    rewrite <- insert_delete_eq, map_filter_insert. destruct (decide _) as [Hk|Hk].
    + rewrite map_size_insert_None; [|apply map_lookup_filter_None; left; apply lookup_delete_eq].
      cbn in Hk. destruct k; try done. cbn. lia.
    + rewrite delete_delete_eq, Hdel. destruct k; cbn; lia || by destruct Hk.
  - change (partial_alter (λ _, None) t m) with (delete t m). rewrite Hdel. cbn. lia.
Qed.

(** Every step but an admission: the pool's map shrinks, and what it held is still
    held. *)
Lemma pool_inv_shrink c (w w' : PW) :
  pool_inv c w → heap_le (heap w) (heap w') →
  pool_config (pool w') = pool_config (pool w) →
  sessions (pool w') ⊆ sessions (pool w) →
  opened w' = opened w → admitted w' = admitted w →
  (∀ r, is_Some (heap w !! r) → held w r → held w' r) →
  wrap_u 64 (started (pool w') + counting w') = wrap_u 64 (started (pool w) + counting w) →
  0 ≤ started (pool w') < 2 ^ 64 →
  pool_inv c w'.
Proof.
  intros [Hcf Hcap Htg Hmap Hkn Hh Hct Hst] Hle Hc' Hsub Ho Ha Hheld Hn Hs.
  assert (Hkn' : ∀ r, is_Some (heap w !! r) → is_Some (heap w' !! r)).
  { intros r [s Hr]. destruct (Hle r s Hr) as (s' & -> & _). eauto. }
  split.
  - congruence.
  - intros Hp. specialize (Hcap Hp). apply map_subseteq_size in Hsub. lia.
  - intros Hd i1 i2 r1 r2 t H1 H2 T1 T2.
    eapply lookup_weaken in H1, H2; [|done..].
    assert (Hback : ∀ i r, sessions (pool w) !! i = Some r → ref_target (heap w') r = Some t →
      ref_target (heap w) r = Some t).
    { intros i r (_ & s & Hs0 & _)%Hmap Ht. destruct (Hle r s Hs0) as (s' & Hs' & _ & Hcs & _).
      revert Ht. unfold ref_target. rewrite Hs0, Hs'. cbn. congruence. }
    by eapply (Htg Hd i1 i2 r1 r2 t); eauto.
  - intros i r Hi. eapply lookup_weaken in Hi; [|done].
    apply Hmap in Hi as (? & s & Hr & <-). rewrite Ha. split; [done|].
    destruct (Hle r s Hr) as (s' & ? & ? & _). eauto.
  - rewrite Ho, Ha. eauto.
  - intros Hd r. rewrite Ho, Ha. intros Hr.
    apply Hheld; [by apply Hkn|]. apply Hh; [by eapply distinct_ids_le|done].
  - by rewrite Hn, Ha.
  - done.
Qed.

Lemma reap_sub (h : SessionHeap) m : reap h m ⊆ m.
Proof. apply map_filter_subseteq. Qed.

Lemma reap_lookup (h : SessionHeap) m i r :
  reap h m !! i = Some r ↔ m !! i = Some r ∧ ref_closed h r = false.
Proof. unfold reap. by rewrite map_lookup_filter_Some. Qed.

(** What is reaped is closed. *)
Lemma held_reap (w w' : PW) r :
  heap w' = heap w → sessions (pool w') = reap (heap w) (sessions (pool w)) →
  (∀ t rs, tasks w !! t = Some (TaskTerminating rs) → tasks w' !! t = Some (TaskTerminating rs)) →
  held w r → held w' r.
Proof.
  intros Hhp Hss Ht [Hc|[[id Hid]|(t & rs & Htk & Hr)]]; unfold held; rewrite Hhp, Hss.
  - by left.
  - destruct (ref_closed (heap w) r) eqn:E; [by left|]. right; left. exists id. by apply reap_lookup.
  - right; right. eauto.
Qed.

Lemma pool_inv_reap c (w : PW) :
  pool_inv c w →
  pool_inv c (set_pool w (set_sessions (pool w) (reap (heap w) (sessions (pool w))))).
Proof.
  intros Hi. eapply pool_inv_shrink; try done; cbn.
  - apply heap_le_refl.
  - apply reap_sub.
  - intros r _. by apply held_reap.
  - by apply Hi.
Qed.

(** Tasks that hold no session come and go. *)
Lemma pool_inv_set_task c (w : PW) t o :
  pool_inv c w → weight o = weight (tasks w !! t) →
  match tasks w !! t with
  | Some (TaskTerminating (_ :: _)) => False
  | _ => True
  end →
  pool_inv c (set_task w t o).
Proof.
  intros Hi Hw Hold. eapply pool_inv_shrink; try done; cbn.
  - apply heap_le_refl.
  - intros r _ [Hc|[Hid|(t' & rs & Htk & Hr)]]; unfold held; cbn; [by left|by right; left|].
    right; right. exists t', rs. split; [|done]. rewrite lookup_partial_alter_ne; [done|].
    intros <-. rewrite Htk in Hold. by destruct rs; [apply elem_of_nil in Hr|].
  - rewrite pending_alter, Hw. f_equal. lia.
  - by apply Hi.
Qed.

Lemma pool_inv_doom c (w : PW) t rs p :
  pool_inv c w → sessions p ⊆ sessions (pool w) → pool_config p = pool_config (pool w) →
  started p = started (pool w) →
  (∀ id r, sessions (pool w) !! id = Some r → sessions p !! id = Some r ∨ r ∈ rs) →
  pool_inv c (doom t (rs, p) w).
Proof.
  intros Hi Hsub Hcf Hst Hrs. unfold doom, spawn. destruct (tasks w !! t) eqn:Ht; [done|].
  eapply pool_inv_shrink; try done; cbn.
  - apply heap_le_refl.
  - intros r _ [Hc|[[id Hid]|(t' & rs' & Htk & Hr)]]; unfold held; cbn; [by left| |].
    + destruct (Hrs id r Hid) as [?|?]; [right; left; eauto|]. right; right.
      exists t, rs. by rewrite lookup_partial_alter_eq.
    + right; right. exists t', rs'. rewrite lookup_partial_alter_ne by congruence. done.
  - rewrite pending_alter, Ht, Hst. cbn. f_equal. lia.
  - rewrite Hst. by apply Hi.
Qed.

Lemma pool_inv_kill c (w : PW) t r rs :
  pool_inv c w → tasks w !! t = Some (TaskTerminating (r :: rs)) →
  pool_inv c (set_task (kill r w) t (Some (TaskTerminating rs))).
Proof.
  intros Hi Ht. destruct (kill_spec r w) as (Hle & Hcl & Hp & Htk & Ho & Ha).
  eapply pool_inv_shrink; try done; cbn; rewrite ?Hp, ?Htk; try done.
  - intros r' Hr' [Hc|[Hid|(t' & rs' & Htk' & Hin)]]; unfold held; cbn.
    + left. by eapply ref_closed_le.
    + right; left. by rewrite Hp.
    + destruct (decide (r' = r)) as [->|Hne]; [by left|]. right; right. rewrite Htk.
      destruct (decide (t = t')) as [<-|Htt].
      * exists t, rs. rewrite lookup_partial_alter_eq. split; [done|].
        rewrite Ht in Htk'. simplify_eq. by apply elem_of_cons in Hin as [?|?].
      * exists t', rs'. by rewrite lookup_partial_alter_ne.
  - rewrite pending_alter, Ht. cbn. f_equal. lia.
  - by apply Hi.
Qed.

Lemma wrap_u_add w a b k : wrap_u w a = wrap_u w b → wrap_u w (a + k) = wrap_u w (b + k).
Proof. unfold wrap_u. intros Hab. by rewrite (Zplus_mod a), (Zplus_mod b), Hab. Qed.

Lemma pool_inv_count c (w : PW) t :
  pool_inv c w → tasks w !! t = Some TaskCounting →
  pool_inv c (set_task (set_pool w (count_started (pool w))) t None).
Proof.
  intros Hi Ht. eapply pool_inv_shrink; try done; cbn.
  - apply heap_le_refl.
  - intros r _ [Hc|[Hid|(t' & rs & Htk & Hr)]]; unfold held; cbn; [by left|by right; left|].
    right; right. exists t', rs. rewrite lookup_partial_alter_ne by congruence. done.
  - rewrite pending_alter, Ht. cbn. unfold wrap_u at 2.
    unfold wrap_u. rewrite Zplus_mod_idemp_l. f_equal. lia.
  - apply Z.mod_pos_bound. lia.
Qed.

(** The heap changes under the pool: a session is added, or changes state. *)
Lemma pool_inv_heap c (w : PW) h cs :
  pool_inv c w → heap_le (heap w) h →
  pool_inv c {| pool := pool w; heap := h; tasks := tasks w; calls := cs; opened := opened w;
                admitted := admitted w |}.
Proof.
  intros Hi Hle. eapply pool_inv_shrink; try done; cbn.
  - intros r Hr [Hc|Hrest]; [left; by eapply ref_closed_le|by right].
  - by apply Hi.
Qed.

Lemma admit_Ok (c : PoolConfig) (h : SessionHeap) m t :
  admit_target c h m t = Ok () →
  (0 < max_sessions c → Z.of_nat (size m) < max_sessions c)
  ∧ (allow_duplicate_targets c = false → ∀ i r, m !! i = Some r → ref_target h r ≠ Some t).
Proof.
  unfold admit_target. intros Hok. split.
  - intros Hp. destruct ((0 <? _) && _) eqn:E; [done|bool_lia].
  - intros Hd i r Hr Ht. rewrite Hd in Hok. cbn [negb andb] in Hok.
    assert (He : existsb (λ e, bool_decide (ref_target h e.2 = Some t)) (map_to_list m) = true).
    { apply existsb_exists. exists (i, r). split.
      - by apply list_elem_of_In, elem_of_map_to_list.
      - by apply bool_decide_eq_true. }
    rewrite He in Hok. by destruct (_ && _).
Qed.

(** A session as it is after [start_with] opened it, or as [insert] finds it. *)
Definition add_opened (w : PW) (rs : list nat) : PW :=
  {| pool := pool w; heap := heap w; tasks := tasks w; calls := calls w;
     opened := opened w ++ rs; admitted := admitted w |}.

Lemma held_admitted (w : PW) c t r s r' :
  pool_inv c w → heap w !! r = Some s → distinct_ids (heap w) →
  match tasks w !! t with Some (TaskTerminating _) => False | _ => True end →
  r' ≠ r → held w r' →
  ∀ op ad cs p, sessions p = <[session_id (core s) := r]> (reap (heap w) (sessions (pool w))) →
  held {| pool := p; heap := heap w; tasks := <[t := TaskCounting]> (tasks w); calls := cs;
          opened := op; admitted := ad |} r'.
Proof.
  intros Hi Hs Hd Ht Hne [Hc|[[id Hid]|(t' & rs & Htk & Hin)]] op ad cs p Hp;
    unfold held; cbn; [by left| |].
  - destruct (ref_closed (heap w) r') eqn:E; [by left|]. right; left. exists id. rewrite Hp.
    rewrite lookup_insert_ne; [by apply reap_lookup|]. intros <-.
    apply (pi_map _ _ Hi) in Hid as (_ & s' & Hs' & He).
    apply Hne. by eapply Hd.
  - right; right. exists t', rs. rewrite lookup_insert_ne; [done|]. intros <-. by rewrite Htk in Ht.
Qed.

Lemma pool_inv_admit c (w : PW) t r s p op :
  pool_inv c w → heap w !! r = Some s →
  match tasks w !! t with Some (TaskTerminating _ | TaskCounting) => False | _ => True end →
  (∀ r', r' ∈ op → r' = r ∨ r' ∈ opened w) →
  admit_ref (heap w) r s (pool w) = (Ok (), p) →
  pool_inv c {| pool := p; heap := heap w; tasks := <[t := TaskCounting]> (tasks w);
                calls := calls w; opened := op; admitted := admitted w ++ [r] |}.
Proof.
  intros Hi Hs Ht Hop. unfold admit_ref.
  destruct (admit_target _ _ _ _) as [[]|e] eqn:Ead; [|done]. intros [= <-].
  apply admit_Ok in Ead as [Hcap Htg]. rewrite (pi_config _ _ Hi) in Hcap, Htg.
  set (m := reap (heap w) (sessions (pool w))) in *.
  assert (Hsub : m ⊆ sessions (pool w)) by apply reap_sub.
  assert (Htr : ref_target (heap w) r = Some (target (config s))).
  { unfold ref_target. by rewrite Hs. }
  split; cbn.
  - apply Hi.
  - intros Hp. specialize (Hcap Hp). rewrite map_size_insert. destruct (m !! _); cbn; lia.
  - intros Hd i1 i2 r1 r2 tt. rewrite !lookup_insert.
    destruct (decide (_ = i1)) as [E1|E1], (decide (_ = i2)) as [E2|E2];
      intros H1 H2 T1 T2; simplify_eq.
    + done.
    + by destruct (Htg Hd _ _ H2).
    + by destruct (Htg Hd _ _ H1).
    + by eapply (pi_targets _ _ Hi Hd i1 i2 r1 r2 tt); eauto using lookup_weaken.
  - intros i r'. rewrite lookup_insert. destruct (decide _) as [<-|]; intros Hr'.
    + simplify_eq. split; [set_solver|eauto].
    + eapply lookup_weaken in Hr'; [|done]. apply (pi_map _ _ Hi) in Hr' as [? ?].
      split; [set_solver|done].
  - intros r' Hr'. destruct (decide (r' = r)) as [->|Hne]; [eauto|]. apply (pi_known _ _ Hi).
    set_solver.
  - intros Hd r' Hr'. destruct (decide (r' = r)) as [->|Hne].
    { right; left. exists (session_id (core s)). cbn. by rewrite lookup_insert_eq. }
    eapply held_admitted; try done.
    + by destruct (tasks w !! t) as [[]|].
    + apply (pi_held _ _ Hi Hd). set_solver.
  - rewrite len_app. change (#([r])) with 1. rewrite <- (wrap_u_add _ _ _ _ (pi_count _ _ Hi)).
    unfold insert, map_insert. rewrite pending_alter. cbn.
    destruct (tasks w !! t) as [[]|]; try done; cbn; f_equal; lia.
  - apply Hi.
Qed.

Lemma pool_inv_admission c (w : PW) t r s rej op :
  pool_inv c w → heap w !! r = Some s →
  match tasks w !! t with Some (TaskTerminating _ | TaskCounting) => False | _ => True end →
  (op = [] ∧ rej = None) ∨ (op = [r] ∧ rej = Some (TaskTerminating [r])) →
  pool_inv c (admission t r s rej (add_opened w op)).
Proof.
  intros Hi Hs Ht Hrej. unfold admission. cbn [heap pool add_opened].
  destruct (admit_ref _ _ _ _) as [[[]|e] p] eqn:Ead.
  { eapply pool_inv_admit in Ead; [exact Ead|try done..].
    cbn. intros r' [?|Hr']%elem_of_app; [by right|].
    destruct Hrej as [[-> _]|[-> _]]; [by apply elem_of_nil in Hr'|].
    left. by apply list_elem_of_singleton. }
  unfold admit_ref in Ead. destruct (admit_target _ _ _ _) as [|e']; [done|]. simplify_eq.
  apply pool_inv_reap in Hi as Hi'.
  destruct Hrej as [[-> ->]|[-> ->]].
  - unfold add_opened. rewrite app_nil_r.
    eapply (pool_inv_set_task _ _ t None) in Hi'; [|cbn; by destruct (tasks w !! t) as [[]|]..].
    exact Hi'.
  - eapply (pool_inv_set_task _ _ t (Some (TaskTerminating [r]))) in Hi';
      [|cbn; by destruct (tasks w !! t) as [[]|]..].
    destruct Hi' as [Hcf Hcap Htg Hmap Hkn Hh Hct Hst]. split; cbn in *; try done.
    + intros r' Hr'. destruct (decide (r' = r)) as [->|]; [eauto|]. apply Hkn. set_solver.
    + intros Hd r' Hr'. destruct (decide (r' = r)) as [->|].
      * right; right. exists t, [r]. cbn. rewrite lookup_partial_alter_eq.
        split; [done|]. by apply list_elem_of_singleton.
      * apply (Hh Hd). set_solver.
Qed.

Lemma pool_inv_start_with c (w : PW) t cfg :
  pool_inv c w → tasks w !! t = None → pool_inv c (start_with t cfg w).
Proof.
  intros Hi Ht. unfold start_with, check_admission.
  destruct (admit_target _ _ _ _); [|by apply pool_inv_reap].
  apply pool_inv_set_task; [by apply pool_inv_reap|cbn; by rewrite Ht..].
Qed.

Lemma pool_inv_answered c (w : PW) t cfg api connect :
  pool_inv c w → tasks w !! t = Some (TaskOpening cfg) →
  pool_inv c (start_with_opened api connect t cfg w).
Proof.
  intros Hi Ht. unfold start_with_opened. destruct (start_session _ _ _ _) as [[s|e] log].
  - set (r := fresh (dom (heap w))).
    pose proof (pool_inv_heap c w (<[r := s]> (heap w)) (calls w ++ log) Hi (heap_le_fresh _ s)) as Hi'.
    eapply (pool_inv_admission _ _ t r s _ [r]) in Hi';
      [exact Hi'|cbn; by rewrite lookup_insert_eq|cbn; by rewrite Ht|by right].
  - eapply (pool_inv_heap _ _ (heap w) (calls w ++ log)) in Hi; [|apply heap_le_refl].
    eapply (pool_inv_set_task _ _ t None) in Hi; [exact Hi|cbn; by rewrite Ht..].
Qed.

Lemma pool_inv_run_task c (w : PW) t api connect :
  pool_inv c w → pool_inv c (run_task api connect t w).
Proof.
  intros Hi. unfold run_task. destruct (tasks w !! t) as [[cfg| |[|r rs]]|] eqn:Ht; [..|done].
  - by apply pool_inv_answered.
  - by apply pool_inv_count.
  - by apply pool_inv_set_task; rewrite ?Ht.
  - by apply pool_inv_kill.
Qed.

Lemma take_target_cover (h : SessionHeap) t (p : SessionPool (Signer := Signer) (Kms := Kms)) id r :
  sessions p !! id = Some r →
  sessions (take_target h t p).2 !! id = Some r ∨ r ∈ (take_target h t p).1.
Proof.
  intros Hr. cbn. destruct (decide (ref_target h r = Some t)) as [Ht|Ht].
  - right. apply list_elem_of_fmap. exists (id, r). split; [done|].
    by apply elem_of_map_to_list, map_lookup_filter_Some.
  - left. apply lookup_difference_Some. split; [done|].
    apply map_lookup_filter_None. right. cbn. congruence.
Qed.

Lemma pool_inv_step c (w : PW) o : pool_inv c w → pool_inv c (pool_step w o).
Proof.
  intros Hi. destruct o as [t tg|t cfg|t api connect|t r|id|tg| | | |t id|t tg|t|s|r o];
    cbn [pool_step]; try (by apply pool_inv_reap).
  - unfold spawn, start. destruct (tasks w !! t) eqn:Ht; [done|]. by apply pool_inv_start_with.
  - unfold spawn. destruct (tasks w !! t) eqn:Ht; [done|]. by apply pool_inv_start_with.
  - by apply pool_inv_run_task.
  - destruct (heap w !! r) as [s|] eqn:Hs; [|done].
    unfold spawn. destruct (tasks w !! t) eqn:Ht; [done|].
    eapply (pool_inv_admission _ _ t r s None []) in Hi; [|done|by rewrite Ht|by left].
    destruct w. unfold add_opened in Hi. cbn in Hi. by rewrite app_nil_r in Hi.
  - apply pool_inv_doom; try done; [apply delete_subseteq|]. intros id' r Hr. cbn.
    destruct (decide (id = id')) as [<-|]; [rewrite Hr; set_solver|].
    left. by rewrite lookup_delete_ne.
  - apply (pool_inv_doom _ _ _ _ (take_target (heap w) tg (pool w)).2); try done.
    + cbn. apply map_subseteq_difference_l. done.
    + apply take_target_cover.
  - apply pool_inv_doom; try done; [apply map_empty_subseteq|]. intros id r Hr. right.
    apply list_elem_of_fmap. exists (id, r). by rewrite elem_of_map_to_list.
  - apply pool_inv_heap; [done|apply heap_le_fresh].
  - apply pool_inv_heap; [done|apply heap_le_alter].
Qed.

Lemma pool_inv_run c m os : pool_inv c (pool_run (Signer := Signer) (Kms := Kms) c m os).
Proof.
  unfold pool_run. induction os as [|o os IH] using rev_ind.
  - split; cbn; try done.
    + intros. rewrite map_size_empty. lia.
    + by intros r ?%elem_of_nil.
    + by intros _ r ?%elem_of_nil.
  - rewrite foldl_snoc. by apply pool_inv_step.
Qed.
End PoolInvariant.

(** ** What a pool promises *)

Section PoolProperties.
Context {C : Type → Type} `{Mpsc C} {Signer Kms : Type}.
Abbreviation PW := (PoolWorld (C := C) (Signer := Signer) (Kms := Kms)).
Abbreviation SessionHeap := (gmap nat (Session (C := C))).

Lemma reap_size (h : SessionHeap) m : (size (reap h m) ≤ size m)%nat.
Proof. apply map_subseteq_size, reap_sub. Qed.

(** C33: whatever calls are in flight and however they interleave, a pool with a
    limit never has more live sessions than the limit; a pool that forbids
    duplicates never has two live sessions to one target; and a lookup answers
    with an open session under the identifier that was asked for. *)
Theorem pool_bounded (c : PoolConfig) m (os : list (pool_op (C := C))) :
  let w := pool_run (Signer := Signer) (Kms := Kms) c m os in
  (0 < max_sessions c → live (stats (heap w) (pool w)).1 ≤ max_sessions c)
  ∧ (allow_duplicate_targets c = false → ∀ t, #((for_target (heap w) t (pool w)).1) ≤ 1)
  ∧ ∀ id r, (get (heap w) id (pool w)).1 = Some r →
      ∃ s, heap w !! r = Some s ∧ session_id (core s) = id ∧ core_closed (core s) = false.
Proof.
  intros w. pose proof (pool_inv_run c m os : pool_inv c w) as Hi. clearbody w. split_and!.
  - intros Hp. apply (pi_cap _ _ Hi) in Hp. cbn.
    pose proof (reap_size (heap w) (sessions (pool w))). lia.
  - intros Hd t. cbn. set (m' := reap _ _).
    assert (Hall : ∀ e, e ∈ map_to_list m' → ref_target (heap w) e.2 = Some t →
      sessions (pool w) !! e.1 = Some e.2).
    { intros [i r] He%elem_of_map_to_list _. by eapply lookup_weaken, reap_sub. }
    pose proof (NoDup_map_to_list m') as Hnd. revert Hall Hnd.
    generalize (map_to_list m'). intros l Hall Hnd.
    assert (Hk : ∀ e1 e2, e1 ∈ l → e2 ∈ l → ref_target (heap w) e1.2 = Some t →
      ref_target (heap w) e2.2 = Some t → e1 = e2).
    { intros [i1 r1] [i2 r2] H1 H2 T1 T2. pose proof (Hall _ H1 T1) as S1.
      pose proof (Hall _ H2 T2) as S2. cbn in *.
      assert (i1 = i2) as -> by by eapply (pi_targets _ _ Hi Hd). congruence. }
    clear Hall. induction l as [|e l IH]; [done|].
    apply NoDup_cons in Hnd as [Hel Hnd]. rewrite fmap_cons, filter_cons.
    destruct (decide (ref_target (heap w) e.2 = Some t)) as [T|T].
    + assert (filter (λ r, ref_target (heap w) r = Some t) l.*2 = []) as ->; [|done].
      apply elem_of_nil_inv. intros x [T' (e' & -> & He')%list_elem_of_fmap]%list_elem_of_filter.
      apply Hel. rewrite (Hk e e'); [done|set_solver..|done|done].
    + apply IH; [done|]. intros ????. apply Hk; set_solver.
  - intros id r Hg. apply reap_lookup in Hg as [Hm Hc].
    apply (pi_map _ _ Hi) in Hm as (_ & s & Hs & <-). exists s. split_and!; [done..|].
    revert Hc. unfold ref_closed. by rewrite Hs.
Qed.

Lemma delete_set_task (m : gmap nat pool_task) t k :
  delete t (partial_alter (λ _, Some k) t m) = delete t m.
Proof. change (partial_alter (λ _, Some k) t m) with (<[t := k]> m). apply delete_insert_eq. Qed.

(** Running a call that terminates sessions to its end. *)
Lemma run_terminating api connect t rs : ∀ w : PW,
  tasks w !! t = Some (TaskTerminating rs) →
  let w' := foldl pool_step w (replicate (S (length rs)) (PoolRun t api connect)) in
  tasks w' = delete t (tasks w) ∧ pool w' = pool w ∧ heap_le (heap w) (heap w')
  ∧ ∀ r, r ∈ rs → is_Some (heap w !! r) → ref_closed (heap w') r = true.
Proof.
  induction rs as [|r rs IH]; intros w Ht; cbn [length]; rewrite replicate_S;
    cbn [foldl pool_step]; unfold run_task at 1 2 3 4; rewrite Ht.
  - split_and!; [done|done|apply heap_le_refl|]. by intros r ?%elem_of_nil.
  - destruct (kill_spec r w) as (Hle & Hcl & Hp & Htk & _).
    set (w1 := set_task (kill r w) t (Some (TaskTerminating rs))).
    destruct (IH w1) as (Htk' & Hp' & Hle' & Hc'); [cbn; by rewrite lookup_partial_alter_eq|].
    assert (Hle2 : heap_le (heap w) (heap (foldl pool_step w1
      (replicate (S (length rs)) (PoolRun t api connect))))).
    { intros x s (s1 & H1 & E1 & F1 & G1)%Hle. apply Hle' in H1 as (s2 & H2 & E2 & F2 & G2).
      exists s2. split_and!; try congruence. tauto. }
    split_and!; [|by rewrite Hp'|done|].
    + rewrite Htk'. cbn. rewrite Htk. apply delete_set_task.
    + assert (Hsome : ∀ x, is_Some (heap w !! x) → is_Some (heap (kill r w) !! x)).
      { intros x [s Hx]. apply Hle in Hx as (s' & -> & _). eauto. }
      intros x [->|Hx]%elem_of_cons Hs; [|by apply Hc', Hsome].
      by eapply ref_closed_le; [exact Hle'|apply Hsome|].
Qed.

(** C22: no session the pool opened or was given is left running unnoticed.  At any
    point such a session is closed, in the pool, or in the hands of a call that
    will terminate it; so once [shutdown] has run to its end the pool is empty and
    every session is closed, but for those some other call is still terminating. *)
Theorem pool_no_leak (c : PoolConfig) m (os : list (pool_op (C := C))) t api connect :
  let w := pool_run (Signer := Signer) (Kms := Kms) c m os in
  let w' := foldl pool_step w
    (PoolShutdown t :: replicate (S (size (sessions (pool w)))) (PoolRun t api connect)) in
  distinct_ids (heap w) → tasks w !! t = None →
  (∀ r, r ∈ opened w ++ admitted w → held w r)
  ∧ sessions (pool w') = ∅ ∧ tasks w' = tasks w
  ∧ ∀ r, r ∈ opened w ++ admitted w → ref_closed (heap w') r = true
      ∨ ∃ t' rs, tasks w !! t' = Some (TaskTerminating rs) ∧ r ∈ rs.
Proof.
  intros w w' Hd Ht. pose proof (pool_inv_run c m os : pool_inv c w) as Hi.
  split; [by apply Hi|]. subst w'. cbn [foldl pool_step]. unfold doom, spawn. rewrite Ht.
  clearbody w. set (rs := (map_to_list (sessions (pool w))).*2).
  set (w1 := set_task _ _ _).
  replace (size (sessions (pool w))) with (length rs)
    by (unfold rs; by rewrite length_fmap, length_map_to_list).
  destruct (run_terminating api connect t rs w1) as (Htk & Hp & Hle & Hc);
    [cbn; by rewrite lookup_partial_alter_eq|].
  rewrite Htk, Hp. split_and!; [done| |].
  - cbn. rewrite <- (delete_id (tasks w) t Ht) at 2. apply delete_set_task.
  - intros r Hr. pose proof (pi_known _ _ Hi r Hr) as Hs.
    destruct (pi_held _ _ Hi Hd r Hr) as [Hcl|[[id Hid]|Hother]]; [..|by right]; left.
    + by eapply ref_closed_le.
    + apply Hc; [|done]. apply list_elem_of_fmap. exists (id, r).
      by rewrite elem_of_map_to_list.
Qed.

(** The counts are exact.  With no call in flight, no session put in the pool
    twice and fewer than 2^64 of them, [stats] reports how many sessions were put
    in, how many of those are open and how many are closed. *)
Theorem pool_stats_exact (c : PoolConfig) m (os : list (pool_op (C := C))) :
  let w := pool_run (Signer := Signer) (Kms := Kms) c m os in
  distinct_ids (heap w) → NoDup (admitted w) → #(admitted w) < 2 ^ 64 → tasks w = ∅ →
  (stats (heap w) (pool w)).1 =
    {| live := #(filter (λ r, ref_closed (heap w) r = false) (admitted w));
       st_started := #(admitted w);
       st_ended := #(filter (λ r, ref_closed (heap w) r = true) (admitted w)) |}.
Proof.
  intros w Hd Hnd Hlt Htk. pose proof (pool_inv_run c m os : pool_inv c w) as Hi. clearbody w.
  assert (Hst : started (pool w) = #(admitted w)).
  { pose proof (pi_count _ _ Hi) as Hc. rewrite Htk in Hc. unfold pending in Hc.
    rewrite map_filter_empty, map_size_empty, Z.add_0_r in Hc. revert Hc.
    pose proof (len_nonneg (admitted w)). pose proof (pi_started _ _ Hi).
    by rewrite !wrap_u_small. }
  assert (Hlive : Z.of_nat (size (reap (heap w) (sessions (pool w))))
                  = #(filter (λ r, ref_closed (heap w) r = false) (admitted w))).
  { unfold len. f_equal. rewrite <- length_map_to_list, <- (length_fmap snd).
    apply Permutation_length, NoDup_Permutation.
    - apply NoDup_fmap_2_strong; [|apply NoDup_map_to_list].
      intros [i1 r1] [i2 r2] [H1 _]%elem_of_map_to_list%reap_lookup
        [H2 _]%elem_of_map_to_list%reap_lookup E. cbn in *. subst r2.
      apply (pi_map _ _ Hi) in H1 as (_ & s1 & Hs1 & <-).
      apply (pi_map _ _ Hi) in H2 as (_ & s2 & Hs2 & <-). congruence.
    - by apply NoDup_filter.
    - intros r. rewrite list_elem_of_filter, list_elem_of_fmap. split.
      + intros ([i r'] & -> & [H1 Hc]%elem_of_map_to_list%reap_lookup).
        split; [done|]. by apply (pi_map _ _ Hi) in H1 as [? _].
      + intros [Hc Hr]. destruct (pi_held _ _ Hi Hd r) as [?|[[id Hid]|(t & rs & Ht & _)]].
        * set_solver.
        * congruence.
        * exists (id, r). split; [done|]. by apply elem_of_map_to_list, reap_lookup.
        * by rewrite Htk in Ht. }
  assert (Hpart : #(filter (λ r, ref_closed (heap w) r = true) (admitted w))
    + #(filter (λ r, ref_closed (heap w) r = false) (admitted w)) = #(admitted w)).
  { clear. induction (admitted w) as [|r l IH]; [done|]. rewrite !filter_cons, len_cons.
    destruct (ref_closed (heap w) r) eqn:E;
      repeat (destruct (decide _); try done); rewrite len_cons; lia. }
  unfold stats. cbn. rewrite Hst, Hlive. f_equal.
  pose proof (len_nonneg (filter (λ r, ref_closed (heap w) r = true) (admitted w))). lia.
Qed.
End PoolProperties.

(** ** Witnesses *)

Definition toy_start (id : str) : StartRequest → Res StartOutput := λ _,
  Ok {| out_session_id := Some id; out_stream_url := Some (lit "wss://x");
        out_token_value := Some (lit "t") |}.
Definition toy_run (t : nat) (id : str) : pool_op (C := Chan) :=
  PoolRun t (toy_start id) (toy_connect true).
Definition toy_pool_config : PoolConfig :=
  {| max_sessions := 1; allow_duplicate_targets := false;
     session_defaults := SessionConfig_default |}.

(** Two callers pass the first check of a pool with one slot; the second session is
    rejected when it arrives and terminated. *)
Example toy_race :
  let w := pool_run toy_pool_config toy_manager
    [PoolStart 0 (lit "i-1"); PoolStart 1 (lit "i-2"); toy_run 0 (lit "s-1"); toy_run 1 (lit "s-2");
     toy_run 0 []; toy_run 1 []; toy_run 1 []] in
  calls w = [StartSession; StartSession; TerminateSession (lit "s-2")]
  ∧ (session_ids (heap w) (pool w)).1 = [lit "s-1"] ∧ tasks w = ∅.
Proof. vm_compute. done. Qed.

Lemma distinct_ids_singleton r (s : Session (C := Chan)) : distinct_ids {[ r := s ]}.
Proof. by intros r1 r2 s1 s2 [<- _]%lookup_singleton_Some [<- _]%lookup_singleton_Some. Qed.

Definition toy_ops : list (pool_op (C := Chan)) :=
  [PoolStart 0 (lit "i-1"); toy_run 0 (lit "s-1"); toy_run 0 []].

Lemma pool_no_leak_witness :
  let w := pool_run toy_pool_config toy_manager toy_ops in
  ref_closed (heap (foldl pool_step w
    (PoolShutdown 1 :: replicate (S (size (sessions (pool w)))) (toy_run 1 [])))) 0 = true.
Proof.
  destruct (pool_no_leak toy_pool_config toy_manager toy_ops 1 (toy_start []) (toy_connect true))
    as (_ & _ & _ & Hc).
  - eapply eq_ind_r; [apply (distinct_ids_singleton 0%nat)|vm_compute; reflexivity].
  - vm_compute. reflexivity.
  - destruct (Hc 0%nat) as [H|(t & rs & Ht & _)]; [|exact H|].
    + apply list_elem_of_In. vm_compute. by left.
    + replace (tasks _) with (∅ : gmap nat pool_task) in Ht by (vm_compute; reflexivity).
      by rewrite lookup_empty in Ht.
Defined.

Lemma pool_stats_exact_witness :
  let w := pool_run toy_pool_config toy_manager toy_ops in
  (stats (heap w) (pool w)).1 = {| live := 1; st_started := 1; st_ended := 0 |}.
Proof.
  intros w. unfold w. rewrite pool_stats_exact.
  - vm_compute. reflexivity.
  - eapply eq_ind_r; [apply (distinct_ids_singleton 0%nat)|vm_compute; reflexivity].
  - replace (admitted _) with [0%nat] by (vm_compute; reflexivity). apply NoDup_singleton.
  - vm_compute. reflexivity.
  - vm_compute. reflexivity.
Defined.
