(* ===== verification/Reconnect.v ===== *)
(** * Reconnecting sessions (src/reconnect.rs)

    The state [Inner] that every clone of a [ReconnectingSession] shares, the
    supervisor task, the pumps that forward a session's output into the durable
    fan-out, and the calls of the handle.

    The supervisor is a state machine whose states are its awaits: the head of its
    loop, watching the current session, sleeping before an attempt, and waiting
    for the answer of [ResumeSession] or [StartSession].  An operation of
    [rc_step] runs one participant to its next await, so any interleaving of
    supervisor, pumps and callers is a list of [rc_op]s.  Sessions are references
    into a heap, as in the pool.  The shutdown signal is its latch: [cancelled]
    resolves when it is set.  The broadcast channel is the list of events sent. *)

From S2P Require Import Prelude RustStd Errors Interfaces BinaryProtocol Ack Crypto Channels.
From S2P Require Import Documents Session.

Record ReconnectConfig := {
  max_attempts : Z;                  (* u32, 0 means keep trying *)
  initial_delay : Duration;
  max_delay : Duration;
  rc_session : SessionConfig }.

Definition ReconnectConfig_default : ReconnectConfig :=
  {| max_attempts := 10; initial_delay := from_secs 1; max_delay := from_secs 60;
     rc_session := SessionConfig_default |}.

Inductive ReconnectEvent :=
| Disconnected (reason : CloseReason)
| Reconnecting (attempt : Z) (delay : Duration)
| Resumed (id : str) (attempts : Z)
| Reconnected (id : str) (attempts : Z)
| GaveUp (attempts : Z) (reason : text).

(** [jitter]; [gen_range n] is the sample of [0..=n] drawn from the random number
    generator. *)
Definition jitter (gen_range : Z → Z) (ceiling : Duration) : Duration :=
  let millis := Z.min (as_millis ceiling) (2 ^ 64 - 1) in
  if millis =? 0 then 0 else from_millis (gen_range millis).

(** Where the supervisor waits.  [old] is the session a resume continues. *)
Inductive Supervisor :=
| LoopHead
| Watching (r : nat)
| Sleeping (attempt ceiling : Z) (resume_from : option (str * nat))
| Resuming (attempt ceiling : Z) (id : str) (old : nat)
| Starting (attempt ceiling : Z)
| Finished
| Crashed                            (* it panicked *)
| Aborted.

Section Reconnect.
Context {C : Type → Type} `{Mpsc C} {Signer Kms : Type}.
Abbreviation SessionTable := (gmap nat (Session (C := C))).
Abbreviation Manager := (SessionManager (Signer := Signer) (Kms := Kms)).
Abbreviation Connect := (SessionCore (C := C) →
  ConnectionParams (Signer := Signer) (Kms := Kms) → Res (C Command)).

(** [Inner], the tasks and calls in flight, and the sessions they share.
    A pump is [None] until it first runs and subscribes, then its stream. *)
Record RcInner := {
  rc_manager : Manager;
  rc_config : ReconnectConfig;
  current : option nat;
  output : Fanout (C := C);
  events : list ReconnectEvent;
  triggered : bool;
  generation : Z;                    (* u64 *)
  heap : SessionTable;
  pumps : gmap nat (option nat);
  supervisor : Supervisor;
  stopping : list (option nat);      (* terminate calls past taking the session *)
  calls : list ApiCall }.

Definition set_supervisor (w : RcInner) (s : Supervisor) : RcInner :=
  {| rc_manager := rc_manager w; rc_config := rc_config w; current := current w;
     output := output w; events := events w; triggered := triggered w;
     generation := generation w; heap := heap w; pumps := pumps w; supervisor := s;
     stopping := stopping w; calls := calls w |}.
Definition emit (e : ReconnectEvent) (w : RcInner) : RcInner :=
  {| rc_manager := rc_manager w; rc_config := rc_config w; current := current w;
     output := output w; events := events w ++ [e]; triggered := triggered w;
     generation := generation w; heap := heap w; pumps := pumps w; supervisor := supervisor w;
     stopping := stopping w; calls := calls w |}.
Definition log_calls (l : list ApiCall) (w : RcInner) : RcInner :=
  {| rc_manager := rc_manager w; rc_config := rc_config w; current := current w;
     output := output w; events := events w; triggered := triggered w;
     generation := generation w; heap := heap w; pumps := pumps w; supervisor := supervisor w;
     stopping := stopping w; calls := calls w ++ l |}.
Definition set_heap (w : RcInner) (h : SessionTable) : RcInner :=
  {| rc_manager := rc_manager w; rc_config := rc_config w; current := current w;
     output := output w; events := events w; triggered := triggered w;
     generation := generation w; heap := h; pumps := pumps w; supervisor := supervisor w;
     stopping := stopping w; calls := calls w |}.
Definition set_output (w : RcInner) (f : Fanout (C := C)) : RcInner :=
  {| rc_manager := rc_manager w; rc_config := rc_config w; current := current w;
     output := f; events := events w; triggered := triggered w;
     generation := generation w; heap := heap w; pumps := pumps w; supervisor := supervisor w;
     stopping := stopping w; calls := calls w |}.
Definition set_pumps (w : RcInner) (p : gmap nat (option nat)) : RcInner :=
  {| rc_manager := rc_manager w; rc_config := rc_config w; current := current w;
     output := output w; events := events w; triggered := triggered w;
     generation := generation w; heap := heap w; pumps := p; supervisor := supervisor w;
     stopping := stopping w; calls := calls w |}.
Definition set_current (w : RcInner) (o : option nat) : RcInner :=
  {| rc_manager := rc_manager w; rc_config := rc_config w; current := o;
     output := output w; events := events w; triggered := triggered w;
     generation := generation w; heap := heap w; pumps := pumps w; supervisor := supervisor w;
     stopping := stopping w; calls := calls w |}.
Definition set_stopping (w : RcInner) (l : list (option nat)) : RcInner :=
  {| rc_manager := rc_manager w; rc_config := rc_config w; current := current w;
     output := output w; events := events w; triggered := triggered w;
     generation := generation w; heap := heap w; pumps := pumps w; supervisor := supervisor w;
     stopping := l; calls := calls w |}.

(** [shutdown.shutdown()]. *)
Definition trigger (w : RcInner) : RcInner :=
  {| rc_manager := rc_manager w; rc_config := rc_config w; current := current w;
     output := output w; events := events w; triggered := true;
     generation := generation w; heap := heap w; pumps := pumps w; supervisor := supervisor w;
     stopping := stopping w; calls := calls w |}.

(** Install a session and spawn its pump. *)
Definition adopt (s : Session (C := C)) (w : RcInner) : RcInner :=
  let r := fresh (dom (heap w)) in
  {| rc_manager := rc_manager w; rc_config := rc_config w; current := Some r;
     output := output w; events := events w; triggered := triggered w;
     generation := wrap_u 64 (generation w + 1); heap := <[r := s]> (heap w);
     pumps := <[r := None]> (pumps w); supervisor := supervisor w; stopping := stopping w;
     calls := calls w |}.

(** [config.session.target = target]. *)
Definition with_target (t : str) (c : SessionConfig) : SessionConfig :=
  {| target := t; document := document c; reason := reason c; ready_timeout := ready_timeout c;
     heartbeat_interval := heartbeat_interval c; idle_timeout := idle_timeout c;
     payload_chunk_size := payload_chunk_size c; output_buffer := output_buffer c;
     endpoint_policy := endpoint_policy c |}.

Definition connect_with (api : StartRequest → Res StartOutput) (connect : Connect)
    (t : str) (c : ReconnectConfig) (m : Manager) : Res RcInner * list ApiCall :=
  let c := {| max_attempts := max_attempts c; initial_delay := initial_delay c;
              max_delay := max_delay c; rc_session := with_target t (rc_session c) |} in
  let inner := {| rc_manager := m; rc_config := c; current := None; output := Fanout_new;
                  events := []; triggered := false; generation := 0; heap := ∅; pumps := ∅;
                  supervisor := LoopHead; stopping := []; calls := [] |} in
  match start_session api connect m (rc_session c) with
  | (Ok s, log) => (Ok (log_calls log (adopt s inner)), log)
  | (Err e, log) => (Err e, log)
  end.

(** ** The supervisor *)

(** After the loop of [supervise]. *)
Definition wind_down (w : RcInner) : RcInner :=
  set_supervisor (set_current (set_output w (Channels.close (output w))) None) Finished.

(** [reconnect] failed with [e]. *)
Definition gave_up (e : Error) (w : RcInner) : RcInner :=
  wind_down (emit (GaveUp (max_attempts (rc_config w)) (to_string e)) w).

(** The head of [reconnect]'s loop, up to the sleep. *)
Definition next_attempt (gen_range : Z → Z) (attempt ceiling : Z)
    (resume_from : option (str * nat)) (w : RcInner) : RcInner :=
  let attempt := wrap_u 32 (attempt + 1) in
  let max := max_attempts (rc_config w) in
  if (0 <? max) && (max <? attempt) then
    gave_up (transport [PLit "gave up reconnecting to "; PStr (target (rc_session (rc_config w)));
      PLit " after "; PInt max; PLit " attempts"]) w
  else
    let delay := jitter gen_range ceiling in
    set_supervisor (emit (Reconnecting attempt delay) w) (Sleeping attempt ceiling resume_from).

(** [ceiling = (ceiling * 2).min(max_delay)] and the next iteration. *)
Definition back_off (gen_range : Z → Z) (attempt ceiling : Z)
    (resume_from : option (str * nat)) (w : RcInner) : RcInner :=
  match dur_mul ceiling 2 with
  | Panicked => set_supervisor w Crashed
  | Done d => next_attempt gen_range attempt (Z.min d (max_delay (rc_config w))) resume_from w
  end.

(** The watched session [r] has closed. *)
Definition on_closed (gen_range : Z → Z) (r : nat) (s : Session (C := C)) (w : RcInner) : RcInner :=
  let reason := default (Transport [PLit "connection lost"]) (close_reason (core s)) in
  let w := emit (Disconnected reason) w in
  if negb (is_recoverable reason) then
    wind_down (emit (GaveUp 0 (reason_to_string reason)) w)
  else
    let resume_from := if is_resumable reason then Some (session_id (core s), r) else None in
    next_attempt gen_range 0 (initial_delay (rc_config w)) resume_from w.

(** The supervisor is polled: the two [select!]s are biased towards shutdown; a
    sleeping supervisor that is polled otherwise has slept its delay. *)
Definition wake (gen_range : Z → Z) (w : RcInner) : RcInner :=
  match supervisor w with
  | LoopHead =>
    set_supervisor w match current w with Some r => Watching r | None => Finished end
  | Watching r =>
    if triggered w then set_supervisor w Finished
    else match heap w !! r with
         | Some s => if closed_resolves (core s) then on_closed gen_range r s w else w
         | None => w
         end
  | Sleeping attempt ceiling resume_from =>
    if triggered w then
      gave_up (Error_SessionClosed [PLit "shutdown requested while reconnecting"]) w
    else set_supervisor w
      match resume_from with
      | Some (id, old) => Resuming attempt ceiling id old
      | None => Starting attempt ceiling
      end
  | _ => w
  end.

(** [ResumeSession] has answered. *)
Definition resume_answered (api_resume : str → Res ResumeOutput) (connect : Connect)
    (gen_range : Z → Z) (attempt ceiling : Z) (id : str) (old : nat) (w : RcInner) : RcInner :=
  match heap w !! old with
  | None => w
  | Some dead =>
    let '(res, log) := resume_session api_resume connect (rc_manager w) id
                         (rc_session (rc_config w)) (continuity (core dead)) in
    let w := log_calls log w in
    match res with
    | Ok (Some s) => set_supervisor (emit (Resumed id attempt) (adopt s w)) LoopHead
    | Ok None => set_supervisor w (Starting attempt ceiling)
    | Err e =>
      if negb (is_retriable e) then set_supervisor w (Starting attempt ceiling)
      else back_off gen_range attempt ceiling (Some (id, old)) w
    end
  end.

(** [StartSession] has answered. *)
Definition start_answered (api_start : StartRequest → Res StartOutput) (connect : Connect)
    (gen_range : Z → Z) (attempt ceiling : Z) (w : RcInner) : RcInner :=
  let '(res, log) := start_session api_start connect (rc_manager w) (rc_session (rc_config w)) in
  let w := log_calls log w in
  match res with
  | Ok s => set_supervisor (emit (Reconnected (session_id (core s)) attempt) (adopt s w)) LoopHead
  | Err e =>
    if negb (is_retriable e) then gave_up e w
    else back_off gen_range attempt ceiling None w
  end.

Definition answered (api_start : StartRequest → Res StartOutput)
    (api_resume : str → Res ResumeOutput) (connect : Connect) (gen_range : Z → Z)
    (w : RcInner) : RcInner :=
  match supervisor w with
  | Resuming a c id old => resume_answered api_resume connect gen_range a c id old w
  | Starting a c => start_answered api_start connect gen_range a c w
  | _ => w
  end.

(** ** The pumps *)

(** One turn of the pump of session [r]: subscribe, forward a chunk, or finish. *)
Definition pump_output (r : nat) (w : RcInner) : RcInner :=
  match pumps w !! r, heap w !! r with
  | Some None, Some s =>
    let '(i, c) := core_subscribe (core s) in
    set_pumps (set_heap w (<[r := set_core s c]> (heap w))) (<[r := Some i]> (pumps w))
  | Some (Some i), Some s =>
    let '(x, f) := Channels.recv i (fanout (core s)) in
    let w' := set_heap w (<[r := set_core s (set_fanout (core s) f)]> (heap w)) in
    match x with
    | Item chunk => set_output w' (Channels.send chunk (output w))
    | Ended => set_pumps w' (delete r (pumps w))
    | Pending_ => w'
    end
  | _, _ => w
  end.

(** ** The handle *)

Definition rc_target (w : RcInner) : str := target (rc_session (rc_config w)).

Definition is_ready (w : RcInner) : bool :=
  match current w ≫= (heap w !!.) with
  | Some s => sendable (core s) && negb (core_closed (core s))
  | None => false
  end.

(** [output()]. *)
Definition rc_output (w : RcInner) : nat * RcInner :=
  let '(i, f) := Channels.subscribe (output_buffer (rc_session (rc_config w))) (output w) in
  (i, set_output w f).

(** One iteration of [send]'s loop: it returns, waits for room in the session's
    queue, or sleeps 100 ms and tries again. *)
Inductive Turn := Returned (r : Res ()) | Blocked | Again.

Definition send_give_up (now deadline : Z) (w : RcInner) : Turn :=
  if triggered w then
    Returned (Err (Error_SessionClosed [PLit "the reconnecting session has stopped"]))
  else if deadline <=? now then
    Returned (Err (Error_Timeout (ready_timeout (rc_session (rc_config w)))))
  else Again.

Definition rc_send (data : list byte) (now deadline : Z) (w : RcInner) : Turn * RcInner :=
  match current w with
  | None => (send_give_up now deadline w, w)
  | Some r =>
    match heap w !! r with
    | None => (send_give_up now deadline w, w)
    | Some s =>
      if core_closed (core s) then (send_give_up now deadline w, w)
      else
        let '(res, s') := session_send data s in
        let w' := set_heap w (<[r := s']> (heap w)) in
        match res with
        | Some (Ok _) => (Returned (Ok ()), w')
        | Some (Err (Error_SessionClosed _)) => (send_give_up now deadline w', w')
        | Some (Err e) => (Returned (Err e), w')
        | None => (Blocked, w')
        end
    end
  end.

(** [terminate]: first the signal is set and the session taken, then the session is
    terminated and the output closed. *)
Definition terminate_begin (w : RcInner) : RcInner :=
  set_stopping (set_current (trigger w) None) (stopping w ++ [current w]).

Definition terminate_end (w : RcInner) : RcInner :=
  match stopping w with
  | [] => w
  | o :: rest =>
    let w := set_stopping w rest in
    let w :=
      match o ≫= (λ r, (r,.) <$> heap w !! r) with
      | Some (r, s) =>
        let '(_, s', log) := terminate s in log_calls log (set_heap w (<[r := s']> (heap w)))
      | None => w
      end in
    set_output w (Channels.close (output w))
  end.

(** [Drop] of the last handle. *)
Definition drop_last (w : RcInner) : RcInner :=
  set_supervisor (trigger w)
    match supervisor w with Finished => Finished | Crashed => Crashed | _ => Aborted end.

(** ** Histories *)

Inductive rc_op :=
| Wake (gen_range : Z → Z)
| Answer (api_start : StartRequest → Res StartOutput) (api_resume : str → Res ResumeOutput)
    (connect : Connect) (gen_range : Z → Z)
| Pump (r : nat)
| Subscribe
| Send (data : list byte) (now deadline : Z)
| TerminateBegin
| TerminateEnd
| DropLast
| SessionOp (r : nat) (o : core_op). (* a session's own tasks, or its user *)

Definition rc_step (w : RcInner) (o : rc_op) : RcInner :=
  match o with
  | Wake g => wake g w
  | Answer a b c g => answered a b c g w
  | Pump r => pump_output r w
  | Subscribe => (rc_output w).2
  | Send d now dl => (rc_send d now dl w).2
  | TerminateBegin => terminate_begin w
  | TerminateEnd => terminate_end w
  | DropLast => drop_last w
  | SessionOp r o => set_heap w (alter (λ s, set_core s (core_step (core s) o)) r (heap w))
  end.
End Reconnect.

(** ** The protocol of events *)

(** What a subscriber that saw every event knows: the session [id] is up; it went
    down for a reason, and attempt [k] with some ceiling was the last; it is over. *)
Inductive phase :=
| Up (id : str)
| Down (id : str) (r : CloseReason) (k : Z) (ceiling : option Z)
| Over.

(** The ceiling on the next attempt's delay: doubled each time, and capped. *)
Definition next_ceiling (c : ReconnectConfig) (last : option Z) : Z :=
  match last with
  | None => initial_delay c
  | Some d => Z.min (d * 2) (max_delay c)
  end.

Definition ev_step (c : ReconnectConfig) (p : phase) (e : ReconnectEvent) : option phase :=
  match p, e with
  | Up id, Disconnected r => Some (Down id r 0 None)
  | Down id r k last, Reconnecting a delay =>
    let ceiling := next_ceiling c last in
    if is_recoverable r && (a =? wrap_u 32 (k + 1))
       && ((max_attempts c =? 0) || (a <=? max_attempts c))
       && (0 <=? delay) && (delay <=? ceiling)
    then Some (Down id r a (Some ceiling)) else None
  | Down id r k (Some _), Resumed id' n =>
    if is_resumable r && bool_decide (id' = id) && (n =? k) then Some (Up id) else None
  | Down id r k (Some _), Reconnected id' n =>
    if is_recoverable r && (n =? k) then Some (Up id') else None
  | Down id r k last, GaveUp n _ =>
    if is_recoverable r then (if n =? max_attempts c then Some Over else None)
    else match last with
         | None => if n =? 0 then Some Over else None
         | Some _ => None
         end
  | _, _ => None
  end.

Definition ev_run (c : ReconnectConfig) (id : str) (es : list ReconnectEvent) : option phase :=
  foldl (λ o e, p ← o; ev_step c p e) (Some (Up id)) es.

Definition is_up (e : ReconnectEvent) : bool :=
  match e with Resumed _ _ | Reconnected _ _ => true | _ => false end.
Definition ups (es : list ReconnectEvent) : Z := #(List.filter is_up es).

(** A sampler of [gen_range(0..=n)]. *)
Definition rng_ok (g : Z → Z) : Prop := ∀ n, 0 ≤ n → 0 ≤ g n ≤ n.

Definition op_ok {C : Type → Type} `{Mpsc C} {Signer Kms}
    (o : rc_op (C := C) (Signer := Signer) (Kms := Kms)) : Prop :=
  match o with Wake g | Answer _ _ _ g => rng_ok g | _ => True end.

(** Attempts are counted in a [u32], durations are not negative. *)
Definition config_ok (c : ReconnectConfig) : Prop :=
  0 ≤ max_attempts c < 2 ^ 32 ∧ 0 ≤ initial_delay c ∧ 0 ≤ max_delay c.

Lemma ev_run_snoc c id es e :
  ev_run c id (es ++ [e]) = p ← ev_run c id es; ev_step c p e.
Proof. unfold ev_run. by rewrite foldl_snoc. Qed.

Lemma ups_snoc es e : ups (es ++ [e]) = ups es + if is_up e then 1 else 0.
Proof.
  unfold ups. rewrite List.filter_app, len_app. cbn. by destruct (is_up e).
Qed.

Lemma jitter_range g c : rng_ok g → 0 ≤ c → 0 ≤ jitter g c ≤ c.
Proof.
  intros Hg Hc. unfold jitter, from_millis, as_millis.
  pose proof (Z.mul_div_le c 1000000). pose proof (Z.div_pos c 1000000).
  destruct (Z.eqb_spec (Z.min (c / 1000000) (2 ^ 64 - 1)) 0); [lia|].
  specialize (Hg (Z.min (c / 1000000) (2 ^ 64 - 1))). lia.
Qed.

Lemma next_ceiling_nonneg c last :
  config_ok c → (∀ d, last = Some d → 0 ≤ d) → 0 ≤ next_ceiling c last.
Proof.
  intros (_ & ? & ?) Hl. destruct last as [d|]; cbn; [|done]. specialize (Hl d eq_refl). lia.
Qed.

Section ReconnectInvariant.
Context {C : Type → Type} `{Mpsc C} {Signer Kms : Type}.
Abbreviation RW := (RcInner (C := C) (Signer := Signer) (Kms := Kms)).

Definition phase_id (p : phase) : option str :=
  match p with Up id | Down id _ _ _ => Some id | Over => None end.

(** Session [r] exists and has identifier [id]. *)
Definition names (w : RW) (r : nat) (id : str) : Prop :=
  ∃ s, heap w !! r = Some s ∧ session_id (core s) = id.

Definition resume_ok (w : RW) (id : str) (r : CloseReason) (rf : option (str * nat)) : Prop :=
  ∀ i old, rf = Some (i, old) → i = id ∧ is_resumable r = true ∧ names w old id.

(** The supervisor's state and the phase its events are in. *)
Definition tracks (w : RW) (p : phase) : Prop :=
  match supervisor w with
  | LoopHead => ∃ id, p = Up id
  | Watching r => ∃ id, p = Up id ∧ names w r id
  | Sleeping a c rf => ∃ id r, p = Down id r a (Some c) ∧ is_recoverable r = true ∧ 0 ≤ c
      ∧ resume_ok w id r rf
  | Resuming a c i old => ∃ r, p = Down i r a (Some c) ∧ is_recoverable r = true ∧ 0 ≤ c
      ∧ resume_ok w i r (Some (i, old))
  | Starting a c => ∃ id r, p = Down id r a (Some c) ∧ is_recoverable r = true ∧ 0 ≤ c
  | Finished => p = Over ∨ ∃ id, p = Up id
  | Crashed | Aborted => True
  end.

(** What holds wherever the supervisor is, and what its await adds. *)
Record rc_mid (c : ReconnectConfig) (id0 : str) (w : RW) (p : phase) : Prop := {
  rm_config : rc_config w = c;
  rm_events : ev_run c id0 (events w) = Some p;
  rm_gen : generation w = wrap_u 64 (1 + ups (events w));
  rm_current : ∀ r, current w = Some r → ∃ id, phase_id p = Some id ∧ names w r id }.

Record rc_inv (c : ReconnectConfig) (id0 : str) (w : RW) (p : phase) : Prop := {
  ri_mid : rc_mid c id0 w p;
  ri_sup : tracks w p;
  ri_over : p = Over → current w = None ∧ closed (output w) = true
            ∧ (supervisor w = Finished ∨ supervisor w = Aborted) }.

Lemma names_le (w w' : RW) r id : heap_le (heap w) (heap w') → names w r id → names w' r id.
Proof. intros Hle (s & Hs & <-). apply Hle in Hs as (s' & ? & ? & _). by exists s'. Qed.

Lemma tracks_le (w w' : RW) p :
  heap_le (heap w) (heap w') → supervisor w' = supervisor w → tracks w p → tracks w' p.
Proof.
  intros Hle Hs. unfold tracks, resume_ok. rewrite Hs. destruct (supervisor w); try done.
  - intros (id & -> & ?). exists id. eauto using names_le.
  - intros (id & r & -> & ? & ? & Hr). exists id, r. split_and!; try done.
    intros i old E. destruct (Hr i old E) as (? & ? & ?). eauto using names_le.
  - intros (r & -> & ? & ? & Hr). exists r. split_and!; try done.
    intros i' old' E. destruct (Hr i' old' E) as (? & ? & ?). eauto using names_le.
Qed.

(** Steps that touch neither the supervisor nor the events. *)
Lemma rc_inv_frame c id0 (w w' : RW) p :
  rc_inv c id0 w p → heap_le (heap w) (heap w') → rc_config w' = rc_config w →
  events w' = events w → generation w' = generation w → supervisor w' = supervisor w →
  (current w' = current w ∨ current w' = None) →
  (closed (output w) = true → closed (output w') = true) →
  rc_inv c id0 w' p.
Proof.
  intros [[Hc He Hg Hcur] Hs Ho] Hle Ec Ee Eg Es Ecur Ecl. split; [split|..].
  - congruence.
  - by rewrite Ee.
  - by rewrite Eg, Ee.
  - intros r Hr. destruct Ecur as [E|E]; rewrite E in Hr; [|done].
    apply Hcur in Hr as (id & ? & ?). eauto using names_le.
  - by eapply tracks_le.
  - intros Hp. destruct (Ho Hp) as (Hn & Hcl & Hf). rewrite Es. split_and!; [|auto|done].
    destruct Ecur; congruence.
Qed.

(** An event that starts no session. *)
Lemma rc_mid_emit c id0 (w : RW) p e p' :
  rc_mid c id0 w p → ev_step c p e = Some p' → is_up e = false →
  (∀ r, current w = Some r → phase_id p' = phase_id p) →
  rc_mid c id0 (emit e w) p'.
Proof.
  intros [Hc He Hg Hcur] Hstep Hup Hid. split.
  - done.
  - change (events (emit e w)) with (events w ++ [e]). rewrite ev_run_snoc, He. done.
  - change (events (emit e w)) with (events w ++ [e]). rewrite ups_snoc, Hup, Z.add_0_r. done.
  - intros r Hr. rewrite (Hid r Hr). by apply Hcur.
Qed.

Lemma close_closed (f : Fanout (C := C)) : closed (Channels.close f) = true.
Proof. unfold Channels.close. by destruct (closed f) eqn:E. Qed.

(** The end of the loop after the event [GaveUp]. *)
Lemma rc_inv_wind_down c id0 (w : RW) p n m :
  rc_mid c id0 w p → ev_step c p (GaveUp n m) = Some Over →
  rc_inv c id0 (wind_down (emit (GaveUp n m) w)) Over.
Proof.
  intros [Hc He Hg _] Hstep. split; [split|..].
  - done.
  - etrans; [apply ev_run_snoc|]. rewrite He. done.
  - etrans; [exact Hg|]. do 2 f_equal. symmetry. etrans; [apply ups_snoc|]. apply Z.add_0_r.
  - done.
  - by left.
  - intros _. split_and!; [done|apply close_closed|by left].
Qed.

Lemma rc_inv_give_up c id0 (w : RW) id r k last e :
  rc_mid c id0 w (Down id r k last) → is_recoverable r = true →
  rc_inv c id0 (gave_up e w) Over.
Proof.
  intros Hm Hr. unfold gave_up. apply rc_inv_wind_down with (p := Down id r k last); [done|].
  rewrite (rm_config _ _ _ _ Hm). cbn. rewrite Hr, Z.eqb_refl. by destruct last.
Qed.

Lemma rc_inv_next_attempt c id0 (w : RW) id r k last g rf :
  config_ok c → rng_ok g → rc_mid c id0 w (Down id r k last) → is_recoverable r = true →
  (∀ d, last = Some d → 0 ≤ d) → resume_ok w id r rf →
  ∃ p, rc_inv c id0 (next_attempt g k (next_ceiling c last) rf w) p.
Proof.
  intros Hok Hg Hm Hr Hl Hrf. unfold next_attempt. rewrite (rm_config _ _ _ _ Hm).
  destruct ((0 <? max_attempts c) && _) eqn:Emax; [eexists; by eapply rc_inv_give_up|].
  pose proof (next_ceiling_nonneg c last Hok Hl) as Hn.
  pose proof (jitter_range g _ Hg Hn) as Hj.
  eexists (Down id r _ _). split; [|by exists id, r|done].
  eapply rc_mid_emit in Hm as Hm'; [split; apply Hm'| |done|done]. cbn.
  rewrite Hr, Z.eqb_refl. cbn [andb]. destruct Hok as (Hmax & _).
  replace ((max_attempts c =? 0) || _) with true by (symmetry; bool_lia).
  cbn [andb]. rewrite (proj2 (Z.leb_le _ _) (proj1 Hj)), (proj2 (Z.leb_le _ _) (proj2 Hj)).
  by destruct last.
Qed.

Lemma rc_inv_back_off c id0 (w : RW) id r k d g rf :
  config_ok c → rng_ok g → rc_mid c id0 w (Down id r k (Some d)) → is_recoverable r = true →
  0 ≤ d → resume_ok w id r rf →
  ∃ p, rc_inv c id0 (back_off g k d rf w) p.
Proof.
  intros Hok Hg Hm Hr Hd Hrf. unfold back_off, dur_mul, checked_dur.
  destruct (_ <=? _).
  - rewrite (rm_config _ _ _ _ Hm).
    change (Z.min (d * 2) (max_delay c)) with (next_ceiling c (Some d)).
    eapply rc_inv_next_attempt; try done. by intros ? [= <-].
  - exists (Down id r k (Some d)). split; [|done..]. split; apply Hm.
Qed.

Lemma rc_mid_calls c id0 (w : RW) p l : rc_mid c id0 w p → rc_mid c id0 (log_calls l w) p.
Proof. intros []. by split. Qed.

Lemma rc_inv_adopt c id0 (w : RW) p e s :
  rc_mid c id0 w p → ev_step c p e = Some (Up (session_id (core s))) → is_up e = true →
  rc_inv c id0 (set_supervisor (emit e (adopt s w)) LoopHead) (Up (session_id (core s))).
Proof.
  intros [Hc He Hg _] Hstep Hup. split; [split|..].
  - done.
  - etrans; [apply ev_run_snoc|]. cbn [events adopt]. rewrite He. done.
  - cbn [generation set_supervisor emit adopt events]. rewrite ups_snoc, Hup, Hg.
    unfold wrap_u. rewrite Zplus_mod_idemp_l. f_equal. lia.
  - intros r [= <-]. eexists. split; [done|]. exists s. cbn. by rewrite lookup_insert_eq.
  - by eexists.
  - done.
Qed.

Lemma resume_session_id m cfg id cont api connect s log :
  resume_session (C := C) (Signer := Signer) (Kms := Kms) api connect m id cfg cont
    = (Ok (Some s), log) → session_id (core s) = id ∧ continuity (core s) = cont.
Proof.
  unfold resume_session, resume_session_on. destruct (config_validate cfg); [|done].
  destruct (api id) as [resp|]; [|done].
  destruct (res_stream_url resp), (res_token_value resp); try done. destruct (decide _); [done|].
  unfold session_open_on, connect_queue. cbn. destruct (connect _ _); [|done]. by intros [= <- <-].
Qed.

Lemma rc_inv_wake c id0 (w : RW) p g :
  config_ok c → rng_ok g → rc_inv c id0 w p → ∃ p', rc_inv c id0 (wake g w) p'.
Proof.
  intros Hok Hg Hi. pose proof Hi as [Hm Hs Ho]. unfold wake, tracks in *.
  destruct (supervisor w) as [|r|a d rf|a d i old|a d| | |] eqn:Es; try by exists p.
  - destruct Hs as [id ->]. exists (Up id). split; [split; apply Hm| |done].
    unfold tracks. cbn. destruct (current w) as [r|] eqn:Ec; [|by right; eexists].
    apply (rm_current _ _ _ _ Hm) in Ec as (id' & [= <-] & ?). by exists id.
  - destruct Hs as (id & -> & s & Hs & Hid). destruct (triggered w).
    { exists (Up id). split; [split; apply Hm|by right; eexists|done]. }
    rewrite Hs. destruct (closed_resolves (core s)); [|by exists (Up id)].
    unfold on_closed. set (rsn := default _ _).
    eapply (rc_mid_emit _ _ _ _ (Disconnected rsn) (Down id rsn 0 None)) in Hm; [|done..].
    destruct (is_recoverable rsn) eqn:Er; cbn [negb].
    + change (initial_delay _) with (initial_delay (rc_config (emit (Disconnected rsn) w))).
      rewrite (rm_config _ _ _ _ Hm). change (initial_delay c) with (next_ceiling c None).
      eapply rc_inv_next_attempt; try done. intros i old.
      destruct (is_resumable rsn) eqn:Ers; [|done]. intros [= <- <-]. split_and!; [done..|].
      by exists s.
    + eexists. eapply rc_inv_wind_down; [done|]. cbn. by rewrite Er.
  - destruct Hs as (id & r & -> & Hr & Hd & Hrf). destruct (triggered w).
    { eexists. by eapply rc_inv_give_up. }
    exists (Down id r a (Some d)). split; [split; apply Hm| |done]. unfold tracks; cbn.
    destruct rf as [[i old]|]; [|by exists id, r].
    destruct (Hrf i old eq_refl) as (-> & ? & ?). exists r. split_and!; [done..|].
    by intros ? ? [= <- <-].
Qed.

Lemma rc_inv_answered c id0 (w : RW) p a b cn g :
  config_ok c → rng_ok g → rc_inv c id0 w p → ∃ p', rc_inv c id0 (answered a b cn g w) p'.
Proof.
  intros Hok Hg Hi. pose proof Hi as [Hm Hs Ho]. unfold answered, tracks in *.
  destruct (supervisor w) as [| | |k d i old|k d| | |] eqn:Es; try by exists p.
  - destruct Hs as (r & -> & Hr & Hd & Hrf). unfold resume_answered.
    destruct (Hrf i old eq_refl) as (_ & Hrs & s & Hold & _). rewrite Hold.
    destruct (resume_session _ _ _ _ _ _) as [[[s'|]|e] log] eqn:Eres;
      apply (rc_mid_calls _ _ _ _ log) in Hm as Hm'.
    + apply resume_session_id in Eres as [Hid _]. exists (Up (session_id (core s'))).
      eapply rc_inv_adopt; [done| |done]. cbn.
      by rewrite Hrs, Hid, bool_decide_true, Z.eqb_refl.
    + exists (Down i r k (Some d)). split; [split; apply Hm'|by exists i, r|done].
    + destruct (is_retriable e); cbn [negb].
      * eapply rc_inv_back_off; try done.
      * exists (Down i r k (Some d)). split; [split; apply Hm'|by exists i, r|done].
  - destruct Hs as (id & r & -> & Hr & Hd). unfold start_answered.
    destruct (start_session _ _ _ _) as [[s'|e] log];
      apply (rc_mid_calls _ _ _ _ log) in Hm as Hm'.
    + exists (Up (session_id (core s'))). eapply rc_inv_adopt; [done| |done]. cbn.
      by rewrite Hr, Z.eqb_refl.
    + destruct (is_retriable e); cbn [negb].
      * eapply rc_inv_back_off; try done.
      * eexists. by eapply rc_inv_give_up.
Qed.

Lemma session_send_core d (s : Session (C := C)) :
  core (session_send d s).2 = core s ∧ config (session_send d s).2 = config s.
Proof.
  unfold session_send, dispatch. destruct (core_closed _); [done|].
  by destruct (try_send _ _) as [[] ?].
Qed.

(** What the participants other than the supervisor leave alone. *)
Definition bystander (w w' : RW) : Prop :=
  heap_le (heap w) (heap w') ∧ rc_config w' = rc_config w ∧ events w' = events w
  ∧ generation w' = generation w ∧ supervisor w' = supervisor w
  ∧ (current w' = current w ∨ current w' = None)
  ∧ (closed (output w) = true → closed (output w') = true)
  ∧ (triggered w = true → triggered w' = true).

Lemma bystander_refl w : bystander w w.
Proof. split_and!; auto using heap_le_refl. Qed.

Lemma pump_bystander r (w : RW) : bystander w (pump_output r w).
Proof.
  unfold pump_output. destruct (pumps w !! r) as [[i|]|], (heap w !! r) as [s|] eqn:Hs;
    try apply bystander_refl.
  - destruct (Channels.recv i (fanout (core s))) as [x f].
    assert (heap_le (heap w) (<[r := set_core s (set_fanout (core s) f)]> (heap w)))
      by by eapply heap_le_insert.
    destruct x; split_and!; auto. cbn. by rewrite emit_closed.
  - destruct (core_subscribe (core s)) as [i c] eqn:Ec. split_and!; auto. cbn.
    pose proof (core_subscribe_fanout (core s)) as Hf. rewrite Ec in Hf. cbn in Hf. subst c.
    by eapply heap_le_insert.
Qed.

Lemma send_bystander d now dl (w : RW) : bystander w (rc_send d now dl w).2.
Proof.
  unfold rc_send. destruct (current w) as [r|]; [|apply bystander_refl].
  destruct (heap w !! r) as [s|] eqn:Hs; [|apply bystander_refl].
  destruct (core_closed (core s)); [apply bystander_refl|].
  destruct (session_send_core d s) as [Hc Hf]. destruct (session_send d s) as [res s'].
  assert (Hle : heap_le (heap w) (<[r := s']> (heap w))).
  { eapply heap_le_insert; [done|by cbn in *; congruence..]. }
  destruct res as [[|[]]|]; split_and!; auto.
Qed.

Lemma terminate_end_bystander (w : RW) : bystander w (terminate_end w).
Proof.
  unfold terminate_end. destruct (stopping w) as [|o rest]; [apply bystander_refl|].
  destruct (o ≫= _) as [[r s]|] eqn:Eo; cbn [heap set_stopping] in Eo.
  - assert (Hs : heap w !! r = Some s).
    { apply bind_Some in Eo as (r' & _ & (s' & Hs & [= <- <-])%fmap_Some). done. }
    destruct (terminate s) as [[res s'] log] eqn:Et.
    destruct (terminate_mono _ _ _ _ Et) as (? & ? & ?).
    split_and!; auto; cbn; [by eapply heap_le_insert|]. intros _. apply close_closed.
  - split_and!; auto; cbn; [apply heap_le_refl|]. intros _. apply close_closed.
Qed.

(** Every operation is the supervisor's, drops the last handle, or is a bystander's. *)
Lemma rc_step_bystander (w : RW) o :
  match o with Wake _ | Answer _ _ _ _ | DropLast => True | _ => bystander w (rc_step w o) end.
Proof.
  destruct o as [g|a b cn g|r| |d now dl| | | |r o]; cbn [rc_step]; try done.
  - apply pump_bystander.
  - unfold rc_output. pose proof (subscribe_closed
      (output_buffer (rc_session (rc_config w))) (output w)) as Hc.
    destruct (Channels.subscribe _ _) as [i f]. cbn in *.
    split_and!; auto; cbn; [apply heap_le_refl|congruence].
  - apply send_bystander.
  - split_and!; auto; apply heap_le_refl.
  - apply terminate_end_bystander.
  - split_and!; auto. cbn. apply heap_le_alter.
Qed.

Lemma rc_inv_step c id0 (w : RW) p o :
  config_ok c → op_ok o → rc_inv c id0 w p → ∃ p', rc_inv c id0 (rc_step w o) p'.
Proof.
  intros Hok Ho Hi. pose proof (rc_step_bystander w o) as Hb.
  assert (Hby : bystander w (rc_step w o) → ∃ p', rc_inv c id0 (rc_step w o) p').
  { intros (? & ? & ? & ? & ? & ? & ? & _). exists p. by eapply rc_inv_frame. }
  destruct o; try by apply Hby.
  - by eapply rc_inv_wake.
  - by eapply rc_inv_answered.
  - exists p. destruct Hi as [Hm Hs Hov]. split; [split; apply Hm| |].
    + unfold tracks in *. cbn. by destruct (supervisor w).
    + intros Hp. destruct (Hov Hp) as (? & ? & [Hf|Hf]); cbn; rewrite Hf; auto.
Qed.

Lemma rc_inv_steps c id0 os : ∀ (w : RW) p,
  config_ok c → Forall op_ok os → rc_inv c id0 w p → ∃ p', rc_inv c id0 (foldl rc_step w os) p'.
Proof.
  induction os as [|o os IH]; intros w p Hok Ho Hi; [by exists p|].
  apply Forall_cons in Ho as [Ho Hos]. cbn.
  destruct (rc_inv_step c id0 w p o Hok Ho Hi) as [p' Hi']. by eapply IH.
Qed.

Lemma connect_with_inv a cn t c m (w : RW) log :
  connect_with a cn t c m = (Ok w, log) →
  ∃ id, rc_inv (rc_config w) id w (Up id) ∧ config_ok (rc_config w) = config_ok c
    ∧ rc_target w = t ∧ triggered w = false ∧ stopping w = []
    ∧ supervisor w = LoopHead ∧ is_Some (current w).
Proof.
  unfold connect_with. destruct (start_session _ _ _ _) as [[s|e] l]; [|done].
  intros [= <- <-]. exists (session_id (core s)). split; [|by split_and!; eauto].
  split; [split|..]; cbn; try done.
  - intros r [= <-]. eexists. split; [done|]. exists s. cbn. by rewrite lookup_insert_eq.
  - by eexists.
Qed.
End ReconnectInvariant.

(** ** What the handle promises *)

Section ReconnectProperties.
Context {C : Type → Type} `{Mpsc C} {Signer Kms : Type}.
Abbreviation RW := (RcInner (C := C) (Signer := Signer) (Kms := Kms)).

(** C21: the events of a handle follow one protocol, whatever the network, the
    service and the callers do.  A session that is up goes down once; after a
    recoverable close come attempts numbered from 1, at most [max_attempts] of
    them, each delayed by at most the initial delay doubled per attempt and capped;
    they end in the same session resumed (only after a resumable close, under the
    old identifier), in a new one, or in giving up, and a close that is not
    recoverable ends in giving up without an attempt.  The generation counts the
    sessions adopted, the current session is the one the events name, and after
    giving up there is none and the output has ended. *)
Theorem event_protocol a cn t c m (w0 : RW) log os :
  connect_with a cn t c m = (Ok w0, log) → config_ok c → Forall op_ok os →
  let w := foldl rc_step w0 os in
  ∃ id0 p, (∃ r, current w0 = Some r ∧ names w0 r id0)
    ∧ ev_run (rc_config w) id0 (events w) = Some p
    ∧ generation w = wrap_u 64 (1 + ups (events w))
    ∧ (∀ r, current w = Some r → ∃ id, phase_id p = Some id ∧ names w r id)
    ∧ (p = Over → current w = None ∧ closed (output w) = true).
Proof.
  intros Hw Hc Hos w. apply connect_with_inv in Hw as (id0 & Hi & Hok & _ & _ & _ & _ & [r Hr]).
  rewrite <- Hok in Hc. destruct (rc_inv_steps _ _ os w0 _ Hc Hos Hi) as (p & [Hm Hs Ho]).
  exists id0, p. split_and!.
  - exists r. split; [done|].
    by apply (rm_current _ _ _ _ (ri_mid _ _ _ _ Hi)) in Hr as (? & [= <-] & ?).
  - unfold w. rewrite (rm_config _ _ _ _ Hm). apply Hm.
  - apply Hm.
  - apply Hm.
  - intros Hp. destruct (Ho Hp) as (? & ? & _). done.
Qed.

Lemma gave_up_over c id es n m p :
  ev_run c id es = Some p → last es = Some (GaveUp n m) → p = Over.
Proof.
  intros He [es' ->]%last_Some. rewrite ev_run_snoc in He.
  destruct (ev_run c id es') as [[id'|id' r k l|]|]; cbn in He; try done.
  destruct (is_recoverable r), l; cbn in He; split_ifs; by simplify_eq.
Qed.

(** Once the supervisor has given up, there is no session and the output has
    ended, but a [send] does not fail at once: unless the handle was also
    terminated it keeps polling until its deadline and then reports a timeout. *)
Theorem after_giving_up a cn t c m (w0 : RW) log os n reason :
  connect_with a cn t c m = (Ok w0, log) → config_ok c → Forall op_ok os →
  let w := foldl rc_step w0 os in
  last (events w) = Some (GaveUp n reason) → triggered w = false →
  current w = None ∧ closed (output w) = true
  ∧ ∀ data now deadline, rc_send data now deadline w =
      (if deadline <=? now then Returned (Err (Error_Timeout (ready_timeout (rc_session (rc_config w)))))
       else Again, w).
Proof.
  intros Hw Hc Hos w Hlast Htr. apply connect_with_inv in Hw as (id0 & Hi & Hok & _).
  rewrite <- Hok in Hc. destruct (rc_inv_steps _ _ os w0 _ Hc Hos Hi) as (p & [Hm Hs Ho]).
  fold w in Hm, Ho. destruct Ho as (Hcur & Hcl & _).
  { eapply gave_up_over; [apply Hm|done]. }
  split_and!; [done|done|]. intros data now deadline. unfold rc_send, send_give_up.
  by rewrite Hcur, Htr.
Qed.

(** Stopped, and no answer of the service can bring a session back. *)
Definition stopped (w : RW) : Prop :=
  triggered w = true ∧ current w = None
  ∧ match supervisor w with Resuming _ _ _ _ | Starting _ _ => False | _ => True end.

Lemma stopped_step (w : RW) o :
  stopped w → stopped (rc_step w o) ∧ generation (rc_step w o) = generation w.
Proof.
  intros (Ht & Hc & Hs). pose proof (rc_step_bystander w o) as Hb.
  assert (Hby : bystander w (rc_step w o) →
    stopped (rc_step w o) ∧ generation (rc_step w o) = generation w).
  { intros (_ & _ & _ & Hg & Hsup & Hcur & _ & Htr). split; [|done]. split_and!; [auto| |].
    - destruct Hcur; congruence.
    - by rewrite Hsup. }
  destruct o as [g|a b cn g|r| |d now dl| | | |r o]; try by apply Hby; cbn [rc_step].
  - cbn [rc_step]. unfold wake. destruct (supervisor w) eqn:Es; rewrite ?Ht, ?Hc;
      unfold stopped; cbn; rewrite ?Es; done.
  - cbn [rc_step]. unfold answered. destruct (supervisor w) eqn:Es; try done;
      unfold stopped; by rewrite Es.
  - unfold stopped. cbn. by destruct (supervisor w).
Qed.

(** Terminating a handle whose supervisor is not waiting for the service makes
    it inert for good: whatever happens afterwards, no session is adopted and every
    [send] fails at once.  The session it had is closed and the output ended when
    [terminate] returns. *)
Theorem terminate_inert (w : RW) os :
  match supervisor w with Resuming _ _ _ _ | Starting _ _ => False | _ => True end →
  let w' := foldl rc_step (terminate_begin w) os in
  current w' = None ∧ generation w' = generation w
  ∧ (∀ data now deadline, rc_send data now deadline w' =
       (Returned (Err (Error_SessionClosed [PLit "the reconnecting session has stopped"])), w'))
  ∧ (stopping w = [] →
       closed (output (terminate_end (terminate_begin w))) = true
       ∧ ∀ r s, current w = Some r → heap w !! r = Some s →
           ∃ s', heap (terminate_end (terminate_begin w)) !! r = Some s'
             ∧ core_closed (core s') = true).
Proof.
  intros Hs w'.
  assert (stopped w' ∧ generation w' = generation w) as [(Ht & Hc & _) Hg].
  { unfold w'. clear w'. induction os as [|o os IH] using rev_ind; [done|].
    rewrite foldl_snoc. destruct IH as [Hst Hg].
    apply (stopped_step _ o) in Hst as [? ->]. done. }
  split_and!; [done|done| |].
  - intros data now deadline. unfold rc_send, send_give_up. by rewrite Hc, Ht.
  - intros Hsp. unfold terminate_end, terminate_begin. cbn [stopping set_stopping]. rewrite Hsp.
    cbn [app]. split.
    + cbn [output set_output]. apply close_closed.
    + intros r s Hr Hh. rewrite Hr. cbn. rewrite Hh. cbn.
      destruct (terminate s) as [[res s'] l] eqn:Et. apply terminate_mono in Et as (_ & _ & ?).
      exists s'. cbn. by rewrite lookup_insert_eq.
Qed.

Lemma start_session_open m cfg api connect (s : Session (C := C)) log :
  start_session (Signer := Signer) (Kms := Kms) api connect m cfg = (Ok s, log) →
  core_closed (core s) = false.
Proof.
  unfold start_session, start_session_on. destruct (config_validate cfg); [|done].
  destruct (_ ≫= _) as [[[id url] token]|]; [|done]. unfold session_open_on, connect_queue. cbn.
  destruct (connect _ _); [|done]. by intros [= <- <-].
Qed.

Lemma send_ok data now deadline (w : RW) r s q :
  current w = Some r → heap w !! r = Some s → core_closed (core s) = false →
  try_send (Data data) (commands s) = (Sent, q) →
  (rc_send data now deadline w).1 = Returned (Ok ()).
Proof.
  intros Hr Hs Ho Hq. unfold rc_send. rewrite Hr, Hs, Ho.
  unfold session_send, dispatch. by rewrite Ho, Hq.
Qed.

(** C32: terminating a handle while its supervisor waits for [StartSession] does not
    stop it: when the service answers, the new session is adopted after
    [terminate] has returned, the supervisor finishes without terminating it, and
    the handle sends on it again although its output has ended. *)
Theorem terminate_race (w : RW) k ceiling api_start api_resume connect g s log :
  supervisor w = Starting k ceiling → stopping w = [] →
  start_session api_start connect (rc_manager w) (rc_session (rc_config w)) = (Ok s, log) →
  let w' := foldl rc_step w
    [TerminateBegin; TerminateEnd; Answer api_start api_resume connect g; Wake g; Wake g] in
  supervisor w' = Finished ∧ stopping w' = [] ∧ closed (output w') = true
  ∧ ∃ r, current w' = Some r ∧ heap w' !! r = Some s ∧ core_closed (core s) = false
      ∧ ∀ data now deadline q, try_send (Data data) (commands s) = (Sent, q) →
          (rc_send data now deadline w').1 = Returned (Ok ()).
Proof.
  intros Hsup Hstop Hstart.
  pose proof (start_session_open _ _ _ _ _ _ Hstart) as Hopen.
  cbn [foldl rc_step].
  set (w1 := terminate_end (terminate_begin w)).
  assert (H1 : supervisor w1 = Starting k ceiling ∧ stopping w1 = [] ∧ triggered w1 = true
    ∧ rc_manager w1 = rc_manager w ∧ rc_config w1 = rc_config w ∧ closed (output w1) = true).
  { unfold w1, terminate_end, terminate_begin. cbn [stopping set_stopping]. rewrite Hstop.
    cbn [app]. destruct (current w ≫= _) as [[r x]|]; [destruct (terminate x) as [[??]?]|];
      cbn; by rewrite close_closed. }
  clearbody w1. destruct H1 as (Hs1 & Hst1 & Ht1 & Hm1 & Hc1 & Ho1).
  unfold answered. rewrite Hs1. unfold start_answered. rewrite Hm1, Hc1, Hstart.
  set (w2 := wake g (wake g _)).
  assert (H2 : supervisor w2 = Finished ∧ stopping w2 = [] ∧ closed (output w2) = true
    ∧ current w2 = Some (fresh (dom (heap w1)))
    ∧ heap w2 = <[fresh (dom (heap w1)) := s]> (heap w1)).
  { unfold w2, wake. cbn. by rewrite Ht1. }
  clearbody w2. destruct H2 as (Hs2 & Hst2 & Ho2 & Hc2 & Hh2). split_and!; [done..|].
  assert (Hl : heap w2 !! fresh (dom (heap w1)) = Some s) by (rewrite Hh2; apply lookup_insert_eq).
  eexists. split_and!; [done..|]. intros. by eapply send_ok.
Qed.

(** A call that fails without a transient code ends the attempt. *)
Lemma start_fails e (api : StartRequest → Res StartOutput) cn (m : SessionManager) c :
  config_validate c = Ok () → (∀ r, api r = Err e) →
  start_session (C := C) (Signer := Signer) (Kms := Kms) api cn m c = (Err e, [StartSession]).
Proof. intros Hc Ha. unfold start_session, start_session_on. by rewrite Hc, Ha. Qed.

Lemma starting_gives_up e api res cn g a ceiling (w : RW) :
  config_validate (rc_session (rc_config w)) = Ok () → (∀ r, api r = Err e) →
  is_retriable e = false → supervisor w = Starting a ceiling →
  answered api res cn g w = gave_up e (log_calls [StartSession] w).
Proof.
  intros Hc Ha He Hs. unfold answered, start_answered.
  by rewrite Hs, (start_fails e) by done; rewrite He.
Qed.

(** C31: without a network there is one attempt.  When the calls of an attempt cannot
    be delivered, so that the SDK's error carries no code of the service, the
    supervisor does not back off and try again: whatever [max_attempts] allows, it
    gives up in the attempt in progress, ends the output and holds no session,
    although the module is there for closed laptop lids.  The same holds for any
    code that is not transient. *)
Theorem unreachable_service_gives_up e (api : StartRequest → Res StartOutput)
    (res : str → Res ResumeOutput) cn g a ceiling (w : RW) :
  config_validate (rc_session (rc_config w)) = Ok () →
  (∀ r, api r = Err (from_sdk_error e)) → (∀ id, res id = Err (from_sdk_error e)) →
  (∀ c, sdk_code e = Some c → c ∉ transient_codes) →
  supervisor w = Starting a ceiling
  ∨ (∃ id old, supervisor w = Resuming a ceiling id old ∧ is_Some (heap w !! old)) →
  let w' := foldl rc_step w (replicate 2 (Answer api res cn g)) in
  events w' = events w ++ [GaveUp (max_attempts (rc_config w)) (to_string (from_sdk_error e))]
  ∧ supervisor w' = Finished ∧ current w' = None ∧ closed (output w') = true.
Proof.
  intros Hc Ha Hr Ht Hs.
  assert (He : is_retriable (from_sdk_error e) = false).
  { apply not_true_iff_false. rewrite from_sdk_retriable. intros (c & Hx & Hi). by apply (Ht c). }
  cbn [replicate foldl rc_step]. destruct Hs as [Hs|(id & old & Hs & dead & Hd)].
  - rewrite (starting_gives_up (from_sdk_error e) api res cn g a ceiling w) by done.
    cbn. by rewrite close_closed.
  - assert (Hw : answered api res cn g w
      = set_supervisor (log_calls [ResumeSession id] w) (Starting a ceiling)).
    { unfold answered, resume_answered. rewrite Hs, Hd. unfold resume_session, resume_session_on.
      rewrite Hc, Hr. cbv beta iota. cbn [mbind Result_bind]. by rewrite He. }
    rewrite Hw, (starting_gives_up (from_sdk_error e) api res cn g a ceiling) by done.
    cbn. by rewrite close_closed.
Qed.
End ReconnectProperties.

(** ** Witnesses *)

Definition toy_rng : Z → Z := λ n, n / 2.

Lemma toy_rng_ok : rng_ok toy_rng.
Proof. intros n Hn. unfold toy_rng. split; [apply Z.div_pos|apply Z.div_le_upper_bound]; lia. Qed.

(** A handle right after [connect_with]. *)
Definition toy_session0 : Session (C := Chan) :=
  {| core := SessionCore_new (lit "s-1") DEFAULT_SUBSCRIBER_CAPACITY Continuity_fresh;
     commands := channel 256; config := SessionConfig_new (lit "i-1"); ssm := true |}.
Definition toy_rc : ReconnectConfig :=
  {| max_attempts := 10; initial_delay := from_secs 1; max_delay := from_secs 60;
     rc_session := SessionConfig_new (lit "i-1") |}.
Definition toy_handle : RcInner (C := Chan) (Signer := unit) (Kms := unit) :=
  log_calls [StartSession] (adopt toy_session0
    {| rc_manager := toy_manager; rc_config := toy_rc; current := None; output := Fanout_new;
       events := []; triggered := false; generation := 0; heap := ∅; pumps := ∅;
       supervisor := LoopHead; stopping := []; calls := [] |}).

Lemma toy_connected :
  connect_with toy_api (toy_connect true) (lit "i-1") ReconnectConfig_default toy_manager
  = (Ok toy_handle, [StartSession]).
Proof. vm_compute. reflexivity. Qed.

Lemma toy_config_ok : config_ok ReconnectConfig_default.
Proof. unfold config_ok. vm_compute. by split_and!. Qed.

(** The session closes for a reason, and the supervisor is polled [n] times. *)
Definition toy_down (r : CloseReason) (n : nat) : list (rc_op (C := Chan) (Signer := unit) (Kms := unit)) :=
  Wake toy_rng :: Pump 0 :: SessionOp 0 (OpClose r) :: replicate n (Wake toy_rng).
Definition toy_answer : rc_op (C := Chan) (Signer := unit) (Kms := unit) :=
  Answer toy_api toy_resume (toy_connect true) toy_rng.

Lemma toy_down_ok r n : Forall op_ok (toy_down r n).
Proof.
  unfold toy_down. rewrite !Forall_cons. split_and!; [apply toy_rng_ok|done|done|].
  apply Forall_replicate, toy_rng_ok.
Qed.

Lemma event_protocol_witness :
  let w := foldl rc_step toy_handle (toy_down (Transport []) 2 ++ [toy_answer]) in
  events w = [Disconnected (Transport []); Reconnecting 1 (from_millis 500);
              Resumed (lit "s-1") 1]
  ∧ generation w = 2 ∧ ∃ id0 p, ev_run (rc_config w) id0 (events w) = Some p.
Proof.
  split; [vm_compute; reflexivity|]. split; [vm_compute; reflexivity|].
  destruct (event_protocol _ _ _ _ _ _ _ (toy_down (Transport []) 2 ++ [toy_answer])
    toy_connected toy_config_ok) as (id0 & p & _ & Hp & _).
  - apply Forall_app. split; [apply toy_down_ok|]. apply Forall_singleton, toy_rng_ok.
  - exists id0, p. exact Hp.
Defined.

Lemma after_giving_up_witness :
  let w := foldl rc_step toy_handle (toy_down (AgentClosed (Some 0) None) 1) in
  current w = None ∧ rc_send [] 0 5 w = (Again, w).
Proof.
  destruct (after_giving_up _ _ _ _ _ _ _ (toy_down (AgentClosed (Some 0) None) 1) 0
    (reason_to_string (AgentClosed (Some 0) None)) toy_connected toy_config_ok)
    as (Hc & _ & Hs).
  - apply toy_down_ok.
  - vm_compute. reflexivity.
  - vm_compute. reflexivity.
  - split; [exact Hc|apply (Hs [] 0 5)].
Defined.

Lemma terminate_inert_witness :
  let w := foldl rc_step toy_handle (toy_down (Transport []) 1) in
  current (foldl rc_step (terminate_begin w) [Wake toy_rng; toy_answer]) = None.
Proof.
  destruct (terminate_inert (foldl rc_step toy_handle (toy_down (Transport []) 1))
    [Wake toy_rng; toy_answer]) as [Hc _]; [vm_compute; exact I|exact Hc].
Defined.

Lemma terminate_race_witness :
  let w := foldl rc_step toy_handle (toy_down (DeliveryFailed 1 3000) 2) in
  ∃ r, current (foldl rc_step w
    [TerminateBegin; TerminateEnd; toy_answer; Wake toy_rng; Wake toy_rng]) = Some r.
Proof.
  destruct (terminate_race (foldl rc_step toy_handle (toy_down (DeliveryFailed 1 3000) 2))
    1 (from_secs 1) toy_api toy_resume (toy_connect true) toy_rng toy_session0 [StartSession])
    as (_ & _ & _ & r & Hr & _).
  - vm_compute. reflexivity.
  - vm_compute. reflexivity.
  - vm_compute. reflexivity.
  - exists r. exact Hr.
Defined.

(** The network is gone: the session's transport fails and so do both calls. *)
Lemma unreachable_service_gives_up_witness :
  let e := {| sdk_code := None; sdk_message := None; sdk_debug := [PLit "dispatch failure"] |} in
  let w := foldl rc_step toy_handle (toy_down (Transport []) 2) in
  let w' := foldl rc_step w (replicate 2 (Answer (λ _, Err (from_sdk_error e))
              (λ _, Err (from_sdk_error e)) (toy_connect true) toy_rng)) in
  events w' = [Disconnected (Transport []); Reconnecting 1 (from_millis 500);
               GaveUp 10 (to_string (from_sdk_error e))]
  ∧ supervisor w' = Finished.
Proof.
  cbv zeta.
  destruct (unreachable_service_gives_up
    {| sdk_code := None; sdk_message := None; sdk_debug := [PLit "dispatch failure"] |}
    (λ _, Err (from_sdk_error
       {| sdk_code := None; sdk_message := None; sdk_debug := [PLit "dispatch failure"] |}))
    (λ _, Err (from_sdk_error
       {| sdk_code := None; sdk_message := None; sdk_debug := [PLit "dispatch failure"] |}))
    (toy_connect true) toy_rng 1 (from_secs 1)
    (foldl rc_step toy_handle (toy_down (Transport []) 2))) as (He & Hs & _).
  - vm_compute. reflexivity.
  - reflexivity.
  - reflexivity.
  - intros c Hc. discriminate Hc.
  - right. exists (lit "s-1"), 0%nat. split; [vm_compute; reflexivity|].
    vm_compute. eexists. reflexivity.
  - split; [|exact Hs]. rewrite He. vm_compute. reflexivity.
Defined.
