(* ===== verification/Terminal.v ===== *)
(** * Terminal plumbing (src/terminal.rs, Unix build)

    Raw mode with its guard, and the reader that turns stdin and window-size
    changes into one stream of events.  The terminal itself (crate [crossterm]) is
    the class [Crossterm]: a state seen through whether raw mode is on.

    The stdin thread and the resize watcher share a bounded channel with the
    consumer and a flag that stops them.  Each is a small machine whose states are
    the points where it blocks, so that [term_step] can interleave them freely;
    what the operating system answers is an argument of the step.  [tr_read] (the
    chunks read from stdin) and [tr_got] (the events the consumer received) are
    histories that nothing reads. *)

From S2P Require Import Prelude RustStd Errors Interfaces Session.

Definition STDIN_BUFFER : Z := 16 * 1024.

#[export] Instance TerminalSize_eq_dec : EqDecision TerminalSize.
Proof. solve_decision. Defined.

Definition TerminalSize_default : TerminalSize := {| cols := 80; rows := 24 |}.

(** ** The terminal *)

Class Crossterm (T : Type) := {
  raw : T → bool;
  is_raw_mode_enabled : T → Result IoError bool;
  enable_raw_mode : T → Result IoError () * T;
  disable_raw_mode : T → Result IoError () * T;
  term_size : T → Result IoError (Z * Z) }.

(** The calls do what they are named for, or fail and change nothing. *)
Class CrosstermOk (T : Type) `{Crossterm T} : Prop := {
  is_raw_spec t b : is_raw_mode_enabled t = Ok b → b = raw t;
  enable_spec t t' : enable_raw_mode t = (Ok (), t') → raw t' = true;
  enable_err t e t' : enable_raw_mode t = (Err e, t') → raw t' = raw t;
  disable_spec t t' : disable_raw_mode t = (Ok (), t') → raw t' = false;
  disable_err t e t' : disable_raw_mode t = (Err e, t') → raw t' = raw t }.

Section Terminal.
Context {T : Type} `{Crossterm T}.

(** [TerminalSize::current]. *)
Definition current_size (t : T) : TerminalSize :=
  match term_size t with
  | Ok (c, r) => {| cols := c; rows := r |}
  | Err _ => TerminalSize_default
  end.

(** ** Raw mode *)

Record RawModeGuard := { was_raw : bool }.

Definition enter (t : T) : Res RawModeGuard * T :=
  match is_raw_mode_enabled t with
  | Err e => (Err (Error_Io e), t)
  | Ok was =>
    if negb was then
      match enable_raw_mode t with
      | (Err e, t') => (Err (Error_Io e), t')
      | (Ok _, t') => (Ok {| was_raw := was |}, t')
      end
    else (Ok {| was_raw := was |}, t)
  end.

(** [Drop for RawModeGuard]; a failure is printed.  The second component is
    whether the terminal was left in a bad state. *)
Definition drop_guard (g : RawModeGuard) (t : T) : T * bool :=
  if negb (was_raw g) then
    match disable_raw_mode t with
    | (Err _, t') => (t', true)
    | (Ok _, t') => (t', false)
    end
  else (t, false).

Definition require_terminal (stdin_tty stdout_tty : bool) : Res () :=
  if stdin_tty && stdout_tty then Ok ()
  else Err (Error_Config [PLit "an interactive shell needs stdin and stdout attached to a terminal; use Session::send and Session::output for piped or headless use"]).

Context `{!CrosstermOk T}.

Lemma enter_raw t g t' : enter t = (Ok g, t') → was_raw g = raw t ∧ raw t' = true.
Proof.
  unfold enter. destruct (is_raw_mode_enabled t) as [b|e] eqn:Eb; [|done].
  apply is_raw_spec in Eb as ->. destruct (raw t) eqn:Er; cbn [negb].
  - intros [= <- <-]. by rewrite Er.
  - destruct (enable_raw_mode t) as [[[]|e] t1] eqn:Ee; intros [= <- <-].
    by apply enable_spec in Ee.
Qed.

Lemma enter_err t e t' : enter t = (Err e, t') → raw t' = raw t.
Proof.
  unfold enter. destruct (is_raw_mode_enabled t) as [b|e']; [|by intros [= _ <-]].
  destruct b; [done|]. cbn [negb].
  destruct (enable_raw_mode t) as [[[]|e'] t1] eqn:Ee; intros Heq; simplify_eq.
  by eapply enable_err.
Qed.

(** The guard scopes raw mode: whatever runs under it, the terminal ends as it
    began unless restoring it failed. *)
Lemma guard_scopes t g t1 t2 :
  enter t = (Ok g, t1) → raw t2 = raw t1 →
  (drop_guard g t2).2 = false → raw (drop_guard g t2).1 = raw t.
Proof.
  intros [Hw Hr]%enter_raw Ht2. unfold drop_guard. rewrite Hw.
  destruct (raw t) eqn:E; cbn [negb]; [cbn; congruence|].
  destruct (disable_raw_mode t2) as [[[]|e] t3] eqn:Ed; [|done].
  intros _. by apply disable_spec in Ed.
Qed.
End Terminal.

(** ** Standard output *)

(** [write_output]: everything is written and flushed, or the device failed after
    some of the bytes. *)
Definition write_output (fault : option (nat * IoError)) (data out : list byte)
  : Res () * list byte :=
  match fault with
  | None => (Ok (), out ++ data)
  | Some (k, e) => (Err (Error_Io e), out ++ take k data)
  end.

(** ** The reader *)

Inductive TerminalEvent :=
| Input (bytes : list byte)
| Resize (size : TerminalSize)
| Eof.

#[export] Instance TerminalEvent_eq_dec : EqDecision TerminalEvent.
Proof. solve_decision. Defined.

(** Where the stdin thread is: at its loop test, in [read], in [blocking_send]
    (and whether the loop goes on after it), finished. *)
Inductive StdinState :=
| StdinTest
| StdinRead
| StdinSend (e : TerminalEvent) (goes_on : bool)
| StdinDone.

(** The same for the resize watcher. *)
Inductive WatchState :=
| WatchTest
| WatchSignal
| WatchSend (size : TerminalSize)
| WatchDone.

(** What [stdin.read] returned. *)
Inductive ReadOutcome := ReadBytes (bytes : list byte) | ReadFailed (k : ErrorKind).

Definition EVENT_QUEUE : Z := 64.

Section Reader.
Context {C : Type → Type} `{Mpsc C}.

Record TerminalReader := {
  tr_events : C TerminalEvent;
  tr_running : bool;
  tr_stdin : StdinState;
  tr_watch : WatchState;
  tr_last : TerminalSize;              (* the watcher's [last] *)
  tr_read : list (list byte);
  tr_got : list TerminalEvent }.

(** [TerminalReader::start]; [winch] is whether SIGWINCH could be watched. *)
Definition TerminalReader_start (winch : bool) (size : TerminalSize) : TerminalReader :=
  {| tr_events := channel EVENT_QUEUE; tr_running := true; tr_stdin := StdinTest;
     tr_watch := if winch then WatchTest else WatchDone; tr_last := size;
     tr_read := []; tr_got := [] |}.

Definition set_stdin (t : TerminalReader) (s : StdinState) : TerminalReader :=
  {| tr_events := tr_events t; tr_running := tr_running t; tr_stdin := s;
     tr_watch := tr_watch t; tr_last := tr_last t; tr_read := tr_read t; tr_got := tr_got t |}.
Definition set_watch (t : TerminalReader) (s : WatchState) : TerminalReader :=
  {| tr_events := tr_events t; tr_running := tr_running t; tr_stdin := tr_stdin t;
     tr_watch := s; tr_last := tr_last t; tr_read := tr_read t; tr_got := tr_got t |}.
Definition set_events (t : TerminalReader) (q : C TerminalEvent) : TerminalReader :=
  {| tr_events := q; tr_running := tr_running t; tr_stdin := tr_stdin t;
     tr_watch := tr_watch t; tr_last := tr_last t; tr_read := tr_read t; tr_got := tr_got t |}.

(** The body of [spawn_stdin_thread]: one move of the thread. *)
Definition stdin_step (r : ReadOutcome) (t : TerminalReader) : TerminalReader :=
  match tr_stdin t with
  | StdinTest => set_stdin t (if tr_running t then StdinRead else StdinDone)
  | StdinRead =>
    match r with
    | ReadBytes [] => set_stdin t (StdinSend Eof false)
    | ReadBytes bytes =>
      {| tr_events := tr_events t; tr_running := tr_running t;
         tr_stdin := StdinSend (Input bytes) true; tr_watch := tr_watch t;
         tr_last := tr_last t; tr_read := tr_read t ++ [bytes]; tr_got := tr_got t |}
    | ReadFailed Interrupted => set_stdin t StdinTest
    | ReadFailed _ => set_stdin t (StdinSend Eof false)
    end
  | StdinSend e goes_on =>
    match try_send e (tr_events t) with
    | (Sent, q) => set_stdin (set_events t q) (if goes_on then StdinTest else StdinDone)
    | (Full, _) => t                 (* blocked *)
    | (Closed, _) => set_stdin t StdinDone
    end
  | StdinDone => t
  end.

(** The body of [spawn_resize_watcher]: one move of the task.  [signal] is whether
    [winch.recv] yielded, [size] the terminal's size then. *)
Definition watch_step (signal : bool) (size : TerminalSize) (t : TerminalReader)
  : TerminalReader :=
  match tr_watch t with
  | WatchTest => set_watch t (if tr_running t then WatchSignal else WatchDone)
  | WatchSignal =>
    if negb signal then set_watch t WatchDone
    else if decide (size = tr_last t) then set_watch t WatchTest
    else {| tr_events := tr_events t; tr_running := tr_running t; tr_stdin := tr_stdin t;
            tr_watch := WatchSend size; tr_last := size; tr_read := tr_read t;
            tr_got := tr_got t |}
  | WatchSend s =>
    match try_send (Resize s) (tr_events t) with
    | (Sent, q) => set_watch (set_events t q) WatchTest
    | (Full, _) => t                 (* parked *)
    | (Closed, _) => set_watch t WatchDone
    end
  | WatchDone => t
  end.

(** The channel as the consumer finds it: the senders are gone once both producers
    have finished. *)
Definition event_queue (t : TerminalReader) : C TerminalEvent :=
  match tr_stdin t, tr_watch t with
  | StdinDone, WatchDone => drop_tx (tr_events t)
  | _, _ => tr_events t
  end.

(** [next]. *)
Definition next_event (t : TerminalReader) : Recv TerminalEvent * TerminalReader :=
  let '(r, q') := poll_recv (event_queue t) in
  (r, {| tr_events := q'; tr_running := tr_running t; tr_stdin := tr_stdin t;
         tr_watch := tr_watch t; tr_last := tr_last t; tr_read := tr_read t;
         tr_got := match r with Item e => tr_got t ++ [e] | _ => tr_got t end |}).

Definition stop (t : TerminalReader) : TerminalReader :=
  {| tr_events := tr_events t; tr_running := false; tr_stdin := tr_stdin t;
     tr_watch := tr_watch t; tr_last := tr_last t; tr_read := tr_read t; tr_got := tr_got t |}.

(** [Drop for TerminalReader]: stop, and the receiver goes with it. *)
Definition drop_reader (t : TerminalReader) : TerminalReader :=
  set_events (stop t) (drop_rx (tr_events t)).

Inductive term_op :=
| OpStdin (r : ReadOutcome)
| OpWatch (signal : bool) (size : TerminalSize)
| OpNext
| OpStop.

Definition term_step (t : TerminalReader) (o : term_op) : TerminalReader :=
  match o with
  | OpStdin r => stdin_step r t
  | OpWatch s size => watch_step s size t
  | OpNext => (next_event t).2
  | OpStop => stop t
  end.

Definition term_run (winch : bool) (size : TerminalSize) (os : list term_op) : TerminalReader :=
  foldl term_step (TerminalReader_start winch size) os.
End Reader.

(** ** What the consumer sees *)

Definition inputs (es : list TerminalEvent) : list (list byte) :=
  omap (λ e, match e with Input b => Some b | _ => None end) es.
Definition resizes (es : list TerminalEvent) : list TerminalSize :=
  omap (λ e, match e with Resize s => Some s | _ => None end) es.
(** The events of the stdin thread. *)
Definition from_stdin (es : list TerminalEvent) : list TerminalEvent :=
  List.filter (λ e, match e with Resize _ => false | _ => true end) es.

(** No element is repeated right after itself. *)
Definition no_stutter {A} (l : list A) : Prop :=
  ∀ i x y, l !! i = Some x → l !! S i = Some y → x ≠ y.

Lemma no_stutter_snoc {A} (l : list A) x y :
  no_stutter l → last l = Some x → x ≠ y → no_stutter (l ++ [y]).
Proof.
  intros Hl Hx Hne i a b Ha Hb.
  apply lookup_app_Some in Hb as [Hb|[Hlen Hb]].
  - apply lookup_lt_Some in Hb as Hlt. rewrite lookup_app_l in Ha by lia. by eapply Hl.
  - apply list_lookup_singleton_Some in Hb as [Hi <-].
    rewrite lookup_app_l in Ha by lia. rewrite last_lookup in Hx.
    replace (Nat.pred (length l)) with i in Hx by lia. congruence.
Qed.

Lemma from_stdin_app a b : from_stdin (a ++ b) = from_stdin a ++ from_stdin b.
Proof. apply List.filter_app. Qed.

(** An input stream with at most one end of file, at its end. *)
Lemma inputs_from_stdin es : inputs (from_stdin es) = inputs es.
Proof. induction es as [|[] es IH]; cbn; [done|by f_equal|done|done]. Qed.

Section ReaderProperties.
Context {C : Type → Type} `{MpscOk C}.

(** What the producers have in hand. *)
Definition stdin_pending (t : TerminalReader (C := C)) : list TerminalEvent :=
  match tr_stdin t with StdinSend e _ => [e] | _ => [] end.
Definition watch_pending (t : TerminalReader (C := C)) : list TerminalSize :=
  match tr_watch t with WatchSend s => [s] | _ => [] end.

(** Every event that left a producer, in the order the consumer gets them. *)
Definition produced (t : TerminalReader (C := C)) : list TerminalEvent :=
  tr_got t ++ queued (tr_events t).

(** The stdin thread's events are the chunks read, then perhaps the end of file. *)
Definition stdin_ok (t : TerminalReader (C := C)) : Prop :=
  ∃ tail, from_stdin (produced t) ++ stdin_pending t = map Input (tr_read t) ++ tail
    ∧ match tr_stdin t with
      | StdinTest | StdinRead => tail = []
      | StdinSend e true => tail = [] ∧ is_Some (last (tr_read t)) ∧ (∃ b, e = Input b)
      | StdinSend e false => tail = [Eof] ∧ e = Eof
      | StdinDone => tail = [] ∨ tail = [Eof]
      end.

(** The watcher's events: no size is reported twice in a row, the first differs
    from the size at the start, and the last is the one it remembers. *)
Definition watch_ok (size : TerminalSize) (t : TerminalReader (C := C)) : Prop :=
  no_stutter (size :: resizes (produced t) ++ watch_pending t)
  ∧ last (size :: resizes (produced t) ++ watch_pending t) = Some (tr_last t).

Record reader_inv (size : TerminalSize) (t : TerminalReader (C := C)) : Prop := {
  ti_alive : rx_alive (tr_events t) = true;
  ti_stdin : stdin_ok t;
  ti_watch : watch_ok size t }.

Lemma from_stdin_event e : (∀ s, e ≠ Resize s) → from_stdin [e] = [e] ∧ resizes [e] = [].
Proof. destruct e; [done| |done]. intros Hne. by destruct (Hne size). Qed.

Lemma stdin_step_inv size r t : reader_inv size t → reader_inv size (stdin_step r t).
Proof.
  intros Hi. pose proof Hi as [Ha [tail [Hs Ht]] Hw]. unfold stdin_step.
  destruct (tr_stdin t) as [| |e goes_on|] eqn:Es.
  - split; [done| |done]. exists tail. unfold stdin_pending in *. rewrite Es in Hs.
    cbn. destruct (tr_running t); cbn; auto.
  - unfold stdin_pending in Hs. rewrite Es, app_nil_r in Hs. subst tail.
    rewrite app_nil_r in Hs.
    assert (Heof : stdin_ok (set_stdin t (StdinSend Eof false))).
    { exists [Eof]. split; [|done].
      change (from_stdin (produced t) ++ [Eof] = map Input (tr_read t) ++ [Eof]). by rewrite Hs. }
    assert (Htest : stdin_ok (set_stdin t StdinTest)).
    { exists []. split; [|done].
      change (from_stdin (produced t) ++ [] = map Input (tr_read t) ++ []). by rewrite Hs. }
    destruct r as [[|b bs]|[]]; (split; [done|try done|done]).
    exists []. split; [|cbn; rewrite last_snoc; by eauto].
    change (from_stdin (produced t) ++ [Input (b :: bs)]
            = map Input (tr_read t ++ [b :: bs]) ++ []).
    by rewrite Hs, map_app, app_nil_r.
  - unfold stdin_pending in Hs. rewrite Es in Hs.
    assert (Hne : ∀ s, e ≠ Resize s) by (destruct goes_on; naive_solver).
    destruct (try_send e (tr_events t)) as [[] q] eqn:Eq; apply try_send_inv in Eq.
    + destruct Eq as (_ & Hq & Hr & _). destruct (from_stdin_event e Hne) as [Hf Hz].
      split; [done| |].
      * exists tail. unfold stdin_pending, produced in *. cbn. rewrite Hq, app_assoc.
        rewrite from_stdin_app, Hf.
        destruct goes_on; cbn; rewrite app_nil_r; (split; [exact Hs|]).
        -- by destruct Ht as (-> & _).
        -- right. by destruct Ht as [-> _].
      * unfold watch_ok, produced in *. cbn. rewrite Hq, app_assoc.
        unfold resizes in *. rewrite omap_app, Hz, app_nil_r. exact Hw.
    + exact Hi.
    + destruct Eq as [? _]. congruence.
  - exact Hi.
Qed.

Lemma watch_step_inv size sig sz t : reader_inv size t → reader_inv size (watch_step sig sz t).
Proof.
  intros Hi. pose proof Hi as [Ha Hs [Hn Hl]]. unfold watch_step, watch_pending in *.
  destruct (tr_watch t) as [| |s|] eqn:Es.
  - split; [done|done|]. unfold watch_ok, watch_pending. cbn. by destruct (tr_running t).
  - destruct sig; cbn [negb]; [|by split; [| |split; unfold watch_pending]].
    rewrite app_nil_r in Hn, Hl.
    destruct (decide (sz = tr_last t)) as [->|Hne].
    + split; [done|done|]. unfold watch_ok, watch_pending. cbn. by rewrite app_nil_r.
    + split; [done|done|].
      change (no_stutter ((size :: resizes (produced t)) ++ [sz])
              ∧ last ((size :: resizes (produced t)) ++ [sz]) = Some sz).
      split; [by eapply no_stutter_snoc|]. by rewrite last_snoc.
  - destruct (try_send (Resize s) (tr_events t)) as [[] q] eqn:Eq; apply try_send_inv in Eq.
    + destruct Eq as (_ & Hq & Hr & _). split; [done| |].
      * destruct Hs as (tail & Hs & Ht). exists tail. split; [|done].
        unfold produced, stdin_pending in *. cbn. rewrite Hq, app_assoc, from_stdin_app.
        cbn. by rewrite app_nil_r.
      * unfold watch_ok, watch_pending, produced in *. cbn. rewrite Hq, app_assoc.
        unfold resizes in *. rewrite omap_app. cbn. by rewrite app_nil_r.
    + exact Hi.
    + destruct Eq as [? _]. congruence.
  - exact Hi.
Qed.

Lemma next_event_inv size t : reader_inv size t → reader_inv size (next_event t).2.
Proof.
  intros [Ha Hs Hw]. unfold next_event. set (q := event_queue t).
  assert (queued q = queued (tr_events t) ∧ rx_alive q = true) as [Hq Hqa].
  { destruct (drop_tx_spec (tr_events t)) as (Hd & _ & Hr & _).
    subst q. unfold event_queue. destruct (tr_stdin t), (tr_watch t); rewrite ?Hd, ?Hr; done. }
  clearbody q. destruct (poll_recv q) as [r q'] eqn:Er. apply poll_recv_inv in Er.
  assert (tr_got t ++ queued (tr_events t)
    = match r with Item e => tr_got t ++ [e] | _ => tr_got t end ++ queued q'
    ∧ rx_alive q' = true) as [Hp Hr].
  { rewrite <- Hq. destruct r as [e| |].
    - destruct Er as (-> & _ & -> & _). by rewrite <- app_assoc.
    - by destruct Er as (_ & _ & ->).
    - by destruct Er as (_ & _ & ->). }
  unfold stdin_ok, watch_ok, stdin_pending, watch_pending, produced in *. cbn.
  split; [done|..]; unfold stdin_ok, watch_ok, stdin_pending, watch_pending, produced; cbn;
    by rewrite <- Hp.
Qed.

Lemma reader_inv_run winch size os : reader_inv size (term_run winch size os).
Proof.
  unfold term_run. induction os as [|o os IH] using rev_ind.
  - destruct (channel_spec (C := C) (A := TerminalEvent) EVENT_QUEUE ltac:(done))
      as (Hq & _ & Hr & _).
    split; [done| |]; unfold stdin_ok, watch_ok, produced, stdin_pending, watch_pending; cbn;
      rewrite Hq; [by exists []|].
    destruct winch; cbn; (split; [by intros [|i] x y|done]).
  - rewrite foldl_snoc. destruct o; cbn [term_step];
      auto using stdin_step_inv, watch_step_inv, next_event_inv.
    destruct IH. by split.
Qed.

(** What the consumer has, what is on its way and what the thread holds are the
    chunks read. *)
Lemma reader_inputs size t :
  reader_inv size t → inputs (produced t ++ stdin_pending t) = tr_read t.
Proof.
  intros [_ (tail & Hs & Ht) _].
  assert (Htail : tail = [] ∨ tail = [Eof]) by (destruct (tr_stdin t) as [| |e []|]; naive_solver).
  assert (Hmap : ∀ l, inputs (map Input l) = l) by (induction l; cbn; by f_equal).
  rewrite <- (Hmap (tr_read t)). transitivity (inputs (map Input (tr_read t) ++ tail)).
  - rewrite <- Hs. unfold inputs. rewrite !omap_app. f_equal. symmetry. apply inputs_from_stdin.
  - unfold inputs. rewrite omap_app. destruct Htail as [->| ->]; cbn; by rewrite app_nil_r.
Qed.

Lemma reader_prefix size t : reader_inv size t → inputs (tr_got t) `prefix_of` tr_read t.
Proof.
  intros Hi. rewrite <- (reader_inputs size t Hi). unfold inputs, produced.
  rewrite !omap_app, <- app_assoc. by apply prefix_app_r.
Qed.

(** What is typed reaches the consumer verbatim.  However the stdin thread, the
    resize watcher and the consumer interleave, the consumer has received a prefix
    of the chunks read from stdin, in order and unchanged, the rest being in the
    channel or in the thread's hand; the end of file comes after all of them and
    at most once; and no window size is reported twice in a row. *)
Theorem terminal_verbatim winch size os :
  let t := term_run (C := C) winch size os in
  inputs (produced t ++ stdin_pending t) = tr_read t
  ∧ inputs (tr_got t) `prefix_of` tr_read t
  ∧ (∃ tail, from_stdin (tr_got t) `prefix_of` map Input (tr_read t) ++ tail
       ∧ (tail = [] ∨ tail = [Eof]))
  ∧ no_stutter (size :: resizes (tr_got t)).
Proof.
  intros t. pose proof (reader_inv_run winch size os : reader_inv size t) as Hi.
  split_and!; [by eapply reader_inputs|by eapply reader_prefix|..];
    destruct Hi as [_ (tail & Hs & Ht) [Hn _]].
  - exists tail. split.
    + rewrite <- Hs. unfold produced. rewrite from_stdin_app, <- app_assoc. by apply prefix_app_r.
    + destruct (tr_stdin t) as [| |e []|]; naive_solver.
  - intros i x y Hx Hy. eapply (Hn i x y); unfold produced, resizes;
      rewrite omap_app, <- app_assoc; rewrite app_comm_cons; by apply lookup_app_l_Some.
Qed.
End ReaderProperties.

(** ** Witnesses *)

(** A terminal that is only its mode, and obeys. *)
#[export] Instance toy_crossterm : Crossterm bool := {
  raw t := t; is_raw_mode_enabled t := Ok t; enable_raw_mode _ := (Ok (), true);
  disable_raw_mode _ := (Ok (), false); term_size _ := Ok (120, 40) }.
#[export] Instance toy_crossterm_ok : CrosstermOk bool.
Proof. split; intros *; cbn; congruence. Qed.

(** Two chunks are read and the window grows; the consumer has taken two events. *)
Lemma terminal_verbatim_witness :
  let t := term_run (C := Chan) true TerminalSize_default
    [OpStdin (ReadBytes []); OpStdin (ReadBytes [x61]); OpStdin (ReadBytes []); OpNext;
     OpWatch true TerminalSize_default; OpWatch true {| cols := 120; rows := 40 |};
     OpWatch true TerminalSize_default; OpStdin (ReadBytes []); OpStdin (ReadBytes [x62]); OpNext] in
  tr_got t = [Input [x61]; Resize {| cols := 120; rows := 40 |}]
  ∧ inputs (produced t ++ stdin_pending t) = [[x61]; [x62]].
Proof.
  split; [vm_compute; reflexivity|].
  etrans; [apply (terminal_verbatim (C := Chan))|]. vm_compute. reflexivity.
Defined.
