(* ===== verification/Signing.v ===== *)
(** * Signing the data channel upgrade (src/signing.rs)

    The request and its headers (crates [http] and [tungstenite]) are the class
    [HttpLib]; SigV4 (crate [aws-sigv4]) is a function from the signing parameters
    and the signable request to the headers it produces; the credentials provider
    answers per call.  [sign_request] mutates the request in place, so it returns
    the request also when it fails. *)

From S2P Require Import Prelude RustStd Errors.

Definition SERVICE_NAME : str := lit "ssmmessages".

(** ** Requests and headers *)

Class HttpLib := {
  Request : Type;
  HeaderName : Type;
  HeaderValue : Type;
  header_name_eq_dec :: EqDecision HeaderName;
  HOST : HeaderName;
  into_client_request : nat → str → Result text Request;   (* the n-th draws its own key *)
  request_uri : Request → str;
  header_get : HeaderName → Request → option HeaderValue;
  header_insert : HeaderName → HeaderValue → Request → Request;
  to_str : HeaderValue → option str;
  name_from_bytes : list byte → Result text HeaderName;
  value_parse : str → Result text HeaderValue }.

(** [HeaderMap::insert] replaces the values of one name. *)
Class HttpLibOk `{HttpLib} : Prop := {
  get_insert_eq n v r : header_get n (header_insert n v r) = Some v;
  get_insert_ne n n' v r : n ≠ n' → header_get n' (header_insert n v r) = header_get n' r;
  uri_insert n v r : request_uri (header_insert n v r) = request_uri r }.

(** ** SigV4 *)

Section Signing.
Context `{HttpLib} {Credentials Provider : Type}.

Record SigningParams := {
  sp_identity : Credentials; sp_region : str; sp_name : str; sp_time : Z }.

Record SignableRequest := {
  sr_method : str; sr_uri : str; sr_headers : list (str * str); sr_body : list byte }.

(** Building the parameters and the signable request may fail, and so may signing. *)
Record SigV4 := {
  build_params : SigningParams → Result text SigningParams;
  build_signable : SignableRequest → Result text SignableRequest;
  sigv4 : SigningParams → SignableRequest → Result text (list (str * str)) }.

Variable v4 : SigV4.
Variable provide_credentials : nat → Provider → Result text Credentials.

Record UpgradeSigner := { credentials : Provider; region : str }.

Definition UpgradeSigner_new (c : Provider) (r : str) : UpgradeSigner :=
  {| credentials := c; region := r |}.

(** The request carries a random [Sec-WebSocket-Key], drawn by this [call]. *)
Definition upgrade_request (call : nat) (url : str) : Res Request :=
  map_err (λ e, Error_Config (PLit "stream URL is not a valid WebSocket URL: " :: e))
    (into_client_request call url).

(** The loop that copies the produced headers into the request. *)
Fixpoint insert_headers (hs : list (str * str)) (r : Request) : Res () * Request :=
  match hs with
  | [] => (Ok (), r)
  | (n, v) :: hs =>
    match name_from_bytes (to_utf8 n) with
    | Err e => (Err (Error_Config (PLit "SigV4 produced an invalid header name: " :: e)), r)
    | Ok name =>
      match value_parse v with
      | Err e => (Err (Error_Config (PLit "SigV4 produced an invalid header value: " :: e)), r)
      | Ok value => insert_headers hs (header_insert name value r)
      end
    end
  end.

Definition sign_request (r : Request) (reg : str) (c : Credentials) (time : Z)
  : Res () * Request :=
  match header_get HOST r ≫= to_str with
  | None => (Err (Error_Config [PLit "upgrade request has no Host header to sign"]), r)
  | Some host =>
    match build_params v4 {| sp_identity := c; sp_region := reg; sp_name := SERVICE_NAME;
                             sp_time := time |} with
    | Err e => (Err (Error_Config (PLit "could not build SigV4 signing parameters: " :: e)), r)
    | Ok params =>
      match build_signable v4 {| sr_method := lit "GET"; sr_uri := request_uri r;
                                 sr_headers := [(lit "host", host)]; sr_body := [] |} with
      | Err e => (Err (Error_Config (PLit "could not build the signable request: " :: e)), r)
      | Ok signable =>
        match sigv4 v4 params signable with
        | Err e => (Err (Error_Config (PLit "could not sign the data channel upgrade: " :: e)), r)
        | Ok hs => insert_headers hs r
        end
      end
    end
  end.

(** [UpgradeSigner::sign]: credentials are resolved on every call. *)
Definition upgrade_sign (now : nat → Z) (call : nat) (s : UpgradeSigner) (r : Request)
  : Res () * Request :=
  match provide_credentials call (credentials s) with
  | Err e =>
    (Err (aws (PLit "could not resolve credentials to sign the data channel: " :: e)), r)
  | Ok c => sign_request r (region s) c (now call)
  end.

(** The request as the dialer gets it. *)
Definition signed (now : nat → Z) (call : nat) (s : UpgradeSigner) (r : Request) : Res Request :=
  match upgrade_sign now call s r with
  | (Ok _, r') => Ok r'
  | (Err e, _) => Err e
  end.

(** ** Properties *)

Context `{!HttpLibOk}.

(** The header [n] of the request after these headers were inserted. *)
Fixpoint final_value (n : HeaderName) (hs : list (str * str)) (old : option HeaderValue)
  : option HeaderValue :=
  match hs with
  | [] => old
  | (k, v) :: hs =>
    final_value n hs
      match name_from_bytes (to_utf8 k), value_parse v with
      | Ok k', Ok v' => if decide (k' = n) then Some v' else old
      | _, _ => old
      end
  end.

Lemma insert_headers_spec hs : ∀ r r',
  insert_headers hs r = (Ok (), r') →
  request_uri r' = request_uri r
  ∧ ∀ n, header_get n r' = final_value n hs (header_get n r).
Proof.
  induction hs as [|[k v] hs IH]; intros r r'; cbn [insert_headers final_value].
  { by intros [= <-]. }
  destruct (name_from_bytes (to_utf8 k)) as [k'|]; [|done].
  destruct (value_parse v) as [v'|]; [|done].
  intros [Hu Hg]%IH. rewrite uri_insert in Hu. split; [done|]. intros n. rewrite Hg.
  destruct (decide (k' = n)) as [->|Hne]; [by rewrite get_insert_eq|by rewrite get_insert_ne].
Qed.

Lemma final_value_other n hs old :
  (∀ k v, (k, v) ∈ hs → name_from_bytes (to_utf8 k) ≠ Ok n) → final_value n hs old = old.
Proof.
  revert old. induction hs as [|[k v] hs IH]; intros old Hne; [done|]. cbn [final_value].
  rewrite IH by (intros; apply (Hne _ v0); set_solver).
  specialize (Hne k v ltac:(set_solver)).
  destruct (name_from_bytes (to_utf8 k)); [|done]. destruct (value_parse v); [|done].
  by rewrite decide_False by congruence.
Qed.

Lemma insert_headers_err hs : ∀ r e r',
  insert_headers hs r = (Err e, r') → ∃ m, e = Error_Config m.
Proof.
  induction hs as [|[k v] hs IH]; intros r e r'; cbn [insert_headers]; [done|].
  destruct (name_from_bytes _); [|intros [= <- _]; eauto].
  destruct (value_parse v); [|intros [= <- _]; eauto]. apply IH.
Qed.

(** What signing an upgrade does.  It succeeds only with credentials resolved
    for this very call, and then SigV4 was asked, once, to sign a [GET] of the
    request's own URI with an empty body and the [Host] header the request carries
    as the only signed header, for the service [ssmmessages] in the signer's
    region.  The request that is sent differs from the unsigned one in the headers
    SigV4 produced and nothing else, so its handshake headers and, as SigV4 does
    not produce one, its [Host] header are untouched.  A failure to resolve
    credentials is an AWS error, any other failure a configuration error. *)
Theorem sign_spec now call s r :
  match signed now call s r with
  | Ok r' => ∃ c host params signable hs,
      provide_credentials call (credentials s) = Ok c
      ∧ header_get HOST r ≫= to_str = Some host
      ∧ build_params v4 {| sp_identity := c; sp_region := region s;
          sp_name := lit "ssmmessages"; sp_time := now call |} = Ok params
      ∧ build_signable v4 {| sr_method := lit "GET"; sr_uri := request_uri r';
          sr_headers := [(lit "host", host)]; sr_body := [] |} = Ok signable
      ∧ sigv4 v4 params signable = Ok hs
      ∧ request_uri r' = request_uri r
      ∧ (∀ n, header_get n r' = final_value n hs (header_get n r))
      ∧ (∀ n, (∀ k v, (k, v) ∈ hs → name_from_bytes (to_utf8 k) ≠ Ok n) →
           header_get n r' = header_get n r)
  | Err e => if is_ok (provide_credentials call (credentials s))
             then ∃ m, e = Error_Config m else ∃ m, e = Error_Aws m None
  end.
Proof.
  unfold signed, upgrade_sign, sign_request.
  destruct (provide_credentials call (credentials s)) as [c|e]; cbn [is_ok]; [|by eexists].
  destruct (header_get HOST r ≫= to_str) as [host|] eqn:Eh; [|by eexists].
  destruct (build_params v4 _) as [params|e] eqn:Ep; [|by eexists].
  destruct (build_signable v4 _) as [signable|e] eqn:Es; [|by eexists].
  destruct (sigv4 v4 params signable) as [hs|e] eqn:Eg; [|by eexists].
  destruct (insert_headers hs r) as [[[]|e] r'] eqn:Ei; [|by eapply insert_headers_err].
  apply insert_headers_spec in Ei as [Hu Hg]. rewrite <- Hu in Es.
  exists c, host, params, signable, hs. split_and!; try done.
  intros n Hn. by rewrite Hg, final_value_other.
Qed.
End Signing.

(** ** Witness *)

(** Requests as a URI and a map of headers. *)
#[export] Instance toy_http : HttpLib := {|
  Request := str * gmap str str; HeaderName := str; HeaderValue := str;
  header_name_eq_dec := _; HOST := lit "host";
  into_client_request n u := Ok (u, {[ lit "host" := u; lit "upgrade" := lit "websocket";
    lit "sec-websocket-key" := [Z.of_nat n] ]});
  request_uri r := r.1; header_get n r := r.2 !! n;
  header_insert n v r := (r.1, <[n := v]> r.2);
  to_str := Some; name_from_bytes bs := Ok (from_utf8_lossy bs); value_parse := Ok |}.
#[export] Instance toy_http_ok : HttpLibOk.
Proof.
  split; cbn; intros; [apply lookup_insert_eq|by apply lookup_insert_ne|done].
Qed.

(** A signer whose signature is the region, the host and the key. *)
Definition toy_v4 : SigV4 (Credentials := str) := {|
  build_params := Ok; build_signable := Ok;
  sigv4 p r := Ok [(lit "authorization",
                    sp_identity p ++ sp_region p ++ concat (snd <$> sr_headers r))] |}.

Definition toy_request : @Request toy_http :=
  (lit "u", {[ lit "host" := lit "h" ]} : gmap str str).

Lemma sign_spec_witness :
  ∃ r, signed toy_v4 (λ _ p, Ok p) (λ _, 0) 1 (UpgradeSigner_new (lit "k") (lit "r"))
         toy_request = Ok r
    ∧ header_get (lit "authorization") r = Some (lit "krh")
    ∧ header_get (lit "host") r = Some (lit "h").
Proof.
  eexists. split; [vm_compute; reflexivity|]. split; [vm_compute; reflexivity|].
  destruct (sign_spec toy_v4 (λ _ p, Ok p) (λ _, 0) 1 (UpgradeSigner_new (lit "k") (lit "r"))
    toy_request) as (c & host & ps & sg & hs & _ & _ & Hp & Hs & Hg & _ & _ & Ho).
  injection Hp as <-. injection Hs as <-. injection Hg as <-.
  etrans; [apply (Ho (lit "host"))|vm_compute; reflexivity].
  intros k v Hk%list_elem_of_singleton. injection Hk as -> _. vm_compute. discriminate.
Defined.
