(* ===== verification/Channel.v ===== *)
(** * Opening the data channel (src/connection.rs: [connect]; src/session.rs: how a
      [SessionManager] is built)

    [connect] checks the endpoint, dials it, authenticates the channel with its
    first frame and hands the tasks their shared state; it is what the manager of
    [Session] takes as a parameter.  It returns what it did to the network, in
    order.  The AWS configuration is the two fields of [SdkConfig] the crate reads;
    the KMS client made from it is a parameter, like the WebSocket. *)

From S2P Require Import Prelude RustStd Errors Interfaces Coroutine BinaryProtocol Ack Crypto.
From S2P Require Import Channels Handshake Documents Session Endpoint Connection Inbound.
From S2P Require Import Commands Outbound Signing.

Definition MESSAGE_SCHEMA_VERSION : str := lit "1.0".

Record OpenDataChannelInput := {
  message_schema_version : str;
  request_id : str;
  token_value : str;
  client_id : str;
  open_client_version : str }.

(** [serde_json::to_string], and what a reader of the text gets. *)
Class SerdeText (T : Type) := {
  to_json : T → Result text str;
  from_json : str → Result text T }.
Class SerdeTextOk (T : Type) `{SerdeText T} : Prop :=
  from_to_json x s : to_json x = Ok s → from_json s = Ok x.

Section Channel.
Context {C : Type → Type} `{Mpsc C}.
Context `{UrlLib, HttpLib, UuidDisplay, SerdeText OpenDataChannelInput}.
Context {Credentials Provider Ws : Type}.
Context (feature_kms : bool).
Context (v4 : SigV4 (Credentials := Credentials))
  (provide_credentials : nat → Provider → Result text Credentials)
  (system_time : nat → Z)
  (connect_async : nat → Request → Result DialError Ws)
  (sink_send : Ws → WsMessage → Result text ()).

Abbreviation Signer := (UpgradeSigner (Provider := Provider)).
Abbreviation Kms := (nat → KmsClient).
Abbreviation Params := (ConnectionParams (Signer := Signer) (Kms := Kms)).

(** ** [connect] *)

(** What [connect] did to the network. *)
Inductive NetEvent := Dial (e : dial_event Request) | Frame (m : WsMessage).

(** The state of the tasks [spawn]ed; the session gets the command queue in it. *)
Record DataChannel := {
  dc_ws : Ws;
  dc_world : World (C := C);
  dc_heartbeat : Duration;
  dc_idle : Duration }.

Definition dc_commands (ch : DataChannel) : C Command := n_commands (w_net (dc_world ch)).

Definition sign (attempt : nat) (s : Signer) (r : Request) : Res Request :=
  signed v4 provide_credentials system_time attempt s r.

Definition open_input (p : Params) (uuid : list byte) : OpenDataChannelInput :=
  {| message_schema_version := MESSAGE_SCHEMA_VERSION; request_id := uuid_to_string uuid;
     token_value := cp_token p; client_id := cp_session_id p;
     open_client_version := CLIENT_PROTOCOL_VERSION |}.

Definition handshake_handler (p : Params) : HandshakeHandler :=
  if feature_kms then
    match cp_kms p with
    | Some client => with_kms {| client := client; kms_session_id := cp_session_id p;
                                 kms_target_id := cp_target p |}
    | None => HandshakeHandler_new
    end
  else HandshakeHandler_new.

(** The core and the channel hold the same [Arc<Continuity>]. *)
Definition connect (core : SessionCore (C := C)) (p : Params) (uuid : list byte) (now : Z)
  : Outcome (Res DataChannel) * list NetEvent :=
  match endpoint_validate (cp_endpoint_policy p) (cp_stream_url p) with
  | Err e => (Done (Err e), [])
  | Ok _ =>
    let '(r, tr) := dial upgrade_request sign connect_async (cp_stream_url p) (cp_signer p) in
    let tr := map Dial tr in
    match r with
    | Panicked => (Panicked, tr)
    | Done (Err e) => (Done (Err e), tr)
    | Done (Ok ws) =>
      match to_json (open_input p uuid) with
      | Err e => (Done (Err (Error_Serialization e)), tr)
      | Ok open_json =>
        let tr := tr ++ [Frame (Text open_json)] in
        match sink_send ws (Text open_json) with
        | Err e =>
          (Done (Err (transport (PLit "failed to open the data channel: " :: e))), tr)
        | Ok _ =>
          (Done (Ok {| dc_ws := ws;
                       dc_world := channel_new (set_continuity core (cp_continuity p))
                                     (cp_chunk_size p) (handshake_handler p) now;
                       dc_heartbeat := cp_heartbeat_interval p;
                       dc_idle := cp_idle_timeout p |}), tr)
        end
      end
    end
  end.

(** [connect] as [Session::open] calls it: the queue, and what the tasks run on.  It
    never panics ([connect_total]). *)
Definition connect_channel (uuid : list byte) (now : Z) (core : SessionCore (C := C)) (p : Params)
  : Res (C Command * DataChannel) :=
  match (connect core p uuid now).1 with
  | Done (Ok ch) => Ok (dc_commands ch, ch)
  | Done (Err e) => Err e
  | Panicked => Err (transport [])
  end.

(** ** The manager *)

(** What the crate reads of an [aws_config::SdkConfig]. *)
Record SdkConfig := { credentials_provider : option Provider; sdk_region : option str }.

Context (kms_client : SdkConfig → Kms).
(** The ambient configuration, and the defaults with a region pinned. *)
Context (load_from_env : SdkConfig) (load_region : str → SdkConfig).

Definition from_conf (conf : SdkConfig) : SessionManager (Signer := Signer) (Kms := Kms) :=
  {| signer := match credentials_provider conf, sdk_region conf with
               | Some credentials, Some region => Some (UpgradeSigner_new credentials region)
               | _, _ => None
               end;
     kms := if feature_kms then Some (kms_client conf) else None |}.

Definition SessionManager_new : Res (SessionManager (Signer := Signer) (Kms := Kms)) :=
  Ok (from_conf load_from_env).
Definition for_region (r : str) : Res (SessionManager (Signer := Signer) (Kms := Kms)) :=
  Ok (from_conf (load_region r)).

(** ** Properties of [connect] *)

Lemma connect_total core p uuid now : ∃ r, (connect core p uuid now).1 = Done r.
Proof.
  unfold connect. destruct (endpoint_validate _ _); [|by eexists].
  destruct (dial_bounded upgrade_request sign connect_async (cp_stream_url p) (cp_signer p))
    as (r & k & Hr & _). destruct (dial _ _ _ _ _) as [r' tr]. cbn in Hr. subst r'.
  destruct r; [|by eexists]. destruct (to_json _); [|by eexists].
  destruct (sink_send _ _); by eexists.
Qed.

(** A channel that opened. *)
Lemma connect_ok core p uuid now ch :
  (connect core p uuid now).1 = Done (Ok ch) →
  dc_world ch = channel_new (set_continuity core (cp_continuity p)) (cp_chunk_size p)
                  (handshake_handler p) now
  ∧ dc_idle ch = cp_idle_timeout p ∧ dc_heartbeat ch = cp_heartbeat_interval p.
Proof.
  unfold connect. destruct (endpoint_validate _ _); [|done].
  destruct (dial _ _ _ _ _) as [[[ws|]|] tr]; [|done..]. destruct (to_json _); [|done].
  destruct (sink_send _ _); [|done]. by intros [= <-].
Qed.

(** The requests dialled, and the frames written. *)
Definition requests (tr : list NetEvent) : list Request :=
  omap (λ e, match e with Dial (Dialled _ r) => Some r | _ => None end) tr.
Definition frames (tr : list NetEvent) : list WsMessage :=
  omap (λ e, match e with Frame m => Some m | _ => None end) tr.

Lemma requests_dial tr : requests (map Dial tr) = dialled tr.
Proof.
  unfold requests, dialled. induction tr as [|[r|d] tr IH]; cbn in *; by rewrite ?IH.
Qed.
Lemma frames_dial tr : frames (map Dial tr) = [].
Proof. unfold frames. by induction tr. Qed.

(** How the request of attempt [n] reaches the gateway: built from the URL for this
    attempt, with its own key, and signed with the credentials and the time of this
    attempt unless the URL is presigned or there is no signer. *)
Definition authorised (p : Params) (n : nat) (q : Request) : Prop :=
  ∃ q0, upgrade_request n (cp_stream_url p) = Ok q0
    ∧ match cp_signer p with
      | Some s => if is_presigned (cp_stream_url p) then q = q0
                  else signed v4 provide_credentials system_time n s q0 = Ok q
      | None => q = q0
      end.

Lemma dial_authorised p j q :
  dialled (dial upgrade_request sign connect_async (cp_stream_url p) (cp_signer p)).2 !! j = Some q →
  authorised p (S j) q.
Proof.
  intros Hq. destruct (dial_loop_requests upgrade_request sign connect_async (cp_stream_url p)
    (cp_signer p) CONNECT_ATTEMPTS 1 (from_millis 200)) as [_ Hin].
  pose proof (Hin j q Hq) as Hr. unfold dial_request in Hr.
  apply Result_bind_Ok in Hr as (q0 & Hq0 & Hr). exists q0. split; [done|].
  destruct (cp_signer p); [|by injection Hr].
  destruct (is_presigned _); [by injection Hr|done].
Qed.

(** C17: opening a channel, on every path.  [connect] always returns.  An endpoint
    the policy refuses is never dialled.  At most three requests are sent; the n-th is
    built from the session's URL by the n-th attempt, with the key drawn for it, and
    signed with the credentials and the time of that attempt, so none is reused; but a
    presigned URL is never signed again.  Nothing but one frame is written, after
    a dial succeeded, and it is the JSON that authenticates the channel: schema
    version [1.0], the session's token and identifier, the client version.  The
    token travels nowhere else.  The channel counts as open only when that frame
    was accepted. *)
Theorem connect_spec `{!SerdeTextOk OpenDataChannelInput} core p uuid now :
  ∃ r tr, connect core p uuid now = (Done r, tr)
    ∧ (∀ e, endpoint_validate (cp_endpoint_policy p) (cp_stream_url p) = Err e →
         r = Err e ∧ tr = [])
    ∧ (length (requests tr) ≤ 3)%nat
    ∧ (∀ j q, requests tr !! j = Some q → authorised p (S j) q)
    ∧ (frames tr = []
       ∨ ∃ json, frames tr = [Text json] ∧ last tr = Some (Frame (Text json))
           ∧ from_json json = Ok {| message_schema_version := lit "1.0";
               request_id := uuid_to_string uuid; token_value := cp_token p;
               client_id := cp_session_id p; open_client_version := lit "1.2.764.0" |})
    ∧ (∀ ch, r = Ok ch → ∃ m, frames tr = [m] ∧ sink_send (dc_ws ch) m = Ok ()).
Proof.
  destruct (connect_total core p uuid now) as [r Hr].
  destruct (connect core p uuid now) as [r' tr] eqn:Ec. cbn in Hr. subst r'.
  exists r, tr. split; [done|]. revert Ec. unfold connect.
  destruct (endpoint_validate _ _) as [u|e]; [|intros [= <- <-]].
  2: { split_and!; [by intros ? [= <-]|cbn; lia|done|by left|done]. }
  pose proof (dial_authorised p) as Ha.
  destruct (dial_loop_requests upgrade_request sign connect_async (cp_stream_url p)
    (cp_signer p) CONNECT_ATTEMPTS 1 (from_millis 200)) as [Hl _].
  change (dial_loop _ _ _ _ _ _ _ _) with
    (dial upgrade_request sign connect_async (cp_stream_url p) (cp_signer p)) in Hl.
  destruct (dial _ _ _ _ _) as [rd trd]. cbn [snd] in Ha, Hl. rewrite <- requests_dial in Ha, Hl.
  assert (Hframe : ∀ m, requests (map Dial trd ++ [Frame m]) = requests (map Dial trd)
    ∧ frames (map Dial trd ++ [Frame m]) = [m] ∧ last (map Dial trd ++ [Frame m]) = Some (Frame m)).
  { intros m. unfold requests at 1, frames at 1. rewrite !omap_app, last_snoc. cbn.
    rewrite app_nil_r. fold (requests (map Dial trd)). fold (frames (map Dial trd)).
    by rewrite frames_dial. }
  destruct rd as [[ws|e]|]; [|intros [= <- <-]; split_and!; try done; left; apply frames_dial|done].
  destruct (to_json _) as [json|e] eqn:Ej;
    [|intros [= <- <-]; split_and!; try done; left; apply frames_dial].
  destruct (Hframe (Text json)) as (Hq & Hf & Hlast). apply from_to_json in Ej.
  destruct (sink_send ws (Text json)) as [[]|e] eqn:Es; intros [= <- <-];
    rewrite Hq, Hf, Hlast; split_and!; try done; try (right; by exists json).
  intros ch [= <-]. by exists (Text json).
Qed.

(** What [session_open] makes of it. *)
Lemma session_open_channel uuid now o s ch :
  session_open_on (connect_channel uuid now) o = Ok (s, ch) →
  dc_world ch = channel_new (core s) (payload_chunk_size (op_config o))
          (w_handshake (dc_world ch)) now
  ∧ commands s = dc_commands ch ∧ (config s = op_config o ∧ ssm s = op_ssm o)
  ∧ core s = SessionCore_new (op_session_id o) (output_buffer (op_config o)) (op_continuity o)
  ∧ dc_idle ch = idle_timeout (op_config o) ∧ dc_heartbeat ch = heartbeat_interval (op_config o)
  ∧ ∃ p tr, connect (core s) p uuid now = (Done (Ok ch), tr)
      ∧ cp_token p = op_token o ∧ cp_session_id p = op_session_id o
      ∧ cp_stream_url p = op_stream_url o ∧ cp_signer p = op_signer o
      ∧ cp_endpoint_policy p = endpoint_policy (op_config o)
      ∧ cp_target p = target (op_config o) ∧ cp_kms p = op_kms o.
Proof.
  unfold session_open_on. intros ([q ch'] & Hq & [= <- <-])%Result_bind_Ok. revert Hq.
  set (p := Build_ConnectionParams _ _ _ _ _ _ _ _ _ _ _). unfold connect_channel.
  destruct (connect _ p uuid now) as [r tr] eqn:Ec. cbn [fst].
  destruct r as [[ch|]|]; [|done..]. intros [= <- <-].
  destruct (connect_ok (SessionCore_new (op_session_id o) (output_buffer (op_config o))
    (op_continuity o)) p uuid now ch) as (Hw & Hi & Hh); [by rewrite Ec|].
  cbn [core commands config]. split_and!; try done; [by rewrite Hw|by exists p, tr].
Qed.
End Channel.

(** ** A session on its channel *)

Section OpenedSession.
Context {C : Type → Type} `{Mpsc C} `{!MpscOk C}.
Context `{UrlLib, HttpLib, UuidDisplay, SerdeText OpenDataChannelInput}.
Context {Credentials Provider Ws : Type}.
Context (v4 : SigV4 (Credentials := Credentials))
  (provide_credentials : nat → Provider → Result text Credentials)
  (system_time : nat → Z)
  (connect_async : nat → Request → Result DialError Ws)
  (sink_send : Ws → WsMessage → Result text ()).
Context `{Sha256, Aes256Gcm, Base64} {Value : Type} `{ActionJson Value}.
Context `{Serde AcknowledgeContent, Serde (HandshakeRequest (Value := Value)),
  Serde (HandshakeResponse (Value := Value)), Serde HandshakeComplete,
  Serde EncryptionChallengeRequest, Serde EncryptionChallengeResponse,
  Serde ChannelClosedBody}.
Context `{Platform}.
Abbreviation connect := (connect (C := C) feature_kms v4 provide_credentials system_time connect_async
  sink_send).
Abbreviation connect_channel := (connect_channel (C := C) feature_kms v4 provide_credentials
  system_time connect_async sink_send).

(** A stream state that can be taken over at message [base] of the agent's stream. *)
Definition takes_over (agent : list ClientMessage) (base : nat) (c : Continuity) : Prop :=
  expected c = Z.of_nat base ∧ (base ≤ length agent)%nat
  ∧ ∀ k m, messages (incoming c) !! k = Some m →
      Z.of_nat base < k ∧ agent !! Z.to_nat k = Some m.

(** C11: every session that opens, new, attached or resumed, starts on a channel in
    the state the channel's guarantees need, so they hold for it however its tasks
    are then scheduled.  The channel is the one [Session::open] was handed: it was opened
    with the opening's identifier, target, token, URL, signer, key service and policy, it
    shares the session's core and queue, and it has the opening's stream state and
    intervals.  Its command queue is empty and 256 deep and its chunk size is the
    configured one, as far as the protocol can carry it.  What it sends is numbered
    without gaps from where the inherited stream state stopped and reaches the writer in
    that order; what is kept for retransmission is among the inherited backlog and these
    messages; what callers submit goes out in order; and what it acts on continues the
    agent's stream where the inherited state stopped. *)
Theorem opened_session_correct uuid now o s ch agent base evs :
  session_open_on (connect_channel uuid now) o = Ok (s, ch) →
  in_i 64 (next_sequence (op_continuity o)) = true →
  (∀ k m, agent !! k = Some m → sequence_number m = Z.of_nat k) → #agent < 2 ^ 63 →
  takes_over agent base (op_continuity o) → Forall (event_from_agent agent) evs →
  (∃ p tr, connect (core s) p uuid now = (Done (Ok ch), tr)
     ∧ cp_token p = op_token o ∧ cp_session_id p = op_session_id o
     ∧ cp_stream_url p = op_stream_url o ∧ cp_signer p = op_signer o
     ∧ cp_endpoint_policy p = endpoint_policy (op_config o)
     ∧ cp_target p = target (op_config o) ∧ cp_kms p = op_kms o)
  ∧ (config s = op_config o ∧ ssm s = op_ssm o)
  ∧ w_core (dc_world ch) = core s ∧ commands s = dc_commands ch
  ∧ stream (dc_world ch) = op_continuity o
  ∧ dc_idle ch = idle_timeout (op_config o) ∧ dc_heartbeat ch = heartbeat_interval (op_config o)
  ∧ queued (commands s) = [] ∧ capacity_of (commands s) = 256
  ∧ w_chunk_size (dc_world ch) = clamp (payload_chunk_size (op_config o)) 1 MAX_PAYLOAD_SIZE
  ∧ 1 ≤ w_chunk_size (dc_world ch) ≤ MAX_PAYLOAD_SIZE
  ∧ let s0 := next_sequence (op_continuity o) in
    let v := s_world (sys_run (dc_idle ch) (spawn (dc_world ch)) evs) in
    let h := w_history v in
    (∀ k x, h_tracked h !! k = Some x →
       tk_seq x = wrap_i 64 (s0 + Z.of_nat k) ∧ carries (cipher (op_continuity o)) x)
    ∧ (h_aborted h = false → h_sent h `prefix_of` (tk_wire <$> h_tracked h))
    ∧ backlog (outgoing (stream v)) `sublist_of`
        backlog (outgoing (op_continuity o)) ++ ((λ x, (tk_seq x, tk_wire x)) <$> h_tracked h)
    ∧ by_commands v `prefix_of` meaning (Z.to_nat (w_chunk_size (dc_world ch))) (h_taken h)
    ∧ h_taken h `prefix_of` h_accepted h
    ∧ h_delivered h `prefix_of` drop base agent.
Proof.
  intros Ho Hs0 Hseq Hlen (Hexp & Hbase & Hbuf) Hevs.
  destruct (session_open_channel _ _ _ _ _ _ _ _ _ _ _ Ho)
    as (Hw & Hc & Hcfg & Hcore & Hidle & Hheart & Hconn).
  rewrite Hc. unfold dc_commands. set (w := dc_world ch) in *.
  set (hs := w_handshake w) in *. clearbody hs.
  assert (Hcw : w_core w = core s) by by rewrite Hw.
  rewrite Hcore in Hw.
  destruct (channel_spec (A := Command) COMMAND_QUEUE_DEPTH) as (Hq & Hcap & Hrx & _); [done|].
  assert (Hchunk : 1 ≤ w_chunk_size w ≤ MAX_PAYLOAD_SIZE).
  { rewrite Hw. cbn [w_chunk_size channel_new]. unfold clamp.
    assert (1 ≤ MAX_PAYLOAD_SIZE) by done. split_ifs; bool_lia. }
  assert (Hout := out_run (next_sequence (op_continuity o)) (backlog (outgoing (op_continuity o)))
    (cipher (op_continuity o)) (dc_idle ch) evs (spawn w) ltac:(by rewrite Hw; apply spawn_out)).
  assert (Hst : starts agent base w) by (rewrite Hw; by split).
  destruct (inbound_after agent base Hseq Hlen (dc_idle ch) w evs Hst Hevs) as [Hin _].
  apply after_in_order in Hin as [Hin _].
  assert (Hcmd := commands_after (dc_idle ch) w evs ltac:(lia) ltac:(by rewrite Hw)
    ltac:(by rewrite Hw) ltac:(by rewrite Hw)).
  pose proof (out_prefix _ _ _ _ Hout) as Hpre.
  destruct Hout as [κ Hx]. destruct (Hx Reader) as [[[_ Hnum Hb _ _] _] _].
  destruct Hcmd as [κ' Hx']. destruct (Hx' Commands) as [[[Hf _] Hk] _].
  rewrite decide_True in Hk by done. destruct Hk as [Hk _].
  split_and!; try done; try apply Hcfg; try lia; by rewrite Hw.
Qed.
End OpenedSession.

(** ** Witnesses *)

Section ChannelWitnesses.
#[local] Existing Instance toy_url.
#[local] Existing Instance toy_http.
#[local] Existing Instance toy_sha.
#[local] Existing Instance toy_uuid.
#[local] Existing Instance toy_gcm.
#[local] Existing Instance toy_base64.
#[local] Existing Instance toy_json.
#[local] Existing Instance toy_ack.
#[local] Existing Instance no_serde.
#[local] Existing Instance toy_platform.

(** A message as the number of its encoding. *)
#[local] Instance toy_open_json : SerdeText OpenDataChannelInput := {|
  to_json x := Ok [Zpos (countable.encode (message_schema_version x, request_id x, token_value x,
                                 client_id x, open_client_version x))];
  from_json s := match s with
                 | [Zpos p] =>
                   match countable.decode p with
                   | Some (v, r, t, c, o) => Ok {| message_schema_version := v; request_id := r;
                       token_value := t; client_id := c; open_client_version := o |}
                   | None => Err []
                   end
                 | _ => Err []
                 end |}.
#[local] Instance toy_open_json_ok : SerdeTextOk OpenDataChannelInput.
Proof. intros [v r t c o] s [= <-]. cbn. by rewrite countable.decode_encode. Qed.

(** A network whose first connection attempt fails. *)
Definition toy_dial (n : nat) (_ : Request) : Result DialError unit :=
  if (n =? 1)%nat then Err (DialIo []) else Ok ().

Definition toy_host : str := lit "ssmmessages.us-east-1.amazonaws.com".
Definition toy_opening : Opening (Signer := UpgradeSigner (Provider := str))
    (Kms := nat → KmsClient) :=
  {| op_session_id := lit "s-1"; op_config := SessionConfig_new (lit "i-1");
     op_stream_url := toy_host; op_token := lit "t"; op_ssm := true;
     op_signer := Some (UpgradeSigner_new (lit "k") (lit "r"));
     op_continuity := Continuity_fresh; op_kms := None |}.
Definition toy_params (url : str)
  : ConnectionParams (Signer := UpgradeSigner (Provider := str)) (Kms := nat → KmsClient) :=
  {| cp_session_id := lit "s-1"; cp_target := lit "i-1"; cp_stream_url := url;
     cp_token := lit "t"; cp_chunk_size := 1024; cp_endpoint_policy := AwsOnly;
     cp_signer := Some (UpgradeSigner_new (lit "k") (lit "r"));
     cp_continuity := Continuity_fresh; cp_heartbeat_interval := 1; cp_idle_timeout := 2;
     cp_kms := None |}.

(** The second attempt gets through, signed; a foreign host sees nothing at all. *)
Lemma connect_spec_witness :
  (connect true toy_v4 (λ _ p, Ok p) (λ _, 0) toy_dial (λ _ _, Ok ()) toy_core
     (toy_params (lit "example.com")) [] 0).2 = []
  ∧ let tr := (connect true toy_v4 (λ _ p, Ok p) (λ _, 0) toy_dial (λ _ _, Ok ()) toy_core
                 (toy_params toy_host) [] 0).2 in
    length (requests tr) = 2%nat
    ∧ ∀ j q, requests tr !! j = Some q →
        authorised toy_v4 (λ _ p, Ok p) (λ _, 0) (toy_params toy_host) (S j) q.
Proof.
  split.
  - destruct (connect_spec true toy_v4 (λ _ p, Ok p) (λ _, 0) toy_dial (λ _ _, Ok ()) toy_core
      (toy_params (lit "example.com")) [] 0) as (r & tr & -> & He & _).
    edestruct He as [_ ->]; [vm_compute; reflexivity|done].
  - split; [vm_compute; reflexivity|].
    destruct (connect_spec true toy_v4 (λ _ p, Ok p) (λ _, 0) toy_dial (λ _ _, Ok ()) toy_core
      (toy_params toy_host) [] 0) as (r & tr & -> & _ & _ & Ha & _). exact Ha.
Defined.

(** The session of an opening, and its channel, when the second attempt gets through. *)
Definition toy_opened : Session (C := Chan) :=
  {| core := SessionCore_new (lit "s-1") DEFAULT_SUBSCRIBER_CAPACITY Continuity_fresh; commands := channel 256;
     config := SessionConfig_new (lit "i-1"); ssm := true |}.
Definition toy_channel : DataChannel (C := Chan) (Ws := unit) :=
  {| dc_ws := (); dc_world := channel_new (core toy_opened) 1024 HandshakeHandler_new 0;
     dc_heartbeat := from_secs 30; dc_idle := from_secs 120 |}.

Lemma opened_session_correct_witness :
  session_open_on (connect_channel true toy_v4 (λ _ p, Ok p) (λ _, 0) toy_dial (λ _ _, Ok ()) [] 0)
    toy_opening = Ok (toy_opened, toy_channel)
  ∧ h_delivered (w_history (s_world (sys_run (dc_idle toy_channel) (spawn (dc_world toy_channel)) toy_events)))
        `prefix_of` toy_agent_stream.
Proof.
  assert (Ho : session_open_on (connect_channel true toy_v4 (λ _ p, Ok p) (λ _, 0) toy_dial (λ _ _, Ok ()) [] 0)
    toy_opening = Ok (toy_opened, toy_channel)) by (vm_compute; reflexivity).
  split; [exact Ho|].
  destruct (opened_session_correct toy_v4 (λ _ p, Ok p) (λ _, 0) toy_dial
    (λ _ _, Ok ()) [] 0 toy_opening toy_opened toy_channel toy_agent_stream 0 toy_events)
    as (_ & _ & _ & _ & _ & _ & _ & _ & _ & _ & _ & _ & _ & _ & _ & _ & Hd).
  - exact Ho.
  - reflexivity.
  - apply toy_agent_seq.
  - done.
  - split_and!; [done|cbn; lia|done].
  - apply toy_from_agent.
  - exact Hd.
Defined.
End ChannelWitnesses.
