(* ===== verification/Resume.v ===== *)
(** * A session over successive channels (src/reconnect.rs, src/session.rs, src/connection.rs)

    When a connection is lost, [resume_session] opens another channel for the same
    session and hands it the old one's [Continuity]: the sequence counter, the messages
    not acknowledged, the next number expected, the reorder buffer and the cipher.  Here
    a session is followed from channel to channel.  Each channel is one of [Channel],
    with any interleaving of its tasks ([Connection]); the guarantees of [Inbound] and
    [Outbound] add up.

    The [Arc<Continuity>] is passed on as its value, which is the same thing once the
    old channel's tasks have ended; [Teardown] shows that they do if the socket answers.
    The code opens the next channel without waiting for that. *)

From S2P Require Import Prelude RustStd Errors Interfaces Coroutine BinaryProtocol Ack Crypto.
From S2P Require Import Channels Handshake Documents Session Endpoint Connection Inbound.
From S2P Require Import Outbound Signing Channel.

Section Segments.
Context (agent : list ClientMessage).

Lemma segment_app base e e' :
  (base ≤ e ≤ e')%nat → segment agent base e ++ segment agent e e' = segment agent base e'.
Proof.
  intros He. unfold segment.
  assert (drop e agent = drop (e - base) (drop base agent)) as -> by (rewrite drop_drop; f_equal; lia).
  rewrite take_take_drop. f_equal. lia.
Qed.

(** What can be delivered from here can be delivered from any later point. *)
Lemma readable_later `{Aes256Gcm} base e c :
  (base ≤ e)%nat → all_readable agent base c → all_readable agent e c.
Proof.
  intros He Ha. unfold all_readable in *.
  replace (drop e agent) with (drop (e - base) (drop base agent)) by (rewrite drop_drop; f_equal; lia).
  by apply Forall_drop.
Qed.
End Segments.

Section Resume.
Context {C : Type → Type} `{Mpsc C} `{!MpscOk C}.
Context `{UrlLib, HttpLib, UuidDisplay, SerdeText OpenDataChannelInput}.
Context {Credentials Provider Ws : Type}.
Context (v4 : SigV4 (Credentials := Credentials))
  (provide_credentials : nat → Provider → Result text Credentials)
  (system_time : nat → Z)
  (connect_async : nat → Request → Result DialError Ws)
  (sink_send : Ws → WsMessage → Result text ()).
Context `{Sha256, Aes256Gcm, Base64} {Value : Type} `{ActionJson Value}.
Context `{Serde AcknowledgeContent, Serde (HandshakeRequest (Value := Value)),
  Serde (HandshakeResponse (Value := Value)), Serde HandshakeComplete,
  Serde EncryptionChallengeRequest, Serde EncryptionChallengeResponse,
  Serde ChannelClosedBody}.
Context `{Platform}.
Abbreviation connect_channel := (connect_channel (C := C) feature_kms v4 provide_credentials
  system_time connect_async sink_send).
Abbreviation DataChannel := (DataChannel (C := C) (Ws := Ws)).
Abbreviation Channel := (Sys (World (C := C)) Error TaskId).
Context (agent : list ClientMessage).
Implicit Types (c : Continuity) (ch : DataChannel) (w : World (C := C)) (x : Channel).

(** ** One channel *)

(** A session was started, or resumed with a stream state, and [connect] left it this
    channel. *)
Inductive opens : Continuity → DataChannel → Prop :=
| opens_new m cfg api uuid now s ch log :
    start_session_on api (connect_channel uuid now) m cfg = (Ok (s, ch), log) →
    opens Continuity_fresh ch
| opens_again m id cfg api uuid now s ch log c :
    resume_session_on api (connect_channel uuid now) m id cfg c = (Ok (Some (s, ch)), log) →
    opens c ch.

(** A channel that is over: closed, and nothing in it moves any more, except that the
    reader, between two events, has still to notice.  After a close every channel gets
    there if the socket and the KMS answer ([Teardown.shutdown_completes]). *)
Definition over (base : nat) (k : option SessionCrypto) x : Prop :=
  core_closed (w_core (s_world x)) = true
  ∧ (∀ t, t ≠ Reader → finished (s_task x t) = true)
  ∧ (s_task x Reader = at_head
     ∨ s_task x Reader = Stopped ∧ orderly agent base k (h_read (w_history (s_world x)))).

(** The channels of a session, by the states they ended in. *)
Inductive life : Continuity → list (World (C := C)) → Continuity → Prop :=
| life_nil c : life c [] c
| life_cons c ch evs ws c' :
    opens c ch → Forall (event_from_agent agent) evs →
    let x := sys_run (dc_idle ch) (spawn (dc_world ch)) evs in
    over (Z.to_nat (expected c)) (cipher c) x →
    life (stream (s_world x)) ws c' → life c (s_world x :: ws) c'.

Lemma opens_core c ch :
  opens c ch → ∃ id cap chunk h now, dc_world ch = channel_new (SessionCore_new id cap c) chunk h now.
Proof.
  assert (Hopen : ∀ uuid now o s ch', session_open_on (connect_channel uuid now) o = Ok (s, ch') →
    ∃ id cap chunk h now, dc_world ch' = channel_new (SessionCore_new id cap (op_continuity o)) chunk h now).
  { intros uuid now o s ch' Ho.
    destruct (session_open_channel _ _ _ _ _ _ _ _ _ _ _ Ho) as (Hw & _ & _ & Hc & _).
    rewrite Hc in Hw. do 5 eexists. exact Hw. }
  intros [m cfg api uuid now s ch' log Hs|m id cfg api uuid now s ch' log c' Hs]; revert Hs.
  - unfold start_session_on. destruct (config_validate cfg); [|done].
    destruct (mbind _ _) as [[[id url] token]|]; [|done].
    destruct (session_open_on _ _) as [[s' ch'']|e] eqn:Eo; [|done]. intros [= -> -> _].
    exact (Hopen _ _ _ _ _ Eo).
  - unfold resume_session_on. destruct (config_validate cfg); [|done]. destruct (api id) as [r|]; [|done].
    destruct (res_stream_url r), (res_token_value r); try done. destruct (decide _); [done|].
    intros [= Ho _]. apply Result_bind_Ok in Ho as (s' & Eo & [= ->]). exact (Hopen _ _ _ _ _ Eo).
Qed.

Lemma opens_starts base c ch :
  opens c ch → takes_over agent base c → starts agent base (dc_world ch) ∧ stream (dc_world ch) = c.
Proof.
  intros (id & cap & chunk & h & now & Hw)%opens_core (He & Hb & Hm).
  rewrite Hw. split; [|done]. by split.
Qed.

Context (agent_seq : ∀ k m, agent !! k = Some m → sequence_number m = Z.of_nat k).
Context (agent_len : #agent < 2 ^ 63).

(** What the next channel takes over. *)
Lemma leg_inbound base c ch evs :
  opens c ch → takes_over agent base c → Forall (event_from_agent agent) evs →
  let x := sys_run (dc_idle ch) (spawn (dc_world ch)) evs in
  over base (cipher c) x →
  ∃ e, (base ≤ e)%nat ∧ takes_over agent e (stream (s_world x))
    ∧ h_delivered (w_history (s_world x)) = segment agent base e
    ∧ (all_readable agent base (cipher c) →
       h_emitted (w_history (s_world x)) = outputs (cipher c) (segment agent base e)
       ∧ cipher (stream (s_world x)) = cipher c).
Proof.
  intros Ho Ht Hevs x (_ & _ & Hr). destruct (opens_starts base c ch Ho Ht) as [Hst Hc].
  set (w := dc_world ch) in *.
  destruct (inbound_after agent base agent_seq agent_len (dc_idle ch) w evs Hst Hevs) as (Hok & _).
  assert (Hset : settled agent base (cipher (stream w)) (in_capacity (incoming (stream w))) (rview (s_world x))).
  { rewrite <- Hc in Hr. destruct Hr as [Hr|[Hr Hor]]; [by apply after_settled|by apply after_stopped]. }
  rewrite Hc in Hset. destruct Hset as ((e & (He & Hle & Hd & Hb) & Hn) & Hs & _).
  exists e. split_and!; [lia| |done|].
  - split_and!; [done|lia|]. intros k m Hk. destruct (Hb k m Hk). split; [|done].
    destruct (decide (k = Z.of_nat e)) as [->|]; [|lia]. unfold buffered in Hn. cbn in Hn. congruence.
  - intros Ha. destruct (Hs Ha) as [Hk Hem]. cbn in Hk, Hem. split; [|done]. by rewrite Hem, <- Hd.
Qed.

Lemma leg_outbound c ch evs :
  opens c ch → in_i 64 (next_sequence c) = true →
  let v := s_world (sys_run (dc_idle ch) (spawn (dc_world ch)) evs) in
  out_base (next_sequence c) (backlog (outgoing c)) (cipher c) v.
Proof.
  intros (id & cap & chunk & h & now & Hw)%opens_core Hs v.
  pose proof (out_run (next_sequence c) (backlog (outgoing c)) (cipher c) (dc_idle ch) evs
    (spawn (dc_world ch))) as Hok.
  destruct Hok as [κ Hx]; [rewrite Hw; by apply spawn_out|]. by destruct (Hx Reader) as [[Hb _] _].
Qed.

(** Encrypted from the start is encrypted from any earlier one. *)
Lemma carries_earlier k k' y : (k' = None ∨ k = k') → carries k y → carries k' y.
Proof.
  intros Hk (ms & uuid & body & Hs & Hw). exists ms, uuid, body. split; [|done].
  unfold sealed in *. destruct (tk_type y); try done. destruct Hk as [->| ->]; [|done].
  destruct Hs as [[_ ->]|(c & n & He & _)]; [by left|right; eauto].
Qed.

(** ** All of them *)

Abbreviation all_of f ws := (concat ((λ w, f (w_history w)) <$> ws)).

(** C10: a session outlives its channels.  Follow a session through any number of
    channels, each opened by [start_session] or by [resume_session] with the stream state
    the one before left, each with any interleaving of its tasks and any loss,
    duplication and reordering on the way.  Every channel is over before the next is
    opened: closed, its tasks ended, its reader not in the middle of a message.  (The code
    does not wait for that, and [overlap_skips_message] shows what it risks.)  Together
    they have acted on exactly the agent's messages from where the first took over, in
    order and once each, and put out their plaintext; they have numbered what they sent consecutively, across the gaps, and not in
    the clear if the first took over a cipher; and what the last one leaves to be
    retransmitted is among what the first inherited and what they sent. *)
Theorem resumed_stream c ws c' base :
  life c ws c' → takes_over agent base c → in_i 64 (next_sequence c) = true →
  let sent := all_of h_tracked ws in
  ∃ e, (base ≤ e)%nat ∧ takes_over agent e c'
    ∧ all_of h_delivered ws = segment agent base e
    ∧ (all_readable agent base (cipher c) →
       all_of h_emitted ws = outputs (cipher c) (segment agent base e))
    ∧ (∀ k y, sent !! k = Some y →
         tk_seq y = wrap_i 64 (next_sequence c + Z.of_nat k) ∧ carries (cipher c) y)
    ∧ next_sequence c' = wrap_i 64 (next_sequence c + #sent)
    ∧ backlog (outgoing c') `sublist_of`
        backlog (outgoing c) ++ ((λ y, (tk_seq y, tk_wire y)) <$> sent).
Proof.
  intros Hl. revert base. induction Hl as [c|c ch evs ws c' Ho Hevs x Hov Hl IH];
    intros base Ht Hs sent.
  { exists base. unfold segment. rewrite Nat.sub_diag. cbn. split_and!; try done.
    - rewrite len_nil, Z.add_0_r. unfold in_i in Hs. rewrite wrap_i_small; [done|done|bool_lia].
    - by rewrite app_nil_r. }
  assert (Z.to_nat (expected c) = base) as Eb by (destruct Ht as [-> _]; lia). rewrite Eb in Hov.
  destruct (leg_inbound base c ch evs Ho Ht Hevs Hov) as (e1 & He1 & Ht1 & Hd1 & Hm1). fold x in Ht1, Hd1, Hm1.
  pose proof (leg_outbound c ch evs Ho Hs) as [Hn1 Hk1 Hb1 _ Hc1]. fold x in Hn1, Hk1, Hb1, Hc1.
  destruct (IH e1 Ht1) as (e & He & Ht' & Hd & Hm & Hk & Hn & Hb); [rewrite Hn1; by apply wrap_i_range|].
  exists e. unfold sent. cbn [fmap list_fmap concat]. set (t1 := h_tracked (w_history (s_world x))) in *.
  set (t2 := all_of h_tracked ws) in *. split_and!; [lia|done| | | | |].
  - rewrite Hd1, Hd. apply segment_app. lia.
  - intros Ha. destruct (Hm1 Ha) as [Hm1a Hm1c]. rewrite Hm1a.
    rewrite Hm by (rewrite Hm1c; by eapply readable_later). rewrite Hm1c. unfold outputs.
    by rewrite <- omap_app, segment_app by lia.
  - intros k y [Hy|[Hle Hy]]%lookup_app_Some; [by apply Hk1|].
    destruct (Hk _ _ Hy) as [Hseq Hcar]. rewrite Hn1, wrap_i_plus in Hseq. split.
    + rewrite Hseq. f_equal. unfold len. lia.
    + eapply carries_earlier; [|exact Hcar]. destruct (cipher c) as [k0|] eqn:Ek; [right; by apply Hc1|by left].
  - rewrite Hn, Hn1, wrap_i_plus. f_equal. rewrite len_app. lia.
  - rewrite fmap_app, app_assoc. etransitivity; [exact Hb|]. by apply sublist_app.
Qed.
End Resume.

(** ** Witnesses *)

Section ResumeWitnesses.
#[local] Existing Instance toy_url.
#[local] Existing Instance toy_http.
#[local] Existing Instance toy_sha.
#[local] Existing Instance toy_uuid.
#[local] Existing Instance toy_gcm.
#[local] Existing Instance toy_base64.
#[local] Existing Instance toy_json.
#[local] Existing Instance toy_ack.
#[local] Existing Instance no_serde.
#[local] Existing Instance toy_platform.
#[local] Existing Instance toy_open_json.

Abbreviation toy_link := (connect_channel true toy_v4 (λ _ p, Ok p) (λ _, 0) toy_dial (λ _ _, Ok ()) [] 0).
Definition toy_sessions : SessionManager (Signer := UpgradeSigner (Provider := str)) (Kms := nat → KmsClient) :=
  {| signer := Some (UpgradeSigner_new (lit "k") (lit "r")); kms := None |}.
Definition toy_start : StartRequest → Res StartOutput := λ _,
  Ok {| out_session_id := Some (lit "s-1"); out_stream_url := Some toy_host;
        out_token_value := Some (lit "t") |}.
Definition toy_again : str → Res ResumeOutput := λ _,
  Ok {| res_stream_url := Some toy_host; res_token_value := Some (lit "t") |}.

(** The session with a given stream state. *)
Definition toy_resumed (c : Continuity) : Session (C := Chan) :=
  {| core := SessionCore_new (lit "s-1") DEFAULT_SUBSCRIBER_CAPACITY c; commands := channel 256;
     config := SessionConfig_new (lit "i-1"); ssm := true |}.
Definition toy_leg (c : Continuity) : World (C := Chan) :=
  channel_new (core (toy_resumed c)) (payload_chunk_size (config (toy_resumed c))) HandshakeHandler_new 0.
Definition toy_line (c : Continuity) : DataChannel (C := Chan) (Ws := unit) :=
  {| dc_ws := (); dc_world := toy_leg c; dc_heartbeat := from_secs 30; dc_idle := from_secs 120 |}.

Lemma toy_opens_new : start_session_on toy_start toy_link toy_sessions (SessionConfig_new (lit "i-1"))
  = (Ok (toy_resumed Continuity_fresh, toy_line Continuity_fresh), [StartSession]).
Proof. vm_compute. reflexivity. Qed.

Lemma toy_opens_again c : resume_session_on toy_again toy_link toy_sessions (lit "s-1")
  (SessionConfig_new (lit "i-1")) c = (Ok (Some (toy_resumed c, toy_line c)), [ResumeSession (lit "s-1")]).
Proof. vm_compute. reflexivity. Qed.

(** A connection is lost and everything winds down. *)
Definition toy_end : list Event :=
  Close (Transport []) :: toy_polls Reader 3 ++ toy_polls Commands 3 ++ toy_polls Writer 4
  ++ [SinkDone None] ++ toy_polls Writer 4 ++ toy_polls Retransmit 9 ++ toy_polls Heartbeat 9.
Definition toy_more : list Event :=
  Arrive (Incoming (Binary (serialize (toy_output 1))))
  :: Arrive (Incoming (Binary (serialize (toy_output 2))))
  :: Submit (Data [x63]) :: toy_polls Reader 60 ++ toy_polls Commands 30 ++ toy_polls Writer 2
  ++ [SinkDone None] ++ toy_polls Writer 4.

Abbreviation toy_first := (sys_run (from_secs 120) (spawn (toy_leg Continuity_fresh)) (toy_events ++ toy_end)).
Abbreviation toy_second c := (sys_run (from_secs 120) (spawn (toy_leg c)) (toy_more ++ toy_end)).

Lemma toy_end_ok : Forall (event_from_agent toy_agent_stream) toy_end.
Proof.
  unfold toy_end, toy_polls. rewrite Forall_cons, !Forall_app, Forall_cons, Forall_nil.
  split_and!; try (apply Forall_replicate; exact I); exact I.
Qed.

Lemma toy_more_ok : Forall (event_from_agent toy_agent_stream) toy_more.
Proof.
  unfold toy_more, toy_polls. rewrite !Forall_cons, !Forall_app, !Forall_cons, !Forall_nil.
  split_and!; try (apply Forall_replicate; exact I); try exact I;
    intros m Hm; vm_compute in Hm; injection Hm as <-; vm_compute; repeat constructor.
Qed.

Lemma toy_life :
  let c := stream (s_world toy_first) in
  life toy_v4 (λ _ p, Ok p) (λ _, 0) toy_dial (λ _ _, Ok ()) toy_agent_stream
    Continuity_fresh [s_world toy_first; s_world (toy_second c)] (stream (s_world (toy_second c))).
Proof.
  intros c. apply (life_cons _ _ _ _ _ _ _ (toy_line Continuity_fresh)).
  - eapply opens_new. apply toy_opens_new.
  - apply Forall_app. split; [apply toy_from_agent|apply toy_end_ok].
  - split_and!; [vm_compute; reflexivity|intros [] ?; vm_compute; done|right].
    split; [vm_compute; reflexivity|left; exact toy_readable].
  - apply (life_cons _ _ _ _ _ _ _ (toy_line c)).
    + eapply opens_again. apply toy_opens_again.
    + apply Forall_app. split; [apply toy_more_ok|apply toy_end_ok].
    + split_and!; [vm_compute; reflexivity|intros [] ?; vm_compute; done|right].
      split; [vm_compute; reflexivity|left].
      replace (Z.to_nat (expected c)) with 2%nat by (vm_compute; reflexivity).
      replace (cipher c) with (@None SessionCrypto) by (vm_compute; reflexivity).
      apply readable_later with (base := 0%nat); [lia|exact toy_readable].
    + constructor.
Qed.

(** The first channel delivers messages 0 and 1, the second, which is sent 1 again, only
    message 2; their messages to the agent are numbered 0 and 1. *)
Lemma resumed_stream_witness :
  let c := stream (s_world toy_first) in
  let ws := [s_world toy_first; s_world (toy_second c)] in
  concat ((λ w, h_delivered (w_history w)) <$> ws) = toy_agent_stream
  ∧ concat ((λ w, h_emitted (w_history w)) <$> ws) = outputs None toy_agent_stream
  ∧ length (concat ((λ w, h_tracked (w_history w)) <$> ws)) = 2%nat.
Proof.
  intros c ws.
  destruct (resumed_stream toy_v4 (λ _ p, Ok p) (λ _, 0) toy_dial (λ _ _, Ok ()) toy_agent_stream
    toy_agent_seq ltac:(done) Continuity_fresh ws (stream (s_world (toy_second c))) 0 toy_life)
    as (e & _ & (He & _) & Hd & Hm & _); [split_and!; [done|cbn; lia|done]|done|].
  assert (e = 3%nat) as ->.
  { apply Nat2Z.inj. rewrite <- He. vm_compute. reflexivity. }
  split_and!; [exact Hd|exact (Hm toy_readable)|vm_compute; reflexivity].
Defined.

(** ** What the stream state does not hold *)

(** The connection breaks while the commands task works on 1030 bytes. *)
Definition toy_cut : list Event :=
  [Arrive (Incoming (Binary (serialize (toy_output 0))));
   Submit (Data (replicate 1030 x62)); Submit (Data [x63])]
  ++ toy_polls Reader 30 ++ toy_polls Commands 3 ++ [Close (Transport [])] ++ toy_polls Reader 3
  ++ toy_polls Writer 4 ++ [SinkDone None] ++ toy_polls Writer 4 ++ toy_polls Commands 30
  ++ toy_polls Retransmit 9 ++ toy_polls Heartbeat 9.

(** The queue of commands is not part of what a resumed channel takes over.  Two calls of
    [send] were accepted; the first chunk of the first is kept and retransmitted, its rest
    and the second call's data are in nobody's hands, although the session lives on: the
    new channel starts with an empty queue. *)
Lemma resume_cuts_input :
  let x := sys_run (from_secs 120) (spawn (toy_leg Continuity_fresh)) toy_cut in
  let c := stream (s_world x) in
  over toy_agent_stream 0 None x
  ∧ h_accepted (w_history (s_world x)) = [Data (replicate 1030 x62); Data [x63]]
  ∧ tk_payload <$> h_tracked (w_history (s_world x)) = [replicate 1024 x62]
  ∧ length (backlog (outgoing c)) = 1%nat
  ∧ (resume_session_on toy_again toy_link toy_sessions (lit "s-1") (SessionConfig_new (lit "i-1")) c).1
    = Ok (Some (toy_resumed c, toy_line c))
  ∧ n_commands (w_net (toy_leg c)) = channel 256.
Proof.
  intros x c. split_and!; [|vm_compute; reflexivity..|by rewrite toy_opens_again|done].
  split_and!; [vm_compute; reflexivity|intros [] ?; vm_compute; done|right].
  split; [vm_compute; reflexivity|left; exact toy_readable].
Qed.

Definition toy_early : list Event :=
  Arrive (Incoming (Binary (serialize (toy_output 2)))) :: toy_polls Reader 60 ++ [Subscribe].

(** A resumed channel reads before anybody has subscribed: [adopt] spawns the pump, which
    subscribes, after [connect] spawned the reader.  Message 2 is delivered, acknowledged
    and put out, and the subscriber that comes next has an empty queue. *)
Lemma resumed_output_missed :
  let y := s_world (sys_run (from_secs 120) (spawn (toy_leg (stream (s_world toy_first)))) toy_early) in
  h_emitted (w_history y) = [[x61; x02]]
  ∧ expected (stream y) = 3
  ∧ streams (fanout (w_core y)) !! 0%nat
    = Some {| rx := channel DEFAULT_SUBSCRIBER_CAPACITY; lagged := false |}.
Proof. split_and!; vm_compute; reflexivity. Qed.

(** The subscriber is there, and the channel closes while the reader is between the
    acknowledgement of message 0 and its emission. *)
Definition toy_closing : list Event :=
  [Subscribe; Arrive (Incoming (Binary (serialize (toy_output 0))))] ++ toy_polls Reader 3
  ++ [Close (Transport [])] ++ toy_polls Reader 30.

(** What is delivered after the close goes to a fan-out that has hung up on its
    subscribers, and it counts as delivered all the same: a resumed channel waits for
    message 1, and nobody has read message 0. *)
Lemma close_swallows_output :
  let y := s_world (sys_run (from_secs 120) (spawn (toy_leg Continuity_fresh)) toy_closing) in
  h_emitted (w_history y) = [[x61; x00]]
  ∧ expected (stream y) = 1
  ∧ streams (fanout (w_core y)) !! 0%nat
    = Some {| rx := drop_tx (channel DEFAULT_SUBSCRIBER_CAPACITY); lagged := false |}.
Proof. split_and!; vm_compute; reflexivity. Qed.

(** ** Two channels at once *)

(** A channel whose stream state another one has changed. *)
Abbreviation shared x c := {| s_world := set_stream (s_world x) c; s_task := s_task x |}.

(** [reconnect] opens the next channel without waiting for the old tasks, and both have
    the same [Continuity].  Here the old reader is between acknowledging message 0 and
    counting it when its channel closes; the new reader is sent message 0 again, delivers
    and counts it; then the old one counts it too.  Message 1 is taken for one already
    seen and dropped: this is why [over] is asked of a channel. *)
Lemma overlap_skips_message :
  let old := sys_run (from_secs 120) (spawn (toy_leg Continuity_fresh))
    ([Arrive (Incoming (Binary (serialize (toy_output 0))))] ++ toy_polls Reader 3 ++ [Close (Transport [])]) in
  let new := sys_run (from_secs 120) (spawn (toy_leg (stream (s_world old))))
    ([Arrive (Incoming (Binary (serialize (toy_output 0))))] ++ toy_polls Reader 60) in
  let old' := sys_run (from_secs 120) (shared old (stream (s_world new))) (toy_polls Reader 30) in
  let new' := sys_run (from_secs 120) (shared new (stream (s_world old')))
    ([Arrive (Incoming (Binary (serialize (toy_output 1))))] ++ toy_polls Reader 60) in
  h_delivered (w_history (s_world old')) = [toy_output 0]
  ∧ h_delivered (w_history (s_world new')) = [toy_output 0]
  ∧ expected (stream (s_world new')) = 2
  ∧ n_inbox (w_net (s_world new')) = [].
Proof. split_and!; vm_compute; reflexivity. Qed.
End ResumeWitnesses.
