(* ===== verification/Builder.v ===== *)
(** * Fluent construction of sessions (src/builder.rs)

    [SessionBuilder] with its setters, and starting a session from it.  A chain of
    setters is a list of [builder_op]; the reference it is compared with reads, for
    every field, the last value given. *)

From S2P Require Import Prelude RustStd Errors Interfaces BinaryProtocol Crypto Channels.
From S2P Require Import Documents Session Signing Channel.

#[local] Existing Instance Documents.PortForwardingSession_document.

Record SessionBuilder := { region : option str; builder_config : SessionConfig }.

Definition SessionBuilder_new (t : str) : SessionBuilder :=
  {| region := None; builder_config := SessionConfig_new t |}.

(** Writing one field of the configuration. *)
Section Fields.
Context (c : SessionConfig).

Definition set_document (d : option Documents.DocumentSpec) : SessionConfig :=
  {| target := target c; document := d; Session.reason := Session.reason c;
     ready_timeout := ready_timeout c; heartbeat_interval := heartbeat_interval c;
     idle_timeout := idle_timeout c; payload_chunk_size := payload_chunk_size c;
     output_buffer := output_buffer c; endpoint_policy := endpoint_policy c |}.
Definition set_reason (r : option str) : SessionConfig :=
  {| target := target c; document := document c; Session.reason := r;
     ready_timeout := ready_timeout c; heartbeat_interval := heartbeat_interval c;
     idle_timeout := idle_timeout c; payload_chunk_size := payload_chunk_size c;
     output_buffer := output_buffer c; endpoint_policy := endpoint_policy c |}.
Definition set_times (ready heartbeat idle : Duration) : SessionConfig :=
  {| target := target c; document := document c; Session.reason := Session.reason c;
     ready_timeout := ready; heartbeat_interval := heartbeat; idle_timeout := idle;
     payload_chunk_size := payload_chunk_size c;
     output_buffer := output_buffer c; endpoint_policy := endpoint_policy c |}.
Definition set_sizes (chunk buffer : Z) : SessionConfig :=
  {| target := target c; document := document c; Session.reason := Session.reason c;
     ready_timeout := ready_timeout c; heartbeat_interval := heartbeat_interval c;
     idle_timeout := idle_timeout c; payload_chunk_size := chunk; output_buffer := buffer;
     endpoint_policy := endpoint_policy c |}.
Definition set_policy (p : EndpointPolicy) : SessionConfig :=
  {| target := target c; document := document c; Session.reason := Session.reason c;
     ready_timeout := ready_timeout c; heartbeat_interval := heartbeat_interval c;
     idle_timeout := idle_timeout c; payload_chunk_size := payload_chunk_size c;
     output_buffer := output_buffer c; endpoint_policy := p |}.
End Fields.

(** ** The setters *)

Module SessionBuilder.

Definition with_config (b : SessionBuilder) (c : SessionConfig) : SessionBuilder :=
  {| region := region b; builder_config := c |}.

Definition set_region (r : str) (b : SessionBuilder) : SessionBuilder :=
  {| region := Some r; builder_config := builder_config b |}.

Definition maybe_region (r : option str) (b : SessionBuilder) : SessionBuilder :=
  match r with
  | Some r => {| region := Some r; builder_config := builder_config b |}
  | None => b
  end.

Definition document {D} `{Documents.SsmDocument D} (d : D) (b : SessionBuilder) : SessionBuilder :=
  with_config b (set_document (builder_config b) (Some (Documents.DocumentSpec_new d))).

Definition port_forward (remote_port : Z) (b : SessionBuilder) : SessionBuilder :=
  document {| Documents.pf_remote_port := remote_port |} b.

Definition reason (r : str) (b : SessionBuilder) : SessionBuilder :=
  with_config b (set_reason (builder_config b) (Some r)).

Definition ready_timeout (t : Duration) (b : SessionBuilder) : SessionBuilder :=
  let c := builder_config b in
  with_config b (set_times c t (heartbeat_interval c) (idle_timeout c)).

Definition keepalive (interval idle : Duration) (b : SessionBuilder) : SessionBuilder :=
  let c := builder_config b in
  with_config b (set_times c (Session.ready_timeout c) interval idle).

Definition payload_chunk_size (bytes : Z) (b : SessionBuilder) : SessionBuilder :=
  let c := builder_config b in with_config b (set_sizes c bytes (Session.output_buffer c)).

Definition output_buffer (messages : Z) (b : SessionBuilder) : SessionBuilder :=
  let c := builder_config b in with_config b (set_sizes c (Session.payload_chunk_size c) messages).

Definition endpoint_policy (p : EndpointPolicy) (b : SessionBuilder) : SessionBuilder :=
  with_config b (set_policy (builder_config b) p).

(** [config], and [into_config], which consumes the builder. *)
Definition config (b : SessionBuilder) : SessionConfig := builder_config b.
Definition into_config (b : SessionBuilder) : SessionConfig := builder_config b.

(** ** Starting *)

Section Start.
Context {C : Type → Type} `{Mpsc C} {Provider : Type}.
Abbreviation Signer := (UpgradeSigner (Provider := Provider)).
Abbreviation Sdk := (SdkConfig (Provider := Provider)).
Abbreviation Manager := (SessionManager (Signer := Signer) (Kms := nat → KmsClient)).
Abbreviation Connect := (SessionCore (C := C) → ConnectionParams (Signer := Signer)
  (Kms := nat → KmsClient) → Res (C Command)).
Context (feature_kms : bool) (kms_client : Sdk → nat → KmsClient).
Context (load_from_env : Sdk) (load_region : str → Sdk).
(** The SSM client made from a configuration. *)
Context (ssm_client : Sdk → StartRequest → Res StartOutput).
Context (connect : Connect).

Definition start_with (api_start : StartRequest → Res StartOutput) (m : Manager)
    (b : SessionBuilder) : Res (Session (C := C)) * list ApiCall :=
  start_session api_start connect m (builder_config b).

(** The manager that [start] builds keeps the client of its configuration. *)
Definition start (b : SessionBuilder) : Res (Session (C := C)) * list ApiCall :=
  let '(manager, conf) :=
    match region b with
    | Some r => (for_region feature_kms kms_client load_region r, load_region r)
    | None => (SessionManager_new feature_kms kms_client load_from_env, load_from_env)
    end in
  match manager with
  | Err e => (Err e, [])
  | Ok m => start_session (ssm_client conf) connect m (builder_config b)
  end.
End Start.

(** ** Chains of setters and their reference *)

Inductive builder_op :=
| Region (r : str)
| MaybeRegion (r : option str)
| Document (D : Type) (i : Documents.SsmDocument D) (d : D)
| PortForward (port : Z)
| Reason (r : str)
| ReadyTimeout (t : Duration)
| Keepalive (interval idle : Duration)
| PayloadChunkSize (bytes : Z)
| OutputBuffer (messages : Z)
| Policy (p : EndpointPolicy).

Definition builder_step (b : SessionBuilder) (o : builder_op) : SessionBuilder :=
  match o with
  | Region r => set_region r b
  | MaybeRegion r => maybe_region r b
  | Document D i d => document d b
  | PortForward p => port_forward p b
  | Reason r => reason r b
  | ReadyTimeout t => ready_timeout t b
  | Keepalive i t => keepalive i t b
  | PayloadChunkSize n => payload_chunk_size n b
  | OutputBuffer n => output_buffer n b
  | Policy p => endpoint_policy p b
  end.

(** The last value that [f] finds in the chain. *)
Definition last_given {A} (f : builder_op → option A) (ops : list builder_op) : option A :=
  last (omap f ops).

Definition region_of (o : builder_op) : option str :=
  match o with Region r => Some r | MaybeRegion r => r | _ => None end.
Definition document_of (o : builder_op) : option Documents.DocumentSpec :=
  match o with
  | Document D i d => Some (Documents.DocumentSpec_new d)
  | PortForward p => Some {| Documents.name := lit "AWS-StartPortForwardingSession";
      Documents.spec_parameters := {[ lit "portNumber" := [u64_to_string p] ]};
      Documents.spec_session_type := Documents.Port |}
  | _ => None
  end.
Definition keepalive_of (o : builder_op) : option (Duration * Duration) :=
  match o with Keepalive i t => Some (i, t) | _ => None end.

Definition reference (t : str) (ops : list builder_op) : SessionConfig :=
  let keep := default (from_secs 30, from_secs 120) (last_given keepalive_of ops) in
  {| target := t; Session.document := last_given document_of ops;
     Session.reason := last_given (λ o, match o with Reason r => Some r | _ => None end) ops;
     Session.ready_timeout := default (from_secs 30)
       (last_given (λ o, match o with ReadyTimeout d => Some d | _ => None end) ops);
     heartbeat_interval := keep.1; idle_timeout := keep.2;
     Session.payload_chunk_size := default 1024
       (last_given (λ o, match o with PayloadChunkSize n => Some n | _ => None end) ops);
     Session.output_buffer := default 8192
       (last_given (λ o, match o with OutputBuffer n => Some n | _ => None end) ops);
     Session.endpoint_policy := default AwsOnly
       (last_given (λ o, match o with Policy p => Some p | _ => None end) ops) |}.

Lemma last_given_snoc {A} (f : builder_op → option A) ops o :
  last_given f (ops ++ [o]) = match f o with Some a => Some a | None => last_given f ops end.
Proof.
  unfold last_given. rewrite omap_app. cbn. destruct (f o); [by rewrite last_snoc|].
  by rewrite app_nil_r.
Qed.

Lemma builder_fold t ops :
  foldl builder_step (SessionBuilder_new t) ops
  = {| region := last_given region_of ops; builder_config := reference t ops |}.
Proof.
  induction ops as [|o ops IH] using rev_ind; [reflexivity|].
  rewrite foldl_snoc, IH. unfold reference. rewrite !last_given_snoc.
  destruct o as [r|[r|]|D i d|p|r|d|i d|n|n|p]; reflexivity.
Qed.

(** What [ssm:StartSession] and the protocol accept of a configuration. *)
Definition acceptable (c : SessionConfig) : Prop :=
  trim (target c) ≠ [] ∧ #(target c) ≤ 400
  ∧ (∀ r, Session.reason c = Some r → 1 ≤ #r ≤ 256)
  ∧ 1 ≤ Session.payload_chunk_size c ≤ MAX_PAYLOAD_SIZE
  ∧ heartbeat_interval c < idle_timeout c.

Section Properties.
Context {C : Type → Type} `{Mpsc C} {Provider : Type}.
Context (feature_kms : bool) (kms_client : SdkConfig (Provider := Provider) → nat → KmsClient).
Context (load_from_env : SdkConfig (Provider := Provider))
  (load_region : str → SdkConfig (Provider := Provider)).
Context (ssm_client : SdkConfig (Provider := Provider) → StartRequest → Res StartOutput).
Context (connect : SessionCore (C := C) → ConnectionParams
  (Signer := UpgradeSigner (Provider := Provider)) (Kms := nat → KmsClient)
  → Res (C Command)).
(** A configuration loaded for a region has that region. *)
Context (region_pinned : ∀ r, sdk_region (load_region r) = Some r).

Lemma start_session_refused api_start m c :
  in_u 64 (Session.payload_chunk_size c) = true →
  (∃ msg, start_session api_start connect m c = (Err (Error_Config msg), [])) ∨ acceptable c.
Proof.
  intros Hn. destruct (config_validate_spec c) as (Hok & Herr & _).
  unfold start_session, start_session_on. destruct (config_validate c) as [[]|e].
  - right. destruct (proj1 Hok eq_refl) as (? & ? & ? & ? & ? & ?).
    unfold acceptable, in_u in *. split_and!; try done. bool_lia.
  - left. destruct (Herr e eq_refl) as [msg ->]. by exists msg.
Qed.

(** C27: a builder is its last writes.  However the setters are chained, the
    configuration they produce is the reference one, each field the last value
    given to it or the crate's default ([None] given to [maybe_region] is no
    value), and starting from the builder is starting a session with that
    configuration: [start_with] on the manager it is given, ignoring the region,
    and [start] on a manager made for the last region given, whose upgrade signer,
    if there are credentials, signs for that region.  A chain whose last writes
    the service or the protocol would not accept is refused before any API call. *)
Theorem builder_last_write t ops api_start m :
  in_u 64 (Session.payload_chunk_size (reference t ops)) = true →
  let b := foldl builder_step (SessionBuilder_new t) ops in
  let conf := match last_given region_of ops with
              | Some r => load_region r | None => load_from_env end in
  into_config b = reference t ops ∧ region b = last_given region_of ops
  ∧ start_with connect api_start m b = start_session api_start connect m (reference t ops)
  ∧ start feature_kms kms_client load_from_env load_region ssm_client connect b
    = start_session (ssm_client conf) connect (from_conf feature_kms kms_client conf)
        (reference t ops)
  ∧ (∀ r cred, last_given region_of ops = Some r → credentials_provider conf = Some cred →
       signer (from_conf feature_kms kms_client conf)
       = Some {| credentials := cred; Signing.region := r |})
  ∧ ((∃ msg, start_with connect api_start m b = (Err (Error_Config msg), []))
     ∨ acceptable (reference t ops)).
Proof.
  intros Hn b conf. subst b. rewrite builder_fold. split_and!; try done.
  - unfold start. cbn [region]. subst conf. by destruct (last_given region_of ops).
  - intros r cred Hr Hc. subst conf. rewrite Hr in *. unfold from_conf.
    cbn [signer]. by rewrite Hc, region_pinned.
  - by apply start_session_refused.
Qed.
End Properties.

(** ** Witness *)

Definition toy_ops : list builder_op :=
  [Region (lit "eu-west-1"); PortForward 1234; Keepalive 5 4; MaybeRegion None;
   Document _ Documents.SshSession_document Documents.SshSession_new; Keepalive 10 45].
Definition toy_sdk (r : option str) : SdkConfig (Provider := str) :=
  {| credentials_provider := Some (lit "k"); sdk_region := r |}.

(** The last document and the last keep-alive count, and the region survives a
    [None]; ending with the keep-alive pair that does not fit would refuse it. *)
Lemma builder_last_write_witness :
  into_config (foldl builder_step (SessionBuilder_new (lit "i-abc")) toy_ops)
  = reference (lit "i-abc") toy_ops
  ∧ heartbeat_interval (reference (lit "i-abc") toy_ops) = 10
  ∧ Documents.name <$> Session.document (reference (lit "i-abc") toy_ops)
    = Some (lit "AWS-StartSSHSession")
  ∧ signer (from_conf true (λ _ _, toy_kms) (toy_sdk (Some (lit "eu-west-1"))))
    = Some {| credentials := lit "k"; Signing.region := lit "eu-west-1" |}.
Proof.
  destruct (builder_last_write (C := Chan) true (λ _ _, toy_kms) (toy_sdk None)
    (λ r, toy_sdk (Some r)) (λ _, toy_api) (λ _ _, Ok (channel 256)) (λ r, eq_refl)
    (lit "i-abc") toy_ops toy_api {| signer := None; kms := None |} eq_refl)
    as (Hc & _ & _ & _ & Hs & _).
  split_and!; [exact Hc|reflexivity|reflexivity|].
  exact (Hs (lit "eu-west-1") (lit "k") eq_refl eq_refl).
Defined.
End SessionBuilder.
