(* ===== verification/Interactive.v ===== *)
(** * The interactive shell (src/interactive.rs)

    [drive] and [pump] are one machine whose phases are the points where the future
    waits; [poll] advances it to the next such point.  Around it the environment
    moves: the session's core changes, the command task takes commands, the stdin
    thread and the resize watcher run, and the future may be dropped (or unwind
    from a panic) at any point where it waits.

    Histories that nothing reads: [sh_shown], the output chunks taken from the
    subscription; [sh_emitted], the chunks the session put out since the shell subscribed;
    [sh_accepted], the commands the session's queue accepted from the shell;
    [sh_taken], the commands the command task took. *)

From S2P Require Import Prelude RustStd Errors Interfaces BinaryProtocol Channels Documents.
From S2P Require Import Session Terminal Signing Channel Builder.

Record InteractiveConfig := {
  show_banner : bool;
  send_initial_size : bool;
  ic_region : option str;
  ic_reason : option str }.

Definition InteractiveConfig_default : InteractiveConfig :=
  {| show_banner := true; send_initial_size := true; ic_region := None; ic_reason := None |}.

(** The builder of [run], and the one of [run_with]. *)
Definition run_builder (c : InteractiveConfig) (t : str) : SessionBuilder :=
  let builder := SessionBuilder.maybe_region (ic_region c) (SessionBuilder_new t) in
  match ic_reason c with
  | Some r => SessionBuilder.reason r builder
  | None => builder
  end.
Definition run_with_builder (t : str) : SessionBuilder := SessionBuilder_new t.

Inductive Phase :=
| WaitReady                          (* in [wait_ready] *)
| SendSize (c : Command)             (* the initial size waits for room in the queue *)
| Select                             (* at the [select!] of [pump] *)
| Sending (c : Command)              (* [pump] waits for room in the queue *)
| Returned (r : Res (option Z))
| Dropped.

Section Shell.
Context {C : Type → Type} `{Mpsc C} {T : Type} `{Crossterm T} `{Serde TerminalSize}.

Record Shell := {
  sh_config : InteractiveConfig;
  sh_owned : bool;                   (* no other [Arc] of the session exists *)
  sh_session : Session (C := C);
  sh_term : T;
  sh_guard : option RawModeGuard;
  sh_bad : bool;                     (* restoring the terminal failed *)
  sh_reader : option (TerminalReader (C := C));
  sh_output : option nat;
  sh_phase : Phase;
  sh_stdout : list byte;             (* what [write_output] wrote *)
  sh_printed : list text;            (* what [println!] wrote *)
  sh_calls : list ApiCall;
  sh_shown : list (list byte);
  sh_emitted : list (list byte);
  sh_accepted : list Command;
  sh_taken : list Command }.

Definition set_session (s : Shell) (x : Session (C := C)) : Shell :=
  {| sh_config := sh_config s; sh_owned := sh_owned s; sh_session := x; sh_term := sh_term s;
     sh_guard := sh_guard s; sh_bad := sh_bad s; sh_reader := sh_reader s;
     sh_output := sh_output s; sh_phase := sh_phase s; sh_stdout := sh_stdout s;
     sh_printed := sh_printed s; sh_calls := sh_calls s; sh_shown := sh_shown s;
     sh_emitted := sh_emitted s; sh_accepted := sh_accepted s; sh_taken := sh_taken s |}.
Definition set_term (s : Shell) (t : T) (g : option RawModeGuard) (bad : bool) : Shell :=
  {| sh_config := sh_config s; sh_owned := sh_owned s; sh_session := sh_session s; sh_term := t;
     sh_guard := g; sh_bad := bad; sh_reader := sh_reader s;
     sh_output := sh_output s; sh_phase := sh_phase s; sh_stdout := sh_stdout s;
     sh_printed := sh_printed s; sh_calls := sh_calls s; sh_shown := sh_shown s;
     sh_emitted := sh_emitted s; sh_accepted := sh_accepted s; sh_taken := sh_taken s |}.
Definition set_pump (s : Shell) (r : option (TerminalReader (C := C))) (o : option nat) : Shell :=
  {| sh_config := sh_config s; sh_owned := sh_owned s; sh_session := sh_session s;
     sh_term := sh_term s; sh_guard := sh_guard s; sh_bad := sh_bad s; sh_reader := r;
     sh_output := o; sh_phase := sh_phase s; sh_stdout := sh_stdout s;
     sh_printed := sh_printed s; sh_calls := sh_calls s; sh_shown := sh_shown s;
     sh_emitted := sh_emitted s; sh_accepted := sh_accepted s; sh_taken := sh_taken s |}.
Definition set_phase (s : Shell) (p : Phase) : Shell :=
  {| sh_config := sh_config s; sh_owned := sh_owned s; sh_session := sh_session s;
     sh_term := sh_term s; sh_guard := sh_guard s; sh_bad := sh_bad s; sh_reader := sh_reader s;
     sh_output := sh_output s; sh_phase := p; sh_stdout := sh_stdout s;
     sh_printed := sh_printed s; sh_calls := sh_calls s; sh_shown := sh_shown s;
     sh_emitted := sh_emitted s; sh_accepted := sh_accepted s; sh_taken := sh_taken s |}.
Definition set_out (s : Shell) (out : list byte) (printed : list text) (calls : list ApiCall)
  : Shell :=
  {| sh_config := sh_config s; sh_owned := sh_owned s; sh_session := sh_session s;
     sh_term := sh_term s; sh_guard := sh_guard s; sh_bad := sh_bad s; sh_reader := sh_reader s;
     sh_output := sh_output s; sh_phase := sh_phase s; sh_stdout := out;
     sh_printed := printed; sh_calls := calls; sh_shown := sh_shown s;
     sh_emitted := sh_emitted s; sh_accepted := sh_accepted s; sh_taken := sh_taken s |}.
Definition set_hist (s : Shell) (shown emitted : list (list byte)) (accepted taken : list Command)
  : Shell :=
  {| sh_config := sh_config s; sh_owned := sh_owned s; sh_session := sh_session s;
     sh_term := sh_term s; sh_guard := sh_guard s; sh_bad := sh_bad s; sh_reader := sh_reader s;
     sh_output := sh_output s; sh_phase := sh_phase s; sh_stdout := sh_stdout s;
     sh_printed := sh_printed s; sh_calls := sh_calls s; sh_shown := shown;
     sh_emitted := emitted; sh_accepted := accepted; sh_taken := taken |}.

Definition println (t : text) (s : Shell) : Shell :=
  set_out s (sh_stdout s) (sh_printed s ++ [t]) (sh_calls s).
Definition sh_core (s : Shell) : SessionCore (C := C) := core (sh_session s).
Definition update_core (s : Shell) (c : SessionCore (C := C)) : Shell :=
  set_session s (set_core (sh_session s) c).

(** ** Leaving *)

(** Dropping the guard, if it is held. *)
Definition drop_raw (s : Shell) : Shell :=
  match sh_guard s with
  | None => s
  | Some g => let '(t, bad) := drop_guard g (sh_term s) in
              set_term s t None (sh_bad s || bad)
  end.

(** Dropping the locals of [pump]. *)
Definition drop_pump (s : Shell) : Shell :=
  let s1 := match sh_output s with
            | None => s
            | Some i => update_core s (set_fanout (sh_core s)
                                         (Channels.drop_stream i (fanout (sh_core s))))
            end in
  set_pump s1 (drop_reader <$> sh_reader s1) None.

(** Dropping the shell's [Arc] of the session. *)
Definition release (s : Shell) : Shell :=
  if sh_owned s then set_session s (drop_session (sh_session s)) else s.

(** An early return of [drive], or its future being dropped. *)
Definition leave (p : Phase) (s : Shell) : Shell :=
  set_phase (release (drop_raw (drop_pump s))) p.

(** [drive] after [pump] returned.  [fault] is the device's answer to the write. *)
Definition finish (fault : option (nat * IoError)) (result : Res ()) (s : Shell) : Shell :=
  let s := drop_pump s in
  let s := set_out s (write_output fault [x0d; x0a] (sh_stdout s)).2 (sh_printed s) (sh_calls s) in
  let s := drop_raw s in
  let reason := close_reason (sh_core s) in
  let code := exit_code (sh_core s) in
  let '(r, session, calls) := terminate (sh_session s) in
  let s := set_out (set_session s session) (sh_stdout s) (sh_printed s) (sh_calls s ++ calls) in
  match r with
  | Err e => leave (Returned (Err e)) s
  | Ok _ =>
    let s := if show_banner (sh_config s) then
               match reason with
               | Some Terminated | None => println [PLit "Session ended."] s
               | Some r => println (PLit "Session ended: " :: reason_to_string r) s
               end
             else s in
    leave (Returned (match result with Ok _ => Ok code | Err e => Err e end)) s
  end.

(** ** [pump] *)

Definition size_command (sz : TerminalSize) : Res Command :=
  match to_vec sz with
  | Err e => Err (Error_Serialization e)
  | Ok payload => Ok (Control Pt_Size payload)
  end.

Definition start_pump (winch : bool) (s : Shell) : Shell :=
  let '(i, c) := core_subscribe (sh_core s) in
  let s := set_hist (update_core s c) [] [] (sh_accepted s) (sh_taken s) in
  set_phase (set_pump s (Some (TerminalReader_start winch (current_size (sh_term s)))) (Some i))
    Select.

(** [session.send(c).await?], then back to the loop. *)
Definition pump_send (fault : option (nat * IoError)) (c : Command) (s : Shell) : Shell :=
  match dispatch c (sh_session s) with
  | (None, _) => set_phase s (Sending c)
  | (Some (Err e), _) => finish fault (Err e) s
  | (Some (Ok _), x) =>
    set_phase (set_hist (set_session s x) (sh_shown s) (sh_emitted s) (sh_accepted s ++ [c])
                 (sh_taken s)) Select
  end.

(** One turn of the loop.  [write] is the device's answer to the chunk written. *)
Definition pump_turn (write fault : option (nat * IoError)) (s : Shell) : Shell :=
  match sh_output s, sh_reader s with
  | Some i, Some rd =>
    let '(r, f) := Channels.recv i (fanout (sh_core s)) in
    let s := update_core s (set_fanout (sh_core s) f) in
    match r with
    | Item chunk =>
      let '(r, out) := write_output write chunk (sh_stdout s) in
      let s := set_hist (set_out s out (sh_printed s) (sh_calls s)) (sh_shown s ++ [chunk])
                 (sh_emitted s) (sh_accepted s) (sh_taken s) in
      match r with Ok _ => s | Err e => finish fault (Err e) s end
    | Ended => finish fault (Ok ()) s
    | Pending_ =>
      let '(e, rd) := next_event rd in
      let s := set_pump s (Some rd) (Some i) in
      match e with
      | Item (Input bytes) => pump_send fault (Data bytes) s
      | Item (Resize size) =>
        match size_command size with
        | Err e => finish fault (Err e) s
        | Ok c => pump_send fault c s
        end
      | Item Eof | Ended => finish fault (Ok ()) s
      | Pending_ => if closed_resolves (sh_core s) then finish fault (Ok ()) s else s
      end
    end
  | _, _ => s
  end.

(** ** [drive] *)

Definition shell_start (cfg : InteractiveConfig) (owned : bool) (x : Session (C := C)) (t : T)
  : Shell :=
  let s := {| sh_config := cfg; sh_owned := owned; sh_session := x; sh_term := t;
              sh_guard := None; sh_bad := false; sh_reader := None; sh_output := None;
              sh_phase := WaitReady; sh_stdout := []; sh_printed := []; sh_calls := [];
              sh_shown := []; sh_emitted := []; sh_accepted := []; sh_taken := [] |} in
  if show_banner cfg
  then println [PLit "Starting session with SessionId: "; PStr (session_id (core x))] s else s.

(** The initial size was queued, refused or waits. *)
Definition size_sent (winch : bool) (c : Command) (s : Shell) : Shell :=
  match dispatch c (sh_session s) with
  | (None, _) => set_phase s (SendSize c)
  | (Some (Err e), _) => leave (Returned (Err e)) s
  | (Some (Ok _), x) =>
    start_pump winch (set_hist (set_session s x) (sh_shown s) (sh_emitted s)
                        (sh_accepted s ++ [c]) (sh_taken s))
  end.

(** The session is ready. *)
Definition ready (winch : bool) (s : Shell) : Shell :=
  let s := match banner (sh_core s) with Some b => println [PStr b] s | None => s end in
  match enter (sh_term s) with
  | (Err e, t) => leave (Returned (Err e)) (set_term s t None (sh_bad s))
  | (Ok g, t) =>
    let s := set_term s t (Some g) (sh_bad s) in
    if send_initial_size (sh_config s) then
      match size_command (current_size t) with
      | Err e => leave (Returned (Err e)) s
      | Ok c => size_sent winch c s
      end
    else start_pump winch s
  end.

(** What the world answers to one poll: how long [wait_ready] has waited, whether
    SIGWINCH can be watched, and the two writes to stdout. *)
Record PollEnv := {
  pe_waited : Duration;
  pe_winch : bool;
  pe_write : option (nat * IoError);
  pe_fault : option (nat * IoError) }.

Definition poll (e : PollEnv) (s : Shell) : Shell :=
  match sh_phase s with
  | WaitReady =>
    match wait_ready (pe_waited e) (sh_session s) with
    | None => s
    | Some (Err err) => leave (Returned (Err err)) s
    | Some (Ok _) => ready (pe_winch e) s
    end
  | SendSize c => size_sent (pe_winch e) c s
  | Select => pump_turn (pe_write e) (pe_fault e) s
  | Sending c => pump_send (pe_fault e) c s
  | Returned _ | Dropped => s
  end.

(** ** The shell in its environment *)

Inductive shell_op :=
| Poll (e : PollEnv)
| DropFuture
| EnvCore (o : core_op)
| EnvTake                            (* the command task takes a command *)
| EnvExit                            (* the command task ends *)
| EnvStdin (r : ReadOutcome)
| EnvWatch (signal : bool) (size : TerminalSize).

Definition active (p : Phase) : bool :=
  match p with Returned _ | Dropped => false | _ => true end.

Definition set_commands (s : Shell) (q : C Command) : Shell :=
  set_session s {| core := sh_core s; commands := q; config := config (sh_session s);
                   ssm := ssm (sh_session s) |}.

Definition shell_step (s : Shell) (o : shell_op) : Shell :=
  match o with
  | Poll e => poll e s
  | DropFuture => if active (sh_phase s) then leave Dropped s else s
  | EnvCore o =>
    set_hist (update_core s (core_step (sh_core s) o)) (sh_shown s)
      (match o with
       | OpEmit d => if core_closed (sh_core s) then sh_emitted s else sh_emitted s ++ [d]
       | _ => sh_emitted s
       end) (sh_accepted s) (sh_taken s)
  | EnvTake =>
    if rx_alive (commands (sh_session s)) then
      let '(r, q) := poll_recv (commands (sh_session s)) in
      set_hist (set_commands s q) (sh_shown s) (sh_emitted s) (sh_accepted s)
        (match r with Item c => sh_taken s ++ [c] | _ => sh_taken s end)
    else s
  | EnvExit => set_commands s (drop_rx (commands (sh_session s)))
  | EnvStdin r => set_pump s (stdin_step r <$> sh_reader s) (sh_output s)
  | EnvWatch sig size => set_pump s (watch_step sig size <$> sh_reader s) (sh_output s)
  end.

Definition shell_run (s : Shell) (os : list shell_op) : Shell := foldl shell_step s os.

(** ** The three ways in *)

(** [attach], and what [run] and [run_with] do with the session they started. *)
Definition shell_attach (tty_in tty_out : bool) (cfg : InteractiveConfig) (owned : bool)
    (x : Session (C := C)) (t : T) : Res Shell :=
  _ ← require_terminal tty_in tty_out; Ok (shell_start cfg owned x t).

Section Run.
Context {Provider : Type} (feature_kms : bool)
  (kms_client : SdkConfig (Provider := Provider) → nat → Crypto.KmsClient)
  (load_from_env : SdkConfig (Provider := Provider))
  (load_region : str → SdkConfig (Provider := Provider))
  (ssm_client : SdkConfig (Provider := Provider) → StartRequest → Res StartOutput)
  (connect : SessionCore (C := C) → ConnectionParams
     (Signer := UpgradeSigner (Provider := Provider)) (Kms := nat → Crypto.KmsClient)
     → Res (C Command)).

Definition started (r : Res (Session (C := C)) * list ApiCall) (cfg : InteractiveConfig) (t : T)
  : Res Shell * list ApiCall :=
  let '(r, calls) := r in
  (match r with Err e => Err e | Ok x => Ok (shell_start cfg true x t) end, calls).

Definition run (tty_in tty_out : bool) (cfg : InteractiveConfig) (target : str) (t : T)
  : Res Shell * list ApiCall :=
  match require_terminal tty_in tty_out with
  | Err e => (Err e, [])
  | Ok _ => started (SessionBuilder.start feature_kms kms_client load_from_env load_region
                       ssm_client connect (run_builder cfg target)) cfg t
  end.

Definition run_with (tty_in tty_out : bool) (cfg : InteractiveConfig) (target : str)
    (api_start : StartRequest → Res StartOutput)
    (m : SessionManager (Signer := UpgradeSigner (Provider := Provider))
           (Kms := nat → Crypto.KmsClient)) (t : T) : Res Shell * list ApiCall :=
  match require_terminal tty_in tty_out with
  | Err e => (Err e, [])
  | Ok _ => started (SessionBuilder.start_with connect api_start m (run_with_builder target)) cfg t
  end.
End Run.
End Shell.

(** ** The terminal is restored *)

Section Raw.
Context {C : Type → Type} `{Mpsc C} {T : Type} `{CrosstermOk T} `{Serde TerminalSize}.
Context (b0 : bool).

Definition raw_part (s : Shell (C := C) (T := T)) : Prop :=
  match sh_guard s with
  | None => sh_bad s = false → raw (sh_term s) = b0
  | Some g => was_raw g = b0 ∧ raw (sh_term s) = true ∧ sh_bad s = false
  end.

Record raw_inv (s : Shell (C := C) (T := T)) : Prop := {
  ri_part : raw_part s;
  ri_phase : match sh_phase s with
             | WaitReady => sh_guard s = None ∧ sh_bad s = false
             | Returned _ | Dropped => sh_guard s = None
             | _ => is_Some (sh_guard s)
             end }.

(** What the guard sees of the shell. *)
Definition term_view (s : Shell (C := C) (T := T)) := (sh_term s, sh_guard s, sh_bad s).

Lemma raw_part_view s s' : term_view s' = term_view s → raw_part s → raw_part s'.
Proof. unfold raw_part. by intros [= -> -> ->]. Qed.

Lemma view_pump s : term_view (drop_pump s) = term_view s.
Proof. unfold drop_pump. by destruct (sh_output s). Qed.
Lemma view_release s : term_view (release s) = term_view s.
Proof. unfold release. by destruct (sh_owned s). Qed.

Lemma drop_raw_part s : raw_part s → sh_guard (drop_raw s) = None ∧ raw_part (drop_raw s).
Proof.
  unfold raw_part, drop_raw. destruct (sh_guard s) as [g|] eqn:Eg; [|by rewrite Eg].
  intros (Hw & Hr & Hb). unfold drop_guard. rewrite Hw. destruct b0; cbn [negb].
  - cbn. by rewrite Hb.
  - destruct (disable_raw_mode (sh_term s)) as [[[]|e] t] eqn:Ed; cbn.
    + apply disable_spec in Ed. done.
    + rewrite orb_true_r. done.
Qed.

Lemma leave_raw p s : raw_part s → active p = false → raw_inv (leave p s).
Proof.
  intros Hr Hp. destruct (drop_raw_part (drop_pump s)) as [Hg Hd].
  { by eapply raw_part_view, Hr; apply view_pump. }
  pose proof (view_release (drop_raw (drop_pump s))) as Hv. unfold leave.
  split; [by eapply raw_part_view, Hd|]. injection Hv as _ Hv _. rewrite Hg in Hv.
  by destruct p.
Qed.

Lemma finish_raw fault r s : raw_part s → raw_inv (finish fault r s).
Proof.
  intros Hr. unfold finish. cbv zeta.
  set (s1 := set_out (drop_pump s) _ _ _).
  destruct (drop_raw_part s1) as [Hg Hd].
  { by eapply raw_part_view, Hr; apply view_pump. }
  destruct (terminate _) as [[[[]|e] x] calls]; (apply leave_raw; [|done]).
  - destruct (show_banner _); [|by eapply raw_part_view, Hd].
    by destruct (close_reason _) as [[]|]; eapply raw_part_view, Hd.
  - by eapply raw_part_view, Hd.
Qed.

Lemma start_pump_raw winch s : raw_part s → is_Some (sh_guard s) → raw_inv (start_pump winch s).
Proof.
  intros Hr Hg. unfold start_pump. destruct (core_subscribe _) as [i c].
  split; [by eapply raw_part_view, Hr|done].
Qed.

Lemma pump_send_raw fault c s : raw_inv s → is_Some (sh_guard s) → raw_inv (pump_send fault c s).
Proof.
  intros [Hr _] Hg. unfold pump_send. destruct (dispatch c _) as [[[[]|e]|] x].
  - split; [by eapply raw_part_view, Hr|done].
  - by apply finish_raw.
  - split; [by eapply raw_part_view, Hr|done].
Qed.

Lemma pump_turn_raw write fault s :
  raw_inv s → is_Some (sh_guard s) → raw_inv (pump_turn write fault s).
Proof.
  intros Hi Hg. unfold pump_turn. destruct (sh_output s) as [i|]; [|done].
  destruct (sh_reader s) as [rd|]; [|done]. destruct (Channels.recv _ _) as [r f].
  set (s1 := update_core s _).
  assert (Hi1 : raw_inv s1 ∧ is_Some (sh_guard s1)).
  { split; [|done]. destruct Hi as [Hr Hp]. split; [by eapply raw_part_view, Hr|].
    change (sh_phase s1) with (sh_phase s). change (sh_guard s1) with (sh_guard s). done. }
  clearbody s1. clear Hi Hg. destruct Hi1 as [Hi Hg]. cbv zeta. destruct r as [chunk| |].
  - destruct (write_output _ _ _) as [[[]|e] out].
    + destruct Hi as [Hr Hp]. split; [by eapply raw_part_view, Hr|exact Hp].
    + apply finish_raw. by eapply raw_part_view, Hi.
  - apply finish_raw, Hi.
  - destruct (next_event rd) as [e rd']. set (s2 := set_pump s1 _ _).
    assert (Hi2 : raw_inv s2) by (destruct Hi as [Hr Hp]; split; [by eapply raw_part_view, Hr|exact Hp]).
    destruct e as [[bytes|size|]| |]; try apply finish_raw, Hi2.
    + by apply pump_send_raw.
    + destruct (size_command size); [by apply pump_send_raw|apply finish_raw, Hi2].
    + destruct (closed_resolves _); [apply finish_raw, Hi2|done].
Qed.

Lemma size_sent_raw winch c s : raw_part s → is_Some (sh_guard s) → raw_inv (size_sent winch c s).
Proof.
  intros Hr Hg. unfold size_sent. destruct (dispatch c _) as [[[[]|e]|] x].
  - apply start_pump_raw; [by eapply raw_part_view, Hr|done].
  - by apply leave_raw.
  - split; [by eapply raw_part_view, Hr|done].
Qed.

Lemma ready_raw winch s : raw_part s → sh_guard s = None → sh_bad s = false → raw_inv (ready winch s).
Proof.
  intros Hr Hg Hb. unfold ready. cbv zeta.
  set (s1 := match banner (sh_core s) with Some _ => _ | None => _ end).
  assert (Hv : term_view s1 = term_view s) by (unfold s1; by destruct (banner _)).
  apply (raw_part_view _ _ Hv) in Hr. injection Hv as Ht Hg1 Hb1.
  rewrite Hg in Hg1. rewrite Hb in Hb1. clearbody s1.
  unfold raw_part in Hr. rewrite Hg1 in Hr. specialize (Hr Hb1).
  destruct (enter (sh_term s1)) as [[g|e] t] eqn:Ee.
  - apply enter_raw in Ee as [Hw Hraw]. set (s2 := set_term _ _ _ _).
    assert (Hr2 : raw_part s2) by (unfold raw_part; cbn; split_and!; congruence).
    destruct (send_initial_size _); [|by apply start_pump_raw].
    destruct (size_command _); [by apply size_sent_raw|by apply leave_raw].
  - apply enter_err in Ee. apply leave_raw; [|done]. unfold raw_part. cbn. congruence.
Qed.

Lemma raw_step s o : raw_inv s → raw_inv (shell_step s o).
Proof.
  intros Hi. assert (Hview : ∀ s', term_view s' = term_view s → sh_phase s' = sh_phase s →
    raw_inv s').
  { intros s' Hv Hp. destruct Hi as [Hr Hph]. split; [by eapply raw_part_view|].
    injection Hv as _ -> ->. by rewrite Hp. }
  destruct o as [e| |o| | |r|sig size]; cbn [shell_step]; try (by apply Hview).
  - unfold poll. pose proof Hi as [Hr Hg]. destruct (sh_phase s) as [|c| |c|r|]; try done.
    + destruct Hg. destruct (wait_ready _ _) as [[[]|err]|]; [by apply ready_raw|by apply leave_raw|done].
    + by apply size_sent_raw.
    + by apply pump_turn_raw.
    + by apply pump_send_raw.
  - destruct (active _) eqn:Ea; [|done]. apply leave_raw; [apply Hi|done].
  - destruct (rx_alive _); [|by apply Hview]. destruct (poll_recv _). by apply Hview.
Qed.

End Raw.

Section Restored.
Context {C : Type → Type} `{Mpsc C} {T : Type} `{CrosstermOk T} `{Serde TerminalSize}.

(** C25: the terminal is given back.  Whatever happens while a shell runs (output,
    input, resizes, the session ending, a failing device, the future being dropped
    or unwinding from a panic wherever it waits), raw mode is on exactly while the
    guard is held, the guard is not held before the session is ready nor after the
    shell is over, and then the terminal is in the mode it was in before, unless
    the terminal itself refused to be restored, which is reported. *)
Theorem terminal_restored cfg owned x t os :
  let s := shell_run (shell_start (C := C) cfg owned x t) os in
  match sh_guard s with
  | Some g => active (sh_phase s) = true ∧ sh_phase s ≠ WaitReady
              ∧ was_raw g = raw t ∧ raw (sh_term s) = true
  | None => sh_bad s = false → raw (sh_term s) = raw t
  end
  ∧ (active (sh_phase s) = false → sh_guard s = None).
Proof.
  intros s. assert (Hi : raw_inv (raw t) s).
  { subst s. unfold shell_run. induction os as [|o os IH] using rev_ind.
    - by split; unfold raw_part, shell_start; destruct (show_banner cfg).
    - rewrite foldl_snoc. by apply raw_step. }
  clearbody s. destruct Hi as [Hr Hp]. unfold raw_part in Hr.
  split; [|by destruct (sh_phase s)]. destruct (sh_guard s) as [g|]; [|done].
  destruct Hr as (? & ? & ?). by destruct (sh_phase s) as [|c| |c|r|]; naive_solver.
Qed.
End Restored.

(** ** Bytes pass verbatim *)

(** The command an event becomes. *)
Definition event_command `{Serde TerminalSize} (e : TerminalEvent) : option Command :=
  match e with
  | Input b => Some (Data b)
  | Resize size => ok (size_command size)
  | Eof => None
  end.

Section Verbatim.
Context {C : Type → Type} `{MpscOk C} {T : Type} `{Crossterm T} `{Serde TerminalSize}.
Abbreviation Sh := (Shell (C := C) (T := T)).
Abbreviation History := (gmap nat (list (list byte) * list (list byte))).

(** *** The session's fan-out *)

Definition core_ok (c : SessionCore (C := C)) (h : History) : Prop :=
  fan_inv (fanout c) h ∧ closed (fanout c) = core_closed c.

Definition hist_step (c : SessionCore (C := C)) (o : core_op) (h : History) : History :=
  match o with
  | OpEmit d => if core_closed c then h else (λ '(g, o), (g, o ++ [d])) <$> h
  | OpSubscribe => <[next_stream (fanout c) := ([], [])]> h
  | _ => h
  end.

Lemma core_ok_step c h o : core_ok c h → core_ok (core_step c o) (hist_step c o h).
Proof.
  intros [Hi Hc]. destruct o as [r|b|d| |k|v|b|[code|]]; cbn [core_step hist_step]; try done.
  - unfold core_close. destruct (core_closed c) eqn:E; [by rewrite <- E in Hc|].
    split; [by apply fan_inv_close|]. cbn. unfold Channels.close. by rewrite Hc.
  - split; cbn; [rewrite <- Hc; by apply fan_inv_send|]. by rewrite emit_closed.
  - rewrite core_subscribe_fanout.
    pose proof (fan_inv_subscribe (subscriber_capacity c) (fanout c) h Hi) as Hs.
    pose proof (subscribe_closed (subscriber_capacity c) (fanout c)) as Hsc.
    assert (Hn : (Channels.subscribe (subscriber_capacity c) (fanout c)).1
                 = next_stream (fanout c)).
    { unfold Channels.subscribe. by destruct (closed _). }
    destruct (Channels.subscribe _ _) as [i f]. cbn in *. subst i. split; cbn; congruence.
Qed.

Definition fan_known (s : Sh) : Prop := ∃ h, core_ok (sh_core s) h.

(** *** Parts of the invariant *)

Definition got (s : Sh) : list TerminalEvent := from_option tr_got [] (sh_reader s).
Definition typed (s : Sh) : list (list byte) := from_option tr_read [] (sh_reader s).
Definition waiting (p : Phase) : list Command :=
  match p with SendSize c | Sending c => [c] | _ => [] end.
Definition pumping (p : Phase) : bool := match p with Select | Sending _ => true | _ => false end.

(** At most the initial size precedes the commands the events became. *)
Definition initial (init : list Command) : Prop :=
  init = [] ∨ ∃ p, init = [Control Pt_Size p].
Definition expected_commands (init : list Command) (s : Sh) : list Command :=
  init ++ omap event_command (got s).

Definition queue_ok (q0 : list Command) (s : Sh) : Prop :=
  let q := commands (sh_session s) in
  if rx_alive q then sh_taken s ++ queued q = q0 ++ sh_accepted s
  else sh_taken s `prefix_of` q0 ++ sh_accepted s.

(** What holds also in the middle of a turn and after the end. *)
Record mid (q0 : list Command) (s : Sh) : Prop := {
  mi_queue : queue_ok q0 s;
  mi_fan : fan_known s;
  mi_shown : sh_shown s `prefix_of` sh_emitted s;
  mi_cmds : ∃ init, initial init ∧ sh_accepted s `prefix_of` expected_commands init s;
  mi_typed : inputs (got s) `prefix_of` typed s }.

(** Shells that differ in nothing the invariant reads but the session's core. *)
Definition same_io (s s' : Sh) : Prop :=
  commands (sh_session s') = commands (sh_session s) ∧ sh_shown s' = sh_shown s
  ∧ sh_emitted s' = sh_emitted s ∧ sh_accepted s' = sh_accepted s ∧ sh_taken s' = sh_taken s
  ∧ got s' = got s ∧ typed s' = typed s ∧ sh_stdout s' = sh_stdout s.

#[local] Instance same_io_preorder : PreOrder same_io.
Proof.
  split; unfold same_io; [done|]. intros x y z. intuition congruence.
Qed.

Lemma mid_same q0 s s' : same_io s s' → fan_known s' → mid q0 s → mid q0 s'.
Proof.
  intros (Hq & Hs & He & Ha & Ht & Hg & Hy & _) Hf [M1 _ M3 M4 M5].
  split; unfold queue_ok, expected_commands in *; rewrite ?Hq, ?Hs, ?He, ?Ha, ?Ht, ?Hg, ?Hy; done.
Qed.

(** *** Leaving *)

Lemma drop_pump_io s : fan_known s → same_io s (drop_pump s) ∧ fan_known (drop_pump s).
Proof.
  intros [h [Hf Hc]]. unfold drop_pump, fan_known. split.
  - unfold same_io, got, typed. destruct (sh_output s); cbn; by destruct (sh_reader s).
  - exists h. destruct (sh_output s); split; cbn; [by apply fan_inv_drop|done..].
Qed.

Lemma drop_raw_io s : same_io s (drop_raw s) ∧ sh_session (drop_raw s) = sh_session s.
Proof.
  unfold drop_raw. destruct (sh_guard s) as [g|]; [|by split].
  destruct (drop_guard _ _). by split.
Qed.

Lemma release_io s : fan_known s → same_io s (release s) ∧ fan_known (release s).
Proof.
  intros [h Hc]. unfold release, fan_known. destruct (sh_owned s); [|split; [done|by exists h]].
  split; [done|]. exists h. exact (core_ok_step _ _ (OpClose Terminated) Hc).
Qed.

Lemma leave_io p s :
  fan_known s → same_io s (leave p s) ∧ fan_known (leave p s)
  ∧ sh_phase (leave p s) = p ∧ sh_output (leave p s) = None.
Proof.
  intros Hf. destruct (drop_pump_io s Hf) as [H1' Hf1].
  destruct (drop_raw_io (drop_pump s)) as [H2' Hs2].
  assert (Hf2 : fan_known (drop_raw (drop_pump s))).
  { unfold fan_known, sh_core in *. by rewrite Hs2. }
  destruct (release_io _ Hf2) as [H3' Hf3]. split_and!; try done.
  - etransitivity; [exact H1'|]. etransitivity; [exact H2'|]. exact H3'.
  - unfold leave, release, drop_raw. cbn. by destruct (sh_guard _); cbn;
      destruct (sh_owned _); try destruct (drop_guard _ _).
Qed.

Lemma finish_io fault r s :
  fan_known s →
  let s' := finish fault r s in
  same_io (set_out s (sh_stdout s') (sh_printed s) (sh_calls s)) s' ∧ fan_known s'
  ∧ sh_output s' = None
  ∧ (∃ e, sh_stdout s' = sh_stdout s ++ take e [x0d; x0a])
  ∧ ∃ r', sh_phase s' = Returned r' ∧ is_ok r' = is_ok r.
Proof.
  intros Hf s'. subst s'. unfold finish. cbv zeta.
  destruct (drop_pump_io s Hf) as [H1' Hf1]. set (s1 := drop_pump s) in *.
  set (out := (write_output fault [x0d; x0a] (sh_stdout s1)).2).
  set (s2 := set_out s1 _ _ _). destruct (drop_raw_io s2) as [H2' Hs2].
  set (s3 := drop_raw s2) in *.
  assert (Hf3 : fan_known s3).
  { unfold fan_known, sh_core in *. rewrite Hs2. exact Hf1. }
  destruct (terminate_shape (sh_session s3)) as [calls ->].
  set (s4 := set_out _ _ _ (sh_calls s3 ++ calls)).
  assert (H4' : same_io s3 s4 ∧ fan_known s4).
  { split; [done|]. destruct Hf3 as [h Hh]. exists h.
    exact (core_ok_step _ _ (OpClose Terminated) Hh). }
  destruct H4' as [H4' Hf4].
  set (s5 := if show_banner _ then _ else _).
  assert (H5' : same_io s4 s5 ∧ fan_known s5).
  { subst s5. destruct (show_banner _); [|done]. by destruct (close_reason _) as [[]|]. }
  destruct H5' as [H5' Hf5]. clearbody s5.
  set (p := match r with Ok _ => _ | Err e => _ end).
  destruct (leave_io (Returned p) s5 Hf5) as (H6' & Hf6 & Hp & Ho).
  assert (Hall : same_io s2 (leave (Returned p) s5)).
  { etransitivity; [exact H2'|]. etransitivity; [exact H4'|].
    etransitivity; [exact H5'|exact H6']. }
  assert (Hout : sh_stdout (leave (Returned p) s5) = out).
  { destruct Hall as (_ & _ & _ & _ & _ & _ & _ & ->). done. }
  split_and!; [|done|done| |exists p; split; [done|by subst p; destruct r]].
  - rewrite Hout. destruct H1' as (? & ? & ? & ? & ? & ? & ? & ?).
    destruct Hall as (? & ? & ? & ? & ? & ? & ? & ?).
    unfold same_io; cbn. split_and!; etransitivity; eauto.
  - rewrite Hout. destruct H1' as (_ & _ & _ & _ & _ & _ & _ & H1'). unfold out.
    rewrite H1'. unfold write_output. destruct fault as [[k e]|]; [by exists k|by exists 2%nat].
Qed.

(** *** The invariant *)

Definition out_ok (s : Sh) : Prop :=
  match sh_phase s with
  | WaitReady | SendSize _ => sh_shown s = [] ∧ sh_stdout s = [] ∧ sh_accepted s = []
  | Select | Sending _ | Dropped => sh_stdout s = concat (sh_shown s)
  | Returned r => ∃ k e, sh_stdout s = take k (concat (sh_shown s)) ++ take e [x0d; x0a]
      ∧ (is_ok r = true → take k (concat (sh_shown s)) = concat (sh_shown s))
  end.

(** The shell's subscription. *)
Definition sub_ok (s : Sh) : Prop :=
  ∀ i, sh_output s = Some i → ∃ h st, core_ok (sh_core s) h
    ∧ h !! i = Some (sh_shown s, sh_emitted s)
    ∧ streams (fanout (sh_core s)) !! i = Some st ∧ rx_alive (rx st) = true.

Record io_inv (q0 : list Command) (s : Sh) : Prop := {
  io_mid : mid q0 s;
  io_out : out_ok s;
  io_sub : sub_ok s;
  io_active : active (sh_phase s) = true → ∃ init, initial init
    ∧ sh_accepted s ++ waiting (sh_phase s) = expected_commands init s;
  io_reader : if pumping (sh_phase s)
    then is_Some (sh_output s) ∧ ∃ rd size, sh_reader s = Some rd ∧ reader_inv size rd
    else sh_output s = None ∧ (active (sh_phase s) = true → sh_reader s = None) }.

(** Shells after the end. *)
Lemma io_over q0 s :
  active (sh_phase s) = false → mid q0 s → out_ok s → sh_output s = None → io_inv q0 s.
Proof.
  intros Ha Hm Ho Hn. split; try done.
  - intros i Hi. congruence.
  - congruence.
  - by destruct (sh_phase s); cbn in *.
Qed.

Lemma leave_over q0 p s :
  active p = false → mid q0 s → sh_stdout s = concat (sh_shown s) → io_inv q0 (leave p s).
Proof.
  intros Ha Hm Hs. destruct (leave_io p s (mi_fan _ _ Hm)) as (Hio & Hf & Hp & Hn).
  apply io_over; [by rewrite Hp|by eapply mid_same| |done].
  destruct Hio as (_ & Hsh & _ & _ & _ & _ & _ & Hst). unfold out_ok.
  rewrite Hp, Hsh, Hst, Hs. destruct p; try done.
  exists (length (concat (sh_shown s))), 0%nat. by rewrite take_ge, app_nil_r by lia.
Qed.

Lemma finish_over q0 fault r s k :
  mid q0 s → sh_stdout s = take k (concat (sh_shown s)) →
  (is_ok r = true → take k (concat (sh_shown s)) = concat (sh_shown s)) →
  io_inv q0 (finish fault r s).
Proof.
  intros Hm Hs Hr. destruct (finish_io fault r s (mi_fan _ _ Hm))
    as (Hio & Hf & Hn & [e He] & r' & Hp & Hr').
  apply io_over; [by rewrite Hp| | |done].
  - eapply mid_same; [exact Hio|done|]. by destruct Hm.
  - destruct Hio as (_ & Hsh & _). cbn in Hsh. unfold out_ok. rewrite Hp, He, Hsh, Hs, Hr'.
    by exists k, e.
Qed.

(** *** Sending *)

Lemma dispatch_inv c (x : Session (C := C)) r x' :
  dispatch c x = (r, x') →
  match r with
  | Some (Ok _) => core x' = core x ∧ rx_alive (commands x) = true
      ∧ rx_alive (commands x') = true ∧ queued (commands x') = queued (commands x) ++ [c]
  | _ => x' = x
  end.
Proof.
  unfold dispatch. destruct (core_closed _); [by intros [= <- <-]|].
  destruct (try_send c (commands x)) as [[] q] eqn:E; apply try_send_inv in E;
    intros [= <- <-]; [|done..]. by destruct E as (? & ? & ? & _).
Qed.

Definition accept (c : Command) (x : Session (C := C)) (s : Sh) : Sh :=
  set_hist (set_session s x) (sh_shown s) (sh_emitted s) (sh_accepted s ++ [c]) (sh_taken s).

(** The session took the command an event became. *)
Lemma accept_mid q0 c x s :
  mid q0 s → dispatch c (sh_session s) = (Some (Ok ()), x) →
  (∃ init, initial init ∧ sh_accepted s ++ [c] = expected_commands init s) →
  mid q0 (accept c x s).
Proof.
  intros [M1 [h Mh] M3 _ M5] (Hc & Hr & Hr' & Hq)%dispatch_inv (init & Hi & He).
  split; try done.
  - unfold queue_ok in *. cbn. rewrite Hr in M1. rewrite Hr', Hq, !app_assoc. by rewrite M1.
  - exists h. unfold sh_core. cbn. by rewrite Hc.
  - exists init. split; [done|]. cbn. by rewrite He.
Qed.

Lemma core_subscribe_step (c : SessionCore (C := C)) h :
  core_ok c h →
  let '(i, c') := core_subscribe c in
  core_ok c' (<[i := ([], [])]> h)
  ∧ ∃ st, streams (fanout c') !! i = Some st ∧ rx_alive (rx st) = true.
Proof.
  intros Hc. pose proof (core_ok_step c h OpSubscribe Hc) as Hs. cbn [core_step hist_step] in Hs.
  unfold core_subscribe, Channels.subscribe in *.
  destruct (closed (fanout c)); (split; [exact Hs|]); cbn; rewrite lookup_insert_eq;
    (eexists; split; [done|]); cbn.
  - destruct (drop_tx_spec (channel 1 : C (list byte))) as (_ & _ & -> & _). by apply channel_spec.
  - apply channel_spec. lia.
Qed.

Lemma start_reader_inv winch size : reader_inv size (TerminalReader_start (C := C) winch size).
Proof. apply (reader_inv_run winch size []). Qed.

Lemma start_pump_io q0 winch s :
  mid q0 s → sh_reader s = None → sh_stdout s = [] →
  (∃ init, initial init ∧ sh_accepted s = init) → io_inv q0 (start_pump winch s).
Proof.
  intros [M1 [h Mh] M3 M4 M5] Hr Hst (init & Hi & Ha). unfold start_pump.
  pose proof (core_subscribe_step _ _ Mh) as Hs. destruct (core_subscribe (sh_core s)) as [i c].
  destruct Hs as (Hc & st & Hst' & Hal).
  split; [split|..]; try done.
  - by exists (<[i := ([], [])]> h).
  - exists init. split; [done|]. unfold expected_commands. cbn. by rewrite Ha, app_nil_r.
  - intros j [= <-]. exists (<[i := ([], [])]> h), st. split_and!; try done.
    cbn. by rewrite lookup_insert_eq.
  - intros _. exists init. split; [done|]. by rewrite Ha.
  - cbn. split; [by eexists|]. eexists _, _. split; [done|]. apply start_reader_inv.
Qed.

Lemma pump_send_io q0 fault c s :
  mid q0 s → sub_ok s → is_Some (sh_output s) → sh_stdout s = concat (sh_shown s) →
  (∃ rd size, sh_reader s = Some rd ∧ reader_inv size rd) →
  (∃ init, initial init ∧ sh_accepted s ++ [c] = expected_commands init s) →
  io_inv q0 (pump_send fault c s).
Proof.
  intros Hm Hsub Ho Hst Hrd He. unfold pump_send.
  destruct (dispatch c _) as [[[[]|e]|] x] eqn:Ed.
  - assert (Ha := accept_mid _ _ _ _ Hm Ed He). apply dispatch_inv in Ed as (Hc & _).
    split; [by destruct Ha|done| |..|by split].
    + intros i Hi. destruct (Hsub i Hi) as (h & st & Hh). exists h, st.
      unfold sh_core in *. cbn. by rewrite Hc.
    + intros _. destruct He as (init & Hi & He). exists init. split; [done|].
      cbn. by rewrite app_nil_r, He.
  - eapply finish_over; [done| |done]. by rewrite firstn_all.
  - split; [by destruct Hm|done|done| |by split].
    intros _. destruct He as (init & Hi & He). by exists init.
Qed.

(** *** One turn of the loop *)

Lemma known_prefix c h i g o st :
  core_ok c h → h !! i = Some (g, o) → streams (fanout c) !! i = Some st →
  rx_alive (rx st) = true → g `prefix_of` o.
Proof.
  intros [Hf _] Hh Hs Ha. pose proof (inv_streams _ _ Hf i st g o Hs Hh Ha) as Hok.
  destruct (attached _ i); [destruct Hok as (-> & _)|destruct Hok as (_ & lost & -> & _)];
    by apply prefix_app_r.
Qed.

Lemma recv_sub c h i g o st :
  core_ok c h → h !! i = Some (g, o) → streams (fanout c) !! i = Some st →
  rx_alive (rx st) = true →
  let '(r, f) := Channels.recv i (fanout c) in
  ∃ h' st', core_ok (set_fanout c f) h'
    ∧ h' !! i = Some (match r with Item x => g ++ [x] | _ => g end, o)
    ∧ streams f !! i = Some st' ∧ rx_alive (rx st') = true.
Proof.
  intros [Hf Hc] Hh Hs Ha. pose proof (fan_inv_recv i (fanout c) h Hf) as Hr.
  unfold Channels.recv in *. rewrite Hs in *.
  destruct (poll_recv (rx st)) as [r q] eqn:Eq. apply poll_recv_inv in Eq.
  eexists _, _. split; [split; [exact Hr|done]|]. cbn. rewrite lookup_insert_eq.
  split; [|split; [done|]].
  - destruct r; try done. by rewrite lookup_alter_eq, Hh.
  - cbn. destruct r; [|by destruct Eq as (_ & _ & ->)..]. by destruct Eq as (_ & _ & -> & _).
Qed.

Lemma pump_turn_io q0 write fault s :
  io_inv q0 s → sh_phase s = Select → io_inv q0 (pump_turn write fault s).
Proof.
  intros [Hm Ho Hsub Hac Hrd] Hp. rewrite Hp in Hac, Hrd. unfold out_ok in Ho. rewrite Hp in Ho.
  cbn in Hrd, Hac. destruct Hrd as ([i Hi] & rd & size & Hrd & Hinv). unfold pump_turn. rewrite Hi, Hrd.
  destruct (Hac eq_refl) as (init & Hinit & Hcmd). rewrite app_nil_r in Hcmd.
  destruct (Hsub i Hi) as (h & st & Hh & Hg & Hst & Hal).
  pose proof (recv_sub _ _ _ _ _ _ Hh Hg Hst Hal) as Hr.
  destruct (Channels.recv i _) as [r f]. destruct Hr as (h' & st' & Hh' & Hg' & Hst' & Hal').
  pose proof (known_prefix _ _ _ _ _ _ Hh' Hg' Hst' Hal') as Hpre.
  set (s1 := update_core s (set_fanout (sh_core s) f)). cbv zeta.
  assert (Hm1 : mid q0 s1) by (destruct Hm; split; try done; by exists h').
  destruct r as [chunk| |].
  - assert (Hm2 : ∀ out, mid q0 (set_hist (set_out s1 out (sh_printed s1) (sh_calls s1))
      (sh_shown s1 ++ [chunk]) (sh_emitted s1) (sh_accepted s1) (sh_taken s1)))
      by (intros out; by destruct Hm1).
    destruct write as [[k e]|]; cbn [write_output].
    + eapply (finish_over _ _ _ _ (length (concat (sh_shown s)) + k)); [apply Hm2| |done].
      cbn. rewrite Ho, concat_app. cbn. rewrite app_nil_r.
      rewrite take_app_ge by lia. f_equal. f_equal. lia.
    + split; [apply Hm2|..].
      * unfold out_ok. cbn. rewrite Hp, Ho, concat_app. cbn. by rewrite app_nil_r.
      * intros j Hj. cbn in Hj. rewrite Hi in Hj. injection Hj as <-. by exists h', st'.
      * intros _. exists init. cbn. rewrite Hp. cbn. by rewrite app_nil_r.
      * cbn. rewrite Hp. cbn. split; [by eexists|]. by exists rd, size.
  - eapply finish_over; [exact Hm1|by rewrite firstn_all|by rewrite firstn_all].
  - destruct (next_event rd) as [e rd'] eqn:En.
    assert (Hinv' : reader_inv size rd').
    { pose proof (next_event_inv size rd Hinv). by rewrite En in *. }
    assert (Hgot : tr_got rd' = match e with Item x => tr_got rd ++ [x] | _ => tr_got rd end).
    { revert En. unfold next_event. destruct (poll_recv _). by intros [= <- <-]. }
    set (s2 := set_pump s1 (Some rd') (Some i)).
    assert (Hexp : expected_commands init s2 = expected_commands init s1
                     ++ match e with Item x => option_list (event_command x) | _ => [] end).
    { unfold expected_commands, got. cbn. rewrite Hrd, Hgot. cbn. destruct e as [x| |];
        rewrite ?app_nil_r; try done. rewrite omap_app, app_assoc. cbn. by destruct (event_command x). }
    assert (Hm2 : mid q0 s2).
    { destruct Hm1 as [M1 M2 M3 M4 M5]. split; try done; [|by apply (reader_prefix size)].
      exists init. split; [done|]. change (sh_accepted s2) with (sh_accepted s).
      rewrite Hcmd, Hexp. by apply prefix_app_r. }
    assert (Hfin : ∀ r, io_inv q0 (finish fault r s2)).
    { intros r. eapply finish_over; [exact Hm2|by rewrite firstn_all|by rewrite firstn_all]. }
    assert (Hsub2 : sub_ok s2) by (intros j [= <-]; by exists h', st').
    assert (Hsend : ∀ c ev, e = Item ev → event_command ev = Some c →
      io_inv q0 (pump_send fault c s2)).
    { intros c ev -> Hev. apply pump_send_io; [done|done|by eexists|exact Ho|by exists rd', size|].
      exists init. split; [done|]. rewrite Hexp, Hev.
      change (sh_accepted s2) with (sh_accepted s). by rewrite Hcmd. }
    destruct e as [[bytes|z|]| |]; try apply Hfin; [by eapply Hsend|..].
    + destruct (size_command z) as [c|err] eqn:Ez; [|apply Hfin].
      eapply Hsend; [done|]. cbn. by rewrite Ez.
    + destruct (closed_resolves _); [apply Hfin|].
      split; [exact Hm2|unfold out_ok; cbn; by rewrite Hp|done|..]; cbn; rewrite Hp; cbn.
      * intros _. exists init. split; [done|]. rewrite app_nil_r, Hexp, app_nil_r. exact Hcmd.
      * split; [by eexists|]. by exists rd', size.
Qed.

(** *** The way to the loop *)

Lemma size_sent_io q0 winch p s :
  mid q0 s → sh_reader s = None → sh_output s = None → sh_shown s = [] → sh_stdout s = [] →
  sh_accepted s = [] → io_inv q0 (size_sent winch (Control Pt_Size p) s).
Proof.
  intros Hm Hr Ho Hsh Hst Hac. unfold size_sent.
  assert (He : ∃ init, initial init
    ∧ sh_accepted s ++ [Control Pt_Size p] = expected_commands init s).
  { exists [Control Pt_Size p]. split; [right; by eexists|].
    unfold expected_commands, got. by rewrite Hac, Hr. }
  destruct (dispatch _ _) as [[[[]|e]|] x] eqn:Ed.
  - apply (start_pump_io q0 winch (accept _ x s)); [by apply accept_mid|done|done|].
    exists [Control Pt_Size p]. split; [right; by eexists|]. cbn. by rewrite Hac.
  - apply leave_over; [done|done|]. by rewrite Hst, Hsh.
  - split; [by destruct Hm|done| |by intros _|done]. intros i Hi. cbn in Hi. congruence.
Qed.

Lemma ready_io q0 winch s :
  io_inv q0 s → sh_phase s = WaitReady → io_inv q0 (ready winch s).
Proof.
  intros [Hm Hout Hsub Hac Hrd] Hp. unfold out_ok in Hout. rewrite Hp in Hout, Hrd, Hac.
  cbn in Hrd. destruct Hout as (Hsh & Hst & Ha), Hrd as [Ho Hr]. specialize (Hr eq_refl).
  unfold ready. cbv zeta.
  set (s1 := match banner (sh_core s) with Some _ => _ | None => _ end).
  assert (Hs1 : mid q0 s1 ∧ sh_reader s1 = None ∧ sh_output s1 = None ∧ sh_shown s1 = []
    ∧ sh_stdout s1 = [] ∧ sh_accepted s1 = []).
  { subst s1. destruct (banner _); split_and!; try done. by destruct Hm. }
  clearbody s1. destruct Hs1 as (Hm1 & Hr1 & Ho1 & Hsh1 & Hst1 & Ha1).
  assert (Hset : ∀ t g b, mid q0 (set_term s1 t g b)) by (intros; by destruct Hm1).
  destruct (enter (sh_term s1)) as [[g|e] t].
  2: { apply leave_over; [done|done|]. cbn. by rewrite Hst1, Hsh1. }
  destruct (send_initial_size _).
  2: { apply start_pump_io; [done|done|done|]. exists []. split; [by left|done]. }
  destruct (size_command (current_size t)) as [c|e] eqn:Ec.
  2: { apply leave_over; [done|done|]. cbn. by rewrite Hst1, Hsh1. }
  assert (∃ p, c = Control Pt_Size p) as [p ->].
  { revert Ec. unfold size_command. destruct (to_vec _); [|done]. intros [= <-]. by eexists. }
  by apply size_sent_io.
Qed.

(** *** The environment *)

Lemma core_step_stream c h o i st :
  core_ok c h → streams (fanout c) !! i = Some st → rx_alive (rx st) = true →
  ∃ st', streams (fanout (core_step c o)) !! i = Some st' ∧ rx_alive (rx st') = true.
Proof.
  intros [Hf _] Hs Ha. destruct o as [r|b|d| |k|v|b|[code|]]; cbn [core_step]; eauto.
  - unfold core_close. destruct (core_closed c); [by eauto|]. cbn. unfold Channels.close.
    destruct (closed _); [by eauto|]. cbn. rewrite hang_up_lookup, Hs by apply Hf.
    destruct (decide _); [|by eauto]. eexists. split; [done|]. cbn.
    by destruct (drop_tx_spec (rx st)) as (_ & _ & -> & _).
  - cbn. unfold Channels.send.
    pose proof (retain_spec d (subscribers (fanout c)) (streams (fanout c)) (inv_nodup _ _ Hf)) as Hr.
    destruct (retain _ _ _) as [kept st1]. destruct Hr as [_ Hr].
    { apply Forall_forall. apply (inv_known _ _ Hf). }
    cbn. rewrite Hr, Hs. destruct (decide _); [|by eauto]. eexists. split; [done|]. cbn.
    pose proof (offer_alive d st Ha) as Ho. destruct (offer d st). by destruct Ho.
  - rewrite core_subscribe_fanout. cbn. unfold Channels.subscribe.
    assert (i ≠ next_stream (fanout c)) by (intros ->; pose proof (inv_fresh _ _ Hf _ (mk_is_Some _ _ Hs)); lia).
    destruct (closed _); cbn; rewrite lookup_insert_ne by done; eauto.
Qed.

Definition emitted_after (s : Sh) (o : core_op) : list (list byte) :=
  match o with
  | OpEmit d => if core_closed (sh_core s) then sh_emitted s else sh_emitted s ++ [d]
  | _ => sh_emitted s
  end.

Lemma core_step_sub s h o i :
  core_ok (sh_core s) h → is_Some (streams (fanout (sh_core s)) !! i) →
  h !! i = Some (sh_shown s, sh_emitted s) →
  hist_step (sh_core s) o h !! i = Some (sh_shown s, emitted_after s o).
Proof.
  intros [Hf Hc] Hs Hh. destruct o as [r|b|d| |k|v|b|code]; cbn; try done.
  - destruct (core_closed _); [done|]. by rewrite lookup_fmap, Hh.
  - rewrite lookup_insert_ne; [done|]. intros <-. pose proof (inv_fresh _ _ Hf _ Hs). lia.
Qed.

Lemma env_core_io q0 s o : io_inv q0 s → io_inv q0 (shell_step s (EnvCore o)).
Proof.
  intros [[M1 [h0 M2] M3 M4 M5] Hout Hsub Hac Hrd].
  change (shell_step s (EnvCore o)) with (set_hist (update_core s (core_step (sh_core s) o))
    (sh_shown s) (emitted_after s o) (sh_accepted s) (sh_taken s)).
  split; [split|..]; try done.
  - eexists. by apply core_ok_step.
  - cbn. destruct o; try done. cbn. destruct (core_closed _); [done|by apply prefix_app_r].
  - intros i Hi. destruct (Hsub i Hi) as (h & st & Hh & Hg & Hst & Hal).
    destruct (core_step_stream _ _ o _ _ Hh Hst Hal) as (st' & Hst' & Hal').
    exists (hist_step (sh_core s) o h), st'. split_and!; try done; [by apply core_ok_step|].
    apply core_step_sub; [done|by eexists|done].
Qed.

(** The producers only add to what was read; the consumer's history is its own. *)
Lemma producer_hist (f : TerminalReader (C := C) → TerminalReader (C := C)) q0 s :
  (∀ t, tr_got (f t) = tr_got t ∧ tr_read t `prefix_of` tr_read (f t)) →
  (∀ size t, reader_inv size t → reader_inv size (f t)) →
  io_inv q0 s → io_inv q0 (set_pump s (f <$> sh_reader s) (sh_output s)).
Proof.
  intros Hf Hinv [[M1 M2 M3 M4 M5] Hout Hsub Hac Hrd].
  assert (Hgot : got (set_pump s (f <$> sh_reader s) (sh_output s)) = got s).
  { unfold got. cbn. destruct (sh_reader s) as [t|]; [|done]. cbn. apply Hf. }
  split; [split|..]; try done; unfold expected_commands in *; rewrite ?Hgot; try done.
  - etrans; [exact M5|]. unfold typed. cbn. destruct (sh_reader s) as [t|]; [|done]. cbn. apply Hf.
  - cbn. destruct (pumping _).
    + destruct Hrd as (Ho & rd & size & -> & Hi). split; [done|]. exists (f rd), size. auto.
    + destruct Hrd as [Ho Hn]. split; [done|]. intros Ha. by rewrite (Hn Ha).
Qed.

Lemma stdin_hist r (t : TerminalReader (C := C)) :
  tr_got (stdin_step r t) = tr_got t ∧ tr_read t `prefix_of` tr_read (stdin_step r t).
Proof.
  unfold stdin_step. destruct (tr_stdin t) as [| |e b|]; try done.
  - destruct r as [[|x l]|[]]; try done. split; [done|]. cbn. by apply prefix_app_r.
  - by destruct (try_send _ _) as [[] q].
Qed.

Lemma watch_hist sig size (t : TerminalReader (C := C)) :
  tr_got (watch_step sig size t) = tr_got t ∧ tr_read t `prefix_of` tr_read (watch_step sig size t).
Proof.
  unfold watch_step. destruct (tr_watch t); try done.
  - destruct sig; [|done]. cbn. by case_decide.
  - by destruct (try_send _ _) as [[] q].
Qed.

Lemma env_queue_io q0 s q taken :
  io_inv q0 s →
  queue_ok q0 (set_hist (set_commands s q) (sh_shown s) (sh_emitted s) (sh_accepted s) taken) →
  io_inv q0 (set_hist (set_commands s q) (sh_shown s) (sh_emitted s) (sh_accepted s) taken).
Proof. intros [[M1 M2 M3 M4 M5] Hout Hsub Hac Hrd] Hq. by split; [split|..]. Qed.

Lemma active_stdout q0 s :
  io_inv q0 s → active (sh_phase s) = true → sh_stdout s = concat (sh_shown s).
Proof.
  intros [_ Hout _ _ _] Ha. unfold out_ok in Hout.
  destruct (sh_phase s); try done; by destruct Hout as (-> & -> & _).
Qed.

Lemma io_poll q0 s e : io_inv q0 s → io_inv q0 (poll e s).
Proof.
  intros Hi. pose proof (active_stdout q0 s Hi) as Hst. unfold poll.
  destruct (sh_phase s) as [|c| |c|r|] eqn:Ep; try done.
  - destruct (wait_ready _ _) as [[[]|err]|]; [by apply ready_io| |done].
    apply leave_over; [done|apply Hi|auto].
  - destruct Hi as [Hm Hout _ Hac Hrd]. unfold out_ok in Hout. rewrite Ep in Hout, Hac, Hrd.
    cbn in Hrd, Hac. destruct Hout as (Hsh & Ho & Ha), Hrd as [Hn Hr].
    destruct (Hac eq_refl) as (init & Hi & He). specialize (Hr eq_refl).
    unfold expected_commands, got in He. rewrite Ha, Hr in He. cbn in He. rewrite app_nil_r in He.
    destruct Hi as [->|[p ->]]; [done|]. injection He as ->. by apply size_sent_io.
  - by apply pump_turn_io.
  - destruct Hi as [Hm _ Hsub Hac Hrd]. rewrite Ep in Hac, Hrd. destruct Hrd as [Ho Hrd].
    apply pump_send_io; auto.
Qed.

Lemma io_step q0 s o : io_inv q0 s → io_inv q0 (shell_step s o).
Proof.
  intros Hi. destruct o as [e| |o| | |r|sig size]; cbn [shell_step].
  - by apply io_poll.
  - destruct (active _) eqn:Ea; [|done].
    apply leave_over; [done|apply Hi|by eapply active_stdout].
  - by apply env_core_io.
  - destruct (rx_alive _) eqn:Er; [|done]. destruct (poll_recv _) as [r q] eqn:Eq.
    apply env_queue_io; [done|]. pose proof (mi_queue _ _ (io_mid _ _ Hi)) as Hq.
    unfold queue_ok in *. cbn. rewrite Er in Hq. apply poll_recv_inv in Eq.
    destruct r as [c| |]; [|by destruct Eq as (_ & _ & ->); rewrite Er..].
    destruct Eq as (Hqq & _ & -> & _). rewrite Er, <- app_assoc, <- Hq, Hqq. done.
  - apply (env_queue_io q0 s _ (sh_taken s)); [done|].
    pose proof (mi_queue _ _ (io_mid _ _ Hi)) as Hq. unfold queue_ok in *. cbn.
    destruct (drop_rx_spec (commands (sh_session s))) as [-> _].
    destruct (rx_alive _); [|done]. rewrite <- Hq. by apply prefix_app_r.
  - apply producer_hist; auto using stdin_hist, stdin_step_inv.
  - apply producer_hist; auto using watch_hist, watch_step_inv.
Qed.

Lemma io_start cfg owned x t h :
  core_ok (core x) h → rx_alive (commands x) = true →
  io_inv (queued (commands x)) (shell_start cfg owned x t).
Proof.
  intros Hc Ha. unfold shell_start. set (s := Build_Shell _ _ _ _ _ _ _ _ _ _ _ _ _ _ _ _).
  assert (Hm : mid (queued (commands x)) s).
  { split; try done; [|by exists h|by exists []; split; [left|]].
    unfold queue_ok. cbn. by rewrite Ha, app_nil_r. }
  assert (Hi : io_inv (queued (commands x)) s).
  { split; [done|done|done| |done]. intros _. exists []. by split; [left|]. }
  destruct (show_banner cfg); [|done]. destruct Hi as [[] ? ? ? ?]. by split; [split|..].
Qed.

Lemma io_run cfg owned x t h os :
  core_ok (core x) h → rx_alive (commands x) = true →
  io_inv (queued (commands x)) (shell_run (shell_start cfg owned x t) os).
Proof.
  intros Hc Ha. unfold shell_run. induction os as [|o os IH] using rev_ind.
  - by eapply io_start.
  - rewrite foldl_snoc. by apply io_step.
Qed.

(** The bytes among these commands. *)
Definition data_of (cs : list Command) : list (list byte) :=
  omap (λ c, match c with Data b => Some b | _ => None end) cs.

Lemma data_expected init es :
  initial init → data_of (init ++ omap event_command es) = inputs es.
Proof.
  intros Hi. unfold data_of. rewrite omap_app.
  assert (omap (λ c, match c with Data b => Some b | _ => None end) init = []) as ->
    by (by destruct Hi as [->|[p ->]]).
  cbn [app]. induction es as [|[b|z|] es IH]; cbn; [done|by f_equal| |done].
  unfold size_command. destruct (to_vec z); cbn; done.
Qed.

(** C15: the shell is transparent.  However the shell, the session and the terminal
    interleave, and whatever fails: the chunks taken from the session are a prefix
    of what it put out since the shell subscribed, and what was written to stdout
    is those chunks, concatenated and unchanged, with a carriage return and line
    feed after them once the shell is over (only a failing device can cut them
    short, and then the shell does not report success); the commands the session
    accepted are the initial size, if any, and then, in order, one per terminal
    event, so that the bytes sent are a prefix of the chunks typed; and the
    session's command task receives them in that order after what was queued
    before. *)
Theorem shell_transparent cfg owned x t h os :
  core_ok (core x) h → rx_alive (commands x) = true →
  let s := shell_run (shell_start (T := T) cfg owned x t) os in
  sh_shown s `prefix_of` sh_emitted s
  ∧ match sh_phase s with
    | Returned r => ∃ k e, sh_stdout s = take k (concat (sh_shown s)) ++ take e [x0d; x0a]
        ∧ (is_ok r = true → take k (concat (sh_shown s)) = concat (sh_shown s))
    | _ => sh_stdout s = concat (sh_shown s)
    end
  ∧ data_of (sh_accepted s) `prefix_of` typed s
  ∧ (∃ init, initial init
       ∧ sh_accepted s `prefix_of` init ++ omap event_command (got s))
  ∧ sh_taken s `prefix_of` queued (commands x) ++ sh_accepted s.
Proof.
  intros Hc Ha s. pose proof (io_run cfg owned x t h os Hc Ha) as Hi. fold s in Hi. clearbody s.
  pose proof (active_stdout _ _ Hi) as Hst. destruct Hi as [[M1 _ M3 M4 M5] Hout _ _ _].
  split_and!; [done| | |exact M4|].
  - unfold out_ok in Hout. destruct (sh_phase s); auto.
  - destruct M4 as (init & Hi & [l Hl]). etrans; [|exact M5].
    rewrite <- (data_expected init (got s) Hi). unfold expected_commands in Hl. rewrite Hl.
    unfold data_of. rewrite omap_app. by apply prefix_app_r.
  - revert M1. unfold queue_ok. cbv zeta. destruct (rx_alive (commands (sh_session s)));
      [intros <-; by apply prefix_app_r|done].
Qed.

(** ** The shell ends with its session *)

Definition queue_len (s : Sh) : nat :=
  match sh_output s with
  | Some i => from_option (λ st, length (queued (rx st))) 0%nat (streams (fanout (sh_core s)) !! i)
  | None => 0
  end.

(** How many polls are left once the session is closed. *)
Definition budget (s : Sh) : nat :=
  match sh_phase s with
  | WaitReady => 2
  | SendSize _ | Sending _ => 1
  | Select => 1 + queue_len s
  | Returned _ | Dropped => 0
  end.

Lemma leave_closed p s :
  core_closed (sh_core s) = true → active p = false →
  core_closed (sh_core (leave p s)) = true ∧ budget (leave p s) = 0%nat.
Proof.
  intros Hc Hp. split; [|by destruct p].
  assert (H1' : core_closed (sh_core (drop_pump s)) = true).
  { unfold drop_pump. by destruct (sh_output s). }
  destruct (drop_raw_io (drop_pump s)) as [_ Hs].
  unfold leave, release, sh_core. cbn. destruct (sh_owned _); cbn; rewrite Hs; [|done].
  unfold core_close. fold (sh_core (drop_pump s)). by rewrite H1', H1'.
Qed.

Lemma finish_closed fault r s :
  core_closed (sh_core (finish fault r s)) = true ∧ budget (finish fault r s) = 0%nat.
Proof.
  unfold finish. cbv zeta. set (s3 := drop_raw _).
  destruct (terminate_shape (sh_session s3)) as [calls ->].
  assert (Hc : core_closed (core_close Terminated (core (sh_session s3))) = true).
  { unfold core_close. by destruct (core_closed (core (sh_session s3))) eqn:E. }
  apply leave_closed; [|done].
  destruct (show_banner _); [|done]. by destruct (close_reason _) as [[]|].
Qed.

Lemma dispatch_closed c (x : Session (C := C)) :
  core_closed (core x) = true → dispatch c x = (Some (Err (closed_error x)), x).
Proof. intros Hc. unfold dispatch. by rewrite Hc. Qed.

Lemma ready_closed winch s :
  core_closed (sh_core s) = true →
  core_closed (sh_core (ready winch s)) = true ∧ (budget (ready winch s) ≤ 1)%nat.
Proof.
  intros Hc. unfold ready. cbv zeta.
  set (s1 := match banner (sh_core s) with Some _ => _ | None => _ end).
  assert (Hc1 : core_closed (sh_core s1) = true) by (unfold s1; by destruct (banner _)).
  clearbody s1. clear Hc s.
  assert (Hleave : ∀ e s, core_closed (sh_core s) = true →
    core_closed (sh_core (leave (Returned (Err e)) s)) = true
    ∧ (budget (leave (Returned (Err e)) s) ≤ 1)%nat).
  { intros e s Hc. destruct (leave_closed (Returned (Err e)) s Hc eq_refl) as [? ->]. by split; [|lia]. }
  destruct (enter (sh_term s1)) as [[g|e] t]; [|by apply Hleave].
  set (s2 := set_term _ _ _ _). assert (Hc2 : core_closed (sh_core s2) = true) by done.
  clearbody s2. destruct (send_initial_size _).
  - destruct (size_command _) as [c|e]; [|by apply Hleave].
    unfold size_sent. rewrite dispatch_closed by done. by apply Hleave.
  - unfold start_pump, core_subscribe, Channels.subscribe.
    destruct (closed _); (split; [done|]); unfold budget, queue_len; cbn; rewrite lookup_insert_eq;
      cbn.
    + destruct (drop_tx_spec (channel 1 : C (list byte))) as (-> & _).
      destruct (channel_spec (C := C) (A := list byte) 1) as (-> & _); [done|]. done.
    + match goal with |- context [channel ?n] =>
        destruct (channel_spec (C := C) (A := list byte) n) as (-> & _); [lia|done] end.
Qed.

(** A closed session's subscription yields what is queued and then ends. *)
Lemma recv_closed c h i g o st :
  core_ok c h → h !! i = Some (g, o) → streams (fanout c) !! i = Some st →
  rx_alive (rx st) = true → core_closed c = true →
  let '(r, f) := Channels.recv i (fanout c) in
  match r with
  | Item x => ∃ st', streams f !! i = Some st' ∧ queued (rx st) = x :: queued (rx st')
  | Ended => True
  | Pending_ => False
  end.
Proof.
  intros [Hf Hc] Hh Hs Ha Hcl. rewrite Hcl in Hc.
  pose proof (inv_streams _ _ Hf i st g o Hs Hh Ha) as Hok.
  unfold attached in Hok. rewrite (inv_closed _ _ Hf Hc), bool_decide_false in Hok
    by apply not_elem_of_nil. destruct Hok as [Ht _].
  unfold Channels.recv. rewrite Hs. destruct (poll_recv (rx st)) as [r q] eqn:Eq.
  apply poll_recv_inv in Eq. destruct r; [|done|].
  - destruct Eq as (-> & _). eexists. cbn. rewrite lookup_insert_eq. by split.
  - destruct Eq as (_ & Eq & _). congruence.
Qed.

Lemma pump_turn_closed q0 write fault s :
  io_inv q0 s → sh_phase s = Select → core_closed (sh_core s) = true →
  core_closed (sh_core (pump_turn write fault s)) = true
  ∧ (budget (pump_turn write fault s) < budget s)%nat.
Proof.
  intros [_ _ Hsub _ Hrd] Hp Hc. rewrite Hp in Hrd. destruct Hrd as ([i Hi] & rd & size & Hrd & _).
  destruct (Hsub i Hi) as (h & st & Hh & Hg & Hst & Hal).
  pose proof (recv_closed _ _ _ _ _ _ Hh Hg Hst Hal Hc) as Hr.
  assert (Hb : budget s = S (length (queued (rx st)))).
  { unfold budget, queue_len. by rewrite Hp, Hi, Hst. }
  assert (Hfin : ∀ r s', core_closed (sh_core (finish fault r s')) = true
    ∧ (budget (finish fault r s') < budget s)%nat).
  { intros r s'. destruct (finish_closed fault r s') as [? ->]. rewrite Hb. by split; [|lia]. }
  unfold pump_turn. rewrite Hi, Hrd. destruct (Channels.recv i _) as [r f]. cbv zeta.
  destruct r as [chunk| |]; [|apply Hfin|done]. destruct Hr as (st' & Hst' & Hq).
  destruct (write_output _ _ _) as [[[]|e] out]; [|apply Hfin]. split; [done|].
  rewrite Hb. unfold budget, queue_len. cbn. rewrite Hp, Hi, Hst', Hq. cbn. lia.
Qed.

(** The environment adds nothing to the subscription of a closed session. *)
Lemma core_step_closed c h o i st :
  core_ok c h → streams (fanout c) !! i = Some st → core_closed c = true →
  core_closed (core_step c o) = true ∧ streams (fanout (core_step c o)) !! i = Some st.
Proof.
  intros [Hf Hc] Hs Hcl. rewrite Hcl in Hc. split; [by apply core_step_mono|].
  destruct o as [r|b|d| |k|v|b|[code|]]; cbn [core_step]; try done.
  - unfold core_close. by rewrite Hcl.
  - cbn. unfold Channels.send. by rewrite (inv_closed _ _ Hf Hc).
  - rewrite core_subscribe_fanout. cbn. unfold Channels.subscribe. rewrite Hc. cbn.
    rewrite lookup_insert_ne; [done|]. intros <-.
    pose proof (inv_fresh _ _ Hf _ (mk_is_Some _ _ Hs)). lia.
Qed.

Definition is_poll (o : shell_op) : bool := match o with Poll _ => true | _ => false end.

Lemma closed_step q0 s o :
  io_inv q0 s → core_closed (sh_core s) = true →
  core_closed (sh_core (shell_step s o)) = true
  ∧ (budget (shell_step s o) + (if is_poll o then 1 else 0) ≤ Nat.max (budget s) (if is_poll o then 1 else 0))%nat.
Proof.
  intros Hi Hc. destruct o as [e| |o| | |r|sig size]; cbn [shell_step is_poll].
  - unfold poll. destruct (sh_phase s) as [|c| |c|r|] eqn:Ep.
    + assert (Hb : budget s = 2%nat) by (unfold budget; by rewrite Ep). rewrite Hb.
      unfold wait_ready, wait_sendable, closed_resolves, sh_core in *. rewrite Hc, orb_true_r.
      destruct (sendable _).
      * destruct (ready_closed (pe_winch e) s Hc). split; [done|lia].
      * destruct (leave_closed (Returned (Err (closed_error (sh_session s)))) s Hc eq_refl)
          as [? ->]. by split; [|lia].
    + assert (Hb : budget s = 1%nat) by (unfold budget; by rewrite Ep). rewrite Hb.
      unfold size_sent. rewrite dispatch_closed by done.
      destruct (leave_closed (Returned (Err (closed_error (sh_session s)))) s Hc eq_refl)
        as [? ->]. by split; [|lia].
    + destruct (pump_turn_closed q0 (pe_write e) (pe_fault e) s Hi Ep Hc). split; [done|lia].
    + assert (Hb : budget s = 1%nat) by (unfold budget; by rewrite Ep). rewrite Hb.
      unfold pump_send. rewrite dispatch_closed by done.
      destruct (finish_closed (pe_fault e) (Err (closed_error (sh_session s))) s) as [? ->].
      by split; [|lia].
    + split; [done|]. unfold budget. rewrite Ep. lia.
    + split; [done|]. unfold budget. rewrite Ep. lia.
  - destruct (active _); [|by split; [|lia]].
    destruct (leave_closed Dropped s Hc eq_refl) as [? ->]. by split; [|lia].
  - split; [by apply core_step_mono|]. unfold budget, queue_len. cbn [sh_phase sh_output set_hist
      update_core set_session]. destruct (sh_phase s) eqn:Ep; try lia.
    destruct (sh_output s) as [i|] eqn:Eo; [|lia].
    destruct (io_sub _ _ Hi i Eo) as (h & st & Hh & _ & Hst & _).
    destruct (core_step_closed _ _ o _ _ Hh Hst Hc) as [_ Hst'].
    match goal with |- context [sh_core (set_hist ?a ?b ?c ?d ?f)] =>
      change (sh_core (set_hist a b c d f)) with (core_step (sh_core s) o) end.
    rewrite Hst, Hst'. lia.
  - destruct (rx_alive _); [destruct (poll_recv _)|]; (split; [done|]);
      rewrite Nat.add_0_r; exact (Nat.le_max_l (budget s) 0).
  - split; [done|]. rewrite Nat.add_0_r; exact (Nat.le_max_l (budget s) 0).
  - split; [done|]. rewrite Nat.add_0_r; exact (Nat.le_max_l (budget s) 0).
  - split; [done|]. rewrite Nat.add_0_r; exact (Nat.le_max_l (budget s) 0).
Qed.

Definition polls (os : list shell_op) : nat := length (List.filter is_poll os).

Lemma closed_run q0 os : ∀ s,
  io_inv q0 s → core_closed (sh_core s) = true → (budget s ≤ polls os)%nat →
  budget (shell_run s os) = 0%nat.
Proof.
  unfold shell_run, polls. induction os as [|o os IH]; intros s Hi Hc Hb; cbn in *; [lia|].
  destruct (closed_step q0 s o Hi Hc) as [Hc' Hb']. apply IH; [by apply io_step|done|].
  destruct (is_poll o); cbn in *; lia.
Qed.

(** When the session ends the shell ends, whatever the terminal does.  From any
    point of any run at which the session is closed, the shell is over once it has
    been polled as often as [budget] says: one more time than there are chunks of
    output still queued for it (so that output that arrived before the end is still
    shown), twice if it had not begun.  Nobody has to type anything. *)
Theorem shell_ends cfg owned x t h os os' :
  core_ok (core x) h → rx_alive (commands x) = true →
  let s := shell_run (shell_start (T := T) cfg owned x t) os in
  core_closed (sh_core s) = true → (budget s ≤ polls os')%nat →
  active (sh_phase (shell_run s os')) = false.
Proof.
  intros Hc Ha s Hcl Hb. pose proof (io_run cfg owned x t h os Hc Ha) as Hi. fold s in Hi.
  pose proof (closed_run _ os' s Hi Hcl Hb) as H0'. revert H0'. unfold budget.
  by destruct (sh_phase (shell_run s os')).
Qed.

(** A shell that fails before its loop does not terminate the session.  When
    [attach] is given a session that never becomes ready, the caller gets the
    timeout, but the session is still open and no call released it; only a shell
    that reached its loop terminates it. *)
Theorem attach_timeout_leaves_open cfg x t e :
  wait_ready (pe_waited e) x = Some (Err (Error_Timeout (ready_timeout (config x)))) →
  core_closed (core x) = false →
  let s := shell_run (shell_start (T := T) cfg false x t) [Poll e] in
  sh_phase s = Returned (Err (Error_Timeout (ready_timeout (config x))))
  ∧ sh_session s = x ∧ sh_calls s = [].
Proof.
  intros Hw Hc s. subst s. unfold shell_run, shell_start. cbn [foldl shell_step].
  destruct (show_banner cfg); unfold poll; cbn; rewrite Hw; by cbn.
Qed.
End Verbatim.

(** ** Witnesses *)

Section InteractiveWitnesses.
#[local] Instance toy_size_serde : Serde TerminalSize :=
  {| to_vec s := Ok [byte_of (cols s); byte_of (rows s)]; from_slice _ := Err [] |}.

Definition toy_poll : PollEnv :=
  {| pe_waited := 0; pe_winch := true; pe_write := None; pe_fault := None |}.

(** The agent is ready, prints a prompt, the user types, the session ends. *)
Definition toy_shell_ops : list shell_op :=
  [EnvCore (OpSendable true); Poll toy_poll; EnvCore (OpEmit [x24]); Poll toy_poll;
   EnvStdin (ReadBytes []); EnvStdin (ReadBytes [x6c; x73]); EnvStdin (ReadBytes []);
   Poll toy_poll; EnvTake; EnvTake; EnvCore (OpEmit [x62]); EnvCore (OpClose (AgentClosed None None));
   Poll toy_poll].
Abbreviation toy_shell := (shell_start (T := bool) InteractiveConfig_default true toy_session false).

Lemma toy_core_ok : core_ok (core toy_session) ∅.
Proof. split; [apply fan_inv_new|done]. Qed.

Lemma terminal_restored_witness :
  let s := shell_run toy_shell (toy_shell_ops ++ [Poll toy_poll]) in
  raw (sh_term (shell_run toy_shell toy_shell_ops)) = true
  ∧ sh_guard s = None ∧ raw (sh_term s) = false.
Proof.
  cbv zeta. split; [vm_compute; reflexivity|].
  pose proof (terminal_restored InteractiveConfig_default true toy_session false
    (toy_shell_ops ++ [Poll toy_poll])) as [_ Hg]. split; [|vm_compute; reflexivity].
  apply Hg. vm_compute. reflexivity.
Defined.

Lemma shell_transparent_witness :
  let s := shell_run toy_shell toy_shell_ops in
  sh_stdout s = [x24; x62] ∧ sh_taken s = [Control Pt_Size [x78; x28]; Data [x6c; x73]]
  ∧ data_of (sh_accepted s) `prefix_of` typed s.
Proof.
  cbv zeta. split; [vm_compute; reflexivity|]. split; [vm_compute; reflexivity|].
  by apply (shell_transparent InteractiveConfig_default true toy_session false ∅ toy_shell_ops
    toy_core_ok).
Defined.

Lemma shell_ends_witness :
  let s := shell_run toy_shell toy_shell_ops in
  core_closed (sh_core s) = true ∧ budget s = 1%nat
  ∧ active (sh_phase (shell_run s [Poll toy_poll])) = false.
Proof.
  cbv zeta. split; [vm_compute; reflexivity|]. split; [vm_compute; reflexivity|].
  apply (shell_ends InteractiveConfig_default true toy_session false ∅ toy_shell_ops
    [Poll toy_poll] toy_core_ok); [reflexivity|vm_compute; reflexivity|].
  apply Nat.leb_le. vm_compute. reflexivity.
Defined.

Lemma attach_timeout_leaves_open_witness :
  let e := {| pe_waited := from_secs 30; pe_winch := true; pe_write := None; pe_fault := None |} in
  let s := shell_run (shell_start (T := bool) InteractiveConfig_default false toy_session false)
             [Poll e] in
  sh_session s = toy_session ∧ sh_calls s = [].
Proof.
  cbv zeta. edestruct (attach_timeout_leaves_open (T := bool) InteractiveConfig_default toy_session
    false {| pe_waited := from_secs 30; pe_winch := true; pe_write := None; pe_fault := None |})
    as (_ & Hs & Hc); [reflexivity|reflexivity|].
  split; [exact Hs|exact Hc].
Defined.
End InteractiveWitnesses.
