(* ===== verification/PortForward.v ===== *)
(** * Port forwarding (src/port_forward.rs)

    The forwarder accepts TCP connections and gives each its own task, a permit and
    a smux stream.  One state holds the accept loop, the multiplexer and the
    connections; [fw_step] interleaves the accept loop, the connection tasks, the
    multiplexer's own tasks and the environment (TCP peers, the agent, the session,
    the shutdown signal) freely.

    Libraries are classes: [Semaphore] ([tokio::sync::Semaphore]) and [CopyLoop]
    ([tokio::io::copy]: which reads and writes it asks for, with the bytes it holds
    in between).  The two halves of a split stream share it, so a connection has
    one [SmuxStream].  Flushing a TCP or a smux writer does nothing.

    This file is about who is accepted and when everything ends; a read of a stream is
    one step here.  [Forwarding] takes it apart and follows the bytes.  Nothing reads the
    counter [fw_refused]. *)

From S2P Require Import Prelude RustStd Errors Interfaces Documents Session Mux SmuxStreams.

#[local] Existing Instance Documents.SessionType_eq_dec.

Record PortForwardConfig := {
  local_addr : str * Z;              (* SocketAddr: the IP and the port *)
  max_connections : Z;               (* usize *)
  keepalive : bool }.

Definition PortForwardConfig_default : PortForwardConfig :=
  {| local_addr := (lit "127.0.0.1", 0); max_connections := 100; keepalive := false |}.

(** [bind]: the listener, and the address it got. *)
Record PortForwarder (L : Type) := {
  pf_config : PortForwardConfig; listener : L; bound_addr : str * Z }.
Arguments Build_PortForwarder {L} _ _ _.
Arguments bound_addr {L} _.

Definition bind {L : Type} (tcp_bind : str * Z → Result IoError L)
    (tcp_local_addr : L → Result IoError (str * Z)) (cfg : PortForwardConfig)
  : Res (PortForwarder L) :=
  listener ← map_err Error_Io (tcp_bind (local_addr cfg));
  local ← map_err Error_Io (tcp_local_addr listener);
  Ok (Build_PortForwarder cfg listener local).

(** ** Libraries *)

Definition MAX_PERMITS : Z := 2 ^ 61 - 1.   (* usize::MAX >> 3 *)

Class Semaphore (P : Type) := {
  sem_new : Z → Outcome P;
  available : P → Z;
  try_acquire : P → option P;
  sem_release : P → P }.

Class SemaphoreOk (P : Type) `{Semaphore P} : Prop := {
  sem_new_ok n : 0 ≤ n ≤ MAX_PERMITS → ∃ p, sem_new n = Done p ∧ available p = n;
  sem_new_panics n : MAX_PERMITS < n → sem_new n = Panicked;
  try_acquire_spec p :
    match try_acquire p with
    | Some p' => 0 < available p ∧ available p' = available p - 1
    | None => available p ≤ 0
    end;
  release_spec p : available (sem_release p) = available p + 1 }.

(** A copy in progress.  [held] is what it has read and not yet written, [at_eof]
    whether the reader has ended. *)
Class CopyLoop (K : Type) := {
  copy_new : K;
  copy_reads : K → option nat;       (* it asks to read at most this much *)
  copy_writes : K → list byte;       (* it asks to write these bytes *)
  copy_fed : list byte → K → K;      (* a read returned; nothing means the end *)
  copy_wrote : nat → K → K;          (* a write took this much *)
  copy_result : K → option Z;        (* it is finished *)
  held : K → list byte;
  at_eof : K → bool }.

Class CopyLoopOk (K : Type) `{CopyLoop K} : Prop := {
  copy_new_spec : held copy_new = [] ∧ at_eof copy_new = false;
  copy_reads_spec k n : copy_reads k = Some n → (0 < n)%nat ∧ at_eof k = false;
  copy_fed_spec k n bs : copy_reads k = Some n → (length bs ≤ n)%nat →
    held (copy_fed bs k) = held k ++ bs ∧ at_eof (copy_fed bs k) = bool_decide (bs = []);
  copy_writes_spec k : copy_writes k `prefix_of` held k;
  copy_wrote_spec k n : (n ≤ length (copy_writes k))%nat →
    held (copy_wrote n k) = drop n (held k) ∧ at_eof (copy_wrote n k) = at_eof k;
  copy_result_spec k n : copy_result k = Some n → held k = [] ∧ at_eof k = true }.

(** ** One connection *)

(** [pump]: copying, then half-closing the writer. *)
Inductive PumpState (K : Type) :=
| Copying (k : K)
| HalfClosing (copied : Z)
| PumpDone (r : Result IoError Z).
Arguments Copying {K} _.
Arguments HalfClosing {K} _.
Arguments PumpDone {K} _.

Section Forward.
Context {C : Type → Type} `{Mpsc C} {P : Type} `{Semaphore P} {K : Type} `{CopyLoop K}.

Record Conn := {
  cn_stream : SmuxStream;
  cn_outbound : PumpState K;
  cn_inbound : PumpState K }.

(** A connection's task: not yet polled, or pumping. *)
Inductive Task := Spawned | Pumping (c : Conn).

Definition set_stream (c : Conn) (s : SmuxStream) : Conn :=
  {| cn_stream := s; cn_outbound := cn_outbound c; cn_inbound := cn_inbound c |}.
Definition set_outbound (c : Conn) (p : PumpState K) : Conn :=
  {| cn_stream := cn_stream c; cn_outbound := p; cn_inbound := cn_inbound c |}.
Definition set_inbound (c : Conn) (p : PumpState K) : Conn :=
  {| cn_stream := cn_stream c; cn_outbound := cn_outbound c; cn_inbound := p |}.

Definition Conn_new (s : SmuxStream) : Conn :=
  {| cn_stream := s; cn_outbound := Copying copy_new; cn_inbound := Copying copy_new |}.

(** The moves of the two pumps; an argument is what the TCP peer answers. *)
Inductive conn_move :=
| OutRead (r : Result IoError (list byte))
| OutWrite
| OutShutdown
| InRead
| InWrite (r : Result IoError nat)
| InShutdown (r : Result IoError ()).

Definition io_error (k : ErrorKind) (t : text) : IoError := {| kind := k; io_text := t |}.

(** A TCP write took [taken]: [copy] fails with [WriteZero] when that is nothing. *)
Definition wrote_some (taken : list byte) (k : K) : PumpState K :=
  match taken with
  | [] => PumpDone (Err (io_error OtherKind [PLit "write zero byte into writer"]))
  | _ => Copying (copy_wrote (length taken) k)
  end.

(** The outbound pump, from the TCP peer to the stream. *)
Definition outbound_move (m : conn_move) (c : Conn) (i : Inner (C := C)) : Conn * Inner (C := C) :=
  match cn_outbound c, m with
  | Copying k, OutRead r =>
    match copy_reads k with
    | None => (c, i)
    | Some n =>
      (set_outbound c match r with
                      | Err e => PumpDone (Err e)
                      | Ok bytes => Copying (copy_fed (take n bytes) k)
                      end, i)
    end
  | Copying k, OutWrite =>
    match copy_writes k with
    | [] => (c, i)
    | bytes =>
      match poll_write bytes (cn_stream c) i with
      | (WritePending, i') => (c, i')
      | (BrokenPipeError t, i') => (set_outbound c (PumpDone (Err (io_error BrokenPipe t))), i')
      | (Wrote n, i') => (set_outbound c (Copying (copy_wrote (Z.to_nat n) k)), i')
      end
    end
  | Copying k, OutShutdown =>
    match copy_result k with
    | None => (c, i)
    | Some n => (set_outbound c (HalfClosing n), i)
    end
  | HalfClosing n, OutShutdown =>
    let '(ready, s, i') := poll_shutdown (cn_stream c) i in
    let c := set_stream c s in
    (if ready then set_outbound c (PumpDone (Ok n)) else c, i')
  | _, _ => (c, i)
  end.

(** The inbound pump, from the stream to the TCP peer. *)
Definition inbound_move (m : conn_move) (c : Conn) (i : Inner (C := C)) : Conn * Inner (C := C) :=
  match cn_inbound c, m with
  | Copying k, InRead =>
    match copy_reads k with
    | None => (c, i)
    | Some n =>
      let '(r, s, i') := poll_read n (cn_stream c) i in
      let c := set_stream c s in
      (match r with
       | ReadPending => c
       | ReadReady bytes => set_inbound c (Copying (copy_fed bytes k))
       end, i')
    end
  | Copying k, InWrite r =>
    match copy_writes k, r with
    | [], _ => (c, i)
    | _, Err e => (set_inbound c (PumpDone (Err e)), i)
    | bytes, Ok n => (set_inbound c (wrote_some (take n bytes) k), i)
    end
  | Copying k, InShutdown _ =>
    match copy_result k with
    | None => (c, i)
    | Some n => (set_inbound c (HalfClosing n), i)
    end
  | HalfClosing n, InShutdown r =>
    (set_inbound c (PumpDone (match r with Ok _ => Ok n | Err e => Err e end)), i)
  | _, _ => (c, i)
  end.

Definition conn_step (m : conn_move) (c : Conn) (i : Inner (C := C)) : Conn * Inner (C := C) :=
  match m with
  | OutRead _ | OutWrite | OutShutdown => outbound_move m c i
  | InRead | InWrite _ | InShutdown _ => inbound_move m c i
  end.

(** [tokio::join!] is ready when both pumps are; then [sent?; received?]. *)
Definition conn_result (c : Conn) : option (Res ()) :=
  match cn_outbound c, cn_inbound c with
  | PumpDone sent, PumpDone received =>
    Some match sent with
         | Err e => Err (Error_Io e)
         | Ok _ => match received with Err e => Err (Error_Io e) | Ok _ => Ok () end
         end
  | _, _ => None
  end.

(** ** The forwarder *)

Inductive FwPhase := WaitingReady | Accepting | Finished (r : Res ()) | Crashed.

Record Forwarder := {
  fw_config : PortForwardConfig;
  fw_session : Session (C := C);
  fw_shutdown : bool;                (* the shutdown signal's latch *)
  fw_mux : option (Inner (C := C));
  fw_permits : option P;
  fw_tasks : gmap nat Task;
  fw_next : nat;
  fw_phase : FwPhase;
  fw_refused : nat }.                (* connections refused at the limit *)

Definition set_phase (f : Forwarder) (p : FwPhase) : Forwarder :=
  {| fw_config := fw_config f; fw_session := fw_session f; fw_shutdown := fw_shutdown f;
     fw_mux := fw_mux f; fw_permits := fw_permits f; fw_tasks := fw_tasks f;
     fw_next := fw_next f; fw_phase := p; fw_refused := fw_refused f |}.
Definition set_mux (f : Forwarder) (i : Inner (C := C)) (ts : gmap nat Task) : Forwarder :=
  {| fw_config := fw_config f; fw_session := fw_session f; fw_shutdown := fw_shutdown f;
     fw_mux := Some i; fw_permits := fw_permits f; fw_tasks := ts;
     fw_next := fw_next f; fw_phase := fw_phase f; fw_refused := fw_refused f |}.
Definition set_env (f : Forwarder) (x : Session (C := C)) (shut : bool) : Forwarder :=
  {| fw_config := fw_config f; fw_session := x; fw_shutdown := shut;
     fw_mux := fw_mux f; fw_permits := fw_permits f; fw_tasks := fw_tasks f;
     fw_next := fw_next f; fw_phase := fw_phase f; fw_refused := fw_refused f |}.
Definition set_permits (f : Forwarder) (p : P) (ts : gmap nat Task) (next refused : nat)
  : Forwarder :=
  {| fw_config := fw_config f; fw_session := fw_session f; fw_shutdown := fw_shutdown f;
     fw_mux := fw_mux f; fw_permits := Some p; fw_tasks := ts; fw_next := next;
     fw_phase := fw_phase f; fw_refused := refused |}.
(** The last holder of the multiplexer drops it: the accept loop holds it until it
    returns, each task until it ends. *)
Definition drop_mux (f : Forwarder) : Forwarder :=
  match fw_phase f, fw_mux f with
  | Finished _, Some i =>
    if decide (fw_tasks f = ∅) then set_mux f (drop_session i) ∅ else f
  | _, _ => f
  end.

Definition finish (r : Res ()) (f : Forwarder) : Forwarder := drop_mux (set_phase f (Finished r)).

(** [forward] up to its first await. *)
Definition forward (cfg : PortForwardConfig) (x : Session (C := C)) (shut : bool) : Forwarder :=
  let f := {| fw_config := cfg; fw_session := x; fw_shutdown := shut; fw_mux := None;
              fw_permits := None; fw_tasks := ∅; fw_next := 0; fw_phase := WaitingReady;
              fw_refused := 0 |} in
  if decide (config_session_type (config x) = Documents.Port) then f
  else finish (Err (Error_Config [PLit "PortForwarder needs a port-forwarding session. Start it with SessionBuilder::port_forward(port) or .document(PortForwardingToRemoteHost::new(host, port))."])) f.

(** What [listener.accept] yields. *)
Inductive Accept := NoConnection | Accepted | AcceptFailed (e : IoError).

Definition accept_one (f : Forwarder) : Forwarder :=
  match fw_permits f with
  | None => f
  | Some p =>
    match try_acquire p with
    | None => set_permits f p (fw_tasks f) (fw_next f) (S (fw_refused f))
    | Some p' => set_permits f p' (<[fw_next f := Spawned]> (fw_tasks f)) (S (fw_next f))
                   (fw_refused f)
    end
  end.

(** One poll of [forward]. *)
Definition forward_poll (waited : Duration) (a : Accept) (f : Forwarder) : Forwarder :=
  match fw_phase f with
  | WaitingReady =>
    if fw_shutdown f then finish (Ok ()) f
    else match wait_ready waited (fw_session f) with
         | None => f
         | Some (Err e) => finish (Err e) f
         | Some (Ok _) =>
           match sem_new (max_connections (fw_config f)) with
           | Panicked => set_phase f Crashed
           | Done p => set_phase (set_permits (set_mux f Inner_new ∅) p ∅ (fw_next f) 0) Accepting
           end
         end
  | Accepting =>
    if fw_shutdown f then finish (Ok ()) f
    else if closed_resolves (core (fw_session f)) then
      finish (Ok ()) (set_env f (fw_session f) true)
    else match a with
         | NoConnection => f
         | AcceptFailed e => finish (Err (Error_Io e)) f
         | Accepted => accept_one f
         end
  | Finished _ | Crashed => f
  end.

(** A task ends: its stream, its permit and its multiplexer handle are dropped. *)
Definition end_task (k : nat) (s : option SmuxStream) (f : Forwarder) : Forwarder :=
  match fw_mux f, fw_permits f with
  | Some i, Some p =>
    let i := match s with Some s => drop_stream s i | None => i end in
    let ts := delete k (fw_tasks f) in
    drop_mux (set_permits (set_mux f i ts) (sem_release p) ts (fw_next f) (fw_refused f))
  | _, _ => f
  end.

(** One poll of the task of connection [k]: [forward_connection]. *)
Definition task_poll (k : nat) (m : conn_move) (f : Forwarder) : Forwarder :=
  match fw_mux f, fw_tasks f !! k with
  | Some i, Some Spawned =>
    match open_stream i with
    | (Err _, i') => end_task k None (set_mux f i' (fw_tasks f))
    | (Ok s, i') =>
      let f' := set_mux f i' (<[k := Pumping (Conn_new s)]> (fw_tasks f)) in
      if fw_shutdown f then end_task k (Some s) f' else f'
    end
  | Some i, Some (Pumping c) =>
    if fw_shutdown f then end_task k (Some (cn_stream c)) f
    else
      let '(c', i') := conn_step m c i in
      let f' := set_mux f i' (<[k := Pumping c']> (fw_tasks f)) in
      match conn_result c' with
      | Some _ => end_task k (Some (cn_stream c')) f'
      | None => f'
      end
  | _, _ => f
  end.

(** *** The multiplexer's tasks and the environment *)

Inductive fw_op :=
| OpForward (waited : Duration) (a : Accept)
| OpTask (k : nat) (m : conn_move)
| OpFrame (fr : Frame)               (* the receive task routes a frame *)
| OpMuxMark                          (* a task of the multiplexer closes it: the flag *)
| OpMuxClear (r : StreamCloseReason) (* and then the table *)
| OpTake                             (* the send task takes a frame *)
| OpSendStops                        (* the send task drops the queue *)
| OpKeepalive
| OpShutdown
| OpCore (o : core_op).

Definition fw_step (f : Forwarder) (o : fw_op) : Forwarder :=
  match o, fw_mux f with
  | OpForward waited a, _ => forward_poll waited a f
  | OpTask k m, _ => task_poll k m f
  | OpFrame fr, Some i => set_mux f (route_frame fr i) (fw_tasks f)
  | OpMuxMark, Some i => set_mux f (mark_closed i) (fw_tasks f)
  | OpMuxClear r, Some i =>
    if is_closed i then set_mux f (clear r i) (fw_tasks f) else f
  | OpTake, Some i =>
    if rx_alive (frames i) then set_mux f (set_frames i (poll_recv (frames i)).2) (fw_tasks f) else f
  | OpSendStops, Some i => set_mux f (set_frames i (drop_rx (frames i))) (fw_tasks f)
  | OpKeepalive, Some i => set_mux f (keepalive_tick i).2 (fw_tasks f)
  | OpShutdown, _ => set_env f (fw_session f) true
  | OpCore o, _ =>
    set_env f (set_core (fw_session f) (core_step (core (fw_session f)) o)) (fw_shutdown f)
  | _, None => f
  end.

Definition fw_run (f : Forwarder) (os : list fw_op) : Forwarder := foldl fw_step f os.
End Forward.

(** ** The connection limit *)

Section Limit.
Context {C : Type → Type} `{Mpsc C} {P : Type} `{SemaphoreOk P} {K : Type} `{CopyLoop K}.
Abbreviation Fw := (Forwarder (C := C) (P := P) (K := K)).

Definition ntasks (f : Fw) : Z := Z.of_nat (size (fw_tasks f)).

Record lim_inv (f : Fw) : Prop := {
  li_permits : match fw_permits f with
               | None => fw_tasks f = ∅ ∧ fw_mux f = None
               | Some p => available p + ntasks f = max_connections (fw_config f)
                           ∧ 0 ≤ available p ∧ is_Some (fw_mux f)
               end;
  li_keys : ∀ k, is_Some (fw_tasks f !! k) → (k < fw_next f)%nat;
  li_accepting : fw_phase f = Accepting → is_Some (fw_permits f) }.

(** Steps that keep the set of tasks. *)
Lemma lim_same f f' :
  lim_inv f → fw_permits f' = fw_permits f → fw_config f' = fw_config f →
  fw_next f' = fw_next f → dom (fw_tasks f') = dom (fw_tasks f) →
  (is_Some (fw_mux f') ↔ is_Some (fw_mux f)) →
  (fw_phase f' = Accepting → is_Some (fw_permits f)) → lim_inv f'.
Proof.
  intros [L1 L2 L3] Hp Hc Hn Hd Hm Hph. split; rewrite ?Hp, ?Hc, ?Hn; auto.
  - destruct (fw_permits f) as [p|].
    + unfold ntasks in *. rewrite <- size_dom, Hd, size_dom, Hm. done.
    + destruct L1 as [L1 L1']. split.
      * apply dom_empty_inv_L. by rewrite Hd, L1, dom_empty_L.
      * rewrite L1' in Hm. destruct (fw_mux f') as [i|]; [|done].
        by destruct (proj1 Hm (mk_is_Some _ _ eq_refl)).
  - intros k. rewrite <- elem_of_dom, Hd, elem_of_dom. apply L2.
Qed.

Lemma drop_mux_lim f : lim_inv f → lim_inv (drop_mux f).
Proof.
  intros Hl. unfold drop_mux. destruct (fw_phase f) eqn:Ep; try done.
  destruct (fw_mux f) as [i|] eqn:Em; [|done]. destruct (decide _) as [He|]; [|done].
  eapply (lim_same f); [exact Hl|done|done|done|cbn; by rewrite He| |cbn; congruence].
  cbn. rewrite Em. split; eauto.
Qed.

Lemma finish_lim r f : lim_inv f → lim_inv (finish r f).
Proof. intros Hl. apply drop_mux_lim. by eapply lim_same; [exact Hl|..]. Qed.

Lemma accept_lim f : lim_inv f → lim_inv (accept_one f).
Proof.
  intros Hl. unfold accept_one. pose proof Hl as [L1 L2 L3].
  destruct (fw_permits f) as [p|] eqn:Ep; [|done]. pose proof (try_acquire_spec p) as Ha.
  destruct L1 as (Hs & Hz & Hm).
  assert (Hfresh : fw_tasks f !! fw_next f = None).
  { destruct (fw_tasks f !! fw_next f) eqn:E; [|done].
    assert (fw_next f < fw_next f)%nat by (apply L2; eauto). lia. }
  destruct (try_acquire p) as [p'|]; split; cbn; try done.
  - unfold ntasks in *. cbn. rewrite map_size_insert_None by done. split_and!; [lia|lia|done].
  - intros k. rewrite lookup_insert_is_Some'. intros [->|Hk%L2]; lia.
Qed.

Lemma end_task_lim k s f : lim_inv f → is_Some (fw_tasks f !! k) → lim_inv (end_task k s f).
Proof.
  intros Hl [t Ht]. unfold end_task. pose proof Hl as [L1 L2 L3].
  destruct (fw_mux f) as [i|] eqn:Em; [|done]. destruct (fw_permits f) as [p|] eqn:Ep; [|done].
  apply drop_mux_lim. destruct L1 as (Hs & Hz & _). pose proof (release_spec p).
  split; cbn; [|intros k' [_ Hk%L2]%lookup_delete_is_Some; lia|done].
  unfold ntasks in *. cbn. rewrite map_size_delete_Some by eauto.
  assert (0 < size (fw_tasks f))%nat.
  { destruct (decide (size (fw_tasks f) = 0)%nat) as [E|]; [|lia].
    apply map_size_empty_inv in E. by rewrite E in Ht. }
  split_and!; [lia|lia|done].
Qed.

Lemma task_lim k m f : lim_inv f → lim_inv (task_poll k m f).
Proof.
  intros Hl. unfold task_poll. destruct (fw_mux f) as [i|] eqn:Em; [|done].
  destruct (fw_tasks f !! k) as [[|c]|] eqn:Et; [| |done].
  - assert (Hset : ∀ i' t, lim_inv (set_mux f i' (<[k := t]> (fw_tasks f)))).
    { intros i' t. eapply lim_same; [exact Hl|done..| | |apply Hl]; cbn.
      - apply dom_insert_lookup_L. eauto.
      - rewrite Em. split; eauto. }
    destruct (open_stream i) as [[s|e] i'].
    + destruct (fw_shutdown _); [|done]. apply end_task_lim; [done|]. cbn.
      rewrite lookup_insert_eq. eauto.
    + apply end_task_lim; [|cbn; eauto]. specialize (Hset i' Spawned). by rewrite insert_id in Hset.
  - assert (Hset : ∀ i' t, lim_inv (set_mux f i' (<[k := t]> (fw_tasks f)))).
    { intros i' t. eapply lim_same; [exact Hl|done..| | |apply Hl]; cbn.
      - apply dom_insert_lookup_L. eauto.
      - rewrite Em. split; eauto. }
    destruct (fw_shutdown f); [apply end_task_lim; eauto|].
    destruct (conn_step m c i) as [c' i']. destruct (conn_result c'); [|done].
    apply end_task_lim; [done|]. cbn. rewrite lookup_insert_eq. eauto.
Qed.

Lemma forward_lim waited a f :
  0 ≤ max_connections (fw_config f) → lim_inv f → lim_inv (forward_poll waited a f).
Proof.
  intros Hmax Hl. unfold forward_poll. destruct (fw_phase f) eqn:Ep; try done.
  - destruct (fw_shutdown f); [by apply finish_lim|].
    destruct (wait_ready _ _) as [[[]|e]|]; [|by apply finish_lim|done].
    destruct (sem_new _) as [p|] eqn:Es.
    + destruct (Z_le_gt_dec (max_connections (fw_config f)) MAX_PERMITS) as [Hle|Hgt].
      * destruct (sem_new_ok (max_connections (fw_config f))) as (p' & Hp & Ha); [done|].
        rewrite Es in Hp. injection Hp as <-. split; cbn; try done.
        -- unfold ntasks. cbn. rewrite map_size_empty. split_and!; [lia|lia|done].
        -- intros k. rewrite lookup_empty. by intros [].
      * rewrite sem_new_panics in Es by lia. done.
    + eapply lim_same; [exact Hl|done..].
  - destruct (fw_shutdown f); [by apply finish_lim|].
    destruct (closed_resolves _).
    { apply finish_lim. apply (lim_same f); try done. intros _. by apply Hl. }
    destruct a; [done|by apply accept_lim|by apply finish_lim].
Qed.

Lemma lim_step f o : 0 ≤ max_connections (fw_config f) → lim_inv f → lim_inv (fw_step f o).
Proof.
  intros Hmax Hl. unfold fw_step.
  assert (Hset : ∀ i i' ts, fw_mux f = Some i → dom ts = dom (fw_tasks f) → lim_inv (set_mux f i' ts)).
  { intros i i' ts Hm Hd. eapply lim_same; [exact Hl|done..| |apply Hl]; cbn. rewrite Hm. split; eauto. }
  destruct o as [w a|k m|fr| |r| | | | |o]; [by apply forward_lim|by apply task_lim|..];
    try (destruct (fw_mux f) as [i|] eqn:Em; [|done]); try (by eapply Hset).
  - destruct (is_closed i); [by eapply Hset|done].
  - destruct (rx_alive _); [by eapply Hset|done].
  - apply (lim_same f); try done. apply Hl.
  - apply (lim_same f); try done. apply Hl.
Qed.

Lemma fw_config_step f o : fw_config (fw_step f o) = fw_config f.
Proof.
  assert (Hd : ∀ f : Fw, fw_config (drop_mux f) = fw_config f).
  { intros g. unfold drop_mux. destruct (fw_phase g), (fw_mux g); try done. by case_decide. }
  assert (Hf : ∀ r (f : Fw), fw_config (finish r f) = fw_config f).
  { intros r g. unfold finish. by rewrite Hd. }
  assert (He : ∀ k s (f : Fw), fw_config (end_task k s f) = fw_config f).
  { intros k s g. unfold end_task. destruct (fw_mux g), (fw_permits g); try done. by rewrite Hd. }
  unfold fw_step, forward_poll, task_poll, accept_one.
  repeat case_match; simplify_eq; rewrite ?He, ?Hf; done.
Qed.

Lemma lim_run cfg x shut os :
  0 ≤ max_connections cfg →
  lim_inv (fw_run (forward cfg x shut) os) ∧ fw_config (fw_run (forward cfg x shut) os) = cfg.
Proof.
  intros Hmax. unfold fw_run. induction os as [|o os [IH Hc]] using rev_ind.
  - unfold forward, finish, drop_mux. destruct (decide _); cbn; (split; [split; cbn|]); try done;
      intros k; rewrite lookup_empty; by intros [].
  - rewrite foldl_snoc, fw_config_step. split; [|done]. apply lim_step; [by rewrite Hc|done].
Qed.

(** C24: the connection limit.  Whatever connects and disconnects, in any order, the
    number of connections being served never exceeds [max_connections]: every one
    holds a permit until its task ends and every permit comes back then.  A
    connection is refused exactly when that many are being served, and refusing it
    changes nothing; otherwise it gets a task and a permit of its own. *)
Theorem connection_limit cfg x shut os waited :
  0 ≤ max_connections cfg →
  let f := fw_run (forward cfg x shut) os in
  ntasks f ≤ max_connections cfg
  ∧ (∀ p, fw_permits f = Some p → available p + ntasks f = max_connections cfg)
  ∧ (fw_phase f = Accepting → fw_shutdown f = false → core_closed (core (fw_session f)) = false →
       let f' := fw_step f (OpForward waited Accepted) in
       if ntasks f <? max_connections cfg then
         fw_tasks f' = <[fw_next f := Spawned]> (fw_tasks f) ∧ fw_tasks f !! fw_next f = None
         ∧ fw_refused f' = fw_refused f
       else fw_tasks f' = fw_tasks f ∧ fw_permits f' = fw_permits f
            ∧ fw_refused f' = S (fw_refused f)).
Proof.
  intros Hmax f. destruct (lim_run cfg x shut os Hmax) as [[L1 L2 L3] Hc]. fold f in L1, L2, L3, Hc.
  clearbody f. subst cfg. split_and!.
  - destruct (fw_permits f) as [p|]; [lia|]. destruct L1 as [L1 _]. unfold ntasks.
    rewrite L1, map_size_empty. lia.
  - intros p Hp. rewrite Hp in L1. tauto.
  - intros Hp Hs Hcl. cbn [fw_step]. unfold forward_poll, closed_resolves. rewrite Hp, Hs, Hcl.
    unfold accept_one. destruct (L3 Hp) as [p Hpe]. rewrite Hpe in *. destruct L1 as (Hsum & Hz & _).
    pose proof (try_acquire_spec p) as Ha. destruct (try_acquire p) as [p'|].
    + destruct (Z.ltb_spec (ntasks f) (max_connections (fw_config f))); [|lia]. split_and!; try done.
      destruct (fw_tasks f !! fw_next f) eqn:E; [|done].
      assert (fw_next f < fw_next f)%nat by (apply L2; eauto). lia.
    + destruct (Z.ltb_spec (ntasks f) (max_connections (fw_config f))); [lia|]. done.
Qed.

(** What [forward] refuses.  A session that was not started with a
    port-forwarding document is refused at once, with a configuration error, before
    anything is read from it, opened or accepted; and a limit above
    [Semaphore::MAX_PERMITS] makes [forward] panic once the session is ready, which
    neither its documentation nor the configuration's mentions. *)
Theorem forward_refuses cfg x :
  (config_session_type (config x) ≠ Documents.Port → ∀ shut os, ∃ m,
     fw_phase (fw_run (forward (P := P) (K := K) cfg x shut) os) = Finished (Err (Error_Config m))
     ∧ fw_mux (fw_run (forward (P := P) (K := K) cfg x shut) os) = None
     ∧ fw_tasks (fw_run (forward (P := P) (K := K) cfg x shut) os) = ∅)
  ∧ (config_session_type (config x) = Documents.Port → MAX_PERMITS < max_connections cfg →
     sendable (core x) = true →
     ∀ waited a, fw_phase (fw_step (forward (P := P) (K := K) cfg x false) (OpForward waited a)) = Crashed).
Proof.
  split.
  - intros Hne shut os. unfold forward. rewrite decide_False by done. eexists.
    unfold fw_run. set (f := finish _ _).
    assert (Hf : fw_phase f = Finished (Err (Error_Config
      [PLit "PortForwarder needs a port-forwarding session. Start it with SessionBuilder::port_forward(port) or .document(PortForwardingToRemoteHost::new(host, port))."]))
      ∧ fw_mux f = None ∧ fw_tasks f = ∅) by done.
    clearbody f. revert f Hf. induction os as [|o os IH]; intros f (Hp & Hm & Ht); [by split_and!|].
    cbn [foldl]. apply IH. unfold fw_step, forward_poll, task_poll. rewrite Hm.
    destruct o; cbn; by rewrite ?Hp, ?Hm.
  - intros Hty Hmax Hs waited a. unfold forward. rewrite decide_True by done. cbn.
    unfold wait_ready, wait_sendable. rewrite Hs. cbn. by rewrite sem_new_panics.
Qed.
End Limit.

(** ** Bytes *)

(** The payload of a frame on the wire if it is data for stream [id]. *)
Definition psh_frame (id : Z) (w : list byte) : list byte :=
  match decode_frame w with
  | (DFrame f, []) =>
    if bool_decide (cmd f = CMD_PSH ∧ stream_id f = id) then frame_payload f else []
  | _ => []
  end.
Definition psh_of (id : Z) (ws : list (list byte)) : list byte := concat (map (psh_frame id) ws).

Lemma psh_of_app id a b : psh_of id (a ++ b) = psh_of id a ++ psh_of id b.
Proof. unfold psh_of. by rewrite map_app, concat_app. Qed.
Lemma psh_of_one id w : psh_of id [w] = psh_frame id w.
Proof. unfold psh_of. cbn. by rewrite app_nil_r. Qed.

Lemma psh_frame_enc id f :
  wf_frame f →
  psh_frame id (enc f) = if bool_decide (cmd f = CMD_PSH ∧ stream_id f = id) then frame_payload f else [].
Proof.
  intros Hf. unfold psh_frame. pose proof (decode_enc f [] Hf) as Hd. rewrite app_nil_r in Hd.
  by rewrite Hd.
Qed.

Definition quiet (fs : list (list byte)) : Prop := ∀ id, psh_of id fs = [].

Lemma quiet_control c id : c ≠ CMD_PSH → quiet [control c id].
Proof.
  intros Hc id'. rewrite psh_of_one.
  assert (control c id = enc {| cmd := c; stream_id := id mod 2 ^ 32; frame_payload := [] |}) as ->.
  { unfold control, enc, smux_encode. cbn [cmd stream_id frame_payload].
    change (2 ^ 32) with (256 ^ Z.of_nat 4). by rewrite le_bytes_mod. }
  rewrite psh_frame_enc.
  - cbn. by rewrite bool_decide_false by (intros [? _]; done).
  - split; [|done]. cbn. unfold in_u. pose proof (Z.mod_pos_bound id (2 ^ 32) ltac:(done)). bool_lia.
Qed.

Section Wire.
Context {C : Type → Type} `{MpscOk C}.

(** The frame queue grew by these frames; nobody writes to a stopped send task. *)
Definition grows (i i' : Inner (C := C)) (fs : list (list byte)) : Prop :=
  rx_alive (frames i') = rx_alive (frames i) ∧ queued (frames i') = queued (frames i) ++ fs
  ∧ (rx_alive (frames i) = false → fs = []).
Definition grows_quiet (i i' : Inner (C := C)) : Prop := ∃ fs, grows i i' fs ∧ quiet fs.

Lemma grows_same i i' : frames i' = frames i → grows_quiet i i'.
Proof. intros Hf. exists []. unfold grows. by rewrite Hf, app_nil_r. Qed.

#[local] Instance grows_quiet_preorder : PreOrder grows_quiet.
Proof.
  split.
  - intros i. by apply grows_same.
  - intros i j k (fs & (Ha & Hq & Hd) & Hf) (gs & (Hb & Hr & He) & Hg). exists (fs ++ gs).
    split; [split_and!|].
    + congruence.
    + by rewrite Hr, Hq, app_assoc.
    + intros Hdead. by rewrite Hd, He by congruence.
    + intros id. by rewrite psh_of_app, Hf, Hg.
Qed.

Lemma grows_try w i i' r q :
  try_send w (frames i) = (r, q) → frames i' = q →
  grows i i' (match r with Sent => [w] | _ => [] end).
Proof.
  intros Ht Hf. apply try_send_inv in Ht. unfold grows. rewrite Hf.
  destruct r; destruct_and?; subst; rewrite ?app_nil_r; split_and!; try done; congruence.
Qed.

Lemma grows_try_quiet w i i' r q :
  quiet [w] → try_send w (frames i) = (r, q) → frames i' = q → grows_quiet i i'.
Proof. intros Hw Ht Hf. eexists. split; [by eapply grows_try|]. by destruct r. Qed.

Lemma grows_post w i : quiet [w] → grows_quiet i (post w i).
Proof.
  intros Hw. unfold post. destruct (try_send w (frames i)) as [r q] eqn:E.
  by eapply grows_try_quiet.
Qed.

Lemma frames_remove id (i : Inner (C := C)) : frames (remove_entry id i) = frames i.
Proof. unfold remove_entry. by destruct (streams i !! id). Qed.

Lemma grows_open (i : Inner (C := C)) : grows_quiet i (open_stream i).2.
Proof.
  unfold open_stream. destruct (is_closed i); [by apply grows_same|]. cbv zeta.
  destruct (try_send _ _) as [r q] eqn:E. cbn [frames] in E. rewrite frames_remove in E.
  assert (Hq : ∀ i', frames i' = q → grows_quiet i i').
  { intros i' Hi. eapply grows_try_quiet; [|exact E|done]. by apply quiet_control. }
  destruct r; apply Hq; cbn; by rewrite ?frames_remove.
Qed.

Lemma grows_route f (i : Inner (C := C)) : grows_quiet i (route_frame f i).
Proof.
  unfold route_frame, route_push, route_fin.
  destruct (decide _); [|destruct (decide _); [|by apply grows_same]].
  - destruct (streams i !! _); [|by apply grows_post, quiet_control].
    destruct (cells i !! _); [|by apply grows_same].
    destruct (try_send _ _) as [[] q].
    + by apply grows_same.
    + etransitivity; [|apply grows_post, quiet_control; done].
      apply grows_same. by rewrite frames_remove.
    + apply grows_same. by rewrite frames_remove.
  - destruct (streams i !! _); [|by apply grows_same].
    apply grows_same. by rewrite frames_remove.
Qed.

Lemma grows_shutdown s (i : Inner (C := C)) : grows_quiet i (poll_shutdown s i).2.
Proof.
  unfold poll_shutdown. destruct (write_closed s); [by apply grows_same|].
  destruct (try_send _ _) as [r q] eqn:E. destruct r; try by apply grows_same.
  eapply grows_try_quiet; [|exact E|done]. by apply quiet_control.
Qed.

Lemma grows_drop s (i : Inner (C := C)) : grows_quiet i (drop_stream s i).
Proof.
  unfold drop_stream. transitivity (if write_closed s then i else post (control CMD_FIN (sid s)) i).
  - destruct (write_closed s); [by apply grows_same|by apply grows_post, quiet_control].
  - apply grows_same. cbn. by rewrite frames_remove.
Qed.

Lemma grows_write buf s (i : Inner (C := C)) r i' :
  poll_write buf s i = (r, i') →
  match r with
  | Wrote n => grows i i' [enc {| cmd := CMD_PSH; stream_id := sid s;
                                  frame_payload := take (Z.to_nat n) buf |}]
               ∧ #(take (Z.to_nat n) buf) ≤ MAX_FRAME_PAYLOAD ∧ 0 ≤ n ≤ #buf
  | _ => i' = i
  end.
Proof.
  unfold poll_write. destruct (write_closed s); [by intros [= <- <-]|].
  destruct (is_closed i); [by intros [= <- <-]|]. cbv zeta.
  set (n := Z.to_nat (Z.min (#buf) MAX_FRAME_PAYLOAD)).
  pose proof (len_nonneg buf). assert (0 ≤ MAX_FRAME_PAYLOAD) by done.
  destruct (try_send _ _) as [v q] eqn:E. destruct v; intros [= <- <-]; try done.
  rewrite Nat2Z.id. split_and!; [|rewrite len_take; lia|lia|lia].
  exact (grows_try _ i (set_frames i q) _ _ E eq_refl).
Qed.
End Wire.

(** ** Winding down *)

Section WindDown.
Context {C : Type → Type} `{MpscOk C} {P : Type} `{SemaphoreOk P} {K : Type} `{CopyLoopOk K}.
Abbreviation Fw := (Forwarder (C := C) (P := P) (K := K)).

(** After the accept loop has returned because the session ended or a shutdown was
    requested. *)
Record winding (f : Fw) : Prop := {
  wd_phase : ∃ r, fw_phase f = Finished r;
  wd_shutdown : fw_shutdown f = true;
  wd_closed : fw_tasks f = ∅ → ∀ i, fw_mux f = Some i → is_closed i = true }.

Lemma closed_close r (i : Inner (C := C)) : is_closed (close r i) = true.
Proof. unfold close. by destruct (is_closed i) eqn:E. Qed.

Lemma drop_mux_winding f :
  (∃ r, fw_phase f = Finished r) → fw_shutdown f = true → winding (drop_mux f).
Proof.
  intros [r Hp] Hs. unfold drop_mux. rewrite Hp. destruct (fw_mux f) as [i|] eqn:Em.
  - destruct (decide _) as [He|He]; split; cbn; try done; [by eauto| |by eauto].
    intros _ j [= <-]. apply closed_close.
  - split; [by eauto|done|]. intros _ i. congruence.
Qed.

Lemma end_task_winding k s f :
  (∃ r, fw_phase f = Finished r) → fw_shutdown f = true →
  is_Some (fw_mux f) → is_Some (fw_permits f) →
  winding (end_task k s f) ∧ fw_tasks (end_task k s f) = delete k (fw_tasks f).
Proof.
  intros Hp Hs [i Hi] [p Hpe]. unfold end_task. rewrite Hi, Hpe. set (ts := delete k _).
  split; [by apply drop_mux_winding|]. unfold drop_mux. destruct Hp as [r Hp]. cbn. rewrite Hp.
  by destruct (decide (ts = ∅)).
Qed.

(** In one step of a forwarder that winds down, the polled task ends and no other
    appears. *)
Lemma winding_step f o :
  winding f → (is_Some (fw_mux f) → is_Some (fw_permits f)) →
  winding (fw_step f o)
  ∧ dom (fw_tasks (fw_step f o)) = match o, fw_mux f with
                                   | OpTask k _, Some _ => dom (fw_tasks f) ∖ {[k]}
                                   | _, _ => dom (fw_tasks f)
                                   end.
Proof.
  intros Hw Hperm. pose proof Hw as [[r Hp] Hs Hc].
  assert (Hset : ∀ i i' (ts : gmap nat (Task (K := K))), fw_mux f = Some i → (is_closed i = true → is_closed i' = true) →
    dom ts = dom (fw_tasks f) → winding (set_mux f i' ts)).
  { intros i i' ts Hi Hi' Hd. split; cbn; [by eauto|done|]. intros Hts j [= <-]. apply Hi'.
    apply Hc; [|done]. apply dom_empty_inv_L. by rewrite <- Hd, Hts, dom_empty_L. }
  unfold fw_step. destruct o as [w a|k m|fr| |r'| | | | |o].
  - unfold forward_poll. by rewrite Hp.
  - unfold task_poll. destruct (fw_mux f) as [i|] eqn:Em; [|done].
    assert (Hpe : is_Some (fw_permits f)) by eauto.
    assert (Hend : ∀ s g, fw_phase g = fw_phase f → fw_shutdown g = fw_shutdown f →
      fw_permits g = fw_permits f → is_Some (fw_mux g) → dom (fw_tasks g) = dom (fw_tasks f) →
      winding (end_task k s g) ∧ dom (fw_tasks (end_task k s g)) = dom (fw_tasks f) ∖ {[k]}).
    { intros s g Hgp Hgs Hgq Hgm Hgd. rewrite Hp in Hgp. rewrite Hs in Hgs. rewrite <- Hgq in Hpe.
      destruct (end_task_winding k s g) as [H1' ->]; eauto. by rewrite dom_delete_L, Hgd. }
    destruct (fw_tasks f !! k) as [[|c]|] eqn:Ek.
    + destruct (open_stream i) as [[s|e] i']; rewrite ?Hs.
      * apply Hend; cbn; eauto. apply dom_insert_lookup_L. eauto.
      * apply Hend; cbn; eauto.
    + rewrite Hs. apply Hend; eauto.
    + split; [done|]. apply not_elem_of_dom in Ek. set_solver.
  - destruct (fw_mux f) as [i|] eqn:Em; [|done]. split; [|done]. eapply Hset; [done| |done].
    by rewrite closed_route.
  - destruct (fw_mux f) as [i|] eqn:Em; [|done]. split; [|done]. by eapply Hset.
  - destruct (fw_mux f) as [i|] eqn:Em; [|done]. destruct (is_closed i) eqn:Ec; [|done].
    split; [|done]. by eapply Hset.
  - destruct (fw_mux f) as [i|] eqn:Em; [|done]. destruct (rx_alive _); [|done].
    split; [|done]. by eapply Hset.
  - destruct (fw_mux f) as [i|] eqn:Em; [|done]. split; [|done]. by eapply Hset.
  - destruct (fw_mux f) as [i|] eqn:Em; [|done]. split; [|done]. eapply Hset; [done| |done].
    unfold keepalive_tick. by destruct (try_send _ _) as [[] q].
  - split; [|done]. split; cbn; eauto.
  - split; [|done]. split; cbn; eauto.
Qed.

Lemma winding_run os : ∀ f : Fw,
  0 ≤ max_connections (fw_config f) → lim_inv f → winding f →
  let f' := fw_run f os in
  winding f' ∧ lim_inv f' ∧ fw_config f' = fw_config f
  ∧ ∀ k, k ∈ dom (fw_tasks f') → k ∈ dom (fw_tasks f) ∧ ∀ m, OpTask k m ∉ os.
Proof.
  unfold fw_run. induction os as [|o os IH]; intros f Hmax Hl Hw; cbn [foldl].
  { split_and!; try done. intros k Hk. split; [done|]. intros m. apply not_elem_of_nil. }
  destruct (winding_step f o Hw) as [Hw' Hd].
  { intros Hm. pose proof (li_permits f Hl) as Hp. destruct (fw_permits f); [by eauto|].
    destruct Hp as [_ Hp]. by rewrite Hp in Hm. }
  destruct (IH (fw_step f o)) as (H1' & H2' & H3' & H4').
  { by rewrite fw_config_step. }
  { by apply lim_step. }
  { done. }
  rewrite fw_config_step in H3'. split_and!; try done. intros k Hk.
  destruct (H4' k Hk) as [Hin Hno]. rewrite Hd in Hin.
  destruct o as [w a|j m|fr| |r| | | | |o]; try (split; [done|set_solver]).
  destruct (fw_mux f) as [i|] eqn:Em.
  - split; [set_solver|]. intros m' [[= <- <-]|Hin']%elem_of_cons; [set_solver|by apply (Hno m')].
  - exfalso. pose proof (li_permits f Hl) as Hp. rewrite Em in Hp.
    destruct (fw_permits f); [by destruct Hp as (_ & _ & [? ?])|]. destruct Hp as [Hp _].
    rewrite Hp in Hin. set_solver.
Qed.

(** C29: when the shutdown signal fires, or the session ends under an accept loop, everything
    winds down.  The next poll of [forward] returns [Ok], whether it was accepting or still
    waiting for the session to be ready, with the signal raised so that every connection is
    told; from then on nothing is accepted, each connection ends at its next poll, and once
    each has been polled there is none left, every permit is back and the multiplexer is
    closed, so nobody waits for a tunnel that no longer exists. *)
Theorem forward_winds_down cfg x shut os waited a os' :
  0 ≤ max_connections cfg →
  let f := fw_run (forward (P := P) (K := K) cfg x shut) os in
  (fw_shutdown f = true ∧ (fw_phase f = WaitingReady ∨ fw_phase f = Accepting)) ∨
  (core_closed (core (fw_session f)) = true ∧ fw_phase f = Accepting) →
  let f1 := fw_step f (OpForward waited a) in
  fw_phase f1 = Finished (Ok ()) ∧ fw_shutdown f1 = true ∧ dom (fw_tasks f1) = dom (fw_tasks f)
  ∧ let f' := fw_run f1 os' in
    (∀ k, is_Some (fw_tasks f' !! k) → is_Some (fw_tasks f !! k) ∧ ∀ m, OpTask k m ∉ os')
    ∧ ((∀ k, is_Some (fw_tasks f !! k) → ∃ m, OpTask k m ∈ os') →
         fw_tasks f' = ∅
         ∧ (∀ p, fw_permits f' = Some p → available p = max_connections cfg)
         ∧ ∀ i, fw_mux f' = Some i → is_closed i = true).
Proof.
  intros Hmax f Hend. destruct (lim_run cfg x shut os Hmax) as [Hl Hcfg]. fold f in Hl, Hcfg.
  clearbody f. cbn [fw_step].
  assert (Hfin : ∃ g, fw_tasks g = fw_tasks f ∧ fw_config g = fw_config f ∧ lim_inv g
    ∧ fw_shutdown g = true ∧ forward_poll waited a f = finish (Ok ()) g).
  { unfold forward_poll, closed_resolves. destruct (fw_shutdown f) eqn:Es.
    - exists f. by destruct Hend as [[_ [-> | ->]]|[_ ->]].
    - destruct Hend as [[? _]|[Hc ->]]; [done|]. rewrite Hc. eexists.
      split_and!; [..|reflexivity]; try done. apply (lim_same f); try done. apply Hl. }
  destruct Hfin as (g & Hgt & Hgc & Hgl & Hgs & ->).
  assert (Hw : winding (finish (Ok ()) g)) by (apply drop_mux_winding; [by eexists|done]).
  assert (Htasks : dom (fw_tasks (finish (Ok ()) g)) = dom (fw_tasks f)).
  { rewrite <- Hgt. unfold finish, drop_mux. cbn. destruct (fw_mux g); [|done].
    destruct (decide _) as [He|]; [|done]. cbn in *. by rewrite He. }
  assert (Hphase : fw_phase (finish (Ok ()) g) = Finished (Ok ())).
  { unfold finish, drop_mux. cbn. destruct (fw_mux g); [|done]. by destruct (decide _). }
  assert (Hcf : fw_config (finish (Ok ()) g) = cfg).
  { unfold finish, drop_mux. cbn. destruct (fw_mux g); [|by rewrite <- Hcfg].
    destruct (decide _); cbn; congruence. }
  destruct (winding_run os' (finish (Ok ()) g)) as (Hw' & Hl' & Hcfg' & Hin);
    [by rewrite Hcf|by apply finish_lim|done|].
  split_and!; [done|apply Hw|done| |].
  - intros k Hk. apply elem_of_dom in Hk. destruct (Hin k Hk) as [H1' H2'].
    rewrite Htasks in H1'. split; [by apply elem_of_dom|done].
  - intros Hall.
    assert (He : fw_tasks (fw_run (finish (Ok ()) g) os') = ∅).
    { apply dom_empty_inv_L. apply elem_of_equiv_empty_L. intros k Hk.
      destruct (Hin k Hk) as [H1' H2']. rewrite Htasks in H1'. apply elem_of_dom in H1'.
      destruct (Hall k H1') as [m Hm]. by apply (H2' m). }
    split_and!; [done| |].
    + intros p Hpe. pose proof (li_permits _ Hl') as Hs. rewrite Hpe in Hs.
      destruct Hs as (Hs & _). unfold ntasks in Hs. rewrite He, map_size_empty, Hcfg', Hcf in Hs. lia.
    + by apply (wd_closed _ Hw').
Qed.
End WindDown.

(** ** Witnesses *)

(** Permits as a number. *)
#[export] Instance toy_semaphore : Semaphore Z := {|
  sem_new n := if MAX_PERMITS <? n then Panicked else Done n;
  available p := p;
  try_acquire p := if 0 <? p then Some (p - 1) else None;
  sem_release p := p + 1 |}.
#[export] Instance toy_semaphore_ok : SemaphoreOk Z.
Proof.
  split; cbn; try done.
  - intros n Hn. exists n. destruct (Z.ltb_spec MAX_PERMITS n); [lia|done].
  - intros n Hn. destruct (Z.ltb_spec MAX_PERMITS n); [done|lia].
  - intros p. destruct (Z.ltb_spec 0 p); lia.
Qed.

(** A copy through a buffer of four bytes: what it holds, and whether it saw the end. *)
#[export] Instance toy_copy : CopyLoop (list byte * bool) := {|
  copy_new := ([], false);
  copy_reads k := if k.2 then None else match k.1 with [] => Some 4%nat | _ => None end;
  copy_writes k := k.1;
  copy_fed bs k := (k.1 ++ bs, bool_decide (bs = []));
  copy_wrote n k := (drop n k.1, k.2);
  copy_result k := if k.2 then match k.1 with [] => Some 0 | _ => None end else None;
  held k := k.1;
  at_eof k := k.2 |}.
#[export] Instance toy_copy_ok : CopyLoopOk (list byte * bool).
Proof.
  split; cbn; try done.
  - intros [h e] n. cbn. destruct e, h; intros [= <-]. split; [lia|done].
  - intros [h e] n. cbn. destruct e, h; [done..|]. by intros [= <-].
Qed.

Definition toy_port_config : SessionConfig :=
  {| target := lit "i-1";
     document := Some {| Documents.name := lit "AWS-StartPortForwardingSession";
                         Documents.spec_parameters := ∅;
                         Documents.spec_session_type := Documents.Port |};
     reason := None; ready_timeout := from_secs 30; heartbeat_interval := from_secs 30;
     idle_timeout := from_secs 120; payload_chunk_size := 1024; output_buffer := 16;
     endpoint_policy := AwsOnly |}.
Definition toy_port_session : Session (C := Chan) :=
  {| core := set_sendable true toy_core; commands := channel 256; config := toy_port_config;
     ssm := true |}.
Definition toy_limit (n : Z) : PortForwardConfig :=
  {| local_addr := (lit "127.0.0.1", 0); max_connections := n; keepalive := false |}.

(** A client connects and sends two bytes; the agent answers with one. *)
Definition toy_fw_ops : list fw_op :=
  [OpForward 0 NoConnection; OpForward 0 Accepted; OpTask 0 InRead;
   OpTask 0 (OutRead (Ok [x61; x62])); OpTask 0 OutWrite; OpTake; OpTake;
   OpFrame (psh 1 [x63]); OpTask 0 InRead; OpTask 0 (InWrite (Ok 1%nat))].
Abbreviation toy_forward := (forward (P := Z) (K := list byte * bool)).

(** With a limit of one, a second connection is refused. *)
Lemma connection_limit_witness :
  let f := fw_run (toy_forward (toy_limit 1) toy_port_session false)
             [OpForward 0 NoConnection; OpForward 0 Accepted] in
  ntasks f = 1
  ∧ fw_tasks (fw_step f (OpForward 0 Accepted)) = fw_tasks f
  ∧ fw_refused (fw_step f (OpForward 0 Accepted)) = 1%nat.
Proof.
  cbv zeta. split; [vm_compute; reflexivity|].
  destruct (connection_limit (P := Z) (K := list byte * bool) (toy_limit 1) toy_port_session false
    [OpForward 0 NoConnection; OpForward 0 Accepted] 0 ltac:(done)) as (_ & _ & H3).
  specialize (H3 ltac:(vm_compute; reflexivity) ltac:(vm_compute; reflexivity)
    ltac:(vm_compute; reflexivity)).
  split; [|vm_compute; reflexivity].
  assert (E : (ntasks (fw_run (toy_forward (toy_limit 1) toy_port_session false)
    [OpForward 0 NoConnection; OpForward 0 Accepted]) <? max_connections (toy_limit 1)) = false)
    by (vm_compute; reflexivity).
  rewrite E in H3. exact (proj1 H3).
Defined.

Lemma forward_refuses_witness :
  (∃ m, fw_phase (toy_forward (toy_limit 1) toy_session false) = Finished (Err (Error_Config m)))
  ∧ fw_phase (fw_step (toy_forward (toy_limit (2 ^ 61)) toy_port_session false)
                (OpForward 0 NoConnection)) = Crashed.
Proof.
  split.
  - destruct (forward_refuses (P := Z) (K := list byte * bool) (toy_limit 1) toy_session) as [H1 _].
    destruct (H1 ltac:(vm_compute; discriminate) false []) as (m & Hm & _). exists m. exact Hm.
  - apply (forward_refuses (P := Z) (K := list byte * bool) (toy_limit (2 ^ 61)) toy_port_session);
      reflexivity.
Defined.

Lemma forward_winds_down_witness :
  let f := fw_run (toy_forward (toy_limit 1) toy_port_session false) (toy_fw_ops ++ [OpShutdown]) in
  let f' := fw_run (fw_step f (OpForward 0 NoConnection)) [OpTask 0 InRead] in
  fw_tasks f' = ∅ ∧ fw_permits f' = Some 1.
Proof.
  cbv zeta. split; [|vm_compute; reflexivity].
  destruct (forward_winds_down (P := Z) (K := list byte * bool) (toy_limit 1) toy_port_session false
    (toy_fw_ops ++ [OpShutdown]) 0 NoConnection [OpTask 0 InRead]) as (_ & _ & _ & _ & H2);
    [done|left; split; [vm_compute; reflexivity|right; vm_compute; reflexivity]|].
  apply H2. intros k Hk. exists InRead.
  assert (Hd : dom (fw_tasks (fw_run (toy_forward (toy_limit 1) toy_port_session false)
    (toy_fw_ops ++ [OpShutdown]))) = {[0%nat]}) by (vm_compute; reflexivity).
  apply elem_of_dom in Hk. rewrite Hd in Hk. apply elem_of_singleton in Hk. subst k.
  apply list_elem_of_here.
Defined.
