(* ===== verification/Tunnel.v ===== *)
(** * The multiplexer over a session (src/mux.rs over src/session.rs and src/connection.rs)

    The tasks of a [SmuxSession] as programs: the receive task reads an output stream
    of the session and routes frames, the send task hands frames to [Session::send],
    the keep-alive task queues NOPs; [die] is the [Notify] that ends them.  Below them
    runs a whole data channel ([Connection]), above them streams are opened, read,
    written and dropped.

    [Mux] describes what the tasks do to the multiplexer's table.  Here they share it,
    wait, and are told to stop in the order of the source: the flag, the notification
    and the clearing of the table are separate steps.

    [t_routed], [t_posted] and [t_sent] are read by nothing: the frames routed, queued,
    and accepted by the session.  So is [t_ledger]: for every stream, how many frames had
    been routed when it was opened, and the bytes it has been read; and [t_written]: the
    stream identifier and the bytes of every write that was accepted. *)

From S2P Require Import Prelude RustStd Errors Interfaces Coroutine BinaryProtocol Ack Crypto.
From S2P Require Import Channels Mux Handshake Documents Session Connection Inbound Commands.
From S2P Require Import PortForward SmuxStreams.

(** The tasks of a multiplexer, and the drop of its owner. *)
Inductive MuxTask := Recv | Send | Keepalive | Owner.
#[export] Instance MuxTask_eq_dec : EqDecision MuxTask.
Proof. solve_decision. Defined.

(** What is done to its streams, which are named by their cells. *)
Inductive StreamOp :=
| OpOpen
| OpRead (h : nat) (n : nat)         (* the queue *)
| OpFlag (h : nat)                   (* and, if it was empty, the flag *)
| OpWrite (h : nat) (buf : list byte)
| OpShutdown (h : nat)
| OpDrop (h : nat).

(** Caller data stands for itself, whatever it is cut into. *)
Lemma meaning_data n l : (0 < n)%nat → concat (meaning n (Data <$> l)).*2 = concat l.
Proof.
  intros Hn. unfold meaning. induction l as [|d l IH]; [done|]. cbn [fmap list_fmap concat].
  rewrite fmap_app, concat_app, IH. f_equal. cbn.
  destruct (chunks_of_spec (length d) n d Hn ltac:(done)) as [Hc _].
  rewrite <- list_fmap_compose. unfold compose. cbn. by rewrite list_fmap_id.
Qed.

Section Tunnel.
Context {C : Type → Type} `{Mpsc C} {N : Type} `{Notify N}.
Context `{Sha256, UuidDisplay, Aes256Gcm, Base64}.
Context {Value : Type} `{ActionJson Value}.
Context `{Serde AcknowledgeContent, Serde (HandshakeRequest (Value := Value)),
  Serde (HandshakeResponse (Value := Value)), Serde HandshakeComplete,
  Serde EncryptionChallengeRequest, Serde EncryptionChallengeResponse,
  Serde ChannelClosedBody}.
Context `{Platform} (timeout : Duration).

Abbreviation Channel := (Sys (World (C := C)) Error TaskId).

Record Tunnel := {
  t_channel : Channel;
  t_inner : Inner (C := C);
  t_die : N;
  t_output : option nat;             (* the receive task's [OutputStream] *)
  t_buf : list byte;
  t_tick : bool;                     (* the keep-alive ticker is due *)
  t_streams : gmap nat SmuxStream;
  t_reading : gset nat;              (* streams between the parts of [poll_read] *)
  t_ledger : gmap nat (nat * list byte);
  t_written : list (Z * list byte);
  t_routed : list Frame;
  t_posted : list (list byte);
  t_sent : list (list byte) }.

Abbreviation Io := (Prog Tunnel Error).

(** *** Record updates *)

Definition with_channel (t : Tunnel) (x : Channel) : Tunnel :=
  {| t_channel := x; t_inner := t_inner t; t_die := t_die t; t_output := t_output t;
     t_buf := t_buf t; t_tick := t_tick t; t_streams := t_streams t;
     t_reading := t_reading t; t_ledger := t_ledger t; t_written := t_written t;
     t_routed := t_routed t; t_posted := t_posted t; t_sent := t_sent t |}.
(** What the operations on the table add to the frame queue goes to the history. *)
Definition with_inner (t : Tunnel) (i : Inner (C := C)) : Tunnel :=
  {| t_channel := t_channel t; t_inner := i; t_die := t_die t; t_output := t_output t;
     t_buf := t_buf t; t_tick := t_tick t; t_streams := t_streams t;
     t_reading := t_reading t; t_ledger := t_ledger t; t_written := t_written t;
     t_routed := t_routed t; t_posted := t_posted t ++ drop (length (queued (frames (t_inner t)))) (queued (frames i));
     t_sent := t_sent t |}.
Definition with_queue (t : Tunnel) (q : C (list byte)) : Tunnel :=
  {| t_channel := t_channel t; t_inner := set_frames (t_inner t) q; t_die := t_die t;
     t_output := t_output t; t_buf := t_buf t; t_tick := t_tick t; t_streams := t_streams t;
     t_reading := t_reading t; t_ledger := t_ledger t; t_written := t_written t;
     t_routed := t_routed t; t_posted := t_posted t; t_sent := t_sent t |}.
Definition with_die (t : Tunnel) (n : N) : Tunnel :=
  {| t_channel := t_channel t; t_inner := t_inner t; t_die := n; t_output := t_output t;
     t_buf := t_buf t; t_tick := t_tick t; t_streams := t_streams t;
     t_reading := t_reading t; t_ledger := t_ledger t; t_written := t_written t;
     t_routed := t_routed t; t_posted := t_posted t; t_sent := t_sent t |}.
Definition with_output (t : Tunnel) (o : option nat) : Tunnel :=
  {| t_channel := t_channel t; t_inner := t_inner t; t_die := t_die t; t_output := o;
     t_buf := t_buf t; t_tick := t_tick t; t_streams := t_streams t;
     t_reading := t_reading t; t_ledger := t_ledger t; t_written := t_written t;
     t_routed := t_routed t; t_posted := t_posted t; t_sent := t_sent t |}.
Definition with_buf (t : Tunnel) (b : list byte) (fs : list Frame) : Tunnel :=
  {| t_channel := t_channel t; t_inner := t_inner t; t_die := t_die t; t_output := t_output t;
     t_buf := b; t_tick := t_tick t; t_streams := t_streams t;
     t_reading := t_reading t; t_ledger := t_ledger t; t_written := t_written t;
     t_routed := t_routed t ++ fs; t_posted := t_posted t; t_sent := t_sent t |}.
Definition with_tick (t : Tunnel) (b : bool) : Tunnel :=
  {| t_channel := t_channel t; t_inner := t_inner t; t_die := t_die t; t_output := t_output t;
     t_buf := t_buf t; t_tick := b; t_streams := t_streams t;
     t_reading := t_reading t; t_ledger := t_ledger t; t_written := t_written t;
     t_routed := t_routed t; t_posted := t_posted t; t_sent := t_sent t |}.
Definition with_streams (t : Tunnel) (m : gmap nat SmuxStream) (r : gset nat)
    (l : gmap nat (nat * list byte)) : Tunnel :=
  {| t_channel := t_channel t; t_inner := t_inner t; t_die := t_die t; t_output := t_output t;
     t_buf := t_buf t; t_tick := t_tick t; t_streams := m; t_reading := r; t_ledger := l; t_written := t_written t;
     t_routed := t_routed t;
     t_posted := t_posted t; t_sent := t_sent t |}.
Definition add_written (t : Tunnel) (id : Z) (b : list byte) : Tunnel :=
  {| t_channel := t_channel t; t_inner := t_inner t; t_die := t_die t; t_output := t_output t;
     t_buf := t_buf t; t_tick := t_tick t; t_streams := t_streams t; t_reading := t_reading t;
     t_ledger := t_ledger t; t_written := t_written t ++ [(id, b)]; t_routed := t_routed t;
     t_posted := t_posted t; t_sent := t_sent t |}.
Definition add_sent (t : Tunnel) (f : list byte) : Tunnel :=
  {| t_channel := t_channel t; t_inner := t_inner t; t_die := t_die t; t_output := t_output t;
     t_buf := t_buf t; t_tick := t_tick t; t_streams := t_streams t;
     t_reading := t_reading t; t_ledger := t_ledger t; t_written := t_written t;
     t_routed := t_routed t; t_posted := t_posted t; t_sent := t_sent t ++ [f] |}.

(** An event of the channel below. *)
Definition below (ev : Event) (t : Tunnel) : Tunnel :=
  with_channel t (sys_step timeout (t_channel t) ev).
Definition session_of (t : Tunnel) : World (C := C) := s_world (t_channel t).
Definition out_of (t : Tunnel) : Fanout (C := C) := fanout (w_core (session_of t)).

(** ** Closing *)

(** [Inner::close]. *)
Definition close (reason : StreamCloseReason) : Io () :=
  was ← act (λ t, (Mux.is_closed (t_inner t), with_inner t (mark_closed (t_inner t))));
  if was : bool then mret ()
  else
    _ ← modify (λ t, with_die t (notify_waiters (t_die t)));
    modify (λ t, with_inner t (clear reason (t_inner t))).

(** [die.notified()], enqueued: by [enable], or by its first poll. *)
Definition die_notified : Io nat :=
  act (λ t, let '(d, n) := enable (t_die t) in (d, with_die t n)).

(** ** The tasks *)

(** [dispatch]: frame by frame.  Every round takes at least a header out of the
    buffer, so one more round than its length is enough. *)
Fixpoint drain (fuel : nat) : Io bool :=
  match fuel with
  | O => Crash
  | S fuel =>
    decoded ← act (λ t,
      match decode_frame (t_buf t) with
      | (DFrame f, rest) =>
        (DFrame f, with_buf (with_inner t (route_frame f (t_inner t))) rest [f])
      | (Corrupt p, _) => (Corrupt p, with_buf t [] [])
      | (Incomplete, _) => (Incomplete, t)
      end);
    match decoded with
    | DFrame _ => drain fuel
    | Corrupt _ => mret false
    | Incomplete => mret true
    end
  end.

(** [recv_task]: first it subscribes; after its loop it closes the multiplexer, and its
    [OutputStream] is dropped. *)
Definition recv_task : Io bool :=
  out ← gets t_output;
  match out with
  | None =>
    _ ← modify (λ t, with_output (below Subscribe t) (Some (next_stream (out_of t)))); mret true
  | Some i =>
    let stop reason :=
      _ ← close reason; _ ← modify (below (DropStream i)); mret false in
    d ← die_notified;
    chunk ← wait (λ t,
      if woken (t_die t) d then Some (Ok None, t)
      else match (recv i (out_of t)).1 with
           | Item c => Some (Ok (Some (Some c)), below (Receive i) t)
           | Ended => Some (Ok (Some None), below (Receive i) t)
           | Pending_ => None
           end);
    match chunk with
    | None => stop Clean
    | Some None =>
      lost ← gets (λ t, from_option lagged false (Channels.streams (out_of t) !! i));
      stop (if lost : bool then Desynchronised else Clean)
    | Some (Some c) =>
      _ ← modify (λ t, with_buf t (t_buf t ++ c) []);
      fuel ← gets (λ t, S (length (t_buf t)));
      fine ← drain fuel;
      if fine : bool then mret true else stop Desynchronised
    end
  end.

(** After its loop [send_task] closes the multiplexer; returning drops its receiver. *)
Definition stop_send : Io bool :=
  _ ← close Clean;
  _ ← modify (λ t, with_queue t (drop_rx (frames (t_inner t))));
  mret false.

Definition send_task : Io bool :=
  d ← die_notified;
  over ← gets (λ t, Mux.is_closed (t_inner t));
  if over : bool then stop_send
  else
    frame ← wait (λ t,
      if woken (t_die t) d || closed_resolves (w_core (session_of t)) then Some (Ok None, t)
      else match poll_recv (frames (t_inner t)) with
           | (Item f, q) => Some (Ok (Some f), with_queue t q)
           | (Ended, q) => Some (Ok None, with_queue t q)
           | (Pending_, _) => None
           end);
    match frame with
    | None => stop_send
    | Some f =>
      d ← die_notified;
      sent ← wait (λ t,
        if woken (t_die t) d then Some (Ok false, t)
        else match (session_send f (handle (session_of t))).1 with
             | Some (Ok _) => Some (Ok true, add_sent (below (Submit (Data f)) t) f)
             | Some (Err _) => Some (Ok false, t)
             | None => None
             end);
      if sent : bool then mret true else stop_send
    end.

(** A round of [keepalive_task]. *)
Definition keepalive_task : Io bool :=
  d ← die_notified;
  due ← wait (λ t, if woken (t_die t) d then Some (Ok false, t)
                   else if t_tick t then Some (Ok true, with_tick t false) else None);
  if negb (due : bool) then mret false
  else
    sent ← act (λ t, let '(r, q) := try_send (control CMD_NOP 0) (frames (t_inner t)) in
                     (match r with Sent => true | _ => false end, with_inner t (set_frames (t_inner t) q)));
    over ← gets (λ t, Mux.is_closed (t_inner t));
    mret (negb (negb sent && over)).

Definition body (m : MuxTask) : Io bool :=
  match m with
  | Recv => recv_task
  | Send => send_task
  | Keepalive => keepalive_task
  | Owner => _ ← close Clean; mret false      (* Drop for SmuxSession *)
  end.

(** ** The streams above *)

Definition use (op : StreamOp) (t : Tunnel) : Tunnel :=
  (* a stream is borrowed mutably for the whole of a read *)
  let on h (f : SmuxStream → Tunnel) :=
    match t_streams t !! h with
    | Some s => if decide (h ∈ t_reading t) then t else f s
    | None => t
    end in
  match op with
  | OpOpen =>
    match open_stream (t_inner t) with
    | (Ok s, i) => with_streams (with_inner t i) (<[cell s := s]> (t_streams t)) (t_reading t)
                     (<[cell s := (length (t_routed t), [])]> (t_ledger t))
    | (Err _, i) => with_inner t i
    end
  | OpRead h n => on h (λ s, let '(r, s', i) := poll_queue n s (t_inner t) in
      with_streams (with_inner t i) (<[h := s']> (t_streams t))
        (match r with None => {[h]} ∪ t_reading t | Some _ => t_reading t end)
        (alter (λ '(k, got), (k, got ++ read_bytes r)) h (t_ledger t)))
  | OpFlag h =>
    match t_streams t !! h with
    | Some s =>
      if decide (h ∈ t_reading t) then
        with_streams t (<[h := (poll_flag s (t_inner t)).2]> (t_streams t)) (t_reading t ∖ {[h]}) (t_ledger t)
      else t
    | None => t
    end
  | OpWrite h buf => on h (λ s,
      match poll_write buf s (t_inner t) with
      | (Wrote n, i) => add_written (with_inner t i) (sid s) (take (Z.to_nat n) buf)
      | (_, i) => with_inner t i
      end)
  | OpShutdown h => on h (λ s, let '(_, s', i) := poll_shutdown s (t_inner t) in
      with_streams (with_inner t i) (<[h := s']> (t_streams t)) (t_reading t) (t_ledger t))
  | OpDrop h => on h (λ s, with_streams (with_inner t (Mux.drop_stream s (t_inner t)))
                             (delete h (t_streams t)) (t_reading t) (t_ledger t))
  end.

(** ** The whole *)

Inductive TunnelEvent :=
| Below (ev : Event)
| MuxPoll (m : MuxTask)
| KeepaliveTick
| Use (op : StreamOp).

(** Nobody else reads or drops the receive task's stream. *)
Definition owned (ev : Event) (t : Tunnel) : bool :=
  match ev with
  | Receive i | DropStream i => bool_decide (t_output t = Some i)
  | _ => false
  end.

Abbreviation System := (Sys Tunnel Error MuxTask).

(** [SmuxSession::new] over a session. *)
Definition smux_new (keepalive : bool) (x : Channel) : System :=
  {| s_world := {| t_channel := x; t_inner := Inner_new; t_die := notify_new; t_output := None;
                   t_buf := []; t_tick := false; t_streams := ∅; t_reading := ∅; t_ledger := ∅;
                   t_written := []; t_routed := [];
                   t_posted := []; t_sent := [] |};
     s_task := λ m, if decide (m = Keepalive ∧ keepalive = false) then Stopped else at_head |}.

Definition tunnel_step (x : System) (ev : TunnelEvent) : System :=
  let t := s_world x in
  let on t' := {| s_world := t'; s_task := s_task x |} in
  match ev with
  | Below ev => if owned ev t then x else on (below ev t)
  | MuxPoll m => poll body m x
  | KeepaliveTick => on (with_tick t true)
  | Use op => on (use op t)
  end.
Definition tunnel_run (x : System) (evs : list TunnelEvent) : System := foldl tunnel_step x evs.

(** ** The channel below *)

Context `{!MpscOk C}.
Context (agent : list ClientMessage) (base : nat) (w0 : World (C := C)).
Implicit Types (t : Tunnel) (x : Channel).

Definition reach t : Prop :=
  ∃ evs, t_channel t = sys_run timeout (spawn w0) evs ∧ Forall (event_from_agent agent) evs.
Definition given t : gmap nat (list (list byte)) := (handed (session_of t)).1.
Definition accepted t : list Command := (handed (session_of t)).2.

Lemma reach_below ev t : event_from_agent agent ev → reach t → reach (below ev t).
Proof.
  intros Hev (evs & Ht & Hevs). exists (evs ++ [ev]). split; [|apply Forall_app_2; [done|by constructor]].
  unfold sys_run. rewrite foldl_app. cbn. by rewrite Ht.
Qed.

Section Below.
Context (starts0 : starts agent base w0).

Lemma reach_tidy t :
  reach t → streams_ok (session_of t) ∧ ∀ c, task_keeps True tidy (s_task (t_channel t) c).
Proof.
  intros (evs & Ht & _). unfold session_of. rewrite Ht.
  destruct (tidy_run timeout evs (spawn w0)) as (_ & ? & _ & ?); [done|exact (starts_streams agent base w0 starts0)|done].
Qed.

(** The channel's own steps. *)
Lemma tasks_step x ev :
  (∀ c, task_keeps True tidy (s_task x c)) →
  match ev with
  | Poll _ | Abort _ =>
    handed (s_world (sys_step timeout x ev)) = handed (s_world x)
    ∧ ∀ i, live i (fanout (w_core (s_world x))) →
        live i (fanout (w_core (s_world (sys_step timeout x ev))))
  | _ => True
  end.
Proof.
  intros Hx. destruct ev as [c| | | | | | | | | | | |c]; try done; cbn [sys_step].
  - destruct (poll_sys_keeps (Connection.body timeout) True tidy c x) as [(_ & ? & _) _];
      [done|apply tidy_body|done|done].
  - destruct (finished _); [done|]. unfold release, handed. by destruct (decide _), c.
Qed.

Lemma below_accepted ev t :
  reach t → match ev with Submit _ => False | _ => True end → accepted (below ev t) = accepted t.
Proof.
  intros [_ Hk]%reach_tidy Hev.
  change ((handed (s_world (sys_step timeout (t_channel t) ev))).2
          = (handed (s_world (t_channel t))).2).
  pose proof (tasks_step _ ev Hk) as Hs.
  destruct ev; try done; [by rewrite (proj1 Hs)| |by rewrite (proj1 Hs)].
  cbn. unfold sink_done. destruct (n_sink _); [|destruct e|..]; done.
Qed.

Lemma below_live i ev t :
  reach t → ev ≠ DropStream i → live i (out_of t) → live i (out_of (below ev t)).
Proof.
  intros [Hok Hk]%reach_tidy Hev. unfold out_of, session_of in *.
  change (t_channel (below ev t)) with (sys_step timeout (t_channel t) ev).
  pose proof (tasks_step _ ev Hk) as Hs.
  destruct ev; try done; try (by apply (proj2 Hs)); cbn [sys_step s_world outside].
  - unfold sink_done. destruct (n_sink _); [|destruct e|..]; done.
  - unfold submit. by destruct (dispatch _ _) as [[[]|] ?].
  - cbn. unfold core_close. destruct (core_closed _); [done|]. apply live_close.
  - unfold fan_op. rewrite core_subscribe_fanout. by apply (live_subscribe _ _ _ _ (proj1 Hok)).
  - apply live_recv.
  - apply live_drop. congruence.
Qed.

Lemma below_given i got ev t :
  reach t → ev ≠ Receive i → given t !! i = Some got → given (below ev t) !! i = Some got.
Proof.
  intros [Hok Hk]%reach_tidy Hev. unfold given, session_of in *.
  change (t_channel (below ev t)) with (sys_step timeout (t_channel t) ev).
  pose proof (tasks_step _ ev Hk) as Hs.
  destruct ev; try done; try (by rewrite (proj1 Hs)); cbn [sys_step s_world outside].
  - unfold sink_done. destruct (n_sink _); [|destruct e|..]; done.
  - unfold submit. by destruct (dispatch _ _) as [[[]|] ?].
  - unfold handed, fan_op. cbn. intros Hi. destruct Hok as [Hinv _].
    destruct (subscribe _ _) as [j f] eqn:Es. cbn [snd]. rewrite fmap_insert, lookup_insert_ne; [done|].
    intros <-. apply lookup_fmap_Some in Hi as ([g o] & _ & Hi).
    assert (Hj : (j < next_stream (fanout (w_core (s_world (t_channel t)))))%nat).
    { apply (inv_fresh _ _ Hinv). apply (inv_dom _ _ Hinv). by exists (g, o). }
    unfold subscribe in Es. destruct (closed _) in Es; injection Es as <- _; lia.
  - unfold handed, fan_op. cbn. destruct (recv _ _) as [[]]; try done. cbn.
    rewrite !lookup_fmap, lookup_alter_ne by congruence. done.
Qed.

(** The multiplexer is the only one to send through the session, and what arrives comes
    from the agent. *)
Definition through (ev : TunnelEvent) : Prop :=
  match ev with
  | Below (Submit _) => False
  | Below ev => event_from_agent agent ev
  | _ => True
  end.

(** ** What is sent *)

(** Steps that are not the send task's: they may queue frames. *)
Definition posts t t' : Prop :=
  (reach t → reach t' ∧ accepted t' = accepted t) ∧ t_sent t' = t_sent t
  ∧ ∃ fs, grows (t_inner t) (t_inner t') fs ∧ t_posted t' = t_posted t ++ fs.

Inductive Sending :=
| Hold (f : option (list byte))      (* has taken this frame and not handed it over *)
| Gone.

Definition sends (m : MuxTask) (k : Sending) t : Prop :=
  reach t ∧
  if decide (m = Send) then
    accepted t = Data <$> t_sent t
    ∧ match k with
      | Hold f => rx_alive (frames (t_inner t)) = true
                  ∧ t_posted t = t_sent t ++ option_list f ++ queued (frames (t_inner t))
      | Gone => rx_alive (frames (t_inner t)) = false ∧ t_sent t `prefix_of` t_posted t
      end
  else True.

Lemma posts_sends m k t t' : posts t t' → sends m k t → sends m k t'.
Proof.
  intros (Hr & Hs & fs & (Ha & Hq & _) & Hp) [Hreach Hk]. destruct (Hr Hreach) as [Hr' Hacc].
  split; [done|]. case_decide; [|done]. destruct Hk as [Hk1 Hk2]. rewrite Hacc, Hs. split; [done|].
  destruct k; destruct Hk2 as [? Hk2]; (split; [congruence|]); rewrite Hp.
  - by rewrite Hk2, Hq, <- !app_assoc.
  - by apply prefix_app_r.
Qed.

(** A step that leaves the table, the channel and what was sent alone. *)
Lemma posts_same t t' :
  t_channel t' = t_channel t → t_inner t' = t_inner t → t_sent t' = t_sent t →
  t_posted t' = t_posted t → posts t t'.
Proof.
  intros Hc Hi Hs Hp. unfold posts, reach, accepted, session_of. rewrite Hc, Hi, Hs, Hp.
  split_and!; [done|done|]. exists []. unfold grows. by rewrite !app_nil_r.
Qed.

Lemma posts_refl t : posts t t.
Proof. by apply posts_same. Qed.

Lemma posts_inner t i : grows_quiet (t_inner t) i ∨ (∃ fs, grows (t_inner t) i fs) → posts t (with_inner t i).
Proof.
  intros Hg. assert (∃ fs, grows (t_inner t) i fs) as [fs Hfs] by (destruct Hg as [(fs & ? & _)|]; eauto).
  split_and!; [done|done|]. exists fs. split; [done|]. cbn. destruct Hfs as (_ & -> & _).
  by rewrite drop_app_length.
Qed.

Lemma posts_below ev t :
  event_from_agent agent ev → match ev with Submit _ => False | _ => True end → posts t (below ev t).
Proof.
  intros Hev Hns. split_and!; [|done|exists []; unfold grows; by rewrite !app_nil_r].
  intros Hr. split; [by apply reach_below|by apply below_accepted].
Qed.

Lemma posts_trans t1 t2 t3 : posts t1 t2 → posts t2 t3 → posts t1 t3.
Proof.
  intros (Hr & Hs & fs & (Ha & Hq & Hd) & Hp) (Hr' & Hs' & gs & (Ha' & Hq' & Hd') & Hp').
  split_and!; [intros Hx; destruct (Hr Hx) as [Hy ?]; destruct (Hr' Hy); split; [done|congruence]|congruence|].
  exists (fs ++ gs). split; [split_and!|].
  - congruence.
  - by rewrite Hq', Hq, app_assoc.
  - intros Hx. by rewrite (Hd Hx), (Hd' ltac:(congruence)).
  - by rewrite Hp', Hp, app_assoc.
Qed.

Lemma grows_frames (i i' : Inner (C := C)) : frames i' = frames i → grows_quiet i i' ∨ (∃ fs, grows i i' fs).
Proof. left. by apply grows_same. Qed.

Lemma close_posts L r : keeps L posts (close r).
Proof.
  unfold close. apply keeps_bind.
  { apply keeps_act. intros t. by apply posts_inner, grows_frames. }
  intros []; [apply keeps_res|]. apply keeps_bind; [|intros _].
  - apply keeps_act. intros t. by apply posts_same.
  - apply keeps_act. intros t. by apply posts_inner, grows_frames.
Qed.

Lemma die_posts L : keeps L posts die_notified.
Proof. apply keeps_act. intros t. destruct (enable _). by apply posts_same. Qed.

Lemma drain_posts fuel : keeps True posts (drain fuel).
Proof.
  induction fuel as [|fuel IH]; [done|]. cbn [drain]. apply keeps_bind.
  - apply keeps_act. intros t. destruct (decode_frame _) as [[f| |p] rest];
      [|apply posts_refl|by apply posts_same].
    eapply posts_trans; [apply posts_inner; left; apply grows_route|by apply posts_same].
  - intros [f| |p]; [apply IH|apply keeps_res..].
Qed.

Lemma recv_posts : keeps True posts recv_task.
Proof.
  unfold recv_task. apply keeps_bind; [apply keeps_act; intros t; apply posts_refl|].
  intros [i|]; [|apply keeps_bind; [|intros _; apply keeps_res]].
  2: { apply keeps_act. intros t. cbn [snd]. eapply posts_trans; [by apply (posts_below Subscribe)|].
       by apply posts_same. }
  assert (Hstop : ∀ r, keeps True posts (_ ← close r; _ ← modify (below (DropStream i)); mret false)).
  { intros r. apply keeps_bind; [apply close_posts|intros _].
    apply keeps_bind; [|intros _; apply keeps_res]. apply keeps_act. intros t. by apply posts_below. }
  apply keeps_bind; [apply die_posts|intros d]. apply keeps_bind.
  { apply keeps_wait. intros t. destruct (woken _ _); [apply posts_refl|].
    destruct (recv i _).1; [by apply posts_below..|done]. }
  intros [[c|]|]; [| |apply Hstop].
  - apply keeps_bind; [apply keeps_act; intros t; by apply posts_same|intros _].
    apply keeps_bind; [apply keeps_act; intros t; apply posts_refl|intros n].
    apply keeps_bind; [apply drain_posts|]. intros []; [apply keeps_res|apply Hstop].
  - apply keeps_bind; [apply keeps_act; intros t; apply posts_refl|]. intros b. apply Hstop.
Qed.

Lemma keepalive_posts : keeps True posts keepalive_task.
Proof.
  unfold keepalive_task. apply keeps_bind; [apply die_posts|intros d]. apply keeps_bind.
  { apply keeps_wait. intros t. destruct (woken _ _); [apply posts_refl|].
    destruct (t_tick t); [by apply posts_same|done]. }
  intros []; cbn [negb]; [|apply keeps_res]. apply keeps_bind.
  { apply keeps_act. intros t. destruct (try_send _ _) as [r q] eqn:Er. cbn [snd].
    apply posts_inner. right. eexists. by apply (grows_try _ _ _ _ _ Er). }
  intros b. apply keeps_bind; [apply keeps_act; intros t; apply posts_refl|intros b'; apply keeps_res].
Qed.

Lemma others_post m : m ≠ Send → keeps True posts (body m).
Proof.
  destruct m; cbn [body]; [intros _; apply recv_posts|done|intros _; apply keepalive_posts|intros _].
  apply keeps_bind; [apply close_posts|intros _; apply keeps_res].
Qed.

Lemma use_posts op t : posts t (use op t).
Proof.
  assert (Hi : ∀ i m r l, grows_quiet (t_inner t) i → posts t (with_streams (with_inner t i) m r l)).
  { intros i m r l Hg. eapply posts_trans; [apply posts_inner; by left|by apply posts_same]. }
  destruct op as [|h n|h|h buf|h|h]; cbn [use];
    try (destruct (t_streams t !! h) as [s|]; [destruct (decide (h ∈ t_reading t))|]); try by apply posts_same.
  - pose proof (grows_open (t_inner t)) as Hg. destruct (open_stream _) as [[s|e] i]; [by apply Hi|].
    apply posts_inner. by left.
  - pose proof (read_frames n s (t_inner t)) as Hg. destruct (poll_queue _ _ _) as [[r s'] i].
    apply Hi. by apply grows_same.
  - pose proof (grows_write buf s (t_inner t)) as Hg. destruct (poll_write _ _ _) as [r i].
    specialize (Hg r i eq_refl). destruct r.
    + eapply posts_trans; [apply posts_inner; right; eexists; apply Hg|by apply posts_same].
    + subst i. apply posts_inner. by apply grows_frames.
    + subst i. apply posts_inner. by apply grows_frames.
  - pose proof (grows_shutdown s (t_inner t)) as Hg. destruct (poll_shutdown _ _) as [[r s'] i]. by apply Hi.
  - apply Hi, grows_drop.
Qed.

Abbreviation send_fine m :=
  (body_fine body sends (λ _ _ _, True) (λ m _, m ≠ Send)
     (λ m k, if decide (m = Send) then k = Hold None else True) (λ _ _, True) (λ _ _, True) m).
Abbreviation send_ok := (sys_ok (E := Error) sends (λ _ _ _, True) (λ m _, m ≠ Send)
  (λ m k, if decide (m = Send) then k = Hold None else True) (λ _ _, True) (λ _ _, True)).
Abbreviation send_wp := (wp (E := Error) (sends Send) (guarantee sends Send) (λ _ _, True) (λ _, Send ≠ Send)).

Lemma posts_guarantee m k t t' : posts t t' → sends m k t → guarantee sends m k t k t'.
Proof. intros Hp Hk. split; [by eapply posts_sends|]. intros j kj _. by apply posts_sends. Qed.

Lemma others_send_fine m : m ≠ Send → send_fine m.
Proof.
  intros Hne k _. unfold task_fine, task_ok. eapply wp_keeps; [by intros _| |by apply others_post|].
  - intros s s' Hs. by apply posts_guarantee.
  - intros r. by destruct r as [[]|]; rewrite ?decide_False.
Qed.

(** The send task's own steps. *)
Lemma send_wp_keeps {A} (p : Io A) (Q : Res A → Sending → Prop) k :
  keeps False posts p → (∀ r, Q r k) → send_wp p Q k.
Proof.
  intros Hp HQ. apply (wp_keeps _ _ _ _ False posts); [done| |exact Hp|done].
  intros t t' Ht. by apply posts_guarantee.
Qed.

Lemma guarantee_send k k' t t' :
  sends Send k' t' → guarantee sends Send k t k' t'.
Proof.
  intros Hk. split; [done|]. intros j kj Hne [_ _]. split; [apply Hk|]. by rewrite decide_False.
Qed.

Abbreviation send_end := (λ (r : Res bool) k, match r with Ok true => k = Hold None | _ => True end).

Lemma stop_send_wp k : send_wp stop_send send_end k.
Proof.
  unfold stop_send. apply wp_bind, send_wp_keeps; [apply close_posts|]. intros [[]|e]; [|done].
  apply wp_bind, wp_modify. intros t [Hr Hk]. exists Gone. split; [|done]. apply guarantee_send.
  split; [done|]. rewrite decide_True in * by done. destruct Hk as [Ha Hk]. split; [done|]. cbn.
  split; [apply drop_rx_spec|]. destruct k; [|apply Hk]. destruct Hk as [_ ->]. by apply prefix_app_r.
Qed.

Lemma send_task_wp : send_wp send_task send_end (Hold None).
Proof.
  unfold send_task. apply wp_bind, send_wp_keeps; [apply die_posts|]. intros [d|e]; [|done].
  apply wp_bind, send_wp_keeps; [apply keeps_act; intros t; apply posts_refl|].
  intros [over|e]; [|done]. destruct over; [apply stop_send_wp|].
  apply wp_bind, wp_wait. intros t Ht. destruct (_ || _).
  { exists (Hold None). split; [by apply guarantee_send|]. apply stop_send_wp. }
  destruct Ht as [Hr Ht]. rewrite decide_True in Ht by done. destruct Ht as (Ha & Hrx & Hp).
  destruct (poll_recv (frames (t_inner t))) as [[f| |] q] eqn:Eq; apply poll_recv_inv in Eq; [| |done].
  2: { destruct Eq as (Hq & _ & ->). exists (Hold None). split; [|apply stop_send_wp].
       apply guarantee_send. split; [done|]. by rewrite decide_True. }
  destruct Eq as (Hq & _ & Hrx' & _). exists (Hold (Some f)). split.
  { apply guarantee_send. split; [done|]. rewrite decide_True by done. split; [done|]. cbn.
    split; [congruence|]. rewrite Hp, Hq. done. }
  apply wp_bind, send_wp_keeps; [apply die_posts|]. intros [d'|e]; [|done].
  clear t Hr Ha Hrx Hp q Hq Hrx'. apply wp_bind, wp_wait. intros t Ht. destruct (woken _ _).
  { exists (Hold (Some f)). split; [by apply guarantee_send|]. apply stop_send_wp. }
  destruct Ht as [Hr Ht]. rewrite decide_True in Ht by done. destruct Ht as (Ha & Hrx & Hp).
  destruct (session_send f (handle (session_of t))) as [[[[]|e]|] s'] eqn:Es; cbn [fst]; [| |done].
  - exists (Hold None). split; [|done]. apply guarantee_send. split; [by apply (reach_below (Submit (Data f)))|].
    rewrite decide_True by done. split.
    + unfold accepted, handed in *. cbn. unfold submit. unfold session_send, session_of in Es. rewrite Es.
      cbn. rewrite fmap_app. f_equal. exact Ha.
    + cbn. split; [done|]. by rewrite Hp, <- !app_assoc.
  - exists (Hold (Some f)). split; [|apply stop_send_wp]. apply guarantee_send. split; [done|].
    by rewrite decide_True.
Qed.

Lemma send_all_fine m : send_fine m.
Proof.
  destruct (decide (m = Send)) as [->|]; [|by apply others_send_fine]. intros k Hk.
  rewrite decide_True in Hk by done. subst k. unfold task_fine, task_ok. eapply wp_mono, send_task_wp.
  by intros [[]|e] k.
Qed.

Lemma send_step (x : System) ev :
  through ev → send_ok x → send_ok (tunnel_step x ev).
Proof.
  intros Hev Hx.
  assert (Hout : ∀ t, posts (s_world x) t → send_ok {| s_world := t; s_task := s_task x |}).
  { intros t Ht. apply outside_sys; [|done]. intros j k. by apply posts_sends. }
  destruct ev as [ev|m| |op]; cbn [tunnel_step].
  - destruct (owned ev (s_world x)); [done|]. apply Hout, posts_below; by destruct ev.
  - apply poll_sys; [apply send_all_fine|done].
  - apply Hout. by apply posts_same.
  - apply Hout, use_posts.
Qed.

Lemma send_run evs : ∀ x : System, Forall through evs → send_ok x → send_ok (tunnel_run x evs).
Proof.
  induction evs as [|ev evs IH]; intros x Hevs Hx; [done|]. apply Forall_cons in Hevs as [Hev Hevs].
  apply IH; [done|by apply send_step].
Qed.

Lemma spawn_sends ka : send_ok (smux_new ka (spawn w0)).
Proof.
  exists (λ _, Hold None). intros m. split; [split; [by exists []|]|].
  - case_decide; [|done]. split; [|split].
    + unfold accepted, handed, session_of. cbn. by rewrite (st_history _ _ _ starts0).
    + by destruct (channel_spec (C := C) (A := list byte) FRAME_QUEUE_DEPTH ltac:(done)) as (_ & _ & ? & _).
    + cbn. by destruct (channel_spec (C := C) (A := list byte) FRAME_QUEUE_DEPTH ltac:(done)) as (-> & _).
  - unfold task_fine, task_ok, smux_new. cbn. destruct (decide (m = Keepalive ∧ _)); [done|]. cbn. by case_decide.
Qed.

(** What a channel and a send task that follow the rules above have done. *)
Lemma sent_chain (x : System) :
  1 ≤ w_chunk_size w0 →
  queued (n_commands (w_net w0)) = [] → rx_alive (n_commands (w_net w0)) = true →
  send_ok x →
  let t := s_world x in
  concat (by_commands (session_of t)).*2 `prefix_of` concat (t_sent t)
  ∧ t_sent t `prefix_of` t_posted t.
Proof.
  intros Hc Hq Hrx [κ Hx] t. destruct (Hx Send) as [[(bes & Hr & _) Hs] _].
  rewrite decide_True in Hs by done. destruct Hs as [Ha Hk]. fold t in Hr, Ha, Hk.
  destruct (commands_after timeout w0 bes Hc (st_history _ _ _ starts0) Hq Hrx) as [κ' Hx'].
  destruct (Hx' Commands) as [[[Hf1 _] Hk'] _]. rewrite decide_True in Hk' by done.
  destruct Hk' as [Hp _]. rewrite <- Hr in Hp, Hf1. split.
  - destruct Hp as [l Hl], Hf1 as [l' Hl'].
    rewrite <- (meaning_data (Z.to_nat (w_chunk_size w0)) (t_sent t)) by lia. rewrite <- Ha.
    unfold accepted, handed, session_of. cbn [snd]. rewrite Hl'. unfold meaning in Hl |- *.
    rewrite fmap_app, concat_app, Hl, <- app_assoc, fmap_app, concat_app. by apply prefix_app_r.
  - destruct (κ Send) as [f|]; destruct Hk as [_ Hk]; [rewrite Hk; by apply prefix_app_r|done].
Qed.

(** ** What is received *)

Context (agent_seq : ∀ k m, agent !! k = Some m → sequence_number m = Z.of_nat k).
Context (agent_len : #agent < 2 ^ 63).
Context (readable0 : all_readable agent base (cipher (stream w0))).

(** A stretch of the agent's output. *)
Definition piece (got : list (list byte)) : Prop :=
  ∃ before rest, outputs (cipher (stream w0)) (drop base agent) = before ++ got ++ rest.

Lemma live_piece i got t : reach t → live i (out_of t) → given t !! i = Some got → piece got.
Proof.
  intros (evs & Ht & Hevs) (st & Hst & Hrx) Hg.
  destruct (inbound_after agent base agent_seq agent_len timeout w0 evs starts0 Hevs) as (Hok & _ & Hs).
  rewrite <- Ht in Hok, Hs. apply lookup_fmap_Some in Hg as ([g o] & [= ->] & Hh).
  destruct (offered_split _ i st got o Hs Hst Hh Hrx) as (lost & -> & _).
  destruct (proj2 (proj2 Hs) i got _ Hh) as (before & after & Hem & _).
  destruct (emitted_prefix agent base w0 _ Hok readable0) as [l Hl].
  exists before, (queued (rx st) ++ lost ++ after ++ l). by rewrite Hl, Hem, <- !app_assoc.
Qed.

(** Steps that are not the receive task's. *)
Definition aside t t' : Prop :=
  (reach t → reach t') ∧ t_output t' = t_output t ∧ t_buf t' = t_buf t ∧ t_routed t' = t_routed t
  ∧ ∀ i, t_output t = Some i → reach t →
      (live i (out_of t) → live i (out_of t'))
      ∧ ∀ got, given t !! i = Some got → given t' !! i = Some got.

Inductive Receiving :=
| Unsubscribed
| Reading (i : nat) (chunk : list byte) (bound : option nat)   (* a chunk not in the buffer yet *)
| Over (i : nat).

Definition routed_bytes t : list byte := concat (enc <$> t_routed t).

Definition receives (m : MuxTask) (k : Receiving) t : Prop :=
  reach t ∧
  if decide (m = Recv) then
    match k with
    | Unsubscribed => t_output t = None ∧ t_buf t = [] ∧ t_routed t = []
    | Reading i c bound =>
      t_output t = Some i ∧ live i (out_of t)
      ∧ (∃ got, given t !! i = Some got ∧ concat got = routed_bytes t ++ t_buf t ++ c)
      ∧ from_option (λ n, (length (t_buf t) < n)%nat) True bound
    | Over i =>
      t_output t = Some i
      ∧ ∃ got, given t !! i = Some got ∧ routed_bytes t `prefix_of` concat got ∧ piece got
    end
  else True.

Lemma aside_receives m k t t' : aside t t' → receives m k t → receives m k t'.
Proof.
  intros (Hr & Ho & Hb & Hd & Hl) [Hreach Hk]. split; [by apply Hr|]. case_decide; [|done].
  destruct k as [|i c bound|i]; unfold routed_bytes in *; rewrite Ho, ?Hb, Hd; [done|..].
  - destruct Hk as (Hi & Hlive & (got & Hg & Hc) & Hbd). destruct (Hl i Hi Hreach). split_and!; eauto.
  - destruct Hk as (Hi & got & Hg & Hc). destruct (Hl i Hi Hreach). eauto 10.
Qed.

(** Any step that leaves the channel and the receive task's state alone. *)
Lemma aside_same t t' :
  t_channel t' = t_channel t → t_output t' = t_output t → t_buf t' = t_buf t →
  t_routed t' = t_routed t → aside t t'.
Proof.
  intros Hc Ho Hb Hr. unfold aside, reach, given, out_of, session_of. rewrite Hc. by split_and!.
Qed.

Lemma aside_below ev t :
  event_from_agent agent ev → owned ev t = false → aside t (below ev t).
Proof.
  intros Hev Hno. split_and!; try done; [by apply reach_below|]. intros i Hi Hr. split.
  - apply below_live; [done|]. intros ->. cbn in Hno. by rewrite bool_decide_eq_false in Hno.
  - intros got. apply below_given; [done|]. intros ->. cbn in Hno. by rewrite bool_decide_eq_false in Hno.
Qed.

Lemma close_aside L r : keeps L aside (close r).
Proof.
  unfold close. apply keeps_bind; [apply keeps_act; intros t; by apply aside_same|].
  intros []; [apply keeps_res|].
  apply keeps_bind; [|intros _]; apply keeps_act; intros t; by apply aside_same.
Qed.
Lemma die_aside L : keeps L aside die_notified.
Proof. apply keeps_act. intros t. destruct (enable _). by apply aside_same. Qed.
Lemma gets_aside L {A} (f : Tunnel → A) : keeps (E := Error) L aside (gets f).
Proof. apply keeps_act. intros t. by apply aside_same. Qed.

Lemma others_aside m : m ≠ Recv → keeps True aside (body m).
Proof.
  assert (Hstop : keeps True aside stop_send).
  { unfold stop_send. apply keeps_bind; [apply close_aside|intros _].
    apply keeps_bind; [|intros _; apply keeps_res]. apply keeps_act. intros t. by apply aside_same. }
  intros Hne. destruct m; cbn [body]; [done|..].
  - unfold send_task. apply keeps_bind; [apply die_aside|intros d].
    apply keeps_bind; [apply gets_aside|]. intros []; [apply Hstop|]. apply keeps_bind.
    { apply keeps_wait. intros t. destruct (_ || _); [by apply aside_same|].
      destruct (poll_recv _) as [[] q]; by try apply aside_same. }
    intros [f|]; [|apply Hstop]. apply keeps_bind; [apply die_aside|intros d'].
    apply keeps_bind; [|intros []; [apply keeps_res|apply Hstop]].
    apply keeps_wait. intros t. destruct (woken _ _); [by apply aside_same|].
    destruct (session_send _ _).1 as [[]|]; [|by apply aside_same|done].
    exact (aside_below (Submit (Data f)) t I eq_refl).
  - unfold keepalive_task. apply keeps_bind; [apply die_aside|intros d]. apply keeps_bind.
    { apply keeps_wait. intros t. destruct (woken _ _); [by apply aside_same|].
      destruct (t_tick t); [by apply aside_same|done]. }
    intros []; cbn [negb]; [|apply keeps_res]. apply keeps_bind.
    { apply keeps_act. intros t. destruct (try_send _ _). by apply aside_same. }
    intros b. apply keeps_bind; [apply gets_aside|intros b'; apply keeps_res].
  - apply keeps_bind; [apply close_aside|intros _; apply keeps_res].
Qed.

Lemma use_aside op t : aside t (use op t).
Proof.
  destruct op as [|h n|h|h buf|h|h]; cbn [use];
    try (destruct (t_streams t !! h) as [s|]; [destruct (decide (h ∈ t_reading t))|]);
    try (by apply aside_same).
  - destruct (open_stream _) as [[s|e] i]; by apply aside_same.
  - destruct (poll_queue _ _ _) as [[r s'] i]. by apply aside_same.
  - destruct (poll_write _ _ _) as [[] i]; by apply aside_same.
  - destruct (poll_shutdown _ _) as [[r s'] i]. by apply aside_same.
Qed.

Lemma out_below ev t :
  out_of (below ev t) = fanout (w_core (s_world (sys_step timeout (t_channel t) ev))).
Proof. done. Qed.

(** Subscribing gives a stream nobody has read from. *)
Lemma subscribed t :
  reach t →
  let i := next_stream (out_of t) in
  live i (out_of (below Subscribe t)) ∧ given (below Subscribe t) !! i = Some [].
Proof.
  intros Hr i. rewrite out_below. cbn [sys_step s_world outside]. split.
  - unfold fan_op. rewrite core_subscribe_fanout. cbn. subst i. unfold out_of, session_of, live, subscribe.
    destruct (closed _); cbn; rewrite lookup_insert_eq; (eexists; split; [done|]); cbn.
    + destruct (drop_tx_spec (channel (C := C) (A := list byte) 1)) as (_ & _ & -> & _).
      apply channel_spec. lia.
    + apply channel_spec. lia.
  - unfold given, handed, session_of. cbn. subst i. unfold out_of, session_of, subscribe.
    destruct (closed _); cbn; by rewrite fmap_insert, lookup_insert_eq.
Qed.

(** Reading from it. *)
Lemma received i t got :
  given t !! i = Some got →
  given (below (Receive i) t) !! i
  = Some match (recv i (out_of t)).1 with Item c => got ++ [c] | _ => got end.
Proof.
  unfold given, handed, session_of, out_of, session_of. cbn. intros Hg.
  destruct (recv i _) as [[c| |] f]; cbn; [|done..].
  apply lookup_fmap_Some in Hg as ([g o] & [= ->] & Hh).
  by rewrite lookup_fmap, lookup_alter_eq, Hh.
Qed.

Abbreviation at_loop k := (k = Unsubscribed ∨ ∃ i, k = Reading i [] None).
Abbreviation recv_loop := (λ m k, if decide (m = Recv) then at_loop k else True).
Abbreviation recv_fine m :=
  (body_fine body receives (λ _ _ _, True) (λ m _, m ≠ Recv) recv_loop (λ _ _, True) (λ _ _, True) m).
Abbreviation recv_ok := (sys_ok (E := Error) receives (λ _ _ _, True) (λ m _, m ≠ Recv) recv_loop
  (λ _ _, True) (λ _ _, True)).
Abbreviation recv_wp :=
  (wp (E := Error) (receives Recv) (guarantee receives Recv) (λ _ _, True) (λ _, Recv ≠ Recv)).

Lemma aside_guarantee m k t t' : aside t t' → receives m k t → guarantee receives m k t k t'.
Proof. intros Hp Hk. split; [by eapply aside_receives|]. intros j kj _. by apply aside_receives. Qed.

Lemma others_recv_fine m : m ≠ Recv → recv_fine m.
Proof.
  intros Hne k _. unfold task_fine, task_ok. eapply wp_keeps; [by intros _| |by apply others_aside|].
  - intros s s' Hs. by apply aside_guarantee.
  - intros r. by destruct r as [[]|]; rewrite ?decide_False.
Qed.

(** The receive task's own steps. *)
Lemma recv_wp_keeps {A} (p : Io A) (Q : Res A → Receiving → Prop) k :
  keeps False aside p → (∀ r, Q r k) → recv_wp p Q k.
Proof.
  intros Hp HQ. apply (wp_keeps _ _ _ _ False aside); [done| |exact Hp|done].
  intros t t' Ht. by apply aside_guarantee.
Qed.

Lemma guarantee_recv k k' t t' : receives Recv k' t' → guarantee receives Recv k t k' t'.
Proof. intros Hk. split; [done|]. intros j kj Hne _. split; [apply Hk|]. by rewrite decide_False. Qed.

Lemma recv_self (k : Receiving) t :
  receives Recv k t ↔
  reach t ∧
  match k with
  | Unsubscribed => t_output t = None ∧ t_buf t = [] ∧ t_routed t = []
  | Reading i c bound =>
    t_output t = Some i ∧ live i (out_of t)
    ∧ (∃ got, given t !! i = Some got ∧ concat got = routed_bytes t ++ t_buf t ++ c)
    ∧ from_option (λ n, (length (t_buf t) < n)%nat) True bound
  | Over i =>
    t_output t = Some i
    ∧ ∃ got, given t !! i = Some got ∧ routed_bytes t `prefix_of` concat got ∧ piece got
  end.
Proof. unfold receives. by rewrite decide_True. Qed.

(** What was routed stays a part of what was read, whatever becomes of the rest. *)
Lemma reading_over i c b t : receives Recv (Reading i c b) t → receives Recv (Over i) t.
Proof.
  rewrite !recv_self. intros (Hr & Ho & Hl & (got & Hg & Hc) & _). split_and!; [done..|].
  exists got. split_and!; [done|rewrite Hc; by apply prefix_app_r|by eapply live_piece].
Qed.

Abbreviation recv_end := (λ (r : Res bool) k, match r with Ok true => at_loop k | _ => True end).

Lemma stop_recv_wp reason i k :
  k = Over i ∨ (∃ c b, k = Reading i c b) →
  recv_wp (_ ← close reason; _ ← modify (below (DropStream i)); mret false) recv_end k.
Proof.
  intros Hk. apply wp_bind, recv_wp_keeps; [apply close_aside|]. intros [[]|e]; [|done].
  apply wp_bind, wp_modify. intros t Ht. exists (Over i). split; [|done]. apply guarantee_recv.
  assert (Ht' : receives Recv (Over i) t) by (destruct Hk as [->|(c & b & ->)]; [done|by eapply reading_over]).
  apply recv_self in Ht' as (Hr & Ho & got & Hg & Hp). apply recv_self.
  split; [by apply reach_below|]. split; [done|]. exists got. split; [by apply below_given|done].
Qed.

(** Frames are cut off the buffer until none is complete; the fuel is never used up. *)
Lemma drain_wp i n :
  recv_wp (drain (S n))
    (λ r k, match r with Ok true => k = Reading i [] None | _ => k = Over i end)
    (Reading i [] (Some (S n))).
Proof.
  induction n as [|n IH]; cbn [drain]; apply wp_bind, wp_act; intros t Ht.
  all: pose proof (reading_over _ _ _ _ Ht) as Hover;
    apply recv_self in Ht as (Hr & Ho & Hl & (got & Hg & Hc) & Hb);
    apply recv_self in Hover as (_ & _ & Hov); rewrite app_nil_r in Hc; cbn in Hb.
  all: destruct (decode_frame (t_buf t)) as [[f| |p] rest] eqn:Ed; cbn [fst snd].
  1,4: apply decode_sound in Ed as [Ed _]; pose proof (length_enc_pos f rest) as Hlen; rewrite <- Ed in Hlen.
  - lia.
  - exists (Reading i [] (Some (S n))). split; [|apply IH]. apply guarantee_recv, recv_self.
    split_and!; try done; [|cbn; lia]. exists got. split; [done|]. rewrite Hc, Ed. unfold routed_bytes. cbn.
    rewrite fmap_app, concat_app. cbn. by rewrite !app_nil_r, <- app_assoc.
  - exists (Reading i [] None). split; [|done]. apply guarantee_recv, recv_self. split_and!; try done.
    exists got. by rewrite app_nil_r.
  - exists (Over i). split; [|done]. apply guarantee_recv, recv_self. split_and!; try done.
    unfold routed_bytes. cbn. by rewrite app_nil_r.
  - exists (Reading i [] None). split; [|done]. apply guarantee_recv, recv_self. split_and!; try done.
    exists got. by rewrite app_nil_r.
  - exists (Over i). split; [|done]. apply guarantee_recv, recv_self. split_and!; try done.
    unfold routed_bytes. cbn. by rewrite app_nil_r.
Qed.

Lemma recv_task_wp k :
  k = Unsubscribed ∨ (∃ i, k = Reading i [] None) → recv_wp recv_task recv_end k.
Proof.
  intros [->|[i ->]]; unfold recv_task; apply wp_bind, wp_gets; intros t Ht;
    apply recv_self in Ht as Ht'; destruct Ht' as (Hr & Ho & Hk).
  { rewrite Ho. exists Unsubscribed. split; [by apply guarantee_recv|].
    apply wp_bind, wp_modify. clear t Ht Hr Ho Hk. intros t (Hr & Ho & Hb & Hd)%recv_self.
    destruct (subscribed t Hr) as [Hl Hg]. exists (Reading (next_stream (out_of t)) [] None).
    split; [|right; by eexists]. apply guarantee_recv, recv_self. split_and!; try done.
    - by apply (reach_below Subscribe).
    - exists []. split; [done|]. unfold routed_bytes. cbn. by rewrite Hd, Hb. }
  rewrite Ho. exists (Reading i [] None). split; [by apply guarantee_recv|]. clear t Ht Hr Ho Hk.
  assert (Hstop : ∀ r, recv_wp (_ ← close r; _ ← modify (below (DropStream i)); mret false) recv_end
    (Reading i [] None)) by (intros r; apply stop_recv_wp; eauto).
  apply wp_bind, recv_wp_keeps; [apply die_aside|]. intros [d|e]; [|done].
  apply wp_bind, wp_wait. intros t Ht. destruct (woken _ _).
  { exists (Reading i [] None). split; [by apply guarantee_recv|]. apply Hstop. }
  apply recv_self in Ht as (Hr & Ho & Hl & (got & Hg & Hc) & _).
  assert (Hr' : reach (below (Receive i) t)) by (by apply reach_below).
  assert (Hl' : live i (out_of (below (Receive i) t))) by (by apply below_live).
  pose proof (received i t got Hg) as Hg'. destruct (recv i (out_of t)).1 as [c| |]; [| |done].
  - exists (Reading i c None). split.
    { apply guarantee_recv, recv_self. split_and!; try done. eexists. split; [done|].
      rewrite concat_app, Hc. cbn. by rewrite !app_nil_r, <- app_assoc. }
    clear t Hr Ho Hl got Hg Hc Hr' Hl' Hg'. apply wp_bind, wp_modify.
    intros t (Hr & Ho & Hl & (got & Hg & Hc) & _)%recv_self.
    exists (Reading i [] None). split.
    { apply guarantee_recv, recv_self. split_and!; try done. exists got. split; [done|].
      rewrite Hc. unfold routed_bytes. cbn. by rewrite !app_nil_r. }
    clear t Hr Ho Hl got Hg Hc. apply wp_bind, wp_gets. intros t (Hr & Ho & Hl & Hg & _)%recv_self.
    exists (Reading i [] (Some (S (length (t_buf t))))). split.
    { apply guarantee_recv, recv_self. split_and!; try done. cbn. lia. }
    apply wp_bind. eapply wp_mono, drain_wp. intros [[]|e] k ->; [right; by exists i| |done].
    apply stop_recv_wp. by left.
  - exists (Reading i [] None). split.
    { apply guarantee_recv, recv_self. split_and!; try done. by eexists. }
    apply wp_bind, recv_wp_keeps; [apply gets_aside|]. intros [b|e]; [apply Hstop|done].
Qed.

Lemma recv_all_fine m : recv_fine m.
Proof.
  destruct (decide (m = Recv)) as [->|]; [|by apply others_recv_fine]. intros k Hk.
  rewrite decide_True in Hk by done. unfold task_fine, task_ok. eapply wp_mono, recv_task_wp; [|exact Hk].
  by intros [[]|e] k'.
Qed.

Lemma recv_step (x : System) ev : through ev → recv_ok x → recv_ok (tunnel_step x ev).
Proof.
  intros Hev Hx.
  assert (Hout : ∀ t, aside (s_world x) t → recv_ok {| s_world := t; s_task := s_task x |}).
  { intros t Ht. apply outside_sys; [|done]. intros j k. by apply aside_receives. }
  destruct ev as [ev|m| |op]; cbn [tunnel_step].
  - destruct (owned ev (s_world x)) eqn:Eo; [done|]. apply Hout, aside_below; [by destruct ev|done].
  - apply poll_sys; [apply recv_all_fine|done].
  - apply Hout. by apply aside_same.
  - apply Hout, use_aside.
Qed.

Lemma recv_run evs : ∀ x : System, Forall through evs → recv_ok x → recv_ok (tunnel_run x evs).
Proof.
  induction evs as [|ev evs IH]; intros x Hevs Hx; [done|]. apply Forall_cons in Hevs as [Hev Hevs].
  apply IH; [done|by apply recv_step].
Qed.

Lemma spawn_receives ka : recv_ok (smux_new ka (spawn w0)).
Proof.
  exists (λ _, Unsubscribed). intros m. split; [split; [by exists []|by case_decide]|].
  unfold task_fine, task_ok, smux_new. cbn. destruct (decide (m = Keepalive ∧ _)); [done|]. cbn.
  case_decide; [by left|done].
Qed.
(** What a receive task that follows them has routed. *)
Lemma routed_chain (x : System) :
  recv_ok x →
  let sent := outputs (cipher (stream w0)) (drop base agent) in
  ∃ before rest,
    concat sent = concat before ++ concat (enc <$> t_routed (s_world x)) ++ rest
    ∧ before `prefix_of` sent.
Proof.
  intros [κ Hx] sent. destruct (Hx Recv) as [Hk _].
  assert (Hover : ∀ i, receives Recv (Over i) (s_world x) → ∃ before rest,
    concat sent = concat before ++ concat (enc <$> t_routed (s_world x)) ++ rest ∧ before `prefix_of` sent).
  { intros i (_ & _ & got & _ & [r Hr] & before & rest & Hp)%recv_self. unfold routed_bytes in Hr.
    exists before, (r ++ concat rest). unfold sent. rewrite Hp, !concat_app, Hr, <- !app_assoc.
    split; [done|by apply prefix_app_r]. }
  destruct (κ Recv) as [|i c b|i].
  - apply recv_self in Hk as (_ & _ & _ & ->). exists [], (concat sent). split; [done|by apply prefix_nil].
  - apply reading_over in Hk. by eapply Hover.
  - by eapply Hover.
Qed.

End Below.

(** ** The streams *)

(** What the tasks do to the table and the histories kept of it. *)
Definition same_table t t' : Prop :=
  t_inner t' = t_inner t ∧ t_streams t' = t_streams t ∧ t_ledger t' = t_ledger t
  ∧ t_routed t' = t_routed t ∧ t_posted t' = t_posted t ∧ t_written t' = t_written t.

Section BodyKeeps.
Context (R : Tunnel → Tunnel → Prop).
Context (R_same : ∀ t t', same_table t t' → R t t')
  (R_mark : ∀ t, R t (with_inner t (mark_closed (t_inner t))))
  (R_clear : ∀ t r, R t (with_inner t (clear r (t_inner t))))
  (R_route : ∀ t f rest, wf_frame f → R t (with_buf (with_inner t (route_frame f (t_inner t))) rest [f]))
  (R_queue : ∀ t q, R t (with_queue t q))
  (R_nop : ∀ t r q, try_send (control CMD_NOP 0) (frames (t_inner t)) = (r, q) →
             R t (with_inner t (set_frames (t_inner t) q))).

Lemma R_buf t b : R t (with_buf t b []).
Proof. apply R_same. unfold same_table. cbn. by rewrite app_nil_r. Qed.
Lemma R_gets L {A} (f : Tunnel → A) : keeps (E := Error) L R (gets f).
Proof. apply keeps_act. intros t. by apply R_same. Qed.
Lemma R_die L : keeps L R die_notified.
Proof. apply keeps_act. intros t. destruct (enable _). by apply R_same. Qed.

Lemma R_close L r : keeps L R (close r).
Proof.
  unfold close. apply keeps_bind; [apply keeps_act; intros t; apply R_mark|].
  intros []; [apply keeps_res|]. apply keeps_bind; [|intros _]; apply keeps_act; intros t.
  - by apply R_same.
  - apply R_clear.
Qed.

Lemma R_drain fuel : keeps True R (drain fuel).
Proof.
  induction fuel as [|fuel IH]; [done|]. cbn [drain]. apply keeps_bind.
  - apply keeps_act. intros t. destruct (decode_frame _) as [[f| |p] rest] eqn:Ed;
      [|by apply R_same|apply R_buf].
    apply R_route. by apply decode_sound in Ed as [_ ?].
  - intros [f| |p]; [apply IH|apply keeps_res..].
Qed.

Lemma R_stop i r : keeps True R (_ ← close r; _ ← modify (below (DropStream i)); mret false).
Proof.
  apply keeps_bind; [apply R_close|intros _]. apply keeps_bind; [|intros _; apply keeps_res].
  apply keeps_act. intros t. by apply R_same.
Qed.

Lemma R_stop_send : keeps True R stop_send.
Proof.
  apply keeps_bind; [apply R_close|intros _]. apply keeps_bind; [|intros _; apply keeps_res].
  apply keeps_act. intros t. apply R_queue.
Qed.

Lemma R_recv : keeps True R recv_task.
Proof.
  unfold recv_task. apply keeps_bind; [apply R_gets|].
  intros [i|]; [|apply keeps_bind; [apply keeps_act; intros t; by apply R_same|intros _; apply keeps_res]].
  apply keeps_bind; [apply R_die|intros d]. apply keeps_bind.
  { apply keeps_wait. intros t. destruct (woken _ _); [by apply R_same|].
    destruct (recv i _).1; [by apply R_same..|done]. }
  intros [[c|]|]; [| |apply R_stop].
  - apply keeps_bind; [|intros _; apply keeps_bind; [apply R_gets|intros n]].
    { apply keeps_act. intros t. apply R_buf. }
    apply keeps_bind; [apply R_drain|]. intros []; [apply keeps_res|apply R_stop].
  - apply keeps_bind; [apply R_gets|]. intros b. apply R_stop.
Qed.

Lemma body_keeps m : keeps True R (body m).
Proof.
  destruct m; cbn [body]; [apply R_recv|..].
  - unfold send_task. apply keeps_bind; [apply R_die|intros d].
    apply keeps_bind; [apply R_gets|]. intros []; [apply R_stop_send|]. apply keeps_bind.
    { apply keeps_wait. intros t. destruct (_ || _); [by apply R_same|].
      destruct (poll_recv _) as [[] q]; [apply R_queue..|done]. }
    intros [f|]; [|apply R_stop_send]. apply keeps_bind; [apply R_die|intros d'].
    apply keeps_bind; [|intros []; [apply keeps_res|apply R_stop_send]].
    apply keeps_wait. intros t. destruct (woken _ _); [by apply R_same|].
    destruct (session_send _ _).1 as [[]|]; [by apply R_same..|done].
  - unfold keepalive_task. apply keeps_bind; [apply R_die|intros d]. apply keeps_bind.
    { apply keeps_wait. intros t. destruct (woken _ _); [by apply R_same|].
      destruct (t_tick t); [by apply R_same|done]. }
    intros []; cbn [negb]; [|apply keeps_res]. apply keeps_bind.
    { apply keeps_act. intros t. destruct (try_send _ _) as [r q] eqn:Eq. by eapply R_nop. }
    intros b. apply keeps_bind; [apply R_gets|intros b'; apply keeps_res].
  - apply keeps_bind; [apply R_close|intros _; apply keeps_res].
Qed.
End BodyKeeps.

(** Every stream has been read a prefix of what was pushed to it since it was opened. *)
Record tabled t : Prop := {
  tb_table : wf_table (t_inner t);
  tb_frames : Forall wf_frame (t_routed t);
  tb_stream h s : t_streams t !! h = Some s → cell s = h ∧
    ∃ k got, t_ledger t !! h = Some (k, got) ∧ (k ≤ length (t_routed t))%nat
      ∧ linked (t_inner t) s got (pushed (sid s) (drop k (t_routed t))) }.

Definition holds t t' : Prop :=
  next_id (t_inner t') = next_id (t_inner t) ∧ (tabled t → tabled t').

(** A step that gives the streams away does not change what they hold. *)
Lemma holds_same t t' :
  t_inner t' = t_inner t → t_streams t' = t_streams t → t_ledger t' = t_ledger t →
  t_routed t' = t_routed t → holds t t'.
Proof.
  intros Hi Hs Hl Hr. unfold holds. rewrite Hi. split; [done|].
  intros [Hwf Hf Ht]. split; by rewrite ?Hi, ?Hs, ?Hl, ?Hr.
Qed.

Lemma holds_inner t i :
  next_id i = next_id (t_inner t) → (wf_table (t_inner t) → wf_table i) →
  (∀ s got sent, linked (t_inner t) s got sent → linked i s got sent) → holds t (with_inner t i).
Proof.
  intros Hn Hw Hk. split; [done|]. intros [Hwf Hf Hs]. split; [by apply Hw|done|].
  intros h s (Hc & k & got & Hl & Hle & Hlk)%Hs. split; [done|]. exists k, got. auto.
Qed.

Lemma holds_trans t1 t2 t3 : holds t1 t2 → holds t2 t3 → holds t1 t3.
Proof. intros [Hn1 Ht1] [Hn2 Ht2]. split; [congruence|auto]. Qed.

Lemma holds_frames t q : holds t (with_inner t (set_frames (t_inner t) q)).
Proof.
  apply holds_inner; [done|apply wf_table_frames|intros s got sent; apply linked_frames].
Qed.

(** A frame is routed and entered into the history. *)
Lemma holds_route f t rest :
  wf_frame f → holds t (with_buf (with_inner t (route_frame f (t_inner t))) rest [f]).
Proof.
  intros Hw. split; [apply route_next_id|]. intros [Hwf Hf Hs]. cbn.
  split; [by apply wf_table_route|apply Forall_app_2; [done|by constructor]|].
  intros h s (Hc & k & got & Hl & Hle & Hlk)%Hs. split; [done|]. exists k, got. cbn.
  split_and!; [done|rewrite length_app; lia|]. rewrite drop_app_le by done. rewrite pushed_snoc.
  by apply linked_route.
Qed.

Lemma body_holds m : keeps True holds (body m).
Proof.
  apply body_keeps.
  - intros t t' (Hi & Hs & Hl & Hr & _). by apply holds_same.
  - intros t. apply holds_inner; [done|done|].
    intros s got sent Hl. eapply linked_same; [done|cbn; lia|done|done].
  - intros t r. apply holds_inner; [done|apply wf_table_clear|intros s got sent; apply linked_clear].
  - intros t f rest. apply holds_route.
  - intros t q. eapply holds_trans; [apply holds_frames|by apply holds_same].
  - intros t r q _. apply holds_frames.
Qed.

(** What is done to a stream. *)
Definition ids (op : StreamOp) : Z := match op with OpOpen => 2 | _ => 0 end.

(** One stream's entry is replaced, the others see nothing of it. *)
Lemma tabled_stream t t' h s k got :
  wf_table (t_inner t') → cell s = h → t_routed t' = t_routed t →
  t_streams t' = <[h := s]> (t_streams t) → t_ledger t' !! h = Some (k, got) →
  (k ≤ length (t_routed t))%nat →
  linked (t_inner t') s got (pushed (sid s) (drop k (t_routed t))) →
  (∀ h', h' ≠ h → t_ledger t' !! h' = t_ledger t !! h') →
  (∀ s' got sent, cell s' ≠ h → linked (t_inner t) s' got sent → linked (t_inner t') s' got sent) →
  tabled t → tabled t'.
Proof.
  intros Hwf Hc Hr Ht' Hl Hk Hs Ho Hi [_ Hf Ht]. split; [done|congruence|]. rewrite Ht', Hr. intros h' s'.
  intros [[<- <-]|[Hne Hh]]%lookup_insert_Some; [split; [done|]; by exists k, got|].
  destruct (Ht h' s' Hh) as (Hc' & k' & got' & ? & ? & ?). split; [done|]. exists k', got'.
  rewrite Ho by done. split_and!; auto. apply Hi; [congruence|done].
Qed.

Lemma open_tabled t :
  next_id (t_inner t) + 2 < 2 ^ 32 → tabled t → tabled (use OpOpen t).
Proof.
  intros Hn Ht. pose proof Ht as [Hwf Hf Hs]. cbn [use]. pose proof (wf_table_open _ Hwf Hn) as Hwf'.
  pose proof (λ s got sent, linked_open (t_inner t) s got sent Hwf Hn) as Hl.
  destruct (open_stream (t_inner t)) as [[s|e] i] eqn:Eo; cbn in Hwf', Hl.
  - destruct (linked_opened _ _ _ Hwf Hn Eo) as [Hnew Hcell].
    apply (tabled_stream t _ (cell s) s (length (t_routed t)) []); cbn; auto.
    + by rewrite lookup_insert_eq.
    + by rewrite drop_all.
    + intros h' Hne. by rewrite lookup_insert_ne.
  - split; [done|done|]. intros h s' (Hc & k & got & ? & ? & ?)%Hs. split; [done|]. exists k, got. auto.
Qed.

(** The stream an operation is on. *)
Lemma tabled_on h (f : SmuxStream → Tunnel) t (P : Tunnel → Prop) :
  tabled t → P t →
  (∀ s k got, t_streams t !! h = Some s → cell s = h → t_ledger t !! h = Some (k, got) →
     (k ≤ length (t_routed t))%nat → linked (t_inner t) s got (pushed (sid s) (drop k (t_routed t))) →
     P (f s)) →
  P match t_streams t !! h with Some s => f s | None => t end.
Proof.
  intros [Hwf Hfr Hs] Hno Hf. destruct (t_streams t !! h) as [s|] eqn:Eh; [|done].
  destruct (Hs h s Eh) as (Hc & k & got & Hk & Hle & Hl). by eapply Hf.
Qed.

Abbreviation settled t := (λ t', tabled t' ∧ next_id (t_inner t') = next_id (t_inner t)).

Lemma read_tabled h n t : tabled t → settled t (use (OpRead h n) t).
Proof.
  intros Ht. pose proof (tb_table _ Ht) as Hwf. cbn [use]. apply (tabled_on h); [done..|].
  intros s k got Eh Hc Hk Hle Hl. destruct (decide _); [done|].
  pose proof (wf_table_read n s _ Hwf) as Hwf'. pose proof (read_next_id n s (t_inner t)) as Hid.
  pose proof (λ s' got sent Hne, linked_read_other n s (t_inner t) s' got sent Hne) as Ho.
  destruct (poll_queue n s (t_inner t)) as [[r s'] i] eqn:Er. cbn in Hwf', Hid, Ho |- *.
  destruct (linked_read _ _ _ _ _ _ _ _ Hl Er) as (Hl' & Hc' & Hs'). split; [|done].
  apply (tabled_stream t _ h s' k (got ++ read_bytes r)); cbn; auto.
  - congruence.
  - by rewrite lookup_alter_eq, Hk.
  - by rewrite Hs'.
  - intros h' Hne. by rewrite lookup_alter_ne.
  - intros s0 got0 sent0 Hne. apply Ho. congruence.
Qed.

Lemma flag_tabled h t : tabled t → settled t (use (OpFlag h) t).
Proof.
  intros Ht. pose proof (tb_table _ Ht) as Hwf. cbn [use]. apply (tabled_on h); [done..|].
  intros s k got Eh Hc Hk Hle Hl. destruct (decide _); [|done]. split; [|done].
  assert (Hs : sid (poll_flag s (t_inner t)).2 = sid s ∧ cell (poll_flag s (t_inner t)).2 = cell s
    ∧ partial (poll_flag s (t_inner t)).2 = partial s) by (unfold poll_flag; by destruct (Mux.is_closed _)).
  destruct Hs as (Hs1 & Hc1 & Hp1).
  apply (tabled_stream t _ h (poll_flag s (t_inner t)).2 k got); cbn; auto; [congruence|].
  rewrite Hs1. by eapply linked_stream.
Qed.

Lemma shutdown_tabled h t : tabled t → settled t (use (OpShutdown h) t).
Proof.
  intros Ht. pose proof (tb_table _ Ht) as Hwf. cbn [use]. apply (tabled_on h); [done..|].
  intros s k got Eh Hc Hk Hle Hl. destruct (decide _); [done|].
  assert (Hi : set_frames (t_inner t) (frames (t_inner t)) = t_inner t) by by destruct (t_inner t).
  assert (Hd : ∃ b s' q, poll_shutdown s (t_inner t) = (b, s', set_frames (t_inner t) q)
    ∧ sid s' = sid s ∧ cell s' = cell s ∧ partial s' = partial s).
  { unfold poll_shutdown. destruct (write_closed s); [|destruct (try_send _ _) as [[] q]].
    - exists true, s, (frames (t_inner t)). by rewrite Hi.
    - by exists true, (set_write_closed s), q.
    - exists false, s, (frames (t_inner t)). by rewrite Hi.
    - exists true, (set_write_closed s), (frames (t_inner t)). by rewrite Hi. }
  destruct Hd as (b & s' & q & -> & Hs1 & Hc1 & Hp1). split; [|done].
  apply (tabled_stream t _ h s' k got); cbn; auto.
  - by apply wf_table_frames.
  - congruence.
  - rewrite Hs1. eapply linked_stream; [..|by apply linked_frames]; done.
  - intros s0 got0 sent0 _. apply linked_frames.
Qed.

Lemma write_tabled h buf t : tabled t → settled t (use (OpWrite h buf) t).
Proof.
  intros Ht. cbn [use]. apply (tabled_on h); [done..|]. intros s k got _ _ _ _ _. destruct (decide _); [done|].
  assert (Hi : ∃ q, (poll_write buf s (t_inner t)).2 = set_frames (t_inner t) q).
  { assert (Hi : t_inner t = set_frames (t_inner t) (frames (t_inner t))) by by destruct (t_inner t).
    unfold poll_write. repeat case_match; eauto. }
  destruct (poll_write _ _ _) as [r i]. destruct Hi as [q Hi]. cbn in Hi. subst i.
  destruct (holds_frames t q) as [Hid Hh]. specialize (Hh Ht).
  destruct r; [|done..]. by destruct Hh.
Qed.

Lemma drop_tabled h t : tabled t → settled t (use (OpDrop h) t).
Proof.
  intros Ht. pose proof Ht as [Hwf Hf Hs]. cbn [use]. apply (tabled_on h); [done..|].
  intros s k got Eh Hc _ _ _. destruct (decide _); [done|].
  cbn [with_streams with_inner t_inner]. rewrite drop_next_id. split; [|done].
  split; [by apply wf_table_drop|done|]. cbn. intros h' s' [Hne Hh]%lookup_delete_Some.
  destruct (Hs h' s' Hh) as (Hc' & k' & got' & ? & ? & ?). split; [done|]. exists k', got'.
  split_and!; auto. apply linked_drop_other; [congruence|done].
Qed.

Lemma use_tabled op t :
  next_id (t_inner t) + ids op < 2 ^ 32 → tabled t →
  tabled (use op t) ∧ next_id (t_inner (use op t)) ≤ next_id (t_inner t) + ids op.
Proof.
  intros Hn Ht. destruct op as [|h n|h|h buf|h|h]; cbn [ids] in *.
  - split; [by apply open_tabled|]. cbn [use]. pose proof (open_next_id _ (tb_table _ Ht) Hn) as Hid.
    by destruct (open_stream (t_inner t)) as [[s|e] i].
  - destruct (read_tabled h n t Ht) as [? ->]. split; [done|lia].
  - destruct (flag_tabled h t Ht) as [? ->]. split; [done|lia].
  - destruct (write_tabled h buf t Ht) as [? ->]. split; [done|lia].
  - destruct (shutdown_tabled h t Ht) as [? ->]. split; [done|lia].
  - destruct (drop_tabled h t Ht) as [? ->]. split; [done|lia].
Qed.

Definition cost (ev : TunnelEvent) : Z := match ev with Use op => ids op | _ => 0 end.
Definition ids_taken (evs : list TunnelEvent) : Z := foldr (λ ev n, cost ev + n) 0 evs.

Lemma tabled_step (x : System) ev :
  (∀ m, task_keeps True holds (s_task x m)) → tabled (s_world x) →
  next_id (t_inner (s_world x)) + cost ev < 2 ^ 32 →
  let y := tunnel_step x ev in
  (∀ m, task_keeps True holds (s_task y m)) ∧ tabled (s_world y)
  ∧ next_id (t_inner (s_world y)) ≤ next_id (t_inner (s_world x)) + cost ev.
Proof.
  intros Hk Ht Hn. destruct ev as [ev|m| |op]; cbn [tunnel_step cost] in *.
  - destruct (owned _ _); split_and!; try done; try (cbn; lia). by apply (holds_same (s_world x)).
  - destruct (poll_sys_keeps body True holds m x) as [[Hid Hh] Hk'];
      [by intros t; apply holds_same|apply body_holds|done|]. split_and!; [done|by apply Hh|lia].
  - split_and!; try done; [by apply (holds_same (s_world x))|cbn; lia].
  - destruct (use_tabled op (s_world x)) as [Ht' Hid]; done.
Qed.

(** In any run, as long as identifiers last. *)
Lemma tabled_run evs : ∀ x : System,
  (∀ m, task_keeps True holds (s_task x m)) → tabled (s_world x) →
  next_id (t_inner (s_world x)) + ids_taken evs < 2 ^ 32 →
  tabled (s_world (tunnel_run x evs))
  ∧ next_id (t_inner (s_world (tunnel_run x evs))) ≤ next_id (t_inner (s_world x)) + ids_taken evs.
Proof.
  induction evs as [|ev evs IH]; intros x Hk Ht Hn; [split; [done|cbn; lia]|].
  change (ids_taken (ev :: evs)) with (cost ev + ids_taken evs) in *.
  assert (0 ≤ ids_taken evs).
  { clear. induction evs as [|ev evs IH]; [done|]. cbn. destruct ev as [| | |[]]; cbn; fold (ids_taken evs); lia. }
  destruct (tabled_step x ev) as (Hk' & Ht' & Hn'); [done|done|lia|].
  destruct (IH (tunnel_step x ev)) as [? ?]; [done|done|lia|].
  change (tunnel_run x (ev :: evs)) with (tunnel_run (tunnel_step x ev) evs). split; [done|lia].
Qed.

Lemma tabled_new ka x : tabled (s_world (smux_new ka x)) ∧ ∀ m, task_keeps True holds (s_task (smux_new ka x) m).
Proof.
  split; [split; [apply wf_table_new|by constructor|done]|]. intros m. cbn. by destruct (decide _).
Qed.

(** ** The books of the writers *)

(** The bytes accepted for a stream identifier, by any stream that has had it. *)
Definition written (id : Z) t : list byte := concat (filter (λ p, p.1 = id) (t_written t)).*2.

Record booked t : Prop := {
  bk_next : in_u 32 (next_id (t_inner t)) = true;
  bk_ids h s : t_streams t !! h = Some s → in_u 32 (sid s) = true;
  bk_out id : psh_of id (t_posted t) = written id t }.
Definition books t t' : Prop := booked t → booked t'.

(** A step that queues no data and opens no stream. *)
Lemma books_quiet t t' :
  next_id (t_inner t') = next_id (t_inner t) → t_written t' = t_written t →
  (∀ h s', t_streams t' !! h = Some s' → ∃ h s, t_streams t !! h = Some s ∧ sid s' = sid s) →
  (∃ fs, t_posted t' = t_posted t ++ fs ∧ quiet fs) → books t t'.
Proof.
  intros Hn Hw Hs (fs & Hp & Hq) [Hb1 Hb2 Hb3]. split; [congruence| |].
  - intros h s' (h' & s & Hh & ->)%Hs. eauto.
  - intros id. unfold written. rewrite Hp, psh_of_app, Hq, app_nil_r, Hw. apply Hb3.
Qed.

Lemma posted_quiet t i :
  grows_quiet (t_inner t) i → ∃ fs, t_posted (with_inner t i) = t_posted t ++ fs ∧ quiet fs.
Proof. intros (fs & (_ & Hq & _) & Hf). exists fs. cbn. by rewrite Hq, drop_app_length. Qed.

Lemma books_inner t i :
  next_id i = next_id (t_inner t) → grows_quiet (t_inner t) i → books t (with_inner t i).
Proof. intros Hn Hg. apply books_quiet; [done|done|by eauto|by apply posted_quiet]. Qed.

Lemma books_same t t' :
  t_inner t' = t_inner t → t_streams t' = t_streams t → t_posted t' = t_posted t →
  t_written t' = t_written t → books t t'.
Proof.
  intros Hi Hs Hp Hw. apply books_quiet; [by rewrite Hi|done|rewrite Hs; by eauto|].
  exists []. by rewrite app_nil_r.
Qed.

Lemma body_books m : keeps True books (body m).
Proof.
  apply body_keeps.
  - intros t t' (Hi & Hs & _ & _ & Hp & Hw). by apply books_same.
  - intros t. apply books_inner; [done|by apply grows_same].
  - intros t r. apply books_inner; [done|by apply grows_same].
  - intros t f rest _ Hb. eapply books_same;
      [..|by apply (books_inner t), Hb; [apply route_next_id|apply grows_route]]; done.
  - intros t q. apply books_quiet; [done|done|by eauto|]. exists []. by rewrite app_nil_r.
  - intros t r q Hq. apply books_inner; [done|]. eapply grows_try_quiet; [|exact Hq|done]. by apply quiet_control.
Qed.

Lemma write_books h buf t : books t (use (OpWrite h buf) t).
Proof.
  cbn [use]. intros Hb. destruct (t_streams t !! h) as [s|] eqn:Eh; [|done].
  destruct (decide (h ∈ t_reading t)); [done|].
  destruct (poll_write buf s (t_inner t)) as [r i] eqn:Ew.
  assert (Hn : next_id i = next_id (t_inner t)).
  { revert Ew. unfold poll_write. by repeat case_match; intros [= <- <-]. }
  pose proof (grows_write buf s (t_inner t) r i Ew) as Hg.
  destruct r as [k| |]; [|subst i; apply (books_inner t); [done|by apply grows_same|done]..].
  destruct Hg as ((_ & Hq & _) & Hlen & _). destruct Hb as [Hb1 Hb2 Hb3].
  split; [by cbn; rewrite Hn|done|]. intros id. unfold written.
  cbn [add_written with_inner t_posted t_written t_inner].
  rewrite Hq, drop_app_length, psh_of_app, psh_of_one, Hb3, filter_app, fmap_app, concat_app.
  f_equal. rewrite psh_frame_enc; [|split; [by eapply Hb2|exact Hlen]].
  cbn [cmd stream_id frame_payload]. rewrite filter_cons, filter_nil. cbn [fst].
  destruct (decide (sid s = id)) as [->|Hne].
  - rewrite bool_decide_true by done. cbn. by rewrite app_nil_r.
  - rewrite bool_decide_false; [done|]. by intros [_ ?].
Qed.

Lemma open_books t : books t (use OpOpen t).
Proof.
  cbn [use]. intros Hb. pose proof (grows_open (t_inner t)) as Hg.
  assert (Hn : in_u 32 (next_id (open_stream (t_inner t)).2) = true).
  { destruct Hb as [Hb _ _]. unfold open_stream. destruct (Mux.is_closed _); [done|]. cbv zeta.
    destruct (try_send _ _) as [[] q]; unfold remove_entry; cbn; repeat case_match; apply wrap_u_range; lia. }
  assert (Hs : ∀ s, (open_stream (t_inner t)).1 = Ok s → sid s = next_id (t_inner t)).
  { intros s. unfold open_stream. destruct (Mux.is_closed _); [done|]. cbv zeta.
    by destruct (try_send _ _) as [[] q]; intros [= <-]. }
  destruct Hb as [Hb1 Hb2 Hb3]. destruct (open_stream (t_inner t)) as [r i] eqn:Eo. cbn in Hg, Hn, Hs.
  destruct (posted_quiet t i Hg) as (fs & Hp & Hq).
  assert (Ho : ∀ id, psh_of id (t_posted (with_inner t i)) = written id t).
  { intros id. by rewrite Hp, psh_of_app, Hq, app_nil_r. }
  destruct r as [s|e]; (split; [done| |exact Ho]); [|exact Hb2]. cbn.
  intros h s' [[_ <-]|[_ Hh]]%lookup_insert_Some; [|by eauto]. by rewrite (Hs s eq_refl).
Qed.

Lemma use_books op t : books t (use op t).
Proof.
  destruct op as [|h n|h|h buf|h|h]; [apply open_books| | |apply write_books|..]; cbn [use];
    (destruct (t_streams t !! h) as [s|] eqn:Eh; [destruct (decide (h ∈ t_reading t))|]);
    try (by apply books_same).
  - pose proof (read_next_id n s (t_inner t)) as Hn. pose proof (read_frames n s (t_inner t)) as Hf.
    assert (Hs : sid (poll_queue n s (t_inner t)).1.2 = sid s).
    { unfold poll_queue. by repeat case_match; simplify_eq. }
    destruct (poll_queue n s (t_inner t)) as [[r s'] i]. cbn in Hn, Hf, Hs.
    apply books_quiet; [done|done| |by apply (posted_quiet t i), grows_same].
    cbn. intros h' s0 [[<- <-]|[_ Hh]]%lookup_insert_Some; eauto.
  - apply books_quiet; [done|done| |exists []; by rewrite app_nil_r].
    cbn. intros h' s0 [[<- <-]|[_ Hh]]%lookup_insert_Some; [|by eauto]. exists h, s. split; [done|].
    unfold poll_flag. by destruct (Mux.is_closed _).
  - pose proof (grows_shutdown s (t_inner t)) as Hg.
    assert (Hs : sid (poll_shutdown s (t_inner t)).1.2 = sid s ∧
      next_id (poll_shutdown s (t_inner t)).2 = next_id (t_inner t)).
    { unfold poll_shutdown. by repeat case_match. }
    destruct (poll_shutdown s (t_inner t)) as [[r s'] i]. cbn in Hg, Hs. destruct Hs as [Hs Hn].
    apply books_quiet; [done|done| |by apply (posted_quiet t i)].
    cbn. intros h' s0 [[<- <-]|[_ Hh]]%lookup_insert_Some; eauto.
  - apply books_quiet; [apply drop_next_id|done| |apply (posted_quiet t), grows_drop].
    cbn. intros h' s0 [_ Hh]%lookup_delete_Some. eauto.
Qed.

Lemma booked_run evs : ∀ x : System,
  (∀ m, task_keeps True books (s_task x m)) → booked (s_world x) → booked (s_world (tunnel_run x evs)).
Proof.
  induction evs as [|ev evs IH]; intros x Hk Hb; [done|].
  change (booked (s_world (tunnel_run (tunnel_step x ev) evs))).
  destruct ev as [ev|m| |op]; cbn [tunnel_step].
  - destruct (owned _ _); [by apply IH|]. apply IH; [done|by apply (books_same (s_world x))].
  - destruct (poll_sys_keeps body True books m x) as [Hb' Hk']; [by intros t Ht|apply body_books|done|].
    apply IH; [done|by apply Hb'].
  - apply IH; [done|by apply (books_same (s_world x))].
  - apply IH; [done|by apply use_books].
Qed.

Lemma booked_new ka x : booked (s_world (smux_new ka x)) ∧ ∀ m, task_keeps True books (s_task (smux_new ka x) m).
Proof. split; [by split|]. intros m. cbn. by destruct (decide _). Qed.

(** ** The whole way *)

(** C13: the way out.  In any run of a multiplexer over a session that nobody else sends
    through, the bytes of the messages the channel's command task has numbered are, in
    order, a prefix of the frames the send task handed over; these are a prefix of the
    frames the streams, the keep-alive task and the router queued; and until the send
    task ends, none is lost: all but those still queued and at most one in its hands were
    handed over.  The data frames queued for an identifier carry exactly the bytes that
    writes to its stream were told had been accepted.  The send task does not panic. *)
Theorem tunnel_outbound ka evs :
  starts agent base w0 → 1 ≤ w_chunk_size w0 →
  queued (n_commands (w_net w0)) = [] → rx_alive (n_commands (w_net w0)) = true →
  Forall through evs →
  let x := tunnel_run (smux_new ka (spawn w0)) evs in
  let t := s_world x in
  let waiting := frames (t_inner t) in
  concat (by_commands (session_of t)).*2 `prefix_of` concat (t_sent t)
  ∧ t_sent t `prefix_of` t_posted t
  ∧ (rx_alive waiting = true →
     ∃ held, (length held ≤ 1)%nat ∧ t_posted t = t_sent t ++ held ++ queued waiting)
  ∧ (∀ id, psh_of id (t_posted t) = written id t)
  ∧ s_task x Send ≠ Panicked_.
Proof.
  intros Hst Hc Hq Hrx Hevs x t waiting.
  pose proof (send_run Hst evs _ Hevs (spawn_sends Hst ka)) as Hx. fold x in Hx.
  destruct (sent_chain Hst x Hc Hq Hrx Hx) as [? ?]. destruct Hx as [κ Hx].
  destruct (Hx Send) as [[_ Hs] Ht]. rewrite decide_True in Hs by done. destruct Hs as [_ Hk].
  fold t in Hk. split_and!; [done|done|..].
  - intros Hw. destruct (κ Send) as [f|]; destruct Hk as [Hw' Hk]; [|unfold waiting in Hw; congruence].
    exists (option_list f). split; [by destruct f; cbn; lia|done].
  - destruct (booked_new ka (spawn w0)) as [Hb Hkeep]. by destruct (booked_run evs _ Hkeep Hb).
  - intros Hpk. rewrite Hpk in Ht. by apply Ht.
Qed.

(** C12: the way in.  In any run of a multiplexer over a session, the frames its receive
    task has routed are well formed and, encoded one after the other, a stretch of the
    agent's output from the border of a chunk on: nothing is skipped, repeated or
    reordered, however the agent's bytes were cut into messages.  Every open stream has
    been read a prefix of the bytes these frames push to its identifier since it was
    opened.  While the task still reads, it has left of what it was given only the
    buffered tail; it does not panic. *)
Theorem tunnel_inbound ka evs :
  (∀ k m, agent !! k = Some m → sequence_number m = Z.of_nat k) → #agent < 2 ^ 63 →
  all_readable agent base (cipher (stream w0)) → starts agent base w0 →
  Forall through evs → 1 + ids_taken evs < 2 ^ 32 →
  let x := tunnel_run (smux_new ka (spawn w0)) evs in
  let t := s_world x in
  Forall wf_frame (t_routed t)
  ∧ (∃ before rest,
       concat (outputs (cipher (stream w0)) (drop base agent))
       = concat before ++ concat (enc <$> t_routed t) ++ rest
       ∧ before `prefix_of` outputs (cipher (stream w0)) (drop base agent))
  ∧ (∀ h s, t_streams t !! h = Some s →
       ∃ k got, t_ledger t !! h = Some (k, got)
         ∧ got `prefix_of` pushed (sid s) (drop k (t_routed t)))
  ∧ (∀ i, t_output t = Some i → s_task x Recv = at_head →
       ∃ got, given t !! i = Some got ∧ concat got = concat (enc <$> t_routed t) ++ t_buf t)
  ∧ s_task x Recv ≠ Panicked_.
Proof.
  intros Hseq Hlen Hread Hst Hevs Hids x t.
  destruct (tabled_new ka (spawn w0)) as [Htab Hkeep].
  destruct (tabled_run evs _ Hkeep Htab Hids) as [[_ Hwf Hstr] _]. fold x t in Hwf, Hstr.
  pose proof (recv_run Hst Hseq Hlen Hread evs _ Hevs (spawn_receives ka)) as Hx. fold x in Hx.
  pose proof (routed_chain Hst Hseq Hlen Hread x Hx) as Hrt. destruct Hx as [κ Hx].
  destruct (Hx Recv) as [Hk Ht]. fold t in Hk. split_and!; [done|exact Hrt|..].
  - intros h s (_ & k & got & Hl & _ & Hlk)%Hstr. exists k, got. split; [done|].
    destruct (ln_cell _ _ _ _ Hlk) as (c & _ & _ & Hp). etransitivity; [|exact Hp]. by apply prefix_app_r.
  - intros i Hi Hhd. rewrite Hhd in Ht. unfold task_fine, task_ok in Ht. cbn in Ht.
    rewrite decide_True in Ht by done. destruct Hk as [_ Hk]. rewrite decide_True in Hk by done.
    destruct Ht as [Hu|[j Hj]]; [rewrite Hu in Hk; destruct Hk; congruence|].
    rewrite Hj in Hk. destruct Hk as (Ho & _ & (got & Hg & Hc) & _). replace j with i in * by congruence.
    exists got. split; [done|]. by rewrite Hc, app_nil_r.
  - intros Hpk. rewrite Hpk in Ht. by apply Ht.
Qed.
End Tunnel.

(** ** Witnesses *)

Section TunnelWitnesses.
#[local] Existing Instance toy_sha.
#[local] Existing Instance toy_uuid.
#[local] Existing Instance toy_gcm.
#[local] Existing Instance toy_base64.
#[local] Existing Instance toy_json.
#[local] Existing Instance toy_ack.
#[local] Existing Instance no_serde.
#[local] Existing Instance toy_platform.

(** The agent pushes two bytes to stream 1, the frame cut in two. *)
Definition toy_push : list byte := enc (psh 1 [x68; x69]).
Definition toy_part (k : nat) : ClientMessage :=
  ClientMessage_new 0 (replicate 16 x01) OutputStreamData (Z.of_nat k) Pt_Output
    (if decide (k = 0%nat) then take 6 toy_push else drop 6 toy_push).
Definition toy_parts : list ClientMessage := [toy_part 0; toy_part 1].

Abbreviation event := TunnelEvent.
Definition toy_reader (n : nat) : list event := Below <$> toy_polls Reader n.
Definition toy_mux (m : MuxTask) (n : nat) : list event := replicate n (MuxPoll m).
Definition toy_arrive (k : nat) : list event :=
  Below (Arrive (Incoming (Binary (serialize (toy_part k))))) :: toy_reader 30.

(** The tunnel up to the moment the first part is in the receive task's hands. *)
Definition toy_first : list event :=
  toy_mux Recv 2 ++ [Use OpOpen] ++ toy_arrive 0 ++ toy_mux Recv 3.
Abbreviation toy_tunnel evs := (tunnel_run (C := Chan) (N := Bell) 100 (smux_new false (spawn toy_world)) evs).

Definition toy_in : list event :=
  toy_first ++ toy_mux Recv 8 ++ toy_arrive 1 ++ toy_mux Recv 12 ++ [Use (OpRead 0 1)].
Definition toy_out : list event :=
  [Use OpOpen; Use (OpWrite 0 [x61; x62; x63])] ++ toy_mux Send 12 ++ toy_arrive 0
  ++ (Below <$> toy_polls Commands 90).

Lemma toy_parts_start : starts toy_parts 0 toy_world.
Proof. by split; try (cbn; lia). Qed.

Lemma toy_parts_seq k m : toy_parts !! k = Some m → sequence_number m = Z.of_nat k.
Proof. do 2 (destruct k as [|k]; [by intros [= <-]|]). done. Qed.

Lemma toy_parts_readable : all_readable toy_parts 0 None.
Proof. repeat constructor; by right. Qed.

Lemma toy_arrive_through k : (k < 2)%nat → Forall (through toy_parts) (toy_arrive k).
Proof.
  intros Hk. constructor.
  - intros m Hm. do 2 (destruct k as [|k]; [vm_compute in Hm; injection Hm as <-; vm_compute; repeat constructor|]). lia.
  - apply Forall_fmap, Forall_replicate. exact I.
Qed.

Lemma toy_first_through : Forall (through toy_parts) toy_first.
Proof.
  unfold toy_first, toy_mux. rewrite !Forall_app. split_and!; try (apply Forall_replicate; exact I).
  - by repeat constructor.
  - apply toy_arrive_through. lia.
Qed.

Lemma toy_in_through : Forall (through toy_parts) toy_in.
Proof.
  unfold toy_in, toy_mux. rewrite !Forall_app. split_and!; try (apply Forall_replicate; exact I).
  - apply toy_first_through.
  - apply toy_arrive_through. lia.
  - by repeat constructor.
Qed.

Lemma toy_out_through : Forall (through toy_parts) toy_out.
Proof.
  unfold toy_out, toy_mux. rewrite !Forall_app. split_and!; try (apply Forall_replicate; exact I).
  - by repeat constructor.
  - apply toy_arrive_through. lia.
  - apply Forall_fmap, Forall_replicate. exact I.
Qed.

(** Eleven bytes in two frames go out through a channel that sends four at a time. *)
Lemma tunnel_outbound_witness :
  let t := s_world (toy_tunnel toy_out) in
  concat (by_commands (session_of t)).*2 `prefix_of` concat (t_sent t)
  ∧ psh_of 1 (t_posted t) = [x61; x62; x63]
  ∧ (by_commands (session_of t)).*2
    = [take 4 (control CMD_SYN 1); drop 4 (control CMD_SYN 1);
       [x01; x02; x03; x00]; [x01; x00; x00; x00]; [x61; x62; x63]].
Proof.
  intros t. destruct (tunnel_outbound 100 toy_parts 0 toy_world false toy_out toy_parts_start
    ltac:(vm_compute; discriminate) eq_refl eq_refl toy_out_through) as (Hp & _ & _ & Hw & _).
  split; [exact Hp|]. split; [|vm_compute; reflexivity].
  specialize (Hw 1). etransitivity; [exact Hw|]. vm_compute. reflexivity.
Defined.

(** The frame came in two parts; one of its two bytes has been read. *)
Lemma tunnel_inbound_witness :
  t_routed (s_world (toy_tunnel toy_in)) = [psh 1 [x68; x69]]
  ∧ t_ledger (s_world (toy_tunnel toy_in)) !! 0%nat = Some (0%nat, [x68])
  ∧ ∃ k got, t_ledger (s_world (toy_tunnel toy_in)) !! 0%nat = Some (k, got)
    ∧ got `prefix_of` pushed 1 (drop k (t_routed (s_world (toy_tunnel toy_in)))).
Proof.
  split; [vm_compute; reflexivity|]. split; [vm_compute; reflexivity|].
  destruct (tunnel_inbound 100 toy_parts 0 toy_world false toy_in toy_parts_seq ltac:(done)
    toy_parts_readable toy_parts_start toy_in_through ltac:(vm_compute; reflexivity))
    as (_ & _ & Hs & _).
  destruct (Hs 0%nat {| sid := 1; cell := 0; partial := Some [x69]; read_closed := false; write_closed := false |})
    as (k & got & Hl & Hp); [vm_compute; reflexivity|].
  exists k, got. exact (conj Hl Hp).
Defined.

(** A limit: [recv_task] enqueues its notification without looking at the flag
    afterwards, as [send_task] does.  Here the owner drops the multiplexer while the
    task has a chunk in its hands; it then waits for output on a session that nobody
    will close, however often it is polled. *)
Lemma recv_misses_close :
  let x := toy_tunnel (toy_first ++ toy_mux Owner 5 ++ toy_mux Recv 20) in
  Mux.is_closed (t_inner (s_world x)) = true ∧ s_task x Owner = Stopped
  ∧ core_closed (w_core (session_of (s_world x))) = false
  ∧ (∃ p, s_task x Recv = Running p)
  ∧ ∀ n, s_task (Nat.iter n (poll (body 100) Recv) x) Recv = s_task x Recv.
Proof.
  intros x. assert (Hidle : steps (recv_task 100) (s_task x Recv) (s_world x) = false) by (vm_compute; reflexivity).
  split_and!; [vm_compute; reflexivity..| |].
  - assert (Hf : match s_task x Recv with Running _ => True | _ => False end) by (vm_compute; exact I).
    destruct (s_task x Recv) as [p| | |]; [by exists p|done..].
  - intros n.
    assert (Hit : Nat.iter n (λ '(t, s), poll_task (body 100 Recv) t s) (s_task x Recv, s_world x)
                  = (s_task x Recv, s_world x)).
    { induction n as [|n IH]; [done|]. rewrite Nat.iter_succ, IH. by apply poll_idle. }
    pose proof (polls_of (body 100) Recv n x) as Hp. rewrite Hit in Hp. exact (proj1 (proj2 Hp)).
Qed.

(** Another: [poll_read] looks at the queue and then at the flag.  A frame routed and a
    close in between leave the reader with a clean end of file and the frame unread. *)
Definition toy_race : list event :=
  toy_mux Recv 2 ++ [Use OpOpen; Use (OpRead 0 9)] ++ toy_arrive 0 ++ toy_mux Recv 11 ++ toy_arrive 1
  ++ toy_mux Recv 12 ++ toy_mux Owner 5 ++ [Use (OpFlag 0); Use (OpRead 0 9)].

Lemma read_race_loses :
  let t := s_world (toy_tunnel toy_race) in
  ∃ s c, t_streams t !! 0%nat = Some s ∧ Mux.close_reason s (t_inner t) = Some Clean
    ∧ cells (t_inner t) !! 0%nat = Some c ∧ queued (inbound c) = [[x68; x69]]
    ∧ t_ledger t !! 0%nat = Some (0%nat, []).
Proof.
  exists {| sid := 1; cell := 0; partial := None; read_closed := true; write_closed := false |},
    {| inbound := MkChan [[x68; x69]] 256 true false; close_tag := 0 |}.
  split_and!; vm_compute; reflexivity.
Qed.
End TunnelWitnesses.
