(* ===== verification/Forwarding.v ===== *)
(** * Port forwarding over a session (src/port_forward.rs over src/mux.rs and src/connection.rs)

    The two pumps of every forwarded connection, driving the streams of a multiplexer
    whose tasks run over a whole data channel ([Tunnel]).  [PortForward] treats the accept
    loop, the permits and the end of a forwarder, with a multiplexer that nothing comes
    between; here a connection's bytes are followed from the TCP peer to the messages the
    channel numbers, and from the agent's messages to the TCP peer.

    A connection has the name of its stream's cell.  It may be ended at any moment, as the
    shutdown signal does.  [pm_tcp_in] and [pm_tcp_out] are read by nothing: the bytes
    read from and written to the TCP peer. *)

From S2P Require Import Prelude RustStd Errors Interfaces Coroutine BinaryProtocol Ack Crypto.
From S2P Require Import Channels Mux Handshake Documents Session Connection Inbound Commands.
From S2P Require Import PortForward SmuxStreams Tunnel.

Section Forwarding.
Context {C : Type → Type} `{Mpsc C} {N : Type} `{Notify N} {K : Type} `{CopyLoop K}.
Context `{Sha256, UuidDisplay, Aes256Gcm, Base64}.
Context {Value : Type} `{ActionJson Value}.
Context `{Serde AcknowledgeContent, Serde (HandshakeRequest (Value := Value)),
  Serde (HandshakeResponse (Value := Value)), Serde HandshakeComplete,
  Serde EncryptionChallengeRequest, Serde EncryptionChallengeResponse,
  Serde ChannelClosedBody}.
Context `{Platform} (timeout : Duration).

Abbreviation Tun := (Tunnel (C := C) (N := N)).
Abbreviation System := (Sys Tun Error MuxTask).

(** ** The pumps *)

(** The halves of a connection, [outbound] from the TCP peer and [inbound] to it. *)
Record Pumps := {
  pm_outbound : PumpState K;
  pm_inbound : PumpState K;
  pm_tcp_in : list byte;
  pm_tcp_out : list byte }.
Implicit Types (p : Pumps) (t : Tun) (s : SmuxStream).

Definition Pumps_new : Pumps :=
  {| pm_outbound := Copying copy_new; pm_inbound := Copying copy_new; pm_tcp_in := []; pm_tcp_out := [] |}.
Definition set_out p (o : PumpState K) (tcp_in : list byte) : Pumps :=
  {| pm_outbound := o; pm_inbound := pm_inbound p; pm_tcp_in := tcp_in; pm_tcp_out := pm_tcp_out p |}.
Definition set_in p (i : PumpState K) (tcp_out : list byte) : Pumps :=
  {| pm_outbound := pm_outbound p; pm_inbound := i; pm_tcp_in := pm_tcp_in p; pm_tcp_out := tcp_out |}.

Definition out_pump (m : conn_move) (h : nat) (s : SmuxStream) p t : Pumps * Tun :=
  match pm_outbound p, m with
  | Copying k, OutRead r =>
    match copy_reads k, r with
    | None, _ => (p, t)
    | Some n, Err e => (set_out p (PumpDone (Err e)) (pm_tcp_in p), t)
    | Some n, Ok bytes => (set_out p (Copying (copy_fed (take n bytes) k)) (pm_tcp_in p ++ take n bytes), t)
    end
  | Copying k, OutWrite =>
    match copy_writes k with
    | [] => (p, t)
    | bytes =>
      (match (poll_write bytes s (t_inner t)).1 with
       | WritePending => p
       | BrokenPipeError e => set_out p (PumpDone (Err (io_error BrokenPipe e))) (pm_tcp_in p)
       | Wrote n => set_out p (Copying (copy_wrote (Z.to_nat n) k)) (pm_tcp_in p)
       end, use (OpWrite h bytes) t)
    end
  | Copying k, OutShutdown =>
    match copy_result k with
    | None => (p, t)
    | Some n => (set_out p (HalfClosing n) (pm_tcp_in p), t)
    end
  | HalfClosing n, OutShutdown =>
    (if (poll_shutdown s (t_inner t)).1.1 then set_out p (PumpDone (Ok n)) (pm_tcp_in p) else p,
     use (OpShutdown h) t)
  | _, _ => (p, t)
  end.

(** Reading the stream has two parts ([SmuxStreams.poll_queue] and [poll_flag]). *)
Definition in_pump (m : conn_move) (h : nat) (s : SmuxStream) p t : Pumps * Tun :=
  match pm_inbound p, m with
  | Copying k, InRead =>
    match copy_reads k with
    | None => (p, t)
    | Some n =>
      let fed r := match r with
                   | ReadPending => p
                   | ReadReady bytes => set_in p (Copying (copy_fed bytes k)) (pm_tcp_out p)
                   end in
      if decide (h ∈ t_reading t) then (fed (poll_flag s (t_inner t)).1, use (OpFlag h) t)
      else (from_option fed p (poll_queue n s (t_inner t)).1.1, use (OpRead h n) t)
    end
  | Copying k, InWrite r =>
    match copy_writes k, r with
    | [], _ => (p, t)
    | _, Err e => (set_in p (PumpDone (Err e)) (pm_tcp_out p), t)
    | bytes, Ok n =>
      (set_in p (wrote_some (take n bytes) k) (pm_tcp_out p ++ take n bytes), t)
    end
  | Copying k, InShutdown _ =>
    match copy_result k with
    | None => (p, t)
    | Some n => (set_in p (HalfClosing n) (pm_tcp_out p), t)
    end
  | HalfClosing n, InShutdown r =>
    (set_in p (PumpDone (match r with Ok _ => Ok n | Err e => Err e end)) (pm_tcp_out p), t)
  | _, _ => (p, t)
  end.

(** The pumps are polled by one task, so nothing of it comes between the parts of a read. *)
Definition pump_step (m : conn_move) (h : nat) p t : Pumps * Tun :=
  match t_streams t !! h with
  | None => (p, t)
  | Some s =>
    match m with
    | InRead => in_pump m h s p t
    | OutRead _ | OutWrite | OutShutdown =>
      if decide (h ∈ t_reading t) then (p, t) else out_pump m h s p t
    | InWrite _ | InShutdown _ =>
      if decide (h ∈ t_reading t) then (p, t) else in_pump m h s p t
    end
  end.

(** ** The forwarder's connections and the tunnel *)

Record Fwd := { f_sys : System; f_conns : gmap nat Pumps }.

Inductive FwdEvent :=
| Down (ev : TunnelEvent)            (* the channel and the multiplexer *)
| Open                               (* a connection was accepted: [mux.open_stream] *)
| Move (h : nat) (m : conn_move)
| EndConn (h : nat).                 (* both pumps are done, or the shutdown signal *)

Definition on_world (x : System) (t : Tun) : System := {| s_world := t; s_task := s_task x |}.

Definition fwd_step (f : Fwd) (ev : FwdEvent) : Fwd :=
  let t := s_world (f_sys f) in
  match ev with
  | Down (Use _) => f                (* the connections' streams are theirs *)
  | Down ev => {| f_sys := tunnel_step timeout (f_sys f) ev; f_conns := f_conns f |}
  | Open =>
    {| f_sys := on_world (f_sys f) (use OpOpen t);
       f_conns := match (open_stream (t_inner t)).1 with
                  | Ok s => <[cell s := Pumps_new]> (f_conns f)
                  | Err _ => f_conns f
                  end |}
  | Move h m =>
    match f_conns f !! h with
    | None => f
    | Some p =>
      let '(p', t') := pump_step m h p t in
      {| f_sys := on_world (f_sys f) t'; f_conns := <[h := p']> (f_conns f) |}
    end
  | EndConn h =>
    match f_conns f !! h with
    | None => f
    | Some _ =>
      if decide (h ∈ t_reading t) then f
      else {| f_sys := on_world (f_sys f) (use (OpDrop h) t); f_conns := delete h (f_conns f) |}
    end
  end.
Definition fwd_run (f : Fwd) (evs : list FwdEvent) : Fwd := foldl fwd_step f evs.

Definition accepts (ev : FwdEvent) : Z := match ev with Open => 1 | _ => 0 end.
Definition accepted_conns (evs : list FwdEvent) : Z := foldr (λ ev n, accepts ev + n) 0 evs.

(** To the tunnel this is a run like any other. *)
Lemma pump_trace m h p t (x : System) :
  s_world x = t → ∃ evs, on_world x (pump_step m h p t).2 = tunnel_run timeout x evs
    ∧ Forall (λ ev, ∃ op, ev = Use op ∧ ids op = 0) evs.
Proof.
  intros <-. assert (Hno : ∃ evs, on_world x (s_world x) = tunnel_run timeout x evs
    ∧ Forall (λ ev, ∃ op, ev = Use op ∧ ids op = 0) evs) by (exists []; by destruct x).
  assert (Hone : ∀ op, ids op = 0 → ∃ evs, on_world x (use op (s_world x)) = tunnel_run timeout x evs
    ∧ Forall (λ ev, ∃ op, ev = Use op ∧ ids op = 0) evs).
  { intros op Hop. exists [Use op]. split; [done|]. constructor; [by eauto|done]. }
  unfold pump_step, out_pump, in_pump. repeat case_match; try exact Hno; by apply Hone.
Qed.

Context (agent : list ClientMessage).

Definition fwd_through (ev : FwdEvent) : Prop :=
  match ev with Down ev => through agent ev | _ => True end.

Lemma step_trace f ev :
  fwd_through ev → ∃ evs, f_sys (fwd_step f ev) = tunnel_run timeout (f_sys f) evs
    ∧ Forall (through agent) evs ∧ ids_taken evs = 2 * accepts ev.
Proof.
  intros Hev. destruct ev as [ev| |h m|h]; cbn [fwd_step accepts].
  - assert (Hone : ids_taken [ev] = 0 → ∃ evs, tunnel_step timeout (f_sys f) ev = tunnel_run timeout (f_sys f) evs
      ∧ Forall (through agent) evs ∧ ids_taken evs = 0).
    { intros Hids. exists [ev]. split_and!; [done|by constructor|done]. }
    destruct ev as [ev|m| |op]; [by apply Hone..|by exists []].
  - exists [Use OpOpen]. split_and!; [done|by repeat constructor|done].
  - destruct (f_conns f !! h) as [p|]; [|by exists []].
    destruct (pump_trace m h p _ (f_sys f) eq_refl) as (evs & He & Hu).
    destruct (pump_step _ _ _ _) as [p' t']. exists evs. split_and!; [done| |].
    + eapply Forall_impl; [exact Hu|]. by intros ? (op & -> & _).
    + clear He. induction Hu as [|ev evs (op & -> & Ho) _ IH]; [done|]. cbn. rewrite Ho. exact IH.
  - destruct (f_conns f !! h) as [p|]; [|by exists []]. case_decide; [by exists []|].
    exists [Use (OpDrop h)]. split_and!; [done|by repeat constructor|done].
Qed.

Lemma ids_taken_app a b : ids_taken (a ++ b) = ids_taken a + ids_taken b.
Proof.
  unfold ids_taken. induction a as [|ev a IH]; [done|]. cbn. rewrite IH. lia.
Qed.

Lemma run_trace evs : ∀ f,
  Forall fwd_through evs → ∃ evs', f_sys (fwd_run f evs) = tunnel_run timeout (f_sys f) evs'
    ∧ Forall (through agent) evs' ∧ ids_taken evs' = 2 * accepted_conns evs.
Proof.
  induction evs as [|ev evs IH]; intros f Hevs; [by exists []|]. apply Forall_cons in Hevs as [Hev Hevs].
  destruct (step_trace f ev Hev) as (e1 & A1 & A2 & A3). destruct (IH (fwd_step f ev) Hevs) as (e2 & E1 & E2 & E3).
  exists (e1 ++ e2). split_and!.
  - change (f_sys (fwd_run (fwd_step f ev) evs) = tunnel_run timeout (f_sys f) (e1 ++ e2)).
    rewrite E1, A1. unfold tunnel_run. by rewrite foldl_app.
  - by apply Forall_app.
  - rewrite ids_taken_app, A3, E3.
    change (accepted_conns (ev :: evs)) with (accepts ev + accepted_conns evs). lia.
Qed.

(** ** The books of a connection *)

Context `{!MpscOk C, !CopyLoopOk K}.

(** [put]: the bytes the stream has accepted; [got]: those it has given. *)
Definition out_flow p (put : list byte) : Prop :=
  match pm_outbound p with
  | Copying k => pm_tcp_in p = put ++ held k
  | HalfClosing _ | PumpDone (Ok _) => pm_tcp_in p = put
  | PumpDone (Err _) => put `prefix_of` pm_tcp_in p
  end.
Definition in_flow p (got : list byte) : Prop :=
  match pm_inbound p with
  | Copying k => got = pm_tcp_out p ++ held k
  | HalfClosing _ => got = pm_tcp_out p
  | PumpDone _ => pm_tcp_out p `prefix_of` got
  end.

Record flows t (conns : gmap nat Pumps) : Prop := {
  fl_conn h p : conns !! h = Some p → ∃ s k got,
    t_streams t !! h = Some s ∧ t_ledger t !! h = Some (k, got)
    ∧ out_flow p (written (sid s) t) ∧ in_flow p got;
  fl_ids h h' s s' :
    t_streams t !! h = Some s → t_streams t !! h' = Some s' → sid s = sid s' → h = h';
  fl_low h s : t_streams t !! h = Some s → sid s < next_id (t_inner t);
  fl_new id : next_id (t_inner t) ≤ id → written id t = [] }.

(** The steps of the tunnel. *)
Definition leaves t t' : Prop :=
  t_streams t' = t_streams t ∧ t_ledger t' = t_ledger t ∧ t_written t' = t_written t
  ∧ next_id (t_inner t') = next_id (t_inner t).

Lemma flows_leaves t t' conns : leaves t t' → flows t conns → flows t' conns.
Proof.
  intros (Hs & Hl & Hw & Hn) [Hc Hi Hlow Hnew].
  split; unfold written in *; rewrite ?Hs, ?Hl, ?Hw, ?Hn; done.
Qed.

Lemma body_leaves m : keeps True leaves (body timeout m).
Proof.
  apply body_keeps.
  - intros t t' (Hi & Hs & Hl & _ & _ & Hw). unfold leaves. by rewrite Hi.
  - done.
  - done.
  - intros t f rest _. split_and!; try done. apply route_next_id.
  - done.
  - done.
Qed.

(** A step of one connection. *)
Lemma flows_conn t t' conns h p' s s' k got :
  t_streams t !! h = Some s → sid s' = sid s →
  t_streams t' = <[h := s']> (t_streams t) → next_id (t_inner t') = next_id (t_inner t) →
  (∀ h', h' ≠ h → t_ledger t' !! h' = t_ledger t !! h') →
  (∀ id, id ≠ sid s → written id t' = written id t) →
  t_ledger t' !! h = Some (k, got) → out_flow p' (written (sid s) t') → in_flow p' got →
  flows t conns → flows t' (<[h := p']> conns).
Proof.
  intros Hs Hsid Hs' Hn Hl Hw Hk Ho Hi [Hc Hids Hlow Hnew]. split.
  - intros h' q [[<- <-]|[Hne Hq]]%lookup_insert_Some.
    + exists s', k, got. by rewrite Hs', lookup_insert_eq, Hsid.
    + destruct (Hc h' q Hq) as (s1 & k1 & got1 & E1 & E2 & E3 & E4). exists s1, k1, got1.
      rewrite Hs', lookup_insert_ne, Hl, Hw by (done || intros E; by apply Hne, (Hids _ _ _ _ Hs E1)). done.
  - assert (Hback : ∀ j s0, t_streams t' !! j = Some s0 → ∃ s1, t_streams t !! j = Some s1 ∧ sid s0 = sid s1).
    { intros j s0. rewrite Hs'. intros [[<- <-]|[_ E0]]%lookup_insert_Some; eauto. }
    intros h1 h2 s1 s2 (a & E1 & ->)%Hback (b & E2 & ->)%Hback. by apply (Hids _ _ _ _ E1).
  - intros j s0. rewrite Hs', Hn. intros [[<- <-]|[_ E0]]%lookup_insert_Some; [|by eauto].
    rewrite Hsid. eauto.
  - intros id. rewrite Hn. intros Hid. rewrite Hw; [by apply Hnew|]. apply Hlow in Hs. lia.
Qed.

(** One that stays on its side of the tunnel. *)
Lemma flows_local t conns h p p' :
  conns !! h = Some p → flows t conns →
  (∀ put, out_flow p put → out_flow p' put) → (∀ got, in_flow p got → in_flow p' got) →
  flows t (<[h := p']> conns).
Proof.
  intros Hp Hf Ho Hi. destruct (fl_conn _ _ Hf h p Hp) as (s & k & got & Hs & Hk & Hout & Hin).
  eapply (flows_conn t t); eauto. by rewrite insert_id.
Qed.

(** What the operations on a stream do to the books. *)
Lemma written_snoc t t' id i b :
  t_written t' = t_written t ++ [(i, b)] →
  written id t' = written id t ++ if decide (i = id) then b else [].
Proof.
  intros Hw. unfold written. rewrite Hw, filter_app, fmap_app, concat_app, filter_cons, filter_nil.
  cbn [fst]. destruct (decide (i = id)); cbn; by rewrite ?app_nil_r.
Qed.

Lemma write_effect h s buf t :
  t_streams t !! h = Some s → h ∉ t_reading t →
  let t' := use (OpWrite h buf) t in
  t_streams t' = t_streams t ∧ t_ledger t' = t_ledger t ∧ next_id (t_inner t') = next_id (t_inner t)
  ∧ match (poll_write buf s (t_inner t)).1 with
    | Wrote n => (Z.to_nat n ≤ length buf)%nat ∧ t_written t' = t_written t ++ [(sid s, take (Z.to_nat n) buf)]
    | _ => t_written t' = t_written t
    end.
Proof.
  intros Hs Hr. cbn [use]. rewrite Hs, decide_False by done.
  destruct (poll_write_frames buf s (t_inner t)) as [q Hq].
  destruct (poll_write buf s (t_inner t)) as [r i] eqn:Ew. cbn in Hq. subst i.
  pose proof (grows_write _ _ _ _ _ Ew) as Hg. destruct r as [n| |]; try done.
  destruct Hg as (_ & _ & Hn). split_and!; try done. cbn [fst]. split; [unfold len in Hn; lia|done].
Qed.

Lemma shutdown_effect h s t :
  t_streams t !! h = Some s → h ∉ t_reading t →
  let t' := use (OpShutdown h) t in
  t_streams t' = <[h := (poll_shutdown s (t_inner t)).1.2]> (t_streams t)
  ∧ sid (poll_shutdown s (t_inner t)).1.2 = sid s ∧ t_ledger t' = t_ledger t
  ∧ next_id (t_inner t') = next_id (t_inner t) ∧ t_written t' = t_written t.
Proof.
  intros Hs Hr. cbn [use]. rewrite Hs, decide_False by done.
  destruct (poll_shutdown_frames s (t_inner t)) as [q Hq].
  assert (Hid : sid (poll_shutdown s (t_inner t)).1.2 = sid s).
  { unfold poll_shutdown. by repeat case_match. }
  destruct (poll_shutdown s (t_inner t)) as [[b s'] i]. cbn in Hq, Hid. by subst i.
Qed.

Lemma read_effect h s n t :
  t_streams t !! h = Some s → h ∉ t_reading t →
  let t' := use (OpRead h n) t in
  let r := poll_queue n s (t_inner t) in
  t_streams t' = <[h := r.1.2]> (t_streams t) ∧ sid r.1.2 = sid s
  ∧ t_ledger t' = alter (λ '(k, got), (k, got ++ read_bytes r.1.1)) h (t_ledger t)
  ∧ next_id (t_inner t') = next_id (t_inner t) ∧ t_written t' = t_written t
  ∧ (length (read_bytes r.1.1) ≤ n)%nat.
Proof.
  intros Hs Hr. cbn [use]. rewrite Hs, decide_False by done.
  pose proof (read_next_id n s (t_inner t)) as Hn.
  assert (Hid : sid (poll_queue n s (t_inner t)).1.2 = sid s
    ∧ (length (read_bytes (poll_queue n s (t_inner t)).1.1) ≤ n)%nat).
  { unfold poll_queue. repeat case_match; simplify_eq; cbn; rewrite ?length_take; split; (done || lia). }
  destruct (poll_queue n s (t_inner t)) as [[r s'] i]. cbn in Hn, Hid. by destruct Hid.
Qed.

Lemma flag_effect h s t :
  t_streams t !! h = Some s → h ∈ t_reading t →
  let t' := use (OpFlag h) t in
  t_streams t' = <[h := (poll_flag s (t_inner t)).2]> (t_streams t)
  ∧ sid (poll_flag s (t_inner t)).2 = sid s ∧ t_ledger t' = t_ledger t
  ∧ next_id (t_inner t') = next_id (t_inner t) ∧ t_written t' = t_written t
  ∧ bytes_of (poll_flag s (t_inner t)).1 = [].
Proof.
  intros Hs Hr. cbn [use]. rewrite Hs, decide_True by done.
  unfold poll_flag. by destruct (Mux.is_closed (t_inner t)).
Qed.

Lemma out_pump_flows m h s p t conns :
  conns !! h = Some p → t_streams t !! h = Some s → h ∉ t_reading t → flows t conns →
  let '(p', t') := out_pump m h s p t in flows t' (<[h := p']> conns).
Proof.
  intros Hp Hs Hr Hf. destruct (fl_conn _ _ Hf h p Hp) as (s0 & j & got & Hs0 & Hj & Ho & Hi).
  assert (s0 = s) as -> by congruence.
  assert (Hstay : flows t (<[h := p]> conns)) by by rewrite insert_id.
  unfold out_pump. destruct (pm_outbound p) as [k|n|r] eqn:Ep; [|destruct m; try done|done].
  - destruct m; try done.
    + destruct (copy_reads k) as [n|] eqn:Er; [|done]. destruct r as [bytes|e];
        (eapply flows_local; [done|done| |done]); intros put; unfold out_flow; rewrite Ep; cbn; intros ->.
      * destruct (copy_fed_spec k n (take n bytes) Er) as [-> _]; [rewrite length_take; lia|]. by rewrite app_assoc.
      * by apply prefix_app_r.
    + destruct (copy_writes k) as [|b bytes] eqn:Ew; [done|].
      destruct (write_effect h s (b :: bytes) t Hs Hr) as (E1 & E2 & E3 & E4).
      unfold out_flow in Ho. rewrite Ep in Ho.
      destruct (poll_write _ _ _).1 as [n| |e]; [destruct E4 as [Hle E4]| |];
        (eapply (flows_conn t); [exact Hs|done|by rewrite E1, insert_id|done|by rewrite E2| |by rewrite E2| |done|done]).
      * intros id Hid. rewrite (written_snoc _ _ _ _ _ E4), decide_False by congruence. by rewrite app_nil_r.
      * unfold out_flow. cbn. rewrite (written_snoc _ _ _ _ _ E4), decide_True by done.
        destruct (copy_writes_spec k) as [rest Hrest]. rewrite Ew in Hrest.
        destruct (copy_wrote_spec k (Z.to_nat n)) as [-> _]; [by rewrite Ew|].
        rewrite Ho, Hrest, <- app_assoc. f_equal. by rewrite drop_app_le, app_assoc, take_drop by done.
      * intros id _. unfold written. by rewrite E4.
      * unfold out_flow, written. rewrite Ep, E4. exact Ho.
      * intros id _. unfold written. by rewrite E4.
      * unfold out_flow, written. cbn [pm_outbound pm_tcp_in set_out]. rewrite E4, Ho. by apply prefix_app_r.
    + destruct (copy_result k) as [n|] eqn:Er; [|done]. eapply flows_local; [done|done| |done].
      intros put. unfold out_flow. rewrite Ep. cbn. intros ->.
      destruct (copy_result_spec k n Er) as [-> _]. apply app_nil_r.
  - destruct (shutdown_effect h s t Hs Hr) as (E1 & E2 & E3 & E4 & E5).
    unfold out_flow in Ho. rewrite Ep in Ho.
    eapply (flows_conn t); [exact Hs|exact E2|done|done|by rewrite E3| |by rewrite E3| |
      by destruct (poll_shutdown _ _).1.1|done].
    + intros id _. unfold written. by rewrite E5.
    + unfold out_flow, written. rewrite E5. destruct (poll_shutdown _ _).1.1; [done|]. by rewrite Ep.
Qed.

(** A read that returned [bytes], all at once or none. *)
Lemma in_flow_fed p k n bytes got :
  pm_inbound p = Copying k → copy_reads k = Some n → (length bytes ≤ n)%nat → in_flow p got →
  in_flow (set_in p (Copying (copy_fed bytes k)) (pm_tcp_out p)) (got ++ bytes).
Proof.
  intros Ep Er Hl. unfold in_flow. rewrite Ep. cbn. intros ->.
  destruct (copy_fed_spec k n bytes Er Hl) as [-> _]. by rewrite app_assoc.
Qed.

Lemma in_read_flows h s p t conns :
  conns !! h = Some p → t_streams t !! h = Some s → flows t conns →
  let '(p', t') := in_pump InRead h s p t in flows t' (<[h := p']> conns).
Proof.
  intros Hp Hs Hf. destruct (fl_conn _ _ Hf h p Hp) as (s0 & j & got & Hs0 & Hj & Ho & Hi).
  assert (s0 = s) as -> by congruence.
  assert (Hstay : flows t (<[h := p]> conns)) by by rewrite insert_id.
  unfold in_pump. destruct (pm_inbound p) as [k|n|r] eqn:Ep; [|done..].
  destruct (copy_reads k) as [n|] eqn:Er; [|done]. destruct (decide (h ∈ t_reading t)) as [Hr|Hr].
  - destruct (flag_effect h s t Hs Hr) as (E1 & E2 & E3 & E4 & E5 & E6).
    eapply (flows_conn t); [exact Hs|exact E2|done|done|by rewrite E3| |by rewrite E3|..].
    + intros id _. unfold written. by rewrite E5.
    + unfold written. rewrite E5. by destruct (poll_flag _ _).1.
    + destruct (poll_flag _ _).1 as [bytes|]; [|done]. cbn in E6. subst bytes.
      rewrite <- (app_nil_r got). eapply in_flow_fed; [done|done|cbn; lia|done].
    + done.
  - destruct (read_effect h s n t Hs Hr) as (E1 & E2 & E3 & E4 & E5 & E6).
    eapply (flows_conn t); [exact Hs|exact E2|done|done| | | | | |done].
    + intros h' Hne. by rewrite E3, lookup_alter_ne.
    + intros id _. unfold written. by rewrite E5.
    + rewrite E3, lookup_alter_eq, Hj. done.
    + unfold written. rewrite E5. by destruct (poll_queue _ _ _).1.1 as [[]|].
    + destruct (poll_queue _ _ _).1.1 as [[bytes|]|]; cbn in *; [|by rewrite app_nil_r..].
      by eapply in_flow_fed.
Qed.

Lemma in_pump_flows m h s p t conns :
  conns !! h = Some p → t_streams t !! h = Some s → flows t conns →
  let '(p', t') := in_pump m h s p t in flows t' (<[h := p']> conns).
Proof.
  intros Hp Hs Hf. assert (m = InRead ∨ m ≠ InRead) as [->|Hm] by (destruct m; auto);
    [by apply in_read_flows|].
  assert (Hstay : flows t (<[h := p]> conns)) by by rewrite insert_id.
  unfold in_pump. destruct (pm_inbound p) as [k|n|r] eqn:Ep; [destruct m; try done|destruct m; try done|done].
  - destruct (copy_writes k) as [|b bytes] eqn:Ew; [done|]. destruct r as [n|e];
      (eapply flows_local; [done|done|done|]); intros got; unfold in_flow; rewrite Ep;
      cbn [pm_inbound pm_tcp_out set_in]; intros ->.
    + unfold wrote_some. destruct (take n (b :: bytes)) as [|b' taken] eqn:Et.
      { rewrite app_nil_r. by apply prefix_app_r. }
      rewrite <- Et. clear b' taken Et.
      destruct (copy_writes_spec k) as [rest Hrest]. rewrite Ew in Hrest.
      destruct (copy_wrote_spec k (length (take n (b :: bytes)))) as [-> _].
      { rewrite Ew, length_take. lia. }
      rewrite Hrest, <- app_assoc. f_equal. set (a := b :: bytes).
      replace (a ++ rest) with (take n a ++ drop n a ++ rest) by by rewrite app_assoc, take_drop.
      by rewrite drop_app_length.
    + by apply prefix_app_r.
  - destruct (copy_result k) as [n|] eqn:Er; [|done]. eapply flows_local; [done|done|done|].
    intros got. unfold in_flow. rewrite Ep. cbn. intros ->.
    destruct (copy_result_spec k n Er) as [-> _]. apply app_nil_r.
  - eapply flows_local; [done|done|done|]. intros got. unfold in_flow. rewrite Ep.
    intros ->. cbn. reflexivity.
Qed.

Lemma pump_flows m h p t conns :
  conns !! h = Some p → flows t conns →
  let '(p', t') := pump_step m h p t in flows t' (<[h := p']> conns).
Proof.
  intros Hp Hf. assert (Hstay : flows t (<[h := p]> conns)) by by rewrite insert_id.
  unfold pump_step. destruct (t_streams t !! h) as [s|] eqn:Hs; [|done].
  destruct m; try (case_decide; [done|]); by (apply out_pump_flows || apply in_pump_flows).
Qed.

(** A connection that is accepted, as long as identifiers last. *)
Lemma open_flows t conns :
  tabled t → next_id (t_inner t) + 2 < 2 ^ 32 → flows t conns →
  flows (use OpOpen t) (match (open_stream (t_inner t)).1 with
                        | Ok s => <[cell s := Pumps_new]> conns
                        | Err _ => conns
                        end).
Proof.
  intros Ht Hn [Hc Hids Hlow Hnew]. pose proof (tb_table _ Ht) as Hwf. cbn [use].
  assert (Hid : next_id (t_inner t) ≤ next_id (open_stream (t_inner t)).2).
  { unfold open_stream. destruct (Mux.is_closed _); [done|]. cbv zeta.
    assert (0 ≤ next_id (t_inner t)).
    { destruct (wf_odd _ Hwf) as [_ Hu]. unfold unclosed, in_u in Hu. cbn in Hu. bool_lia. }
    destruct (try_send _ _) as [[] q]; unfold remove_entry; cbn; repeat case_match; cbn;
      rewrite wrap_u_small; lia. }
  destruct (open_stream (t_inner t)) as [[s|e] i] eqn:Eo; cbn in Hid |- *.
  2: { split; cbn; eauto with lia. intros h s Hs. apply Hlow in Hs. lia. }
  destruct (linked_opened _ _ _ Hwf Hn Eo) as [[Hlt _ _] _].
  assert (Hsid : sid s = next_id (t_inner t)).
  { revert Eo. unfold open_stream. destruct (Mux.is_closed _); [done|]. cbv zeta.
    by destruct (try_send _ _) as [[] q]; intros [= <- _]. }
  split; cbn.
  - intros h p [[<- <-]|[Hne Hp]]%lookup_insert_Some.
    + exists s, (length (t_routed t)), []. rewrite !lookup_insert_eq. split_and!; try done.
      * unfold out_flow. cbn. destruct copy_new_spec as [-> _]. rewrite app_nil_r. symmetry. apply Hnew. lia.
      * unfold in_flow. cbn. by destruct copy_new_spec as [-> _].
    + destruct (Hc h p Hp) as (s1 & k & got & ?). exists s1, k, got. by rewrite !lookup_insert_ne.
  - intros h h' s1 s2 [[<- <-]|[Hne E1]]%lookup_insert_Some [[<- <-]|[Hne' E2]]%lookup_insert_Some.
    + done.
    + apply Hlow in E2. lia.
    + apply Hlow in E1. lia.
    + by apply (Hids _ _ _ _ E1 E2).
  - intros h s1 [[<- <-]|[_ E1]]%lookup_insert_Some; [lia|]. apply Hlow in E1. lia.
  - intros id Hle. apply Hnew. lia.
Qed.

Lemma end_flows h t conns :
  h ∉ t_reading t → flows t conns → flows (use (OpDrop h) t) (delete h conns).
Proof.
  intros Hr [Hc Hids Hlow Hnew]. cbn [use]. destruct (t_streams t !! h) as [s|] eqn:Hs.
  - rewrite decide_False by done. split; cbn [with_streams with_inner t_streams t_ledger t_inner].
    + intros h' p [Hne Hp]%lookup_delete_Some. destruct (Hc h' p Hp) as (s1 & k & got & ?).
      exists s1, k, got. by rewrite lookup_delete_ne.
    + intros h1 h2 s1 s2 [_ E1]%lookup_delete_Some [_ E2]%lookup_delete_Some. by apply (Hids _ _ _ _ E1).
    + intros h1 s1 [_ E1]%lookup_delete_Some. rewrite drop_next_id. eauto.
    + intros id. rewrite drop_next_id. apply Hnew.
  - split; try done. intros h' p [_ Hp]%lookup_delete_Some. eauto.
Qed.

(** ** The whole way *)

Lemma step_flows f ev :
  tabled (s_world (f_sys f)) → next_id (t_inner (s_world (f_sys f))) + 2 * accepts ev < 2 ^ 32 →
  (∀ m, task_keeps True leaves (s_task (f_sys f) m)) → flows (s_world (f_sys f)) (f_conns f) →
  let f' := fwd_step f ev in
  flows (s_world (f_sys f')) (f_conns f') ∧ ∀ m, task_keeps True leaves (s_task (f_sys f') m).
Proof.
  intros Ht Hn Hk Hf. destruct ev as [ev| |h m|h]; cbn [fwd_step].
  - destruct ev as [ev|m| |op]; cbn [tunnel_step f_sys f_conns]; [| | |done].
    + destruct (owned _ _); [done|]. split; [|done]. by apply (flows_leaves (s_world (f_sys f))).
    + destruct (poll_sys_keeps (body timeout) True leaves m (f_sys f)) as [Hl Hk'];
        [done|apply body_leaves|done|]. split; [by apply (flows_leaves (s_world (f_sys f)))|done].
    + split; [|done]. by apply (flows_leaves (s_world (f_sys f))).
  - split; [|done]. by apply open_flows.
  - destruct (f_conns f !! h) as [p|] eqn:Hp; [|done].
    pose proof (pump_flows m h p _ _ Hp Hf) as Hf'. by destruct (pump_step _ _ _ _).
  - destruct (f_conns f !! h) as [p|]; [|done]. case_decide; [done|]. split; [by apply end_flows|done].
Qed.

Context (base : nat) (w0 : World (C := C)).
Abbreviation fwd_new ka := {| f_sys := smux_new ka (spawn w0); f_conns := ∅ |}.

(** The tunnel of a run is in order, whatever the connections do. *)
Lemma run_tabled ka evs :
  Forall fwd_through evs → 1 + 2 * accepted_conns evs < 2 ^ 32 →
  let t := s_world (f_sys (fwd_run (fwd_new ka) evs)) in
  tabled t ∧ next_id (t_inner t) ≤ 1 + 2 * accepted_conns evs.
Proof.
  intros Hevs Hn t. destruct (run_trace evs (fwd_new ka) Hevs) as (evs' & Hr & _ & Hids).
  destruct (tabled_new ka (spawn w0)) as [Htab Hkeep]. unfold t. rewrite Hr, <- Hids.
  apply (tabled_run timeout evs' _ Hkeep Htab). cbn. lia.
Qed.

Lemma accepted_snoc evs ev : accepted_conns (evs ++ [ev]) = accepted_conns evs + accepts ev.
Proof. unfold accepted_conns. induction evs as [|e evs IH]; cbn; [lia|]. rewrite IH. lia. Qed.

Lemma run_flows ka evs :
  Forall fwd_through evs → 1 + 2 * accepted_conns evs < 2 ^ 32 →
  let f := fwd_run (fwd_new ka) evs in
  flows (s_world (f_sys f)) (f_conns f) ∧ ∀ m, task_keeps True leaves (s_task (f_sys f) m).
Proof.
  induction evs as [|ev evs IH] using rev_ind; intros Hevs Hn.
  { split; [by split|]. intros m. cbn. by destruct (decide _). }
  apply Forall_app in Hevs as [Hevs _]. rewrite accepted_snoc in Hn.
  assert (0 ≤ accepts ev) by by destruct ev.
  destruct (IH Hevs ltac:(lia)) as [Hf Hk]. destruct (run_tabled ka evs Hevs ltac:(lia)) as [Ht Hid].
  unfold fwd_run in *. rewrite foldl_app. cbn [foldl]. apply step_flows; [done|lia|done|done].
Qed.

(** C14: port forwarding from end to end.  A forwarder's connections, the multiplexer's
    tasks and the data channel's tasks run in any interleaving, with any loss, duplication
    and reordering of the agent's messages.  Every connection has an identifier of its
    own.  What its TCP peer sent is, byte for byte, what the frames queued for that
    identifier carry and what the copy loop still holds; those frames are handed to the
    session in order, and the messages the channel numbers carry a prefix of them.  The
    other way, the frames routed are a stretch of what the agent sent, and what was
    written to the TCP peer is a prefix of what they push to the identifier since the
    stream was opened, the rest of what was read being in the copy loop's hands. *)
Theorem forwarded_end_to_end ka evs :
  (∀ k m, agent !! k = Some m → sequence_number m = Z.of_nat k) → #agent < 2 ^ 63 →
  all_readable agent base (cipher (stream w0)) → starts agent base w0 →
  1 ≤ w_chunk_size w0 → queued (n_commands (w_net w0)) = [] → rx_alive (n_commands (w_net w0)) = true →
  Forall fwd_through evs → 1 + 2 * accepted_conns evs < 2 ^ 32 →
  let f := fwd_run (fwd_new ka) evs in
  let t := s_world (f_sys f) in
  let sent := outputs (cipher (stream w0)) (drop base agent) in
  concat (by_commands (session_of t)).*2 `prefix_of` concat (t_sent t)
  ∧ t_sent t `prefix_of` t_posted t
  ∧ (∃ before rest, concat sent = concat before ++ concat (enc <$> t_routed t) ++ rest
                    ∧ before `prefix_of` sent)
  ∧ (∀ h p, f_conns f !! h = Some p → ∃ s k got,
       t_streams t !! h = Some s
       ∧ out_flow p (psh_of (sid s) (t_posted t))
       ∧ in_flow p got ∧ got `prefix_of` pushed (sid s) (drop k (t_routed t))
       ∧ ∀ h' s', t_streams t !! h' = Some s' → sid s' = sid s → h' = h).
Proof.
  intros Hseq Hlen Hread Hst Hc Hq Hrx Hevs Hn f t sent.
  destruct (run_flows ka evs Hevs Hn) as [[Hconn Hids _ _] _].
  destruct (run_tabled ka evs Hevs Hn) as [[_ _ Hstr] _]. fold f t in Hconn, Hids, Hstr.
  destruct (run_trace evs (fwd_new ka) Hevs) as (evs' & Hr & Hevs' & _). fold f in Hr. cbn [f_sys] in Hr.
  destruct (booked_new ka (spawn w0)) as [Hb Hkeep].
  pose proof (booked_run timeout evs' _ Hkeep Hb) as [_ _ Hout]. rewrite <- Hr in Hout. fold t in Hout.
  pose proof (send_run timeout agent base w0 Hst evs' _ Hevs'
    (spawn_sends timeout agent base w0 Hst ka)) as Hsend.
  pose proof (recv_run timeout agent base w0 Hst Hseq Hlen Hread evs' _ Hevs'
    (spawn_receives timeout agent base w0 ka)) as Hrecv.
  rewrite <- Hr in Hsend, Hrecv.
  destruct (sent_chain timeout agent base w0 Hst _ Hc Hq Hrx Hsend) as [? ?].
  split_and!; [done|done|exact (routed_chain timeout agent base w0 Hst Hseq Hlen Hread _ Hrecv)|].
  intros h p (s & k & got & Hs & Hl & Ho & Hi)%Hconn. exists s, k, got.
  destruct (Hstr h s Hs) as (_ & k' & got' & Hl' & _ & Hlk). rewrite Hl in Hl'. injection Hl' as <- <-.
  rewrite Hout. split_and!; try done.
  - destruct (ln_cell _ _ _ _ Hlk) as (c & _ & _ & Hp). etransitivity; [|exact Hp]. by apply prefix_app_r.
  - intros h' s' Hs' Hid. by apply (Hids _ _ _ _ Hs' Hs).
Qed.
End Forwarding.

(** ** Witnesses *)

Section ForwardingWitnesses.
#[local] Existing Instance toy_sha.
#[local] Existing Instance toy_uuid.
#[local] Existing Instance toy_gcm.
#[local] Existing Instance toy_base64.
#[local] Existing Instance toy_json.
#[local] Existing Instance toy_ack.
#[local] Existing Instance no_serde.
#[local] Existing Instance toy_platform.

(** A peer sends three bytes; of the agent's two it has been sent one. *)
Definition toy_down (evs : list TunnelEvent) : list FwdEvent := Down <$> evs.
Definition toy_traffic : list FwdEvent :=
  toy_down (toy_mux Recv 2)
  ++ [Open; Move 0 (OutRead (Ok [x61; x62; x63])); Move 0 OutWrite]
  ++ toy_down (toy_mux Send 12 ++ toy_arrive 0 ++ toy_mux Recv 11 ++ toy_arrive 1 ++ toy_mux Recv 12)
  ++ [Move 0 InRead; Move 0 (InWrite (Ok 1%nat))] ++ toy_down (Below <$> toy_polls Commands 90).
Abbreviation toy_fwd := (fwd_run (C := Chan) (N := Bell) (K := list byte * bool) 100
  {| f_sys := smux_new false (spawn toy_world); f_conns := ∅ |} toy_traffic).

Lemma toy_down_through evs : Forall (through toy_parts) evs → Forall (fwd_through toy_parts) (toy_down evs).
Proof. intros Hevs. by apply Forall_fmap. Qed.

Lemma toy_traffic_through : Forall (fwd_through toy_parts) toy_traffic.
Proof.
  unfold toy_traffic. rewrite !Forall_app. split_and!.
  - apply toy_down_through, Forall_replicate. exact I.
  - by repeat constructor.
  - apply toy_down_through. rewrite !Forall_app. unfold toy_mux.
    split_and!; try (apply Forall_replicate; exact I); apply toy_arrive_through; lia.
  - by repeat constructor.
  - apply toy_down_through, Forall_fmap, Forall_replicate. exact I.
Qed.

Lemma forwarded_end_to_end_witness :
  ∃ p s k got, f_conns toy_fwd !! 0%nat = Some p
    ∧ pm_tcp_in p = [x61; x62; x63] ∧ pm_tcp_out p = [x68]
    ∧ out_flow p (psh_of (sid s) (t_posted (s_world (f_sys toy_fwd))))
    ∧ in_flow p got ∧ got `prefix_of` pushed (sid s) (drop k (t_routed (s_world (f_sys toy_fwd)))).
Proof.
  destruct (forwarded_end_to_end 100 toy_parts 0 toy_world false toy_traffic toy_parts_seq ltac:(done)
    toy_parts_readable toy_parts_start ltac:(vm_compute; discriminate) eq_refl eq_refl
    toy_traffic_through ltac:(vm_compute; reflexivity)) as (_ & _ & _ & Hc).
  set (p := {| pm_outbound := Copying ([], false); pm_inbound := Copying ([x69], false);
               pm_tcp_in := [x61; x62; x63]; pm_tcp_out := [x68] |}).
  destruct (Hc 0%nat p) as (s & k & got & _ & Ho & Hi & Hp & _); [vm_compute; reflexivity|].
  exists p, s, k, got. split; [vm_compute; reflexivity|].
  split; [reflexivity|]. split; [reflexivity|]. split; [exact Ho|]. split; [exact Hi|exact Hp].
Defined.
End ForwardingWitnesses.
