(* ===== verification/Metrics.v ===== *)
(** * Metrics (src/metrics.rs)

    The process-wide recorder is a [OnceLock].  A recorder is whatever implements
    the trait; here it is a name, and what it was told is a log of calls.  An
    [f64] observation is opaque. *)

From S2P Require Import Prelude RustStd.

Section Metrics.
Context {Recorder F64 : Type}.

(** The calls of the trait [MetricsRecorder]. *)
Inductive Call := Counter (name : str) (value : Z (* u64 *)) | Histogram (name : str) (value : F64).

Record Registry := { RECORDER : option Recorder; told : list (Recorder * Call) }.
Definition Registry_new : Registry := {| RECORDER := None; told := [] |}.

(** [register]: [OnceLock::set] hands a second recorder back. *)
Definition register (r : Recorder) (g : Registry) : Result Recorder () * Registry :=
  match RECORDER g with
  | Some _ => (Err r, g)
  | None => (Ok (), {| RECORDER := Some r; told := told g |})
  end.

Definition tell (c : Call) (g : Registry) : Registry :=
  match RECORDER g with
  | Some r => {| RECORDER := RECORDER g; told := told g ++ [(r, c)] |}
  | None => g
  end.
Definition counter (name : str) (value : Z) (g : Registry) : Registry := tell (Counter name value) g.
Definition histogram (name : str) (value : F64) (g : Registry) : Registry :=
  tell (Histogram name value) g.

(** ** Histories *)

Inductive metrics_op := Register (r : Recorder) | Count (name : str) (v : Z) | Observe (name : str) (v : F64).

Definition metrics_step (g : Registry) (o : metrics_op) : Registry :=
  match o with
  | Register r => (register r g).2
  | Count n v => counter n v g
  | Observe n v => histogram n v g
  end.

(** The first registration, and the calls after it. *)
Fixpoint first_recorder (os : list metrics_op) : option (Recorder * list metrics_op) :=
  match os with
  | [] => None
  | Register r :: os => Some (r, os)
  | _ :: os => first_recorder os
  end.
Definition calls (os : list metrics_op) : list Call :=
  omap (λ o, match o with
             | Register _ => None
             | Count n v => Some (Counter n v)
             | Observe n v => Some (Histogram n v)
             end) os.

Lemma recorded os : ∀ r t,
  foldl metrics_step {| RECORDER := Some r; told := t |} os
  = {| RECORDER := Some r; told := t ++ map (pair r) (calls os) |}.
Proof.
  induction os as [|[r'|n v|n v] os IH]; intros r t; cbn; [by rewrite app_nil_r|apply IH|..];
    unfold counter, histogram, tell; cbn; by rewrite IH, <- app_assoc.
Qed.

(** Registration is one-shot.  Over any history the recorder in place is the
    first one registered, every later one is handed back to its caller, and the
    recorder in place has been told exactly the counters and observations made
    since it was registered, in order; nothing is kept for anybody else. *)
Theorem register_once os r' :
  let g := foldl metrics_step Registry_new os in
  match first_recorder os with
  | None => g = Registry_new ∧ (register r' g).1 = Ok ()
  | Some (r, rest) => RECORDER g = Some r ∧ told g = map (pair r) (calls rest)
                      ∧ register r' g = (Err r', g)
  end.
Proof.
  cbv zeta. induction os as [|o os IH]; [done|]. cbn [foldl first_recorder].
  destruct o as [r|n v|n v]; cbn [metrics_step]; [|exact IH..].
  change (register r Registry_new).2 with {| RECORDER := Some r; told := [] |}.
  rewrite recorded. done.
Qed.
End Metrics.

(** The names the crate emits. *)
Definition SESSIONS_STARTED : str := lit "ssm_sessions_started_total".
Definition SESSIONS_ENDED : str := lit "ssm_sessions_ended_total".
Definition MESSAGES_SENT : str := lit "ssm_messages_sent_total".
Definition MESSAGES_RECEIVED : str := lit "ssm_messages_received_total".
Definition BYTES_SENT : str := lit "ssm_bytes_sent_total".
Definition BYTES_RECEIVED : str := lit "ssm_bytes_received_total".
Definition RETRANSMISSIONS : str := lit "ssm_retransmissions_total".
Definition ACKS_RECEIVED : str := lit "ssm_acks_received_total".
Definition RTT_SECONDS : str := lit "ssm_rtt_seconds".
Definition HANDSHAKE_SECONDS : str := lit "ssm_handshake_seconds".

(** Before a recorder is installed nothing is kept; a second one is refused. *)
Example metrics_example :
  let g := foldl metrics_step (Registry_new (Recorder := nat) (F64 := unit))
             [Count MESSAGES_SENT 1; Register 7%nat; Count BYTES_SENT 24; Register 8%nat] in
  g = {| RECORDER := Some 7%nat; told := [(7%nat, Counter BYTES_SENT 24)] |}.
Proof. reflexivity. Qed.
