(* ===== verification/Python.v ===== *)
(** * Python bindings (src/python)

    Errors as Python exceptions with their class hierarchy, logging, the
    construction of a session configuration from Python arguments, and the classes
    [SessionManager], [Session], [OutputStream], [PortForwarder] and
    [InteractiveShell], each method as what its future does to the Rust object.

    A Python float is an IEEE double in the Standard Library's [spec_float]; its
    conversions to and from [Duration] are the Rust standard library's.  The
    interpreter's [async with] is written out in [async_with]. *)

From Stdlib Require Import SpecFloat.
From S2P Require Import Prelude RustStd Errors Interfaces BinaryProtocol Crypto Channels Documents.
From S2P Require Import Session Termination Endpoint Terminal Signing Channel Builder Interactive.
From S2P Require PortForward.

(** ** Exceptions *)

Inductive PyClass :=
| PyException | PyValueError | PyRuntimeError | PyStopAsyncIteration
| SsmError | SsmAwsError | SsmProtocolError | SsmTransportError | SsmClosedError
| SsmCryptoError | SsmTimeoutError.
#[export] Instance PyClass_eq_dec : EqDecision PyClass.
Proof. solve_decision. Defined.

(** The base class given to [create_exception!]; Python's own derive from
    [Exception]. *)
Definition base_class (c : PyClass) : option PyClass :=
  match c with
  | PyException => None
  | PyValueError | PyRuntimeError | PyStopAsyncIteration | SsmError => Some PyException
  | _ => Some SsmError
  end.
(** Whether [except c] catches an exception of class [d]: the chain is three long. *)
Definition catches (c d : PyClass) : bool :=
  let up d := d ≫= base_class in
  bool_decide (Some c ∈ [Some d; up (Some d); up (up (Some d))]).

Record PyErr := { py_class : PyClass; py_text : text }.
Definition new_err (c : PyClass) (t : text) : PyErr := {| py_class := c; py_text := t |}.

Abbreviation PyResult := (Result PyErr).

Definition to_py_err (e : Error) : PyErr :=
  match e with
  | Error_Aws m _ => new_err SsmAwsError m
  | Error_Protocol m => new_err SsmProtocolError m
  | Error_Transport m => new_err SsmTransportError m
  | Error_SessionClosed m => new_err SsmClosedError m
  | Error_Crypto m => new_err SsmCryptoError m
  | Error_Timeout d => new_err SsmTimeoutError [PLit "operation timed out after "; PDuration d]
  | Error_Config m => new_err PyValueError m
  | Error_Unsupported m => new_err PyRuntimeError m
  | other => new_err SsmError (to_string other)
  end.

(** Which Rust errors [except SsmError] catches: all but the two that the
    module's comment "Catch [SsmError] for everything" does not mention, invalid
    configurations (a [ValueError]) and unsupported requests (a [RuntimeError]);
    and an exception is of one of the specific classes exactly when the failure is
    of that kind. *)
Theorem ssm_error_catches e :
  (catches SsmError (py_class (to_py_err e)) = false ↔
     (∃ m, e = Error_Config m) ∨ (∃ m, e = Error_Unsupported m))
  ∧ (py_class (to_py_err e) = PyValueError ↔ ∃ m, e = Error_Config m)
  ∧ (py_class (to_py_err e) = SsmTimeoutError ↔ ∃ d, e = Error_Timeout d)
  ∧ (py_class (to_py_err e) = SsmClosedError ↔ ∃ m, e = Error_SessionClosed m)
  ∧ (py_class (to_py_err e) = SsmTransportError ↔ ∃ m, e = Error_Transport m)
  ∧ catches PyException (py_class (to_py_err e)) = true.
Proof.
  destruct e; cbn; split_and!; try (by vm_compute); (split; [|naive_solver]);
    intros Hc; try (by vm_compute in Hc); eauto.
Qed.

(** ** Logging *)

Inductive LevelFilter := OFF | ERROR | WARN | INFO | DEBUG | TRACE.

Definition level_of (level : str) : option LevelFilter :=
  let l := map ascii_lower level in
  if decide (l = lit "off") then Some OFF
  else if decide (l = lit "error") then Some ERROR
  else if decide (l = lit "warn") then Some WARN
  else if decide (l = lit "info") then Some INFO
  else if decide (l = lit "debug") then Some DEBUG
  else if decide (l = lit "trace") then Some TRACE
  else None.

(** [configure_logging]: the process has at most one subscriber, its filter made
    from [RUST_LOG] and the default directive ([env_filter]). *)
Definition configure_logging {F} (env_filter : LevelFilter → F) (level : str) (g : option F)
  : PyResult () * option F :=
  match level_of level with
  | None => (Err (new_err PyValueError [PLit "unknown log level "; PDebugStr (map ascii_lower level);
               PLit "; use off, error, warn, info, debug or trace"]), g)
  | Some l => (Ok (), match g with Some f => Some f | None => Some (env_filter l) end)
  end.

(** ** Seconds *)

(** [f64]. *)
Definition prec : Z := 53.
Definition emax : Z := 1024.
Abbreviation f64 := spec_float.

Definition f64_of_Z (z : Z) : f64 := binary_normalize prec emax z 0 false.
Definition is_finite (v : f64) : bool :=
  match v with S754_zero _ | S754_finite _ _ _ => true | _ => false end.

(** [Duration::as_secs_f64]: [secs as f64 + nanos as f64 / 1e9]. *)
Definition as_secs_f64 (d : Duration) : f64 :=
  SFadd prec emax (f64_of_Z (d / 1000000000))
    (SFdiv prec emax (f64_of_Z (d mod 1000000000)) (f64_of_Z 1000000000)).

(** Division rounded to nearest, ties to even. *)
Definition div_nearest_even (a b : Z) : Z :=
  let q := a / b in let r := a mod b in
  if 2 * r <? b then q else if b <? 2 * r then q + 1 else if Z.even q then q else q + 1.

(** [Duration::from_secs_f64]: to the nearest nanosecond; negative values, NaN and
    anything of 2^64 seconds or more panic. *)
Definition from_secs_f64 (v : f64) : Outcome Duration :=
  match v with
  | S754_zero _ => Done 0
  | S754_infinity _ | S754_nan => Panicked
  | S754_finite true _ _ => Panicked
  | S754_finite false m e =>
    if 0 <=? e then
      if 2 ^ 64 <=? Zpos m * 2 ^ e then Panicked else Done (Zpos m * 2 ^ e * 1000000000)
    else
      let d := div_nearest_even (Zpos m * 1000000000) (2 ^ (- e)) in
      if DURATION_MAX <? d then Panicked else Done d
  end.

Definition seconds (v : f64) (name : string) : Outcome (PyResult Duration) :=
  if negb (is_finite v) || SFltb v (S754_zero false) || SFltb (as_secs_f64 DURATION_MAX) v then
    Done (Err (new_err PyValueError
      [PLit name; PLit " must be a finite, non-negative number of seconds, got "; PF64 v]))
  else d ← from_secs_f64 v; Done (Ok d).

(** *** Lemmas on doubles *)

(** [Duration::MAX.as_secs_f64()] is 2^64, one more than the seconds it has. *)
Lemma max_secs : as_secs_f64 DURATION_MAX = S754_finite false 4503599627370496 12.
Proof. vm_compute. reflexivity. Qed.

Lemma digits2_bounds p : 2 ^ (Zpos (digits2_pos p) - 1) ≤ Zpos p < 2 ^ Zpos (digits2_pos p).
Proof.
  induction p as [p IH|p IH|]; cbn [digits2_pos]; [| |done];
    rewrite Pos2Z.inj_succ; replace (Z.succ (Zpos (digits2_pos p)) - 1) with (Zpos (digits2_pos p)) by lia;
    rewrite Z.pow_succ_r by lia;
    assert (2 ^ Zpos (digits2_pos p) = 2 * 2 ^ (Zpos (digits2_pos p) - 1))
      by (rewrite <- Z.pow_succ_r by lia; f_equal; lia); lia.
Qed.

(** A double's mantissa has at most 53 bits, and exactly 53 above the subnormals. *)
Lemma valid_mantissa m e :
  valid_binary prec emax (S754_finite false m e) = true →
  Zpos m < 2 ^ 53 ∧ (-1074 < e → 2 ^ 52 ≤ Zpos m) ∧ -1074 ≤ e.
Proof.
  cbn. unfold bounded, canonical_mantissa, fexp, SpecFloat.emin, prec, emax.
  rewrite andb_true_iff, Z.eqb_eq. intros [Hc _].
  pose proof (digits2_bounds m) as [Hl Hu]. set (d := Zpos (digits2_pos m)) in *.
  assert (Hd : d ≤ 53) by lia. split_and!; [|intros He|lia].
  - eapply Z.lt_le_trans; [exact Hu|]. apply Z.pow_le_mono_r; lia.
  - replace d with 53 in Hl by lia. exact Hl.
Qed.

Lemma div_nearest_even_spec a b :
  0 < b → 2 * Z.abs (div_nearest_even a b * b - a) ≤ b.
Proof.
  intros Hb. unfold div_nearest_even. pose proof (Z.div_mod a b ltac:(lia)) as Hd.
  pose proof (Z.mod_pos_bound a b Hb). set (q := a / b) in *. set (r := a mod b) in *.
  destruct (Z.ltb_spec (2 * r) b); [nia|]. destruct (Z.ltb_spec b (2 * r)); [nia|].
  destruct (Z.even q); nia.
Qed.

Lemma nearest_small m k :
  Zpos m < 2 ^ 53 → 0 < k → div_nearest_even (Zpos m * 1000000000) (2 ^ k) ≤ DURATION_MAX.
Proof.
  intros Hm Hk. assert (0 < 2 ^ k) by lia.
  pose proof (div_nearest_even_spec (Zpos m * 1000000000) (2 ^ k) ltac:(lia)) as Hs.
  set (d := div_nearest_even _ _) in *. assert (2 ≤ 2 ^ k) by (change 2 with (2 ^ 1) at 1; apply Z.pow_le_mono_r; lia).
  assert (2 ^ 53 * 1000000000 < DURATION_MAX) by done. nia.
Qed.

(** A double is above the bound of the check exactly when it is above 2^64. *)
Lemma above_max m e :
  valid_binary prec emax (S754_finite false m e) = true →
  SFltb (S754_finite false 4503599627370496 12) (S754_finite false m e)
  = (0 <=? e) && (2 ^ 64 <? Zpos m * 2 ^ e).
Proof.
  intros Hv. apply valid_mantissa in Hv as (Hm & Hn & He).
  assert (Hp : SFltb (S754_finite false 4503599627370496 12) (S754_finite false m e) =
    match 12 ?= e with Lt => true | Gt => false | Eq => (4503599627370496 <? Zpos m) end).
  { unfold SFltb, SFcompare, Z.ltb, Z.compare. destruct e as [|p|p]; [done| |done].
    destruct (12 ?= p)%positive; reflexivity. }
  rewrite Hp. change (2 ^ 64) with (4503599627370496 * 2 ^ 12). change (2 ^ 52) with 4503599627370496 in Hn.
  change (2 ^ 53) with 9007199254740992 in Hm.
  destruct (Z.compare_spec 12 e) as [<-|Hlt|Hgt]; symmetry.
  - change (2 ^ 12) with 4096. cbn [Z.leb Z.compare andb].
    destruct (Z.ltb_spec 4503599627370496 (Zpos m)); [apply Z.ltb_lt|apply Z.ltb_ge]; lia.
  - rewrite (proj2 (Z.leb_le 0 e)) by lia. apply Z.ltb_lt. specialize (Hn ltac:(lia)).
    assert (2 * 2 ^ 12 ≤ 2 ^ e) by (change (2 * 2 ^ 12) with (2 ^ 13); apply Z.pow_le_mono_r; lia).
    change (2 ^ 12) with 4096 in *. nia.
  - destruct (Z.leb_spec 0 e); [|done]. apply Z.ltb_ge.
    assert (2 * 2 ^ e ≤ 2 ^ 12) by (rewrite <- Z.pow_succ_r by done; apply Z.pow_le_mono_r; lia).
    change (2 ^ 12) with 4096 in *. nia.
Qed.

(** C39: what [seconds] makes of any double.  NaN, infinities, negative numbers and
    numbers above 2^64 raise a [ValueError]; zero of either sign is zero; every
    other number below 2^64 becomes the duration nearest to it.  At exactly 2^64
    seconds it panics: the check compares with [Duration::MAX.as_secs_f64()], which
    rounds up to 2^64, although the function is there to reject "the values that
    would otherwise panic". *)
Theorem seconds_spec v name :
  valid_binary prec emax v = true →
  match v with
  | S754_zero _ => seconds v name = Done (Ok 0)
  | S754_infinity _ | S754_nan | S754_finite true _ _ =>
    ∃ t, seconds v name = Done (Err (new_err PyValueError t))
  | S754_finite false m e =>
    match seconds v name with
    | Done (Ok d) => (if 0 <=? e then Zpos m * 2 ^ e < 2 ^ 64 ∧ d = Zpos m * 2 ^ e * 1000000000
                      else 2 * Z.abs (d * 2 ^ (- e) - Zpos m * 1000000000) ≤ 2 ^ (- e))
                     ∧ 0 ≤ d ≤ DURATION_MAX
    | Done (Err x) => 0 ≤ e ∧ 2 ^ 64 < Zpos m * 2 ^ e ∧ py_class x = PyValueError
    | Panicked => 0 ≤ e ∧ Zpos m * 2 ^ e = 2 ^ 64
    end
  end.
Proof.
  intros Hv. unfold seconds. rewrite max_secs.
  destruct v as [s|s| |[] m e]; [by destruct s|by eexists..|].
  rewrite (above_max _ _ Hv). apply valid_mantissa in Hv as (Hm & _ & _).
  change (negb (is_finite (S754_finite false m e)) || SFltb (S754_finite false m e) (S754_zero false))
    with false. cbn [orb from_secs_f64]. set (x := Zpos m * 2 ^ e).
  destruct (Z.leb_spec 0 e) as [He|He]; cbn [andb].
  - destruct (Z.ltb_spec (2 ^ 64) x); [done|].
    destruct (Z.leb_spec (2 ^ 64) x); cbn [mbind Outcome_bind]; [split; lia|].
    assert (0 ≤ x) by (unfold x; lia). change (2 ^ 64) with 18446744073709551616 in *.
    unfold DURATION_MAX. cbn. lia.
  - pose proof (nearest_small m (- e) Hm ltac:(lia)).
    pose proof (div_nearest_even_spec (Zpos m * 1000000000) (2 ^ (- e)) ltac:(lia)) as Hs.
    set (d := div_nearest_even _ _) in *.
    destruct (Z.ltb_spec DURATION_MAX d); [lia|]. cbn [mbind Outcome_bind]. split; [done|].
    split; [|lia]. assert (0 < 2 ^ (- e)) by lia. nia.
Qed.

Lemma seconds_spec_witness :
  seconds (S754_finite false 4503599627370496 12) "ready_timeout" = Panicked
  ∧ 4503599627370496 * 2 ^ 12 = 2 ^ 64
  ∧ seconds (S754_finite false 3 (-1)) "t" = Done (Ok 1500000000).
Proof.
  assert (E : seconds (S754_finite false 4503599627370496 12) "ready_timeout" = Panicked)
    by (vm_compute; reflexivity).
  split; [exact E|]. split; [|vm_compute; reflexivity].
  pose proof (seconds_spec (S754_finite false 4503599627370496 12) "ready_timeout"
    ltac:(vm_compute; reflexivity)) as Hs. cbv beta iota in Hs. rewrite E in Hs. apply Hs.
Defined.

(** ** [SessionManager] *)

Abbreviation Parameters := (gmap str (list str)).

(** Only the name of a document is known here, so its session type is read off it. *)
Definition document_spec (name : str) (parameters : Parameters) : Documents.DocumentSpec :=
  {| Documents.name := name; Documents.spec_parameters := parameters;
     Documents.spec_session_type :=
       if starts_with name (lit "AWS-StartPortForwardingSession") then Documents.Port
       else Documents.StandardStream |}.

Definition build_config (target : str) (document_name : option str)
    (parameters : option Parameters) (reason : option str) (ready_timeout : f64)
  : Outcome (PyResult SessionConfig) :=
  let parameters := default ∅ parameters in
  let document := (λ name, document_spec name parameters) <$> document_name in
  t ← seconds ready_timeout "ready_timeout";
  Done (t ← t;
        let c := SessionConfig_new target in
        Ok (set_times (set_reason (set_document c document) reason)
              t (heartbeat_interval c) (idle_timeout c))).

(** The configurations of the two port-forwarding methods. *)
Definition forward_config {D} `{Documents.SsmDocument D} (target : str) (d : D)
    (reason : option str) : SessionConfig :=
  set_reason (set_document (SessionConfig_new target) (Some (Documents.DocumentSpec_new d))) reason.

Module PySessionManager.
Section Manager.
Context {C : Type → Type} `{Mpsc C} {Provider : Type}.
Abbreviation Signer := (UpgradeSigner (Provider := Provider)).
Abbreviation Manager := (SessionManager (Signer := Signer) (Kms := nat → KmsClient)).
Context (feature_kms : bool) (kms_client : SdkConfig (Provider := Provider) → nat → KmsClient).
Context (load_from_env : SdkConfig (Provider := Provider))
  (load_region : str → SdkConfig (Provider := Provider)).
Context (api_start : StartRequest → Res StartOutput) (api_terminate : str → Res ()).
Context (connect : SessionCore (C := C) → ConnectionParams (Signer := Signer)
  (Kms := nat → KmsClient) → Res (C Command)).

Definition new (region : option str) : PyResult Manager :=
  map_err to_py_err
    match region with
    | Some region => for_region feature_kms kms_client load_region region
    | None => SessionManager_new feature_kms kms_client load_from_env
    end.

(** The coroutine that the three methods return. *)
Definition start (m : Manager) (c : SessionConfig) : PyResult (Session (C := C)) * list ApiCall :=
  let '(r, calls) := Session.start_session api_start connect m c in (map_err to_py_err r, calls).

(** A bad argument raises at the call, before there is a coroutine. *)
Definition start_session (target : str) (document_name : option str)
    (parameters : option Parameters) (reason : option str) (ready_timeout : f64) (m : Manager)
  : Outcome (PyResult (Session (C := C)) * list ApiCall) :=
  c ← build_config target document_name parameters reason ready_timeout;
  Done match c with Err e => (Err e, []) | Ok c => start m c end.

Definition start_port_forward (target : str) (remote_port : Z) (reason : option str) (m : Manager)
  : PyResult (Session (C := C)) * list ApiCall :=
  start m (@forward_config _ Documents.PortForwardingSession_document target
             {| Documents.pf_remote_port := remote_port |} reason).

Definition start_remote_port_forward (target host : str) (remote_port : Z) (reason : option str)
    (m : Manager) : PyResult (Session (C := C)) * list ApiCall :=
  start m (@forward_config _ Documents.PortForwardingToRemoteHost_document target
             {| Documents.host := host; Documents.rh_remote_port := remote_port |} reason).

Definition terminate_session (id : str) : PyResult () * list ApiCall :=
  let '(r, calls) := Session.terminate_session api_terminate id in (map_err to_py_err r, calls).
End Manager.
End PySessionManager.

(** ** [Session] and [OutputStream] *)

(** A coroutine is [None] while it waits. *)
Module PySession.
Section Handle.
Context {C : Type → Type} `{Mpsc C} `{Serde TerminalSize}.
Abbreviation PySession := (Session (C := C)).

Definition id (s : PySession) : str := session_id (core s).
Definition target (s : PySession) : str := Session.target (config s).
Definition agent_version (s : PySession) : option str := Session.agent_version (core s).
Definition banner (s : PySession) : option str := Session.banner (core s).
Definition exit_code (s : PySession) : option Z := Session.exit_code (core s).
Definition is_encrypted (s : PySession) : bool := bool_decide (is_Some (core_crypto (core s))).
Definition is_ready (s : PySession) : bool := sendable (core s).
Definition is_closed (s : PySession) : bool := core_closed (core s).
Definition close_reason (s : PySession) : option text :=
  reason_to_string <$> Session.close_reason (core s).

Definition wait_ready (waited : Duration) (s : PySession) : option (PyResult ()) :=
  map_err to_py_err <$> Session.wait_ready waited s.

Definition wait_closed (s : PySession) : option (PyResult ()) :=
  if closed_resolves (core s) then Some (Ok ()) else None.

Definition send (data : list byte) (s : PySession) : option (PyResult ()) * PySession :=
  let '(r, s) := session_send data s in (map_err to_py_err <$> r, s).

Definition send_terminal_size (cols rows : Z) (s : PySession) : option (PyResult ()) * PySession :=
  let '(r, s) := Session.send_terminal_size cols rows s in (map_err to_py_err <$> r, s).

Definition output (s : PySession) : nat * PySession :=
  let '(i, c) := core_subscribe (core s) in (i, set_core s c).

(** The coroutine of a call that is at [p]: [Session::terminate] returns [Ok]. *)
Definition terminate (p : Terminating) : option (PyResult ()) :=
  match p with TDone _ => Some (Ok ()) | _ => None end.

(** Entering yields the session itself. *)
Definition aenter (waited : Duration) (s : PySession) : option (PyResult PySession) :=
  (λ r, _ ← map_err to_py_err r; Ok s) <$> Session.wait_ready waited s.

(** [__aexit__] around the same call: whether to suppress the body's exception. *)
Definition aexit (p : Terminating) : option (PyResult bool) :=
  (λ _, Ok false) <$> terminate p.

Definition session_repr (s : PySession) : text :=
  [PLit "Session(id="; PDebugStr (id s); PLit ", target="; PDebugStr (target s);
   PLit ", ready="; PLit (if is_ready s then "true" else "false");
   PLit ", closed="; PLit (if is_closed s then "true" else "false"); PLit ")"].
End Handle.
End PySession.

Module PyOutputStream.
Section Stream.
Context {C : Type → Type} `{Mpsc C}.

(** [__anext__] on stream [i]; the end of the stream is an exception. *)
Definition anext (i : nat) (f : Fanout (C := C)) : option (PyResult (list byte)) * Fanout (C := C) :=
  let '(r, f) := Channels.recv i f in
  (match r with
   | Item chunk => Some (Ok chunk)
   | Ended => Some (Err (new_err PyStopAsyncIteration []))
   | Pending_ => None
   end, f).
End Stream.
End PyOutputStream.

(** ** [PortForwarder] *)

Module PyPortForwarder.
Section Forwarder.
Context {C : Type → Type} `{Mpsc C} {P : Type} `{PortForward.Semaphore P}.
Context {K : Type} `{PortForward.CopyLoop K} {L : Type}.

Record PyPortForwarder := {
  forwarder : option (PortForward.PortForwarder L);
  local_addr : str * Z;
  shut : bool }.                     (* the shared [ShutdownSignal] *)

Context (parse_addr : str → Result text (str * Z)) (addr_to_string : str * Z → str).
Context (tcp_bind : str * Z → Result IoError L) (tcp_local_addr : L → Result IoError (str * Z)).

Definition bind (addr : str) (max_connections : Z) : PyResult PyPortForwarder :=
  match parse_addr addr with
  | Err e => Err (new_err PyValueError
               ([PDebugStr addr; PLit " is not a valid address: "] ++ e))
  | Ok addr =>
    f ← map_err to_py_err (PortForward.bind tcp_bind tcp_local_addr
          {| PortForward.local_addr := addr; PortForward.max_connections := max_connections;
             PortForward.keepalive := PortForward.keepalive PortForward.PortForwardConfig_default |});
    Ok {| forwarder := Some f; local_addr := PortForward.bound_addr f; shut := false |}
  end.

Definition address (f : PyPortForwarder) : str := addr_to_string (local_addr f).
Definition port (f : PyPortForwarder) : Z := (local_addr f).2.

(** The call takes the forwarder; the coroutine owns it from then on, with the
    session and the signal. *)
Definition forward (x : Session (C := C)) (f : PyPortForwarder)
  : PyResult (PortForward.Forwarder (C := C) (P := P) (K := K)) * PyPortForwarder :=
  match forwarder f with
  | None => (Err (new_err PyRuntimeError
               [PLit "this PortForwarder has already been used; bind a new one"]), f)
  | Some r => (Ok (PortForward.forward (PortForward.pf_config L r) x (shut f)),
               {| forwarder := None; local_addr := local_addr f; shut := shut f |})
  end.

Definition stop (f : PyPortForwarder) : PyPortForwarder :=
  {| forwarder := forwarder f; local_addr := local_addr f; shut := true |}.

Definition forwarder_repr (f : PyPortForwarder) : text :=
  [PLit "PortForwarder(address="; PDebugStr (address f); PLit ")"].
End Forwarder.
End PyPortForwarder.

(** ** [InteractiveShell] *)

Module PyInteractiveShell.
Section Shell.
Context {C : Type → Type} `{Mpsc C} {T : Type} `{Crossterm T} `{Serde TerminalSize}.
Context {Provider : Type} (feature_kms feature_interactive : bool)
  (kms_client : SdkConfig (Provider := Provider) → nat → KmsClient)
  (load_from_env : SdkConfig (Provider := Provider))
  (load_region : str → SdkConfig (Provider := Provider))
  (ssm_client : SdkConfig (Provider := Provider) → StartRequest → Res StartOutput)
  (connect : SessionCore (C := C) → ConnectionParams
     (Signer := UpgradeSigner (Provider := Provider)) (Kms := nat → KmsClient)
     → Res (C Command)).

Definition shell_new (show_banner : bool) (region reason : option str) : option InteractiveConfig :=
  if feature_interactive then
    Some {| Interactive.show_banner := show_banner; send_initial_size := true;
            ic_region := region; ic_reason := reason |}
  else None.

(** The shell that runs, or the exception; [outcome] is what its future then yields. *)
Definition run (tty_in tty_out : bool) (cfg : option InteractiveConfig) (target : str) (t : T)
  : PyResult (Shell (C := C) (T := T)) * list ApiCall :=
  match cfg with
  | Some cfg =>
    let '(r, calls) := Interactive.run feature_kms kms_client load_from_env load_region ssm_client
                         connect tty_in tty_out cfg target t in
    (map_err to_py_err r, calls)
  | None => (Err (new_err PyRuntimeError
               [PLit "this build was compiled without the `interactive` feature"]), [])
  end.
Definition outcome (s : Shell (C := C) (T := T)) : option (PyResult (option Z)) :=
  match sh_phase s with Returned r => Some (map_err to_py_err r) | _ => None end.
End Shell.
End PyInteractiveShell.

(** ** Configurations from Python and from Rust *)

(** The documents of the crate. *)
Inductive crate_document : ∀ D, Documents.SsmDocument D → Prop :=
| CrateShell : crate_document _ Documents.ShellSession_document
| CratePort : crate_document _ Documents.PortForwardingSession_document
| CrateRemote : crate_document _ Documents.PortForwardingToRemoteHost_document
| CrateSsh : crate_document _ Documents.SshSession_document
| CrateInteractive : crate_document _ Documents.InteractiveCommand_document
| CrateNonInteractive : crate_document _ Documents.NonInteractiveCommand_document.

Lemma document_spec_crate D (i : Documents.SsmDocument D) (d : D) :
  crate_document D i →
  document_spec (Documents.document_name d) (Documents.parameters d) = Documents.DocumentSpec_new d.
Proof.
  intros Hc. unfold document_spec, Documents.DocumentSpec_new. f_equal.
  destruct Hc; vm_compute; reflexivity.
Qed.

Definition built (t : str) (ops : list SessionBuilder.builder_op) : SessionConfig :=
  SessionBuilder.into_config (foldl SessionBuilder.builder_step (SessionBuilder_new t) ops).
Definition given_reason (r : option str) : list SessionBuilder.builder_op :=
  match r with Some r => [SessionBuilder.Reason r] | None => [] end.

(** A session configured from Python is the one Rust's builder makes.  Naming
    any of the crate's six documents with its parameters gives, with the type
    guessed from the name, exactly the specification of that document; a plain
    shell and the two port-forwarding methods agree with the builder too.  The
    timeout is the one [seconds] makes, and its [ValueError] or panic is the
    only way to fail. *)
Theorem build_config_builder t reason v :
  (∀ D (i : Documents.SsmDocument D) (d : D), crate_document D i →
     build_config t (Some (Documents.document_name d)) (Some (Documents.parameters d)) reason v
     = (x ← seconds v "ready_timeout";
        Done (x ← x; Ok (built t ([SessionBuilder.Document D i d; SessionBuilder.ReadyTimeout x]
                                    ++ given_reason reason)))))
  ∧ (∀ ps, build_config t None ps reason v
     = (x ← seconds v "ready_timeout";
        Done (x ← x; Ok (built t (SessionBuilder.ReadyTimeout x :: given_reason reason)))))
  ∧ (∀ p, @forward_config _ Documents.PortForwardingSession_document t
            {| Documents.pf_remote_port := p |} reason
          = built t (SessionBuilder.PortForward p :: given_reason reason))
  ∧ (∀ h p, let d := {| Documents.host := h; Documents.rh_remote_port := p |} in
       @forward_config _ Documents.PortForwardingToRemoteHost_document t d reason
       = built t (SessionBuilder.Document _ Documents.PortForwardingToRemoteHost_document d
                    :: given_reason reason)).
Proof.
  split_and!.
  - intros D i d Hd. unfold build_config.
    change (_ <$> Some (Documents.document_name d))
      with (Some (document_spec (Documents.document_name d) (Documents.parameters d))).
    rewrite (document_spec_crate D i d Hd).
    destruct (seconds v _) as [[x|e]|]; [|done..]. by destruct reason.
  - intros ps. unfold build_config. destruct (seconds v _) as [[x|e]|]; [|done..]. by destruct reason.
  - intros p. by destruct reason.
  - intros h p. by destruct reason.
Qed.

Lemma build_config_builder_witness :
  build_config (lit "i-abc") (Some (lit "AWS-StartSSHSession"))
    (Some (Documents.params [(lit "portNumber", u64_to_string 22)])) (Some (lit "ops"))
    (S754_finite false 3 (-1))
  = Done (Ok (built (lit "i-abc")
      [SessionBuilder.Document _ Documents.SshSession_document Documents.SshSession_new;
       SessionBuilder.ReadyTimeout 1500000000; SessionBuilder.Reason (lit "ops")])).
Proof.
  destruct (build_config_builder (lit "i-abc") (Some (lit "ops")) (S754_finite false 3 (-1)))
    as [Hd _].
  specialize (Hd _ _ Documents.SshSession_new CrateSsh).
  assert (Hs : seconds (S754_finite false 3 (-1)) "ready_timeout" = Done (Ok 1500000000))
    by (vm_compute; reflexivity).
  rewrite Hs in Hd. exact Hd.
Defined.

(** ** [async with] *)

Section AsyncWith.
Context {C : Type → Type} `{Mpsc C} `{Serde TerminalSize}.

(** What happens to a session while a coroutine holds it: the calls of the body, those of
    [terminate] in their steps ([Termination]), and the moves of the session's own tasks. *)
Inductive py_op :=
| PySend (data : list byte)
| PySize (cols rows : Z)
| PyOutput
| PyNext (i : nat)
| PyBegin (k : nat)                  (* call [k] of [terminate] is made *)
| PyAdvance (k : nat)                (* goes on *)
| PyCancel (k : nat)                 (* is cancelled *)
| PyAgent (o : core_op).

(** Call 0 of [terminate] is the one [__aexit__] makes. *)
Definition py_step (x : Calls (C := C)) (o : py_op) : Calls :=
  let s := x_session x in
  match o with
  | PySend data => with_session x (PySession.send data s).2
  | PySize c r => with_session x (PySession.send_terminal_size c r s).2
  | PyOutput => with_session x (PySession.output s).2
  | PyNext i =>
    with_session x (set_core s (set_fanout (core s) (PyOutputStream.anext i (fanout (core s))).2))
  | PyBegin k => call_step x (Begin (S k))
  | PyAdvance k => call_step x (Advance (S k))
  | PyCancel k => call_step x (Cancel (S k))
  | PyAgent o => with_session x (set_core s (core_step (core s) o))
  end.

(** Meanwhile, or a step of [__aexit__], which can be cancelled as well. *)
Inductive exit_op := Meanwhile (o : py_op) | ExitStep | ExitCancel.
Definition exit_step (x : Calls (C := C)) (o : exit_op) : Calls :=
  match o with
  | Meanwhile o => py_step x o
  | ExitStep => call_step x (Advance 0)
  | ExitCancel => call_step x (Cancel 0)
  end.

(** [async with session: body], with the waiting time of [__aenter__]; the body is
    what it does and how it ends, and then [exit] happens.  [None]: still entering.
    Otherwise the outcome, [None] until [__aexit__] has returned, and the session. *)
Definition async_with (waited : Duration) (body : list py_op) (result : PyResult ())
    (exit : list exit_op) (s : Session (C := C)) : option (option (PyResult ()) * Calls (C := C)) :=
  match PySession.aenter waited s with
  | None => None
  | Some (Err e) => Some (Some (Err e), no_calls s)
  | Some (Ok s) =>
    let x := foldl py_step (no_calls s) body in
    let x := foldl exit_step (call_step x (Begin 0)) exit in
    Some ((r ← x_calls x !! 0%nat ≫= PySession.aexit;
           Some match r with
                | Err e => Err e
                | Ok suppress => if suppress : bool then Ok () else result
                end), x)
  end.

(** Each is a history of [Termination]. *)
Definition py_calls (o : py_op) : list call_op :=
  match o with
  | PySend data => [Dispatch (Data data)]
  | PySize c r =>
    match to_vec {| cols := c; rows := r |} with
    | Ok payload => [Dispatch (Control Pt_Size payload)]
    | Err _ => []
    end
  | PyOutput => [Other OpSubscribe]
  | PyNext i => [Recv i]
  | PyBegin k => [Begin (S k)]
  | PyAdvance k => [Advance (S k)]
  | PyCancel k => [Cancel (S k)]
  | PyAgent o => [Other o]
  end.
Definition exit_calls (o : exit_op) : list call_op :=
  match o with Meanwhile o => py_calls o | ExitStep => [Advance 0] | ExitCancel => [Cancel 0] end.
Definition with_calls (body : list py_op) (exit : list exit_op) : list call_op :=
  concat (py_calls <$> body) ++ [Begin 0] ++ concat (exit_calls <$> exit).

Lemma with_session_id (x : Calls (C := C)) : with_session x (x_session x) = x.
Proof. by destruct x. Qed.

Lemma py_step_calls x o : py_step x o = calls_run x (py_calls o).
Proof.
  destruct o as [d|c r| |i|k|k|k|o]; cbn; try done.
  - unfold PySession.send, session_send. by destruct (dispatch _ _).
  - unfold PySession.send_terminal_size, Session.send_terminal_size.
    destruct (to_vec _); cbn; [by destruct (dispatch _ _)|apply with_session_id].
  - unfold PySession.output. by destruct (core_subscribe _).
  - unfold PyOutputStream.anext. by destruct (recv _ _).
Qed.

Lemma py_run_calls body : ∀ x, foldl py_step x body = calls_run x (concat (py_calls <$> body)).
Proof.
  induction body as [|o body IH]; intros x; [done|]. cbn [foldl fmap list_fmap concat].
  rewrite IH, py_step_calls. unfold calls_run. by rewrite foldl_app.
Qed.

Lemma exit_run_calls exit : ∀ x,
  foldl exit_step x exit = calls_run x (concat (exit_calls <$> exit)).
Proof.
  induction exit as [|o exit IH]; intros x; [done|]. cbn [foldl fmap list_fmap concat].
  rewrite IH. unfold calls_run. rewrite foldl_app. f_equal.
  destruct o as [o| |]; [apply py_step_calls|done..].
Qed.

Lemma with_run_calls body exit (s : Session (C := C)) :
  foldl exit_step (call_step (foldl py_step (no_calls s) body) (Begin 0)) exit
  = calls_run (no_calls s) (with_calls body exit).
Proof.
  rewrite exit_run_calls, py_run_calls. unfold with_calls, calls_run. by rewrite !foldl_app.
Qed.

(** Only calls of [terminate] close the session. *)
Definition no_close (o : py_op) : Prop := match o with PyAgent (OpClose _) => False | _ => True end.
Definition no_close_exit (o : exit_op) : Prop := match o with Meanwhile o => no_close o | _ => True end.

Lemma no_close_calls o : no_close o → Forall (λ op, ¬ outside_close op) (py_calls o).
Proof.
  destruct o as [d|c r| |i|k|k|k|o]; cbn; intros Ho;
    try (repeat constructor; by intros [r' [=]]).
  - destruct (to_vec _); repeat constructor. by intros [r' [=]].
  - repeat constructor. intros [r' [= ->]]. done.
Qed.

Lemma no_close_with body exit :
  Forall no_close body → Forall no_close_exit exit →
  Forall (λ op, ¬ outside_close op) (with_calls body exit).
Proof.
  intros Hb He. unfold with_calls. apply Forall_app. split; [|constructor].
  - apply Forall_concat, Forall_fmap. eapply Forall_impl; [exact Hb|]. apply no_close_calls.
  - by intros [r [=]].
  - apply Forall_concat, Forall_fmap. eapply Forall_impl; [exact He|].
    intros [o| |]; [apply no_close_calls|..]; repeat constructor; by intros [r [=]].
Qed.

(** C28: [async with] on a session.  Entering waits until the session can carry data, has
    ended or its timeout has passed.  Once entered, and whatever the body and others do
    with the session, calls of [terminate] in their steps included: when [__aexit__]
    returns, the statement ends as its body does, with no exception suppressed and none
    replaced, and the session is closed; unless it is cancelled, [__aexit__] returns.  The
    requests to the service are one [TerminateSession] for each call, that of [__aexit__]
    among them, that found the session open and got past its join.  If nobody else ends
    the session and every call has returned, it is closed as terminated and the service
    was told; by [__aexit__] alone, exactly once.  If entering fails, nothing is released:
    after the timeout the session is open as before, with no call made, although the class
    promises to guarantee termination. *)
Theorem async_with_spec waited body result exit (s : Session (C := C)) :
  match async_with waited body result exit s with
  | None => sendable (core s) = false ∧ core_closed (core s) = false
            ∧ waited < ready_timeout (config s)
  | Some (r, x) =>
    let request := TerminateSession (session_id (core s)) in
    if sendable (core s) then
      (∀ r', r = Some r' → r' = result ∧ core_closed (core (x_session x)) = true)
      ∧ (0%nat ∉ x_dropped x →
         ∃ y, async_with waited body result (exit ++ replicate 4 ExitStep) s = Some (Some result, y))
      ∧ x_log x = (if ssm s then replicate (releases x) request else [])
      ∧ (length (x_log x) ≤ size (x_calls x))%nat
      ∧ (core_closed (core s) = false → Forall no_close body → Forall no_close_exit exit →
         (∀ k p, x_calls x !! k = Some p → ∃ b, p = TDone b) →
         close_reason (core (x_session x)) = Some Terminated
         ∧ (ssm s = true → request ∈ x_log x))
    else x = no_calls s
      ∧ ∃ e, r = Some (Err e)
        ∧ py_class e = (if core_closed (core s) then SsmClosedError else SsmTimeoutError)
  end.
Proof.
  unfold async_with, PySession.aenter, Session.wait_ready, wait_sendable, closed_resolves.
  destruct (sendable (core s)); cbn [orb].
  2: { destruct (core_closed (core s)); cbn; [by eauto|].
       destruct (Z.leb_spec (ready_timeout (config s)) waited); cbn; [by eauto|done]. }
  cbn [fmap option_fmap option_map map_err mbind Result_bind].
  rewrite !with_run_calls.
  assert (Hmore : calls_run (no_calls s) (with_calls body (exit ++ replicate 4 ExitStep))
    = calls_run (calls_run (no_calls s) (with_calls body exit)) (replicate 4 (Advance 0))).
  { unfold with_calls, calls_run. by rewrite fmap_app, concat_app, !app_assoc, foldl_app. }
  rewrite Hmore.
  pose proof (calls_run_ok s (with_calls body exit)) as Hok.
  pose proof (closed_by_call_run s (with_calls body exit)) as Hby.
  assert (Hzero : is_Some (x_calls (calls_run (no_calls s) (with_calls body exit)) !! 0%nat)).
  { unfold with_calls, calls_run. rewrite !foldl_app. apply calls_present. cbn.
    case_decide; [done|]. cbn. by rewrite lookup_insert_eq. }
  pose proof (no_close_with body exit) as Hnc.
  revert Hok Hby Hzero Hnc. generalize (calls_run (no_calls s) (with_calls body exit)).
  generalize (with_calls body exit). clear Hmore. intros ops x Hok Hby [p0 Hp0] Hnc.
  split_and!.
  - rewrite Hp0. cbn. intros r'. destruct p0; cbn; [done..|]. intros [= <-]. split; [done|].
    by apply (ck_closed _ _ Hok 0%nat _ Hp0); left.
  - intros Hd. destruct (call_finishes x 0 p0 Hp0 Hd) as [b Hb]. eexists. by rewrite Hb.
  - apply (ck_log _ _ Hok).
  - by apply (log_bounded s).
  - intros Ho Hb He Hall. specialize (Hby Ho (Hnc Hb He)).
    destruct (Hall _ _ Hp0) as [b ->].
    destruct Hby as [Hr (k & q & Hk & Hsaw & _)];
      [by apply (ck_closed _ _ Hok 0%nat _ Hp0); left|].
    split; [done|]. intros Hs. rewrite (ck_log _ _ Hok), Hs.
    destruct (Hall k q Hk) as [b' ->]. cbn in Hsaw. subst b'.
    apply elem_of_replicate. split; [done|]. by apply releases_pos with k (TDone true).
Qed.

(** A task that is cancelled in [__aexit__] while the channel winds down leaves the session
    closed and unreleased. *)
Lemma cancelled_exit_unreleased waited result (s : Session (C := C)) r x :
  sendable (core s) = true →
  async_with waited [] result [ExitStep; ExitStep; ExitCancel] s = Some (r, x) →
  r = None ∧ core_closed (core (x_session x)) = true ∧ x_log x = [].
Proof.
  intros Hs. unfold async_with, PySession.aenter, Session.wait_ready, wait_sendable.
  rewrite Hs. intros [= <- <-]. split; [done|]. exact (cancelled_release_lost s []).
Qed.
End AsyncWith.

Section PythonWitnesses.
#[local] Existing Instance toy_size_serde.

Definition py_session :=
  {| core := set_sendable true (core toy_session); commands := commands toy_session;
     config := config toy_session; ssm := true |}.

(** The body sends, begins to terminate the session itself and then raises. *)
Definition py_body : list py_op :=
  [PyOutput; PySend [x6c; x73]; PyAgent (OpEmit [x24]); PyNext 0; PyBegin 0; PyAdvance 0; PyAdvance 0].
Definition py_exit : list exit_op :=
  [ExitStep; Meanwhile (PyAdvance 0); ExitStep; Meanwhile (PyAdvance 0); ExitStep].

Abbreviation py_left :=
  (foldl exit_step (call_step (foldl py_step (no_calls py_session) py_body) (Begin 0)) py_exit).

Lemma async_with_spec_witness :
  let e := new_err PyValueError [PLit "boom"] in
  async_with 0 py_body (Err e) py_exit py_session = Some (Some (Err e), py_left)
  ∧ core_closed (core (x_session py_left)) = true
  ∧ TerminateSession (session_id (core toy_session)) ∈ x_log py_left.
Proof.
  intros e. pose proof (async_with_spec 0 py_body (Err e) py_exit py_session) as Hs.
  assert (Hcalls : x_calls py_left = {[0%nat := TDone false; 1%nat := TDone true]})
    by (vm_compute; reflexivity).
  assert (Hx : async_with 0 py_body (Err e) py_exit py_session = Some (Some (Err e), py_left)).
  { change (Some (r ← x_calls py_left !! 0%nat ≫= PySession.aexit;
      Some (match r with Err e => Err e | Ok suppress => if suppress : bool then Ok () else Err e end),
      py_left) = Some (Some (Err e), py_left)). by rewrite Hcalls. }
  rewrite Hx in Hs. change (sendable (core py_session)) with true in Hs. cbv iota zeta in Hs.
  destruct Hs as (Hret & _ & _ & _ & Hrel). destruct (Hret _ eq_refl) as [_ Hc].
  split; [exact Hx|]. split; [exact Hc|].
  apply Hrel; [reflexivity|repeat constructor|repeat constructor| |reflexivity].
  intros k p. rewrite Hcalls. intros [[_ <-]|[_ Hp]]%lookup_insert_Some; [by eexists|].
  apply lookup_singleton_Some in Hp as [_ <-]. by eexists.
Defined.
End PythonWitnesses.
